(* ===== verification/_CoqProject ===== *)
-Q . S2P
Prelude.v
Fmt.v
Double.v
Calc.v
Posix.v
Local.v
Explore.v
Common.v
Guarded.v
Fan.v
Shm.v
Ring.v
RingSpec.v
Semaphores.v
Interrupts.v
Sysv.v
Barrier.v
Files.v
FileLocks.v
Msgq.v
Workers.v
Io.v
AltIo.v
Pipes.v
Sockets.v
CalcServer.v
CalcEnd.v
TcpServer.v
TcpMany.v
Resolve.v
Sig.v
SigExplore.v
SignalProgs.v
SignalIo.v
Timed.v
CalcMain.v
AltStack.v
Pipeline.v
ForkFails.v
