(* ===== verification/Prelude.v ===== *)
(** * Verification of the Operating-Systems-Programs repository

    ** The program

    The repository is a set of C programs, each of which shows one facility
    of Unix: processes that share memory, semaphores, file locks, message
    queues, pipes, sockets, signals and readiness calls, linked with the
    helpers of [Common/common.c].  Apart from the calculator server and its
    client, which talk to each other over a Unix socket, every program forks
    the processes it needs and talks to itself.  What makes the programs
    correct is therefore how their processes interact through the kernel:
    what each prints, in which order, that nothing is lost, that nobody waits
    forever, and what is left behind.

    ** How it is modelled

    A C function is a value of type [prog] ([Posix]): a tree of system and
    library calls with a continuation for every reply, written with a monadic
    notation that follows the source line by line.  [int] arithmetic is
    [int_add] and [int_mul], whose overflow is the program [Undef], as are
    reads of uninitialised structs and writes outside a buffer; [for] and
    [while] loops are [for_] and [loop].  A [world] is a table of processes
    (what each has left to run, its parent, its stdio buffer), the state of a
    kernel, and what has been written to standard output and standard error.
    [step] lets any process make its next call: the interleaving is that of
    single calls, and of single loads and stores of shared memory.  [fork]
    copies the stdio buffer, [exit] writes it out and [_exit] drops it, as
    [tty cf] decides whether lines are written at once.  The kernel is a type
    class, [Kernel], with one instance for each family of calls:

    - [Shm]: POSIX shared memory, semaphores and process-shared mutexes;
    - [Sysv]: System V semaphore sets with [SEM_UNDO], and segments;
    - [Msgq]: System V message queues;
    - [Files]: descriptors, descriptions and files with the three kinds of
      lock and file mappings;
    - [Io]: descriptors over pipes, FIFOs, stream and datagram sockets with
      descriptor passing, files with seals, event counters, [poll], [select]
      and [epoll];
    - [Timed]: POSIX message queues with notification, a clock, timed waits;
    - [Sig]: a layer over any of these that adds actions, masks, pending and
      queued signals, handlers that run in front of the interrupted code,
      [SA_RESTART] and [EINTR], and the global variables handlers share;
    - [Pipeline]: descriptors with the standard streams, pipes, [dup2] and
      [exec];
    - [AltStack] and [Resolve] have machines of their own for the one
      program each is about.

    The kernels describe documented behaviour of Linux and POSIX.  Blocking
    calls block; calls that fail because of the state fail with the [errno]
    of that case.

    ** What the theorems say

    [total cf w Q]: every schedule from [w] ends, and every final state
    satisfies [Q]; a deadlock is a final state, so [Q] excludes it.  [finished
    code text w] is a clean end: the exit code, the text on standard output,
    nothing on standard error, every child reaped.  [sig_total] is the same
    over schedules that also choose when signals are delivered.  [runs p tr o]
    quantifies over every reply of every call instead: it is used for code
    whose point is to cope with a kernel that misbehaves ([write_all], the
    calculator's sessions).  [stepi] is [step] with calls that may fail with
    [EINTR] besides, and [childless] the run of a program every [fork] of
    which fails.  Theorems are for every terminal setting and
    every process id of the first process unless they say otherwise.

    ** The files

    Infrastructure: [Prelude] (this file), [Fmt] (the conversions of
    [printf]), [Double] (binary64, [strtod], [%.3f]), [Posix], [Local]
    (commuting steps), [Explore] and [SigExplore] (all schedules of a small
    program by a tactic that merges equal states), [Common]
    ([Common/common.c]), [Guarded] (the shape "children increment a counter
    under a lock", for any lock that satisfies the class [MutexGuard]), [Fan]
    (the shape "fork children, do something, reap them", for any code).

    Programs, by file and theorem:
    - [Calc]: the evaluator of [Sockets/unix_calc_server.c]; equivalence with
      a declarative grammar and its binary64 value ([evaluate_correct]),
      rejection, termination within [fuel_for], printing and parsing back.
      [CalcServer]: [serve] and [Sockets/unix_calc_client.c] under every
      behaviour of the kernel, and the length of the answers.  [CalcEnd]: the two connected by byte streams, from the
      argument of the client to the text it shows, and what the sizes of
      the two buffers cut off.  [CalcMain]: the accept loop, the [SIGCHLD]
      handler and the session of server and client that [README.md] shows.
    - [Ring], [RingSpec]: [SharedMemory/posix_shm_ring_sem.c]; correctness
      under every schedule; the trace of its accesses to the slots is that
      of a bounded first-in first-out queue; no data race.
    - [Interrupts]: programs that start interrupted calls again guarantee
      with interruptions what they guarantee without
      ([total_interrupted]); the ring does ([ring_interrupted]), the two
      semaphore programs do not ([unchecked_waits]).
    - [ForkFails]: what the programs do when no process can be created.
    - [Shm], [Sysv], [FileLocks] (modules [ProcessSharedMutex],
      [BinaryGuard], [MmapCounter]): the three guarded counters, as
      instances of [MutexGuard].
    - [Barrier], [Workers]: [Semaphores/sysv_semaphore_set_barrier.c] and
      [MessageQueues/sysv_priority_workers.c] for any number of processes, as
      clients of [Fan].
    - [FileLocks] (modules [Ordered], [Ranges], [FlockParentChild],
      [SingleInstance], [OfdCounter]): the programs of [FileLocking].
    - [Semaphores] ([PingPong], [Latch]), [Msgq] ([RequestReply],
      [QueueControl]), [Timed] ([SemTimedwaitTimeout], [MqTimedReceive],
      [MqNotifySignal]).
    - [Pipes] ([FifoChat], [FullDuplex], [SpliceZeroCopy], [MemfdSealed],
      [CopyOnWrite]), [AltIo] (select, poll, epoll, eventfd), [Sockets]
      ([AbstractPing], [FdPassing], [DgramLogger], [HalfClose], [UdpEcho],
      [Rebind], [EpollEcho]), [Resolve].  [TcpServer], [TcpMany]:
      [InternetSockets/tcp_forking_echo_server.c], with any number of
      clients by an invariant over who holds which descriptor.  [Pipeline]:
      [Pipes/anonymous_pipeline_exec.c], for every program executed as [tr]
      that is a filter.
    - [SignalProgs] ([MaskPending], [SigqueuePayload], [RealtimeOrder],
      [SigsuspendWait]), [SignalIo] ([RestartDemo], [SignalfdUsr1],
      [SelfPipe], [Supervisor]), [AltStack].

    Defects: some theorems show that a program does not do what it means to:
    [ofd_lock_counter_loses_updates], [fifo_chat_deadlock],
    [request_reply_pid_1], [pingpong_correct] (the order when standard output
    is not a terminal), [single_instance_correct] (the tail of an old lock
    file), [self_pipe_dies] and [supervisor_dies] ([poll] interrupted by the
    signal it waits for), [client_truncates], [server_truncates],
    [unchecked_waits], [reap_gives_up], [fork_failure_hangs],
    [fork_failure_unnoticed], [pipeline_without_tr].

    ** Bounds and fuel

    The machine has no fuel: termination is part of [total].  The evaluator
    has fuel, and [fuel_for] is proved to be enough for every input.
    [explore] needs as many rounds as the longest schedule, which the proof
    finds.  [jrun] of [AltStack] has a step count, which its theorem gives;
    [childless] asks for some number of steps after which nothing moves.
    The general theorems are for any number of workers up to what a semaphore
    or the message types can hold; [TcpMany] is for any number of clients, the
    backlog of the listening socket being unbounded in the kernel's model.
    The session of [CalcMain] is the one [README.md] shows, with its path and
    expression and with concrete process ids, since the text of an id decides
    the length of the messages; [CalcEnd] is for every expression.

    ** What is assumed, and what is not modelled

    In [step] a call does not fail for reasons outside the state: [fork]
    succeeds, and a call that is not interrupted by a modelled signal does
    not return [EINTR].  [kfails] and [stepf] describe such failures; the
    theorems by [runs], [Interrupts] and [ForkFails] cover them for the code
    they are about.  [tr] is assumed to be a filter ([filters]), the resolver
    of [Resolve] to answer as documented.  Process ids
    are consecutive and not reused.  [usleep] takes any time, so that the
    programs' delays order nothing; a [poll] or [select] with a timeout waits
    as long as it takes, the timeouts being there to report a hang.  A [write] to a pipe or socket is
    atomic and takes the whole text (short writes: see [write_all_correct]);
    a [printf] of many lines to a terminal is one write.  Memory is
    sequentially consistent.

    Not modelled: the [Makefile], the scripts and the documents.  The kernels' own tables, pipes and socket buffers are
    unlimited; the limits of message queues and of semaphore values are
    modelled.

    ** Plan

    Next: sessions of the calculator with several clients at once, by the
    invariant of [TcpMany]. *)

From Stdlib Require Export Ascii String ZArith Lia Bool.
From stdpp Require Export base tactics numbers list relations.
(* The scopes of the standard lists win over those of strings. *)
From Stdlib Require Import List.

#[global] Open Scope Z_scope.
#[global] Open Scope list_scope.

(** ** Bytes *)

(** A C character buffer or a byte stream: a list of characters. *)
Abbreviation bytes := (list ascii).

#[export] Instance ascii_eq_dec : EqDecision ascii := Ascii.ascii_dec.

(** [B "text"] is the byte sequence of a string literal of the source,
    without its terminating NUL. *)
Definition B (s : string) : bytes := list_ascii_of_string s.

(** The characters the sources escape. *)
Definition NUL : ascii := ascii_of_nat 0.
Definition LF : ascii := ascii_of_nat 10.

(** The byte that fills what a file extension or a gap leaves unwritten. *)
Definition hole : ascii := NUL.

(** [ln "text"] is the literal ["text\n"]. *)
Definition ln (s : string) : bytes := B s ++ [LF].
#[global] Arguments B s : simpl never.
#[global] Arguments ln s : simpl never.

(** The C string at the start of a buffer: the characters before the
    first NUL. *)
Definition is_nul (c : ascii) : bool := Ascii.eqb c NUL.
Fixpoint cstr (b : bytes) : bytes :=
  match b with
  | [] => []
  | c :: b' => if is_nul c then [] else c :: cstr b'
  end.

(** [blen] is the length of a buffer as the C code sees it, a size. *)
Definition blen (b : bytes) : Z := Z.of_nat (length b).

(** ** Machine integers *)

Definition INT_MIN : Z := - 2 ^ 31.
Definition INT_MAX : Z := 2 ^ 31 - 1.

(** Signed [int] values: arithmetic outside this range is undefined
    behaviour in C, and the model turns it into the [Undef] program. *)
Definition in_int (z : Z) : bool := (INT_MIN <=? z) && (z <=? INT_MAX).

Lemma in_int_spec z : in_int z = true <-> INT_MIN <= z <= INT_MAX.
Proof. unfold in_int. rewrite andb_true_iff, !Z.leb_le. tauto. Qed.

(** Equality of identifiers that a proof may leave symbolic: process ids
    used as message types, port numbers. *)
Definition sym_eqb (a b : Z) : bool := a =? b.

Lemma sym_eqb_refl a : sym_eqb a a = true.
Proof. apply Z.eqb_refl. Qed.

(** ** The error numbers the programs test for or report *)

Inductive errno : Type :=
| EOK | EPERM | ENOENT | EINTR | E2BIG | EBADF | ECHILD | EAGAIN | ENOMEM
| EEXIST | EINVAL | EMFILE | EPIPE | ERANGE | EDEADLK | ENOLCK | EIDRM
| EOVERFLOW | ETIMEDOUT | EADDRINUSE | ECONNREFUSED | EMSGSIZE | EFBIG | EBUSY.

#[export] Instance errno_eq_dec : EqDecision errno.
Proof. solve_decision. Defined.

(** ** Shared tactics *)

Create HintDb posix discriminated.

(** Split a hypothesis [H : (if b then _ else _) = _] style goal on every
    remaining match and close the impossible branches. *)
Ltac cases_in H :=
  repeat (case_match; simplify_eq/=; try done).

(** Boolean comparisons to arithmetic, then [lia]. *)
Ltac zbool :=
  repeat match goal with
  | H : (_ =? _)%Z = true |- _ => apply Z.eqb_eq in H
  | H : (_ =? _)%Z = false |- _ => apply Z.eqb_neq in H
  | H : (_ <=? _)%Z = true |- _ => apply Z.leb_le in H
  | H : (_ <=? _)%Z = false |- _ => apply Z.leb_gt in H
  | H : (_ <? _)%Z = true |- _ => apply Z.ltb_lt in H
  | H : (_ <? _)%Z = false |- _ => apply Z.ltb_ge in H
  | H : (_ >? _)%Z = true |- _ => apply Z.gtb_lt in H
  | H : (_ >? _)%Z = false |- _ => rewrite Z.gtb_ltb in H
  | H : _ && _ = true |- _ => apply andb_true_iff in H as [? ?]
  end.

Ltac zsolve := zbool; lia.

(** ** Lists *)

(** The sum of a measure over a list, and how it changes when one entry is
    replaced. *)
Definition sumf {A} (f : A -> nat) (l : list A) : nat := sum_list_with f l.
#[global] Arguments sumf {A} f l : simpl never.

Lemma sumf_insert {A} (f : A -> nat) (l : list A) i a b :
  l !! i = Some a -> (sumf f (<[i:=b]> l) + f a = sumf f l + f b)%nat.
Proof.
  unfold sumf. revert i. induction l as [|x l IH]; intros [|i] H; simplify_eq/=; [lia|].
  specialize (IH _ H). lia.
Qed.

Lemma sumf_app {A} (f : A -> nat) (l k : list A) :
  sumf f (l ++ k) = (sumf f l + sumf f k)%nat.
Proof. unfold sumf. apply sum_list_with_app. Qed.

Lemma sumf_const {A} (f : A -> nat) (l : list A) n :
  Forall (fun a => f a = n) l -> sumf f l = (length l * n)%nat.
Proof. unfold sumf. induction 1; simpl in *; lia. Qed.

Lemma sumf_le {A} (f : A -> nat) (l : list A) i a :
  l !! i = Some a -> (f a <= sumf f l)%nat.
Proof.
  unfold sumf. revert i. induction l as [|x l IH]; intros [|i] H; simplify_eq/=; [lia|].
  specialize (IH _ H). lia.
Qed.

Lemma sumf_cons {A} (f : A -> nat) a (l : list A) : sumf f (a :: l) = (f a + sumf f l)%nat.
Proof. done. Qed.

Lemma sumf_plus {A} (f g : A -> nat) (l : list A) :
  sumf (fun a => f a + g a)%nat l = (sumf f l + sumf g l)%nat.
Proof. induction l as [|a l IH]; [done|]. rewrite !sumf_cons, IH. lia. Qed.

Lemma sumf_ext {A} (f g : A -> nat) l : (forall a, a ∈ l -> f a = g a) -> sumf f l = sumf g l.
Proof.
  induction l as [|a l IH]; intros H; [done|]. rewrite !sumf_cons, (H a), IH; [done| |constructor].
  intros b Hb. apply H. by constructor.
Qed.

Lemma fmap_const {A A'} (f : A -> A') (l : list A) x :
  Forall (fun a => f a = x) l -> f <$> l = replicate (length l) x.
Proof. induction 1 as [|a l Ha _ IH]; cbn; [done|]. by rewrite Ha, IH. Qed.
