(* ===== verification/Fmt.v ===== *)
(** * Fmt: the conversions of [printf] and [snprintf] the programs use

    [%d], [%ld], [%u], [%lu], [%llu] and [%x] on integers, [%s] on C strings,
    and the truncation rule of [snprintf]. *)

From S2P Require Import Prelude.

(** The digit characters of [%d] and [%x]. *)
Definition digit (d : Z) : ascii :=
  ascii_of_nat (Z.to_nat (if d <? 10 then 48 + d else 87 + d)).

Definition digit_val (c : ascii) : Z :=
  let n := Z.of_nat (nat_of_ascii c) in
  if (48 <=? n) && (n <=? 57) then n - 48
  else if (97 <=? n) && (n <=? 122) then n - 87
  else if (65 <=? n) && (n <=? 90) then n - 55
  else 36.

Fixpoint digits_aux (fuel : nat) (base n : Z) (acc : bytes) : bytes :=
  match fuel with
  | O => acc
  | S fuel' =>
      let acc' := digit (n mod base) :: acc in
      if n <? base then acc' else digits_aux fuel' base (n / base) acc'
  end.

(** The digits of [n >= 0]; [log2 n + 1] rounds are enough, since a round
    divides [n] by at least two. *)
Definition digits (base n : Z) : bytes :=
  digits_aux (S (Z.to_nat (Z.log2 n))) base n [].

Definition fmt_u (n : Z) : bytes := digits 10 n.
Definition fmt_x (n : Z) : bytes := digits 16 n.
Definition fmt_d (n : Z) : bytes :=
  if n <? 0 then B "-" ++ fmt_u (- n) else fmt_u n.

(** The same for identifiers that a proof may leave symbolic (process ids,
    ports). *)
Definition fmt_id (n : Z) : bytes := fmt_d n.

#[global] Arguments fmt_id n : simpl never.
#[global] Arguments digits base n : simpl never.
#[global] Arguments fmt_u n : simpl never.
#[global] Arguments fmt_x n : simpl never.
#[global] Arguments fmt_d n : simpl never.

(** The value a digit string denotes. *)
Definition digits_val (base : Z) (b : bytes) : Z :=
  fold_left (fun acc c => acc * base + digit_val c) b 0.

(** [snprintf(buf, size, ...)] with formatted text [s]: the contents of the
    buffer and the value returned. *)
Definition snprintf (size : Z) (s : bytes) : bytes * Z :=
  (take (Z.to_nat (size - 1)) s ++ [NUL], blen s).

(** ** Facts *)

Lemma digit_val_digit d : 0 <= d < 16 -> digit_val (digit d) = d.
Proof.
  intros Hd. assert (Hc : In d [0;1;2;3;4;5;6;7;8;9;10;11;12;13;14;15]) by (cbn; lia).
  cbn in Hc. intuition subst; reflexivity.
Qed.

Lemma digits_aux_acc fuel base n acc :
  digits_aux fuel base n acc = digits_aux fuel base n [] ++ acc.
Proof.
  revert n acc. induction fuel as [|fuel IH]; intros n acc; cbn; [done|].
  destruct (n <? base); [done|].
  rewrite IH, (IH _ [_]). by rewrite <- app_assoc.
Qed.

(** Unfolding one round. *)
Lemma digits_aux_step fuel base n :
  digits_aux (S fuel) base n [] =
  if n <? base then [digit (n mod base)]
  else digits_aux fuel base (n / base) [] ++ [digit (n mod base)].
Proof. cbn. destruct (n <? base); [done|]. by rewrite digits_aux_acc. Qed.

Lemma digits_val_snoc base b c :
  digits_val base (b ++ [c]) = digits_val base b * base + digit_val c.
Proof. unfold digits_val. by rewrite fold_left_app. Qed.

Lemma log2_div base n : 2 <= base -> base <= n -> Z.log2 (n / base) < Z.log2 n.
Proof.
  intros Hb Hn.
  assert (H1 : 1 <= n / base) by (apply Z.div_le_lower_bound; lia).
  assert (H2 : 2 * (n / base) <= n).
  { transitivity (base * (n / base)); [nia|]. apply Z.mul_div_le. lia. }
  assert (H3 : Z.log2 (2 * (n / base)) = Z.succ (Z.log2 (n / base))) by (apply Z.log2_double; lia).
  assert (Z.log2 (2 * (n / base)) <= Z.log2 n) by (apply Z.log2_le_mono; lia). lia.
Qed.

Lemma digits_aux_val fuel base n :
  2 <= base <= 16 -> 0 <= n -> Z.log2 n < Z.of_nat fuel ->
  digits_val base (digits_aux fuel base n []) = n.
Proof.
  intros Hb. revert n. induction fuel as [|fuel IH]; intros n Hn Hf.
  { pose proof (Z.log2_nonneg n). lia. }
  rewrite digits_aux_step. pose proof (Z.mod_pos_bound n base ltac:(lia)) as Hm.
  destruct (n <? base) eqn:E; zbool.
  - unfold digits_val. cbn. rewrite digit_val_digit by lia. apply Z.mod_small. lia.
  - rewrite digits_val_snoc, digit_val_digit by lia.
    pose proof (log2_div base n ltac:(lia) ltac:(lia)) as Hl.
    rewrite IH; [|apply Z.div_pos; lia|lia].
    rewrite (Z.mul_comm _ base). symmetry. apply Z.div_mod. lia.
Qed.

(** Printing then reading a number gives it back. *)
Lemma digits_val_digits base n :
  2 <= base <= 16 -> 0 <= n -> digits_val base (digits base n) = n.
Proof.
  intros Hb Hn. unfold digits. apply digits_aux_val; [done..|].
  pose proof (Z.log2_nonneg n). lia.
Qed.

Lemma digits_aux_length fuel base n k :
  2 <= base -> 0 <= n < base ^ Z.of_nat k -> (0 < k)%nat ->
  (length (digits_aux fuel base n []) <= k)%nat.
Proof.
  intros Hb. revert n k. induction fuel as [|fuel IH]; intros n k Hn Hk; [cbn; lia|].
  rewrite digits_aux_step. destruct (n <? base) eqn:E; [cbn; lia|]. zbool.
  destruct k as [|k]; [lia|]. rewrite length_app. cbn.
  rewrite Nat2Z.inj_succ, Z.pow_succ_r in Hn by lia.
  destruct k as [|k]; [cbn in Hn; lia|].
  assert (n / base < base ^ Z.of_nat (S k)) by (apply Z.div_lt_upper_bound; lia).
  assert (0 <= n / base) by (apply Z.div_pos; lia).
  specialize (IH (n / base) (S k) ltac:(lia) ltac:(lia)). lia.
Qed.

(** A number below [base ^ k] prints in at most [k] digits. *)
Lemma digits_length base n k :
  2 <= base -> 0 <= n < base ^ Z.of_nat k -> (0 < k)%nat ->
  (length (digits base n) <= k)%nat.
Proof. unfold digits. apply digits_aux_length. Qed.

Lemma fmt_u_length n k :
  0 <= n < 10 ^ Z.of_nat k -> (0 < k)%nat -> (length (fmt_u n) <= k)%nat.
Proof. apply digits_length. lia. Qed.

Lemma fmt_u_inj m n : 0 <= m -> 0 <= n -> fmt_u m = fmt_u n -> m = n.
Proof.
  intros Hm Hn E. apply (f_equal (digits_val 10)) in E.
  unfold fmt_u in E. rewrite !digits_val_digits in E by lia. done.
Qed.

(** Every character of a printed number is a digit. *)
Lemma digits_aux_digit fuel base n :
  2 <= base <= 10 -> 0 <= n ->
  Forall (fun c => 0 <= digit_val c <= 9) (digits_aux fuel base n []).
Proof.
  intros Hb. revert n. induction fuel as [|fuel IH]; intros n Hn; [constructor|].
  rewrite digits_aux_step. pose proof (Z.mod_pos_bound n base ltac:(lia)).
  assert (0 <= digit_val (digit (n mod base)) <= 9) by (rewrite digit_val_digit; lia).
  destruct (n <? base); [by apply Forall_singleton|].
  apply Forall_app. split; [|by apply Forall_singleton]. apply IH. apply Z.div_pos; lia.
Qed.

Example fmt_examples :
  fmt_d 4000 = B "4000" /\ fmt_d (-17) = B "-17" /\ fmt_d 0 = B "0" /\ fmt_x 14 = B "e".
Proof. repeat split. Qed.
