(* ===== verification/Double.v ===== *)
(** * Double: C [double]s, [strtod] and [%.3f]

    [double] is IEEE 754 binary64, with the executable operations of the
    standard library's [SpecFloat].  [strtod] follows C11 7.22.1.3 in the "C"
    locale with correct rounding, and [%.3f] prints the exact binary value
    rounded to three decimals, ties to even, as glibc does. *)

From Stdlib Require Import SpecFloat.
From S2P Require Import Prelude Fmt.

Abbreviation double := spec_float.
Definition prec : Z := 53.
Definition emax : Z := 1024.

Definition dneg (x : double) : double := SFopp x.
Definition dadd (x y : double) : double := SFadd prec emax x y.
Definition dsub (x y : double) : double := SFsub prec emax x y.
Definition dmul (x y : double) : double := SFmul prec emax x y.
Definition ddiv (x y : double) : double := SFdiv prec emax x y.

(** ** Characters *)

Definition code (c : ascii) : Z := Z.of_nat (nat_of_ascii c).

(** [isspace] in the "C" locale. *)
Definition isspace (c : ascii) : bool :=
  (code c =? 32) || ((9 <=? code c) && (code c <=? 13)).

Definition is_digit (c : ascii) : bool := (48 <=? code c) && (code c <=? 57).
Definition is_hex (c : ascii) : bool := digit_val c <? 16.
Definition is_word (c : ascii) : bool := (digit_val c <? 36) || (code c =? 95).

Definition to_lower (c : ascii) : ascii :=
  if (65 <=? code c) && (code c <=? 90) then ascii_of_nat (nat_of_ascii c + 32) else c.

(** The longest prefix of characters satisfying [f], and the rest. *)
Fixpoint span (f : ascii -> bool) (s : bytes) : bytes * bytes :=
  match s with
  | c :: s' => if f c then let '(a, b) := span f s' in (c :: a, b) else ([], s)
  | [] => ([], [])
  end.

(** The rest of [s] after [p], ignoring case. *)
Fixpoint strip_prefix (p s : bytes) : option bytes :=
  match p, s with
  | [], _ => Some s
  | c :: p', d :: s' => if Ascii.eqb c (to_lower d) then strip_prefix p' s' else None
  | _, _ => None
  end.

(** ** Correctly rounded conversion *)

(** The double nearest to [m * 2^e]. *)
Definition of_binary (s : bool) (m : positive) (e : Z) : double :=
  binary_round prec emax s m e.

(** The double nearest to [m / d]. *)
Definition of_quotient (s : bool) (m d : positive) : double :=
  let '(q, e, l) := SFdiv_core_binary prec emax (Zpos m) 0 (Zpos d) 0 in
  binary_round_aux prec emax s q e l.

(** The double nearest to [m * 10^e]. *)
Definition of_decimal (s : bool) (m : Z) (e : Z) : double :=
  match m with
  | Zpos p =>
      if 0 <=? e then of_binary s (Z.to_pos (Zpos p * 10 ^ e)) 0
      else of_quotient s p (Z.to_pos (10 ^ (- e)))
  | _ => S754_zero s
  end.

Definition of_hex (s : bool) (m : Z) (e : Z) : double :=
  match m with Zpos p => of_binary s p e | _ => S754_zero s end.

(** [x = n / d] exactly. *)
Definition equals_ratio (x : double) (n d : Z) : bool :=
  match x with
  | S754_zero _ => n =? 0
  | S754_finite _ m e =>
      if 0 <=? e then Zpos m * 2 ^ e * d =? n else Zpos m * d =? n * 2 ^ (- e)
  | _ => false
  end.

(** [n / d], rounded to 53 bits without a bound on the exponent, is below the
    smallest normal number [2 ^ -1022]: it is below the midpoint of that
    number and the one before it, [(2 ^ 54 - 1) * 2 ^ -1076]. *)
Definition is_tiny (n d : Z) : bool := n * 2 ^ 1076 <? (2 ^ 54 - 1) * d.

(** Does the conversion of [n / d] to [x] set [errno] to [ERANGE]: overflow,
    or underflow, an inexact result that is tiny after rounding. *)
Definition range_error (x : double) (n d : Z) : bool :=
  match x with
  | S754_infinity _ => true
  | _ => is_tiny n d && negb (equals_ratio x n d)
  end.

(** ** [strtod] *)

(** An exponent part: its letter, an optional sign and decimal digits; when
    the digits are missing nothing is consumed. *)
Definition exponent (letter : ascii) (s : bytes) : Z * bytes :=
  match s with
  | c :: t =>
      if Ascii.eqb (to_lower c) letter then
        let '(neg, u) :=
          match t with
          | d :: t' =>
              if Ascii.eqb d "-"%char then (true, t')
              else if Ascii.eqb d "+"%char then (false, t') else (false, t)
          | [] => (false, t)
          end in
        let '(ds, rest) := span is_digit u in
        match ds with
        | [] => (0, s)
        | _ => ((if neg then - digits_val 10 ds else digits_val 10 ds), rest)
        end
      else (0, s)
  | [] => (0, s)
  end.

(** Digits with an optional radix point: integer part, fraction part, rest. *)
Definition mantissa (isd : ascii -> bool) (s : bytes) : bytes * bytes * bytes :=
  let '(ip, s1) := span isd s in
  match s1 with
  | c :: t =>
      if Ascii.eqb c "."%char then
        let '(fp, s2) := span isd t in
        match ip, fp with
        | [], [] => ([], [], s)
        | _, _ => (ip, fp, s2)
        end
      else (ip, [], s1)
  | [] => (ip, [], s1)
  end.

(** What follows the sign; [None] when there is no number. *)
Definition strtod_dec (neg : bool) (s : bytes) : option (double * bytes * bool) :=
  let '(ip, fp, s1) := mantissa is_digit s in
  match ip ++ fp with
  | [] => None
  | ds =>
      let '(ex, rest) := exponent "e"%char s1 in
      let m := digits_val 10 ds in
      let e := ex - blen fp in
      let x := of_decimal neg m e in
      Some (x, rest, if 0 <=? e then range_error x (m * 10 ^ e) 1
                     else range_error x m (10 ^ (- e)))
  end.

Definition strtod_hex (neg : bool) (s : bytes) : option (double * bytes * bool) :=
  let '(ip, fp, s1) := mantissa is_hex s in
  match ip ++ fp with
  | [] => None
  | ds =>
      let '(ex, rest) := exponent "p"%char s1 in
      let m := digits_val 16 ds in
      let e := ex - 4 * blen fp in
      let x := of_hex neg m e in
      Some (x, rest, if 0 <=? e then range_error x (m * 2 ^ e) 1
                     else range_error x m (2 ^ (- e)))
  end.

(** [nan] may be followed by a parenthesised word. *)
Definition nan_suffix (s : bytes) : bytes :=
  match s with
  | c :: t =>
      if Ascii.eqb c "("%char then
        match span is_word t with
        | (_, d :: rest) => if Ascii.eqb d ")"%char then rest else s
        | _ => s
        end
      else s
  | [] => s
  end.

Definition strtod_abs (neg : bool) (s : bytes) : option (double * bytes * bool) :=
  match strip_prefix (B "infinity") s with
  | Some rest => Some (S754_infinity neg, rest, false)
  | None =>
  match strip_prefix (B "inf") s with
  | Some rest => Some (S754_infinity neg, rest, false)
  | None =>
  match strip_prefix (B "nan") s with
  | Some rest => Some (S754_nan, nan_suffix rest, false)
  | None =>
  match strip_prefix (B "0x") s with
  | Some t =>
      match strtod_hex neg t with
      | Some r => Some r
      | None => strtod_dec neg s
      end
  | None => strtod_dec neg s
  end end end end.

(** [strtod(s, &end)]: the value, the rest of [s] from [end] on (all of [s]
    when no number is found) and whether [errno] became [ERANGE]. *)
Definition strtod (s : bytes) : double * bytes * bool :=
  let t := (span isspace s).2 in
  let '(neg, u) :=
    match t with
    | c :: t' =>
        if Ascii.eqb c "-"%char then (true, t')
        else if Ascii.eqb c "+"%char then (false, t') else (false, t)
    | [] => (false, t)
    end in
  match strtod_abs neg u with
  | Some r => r
  | None => (S754_zero false, s, false)
  end.

(** ** [%.3f] *)

(** [n / d] rounded to the nearest integer, ties to even. *)
Definition div_even (n d : Z) : Z :=
  let q := n / d in
  let r := n mod d in
  if 2 * r <? d then q
  else if d <? 2 * r then q + 1
  else if Z.even q then q else q + 1.

(** The digits of [k / 1000] with three decimals. *)
Definition fixed3 (k : Z) : bytes :=
  fmt_u (k / 1000) ++ B "." ++
  [digit (k mod 1000 / 100); digit (k mod 100 / 10); digit (k mod 10)].

Definition sign_text (s : bool) : bytes := if s then B "-" else [].

(** The thousandths of [m * 2^e]. *)
Definition thousandths (m : positive) (e : Z) : Z :=
  if 0 <=? e then Zpos m * 2 ^ e * 1000 else div_even (Zpos m * 1000) (2 ^ (- e)).

(** The sign of a NaN is not part of the value: [nan_neg] says which text
    the implementation prints. *)
Definition fmt_f3 (nan_neg : bool) (x : double) : bytes :=
  match x with
  | S754_zero s => sign_text s ++ fixed3 0
  | S754_infinity s => sign_text s ++ B "inf"
  | S754_nan => sign_text nan_neg ++ B "nan"
  | S754_finite s m e => sign_text s ++ fixed3 (thousandths m e)
  end.

Example strtod_examples :
  strtod (B " 12 * 3") = (S754_finite false 6755399441055744 (-49), B " * 3", false) /\
  (let '(x, rest, r) := strtod (B "0.1+2") in (fmt_f3 false x, rest, r)) = (B "0.100", B "+2", false) /\
  (let '(x, rest, r) := strtod (B "1.5e2x") in (fmt_f3 false x, rest, r)) = (B "150.000", B "x", false) /\
  (let '(x, rest, r) := strtod (B "0x1.8p3") in (fmt_f3 false x, rest, r)) = (B "12.000", [], false) /\
  (let '(x, rest, r) := strtod (B "1e309") in (fmt_f3 false x, rest, r)) = (B "inf", [], true) /\
  (let '(x, rest, r) := strtod (B "1e-320") in (rest, r)) = ([], true) /\
  (let '(x, rest, r) := strtod (B "0x1p-1074") in (rest, r)) = ([], false) /\
  strtod (B "2.2250738585072012e-308") = (S754_finite false (2 ^ 52) (-1074), [], true) /\
  strtod (B "2.2250738585072014e-308") = (S754_finite false (2 ^ 52) (-1074), [], false) /\
  strtod (B "*") = (S754_zero false, B "*", false) /\
  fmt_f3 false (ddiv (strtod (B "2")).1.1 (strtod (B "3")).1.1) = B "0.667".
Proof. vm_compute. repeat split. Qed.

(** ** The size of a result

    Every operation ends in [binary_round_aux], so a finite result has a
    significand below [2 ^ 53] and an exponent of at most 971, which is what
    bounds the length of its decimal text. *)

Definition size_bounded (x : double) : Prop :=
  match x with S754_finite _ m e => Zpos m < 2 ^ 53 /\ e <= 971 | _ => True end.

Lemma digits2_bound p : Zpos p < 2 ^ Zpos (digits2_pos p).
Proof.
  induction p as [p IH|p IH|]; [| |reflexivity]; cbn [digits2_pos];
    rewrite Pos2Z.inj_succ, Z.pow_succ_r by lia; lia.
Qed.

Lemma shr_m_iter p mrs : shr_m (SpecFloat.iter_pos shr_1 p mrs) = Z.quot (shr_m mrs) (2 ^ Zpos p).
Proof.
  assert (Hone : forall r, shr_m (shr_1 r) = Z.quot (shr_m r) 2)
    by (intros [m r s]; destruct m as [|[q|q|]|[q|q|]]; rewrite <- Zeven.Zquot2_quot; done).
  revert mrs. induction p as [p IH|p IH|]; intros mrs; cbn [SpecFloat.iter_pos]; [| |by rewrite Hone].
  - rewrite !IH, Hone, !Z.quot_quot by lia. f_equal.
    replace (Zpos p~1) with (1 + (Zpos p + Zpos p)) by lia. rewrite !Z.pow_add_r by lia. lia.
  - rewrite !IH, Z.quot_quot by lia. f_equal.
    replace (Zpos p~0) with (Zpos p + Zpos p) by lia. rewrite Z.pow_add_r by lia. lia.
Qed.

Lemma shr_fexp_bound M e p e' :
  (let '(mrs, e1) := shr_fexp prec emax M e loc_Exact in shr_m mrs = Zpos p /\ e1 = e') ->
  Zpos p < 2 ^ 53.
Proof.
  unfold shr_fexp, shr. cbn [shr_record_of_loc].
  set (n := fexp prec emax (Zdigits2 M + e) - e).
  assert (Hn : Zdigits2 M - 53 <= n) by (unfold n, fexp, prec; lia).
  assert (HM : 0 < M -> M < 2 ^ Zdigits2 M).
  { destruct M as [|q|q]; [lia| |lia]. intros _. apply digits2_bound. }
  destruct n as [|k|k] eqn:En; intros [Hp _].
  - cbn in Hp. subst M. eapply Z.lt_le_trans; [by apply HM|]. apply Z.pow_le_mono_r; lia.
  - rewrite shr_m_iter in Hp. cbn [shr_m] in Hp.
    assert (H0 : 0 < M).
    { destruct (Z.le_gt_cases M 0) as [Hle|]; [|lia].
      pose proof (Z.quot_le_mono M 0 (2 ^ Zpos k) ltac:(lia) Hle). rewrite Z.quot_0_l in *; lia. }
    rewrite Z.quot_div_nonneg in Hp by lia. rewrite <- Hp. apply Z.div_lt_upper_bound; [lia|].
    rewrite <- Z.pow_add_r by lia. eapply Z.lt_le_trans; [by apply HM|]. apply Z.pow_le_mono_r; lia.
  - cbn in Hp. subst M. eapply Z.lt_le_trans; [by apply HM|]. apply Z.pow_le_mono_r; lia.
Qed.

Lemma round_size_bounded s m e l : size_bounded (binary_round_aux prec emax s m e l).
Proof.
  unfold binary_round_aux. destruct (shr_fexp prec emax m e l) as [r1 e1].
  destruct (shr_fexp prec emax (round_nearest_even _ _) e1 loc_Exact) as [r2 e2] eqn:E.
  destruct (shr_m r2) as [|q|q] eqn:Hq; [done| |done].
  destruct (Z.leb_spec e2 (emax - prec)); [|done]. split; [|done].
  eapply (shr_fexp_bound _ _ q e2). rewrite E. done.
Qed.

Lemma normalize_size_bounded m e s : size_bounded (binary_normalize prec emax m e s).
Proof.
  destruct m as [|q|q]; [done|..]; cbn; unfold binary_round; destruct (shl_align _ _ _);
    apply round_size_bounded.
Qed.

Lemma dneg_size_bounded x : size_bounded x -> size_bounded (dneg x).
Proof. by destruct x. Qed.
Lemma dadd_size_bounded x y : size_bounded x -> size_bounded y -> size_bounded (dadd x y).
Proof.
  intros Hx Hy. destruct x as [[]|[]| |sx mx ex], y as [[]|[]| |sy my ey]; cbn; try done.
  apply normalize_size_bounded.
Qed.
Lemma dsub_size_bounded x y : size_bounded x -> size_bounded y -> size_bounded (dsub x y).
Proof.
  intros Hx Hy. destruct x as [[]|[]| |sx mx ex], y as [[]|[]| |sy my ey]; cbn; try done.
  apply normalize_size_bounded.
Qed.
Lemma dmul_size_bounded x y : size_bounded x -> size_bounded y -> size_bounded (dmul x y).
Proof. intros Hx Hy. destruct x, y; try done. apply round_size_bounded. Qed.
Lemma ddiv_size_bounded x y : size_bounded x -> size_bounded y -> size_bounded (ddiv x y).
Proof.
  intros Hx Hy. destruct x, y; try done. unfold ddiv, SFdiv.
  destruct (SFdiv_core_binary _ _ _ _ _ _) as [[? ?] ?]. apply round_size_bounded.
Qed.

Lemma of_decimal_size_bounded s m e : size_bounded (of_decimal s m e).
Proof.
  unfold of_decimal. destruct m as [|p|p]; [done| |done]. destruct (0 <=? e).
  - unfold of_binary, binary_round. destruct (shl_align _ _ _). apply round_size_bounded.
  - unfold of_quotient. destruct (SFdiv_core_binary _ _ _ _ _ _) as [[? ?] ?]. apply round_size_bounded.
Qed.
Lemma of_hex_size_bounded s m e : size_bounded (of_hex s m e).
Proof.
  unfold of_hex. destruct m; [done| |done]. unfold of_binary, binary_round.
  destruct (shl_align _ _ _). apply round_size_bounded.
Qed.

Lemma strtod_size_bounded s : size_bounded (strtod s).1.1.
Proof.
  assert (Hd : forall neg t r, strtod_dec neg t = Some r -> size_bounded r.1.1).
  { unfold strtod_dec. intros neg t r. destruct (mantissa _ _) as [[ip fp] s1].
    destruct (ip ++ fp); [done|]. destruct (exponent _ _). intros [= <-]. apply of_decimal_size_bounded. }
  assert (Hh : forall neg t r, strtod_hex neg t = Some r -> size_bounded r.1.1).
  { unfold strtod_hex. intros neg t r. destruct (mantissa _ _) as [[ip fp] s1].
    destruct (ip ++ fp); [done|]. destruct (exponent _ _). intros [= <-]. apply of_hex_size_bounded. }
  unfold strtod. destruct (match _ with [] => _ | _ => _ end) as [neg u].
  destruct (strtod_abs neg u) as [r|] eqn:E; [|done]. revert E. unfold strtod_abs.
  repeat case_match; intros; simplify_eq; try done; eauto.
Qed.

(** A printed result: a sign, at most 309 digits, the point and three
    decimals. *)
Lemma thousandths_bound m e :
  Zpos m < 2 ^ 53 -> e <= 971 -> 0 <= thousandths m e / 1000 < 10 ^ 309.
Proof.
  intros Hm He. split.
  - apply Z.div_pos; [|lia]. unfold thousandths, div_even.
    destruct (Z.leb_spec 0 e); [lia|].
    pose proof (Z.div_pos (Zpos m * 1000) (2 ^ (- e)) ltac:(lia) ltac:(lia)).
    repeat case_match; lia.
  - apply Z.div_lt_upper_bound; [lia|].
    assert (Hbig : 2 ^ 1024 + 1 < 10 ^ 309) by (by vm_compute).
    unfold thousandths. destruct (Z.leb_spec 0 e) as [H0|H0].
    + assert (2 ^ e <= 2 ^ 971) by (apply Z.pow_le_mono_r; lia).
      assert (2 ^ 53 * 2 ^ 971 = 2 ^ 1024) by (by vm_compute). nia.
    + assert (Hq : div_even (Zpos m * 1000) (2 ^ (- e)) <= Zpos m * 1000 + 1).
      { assert (Zpos m * 1000 / 2 ^ (- e) <= Zpos m * 1000) by (apply Z.div_le_upper_bound; nia).
        unfold div_even. repeat case_match; lia. }
      assert (2 ^ 53 <= 2 ^ 1024) by (apply Z.pow_le_mono_r; lia). lia.
Qed.

Lemma fmt_f3_length b x : size_bounded x -> (length (fmt_f3 b x) <= 314)%nat.
Proof.
  intros Hx. destruct x as [s|s| |s m e]; cbn [fmt_f3]; rewrite length_app.
  - destruct s; vm_compute; lia.
  - destruct s; vm_compute; lia.
  - destruct b; vm_compute; lia.
  - destruct Hx as [Hm He]. pose proof (thousandths_bound m e Hm He) as Hb.
    assert (length (sign_text s) <= 1)%nat by (destruct s; vm_compute; lia).
    unfold fixed3. rewrite !length_app.
    change (length (B ".")) with 1%nat. cbn [length].
    assert (length (fmt_u (thousandths m e / 1000)) <= 309)%nat by (apply fmt_u_length; [exact Hb|lia]).
    lia.
Qed.
