(* ===== verification/Calc.v ===== *)
(** * Calc: the expression evaluator of [Sockets/unix_calc_server.c]

    The recursive-descent parser ([skip_spaces], [parse_factor], [parse_term],
    [parse_expression], [evaluate]), the grammar it implements, and its
    equivalence with that grammar.  The static pointer [expr] is threaded
    through the functions as the rest of the input; the end of the list is the
    terminating NUL.  The calls are bounded by a fuel argument, and [fuel_for]
    gives enough of it for every input. *)

From Stdlib Require Import SpecFloat.
From S2P Require Import Prelude Fmt Double.

(** How a parse ends: a value and the new [expr], [die(message)], or (never,
    with enough fuel) fuel exhaustion. *)
Inductive presult : Type :=
| POk (v : double) (rest : bytes)
| PDie (message : bytes)
| PFuel.

Fixpoint skip_spaces (s : bytes) : bytes :=
  match s with
  | c :: s' => if isspace c then skip_spaces s' else s
  | [] => []
  end.

(** [*expr]. *)
Definition peek (s : bytes) : ascii := match s with c :: _ => c | [] => NUL end.

Definition is_char (c : ascii) (s : bytes) : bool := Ascii.eqb (peek s) c.

(** The numeric token at the end of [parse_factor]. *)
Definition parse_number (s : bytes) : presult :=
  let '(value, rest, erange) := strtod s in
  if (length rest =? length s)%nat || erange then PDie (B "invalid numeric token")
  else POk value rest.

(** [value * rhs] or [value / rhs], [value + rhs] or [value - rhs]. *)
Definition apply_mul (op : ascii) (value rhs : double) : double :=
  if Ascii.eqb op "*"%char then dmul value rhs else ddiv value rhs.
Definition apply_add (op : ascii) (value rhs : double) : double :=
  if Ascii.eqb op "+"%char then dadd value rhs else dsub value rhs.

Fixpoint parse_factor (fuel : nat) (s : bytes) {struct fuel} : presult :=
  match fuel with
  | O => PFuel
  | S fuel =>
      let s := skip_spaces s in
      if is_char "("%char s then
        match parse_expression fuel (tail s) with
        | POk value s1 =>
            let s2 := skip_spaces s1 in
            if is_char ")"%char s2 then POk value (tail s2)
            else PDie (B "missing parenthesis")
        | r => r
        end
      else if is_char "-"%char s then
        match parse_factor fuel (tail s) with
        | POk value s1 => POk (dneg value) s1
        | r => r
        end
      else parse_number s
  end
with parse_term (fuel : nat) (s : bytes) {struct fuel} : presult :=
  match fuel with
  | O => PFuel
  | S fuel =>
      match parse_factor fuel s with
      | POk value s1 => term_loop fuel value s1
      | r => r
      end
  end
with term_loop (fuel : nat) (value : double) (s : bytes) {struct fuel} : presult :=
  match fuel with
  | O => PFuel
  | S fuel =>
      let s := skip_spaces s in
      let op := peek s in
      if Ascii.eqb op "*"%char || Ascii.eqb op "/"%char then
        match parse_factor fuel (tail s) with
        | POk rhs s1 => term_loop fuel (apply_mul op value rhs) s1
        | r => r
        end
      else POk value s
  end
with parse_expression (fuel : nat) (s : bytes) {struct fuel} : presult :=
  match fuel with
  | O => PFuel
  | S fuel =>
      match parse_term fuel s with
      | POk value s1 => expr_loop fuel value s1
      | r => r
      end
  end
with expr_loop (fuel : nat) (value : double) (s : bytes) {struct fuel} : presult :=
  match fuel with
  | O => PFuel
  | S fuel =>
      let s := skip_spaces s in
      let op := peek s in
      if Ascii.eqb op "+"%char || Ascii.eqb op "-"%char then
        match parse_term fuel (tail s) with
        | POk rhs s1 => expr_loop fuel (apply_add op value rhs) s1
        | r => r
        end
      else POk value s
  end.

(** Enough fuel: three calls per nesting level or operand, each of which
    consumes a character. *)
Definition fuel_for (s : bytes) : nat := 4 * length s + 8.

(** [evaluate(input)]: the value, or the message it dies with. *)
Definition evaluate (input : bytes) : double + bytes :=
  match parse_expression (fuel_for input) input with
  | POk value s =>
      let s := skip_spaces s in
      if negb (is_char NUL s) && negb (is_char LF s)
      then inr (B "unexpected trailing token")
      else inl value
  | PDie message => inr message
  | PFuel => inr (B "out of fuel")
  end.

Definition show (r : double + bytes) : bytes :=
  match r with inl v => fmt_f3 false v | inr m => B "error: " ++ m end.

Example evaluate_examples :
  show (evaluate (B "12 * (3 + 4) - 5")) = B "79.000" /\
  show (evaluate (B "1 - 2 - 3")) = B "-4.000" /\
  show (evaluate (B "8 / 4 / 2")) = B "1.000" /\
  show (evaluate (B "--(2)*-3")) = B "-6.000" /\
  show (evaluate (B "1 / 0")) = B "inf" /\
  show (evaluate (B "(1 + 2")) = B "error: missing parenthesis" /\
  show (evaluate (B "1 + ")) = B "error: invalid numeric token" /\
  show (evaluate (B "2 2")) = B "error: unexpected trailing token".
Proof. vm_compute. repeat split. Qed.

(** ** Termination *)

(** [strtod] never leaves more than it was given. *)

Lemma span_app f s : (span f s).1 ++ (span f s).2 = s.
Proof.
  induction s as [|c s IH]; cbn; [done|]. destruct (f c); [|done].
  destruct (span f s) as [a b]. cbn in *. by rewrite IH.
Qed.

Lemma span_length f s a b : span f s = (a, b) -> (length b <= length s)%nat.
Proof.
  intros E. pose proof (f_equal length (span_app f s)) as H. rewrite E in H.
  rewrite length_app in H. cbn in H. lia.
Qed.

Lemma strip_prefix_length p s rest :
  strip_prefix p s = Some rest -> (length rest <= length s)%nat.
Proof.
  revert s. induction p as [|c p IH]; intros s E; cbn in E; [by simplify_eq|].
  destruct s as [|d s]; [done|]. destruct (Ascii.eqb c (to_lower d)); [|done].
  apply IH in E. cbn. lia.
Qed.

(** Case analysis on a scanner, then the lengths of what its parts leave. *)
Ltac scan_lengths :=
  repeat (case_match || simplify_eq);
  repeat match goal with
         | H : span _ _ = _ |- _ => apply span_length in H
         | H : strip_prefix _ _ = _ |- _ => apply strip_prefix_length in H
         end;
  simplify_eq; cbn in *; try lia.

Lemma exponent_length l s e rest :
  exponent l s = (e, rest) -> (length rest <= length s)%nat.
Proof. unfold exponent. intros E. scan_lengths. Qed.

Lemma mantissa_length f s ip fp rest :
  mantissa f s = (ip, fp, rest) -> (length rest <= length s)%nat.
Proof. unfold mantissa. intros E. scan_lengths. Qed.

Lemma nan_suffix_length s : (length (nan_suffix s) <= length s)%nat.
Proof. unfold nan_suffix. scan_lengths. Qed.

Lemma strtod_dec_length neg s v rest b :
  strtod_dec neg s = Some (v, rest, b) -> (length rest <= length s)%nat.
Proof.
  unfold strtod_dec. destruct (mantissa is_digit s) as [[ip fp] s1] eqn:Em.
  apply mantissa_length in Em. destruct (ip ++ fp); [done|].
  destruct (exponent "e"%char s1) as [ex r] eqn:Ee. apply exponent_length in Ee.
  intros ?. simplify_eq. lia.
Qed.

Lemma strtod_hex_length neg s v rest b :
  strtod_hex neg s = Some (v, rest, b) -> (length rest <= length s)%nat.
Proof.
  unfold strtod_hex. destruct (mantissa is_hex s) as [[ip fp] s1] eqn:Em.
  apply mantissa_length in Em. destruct (ip ++ fp); [done|].
  destruct (exponent "p"%char s1) as [ex r] eqn:Ee. apply exponent_length in Ee.
  intros ?. simplify_eq. lia.
Qed.

Lemma strtod_abs_length neg s v rest b :
  strtod_abs neg s = Some (v, rest, b) -> (length rest <= length s)%nat.
Proof.
  unfold strtod_abs. intros E.
  repeat (case_match; simplify_eq);
    repeat match goal with H : strip_prefix _ _ = Some _ |- _ => apply strip_prefix_length in H end;
    try done; try (by eapply strtod_dec_length).
  - etransitivity; [apply nan_suffix_length|done].
  - etransitivity; [by eapply strtod_hex_length|done].
Qed.

Lemma strtod_length s v rest b :
  strtod s = (v, rest, b) -> (length rest <= length s)%nat.
Proof.
  unfold strtod. destruct (span isspace s) as [sp t] eqn:Es. apply span_length in Es. cbn.
  intros E. repeat (case_match; simplify_eq); try done;
    match goal with H : strtod_abs _ _ = _ |- _ => apply strtod_abs_length in H end;
    cbn in *; lia.
Qed.

Lemma skip_spaces_length s : (length (skip_spaces s) <= length s)%nat.
Proof. induction s as [|c s IH]; cbn; [done|]. destruct (isspace c); cbn; lia. Qed.

Lemma parse_number_length s v rest :
  parse_number s = POk v rest -> (length rest < length s)%nat.
Proof.
  unfold parse_number. destruct (strtod s) as [[x r] b] eqn:E. apply strtod_length in E.
  destruct (length r =? length s)%nat eqn:El; [done|]. apply Nat.eqb_neq in El.
  destruct b; intros ?; simplify_eq/=. lia.
Qed.

(** A test that succeeded on a character other than NUL found it. *)
Lemma eqb_peek (c : ascii) s : c <> NUL -> Ascii.eqb (peek s) c = true -> s = c :: tail s.
Proof. rewrite Ascii.eqb_eq. destruct s; cbn; congruence. Qed.

Lemma orb_peek (c d : ascii) s :
  c <> NUL -> d <> NUL -> Ascii.eqb (peek s) c || Ascii.eqb (peek s) d = true ->
  s = peek s :: tail s.
Proof. rewrite orb_true_iff, !Ascii.eqb_eq. destruct s; cbn; intuition congruence. Qed.

(** The parse has not run out of fuel and leaves less than [n] characters. *)
Definition ends (r : presult) (n : nat) : Prop :=
  match r with POk _ rest => (length rest < n)%nat | PDie _ => True | PFuel => False end.

Lemma ends_le r n m : ends r n -> (n <= m)%nat -> ends r m.
Proof. destruct r; cbn; [lia|done|done]. Qed.

Lemma parse_ends fuel :
  (forall s, (4 * length s + 1 <= fuel)%nat -> ends (parse_factor fuel s) (length s)) /\
  (forall s, (4 * length s + 2 <= fuel)%nat -> ends (parse_term fuel s) (length s)) /\
  (forall v s, (4 * length s + 1 <= fuel)%nat -> ends (term_loop fuel v s) (S (length s))) /\
  (forall s, (4 * length s + 3 <= fuel)%nat -> ends (parse_expression fuel s) (length s)) /\
  (forall v s, (4 * length s + 1 <= fuel)%nat -> ends (expr_loop fuel v s) (S (length s))).
Proof.
  induction fuel as [|fuel (IHf & IHt & IHtl & IHe & IHel)]; [repeat split; intros; lia|].
  split; [|split; [|split; [|split]]]; cbn [parse_factor parse_term term_loop parse_expression expr_loop].
  - intros s Hs. pose proof (skip_spaces_length s) as Hsk. generalize dependent (skip_spaces s).
    intros t Hsk. unfold is_char. destruct (Ascii.eqb (peek t) _) eqn:Hop.
    { apply eqb_peek in Hop; [|done]. rewrite Hop in Hsk. cbn in Hsk.
      specialize (IHe (tail t) ltac:(lia)).
      destruct (parse_expression fuel (tail t)) as [v s1|m|]; [|done|done]. cbn in IHe.
      pose proof (skip_spaces_length s1). generalize dependent (skip_spaces s1). intros u Hu.
      case_match; [|done]. cbn. destruct u; cbn in *; lia. }
    destruct (Ascii.eqb (peek t) "-"%char) eqn:Hneg.
    { apply eqb_peek in Hneg; [|done]. rewrite Hneg in Hsk. cbn in Hsk.
      specialize (IHf (tail t) ltac:(lia)).
      destruct (parse_factor fuel (tail t)); cbn in *; [lia|done|done]. }
    destruct (parse_number t) eqn:Hn; cbn; [|done|].
    + apply parse_number_length in Hn. lia.
    + unfold parse_number in Hn. repeat case_match; done.
  - intros s Hs. specialize (IHf s ltac:(lia)).
    destruct (parse_factor fuel s) as [v s1|m|]; [|done|done]. cbn in IHf.
    eapply ends_le; [apply IHtl|]; lia.
  - intros v s Hs. pose proof (skip_spaces_length s) as Hsk. generalize dependent (skip_spaces s).
    intros t Hsk. destruct (_ || _) eqn:Hop; [|cbn; lia].
    apply orb_peek in Hop; [|done..]. rewrite Hop in Hsk. cbn in Hsk.
    specialize (IHf (tail t) ltac:(lia)).
    destruct (parse_factor fuel (tail t)) as [r s1|m|]; [|done|done]. cbn in IHf.
    eapply ends_le; [apply IHtl|]; lia.
  - intros s Hs. specialize (IHt s ltac:(lia)).
    destruct (parse_term fuel s) as [v s1|m|]; [|done|done]. cbn in IHt.
    eapply ends_le; [apply IHel|]; lia.
  - intros v s Hs. pose proof (skip_spaces_length s) as Hsk. generalize dependent (skip_spaces s).
    intros t Hsk. destruct (_ || _) eqn:Hop; [|cbn; lia].
    apply orb_peek in Hop; [|done..]. rewrite Hop in Hsk. cbn in Hsk.
    specialize (IHt (tail t) ltac:(lia)).
    destruct (parse_term fuel (tail t)) as [r s1|m|]; [|done|done]. cbn in IHt.
    eapply ends_le; [apply IHel|]; lia.
Qed.

(** One round of each function. *)
Lemma parse_factor_S fuel s :
  parse_factor (S fuel) s =
  let s := skip_spaces s in
  if is_char "("%char s then
    match parse_expression fuel (tail s) with
    | POk value s1 =>
        let s2 := skip_spaces s1 in
        if is_char ")"%char s2 then POk value (tail s2) else PDie (B "missing parenthesis")
    | r => r
    end
  else if is_char "-"%char s then
    match parse_factor fuel (tail s) with POk value s1 => POk (dneg value) s1 | r => r end
  else parse_number s.
Proof. done. Qed.

Lemma parse_term_S fuel s :
  parse_term (S fuel) s =
  match parse_factor fuel s with POk value s1 => term_loop fuel value s1 | r => r end.
Proof. done. Qed.

Definition is_mul (s : bytes) : bool := Ascii.eqb (peek s) "*"%char || Ascii.eqb (peek s) "/"%char.
Definition is_add (s : bytes) : bool := Ascii.eqb (peek s) "+"%char || Ascii.eqb (peek s) "-"%char.

Lemma term_loop_S fuel value s :
  term_loop (S fuel) value s =
  let s := skip_spaces s in
  if is_mul s then
    match parse_factor fuel (tail s) with
    | POk rhs s1 => term_loop fuel (apply_mul (peek s) value rhs) s1
    | r => r
    end
  else POk value s.
Proof. done. Qed.

Lemma parse_expression_S fuel s :
  parse_expression (S fuel) s =
  match parse_term fuel s with POk value s1 => expr_loop fuel value s1 | r => r end.
Proof. done. Qed.

Lemma expr_loop_S fuel value s :
  expr_loop (S fuel) value s =
  let s := skip_spaces s in
  if is_add s then
    match parse_term fuel (tail s) with
    | POk rhs s1 => expr_loop fuel (apply_add (peek s) value rhs) s1
    | r => r
    end
  else POk value s.
Proof. done. Qed.

#[global] Arguments parse_factor fuel s : simpl never.
#[global] Arguments parse_term fuel s : simpl never.
#[global] Arguments term_loop fuel value s : simpl never.
#[global] Arguments parse_expression fuel s : simpl never.
#[global] Arguments expr_loop fuel value s : simpl never.

(** More fuel does not change a result. *)
Definition le_result (r r' : presult) : Prop := r <> PFuel -> r' = r.

Lemma le_result_match (r r' : presult) (f f' : double -> bytes -> presult) :
  le_result r r' -> (forall v s, le_result (f v s) (f' v s)) ->
  le_result (match r with POk v s => f v s | PDie m => PDie m | PFuel => PFuel end)
            (match r' with POk v s => f' v s | PDie m => PDie m | PFuel => PFuel end).
Proof.
  intros Hr Hf. destruct r as [v s|m|]; [| |by intros ?].
  - rewrite Hr by done. apply Hf.
  - by rewrite Hr.
Qed.

Lemma le_result_refl r : le_result r r.
Proof. done. Qed.

#[local] Hint Resolve le_result_match le_result_refl : posix.

Lemma parse_mono fuel :
  (forall s, le_result (parse_factor fuel s) (parse_factor (S fuel) s)) /\
  (forall s, le_result (parse_term fuel s) (parse_term (S fuel) s)) /\
  (forall v s, le_result (term_loop fuel v s) (term_loop (S fuel) v s)) /\
  (forall s, le_result (parse_expression fuel s) (parse_expression (S fuel) s)) /\
  (forall v s, le_result (expr_loop fuel v s) (expr_loop (S fuel) v s)).
Proof.
  induction fuel as [|fuel (IHf & IHt & IHtl & IHe & IHel)]; [repeat split; intros; intros []; done|].
  split; [|split; [|split; [|split]]]; intros.
  - rewrite (parse_factor_S fuel), (parse_factor_S (S fuel)). cbn.
    case_match; [auto with posix|]. case_match; auto with posix.
  - rewrite (parse_term_S fuel), (parse_term_S (S fuel)). auto with posix.
  - rewrite (term_loop_S fuel), (term_loop_S (S fuel)). cbn. case_match; auto with posix.
  - rewrite (parse_expression_S fuel), (parse_expression_S (S fuel)). auto with posix.
  - rewrite (expr_loop_S fuel), (expr_loop_S (S fuel)). cbn. case_match; auto with posix.
Qed.

(** From one level of fuel to any higher one. *)
Lemma mono_le (f : nat -> presult) n m :
  (forall k, le_result (f k) (f (S k))) -> (n <= m)%nat -> f n <> PFuel -> f m = f n.
Proof.
  intros Hf Hle Hn. induction Hle as [|m _ IH]; [done|].
  rewrite <- IH. apply Hf. by rewrite IH.
Qed.

Lemma parse_factor_le n m s : (n <= m)%nat -> parse_factor n s <> PFuel -> parse_factor m s = parse_factor n s.
Proof. apply (mono_le (fun k => parse_factor k s)). intros k. apply parse_mono. Qed.
Lemma parse_term_le n m s : (n <= m)%nat -> parse_term n s <> PFuel -> parse_term m s = parse_term n s.
Proof. apply (mono_le (fun k => parse_term k s)). intros k. apply parse_mono. Qed.
Lemma parse_expression_le n m s :
  (n <= m)%nat -> parse_expression n s <> PFuel -> parse_expression m s = parse_expression n s.
Proof. apply (mono_le (fun k => parse_expression k s)). intros k. apply parse_mono. Qed.
Lemma term_loop_le n m v s : (n <= m)%nat -> term_loop n v s <> PFuel -> term_loop m v s = term_loop n v s.
Proof. apply (mono_le (fun k => term_loop k v s)). intros k. apply parse_mono. Qed.
Lemma expr_loop_le n m v s : (n <= m)%nat -> expr_loop n v s <> PFuel -> expr_loop m v s = expr_loop n v s.
Proof. apply (mono_le (fun k => expr_loop k v s)). intros k. apply parse_mono. Qed.

Lemma parse_fuel input fuel :
  (fuel_for input <= fuel)%nat ->
  parse_expression fuel input <> PFuel /\
  parse_expression fuel input = parse_expression (fuel_for input) input.
Proof.
  intros Hle.
  assert (Hn : parse_expression (fuel_for input) input <> PFuel).
  { destruct (parse_ends (fuel_for input)) as (_ & _ & _ & He & _).
    specialize (He input ltac:(unfold fuel_for; lia)).
    by destruct (parse_expression (fuel_for input) input). }
  rewrite (parse_expression_le (fuel_for input) fuel) by done. done.
Qed.

(** C28. The parser terminates on every input: with [fuel_for] the fuel is
    never exhausted, and no larger amount of it changes the result. *)
Theorem parse_terminates input fuel :
  (fuel_for input <= fuel)%nat ->
  parse_expression fuel input <> PFuel /\
  parse_expression fuel input = parse_expression (fuel_for input) input.
Proof. apply parse_fuel. Qed.

Lemma parse_terminates_witness :
  parse_expression 1000 (B "12 * (3 + 4) - 5") <> PFuel /\
  parse_expression 1000 (B "12 * (3 + 4) - 5") =
    parse_expression (fuel_for (B "12 * (3 + 4) - 5")) (B "12 * (3 + 4) - 5").
Proof. apply (parse_terminates (B "12 * (3 + 4) - 5") 1000). vm_compute. lia. Defined.

(** ** The grammar

    What the server promises its clients: arithmetic over [+ - * /], with the
    usual precedence, all four left associative, unary minus binding
    tighter, parentheses, white space anywhere between tokens. *)

Inductive mulop : Type := Times | Over.
Inductive addop : Type := Plus | Minus.

Definition mul_char (o : mulop) : ascii := match o with Times => "*"%char | Over => "/"%char end.
Definition add_char (o : addop) : ascii := match o with Plus => "+"%char | Minus => "-"%char end.

Inductive ast : Type :=
| Num (v : double)
| Neg (e : ast)
| Mul (o : mulop) (a b : ast)
| Add (o : addop) (a b : ast).

(** The value of a tree, in binary64 with rounding to nearest. *)
Fixpoint eval (e : ast) : double :=
  match e with
  | Num v => v
  | Neg e => dneg (eval e)
  | Mul Times a b => dmul (eval a) (eval b)
  | Mul Over a b => ddiv (eval a) (eval b)
  | Add Plus a b => dadd (eval a) (eval b)
  | Add Minus a b => dsub (eval a) (eval b)
  end.

Lemma apply_mul_eval o a b : apply_mul (mul_char o) (eval a) (eval b) = eval (Mul o a b).
Proof. by destruct o. Qed.
Lemma apply_add_eval o a b : apply_add (add_char o) (eval a) (eval b) = eval (Add o a b).
Proof. by destruct o. Qed.

(** [s] starts, after white space, with the token [c]; [t] is what follows. *)
Definition token (c : ascii) (s t : bytes) : Prop := skip_spaces s = c :: t.

(** A numeric token: what [strtod] accepts without a range error, provided
    it starts with neither of the characters that start another factor. *)
Definition number (s : bytes) (v : double) (t : bytes) : Prop :=
  exists u, skip_spaces s = u /\ is_char "("%char u = false /\ is_char "-"%char u = false /\
            strtod u = (v, t, false) /\ (length t < length u)%nat.

(** [Factor s e t]: a factor with tree [e] can be read from [s], leaving
    [t]. *)
Inductive Factor : bytes -> ast -> bytes -> Prop :=
| F_num s v t : number s v t -> Factor s (Num v) t
| F_neg s u e t : token "-"%char s u -> Factor u e t -> Factor s (Neg e) t
| F_paren s u e r t :
    token "("%char s u -> Expr u e r -> token ")"%char r t -> Factor s e t
with Term : bytes -> ast -> bytes -> Prop :=
| T_factor s e t : Factor s e t -> Term s e t
| T_mul s a r o u b t :
    Term s a r -> token (mul_char o) r u -> Factor u b t -> Term s (Mul o a b) t
with Expr : bytes -> ast -> bytes -> Prop :=
| E_term s e t : Term s e t -> Expr s e t
| E_add s a r o u b t :
    Expr s a r -> token (add_char o) r u -> Term u b t -> Expr s (Add o a b) t.

Scheme Factor_mut := Minimality for Factor Sort Prop
  with Term_mut := Minimality for Term Sort Prop
  with Expr_mut := Minimality for Expr Sort Prop.
Combined Scheme grammar_ind from Factor_mut, Term_mut, Expr_mut.

(** A whole request: an expression, then nothing but white space up to the
    terminating NUL. *)
Definition Request (input : bytes) (e : ast) : Prop :=
  exists t, Expr input e t /\ is_char NUL (skip_spaces t) = true.

Lemma skip_spaces_idem s : skip_spaces (skip_spaces s) = skip_spaces s.
Proof. induction s as [|c s IH]; cbn; [done|]. destruct (isspace c) eqn:E; cbn; [done|by rewrite E]. Qed.

Lemma token_skip c s t : token c (skip_spaces s) t <-> token c s t.
Proof. unfold token. by rewrite skip_spaces_idem. Qed.

(** The numeric token of the code is the one of the grammar. *)
Lemma parse_number_ok s v t :
  parse_number s = POk v t <-> strtod s = (v, t, false) /\ (length t < length s)%nat.
Proof.
  unfold parse_number. destruct (strtod s) as [[x r] b] eqn:E. apply strtod_length in E.
  destruct (Nat.eqb_spec (length r) (length s)), b; cbn; split; intros H;
    [done|naive_solver lia|done|naive_solver lia|done|naive_solver|simplify_eq; split; [done|lia]|].
  by destruct H as [[= -> ->] _].
Qed.

(** *** Soundness: what the parser accepts is in the grammar *)

Lemma is_char_token c s : c <> NUL -> is_char c (skip_spaces s) = true -> token c s (tail (skip_spaces s)).
Proof. intros Hc Hs. by apply eqb_peek. Qed.

Lemma is_mul_token s :
  is_mul (skip_spaces s) = true ->
  token (peek (skip_spaces s)) s (tail (skip_spaces s)) /\
  exists o, peek (skip_spaces s) = mul_char o.
Proof.
  intros Hs. split; [by apply (orb_peek "*"%char "/"%char)|].
  unfold is_mul in Hs. rewrite orb_true_iff, !Ascii.eqb_eq in Hs.
  destruct Hs as [Hs|Hs]; [by exists Times|by exists Over].
Qed.

Lemma is_add_token s :
  is_add (skip_spaces s) = true ->
  token (peek (skip_spaces s)) s (tail (skip_spaces s)) /\
  exists o, peek (skip_spaces s) = add_char o.
Proof.
  intros Hs. split; [by apply (orb_peek "+"%char "-"%char)|].
  unfold is_add in Hs. rewrite orb_true_iff, !Ascii.eqb_eq in Hs.
  destruct Hs as [Hs|Hs]; [by exists Plus|by exists Minus].
Qed.

(** The loop skips white space itself. *)
Lemma expr_loop_skip fuel v s : expr_loop fuel v (skip_spaces s) = expr_loop fuel v s.
Proof. destruct fuel; [done|]. rewrite !expr_loop_S. cbn. by rewrite skip_spaces_idem. Qed.

(** A result of the parser comes from a derivation that ends, up to white
    space, where the parser stopped. *)
Definition derives (D : bytes -> ast -> bytes -> Prop) (s : bytes) (v : double) (t : bytes) : Prop :=
  exists e t', D s e t' /\ eval e = v /\ (t = t' \/ t = skip_spaces t').

Lemma parse_sound fuel :
  (forall s v t, parse_factor fuel s = POk v t -> exists e, Factor s e t /\ eval e = v) /\
  (forall s v t, parse_term fuel s = POk v t -> derives Term s v t) /\
  (forall s0 a s v t, Term s0 a s -> term_loop fuel (eval a) s = POk v t -> derives Term s0 v t) /\
  (forall s v t, parse_expression fuel s = POk v t -> derives Expr s v t) /\
  (forall s0 a s v t, Expr s0 a s -> expr_loop fuel (eval a) s = POk v t -> derives Expr s0 v t).
Proof.
  induction fuel as [|fuel (IHf & IHt & IHtl & IHe & IHel)]; [repeat split; intros; done|].
  split; [|split; [|split; [|split]]].
  - intros s v t. rewrite parse_factor_S. cbn. intros E.
    destruct (is_char "("%char (skip_spaces s)) eqn:Hp.
    { destruct (parse_expression fuel _) as [v1 s1|m|] eqn:He; [|done..].
      destruct (is_char ")"%char (skip_spaces s1)) eqn:Hc; simplify_eq.
      destruct (IHe _ _ _ He) as (e & t' & Hd & <- & Ht). exists e. split; [|done].
      eapply F_paren; [by apply is_char_token|exact Hd|].
      destruct Ht as [->| ->]; [by apply is_char_token|].
      rewrite skip_spaces_idem in *. by apply is_char_token. }
    destruct (is_char "-"%char (skip_spaces s)) eqn:Hn.
    { destruct (parse_factor fuel _) as [v1 s1|m|] eqn:Hf; simplify_eq.
      destruct (IHf _ _ _ Hf) as (e & Hd & <-). exists (Neg e). split; [|done].
      eapply F_neg; [by apply is_char_token|done]. }
    exists (Num v). split; [|done]. constructor. exists (skip_spaces s).
    split; [done|]. split; [done|]. split; [done|]. by apply parse_number_ok.
  - intros s v t. rewrite parse_term_S. intros E.
    destruct (parse_factor fuel s) as [v1 s1|m|] eqn:Hf; [|done..].
    destruct (IHf _ _ _ Hf) as (e & Hd & <-). eapply IHtl; [by constructor|done].
  - intros s0 a s v t Ha. rewrite term_loop_S. cbn. intros E.
    destruct (is_mul (skip_spaces s)) eqn:Hop; [|simplify_eq; exists a, s; auto].
    apply is_mul_token in Hop as [Htok [op Hop]]. rewrite Hop in Htok, E.
    destruct (parse_factor fuel _) as [v1 s1|m|] eqn:Hf; [|done..].
    destruct (IHf _ _ _ Hf) as (e & Hd & <-).
    rewrite apply_mul_eval in E. eapply IHtl; [by eapply T_mul|exact E].
  - intros s v t. rewrite parse_expression_S. intros E.
    destruct (parse_term fuel s) as [v1 s1|m|] eqn:Hf; [|done..].
    destruct (IHt _ _ _ Hf) as (e & t' & Hd & <- & Ht).
    eapply (IHel s e t'); [by constructor|]. rewrite <- E.
    destruct Ht as [->| ->]; [done|]. by rewrite expr_loop_skip.
  - intros s0 a s v t Ha. rewrite expr_loop_S. cbn. intros E.
    destruct (is_add (skip_spaces s)) eqn:Hop; [|simplify_eq; exists a, s; auto].
    apply is_add_token in Hop as [Htok [op Hop]]. rewrite Hop in Htok, E.
    destruct (parse_term fuel _) as [v1 s1|m|] eqn:Hf; [|done..].
    destruct (IHt _ _ _ Hf) as (e & t' & Hd & <- & Ht).
    eapply (IHel _ (Add op a e) t'); [by eapply E_add|]. rewrite <- apply_add_eval, <- E.
    destruct Ht as [->| ->]; [done|]. by rewrite expr_loop_skip.
Qed.

(** *** Completeness: what is in the grammar is accepted, with its value *)

Lemma token_is_char c s t : token c s t -> is_char c (skip_spaces s) = true /\ tail (skip_spaces s) = t.
Proof. unfold token, is_char. intros ->. cbn. by rewrite Ascii.eqb_refl. Qed.

Lemma token_peek c s t : token c s t -> peek (skip_spaces s) = c /\ tail (skip_spaces s) = t.
Proof. unfold token. by intros ->. Qed.

(** The loops, one operator at a time. *)
Lemma term_loop_op n m v s o u rhs t r :
  token (mul_char o) s u -> parse_factor m u = POk rhs t ->
  term_loop n (apply_mul (mul_char o) v rhs) t = r -> r <> PFuel ->
  term_loop (S (n + m)) v s = r.
Proof.
  intros Ht Hf Hl Hr. rewrite term_loop_S. cbn. apply token_peek in Ht as [Hp ->].
  unfold is_mul. rewrite Hp.
  replace (_ || _) with true by (by destruct o).
  rewrite (parse_factor_le m) by (lia || by rewrite Hf). rewrite Hf, <- Hl.
  apply term_loop_le; [lia|congruence].
Qed.

Lemma expr_loop_op n m v s o u rhs t r :
  token (add_char o) s u -> parse_term m u = POk rhs t ->
  expr_loop n (apply_add (add_char o) v rhs) t = r -> r <> PFuel ->
  expr_loop (S (n + m)) v s = r.
Proof.
  intros Ht Hf Hl Hr. rewrite expr_loop_S. cbn. apply token_peek in Ht as [Hp ->].
  unfold is_add. rewrite Hp.
  replace (_ || _) with true by (by destruct o).
  rewrite (parse_term_le m) by (lia || by rewrite Hf). rewrite Hf, <- Hl.
  apply expr_loop_le; [lia|congruence].
Qed.

(** The loops stop at anything that is not their operator. *)
Lemma term_loop_stop n v s : is_mul (skip_spaces s) = false -> term_loop (S n) v s = POk v (skip_spaces s).
Proof. intros H. rewrite term_loop_S. cbn. by rewrite H. Qed.
Lemma expr_loop_stop n v s : is_add (skip_spaces s) = false -> expr_loop (S n) v s = POk v (skip_spaces s).
Proof. intros H. rewrite expr_loop_S. cbn. by rewrite H. Qed.

Lemma token_no_mul op s t : token op s t -> op <> "*"%char -> op <> "/"%char -> is_mul (skip_spaces s) = false.
Proof.
  intros Ht H1 H2. apply token_peek in Ht as [Hp _]. unfold is_mul. rewrite Hp.
  apply orb_false_iff. rewrite !Ascii.eqb_neq. done.
Qed.

(** A term followed by no [*] or [/] is what [parse_term] reads. *)
Definition reads_term (s : bytes) (e : ast) (t : bytes) : Prop :=
  forall n r, term_loop n (eval e) t = r -> r <> PFuel -> exists m, parse_term m s = r.
Definition reads_expr (s : bytes) (e : ast) (t : bytes) : Prop :=
  is_mul (skip_spaces t) = false ->
  forall n r, expr_loop n (eval e) t = r -> r <> PFuel -> exists m, parse_expression m s = r.

Lemma reads_term_stop s e t :
  reads_term s e t -> is_mul (skip_spaces t) = false ->
  exists m, parse_term m s = POk (eval e) (skip_spaces t).
Proof. intros H Hm. by eapply (H 1%nat); [apply term_loop_stop|]. Qed.

Lemma reads_paren s u e r t :
  token "("%char s u -> reads_expr u e r -> token ")"%char r t ->
  exists n, parse_factor n s = POk (eval e) t.
Proof.
  intros Ho He Hc.
  destruct (He ltac:(by eapply token_no_mul) 1%nat (POk (eval e) (skip_spaces r))) as [m Hm]; [|done|].
  { apply expr_loop_stop. apply token_peek in Hc as [Hp _]. unfold is_add. by rewrite Hp. }
  exists (S m). rewrite parse_factor_S. cbn. apply token_is_char in Ho as [-> ->]. rewrite Hm.
  rewrite skip_spaces_idem. by apply token_is_char in Hc as [-> ->].
Qed.

Lemma parse_complete :
  (forall s e t, Factor s e t -> exists n, parse_factor n s = POk (eval e) t) /\
  (forall s e t, Term s e t -> reads_term s e t) /\
  (forall s e t, Expr s e t -> reads_expr s e t).
Proof.
  apply grammar_ind.
  - intros s v t (u & <- & Hp & Hn & Hnum). exists 1%nat. rewrite parse_factor_S. cbn.
    rewrite Hp, Hn. by apply parse_number_ok.
  - intros s u e t Ht _ [n Hn]. exists (S n). rewrite parse_factor_S. cbn.
    apply token_is_char in Ht as [Hc ->]. unfold is_char in *. apply Ascii.eqb_eq in Hc.
    rewrite Hc. cbn. by rewrite Hn.
  - intros s u e r t Ho _ He Hc. by eapply reads_paren.
  - intros s e t _ [m Hm] n r Hl Hr. exists (S (n + m)). rewrite parse_term_S.
    rewrite (parse_factor_le m) by (lia || by rewrite Hm). rewrite Hm, <- Hl.
    apply term_loop_le; [lia|congruence].
  - intros s a r o u b t _ IHa Htok _ [m Hm] n r' Hl Hr. rewrite <- apply_mul_eval in Hl.
    by eapply IHa; [eapply term_loop_op|].
  - intros s e t _ IH Hstop n r Hl Hr.
    destruct (reads_term_stop _ _ _ IH Hstop) as [m Hm]. exists (S (n + m)).
    rewrite parse_expression_S, (parse_term_le m) by (lia || by rewrite Hm). rewrite Hm.
    rewrite expr_loop_skip, <- Hl. apply expr_loop_le; [lia|congruence].
  - intros s a r o u b t _ IHa Htok _ IHb Hstop n r' Hl Hr. rewrite <- apply_add_eval in Hl.
    destruct (reads_term_stop _ _ _ IHb Hstop) as [m Hm].
    eapply IHa; [|eapply expr_loop_op; [exact Htok|exact Hm| |exact Hr]|exact Hr].
    + by eapply token_no_mul; [exact Htok|..]; destruct o.
    + rewrite expr_loop_skip. exact Hl.
Qed.

(** *** The evaluator *)

(** Newlines are white space, so the test for one after [skip_spaces] never
    succeeds. *)
Lemma skip_spaces_no_newline s : is_char LF (skip_spaces s) = false.
Proof.
  induction s as [|c s IH]; cbn; [done|]. destruct (isspace c) eqn:E; [done|].
  unfold is_char. cbn. destruct (Ascii.eqb_spec c LF) as [->|]; done.
Qed.

Lemma nul_not_mul s : is_char NUL s = true -> is_mul s = false /\ is_add s = false.
Proof. unfold is_char, is_mul, is_add. rewrite Ascii.eqb_eq. by intros ->. Qed.

Lemma evaluate_accepts input e : Request input e -> evaluate input = inl (eval e).
Proof.
  intros (t & He & Hend). destruct (nul_not_mul _ Hend) as [Hm Ha].
  destruct (proj2 (proj2 parse_complete) _ _ _ He Hm 1%nat (POk (eval e) (skip_spaces t)))
    as [m Hp]; [by apply expr_loop_stop|done|].
  destruct (parse_fuel input (max m (fuel_for input)) ltac:(lia)) as [_ Hf].
  rewrite (parse_expression_le m) in Hf by (lia || by rewrite Hp).
  unfold evaluate. rewrite <- Hf, Hp. cbn. by rewrite skip_spaces_idem, Hend.
Qed.

Lemma evaluate_sound input v : evaluate input = inl v -> exists e, Request input e /\ eval e = v.
Proof.
  unfold evaluate. destruct (parse_expression _ _) as [w s|m|] eqn:Hp; [|done..].
  apply parse_sound in Hp as (e & t' & Hd & <- & Ht). cbn.
  rewrite skip_spaces_no_newline. rewrite andb_true_r.
  destruct (is_char NUL (skip_spaces s)) eqn:Hend; intros ?; simplify_eq/=.
  exists e. split; [|done]. exists t'. split; [done|].
  destruct Ht as [->| ->]; [done|]. by rewrite skip_spaces_idem in Hend.
Qed.

(** C4. The evaluator computes exactly the grammar: it returns [v] if and
    only if the request is an arithmetic expression (precedence, left
    associativity, parentheses, white space anywhere) whose value in binary64
    arithmetic is [v]. *)
Theorem evaluate_correct input v :
  evaluate input = inl v <-> exists e, Request input e /\ eval e = v.
Proof.
  split; [apply evaluate_sound|]. intros (e & Hr & <-). by apply evaluate_accepts.
Qed.

(** The messages the parser dies with. *)
Definition parse_messages : list bytes :=
  [B "missing parenthesis"; B "invalid numeric token"; B "unexpected trailing token"].

Definition dies_well (r : presult) : Prop := forall m, r = PDie m -> m ∈ parse_messages.

Lemma dies_match r (f : double -> bytes -> presult) :
  dies_well r -> (forall v s, dies_well (f v s)) ->
  dies_well (match r with POk v s => f v s | PDie m => PDie m | PFuel => PFuel end).
Proof. intros Hr Hf. by destruct r. Qed.

Lemma dies_number s : dies_well (parse_number s).
Proof.
  intros m. unfold parse_number, parse_messages. destruct (strtod s) as [[? ?] ?].
  case_match; intros ?; simplify_eq. set_solver.
Qed.

#[local] Hint Resolve dies_match dies_number : posix.

Lemma parse_dies fuel :
  (forall s, dies_well (parse_factor fuel s)) /\ (forall s, dies_well (parse_term fuel s)) /\
  (forall v s, dies_well (term_loop fuel v s)) /\ (forall s, dies_well (parse_expression fuel s)) /\
  (forall v s, dies_well (expr_loop fuel v s)).
Proof.
  induction fuel as [|fuel (IHf & IHt & IHtl & IHe & IHel)]; [by repeat split|].
  split; [|split; [|split; [|split]]]; intros.
  - rewrite parse_factor_S. cbn. case_match; [|case_match; [|apply dies_number]].
    + apply dies_match; [done|]. intros v t m E. cbn in E. case_match; simplify_eq.
      unfold parse_messages. set_solver.
    + apply dies_match; [done|]. by intros v t m E.
  - rewrite parse_term_S. auto with posix.
  - rewrite term_loop_S. cbn. case_match; [auto with posix|by intros ?].
  - rewrite parse_expression_S. auto with posix.
  - rewrite expr_loop_S. cbn. case_match; [auto with posix|by intros ?].
Qed.

(** C27. When the evaluator rejects a request, the request is not in the
    grammar, and the message is one of the three of the source. *)
Theorem evaluate_rejects input m :
  evaluate input = inr m -> m ∈ parse_messages /\ ~ exists e, Request input e.
Proof.
  intros E. split.
  - revert E. unfold evaluate.
    destruct (parse_fuel input (fuel_for input) ltac:(lia)) as [Hf _].
    destruct (parse_expression _ _) as [v s|m'|] eqn:Hp; [| |done].
    + cbn. case_match; intros ?; simplify_eq. unfold parse_messages. set_solver.
    + intros ?. simplify_eq. destruct (parse_dies (fuel_for input)) as (_ & _ & _ & He & _).
      by eapply He.
  - intros [e He]. apply evaluate_accepts in He. congruence.
Qed.

Lemma evaluate_rejects_witness :
  B "missing parenthesis" ∈ parse_messages /\ ~ exists e, Request (B "2 * (3 + 4") e.
Proof. apply (evaluate_rejects (B "2 * (3 + 4")). vm_compute. reflexivity. Defined.

(** *** Printing and reading back *)

(** Expressions over integer literals, and their text with no more
    parentheses than the precedences ask for. *)
Inductive aexp : Type :=
| ALit (n : Z)
| ANeg (e : aexp)
| AMul (a b : aexp)
| ADiv (a b : aexp)
| AAdd (a b : aexp)
| ASub (a b : aexp).

Definition of_int (n : Z) : double := of_decimal false n 0.

Fixpoint tree (e : aexp) : ast :=
  match e with
  | ALit n => Num (of_int n)
  | ANeg e => Neg (tree e)
  | AMul a b => Mul Times (tree a) (tree b)
  | ADiv a b => Mul Over (tree a) (tree b)
  | AAdd a b => Add Plus (tree a) (tree b)
  | ASub a b => Add Minus (tree a) (tree b)
  end.

Inductive level : Type := LExpr | LTerm | LFactor.

Definition parens (b : bool) (s : bytes) : bytes :=
  if b then "("%char :: s ++ [")"%char] else s.

Definition above (l : level) (l' : level) : bool :=
  match l, l' with
  | LFactor, (LExpr | LTerm) | LTerm, LExpr => true
  | _, _ => false
  end.

Definition infix (op : ascii) (a b : bytes) : bytes := a ++ " "%char :: op :: " "%char :: b.

Fixpoint print (l : level) (e : aexp) : bytes :=
  match e with
  | ALit n => fmt_u n
  | ANeg e => "-"%char :: print LFactor e
  | AMul a b => parens (above l LTerm) (infix "*"%char (print LTerm a) (print LFactor b))
  | ADiv a b => parens (above l LTerm) (infix "/"%char (print LTerm a) (print LFactor b))
  | AAdd a b => parens (above l LExpr) (infix "+"%char (print LExpr a) (print LTerm b))
  | ASub a b => parens (above l LExpr) (infix "-"%char (print LExpr a) (print LTerm b))
  end.

(** Literals are non-negative and within the range of [double]. *)
Fixpoint in_range (e : aexp) : bool :=
  match e with
  | ALit n => (0 <=? n) && negb (range_error (of_int n) n 1)
  | ANeg e => in_range e
  | AMul a b | ADiv a b | AAdd a b | ASub a b => in_range a && in_range b
  end.

(** What may follow an operand in printed text. *)
Definition follow (rest : bytes) : Prop :=
  match rest with [] => True | c :: _ => c = " "%char \/ c = ")"%char end.

(** What a digit is not. *)
Lemma digit_char c :
  is_digit c = true ->
  isspace c = false /\ Ascii.eqb c "-"%char = false /\ Ascii.eqb c "+"%char = false /\
  Ascii.eqb c "("%char = false /\ Ascii.eqb "i"%char (to_lower c) = false /\
  Ascii.eqb "n"%char (to_lower c) = false /\ Ascii.eqb "x"%char (to_lower c) = false.
Proof. destruct c as [[] [] [] [] [] [] [] []]; vm_compute; intuition. Qed.

Lemma is_digit_val c : 0 <= digit_val c <= 9 -> is_digit c = true.
Proof.
  unfold digit_val, is_digit, code. set (n := Z.of_nat (nat_of_ascii c)).
  destruct ((48 <=? n) && (n <=? 57)) eqn:E1; [done|].
  destruct ((97 <=? n) && (n <=? 122)) eqn:E2; [zsolve|].
  destruct ((65 <=? n) && (n <=? 90)) eqn:E3; zsolve.
Qed.

Lemma span_all f d rest :
  Forall (fun c => f c = true) d ->
  match rest with [] => True | c :: _ => f c = false end ->
  span f (d ++ rest) = (d, rest).
Proof.
  intros Hd Hr. induction Hd as [|c d Hc _ IH]; cbn.
  - destruct rest as [|c rest]; cbn; [done|]. by rewrite Hr.
  - by rewrite Hc, IH.
Qed.

(** Text that starts with a digit is decimal unless it starts with [0x]. *)
Lemma strtod_abs_digit neg c s :
  is_digit c = true -> Ascii.eqb "x"%char (to_lower (peek s)) = false ->
  strtod_abs neg (c :: s) = strtod_dec neg (c :: s).
Proof.
  intros Hc Hx. destruct (digit_char c Hc) as (_ & _ & _ & _ & Hi & Hn & _).
  unfold strtod_abs, B. cbn [list_ascii_of_string strip_prefix]. rewrite Hi, Hn.
  destruct (Ascii.eqb "0" (to_lower c)); [|done]. destruct s as [|a s]; [done|]. cbn [peek] in Hx.
  by rewrite Hx.
Qed.

Lemma follow_not rest :
  follow rest ->
  match rest with [] => True | c :: _ => is_digit c = false end /\
  Ascii.eqb "x"%char (to_lower (peek rest)) = false /\ Ascii.eqb (peek rest) "."%char = false /\
  Ascii.eqb (to_lower (peek rest)) "e"%char = false.
Proof. destruct rest as [|x rest]; [done|]. by intros [->| ->]. Qed.

Lemma strtod_dec_literal d rest :
  d <> [] -> Forall (fun c => is_digit c = true) d -> follow rest ->
  let n := digits_val 10 d in
  strtod_dec false (d ++ rest) = Some (of_int n, rest, range_error (of_int n) n 1).
Proof.
  intros Hne Hd Hf n. destruct (follow_not _ Hf) as (Hdig & _ & Hdot & Hexp).
  unfold strtod_dec, mantissa. rewrite (span_all is_digit d rest Hd Hdig).
  assert (He : exponent "e"%char rest = (0, rest)).
  { destruct rest as [|x rest]; [done|]. cbn in *. by rewrite Hexp. }
  assert (Hr : (if 0 <=? 0 - blen [] then range_error (of_int n) (n * 10 ^ (0 - blen [])) 1
                else range_error (of_int n) n (10 ^ (- (0 - blen [])))) =
               range_error (of_int n) n 1) by (cbn; by rewrite Z.mul_1_r).
  destruct rest as [|x rest]; [|cbn in Hdot; rewrite Hdot];
    rewrite app_nil_r; destruct d as [|c d]; try done;
    rewrite He; fold n; rewrite <- Hr; reflexivity.
Qed.

(** A decimal literal, followed by something that does not continue it. *)
Lemma strtod_literal d rest :
  d <> [] -> Forall (fun c => is_digit c = true) d -> follow rest ->
  let n := digits_val 10 d in
  strtod (d ++ rest) = (of_int n, rest, range_error (of_int n) n 1).
Proof.
  intros Hne Hd Hf n. pose proof (strtod_dec_literal d rest Hne Hd Hf) as Hdec. fold n in Hdec.
  cbn zeta in Hdec. destruct d as [|c d]; [done|]. apply Forall_cons in Hd as [Hc Hd].
  destruct (digit_char c Hc) as (Hs & Hm & Hp & _).
  unfold strtod. cbn. rewrite Hs. cbn. rewrite Hm, Hp, strtod_abs_digit; [cbn [app] in Hdec; by rewrite Hdec|done|].
  destruct d as [|c' d]; [by apply follow_not|]. apply Forall_inv in Hd.
  destruct (digit_char c' Hd) as (_ & _ & _ & _ & _ & _ & Hx). exact Hx.
Qed.

Lemma fmt_u_digits n :
  0 <= n -> fmt_u n <> [] /\ Forall (fun c => is_digit c = true) (fmt_u n).
Proof.
  intros Hn. unfold fmt_u, digits. split.
  - rewrite digits_aux_step. case_match; [done|]. intros E. by apply app_eq_nil in E as [_ ?].
  - eapply Forall_impl; [by apply digits_aux_digit|]. intros c. apply is_digit_val.
Qed.

Lemma print_number n rest :
  0 <= n -> range_error (of_int n) n 1 = false -> follow rest ->
  number (fmt_u n ++ rest) (of_int n) rest.
Proof.
  intros Hn Hr Hf. destruct (fmt_u_digits n Hn) as [Hne Hd].
  pose proof (strtod_literal _ _ Hne Hd Hf) as Hs.
  unfold fmt_u in Hs. rewrite (digits_val_digits 10) in Hs by lia. fold (fmt_u n) in Hs.
  cbn zeta in Hs. rewrite Hr in Hs.
  assert (Hsk : skip_spaces (fmt_u n ++ rest) = fmt_u n ++ rest /\
                is_char "("%char (fmt_u n ++ rest) = false /\
                is_char "-"%char (fmt_u n ++ rest) = false).
  { destruct (fmt_u n) as [|c d]; [done|]. apply Forall_inv in Hd.
    destruct (digit_char c Hd) as (Hsp & Hm & _ & Hp & _). cbn. by rewrite Hsp. }
  destruct Hsk as (Hsk & Hp & Hm). exists (fmt_u n ++ rest). split; [done|]. split; [done|].
  split; [done|]. split; [exact Hs|].
  rewrite length_app. destruct (fmt_u n); [done|]. cbn. lia.
Qed.

(** Leading white space makes no difference. *)
Lemma grammar_space :
  (forall s e t, Factor s e t -> Factor (" "%char :: s) e t) /\
  (forall s e t, Term s e t -> Term (" "%char :: s) e t) /\
  (forall s e t, Expr s e t -> Expr (" "%char :: s) e t).
Proof.
  apply grammar_ind; intros.
  - by apply F_num.
  - by eapply F_neg.
  - by eapply F_paren.
  - by apply T_factor.
  - by eapply T_mul.
  - by apply E_term.
  - by eapply E_add.
Qed.

Definition parses (l : level) (s : bytes) (e : ast) (t : bytes) : Prop :=
  match l with LExpr => Expr s e t | LTerm => Term s e t | LFactor => Factor s e t end.

(** A derivation at one level is one at every lower level. *)
Lemma parses_factor l s e t : Factor s e t -> parses l s e t.
Proof. destruct l; cbn; intros; [by apply E_term, T_factor|by apply T_factor|done]. Qed.

Lemma parses_parens s e rest l l' :
  (forall t, follow t -> parses l' (s ++ t) e t) -> follow rest ->
  parses l (parens (above l l') s ++ rest) e rest.
Proof.
  intros Hs Hf. destruct (above l l') eqn:Ha; cbn.
  - apply parses_factor. rewrite <- app_assoc.
    apply (F_paren _ (s ++ ")"%char :: rest) e (")"%char :: rest)); [reflexivity| |reflexivity].
    specialize (Hs (")"%char :: rest) ltac:(by right)). destruct l'; cbn in Hs.
    + done.
    + by apply E_term.
    + by destruct l.
  - specialize (Hs rest Hf). destruct l, l'; cbn in *; try done.
    + by apply E_term.
    + by apply E_term, T_factor.
    + by apply T_factor.
Qed.

Lemma infix_app op a b rest : infix op a b ++ rest = a ++ " "%char :: op :: " "%char :: b ++ rest.
Proof. unfold infix. by rewrite <- app_assoc. Qed.

Lemma infix_mul o a b ea eb rest :
  (forall t, follow t -> parses LTerm (a ++ t) ea t) ->
  (forall t, follow t -> parses LFactor (b ++ t) eb t) -> follow rest ->
  parses LTerm (infix (mul_char o) a b ++ rest) (Mul o ea eb) rest.
Proof.
  intros Ha Hb Hf. rewrite infix_app. eapply T_mul; [apply Ha; by left| |].
  - by destruct o.
  - apply grammar_space. by apply Hb.
Qed.

Lemma infix_add o a b ea eb rest :
  (forall t, follow t -> parses LExpr (a ++ t) ea t) ->
  (forall t, follow t -> parses LTerm (b ++ t) eb t) -> follow rest ->
  parses LExpr (infix (add_char o) a b ++ rest) (Add o ea eb) rest.
Proof.
  intros Ha Hb Hf. rewrite infix_app. eapply E_add; [apply Ha; by left| |].
  - by destruct o.
  - apply grammar_space. by apply Hb.
Qed.

Lemma print_parses e : in_range e = true ->
  forall l rest, follow rest -> parses l (print l e ++ rest) (tree e) rest.
Proof.
  induction e as [n|e IH|a IHa b IHb|a IHa b IHb|a IHa b IHb|a IHa b IHb]; intros Hr l rest Hf;
    cbn in Hr |- *; try (apply andb_true_iff in Hr as [Hra Hrb]).
  - apply parses_factor. constructor. apply negb_true_iff in Hrb. apply Z.leb_le in Hra.
    by apply print_number.
  - apply parses_factor. eapply F_neg; [reflexivity|]. by apply (IH Hr LFactor).
  - apply parses_parens; [|done]. intros t Ht. apply (infix_mul Times); auto.
  - apply parses_parens; [|done]. intros t Ht. apply (infix_mul Over); auto.
  - apply parses_parens; [|done]. intros t Ht. apply (infix_add Plus); auto.
  - apply parses_parens; [|done]. intros t Ht. apply (infix_add Minus); auto.
Qed.

(** C26. Round trip: the text of any expression over integer literals, with
    only the parentheses its precedences need, evaluates to the value of the
    expression. *)
Theorem evaluate_print e :
  in_range e = true -> evaluate (print LExpr e) = inl (eval (tree e)).
Proof.
  intros Hr. apply evaluate_accepts. exists []. split; [|done].
  rewrite <- (app_nil_r (print LExpr e)). by apply (print_parses e Hr LExpr).
Qed.

Lemma evaluate_print_witness :
  print LExpr (ASub (ALit 1) (AMul (ASub (ALit 20) (ALit 3)) (ANeg (ALit 4)))) =
    B "1 - (20 - 3) * -4" /\
  show (evaluate (B "1 - (20 - 3) * -4")) = B "69.000".
Proof.
  split; [vm_compute; reflexivity|].
  pose proof (evaluate_print (ASub (ALit 1) (AMul (ASub (ALit 20) (ALit 3)) (ANeg (ALit 4))))
                ltac:(vm_compute; reflexivity)) as E.
  assert (Hp : print LExpr (ASub (ALit 1) (AMul (ASub (ALit 20) (ALit 3)) (ANeg (ALit 4)))) =
    B "1 - (20 - 3) * -4") by (vm_compute; reflexivity).
  rewrite Hp in E. rewrite E. vm_compute. reflexivity.
Defined.
