(* ===== verification/Posix.v ===== *)
(** * Posix: programs, processes and the scheduler

    The C programs of the repository are sequences of system and library
    calls made by several processes.  A C function is modelled as a value of
    type [prog]: a tree of calls with one continuation per reply, written
    with a monadic notation so that it reads like the source.  The machine
    below runs a table of such processes over a kernel: it interprets the
    process calls ([fork], [wait], [waitpid], [getpid], [exit], [_exit]) and
    stdio ([printf] and [fflush] with the buffer that [fork] duplicates), and
    leaves every other call to a [Kernel] instance, one per IPC family. *)

From Stdlib Require Import FunctionalExtensionality.
From S2P Require Import Prelude.

(** ** Replies and process calls *)

(** What a call hands back: its return value, [errno] when the value is -1,
    and the contents of its output buffer (bytes for [read], integers for
    [msgrcv], [waitpid]'s status, ...). *)
Record reply := Reply {
  rv : Z;
  rerr : errno;
  rbytes : bytes;
  rints : list Z;
}.

Definition ok (v : Z) : reply := Reply v EOK [] [].
Definition ok_bytes (v : Z) (b : bytes) : reply := Reply v EOK b [].
Definition ok_ints (v : Z) (l : list Z) : reply := Reply v EOK [] l.
Definition failed (e : errno) : reply := Reply (-1) e [] [].

(** [Printf text] is [printf] of a text that may have newlines anywhere;
    [Println text] is [printf] of [text] followed by a newline, [text] having
    none; [WaitAny] is [waitpid(-1, NULL, WNOHANG)]. *)
Inductive pcall : Type :=
| Fork
| Wait
| Waitpid (pid : Z) (nohang : bool)
| Getpid
| Printf (text : bytes)
| Println (text : bytes)
| Fflush
| Eprintf (text : bytes)
| WaitAny.

(** ** Programs *)

(** [prog C A]: a C fragment that makes kernel calls of type [C] and, if
    control reaches its end, yields an [A].  [Loop] is an unbounded C loop:
    [body s] yields [inl s'] to go round again and [inr r] to leave. *)
Inductive prog (C : Type) (A : Type) : Type :=
| Ret (a : A)
| Proc (c : pcall) (k : reply -> prog C A)
| Sys (c : C) (k : reply -> prog C A)
| Exit (code : Z)
| Exit_ (code : Z)
| Undef
| Loop (S R : Type) (body : S -> prog C (S + R)) (s : S) (k : R -> prog C A).

Arguments Ret {C A} a.
Arguments Proc {C A} c k.
Arguments Sys {C A} c k.
Arguments Exit {C A} code.
Arguments Exit_ {C A} code.
Arguments Undef {C A}.
Arguments Loop {C A S R} body s k.

Fixpoint bind {C A A'} (p : prog C A) (f : A -> prog C A') : prog C A' :=
  match p with
  | Ret a => f a
  | Proc c k => Proc c (fun r => bind (k r) f)
  | Sys c k => Sys c (fun r => bind (k r) f)
  | Exit n => Exit n
  | Exit_ n => Exit_ n
  | Undef => Undef
  | Loop body s k => Loop body s (fun r => bind (k r) f)
  end.

Declare Scope prog_scope.
Delimit Scope prog_scope with prog.
Notation "x <- p ;; q" := (bind p (fun x => q))
  (at level 100, p at next level, right associativity) : prog_scope.
Notation "p ;;; q" := (bind p (fun _ => q))
  (at level 100, right associativity) : prog_scope.
#[global] Open Scope prog_scope.

(** One call, its reply returned. *)
Definition proc {C} (c : pcall) : prog C reply := Proc c Ret.
Definition sys {C} (c : C) : prog C reply := Sys c Ret.

(** [while]: an unbounded C loop over a loop state. *)
Definition loop {C S R} (body : S -> prog C (S + R)) (s : S) : prog C R :=
  Loop body s Ret.

(** One trip round a loop. *)
Definition unroll {C A S R} (body : S -> prog C (S + R)) (s : S)
    (k : R -> prog C A) : prog C A :=
  bind (body s) (fun x => match x with
                          | inl s' => Loop body s' k
                          | inr r => k r
                          end).

(** Sequencing is associative. *)
Lemma bind_assoc {C A A' A''} (p : prog C A) (g : A -> prog C A') (f : A' -> prog C A'') :
  bind (bind p g) f = bind p (fun x => bind (g x) f).
Proof.
  induction p; cbn; try done; f_equal; apply functional_extensionality; auto.
Qed.

Lemma unroll_bind {C A A' S R} (body : S -> prog C (S + R)) s (k : R -> prog C A) (f : A -> prog C A') :
  bind (unroll body s k) f = unroll body s (fun r => bind (k r) f).
Proof.
  unfold unroll. rewrite bind_assoc. f_equal. apply functional_extensionality. by intros [].
Qed.

(** [for (i = i0; i < i0 + n; i++) body(i);] *)
Fixpoint for_ {C} (n : nat) (i : Z) (body : Z -> prog C unit) : prog C unit :=
  match n with
  | O => Ret tt
  | S n' => body i ;;; for_ n' (i + 1) body
  end.

(** The same with a variable carried from one iteration to the next. *)
Fixpoint for_acc {C A} (n : nat) (i : Z) (acc : A) (body : Z -> A -> prog C A) : prog C A :=
  match n with
  | O => Ret acc
  | S n' => a <- body i acc ;; for_acc n' (i + 1) a body
  end.

(** The rest of a program after some of its calls have been answered; a
    trip round a loop counts as a call, whatever its answer. *)
Fixpoint adv {C A} (rs : list reply) (p : prog C A) : prog C A :=
  match rs with
  | [] => p
  | r :: rs' =>
      match p with
      | Proc c k => adv rs' (k r)
      | Sys c k => adv rs' (k r)
      | Loop body s k => adv rs' (unroll body s k)
      | _ => p
      end
  end.

(** Signed [int] addition and multiplication: overflow is undefined. *)
Definition int_add {C} (a b : Z) : prog C Z :=
  if in_int (a + b) then Ret (a + b) else Undef.
Definition int_mul {C} (a b : Z) : prog C Z :=
  if in_int (a * b) then Ret (a * b) else Undef.

(** ** Kernels *)

(** What a call does: it returns, it blocks the caller, or it faults (an
    access outside the mapped memory). *)
Inductive kres (K : Type) : Type :=
| Done (r : reply) (s : K)
| Block
| Fault.
Arguments Done {K} r s.
Arguments Block {K}.
Arguments Fault {K}.

(** The state behind the calls of one IPC family.  [kexec i c s] is what the
    call [c] of process [i] does in state [s].
    [kfails c e] says that [c] can fail with [e] whatever the state.
    [kfork i j s] is the effect of process [i] creating process [j] and
    [kexit i s] that of process [i] terminating. *)
Class Kernel (C K : Type) := {
  kexec : nat -> C -> K -> kres K;
  kfails : C -> errno -> bool;
  kfork : nat -> nat -> K -> K;
  kexit : nat -> K -> K;
}.

(** ** Processes *)

Inductive status (C : Type) : Type :=
| Live (p : prog C Z)
| Zombie (code : Z)
| Reaped
| Crashed.

Arguments Live {C} p.
Arguments Zombie {C} code.
Arguments Reaped {C}.
Arguments Crashed {C}.

Record process (C : Type) := Process {
  p_stat : status C;
  p_parent : option nat;
  p_obuf : bytes;
}.

Arguments Process {C} _ _ _.
Arguments p_stat {C} _.
Arguments p_parent {C} _.
Arguments p_obuf {C} _.

Record world (C K : Type) := World {
  procs : list (process C);
  kern : K;
  out : bytes;
  errout : bytes;
}.

Arguments World {C K} _ _ _ _.
Arguments procs {C K} _.
Arguments kern {C K} _.
Arguments out {C K} _.
Arguments errout {C K} _.

(** What a run is given: whether standard output is a terminal (line
    buffered) or not (fully buffered), and the process id of the first
    process.  Later processes get the following ids. *)
Record config := Config {
  tty : bool;
  pid0 : positive;
}.

Definition pidp (cf : config) (i : nat) : positive :=
  Z.to_pos (Zpos (pid0 cf) + Z.of_nat i).
Definition pid_of (cf : config) (i : nat) : Z := Zpos (pidp cf i).
Definition idx_of (cf : config) (pid : Z) : nat := Z.to_nat (pid - Zpos (pid0 cf)).
#[global] Arguments pidp cf i : simpl never.
#[global] Arguments pid_of cf i : simpl never.
#[global] Arguments idx_of cf pid : simpl never.

(** The part of a line-buffered stream that is written out: everything up
    to and including the last newline. *)
Fixpoint upto_newline (b : bytes) : bytes * bytes :=
  match b with
  | [] => ([], [])
  | c :: b' =>
      match upto_newline b' with
      | ([], rest) => if Ascii.eqb c LF then ([c], rest) else ([], c :: rest)
      | (flushed, rest) => (c :: flushed, rest)
      end
  end.

Lemma upto_newline_line b : upto_newline (b ++ [LF]) = (b ++ [LF], []).
Proof. induction b as [|c b IH]; cbn; [done|]. rewrite IH. by destruct b. Qed.

Definition stdio_put (cf : config) (obuf text : bytes) : bytes * bytes :=
  if tty cf then upto_newline (obuf ++ text) else ([], obuf ++ text).

(** A line ends a line-buffered stream's wait. *)
Definition stdio_line (cf : config) (obuf text : bytes) : bytes * bytes :=
  if tty cf then (obuf ++ text ++ [LF], []) else ([], obuf ++ text ++ [LF]).

Lemma stdio_line_put cf obuf text :
  stdio_line cf obuf text = stdio_put cf obuf (text ++ [LF]).
Proof.
  unfold stdio_line, stdio_put. destruct (tty cf); [|done].
  by rewrite (app_assoc obuf), upto_newline_line.
Qed.

(** The value [printf] returns. *)
Definition printed (text : bytes) : Z := blen text.

Lemma upto_newline_app b fl rest : upto_newline b = (fl, rest) -> fl ++ rest = b.
Proof.
  revert fl rest. induction b as [|c b IH]; intros fl rest E; simplify_eq/=; [done|].
  destruct (upto_newline b) as [f r]. specialize (IH _ _ eq_refl).
  destruct f; [destruct (Ascii.eqb c LF)|]; simplify_eq/=; done.
Qed.

(** Buffering delays output, it does not change it. *)
Lemma stdio_put_app cf ob text fl rest :
  stdio_put cf ob text = (fl, rest) -> fl ++ rest = ob ++ text.
Proof.
  unfold stdio_put. destruct (tty cf); [apply upto_newline_app|]. intros E. by simplify_eq.
Qed.

(** A zombie child of [i], a live child of [i]. *)
Definition child_of {C} (i : nat) (p : process C) : bool :=
  match p_parent p with Some j => Nat.eqb i j | None => false end.
Definition is_zombie {C} (p : process C) : bool :=
  match p_stat p with Zombie _ => true | _ => false end.
Definition is_live {C} (p : process C) : bool :=
  match p_stat p with Live _ => true | _ => false end.

Fixpoint find_idx {A} (f : A -> bool) (l : list A) : option nat :=
  match l with
  | [] => None
  | a :: l' => if f a then Some O else S <$> find_idx f l'
  end.

Lemma find_idx_Some {A} (f : A -> bool) (l : list A) i :
  find_idx f l = Some i -> exists a, l !! i = Some a /\ f a = true.
Proof.
  revert i. induction l as [|a l IH]; intros i Hf; simplify_eq/=.
  destruct (f a) eqn:Ha; simplify_eq/=; [by exists a|].
  apply fmap_Some in Hf as (j & Hj & ->). by apply IH.
Qed.

Lemma find_idx_None {A} (f : A -> bool) (l : list A) :
  find_idx f l = None -> Forall (fun a => f a = false) l.
Proof.
  induction l as [|a l IH]; intros Hf; simplify_eq/=; [constructor|].
  destruct (f a) eqn:Ha; simplify_eq/=. apply fmap_None in Hf. auto.
Qed.

Section Machine.
Context {C K : Type} `{Kernel C K} (cf : config).
Implicit Types w : world C K.

Definition set_proc (i : nat) (p : process C) (w : world C K) : world C K :=
  World (<[i := p]> (procs w)) (kern w) (out w) (errout w).
Definition set_kern (s : K) (w : world C K) : world C K :=
  World (procs w) s (out w) (errout w).
Definition emit (b : bytes) (w : world C K) : world C K :=
  World (procs w) (kern w) (out w ++ b) (errout w).
Definition emit_err (b : bytes) (w : world C K) : world C K :=
  World (procs w) (kern w) (out w) (errout w ++ b).

(** Process [i] goes on with program [p]. *)
Definition resume (i : nat) (p : process C) (q : prog C Z) (w : world C K) : world C K :=
  set_proc i (Process (Live q) (p_parent p) (p_obuf p)) w.

(** Termination: the kernel releases what process [i] held. *)
Definition terminate (i : nat) (p : process C) (code : Z) (flush : bool)
    (w : world C K) : world C K :=
  let w := if flush then emit (p_obuf p) w else w in
  set_kern (kexit i (kern w))
    (set_proc i (Process (Zombie (code mod 256)) (p_parent p) []) w).

(** The effect of a process call of process [i], whose continuation is
    [k]; [None] when the call blocks. *)
Definition exec_proc (i : nat) (p : process C) (c : pcall)
    (k : reply -> prog C Z) (w : world C K) : option (world C K) :=
  match c with
  | Fork =>
      let j := length (procs w) in
      let child := Process (Live (k (ok 0))) (Some i) (p_obuf p) in
      Some (World (<[i := Process (Live (k (ok (pid_of cf j)))) (p_parent p) (p_obuf p)]>
                     (procs w) ++ [child])
                  (kfork i j (kern w)) (out w) (errout w))
  | Wait =>
      match find_idx (fun q => child_of i q && is_zombie q) (procs w) with
      | Some j =>
          Some (resume i p (k (ok (pid_of cf j)))
                  (set_proc j (Process Reaped (Some i) []) w))
      | None =>
          if existsb (fun q => child_of i q && is_live q) (procs w) then None
          else Some (resume i p (k (failed ECHILD)) w)
      end
  | Waitpid pid nohang =>
      match procs w !! idx_of cf pid with
      | Some q =>
          if negb (child_of i q) then Some (resume i p (k (failed ECHILD)) w)
          else match p_stat q with
               | Zombie code =>
                   Some (resume i p (k (ok_ints pid [code]))
                           (set_proc (idx_of cf pid) (Process Reaped (Some i) []) w))
               | Live _ => if nohang then Some (resume i p (k (ok 0)) w) else None
               | Reaped => Some (resume i p (k (failed ECHILD)) w)
               | Crashed => None
               end
      | None => Some (resume i p (k (failed ECHILD)) w)
      end
  | Getpid => Some (resume i p (k (ok (pid_of cf i))) w)
  | Printf text =>
      let '(flushed, rest) := stdio_put cf (p_obuf p) text in
      Some (emit flushed
              (set_proc i (Process (Live (k (ok (printed text)))) (p_parent p) rest) w))
  | Println text =>
      let '(flushed, rest) := stdio_line cf (p_obuf p) text in
      Some (emit flushed
              (set_proc i (Process (Live (k (ok (printed text + 1)))) (p_parent p) rest) w))
  | Fflush =>
      Some (emit (p_obuf p)
              (set_proc i (Process (Live (k (ok 0))) (p_parent p) []) w))
  | Eprintf text => Some (emit_err text (resume i p (k (ok (printed text))) w))
  | WaitAny =>
      match find_idx (fun q => child_of i q && is_zombie q) (procs w) with
      | Some j =>
          Some (resume i p (k (ok (pid_of cf j)))
                  (set_proc j (Process Reaped (Some i) []) w))
      | None =>
          Some (resume i p
            (k (if existsb (fun q => child_of i q && is_live q) (procs w) then ok 0 else failed ECHILD)) w)
      end
  end.

(** One step of process [i]. *)
Definition run_step (i : nat) (w : world C K) : option (world C K) :=
  match procs w !! i with
  | Some p =>
      match p_stat p with
      | Live q =>
          match q with
          | Ret code => Some (terminate i p code true w)
          | Exit code => Some (terminate i p code true w)
          | Exit_ code => Some (terminate i p code false w)
          | Undef => Some (set_proc i (Process Crashed (p_parent p) (p_obuf p)) w)
          | Loop body s k => Some (resume i p (unroll body s k) w)
          | Proc c k => exec_proc i p c k w
          | Sys c k =>
              match kexec i c (kern w) with
              | Done r s => Some (set_kern s (resume i p (k r) w))
              | Block => None
              | Fault => Some (set_proc i (Process Crashed (p_parent p) (p_obuf p)) w)
              end
          end
      | _ => None
      end
  | None => None
  end.

(** Which process calls can fail whatever the state, and how. *)
Definition pfails (c : pcall) (e : errno) : bool :=
  match c with
  | Fork => bool_decide (e = EAGAIN \/ e = ENOMEM)
  | Wait => bool_decide (e = EINTR)
  | Waitpid _ _ => bool_decide (e = EINTR)
  | _ => false
  end.

(** A call of process [i] fails with [e]. *)
Definition fail_step (i : nat) (e : errno) (w : world C K) : option (world C K) :=
  match procs w !! i with
  | Some p =>
      match p_stat p with
      | Live (Proc c k) => if pfails c e then Some (resume i p (k (failed e)) w) else None
      | Live (Sys c k) => if kfails c e then Some (resume i p (k (failed e)) w) else None
      | _ => None
      end
  | None => None
  end.

(** The scheduler's choices. *)
Inductive event : Type :=
| Run (i : nat)
| Fail (i : nat) (e : errno).

Definition exec (ev : event) (w : world C K) : option (world C K) :=
  match ev with
  | Run i => run_step i w
  | Fail i e => fail_step i e w
  end.

Fixpoint execs (evs : list event) (w : world C K) : option (world C K) :=
  match evs with
  | [] => Some w
  | ev :: evs' => match exec ev w with Some w' => execs evs' w' | None => None end
  end.

(** Steps in which no call fails, and steps in which calls may fail. *)
Definition step (w w' : world C K) : Prop := exists i, run_step i w = Some w'.
Definition stepf (w w' : world C K) : Prop := exists ev, exec ev w = Some w'.

(** No process is left running. *)
Definition halted (w : world C K) : Prop :=
  Forall (fun p => is_live p = false) (procs w).

(** No process has run into undefined behaviour. *)
Definition defined (w : world C K) : Prop :=
  Forall (fun p => p_stat p <> Crashed) (procs w).

(** A state in which some process is still running but none can move. *)
Definition deadlock (w : world C K) : Prop := ~ halted w /\ nf step w.

(** Total correctness over all schedules: every execution from [w] ends,
    and wherever it ends [Q] holds. *)
Definition total (w : world C K) (Q : world C K -> Prop) : Prop :=
  sn step w /\ forall w', rtc step w w' -> nf step w' -> Q w'.
End Machine.

(** A clean end: the first process has exited with [code], every child has
    been reaped, [text] is what was written to standard output and nothing
    was written to standard error. *)
Definition finished {C K} (code : Z) (text : bytes) (w : world C K) : Prop :=
  (exists b, procs w = Process (Zombie code) None b :: replicate (pred (length (procs w))) (Process Reaped (Some 0%nat) [])) /\
  out w = text /\ errout w = [].

(** The initial state: one process about to run [main]. *)
Definition boot {C K} (main : prog C Z) (s : K) : world C K :=
  World [Process (Live main) None []] s [] [].

(** ** Reasoning about all schedules *)

Section Reasoning.
Context {C K : Type} `{Kernel C K} (cf : config).
Implicit Types w : world C K.

(** What one step does, by the head of the running program. *)
Lemma run_sys_done i w p c k r s :
  procs w !! i = Some p -> p_stat p = Live (Sys c k) -> kexec i c (kern w) = Done r s ->
  run_step cf i w = Some (set_kern s (resume i p (k r) w)).
Proof. intros Hp Hs Hk. unfold run_step. by rewrite Hp, Hs, Hk. Qed.

Lemma run_sys_block i w p c k :
  procs w !! i = Some p -> p_stat p = Live (Sys c k) -> kexec i c (kern w) = Block ->
  run_step cf i w = None.
Proof. intros Hp Hs Hk. unfold run_step. by rewrite Hp, Hs, Hk. Qed.

Lemma run_proc i w p c k :
  procs w !! i = Some p -> p_stat p = Live (Proc c k) ->
  run_step cf i w = exec_proc cf i p c k w.
Proof. intros Hp Hs. unfold run_step. by rewrite Hp, Hs. Qed.

Lemma run_loop i w p S R (body : S -> prog C (S + R)) x k :
  procs w !! i = Some p -> p_stat p = Live (Loop body x k) ->
  run_step cf i w = Some (resume i p (unroll body x k) w).
Proof. intros Hp Hs. unfold run_step. by rewrite Hp, Hs. Qed.

Lemma run_dead i w p :
  procs w !! i = Some p -> is_live p = false -> run_step cf i w = None.
Proof. intros Hp Hs. unfold run_step. rewrite Hp. by destruct p as [[] ? ?]. Qed.

Lemma pid_of_eq i : pid_of cf i = Zpos (pid0 cf) + Z.of_nat i.
Proof. unfold pid_of, pidp. by rewrite Z2Pos.id by lia. Qed.

Lemma idx_of_pid i : idx_of cf (pid_of cf i) = i.
Proof. unfold idx_of. rewrite pid_of_eq. lia. Qed.

(** [waitpid] on a child that has terminated, and on one that has not. *)
Lemma waitpid_zombie i j w p q nohang k code :
  procs w !! j = Some q -> child_of i q = true -> p_stat q = Zombie code ->
  exec_proc cf i p (Waitpid (pid_of cf j) nohang) k w =
  Some (resume i p (k (ok_ints (pid_of cf j) [code])) (set_proc j (Process Reaped (Some i) []) w)).
Proof.
  intros Hq Hc Hs. unfold exec_proc. by rewrite idx_of_pid, Hq, Hc, Hs.
Qed.

Lemma waitpid_live i j w p q k q' :
  procs w !! j = Some q -> child_of i q = true -> p_stat q = Live q' ->
  exec_proc cf i p (Waitpid (pid_of cf j) false) k w = None.
Proof.
  intros Hq Hc Hs. unfold exec_proc. by rewrite idx_of_pid, Hq, Hc, Hs.
Qed.

Lemma pid_of_inj i j : pid_of cf i = pid_of cf j -> i = j.
Proof. rewrite !pid_of_eq. lia. Qed.

Lemma total_now w (Q : world C K -> Prop) :
  nf (step cf) w -> Q w -> total cf w Q.
Proof.
  intros Hnf HQ. split.
  - constructor. intros w' Hs. destruct Hnf. by exists w'.
  - intros w' Hr _. inversion Hr; subst; [done|]. destruct Hnf. eexists; done.
Qed.

(** [w] can move, and wherever it moves to is totally correct. *)
Lemma total_step w (Q : world C K -> Prop) :
  red (step cf) w -> (forall w', step cf w w' -> total cf w' Q) -> total cf w Q.
Proof.
  intros Hred Hall. split.
  - constructor. intros w' Hs. apply (Hall w' Hs).
  - intros w' Hr Hnf. inversion Hr; subst; [done|].
    by eapply Hall.
Qed.

(** When a single process exists, its run is deterministic. *)
Lemma total_solo w w1 p (Q : world C K -> Prop) :
  procs w = [p] -> run_step cf 0 w = Some w1 -> total cf w1 Q -> total cf w Q.
Proof.
  intros Hp Hs Ht. apply total_step.
  - exists w1. by exists 0%nat.
  - intros w' [[|i] Hs'].
    + by simplify_eq.
    + unfold run_step in Hs'. rewrite Hp in Hs'. simplify_eq/=.
Qed.

(** A property of states that a lone process carries backwards over its
    steps: to have it at the end of a straight-line prefix is to have it at
    the start. *)
Definition backward (T : world C K -> Prop) : Prop :=
  forall p w w1, procs w = [p] -> run_step cf 0 w = Some w1 -> T w1 -> T w.

Lemma backward_total (Q : world C K -> Prop) : backward (fun w => total cf w Q).
Proof. intros p w w1. apply total_solo. Qed.

(** [I] holds in every state reachable from [w]. *)
Definition always (I : world C K -> Prop) (w : world C K) : Prop :=
  forall w', rtc (step cf) w w' -> I w'.

Lemma backward_always (I : world C K -> Prop) :
  (forall w p, procs w = [p] -> I w) -> backward (always I).
Proof.
  intros HI p w w1 Hp Hs Ha w' Hr. inversion Hr as [|? w2 ? [[|i] Hs'] Hr']; subst; [by eapply HI| |].
  - simplify_eq. by apply Ha.
  - unfold run_step in Hs'. rewrite Hp in Hs'. simplify_eq/=.
Qed.

Lemma back_sys (T : world C K -> Prop) c k r par ob s s' o e :
  backward T -> kexec 0 c s = Done r s' ->
  T (World [Process (Live (k r)) par ob] s' o e) -> T (World [Process (Live (Sys c k)) par ob] s o e).
Proof. intros HT Hk. eapply HT; [done|]. unfold run_step. cbn. by rewrite Hk. Qed.

(** The same when every other process has terminated. *)
Lemma total_last w w1 (Q : world C K -> Prop) p ps :
  procs w = p :: ps -> Forall (fun q => is_live q = false) ps ->
  run_step cf 0 w = Some w1 -> total cf w1 Q -> total cf w Q.
Proof.
  intros Hp Hps Hs Ht. apply total_step.
  - exists w1. by exists 0%nat.
  - intros w' [[|i] Hs'].
    + by simplify_eq.
    + unfold run_step in Hs'. rewrite Hp in Hs'. simpl in Hs'.
      destruct (ps !! i) as [q|] eqn:Hq; [|done].
      eapply Forall_lookup in Hps; [|exact Hq].
      destruct q as [[] ? ?]; simplify_eq/=.
Qed.

Lemma halted_nf w : halted w -> nf (step cf) w.
Proof.
  intros Hh [w' [i Hs]]. unfold run_step in Hs.
  destruct (procs w !! i) as [q|] eqn:Hq; [|done].
  eapply Forall_lookup in Hh; [|exact Hq].
  destruct q as [[] ? ?]; simplify_eq/=.
Qed.

(** *** The first process alone

    The steps of the first process when every other process has
    terminated, one lemma per kind of step. *)

Definition dead (ps : list (process C)) : Prop := Forall (fun q => is_live q = false) ps.

Lemma dead_nil : dead [].
Proof. constructor. Qed.

Lemma dead_reaped n i b : dead (replicate n (Process Reaped i b)).
Proof. by apply Forall_replicate. Qed.

Section Last.
Context (par : option nat) (ob : bytes) (ps : list (process C)) (s : K) (o e : bytes).
Context (Q : world C K -> Prop).
Hypothesis Hps : dead ps.

Abbreviation at_ p := (World (Process (Live p) par ob :: ps) s o e).

Lemma last_sys c k r s' :
  kexec 0 c s = Done r s' ->
  total cf (World (Process (Live (k r)) par ob :: ps) s' o e) Q -> total cf (at_ (Sys c k)) Q.
Proof.
  intros Hk. eapply total_last; [done|done|].
  unfold run_step. cbn. by rewrite Hk.
Qed.

(** However the stream is buffered, what was printed is either written
    or still in the buffer. *)
Lemma last_printf text k :
  (forall o' rest, o' ++ rest = o ++ ob ++ text ->
     total cf (World (Process (Live (k (ok (printed text)))) par rest :: ps) s o' e) Q) ->
  total cf (at_ (Proc (Printf text) k)) Q.
Proof.
  intros Hk. destruct (stdio_put cf ob text) as [fl rest] eqn:Hput.
  eapply total_last; [done|done|unfold run_step; cbn; by rewrite Hput|].
  apply Hk. cbn. apply stdio_put_app in Hput. by rewrite <- app_assoc, Hput.
Qed.

Lemma last_println text k :
  (forall o' rest, o' ++ rest = o ++ ob ++ text ++ [LF] ->
     total cf (World (Process (Live (k (ok (printed text + 1)))) par rest :: ps) s o' e) Q) ->
  total cf (at_ (Proc (Println text) k)) Q.
Proof.
  intros Hk. destruct (stdio_line cf ob text) as [fl rest] eqn:Hput.
  eapply total_last; [done|done|unfold run_step; cbn; by rewrite Hput|].
  apply Hk. cbn. rewrite stdio_line_put in Hput. apply stdio_put_app in Hput.
  by rewrite <- app_assoc, Hput.
Qed.

Lemma last_fflush k :
  total cf (World (Process (Live (k (ok 0))) par [] :: ps) s (o ++ ob) e) Q ->
  total cf (at_ (Proc Fflush k)) Q.
Proof. by eapply total_last. Qed.

Lemma last_getpid k :
  total cf (at_ (k (ok (pid_of cf 0)))) Q -> total cf (at_ (Proc Getpid k)) Q.
Proof. by eapply total_last. Qed.

Lemma last_loop S R (body : S -> prog C (S + R)) x k :
  total cf (at_ (unroll body x k)) Q -> total cf (at_ (Loop body x k)) Q.
Proof. by eapply total_last. Qed.

Lemma last_ret code :
  Q (World (Process (Zombie (code mod 256)) par [] :: ps) (kexit 0 s) (o ++ ob) e) ->
  total cf (at_ (Ret code)) Q.
Proof.
  intros HQ. eapply total_last; [done|done|done|]. apply total_now; [|done].
  apply halted_nf. cbn. by constructor.
Qed.
End Last.

(** Simulation by an abstract state with a decreasing measure: [R a w] says
    that [a] describes [w]; a described state either is final or can move,
    and each of its moves leads to a described state of smaller measure or
    to one already known to be totally correct. *)
Lemma total_sim {A : Type} (R : A -> world C K -> Prop) (mu : A -> nat)
    (Q : world C K -> Prop) :
  (forall a w, R a w -> red (step cf) w) ->
  (forall a w i w', R a w -> run_step cf i w = Some w' ->
     (exists a', R a' w' /\ (mu a' < mu a)%nat) \/ total cf w' Q) ->
  forall a w, R a w -> total cf w Q.
Proof.
  intros Hred Hstep a.
  remember (mu a) as n eqn:Hn. revert a Hn.
  induction (lt_wf n) as [n _ IH]. intros a -> w HR.
  apply total_step; [by eapply Hred|].
  intros w' [i Hs]. destruct (Hstep _ _ _ _ HR Hs) as [(a' & HR' & Hlt)|]; [|done].
  by eapply IH.
Qed.

(** What total correctness gives: some final state is reached. *)
Lemma total_reaches w (Q : world C K -> Prop) :
  (forall w0, {red (step cf) w0} + {nf (step cf) w0}) ->
  total cf w Q -> exists w', rtc (step cf) w w' /\ nf (step cf) w' /\ Q w'.
Proof.
  intros Hdec [Hsn HQ]. induction Hsn as [w _ IH].
  destruct (Hdec w) as [[w1 Hs]|Hnf].
  - destruct (IH w1 Hs) as (w' & Hr & ? & ?).
    { intros w' Hr. apply HQ. by eapply rtc_l. }
    exists w'. split; [by eapply rtc_l|done].
  - exists w. split; [apply rtc_refl|]. split; [done|]. apply HQ; [apply rtc_refl|done].
Qed.

Lemma total_impl w (Q Q' : world C K -> Prop) :
  (forall w', Q w' -> Q' w') -> total cf w Q -> total cf w Q'.
Proof. intros HQ [? ?]. split; eauto. Qed.

(** Runs given by an explicit list of events. *)
Lemma execs_reach evs w w' :
  execs cf evs w = Some w' -> rtc (stepf cf) w w'.
Proof.
  revert w. induction evs as [|ev evs IH]; intros w Hs; simplify_eq/=; [apply rtc_refl|].
  case_match; [|done]. eapply rtc_l; [by exists ev|]. by apply IH.
Qed.

Lemma runs_reach is_ w w' :
  execs cf (Run <$> is_) w = Some w' -> rtc (step cf) w w'.
Proof.
  revert w. induction is_ as [|i is_ IH]; intros w Hs; simplify_eq/=; [apply rtc_refl|].
  case_match; [|done]. eapply rtc_l; [by exists i|]. by apply IH.
Qed.

(** One schedule: of the first [n] processes the first that can moves. *)
Fixpoint first_step (l : list nat) (w : world C K) : option (world C K) :=
  match l with
  | [] => None
  | i :: l' => match run_step cf i w with Some w' => Some w' | None => first_step l' w end
  end.
Fixpoint first_run (n fuel : nat) (w : world C K) : world C K :=
  match fuel with
  | O => w
  | S f => match first_step (seq 0 n) w with Some w' => first_run n f w' | None => w end
  end.

Lemma first_run_reach n fuel w : rtc (step cf) w (first_run n fuel w).
Proof.
  revert w. induction fuel as [|f IH]; intros w; cbn; [apply rtc_refl|].
  assert (Hs : forall l w', first_step l w = Some w' -> step cf w w').
  { induction l as [|i l IHl]; intros w' Hl; cbn in Hl; [done|].
    destruct (run_step cf i w) as [w1|] eqn:E; [|by apply IHl]. simplify_eq. by exists i. }
  destruct (first_step (seq 0 n) w) as [w'|] eqn:E; [|apply rtc_refl].
  eapply rtc_l; [by apply (Hs _ _ E)|apply IH].
Qed.

(** Invariants of all schedules, with or without failing calls. *)
Lemma step_invariant (I : world C K -> Prop) w w' :
  (forall u v, I u -> step cf u v -> I v) -> I w -> rtc (step cf) w w' -> I w'.
Proof. intros Hp Hw. induction 1; eauto. Qed.

Lemma stepf_invariant (I : world C K -> Prop) w w' :
  (forall u v, I u -> stepf cf u v -> I v) -> I w -> rtc (stepf cf) w w' -> I w'.
Proof. intros Hp Hw. induction 1; eauto. Qed.
End Reasoning.

(** ** Tactics for a process that runs alone

    [last_call t]: the next call, whose effect [t] computes; [last_print]: a
    line printed; [last_end]: the end of [main]. *)
#[export] Hint Resolve dead_nil dead_reaped : posix.

Tactic Notation "last_call" tactic3(t) := eapply last_sys; [auto with posix|t|].
Ltac last_print :=
  first [apply last_println | apply last_printf]; [auto with posix|];
  let o' := fresh "o'" in let rest := fresh "rest" in let Ho := fresh "Ho" in
  intros o' rest Ho; cbn in Ho.
Ltac last_end := apply last_ret; [auto with posix|].
