(* ===== verification/Local.v ===== *)
(** * Local: steps that can be taken first

    A step that only changes what its own process has left to run or to
    write commutes with the steps of the other processes.  To show that all
    schedules are correct it is enough to consider those that take it at
    once. *)

From S2P Require Import Prelude Posix.

Section LocalSteps.
Context {C K : Type} `{Kernel C K} (cf : config).
Implicit Types w : world C K.

(** In every state in which process [i] is [p], its step makes it [p'] and
    changes nothing else. *)
Definition local_to (i : nat) (p p' : process C) : Prop :=
  p_parent p' = p_parent p /\ is_live p = true /\ is_live p' = true /\
  forall w, procs w !! i = Some p -> run_step cf i w = Some (set_proc i p' w).

Lemma find_idx_insert {A} (f : A -> bool) (l : list A) i a a' :
  l !! i = Some a -> f a' = f a -> find_idx f (<[i := a']> l) = find_idx f l.
Proof.
  revert i. induction l as [|x l IH]; intros [|i] Hl Hf; simplify_eq/=; [by rewrite Hf|].
  by rewrite (IH _ Hl Hf).
Qed.

Lemma existsb_ext {A} (f : A -> bool) (l : list A) i a a' :
  l !! i = Some a -> f a' = f a -> existsb f (<[i := a']> l) = existsb f l.
Proof.
  revert i. induction l as [|x l IH]; intros [|i] Hl Hf; simplify_eq/=; [by rewrite Hf|].
  by rewrite (IH _ Hl Hf).
Qed.

Section Local.
Context (i : nat) (p p' : process C).
Hypothesis Hlocal : local_to i p p'.

Lemma local_child j : child_of j p' = child_of j p.
Proof. unfold child_of. by rewrite (proj1 Hlocal). Qed.
Lemma local_zombie (q : process C) : q = p \/ q = p' -> is_zombie q = false.
Proof.
  destruct Hlocal as (_ & Hp & Hp' & _). unfold is_live, is_zombie in *.
  intros [-> | ->]; [by destruct (p_stat p)|by destruct (p_stat p')].
Qed.

Lemma set_commute j q w : i <> j -> set_proc i p' (set_proc j q w) = set_proc j q (set_proc i p' w).
Proof. intros Hne. unfold set_proc. cbn. by rewrite list_insert_insert_ne. Qed.

(** The entry of [i] after another process has moved. *)
Lemma kept j q w : i <> j -> procs w !! i = Some p -> procs (set_proc j q w) !! i = Some p.
Proof. intros Hne Hp. cbn. by rewrite list_lookup_insert_ne. Qed.

(** The moves that only replace entries of other processes. *)
Ltac other_moves :=
  intros [= <-]; unfold resume;
  split; [repeat (apply kept; [done|]); done|by rewrite !set_commute].

(** The same with something written. *)
Ltac other_writes :=
  intros [= <-]; unfold resume, set_proc, set_kern, emit, emit_err; cbn;
  match goal with j : nat |- _ => by rewrite list_lookup_insert_ne, (list_insert_insert_ne _ i j) by done end.

Lemma commute_wait j q k w w2 :
  i <> j -> procs w !! i = Some p -> exec_proc cf j q Wait k w = Some w2 ->
  procs w2 !! i = Some p /\ exec_proc cf j q Wait k (set_proc i p' w) = Some (set_proc i p' w2).
Proof.
  intros Hne Hp. cbn.
  rewrite (find_idx_insert _ _ _ _ p' Hp) by (by rewrite !local_zombie, local_child by auto).
  rewrite (existsb_ext _ _ _ _ p' Hp).
  2: { destruct Hlocal as (_ & -> & -> & _). by rewrite local_child. }
  destruct (find_idx _ _) as [n|] eqn:Hf.
  - apply find_idx_Some in Hf as (x & Hx & Hz).
    assert (Hin : i <> n).
    { intros <-. rewrite Hp in Hx. injection Hx as <-. by rewrite local_zombie, andb_false_r in Hz by auto. }
    other_moves.
  - destruct (existsb _ _); [done|]. other_moves.
Qed.

Lemma commute_waitpid j q pid nohang k w w2 :
  i <> j -> procs w !! i = Some p -> exec_proc cf j q (Waitpid pid nohang) k w = Some w2 ->
  procs w2 !! i = Some p /\
  exec_proc cf j q (Waitpid pid nohang) k (set_proc i p' w) = Some (set_proc i p' w2).
Proof.
  intros Hne Hp. cbn. destruct (decide (i = idx_of cf pid)) as [<-|Hn].
  - rewrite list_lookup_insert_eq by (by eapply lookup_lt_Some). rewrite Hp, local_child.
    destruct Hlocal as (_ & Hl & Hl' & _). unfold is_live in Hl, Hl'.
    destruct (child_of j p); cbn.
    + destruct (p_stat p), (p_stat p'); try done. destruct nohang; [|done].
      other_moves.
    + other_moves.
  - rewrite list_lookup_insert_ne by done.
    destruct (procs w !! idx_of cf pid) as [x|].
    2: { other_moves. }
    destruct (child_of j x); cbn.
    2: { other_moves. }
    destruct (p_stat x); try done.
    + destruct nohang; [|done]. other_moves.
    + other_moves.
    + other_moves.
Qed.

Lemma commute_proc j q c k w w2 :
  i <> j -> procs w !! i = Some p -> exec_proc cf j q c k w = Some w2 ->
  procs w2 !! i = Some p /\ exec_proc cf j q c k (set_proc i p' w) = Some (set_proc i p' w2).
Proof.
  intros Hne Hp. destruct c.
  - cbn. intros [= <-]. cbn. split.
    + rewrite lookup_app_l, list_lookup_insert_ne by (rewrite ?length_insert; (done || by eapply lookup_lt_Some)).
      done.
    + rewrite length_insert. unfold set_proc. cbn. do 2 f_equal.
      rewrite insert_app_l by (rewrite length_insert; by eapply lookup_lt_Some).
      by rewrite (list_insert_insert_ne _ i j).
  - by apply commute_wait.
  - by apply commute_waitpid.
  - cbn. other_moves.
  - cbn. destruct (stdio_put cf (p_obuf q) text). other_writes.
  - cbn. destruct (stdio_line cf (p_obuf q) text). other_writes.
  - cbn. other_writes.
  - cbn. other_writes.
  - cbn. rewrite (find_idx_insert _ _ _ _ p' Hp) by (by rewrite !local_zombie, local_child by auto).
    rewrite (existsb_ext _ _ _ _ p' Hp).
    2: { destruct Hlocal as (_ & -> & -> & _). by rewrite local_child. }
    destruct (find_idx _ _) as [n|] eqn:Hf.
    + apply find_idx_Some in Hf as (x & Hx & Hz).
      assert (Hin : i <> n).
      { intros <-. rewrite Hp in Hx. injection Hx as <-. by rewrite local_zombie, andb_false_r in Hz by auto. }
      other_moves.
    + other_moves.
Qed.

(** A step of another process. *)
Lemma commute_run j w w2 :
  i <> j -> procs w !! i = Some p -> run_step cf j w = Some w2 ->
  procs w2 !! i = Some p /\ run_step cf j (set_proc i p' w) = Some (set_proc i p' w2).
Proof.
  intros Hne Hp. unfold run_step. cbn [procs set_proc]. rewrite list_lookup_insert_ne by done.
  destruct (procs w !! j) as [q|]; [|done].
  destruct (p_stat q) as [r|code| |] eqn:Hq; [|done..].
  assert (Hend : forall code fl, w2 = terminate j q code fl w ->
    procs w2 !! i = Some p /\ terminate j q code fl (set_proc i p' w) = set_proc i p' w2).
  { intros code fl ->. unfold terminate, set_proc, set_kern, emit.
    destruct fl; cbn; (split; [by rewrite list_lookup_insert_ne|by rewrite (list_insert_insert_ne _ i j)]). }
  destruct r as [code|c k|c k|code|code| |S R body x k].
  - intros [= <-]. destruct (Hend code true eq_refl) as [? E]. by rewrite E.
  - by apply commute_proc.
  - cbn. destruct (kexec j c (kern w)) as [r s| |]; [| done |].
    + intros [= <-]. unfold set_kern, resume, set_proc. cbn.
      split; [by rewrite list_lookup_insert_ne|by rewrite (list_insert_insert_ne _ i j)].
    + other_moves.
  - intros [= <-]. destruct (Hend code true eq_refl) as [? E]. by rewrite E.
  - intros [= <-]. destruct (Hend code false eq_refl) as [? E]. by rewrite E.
  - other_moves.
  - other_moves.
Qed.

Lemma total_local w (Q : world C K -> Prop) :
  procs w !! i = Some p -> total cf (set_proc i p' w) Q -> total cf w Q.
Proof.
  intros Hp [Hsn HQ]. remember (set_proc i p' w) as w1 eqn:Hw1. revert w Hp Hw1.
  induction Hsn as [w1 Hacc IH]. intros w Hp ->.
  assert (Hi : run_step cf i w = Some (set_proc i p' w)) by (by apply Hlocal).
  apply total_step; [by exists (set_proc i p' w), i|].
  intros w2 [j Hj]. destruct (decide (i = j)) as [<-|Hne].
  - rewrite Hi in Hj. injection Hj as <-. split; [by constructor|done].
  - destruct (commute_run _ _ _ Hne Hp Hj) as [Hp2 Hj2].
    apply (IH (set_proc i p' w2)); [by exists j| |done|done].
    intros w3 Hr. apply HQ. eapply rtc_l; [by exists j|done].
Qed.
End Local.
End LocalSteps.
