(* ===== verification/Explore.v ===== *)
(** * Explore: all schedules of a small program

    The processes a program forks all run the code of its [main]: what
    distinguishes them is the replies their calls have got.  A state of the
    whole system is then plain data, [aworld]: the replies of each process and
    the state of the kernel.  [asuccs] computes the states one step away, and
    [layers] says that every schedule from a set of states ends, in as many
    rounds as it has constructors, in states that satisfy a property.  The
    tactic [explore] builds such a derivation breadth first, merging equal
    states and taking local steps first ([rsuccs]), with process ids and the
    contents of the input left symbolic.  [safe_of] and [explore_safe] do the
    same for a property of every state on the way. *)

From S2P Require Import Prelude Fmt Posix Local.

(** ** Layers of states

    [W] are the states of a system with steps [R], [St] descriptions of them
    whose successors are computed by [succs]. *)

(** Every execution ends, and wherever it ends [Q] holds. *)
Definition total_of {W : Type} (R : W -> W -> Prop) (w : W) (Q : W -> Prop) : Prop :=
  sn R w /\ forall w', rtc R w w' -> nf R w' -> Q w'.

Inductive layers_of {St : Type} (succs : St -> list St) (Q : St -> Prop) : list St -> Prop :=
| layers_nil : layers_of succs Q []
| layers_cons l ss l' :
    succs <$> l = ss ->
    Forall2 (fun a s => match s with [] => Q a | _ => Forall (fun x => x ∈ l') s end) l ss ->
    layers_of succs Q l' -> layers_of succs Q l.

(** The states of a layer that have no successor, given the successors of
    each as indices into the next layer. *)
Fixpoint finals {St : Type} (l : list St) (idx : list (list nat)) : list St :=
  match l, idx with
  | a :: l', [] :: idx' => a :: finals l' idx'
  | _ :: l', _ :: idx' => finals l' idx'
  | _, _ => []
  end.

Definition in_range (n : nat) (idx : list (list nat)) : bool :=
  forallb (forallb (fun i => Nat.ltb i n)) idx.

Section Layers.
Context {St W : Type} (R : W -> W -> Prop) (conc : St -> W) (succs : St -> list St).

(** The successors are enough: a state is correct if they are. *)
Definition enough : Prop := forall a (Q : W -> Prop),
  Forall (fun a' => total_of R (conc a') Q) (succs a) -> (succs a = [] -> Q (conc a)) ->
  total_of R (conc a) Q.

Lemma layers_of_sound Q l :
  enough -> layers_of succs (fun a => Q (conc a)) l -> Forall (fun a => total_of R (conc a) Q) l.
Proof.
  intros Hen. induction 1 as [|l ss l' Hss HF _ IH]; [constructor|]. subst ss.
  apply Forall_forall. intros a Ha. apply list_elem_of_lookup in Ha as [n Hn].
  assert (Hn' : (succs <$> l) !! n = Some (succs a)) by (by rewrite list_lookup_fmap, Hn).
  pose proof (Forall2_lookup_lr _ _ _ _ _ _ HF Hn Hn') as Ha. cbn in Ha.
  rewrite Forall_forall in IH. apply Hen.
  - destruct (succs a); [constructor|]. eapply Forall_impl; [exact Ha|]. exact IH.
  - intros E. by rewrite E in Ha.
Qed.

(** All the successors of a state are enough. *)
Lemma all_enough a Q :
  (forall w', R (conc a) w' <-> exists a', a' ∈ succs a /\ w' = conc a') ->
  Forall (fun a' => total_of R (conc a') Q) (succs a) -> (succs a = [] -> Q (conc a)) ->
  total_of R (conc a) Q.
Proof.
  intros Hs Hall Hnone. rewrite Forall_forall in Hall. split.
  - constructor. intros w' (a' & Ha' & ->)%Hs. by apply Hall.
  - intros w' Hr Hnf. inversion Hr as [|? y ? Hy Hr']; subst.
    2: { apply Hs in Hy as (a' & Ha' & ->). by apply (Hall a'). }
    apply Hnone. destruct (succs a) as [|a' l] eqn:E; [done|]. destruct Hnf. exists (conc a').
    apply Hs. exists a'. split; [constructor|done].
Qed.
End Layers.

Lemma finals_in {St} (l : list St) idx n a :
  l !! n = Some a -> idx !! n = Some [] -> a ∈ finals l idx.
Proof.
  revert idx n. induction l as [|x l IH]; intros [|js idx] [|n] Ha Hi; simplify_eq/=.
  - constructor.
  - specialize (IH _ _ Ha Hi). destruct js; [by constructor|done].
Qed.

Lemma layers_idx {St} (succs : St -> list St) Q l idx l' :
  succs <$> l = (fun js => omap (fun i => l' !! i) js) <$> idx ->
  in_range (length l') idx = true ->
  Forall Q (finals l idx) -> layers_of succs Q l' -> layers_of succs Q l.
Proof.
  intros E Hr Hf Hl. eapply layers_cons; [exact E| |exact Hl].
  assert (Hlen : length l = length idx).
  { apply (f_equal length) in E. by rewrite !length_fmap in E. }
  apply Forall2_same_length_lookup_2; [by rewrite length_fmap|].
  intros n a s Ha Hs. rewrite list_lookup_fmap in Hs.
  destruct (idx !! n) as [js|] eqn:Hi; simplify_eq/=.
  destruct js as [|i js].
  - cbn. rewrite Forall_forall in Hf. apply Hf. by eapply finals_in.
  - unfold in_range in Hr. rewrite forallb_forall in Hr.
    specialize (Hr (i :: js)). rewrite <- list_elem_of_In in Hr.
    specialize (Hr (list_elem_of_lookup_2 _ _ _ Hi)). cbn in Hr. apply andb_true_iff in Hr as [Hr _].
    apply Nat.ltb_lt, lookup_lt_is_Some in Hr as [x Hx]. cbn. rewrite Hx.
    rewrite Forall_forall. intros y Hy. apply elem_of_cons in Hy as [->|Hy].
    + by eapply list_elem_of_lookup_2.
    + apply list_elem_of_omap in Hy as (j & _ & Hj). by eapply list_elem_of_lookup_2.
Qed.

(** The same for a property of every state on the way: [I] holds of each
    state of each layer, and the layers end. *)
Inductive safe_of {St : Type} (succs : St -> list St) (I : St -> Prop) : list St -> Prop :=
| safe_nil : safe_of succs I []
| safe_cons l idx l' :
    succs <$> l = (fun js => omap (fun i => l' !! i) js) <$> idx ->
    Forall I l -> safe_of succs I l' -> safe_of succs I l.

Lemma safe_of_sound {St W} (R : W -> W -> Prop) (conc : St -> W) (succs : St -> list St) (I : W -> Prop) l :
  (forall a w', R (conc a) w' -> exists a', a' ∈ succs a /\ w' = conc a') ->
  safe_of succs (fun a => I (conc a)) l ->
  forall a w', a ∈ l -> rtc R (conc a) w' -> I w'.
Proof.
  intros Hs. induction 1 as [|l idx l' E HI _ IH]; intros a w' Ha Hr; [by apply not_elem_of_nil in Ha|].
  remember (conc a) as w eqn:Hw. destruct Hr as [|? y ? Hy Hr]; subst.
  - rewrite Forall_forall in HI. by apply HI.
  - apply Hs in Hy as (a' & Ha' & ->). apply (IH a'); [|done].
    apply list_elem_of_lookup in Ha as [n Hn].
    assert (Hsn : (succs <$> l) !! n = Some (succs a)) by (by rewrite list_lookup_fmap, Hn).
    rewrite E, list_lookup_fmap in Hsn. destruct (idx !! n) as [js|]; [|done]. cbn in Hsn. injection Hsn as Hsn.
    rewrite <- Hsn in Ha'. apply list_elem_of_omap in Ha' as (j & _ & Hj). by eapply list_elem_of_lookup_2.
Qed.

(** ** Descriptions of the machine's states

    What a process has left to run is described by a [P]: [pconc] gives the
    program, [pans] the description after one more reply. *)

Inductive astat (P : Type) : Type :=
| ALive (p : P)
| AZombie (code : Z)
| AReaped
| ACrashed.
Arguments ALive {P} p.
Arguments AZombie {P} code.
Arguments AReaped {P}.
Arguments ACrashed {P}.

Record aproc (P : Type) := AProc {
  a_stat : astat P;
  a_parent : option nat;
  a_obuf : bytes;
}.
Arguments AProc {P} _ _ _.
Arguments a_stat {P} _.
Arguments a_parent {P} _.
Arguments a_obuf {P} _.

Record aworld (P K : Type) := AWorld {
  a_procs : list (aproc P);
  a_kern : K;
  a_out : bytes;
  a_err : bytes;
}.
Arguments AWorld {P K} _ _ _ _.
Arguments a_procs {P K} _.
Arguments a_kern {P K} _.
Arguments a_out {P K} _.
Arguments a_err {P K} _.

Section Describe.
Context {C K P : Type} `{Kernel C K} (cf : config).
Context (pconc : P -> prog C Z) (pans : P -> reply -> P).

(** The state of the machine that an abstract state stands for. *)
Definition conc_stat (s : astat P) : status C :=
  match s with
  | ALive q => Live (pconc q)
  | AZombie code => Zombie code
  | AReaped => Reaped
  | ACrashed => Crashed
  end.
Definition conc_proc (p : aproc P) : process C :=
  Process (conc_stat (a_stat p)) (a_parent p) (a_obuf p).
Definition conc (a : aworld P K) : world C K :=
  World (conc_proc <$> a_procs a) (a_kern a) (a_out a) (a_err a).

(** Process [i] gets the reply [r]. *)
Definition answer (p : aproc P) (q : P) (r : reply) : aproc P :=
  AProc (ALive (pans q r)) (a_parent p) (a_obuf p).
Definition upd (a : aworld P K) (i : nat) (p : aproc P) : aworld P K :=
  AWorld (<[i := p]> (a_procs a)) (a_kern a) (a_out a) (a_err a).

Definition a_child_of (i : nat) (p : aproc P) : bool :=
  match a_parent p with Some j => Nat.eqb i j | None => false end.
Definition a_is_zombie (p : aproc P) : bool :=
  match a_stat p with AZombie _ => true | _ => false end.
Definition a_is_live (p : aproc P) : bool :=
  match a_stat p with ALive _ => true | _ => false end.

Definition aterminate (i : nat) (p : aproc P) (code : Z) (flush : bool) (a : aworld P K) : aworld P K :=
  AWorld (<[i := AProc (AZombie (code mod 256)) (a_parent p) []]> (a_procs a))
         (kexit i (a_kern a)) (a_out a ++ if flush then a_obuf p else []) (a_err a).

Definition acall (i : nat) (p : aproc P) (q : P) (c : pcall) (a : aworld P K)
    : option (aworld P K) :=
  match c with
  | Fork =>
      let j := length (a_procs a) in
      Some (AWorld (<[i := answer p q (ok (pid_of cf j))]> (a_procs a) ++
                      [AProc (ALive (pans q (ok 0))) (Some i) (a_obuf p)])
                   (kfork i j (a_kern a)) (a_out a) (a_err a))
  | Wait =>
      match find_idx (fun x => a_child_of i x && a_is_zombie x) (a_procs a) with
      | Some j =>
          Some (upd (upd a j (AProc AReaped (Some i) [])) i (answer p q (ok (pid_of cf j))))
      | None =>
          if existsb (fun x => a_child_of i x && a_is_live x) (a_procs a) then None
          else Some (upd a i (answer p q (failed ECHILD)))
      end
  | Waitpid pid nohang =>
      match a_procs a !! idx_of cf pid with
      | Some x =>
          if negb (a_child_of i x) then Some (upd a i (answer p q (failed ECHILD)))
          else match a_stat x with
               | AZombie code =>
                   Some (upd (upd a (idx_of cf pid) (AProc AReaped (Some i) [])) i
                           (answer p q (ok_ints pid [code])))
               | ALive _ => if nohang then Some (upd a i (answer p q (ok 0))) else None
               | AReaped => Some (upd a i (answer p q (failed ECHILD)))
               | ACrashed => None
               end
      | None => Some (upd a i (answer p q (failed ECHILD)))
      end
  | Getpid => Some (upd a i (answer p q (ok (pid_of cf i))))
  | Printf text =>
      let '(flushed, rest) := stdio_put cf (a_obuf p) text in
      Some (AWorld (<[i := AProc (ALive (pans q (ok (printed text)))) (a_parent p) rest]> (a_procs a))
                   (a_kern a) (a_out a ++ flushed) (a_err a))
  | Println text =>
      let '(flushed, rest) := stdio_line cf (a_obuf p) text in
      Some (AWorld (<[i := AProc (ALive (pans q (ok (printed text + 1)))) (a_parent p) rest]> (a_procs a))
                   (a_kern a) (a_out a ++ flushed) (a_err a))
  | Fflush =>
      Some (AWorld (<[i := AProc (ALive (pans q (ok 0))) (a_parent p) []]> (a_procs a))
                   (a_kern a) (a_out a ++ a_obuf p) (a_err a))
  | Eprintf text =>
      Some (AWorld (<[i := answer p q (ok (printed text))]> (a_procs a))
                   (a_kern a) (a_out a) (a_err a ++ text))
  | WaitAny =>
      match find_idx (fun x => a_child_of i x && a_is_zombie x) (a_procs a) with
      | Some j =>
          Some (upd (upd a j (AProc AReaped (Some i) [])) i (answer p q (ok (pid_of cf j))))
      | None =>
          Some (upd a i (answer p q
            (if existsb (fun x => a_child_of i x && a_is_live x) (a_procs a) then ok 0 else failed ECHILD)))
      end
  end.

Definition crash (i : nat) (p : aproc P) (a : aworld P K) : aworld P K :=
  upd a i (AProc ACrashed (a_parent p) (a_obuf p)).

Definition astep (a : aworld P K) (i : nat) : option (aworld P K) :=
  match a_procs a !! i with
  | Some p =>
      match a_stat p with
      | ALive q =>
          match pconc q with
          | Ret code => Some (aterminate i p code true a)
          | Exit code => Some (aterminate i p code true a)
          | Exit_ code => Some (aterminate i p code false a)
          | Undef => Some (crash i p a)
          | Loop _ _ _ => Some (upd a i (answer p q (ok 0)))
          | Proc c _ => acall i p q c a
          | Sys c _ =>
              match kexec i c (a_kern a) with
              | Done r s =>
                  Some (AWorld (<[i := answer p q r]> (a_procs a)) s (a_out a) (a_err a))
              | Block => None
              | Fault => Some (crash i p a)
              end
          end
      | _ => None
      end
  | None => None
  end.

(** *** The abstract steps are the steps *)

Hypothesis H_pans : forall q r, pconc (pans q r) = adv [r] (pconc q).

Lemma conc_answer p q r :
  conc_proc (answer p q r) = Process (Live (adv [r] (pconc q))) (a_parent p) (a_obuf p).
Proof. unfold conc_proc. cbn. by rewrite H_pans. Qed.

Lemma conc_upd a i p : conc (upd a i p) = set_proc i (conc_proc p) (conc a).
Proof. unfold conc, upd, set_proc. cbn. by rewrite list_fmap_insert. Qed.

Lemma conc_child_of i p : child_of i (conc_proc p) = a_child_of i p.
Proof. done. Qed.
Lemma conc_is_zombie p : is_zombie (conc_proc p) = a_is_zombie p.
Proof. by destruct p as [[] ? ?]. Qed.
Lemma conc_is_live p : is_live (conc_proc p) = a_is_live p.
Proof. by destruct p as [[] ? ?]. Qed.

Lemma find_idx_fmap {A B} (g : A -> B) (f : B -> bool) l :
  find_idx f (g <$> l) = find_idx (fun x => f (g x)) l.
Proof. induction l as [|a l IH]; cbn; [done|]. by rewrite IH. Qed.
Lemma find_idx_ext {A} (f g : A -> bool) l :
  (forall x, f x = g x) -> find_idx f l = find_idx g l.
Proof. intros E. induction l as [|a l IH]; cbn; [done|]. by rewrite E, IH. Qed.
Lemma existsb_fmap {A B} (g : A -> B) (f : B -> bool) l :
  existsb f (g <$> l) = existsb (fun x => f (g x)) l.
Proof. induction l as [|a l IH]; cbn; [done|]. by rewrite IH. Qed.
Lemma existsb_ext_all {A} (f g : A -> bool) l :
  (forall x, f x = g x) -> existsb f l = existsb g l.
Proof. intros E. induction l as [|a l IH]; cbn; [done|]. by rewrite E, IH. Qed.

Lemma find_zombie i (l : list (aproc P)) :
  find_idx (fun q => child_of i q && is_zombie q) (conc_proc <$> l) =
  find_idx (fun x => a_child_of i x && a_is_zombie x) l.
Proof. rewrite find_idx_fmap. apply find_idx_ext. intros. by rewrite conc_is_zombie. Qed.
Lemma exists_live i (l : list (aproc P)) :
  existsb (fun q => child_of i q && is_live q) (conc_proc <$> l) =
  existsb (fun x => a_child_of i x && a_is_live x) l.
Proof. rewrite existsb_fmap. apply existsb_ext_all. intros. by rewrite conc_is_live. Qed.

Lemma acall_conc i p q c k a :
  pconc q = Proc c k ->
  exec_proc cf i (conc_proc p) c k (conc a) = conc <$> acall i p q c a.
Proof.
  intros Hadv. destruct c; cbn [exec_proc acall].
  - cbn [procs kern out errout conc]. rewrite length_fmap. unfold conc.
    cbn [fmap option_fmap option_map a_procs a_kern a_out a_err].
    rewrite fmap_app, list_fmap_insert, conc_answer, Hadv. cbn.
    unfold conc_proc. cbn. by rewrite H_pans, Hadv.
  - cbn [procs conc]. rewrite find_zombie, exists_live.
    destruct (find_idx _ _); [|destruct (existsb _ _); [done|]];
      cbn [fmap option_fmap option_map]; rewrite ?conc_upd, conc_answer, Hadv; done.
  - cbn [procs conc]. rewrite list_lookup_fmap.
    destruct (a_procs a !! idx_of cf pid) as [x|]; cbn [fmap option_fmap option_map].
    2: by rewrite conc_upd, conc_answer, Hadv.
    rewrite conc_child_of. destruct (a_child_of i x); cbn [negb].
    2: by cbn; rewrite conc_upd, conc_answer, Hadv.
    destruct x as [[] ? ?]; cbn [conc_proc conc_stat a_stat p_stat];
      try (destruct nohang); cbn [fmap option_fmap option_map];
      rewrite ?conc_upd, ?conc_answer, ?Hadv; done.
  - cbn. by rewrite conc_upd, conc_answer, Hadv.
  - destruct p as [st par ob]. cbn [conc_proc p_obuf a_obuf].
    destruct (stdio_put cf ob text) as [fl rest]. cbn.
    unfold conc, emit, set_proc. cbn. rewrite list_fmap_insert. unfold conc_proc at 2. cbn.
    by rewrite H_pans, Hadv.
  - destruct p as [st par ob]. cbn [conc_proc p_obuf a_obuf].
    destruct (stdio_line cf ob text) as [fl rest]. cbn.
    unfold conc, emit, set_proc. cbn. rewrite list_fmap_insert. unfold conc_proc at 2. cbn.
    by rewrite H_pans, Hadv.
  - cbn. unfold conc, emit, set_proc. cbn. rewrite list_fmap_insert. unfold conc_proc at 2. cbn.
    by rewrite H_pans, Hadv.
  - cbn. unfold conc, emit_err, resume, set_proc. cbn. rewrite list_fmap_insert, conc_answer, Hadv.
    done.
  - cbn [procs conc]. rewrite find_zombie, exists_live.
    destruct (find_idx _ _); [|destruct (existsb _ _)];
      cbn [fmap option_fmap option_map]; rewrite ?conc_upd, conc_answer, Hadv; done.
Qed.

Lemma astep_conc i a : run_step cf i (conc a) = conc <$> astep a i.
Proof.
  unfold run_step, astep. cbn [procs conc]. rewrite list_lookup_fmap.
  destruct (a_procs a !! i) as [p|] eqn:Hp; [|done]. cbn [fmap option_fmap option_map].
  destruct (a_stat p) as [q|code| |] eqn:Hs;
    unfold conc_proc at 1; rewrite Hs; cbn [conc_stat p_stat]; try done.
  destruct (pconc q) as [code|c k|c k|code|code| |S R body s k] eqn:Hadv.
  - unfold terminate, aterminate, conc. cbn. by rewrite list_fmap_insert.
  - by apply acall_conc.
  - destruct (kexec i c (a_kern a)) as [r s| |] eqn:Hk; cbn; rewrite Hk; cbn.
    + unfold conc, set_kern, resume, set_proc. cbn. by rewrite list_fmap_insert, conc_answer, Hadv.
    + done.
    + unfold crash. by rewrite conc_upd.
  - unfold terminate, aterminate, conc. cbn. by rewrite list_fmap_insert.
  - unfold terminate, aterminate, conc. cbn. by rewrite list_fmap_insert, app_nil_r.
  - cbn. unfold crash. by rewrite conc_upd.
  - cbn. rewrite conc_upd, conc_answer, Hadv. done.
Qed.

End Describe.

(** ** Programs without handlers: a process is the replies it has got *)

Section Explore.
Context {C K : Type} `{Kernel C K} (cf : config) (main : prog C Z).

Abbreviation after := (fun rs : list reply => adv rs main).
Abbreviation more := (fun (rs : list reply) r => rs ++ [r]).

Lemma adv_snoc rs r (p : prog C Z) : adv (rs ++ [r]) p = adv [r] (adv rs p).
Proof.
  revert p. induction rs as [|x rs IH]; intros p; [done|].
  destruct p; cbn; try done; apply IH.
Qed.

Definition asuccs (a : aworld (list reply) K) : list (aworld (list reply) K) :=
  omap (astep cf after more a) (seq 0 (length (a_procs a))).

Lemma asuccs_step a w' :
  step cf (conc after a) w' <-> exists a', a' ∈ asuccs a /\ w' = conc after a'.
Proof.
  assert (Hs : forall i, run_step cf i (conc after a) = conc after <$> astep cf after more a i)
    by (intros i; apply astep_conc; intros; apply adv_snoc).
  unfold asuccs. split.
  - intros [i Hi]. rewrite Hs in Hi. apply fmap_Some in Hi as (a' & Ha & ->). exists a'.
    split; [|done]. apply list_elem_of_omap. exists i. split; [|done]. apply elem_of_seq.
    split; [lia|]. unfold astep in Ha. destruct (a_procs a !! i) eqn:Hp; [|done].
    by apply lookup_lt_Some in Hp.
  - intros (a' & Ha & ->). apply list_elem_of_omap in Ha as (i & _ & Hi). exists i. by rewrite Hs, Hi.
Qed.

(** The next step of a process only concerns itself: entering a loop,
    [getpid], and printing to a buffer that is not written out. *)
Definition is_local (p : aproc (list reply)) : bool :=
  match a_stat p with
  | ALive rs =>
      match adv rs main with
      | Loop _ _ _ | Proc Getpid _ => true
      | Proc (Printf _) _ | Proc (Println _) _ => negb (tty cf)
      | _ => false
      end
  | _ => false
  end.

(** Such a step is taken at once. *)
Definition rsuccs (a : aworld (list reply) K) : list (aworld (list reply) K) :=
  match find_idx is_local (a_procs a) with
  | Some i => match astep cf after more a i with Some a' => [a'] | None => [] end
  | None => asuccs a
  end.

Lemma is_local_to i ap :
  is_local ap = true -> exists p', local_to cf i (conc_proc after ap) p'.
Proof.
  unfold is_local. destruct ap as [[rs| | |] par ob]; cbn; try done.
  destruct (adv rs main) as [code|c k|c k|code|code| |S R body x k] eqn:E; try done.
  - destruct c; try done.
    + intros _. exists (Process (Live (k (ok (pid_of cf i)))) par ob). split_and!; try done.
      intros w Hw. unfold run_step. rewrite Hw. cbn. by rewrite E.
    + intros Ht%negb_true_iff. exists (Process (Live (k (ok (printed text)))) par (ob ++ text)).
      split_and!; try done. intros w Hw. unfold run_step. rewrite Hw. cbn. rewrite E. cbn.
      unfold stdio_put. rewrite Ht. unfold emit, set_proc. cbn. by rewrite app_nil_r.
    + intros Ht%negb_true_iff. exists (Process (Live (k (ok (printed text + 1)))) par (ob ++ text ++ [LF])).
      split_and!; try done. intros w Hw. unfold run_step. rewrite Hw. cbn. rewrite E. cbn.
      unfold stdio_line. rewrite Ht. unfold emit, set_proc. cbn. by rewrite app_nil_r.
  - intros _. exists (Process (Live (unroll body x k)) par ob). split_and!; try done.
    intros w Hw. unfold run_step. rewrite Hw. cbn. by rewrite E.
Qed.

Lemma rsuccs_enough : enough (step cf) (conc after) rsuccs.
Proof.
  intros a Q. unfold rsuccs. destruct (find_idx is_local (a_procs a)) as [i|] eqn:Hf.
  2: apply all_enough, asuccs_step.
  intros Hall _. apply find_idx_Some in Hf as (ap & Hp & Hl).
  destruct (is_local_to i ap Hl) as [p' Hloc].
  assert (Hpi : procs (conc after a) !! i = Some (conc_proc after ap)) by (cbn; by rewrite list_lookup_fmap, Hp).
  pose proof Hloc as (_ & _ & _ & Hrun). specialize (Hrun _ Hpi).
  rewrite (astep_conc cf after more) in Hrun by (intros; apply adv_snoc).
  destruct (astep cf after more a i) as [a'|]; [|done].
  assert (E : conc after a' = set_proc i p' (conc after a)) by (cbn in Hrun; congruence).
  apply (total_local cf i _ p' Hloc _ Q Hpi). rewrite <- E. by inversion Hall.
Qed.

Abbreviation layers Q := (layers_of rsuccs (fun a => Q (conc after a))).

Lemma layers_sound (Q : world C K -> Prop) l :
  layers Q l -> Forall (fun a => total cf (conc after a) Q) l.
Proof. apply (layers_of_sound (step cf) (conc after) rsuccs), rsuccs_enough. Qed.

(** The same after a first call of [main] that returned [r]. *)
Lemma layers_second Q s r s1 :
  run_step cf 0 (boot main s) = Some (conc after (AWorld [AProc (ALive [r]) None []] s1 [] [])) ->
  layers Q [AWorld [AProc (ALive [r]) None []] s1 [] []] -> total cf (boot main s) Q.
Proof.
  intros Hs Hl. apply layers_sound in Hl. inversion Hl as [|? ? Ht _]; subst.
  by eapply total_solo.
Qed.

Lemma layers_boot Q s :
  layers Q [AWorld [AProc (ALive []) None []] s [] []] -> total cf (boot main s) Q.
Proof. intros Hl. apply layers_sound in Hl. by inversion Hl. Qed.
End Explore.

(** A property of every reachable state. *)
Lemma safe_boot {C K} `{Kernel C K} cf (main : prog C Z) (I : world C K -> Prop) s :
  safe_of (asuccs cf main) (fun a => I (conc (fun rs => adv rs main) a)) [AWorld [AProc (ALive []) None []] s [] []] ->
  always cf I (boot main s).
Proof.
  intros Hl w' Hr. eapply (safe_of_sound (step cf) (conc (fun rs => adv rs main))); [|exact Hl|by constructor|exact Hr].
  intros a w1. apply asuccs_step.
Qed.

(** The layers of a program's schedules. *)
Abbreviation layers cf main Q := (layers_of (rsuccs cf main) (fun a => Q (conc (fun rs => adv rs main) a))).

Lemma idx_of_pidp cf i : idx_of cf (Zpos (pidp cf i)) = i.
Proof. exact (idx_of_pid cf i). Qed.

(** ** The tactic *)

(** Evaluation that leaves process ids and their decimal text symbolic. *)
Ltac is_ground_Z n :=
  lazymatch n with
  | Z0 => idtac
  | Zpos ?p => is_ground_pos p
  | Zneg ?p => is_ground_pos p
  end
with is_ground_pos p :=
  lazymatch p with
  | xH => idtac
  | xO ?q => is_ground_pos q
  | xI ?q => is_ground_pos q
  end.

(** Text with a symbolic part in canonical form. *)
Ltac fold_app :=
  change (fix app (l m : bytes) {struct l} : bytes :=
            match l with [] => m | a :: l1 => a :: app l1 m end) with (@app ascii);
  repeat (first [rewrite app_nil_r | rewrite <- app_assoc]; cbn [app]).

Ltac run_eval :=
  cbv -[pidp idx_of fmt_id printed hole sym_eqb];
  repeat (first
    [ rewrite idx_of_pidp
    | rewrite sym_eqb_refl
    | match goal with
      | |- context [sym_eqb ?a ?b] =>
          is_ground_Z a; is_ground_Z b;
          let v := eval vm_compute in (sym_eqb a b) in change (sym_eqb a b) with v
      end ];
    cbv -[pidp idx_of fmt_id printed hole sym_eqb]);
  lazymatch goal with
  | |- context [fmt_id] => fold_app
  | _ => idtac
  end.

(** The end of a run: every process has terminated and the output is the
    text expected. *)
Ltac ended :=
  split; [eexists; reflexivity|];
  split; [first [reflexivity|run_eval; reflexivity]|reflexivity].

(** A layer under construction: its states with their indices, the last
    one first.  [index x acc] is the index of [x], or the next free one. *)
Ltac index x acc :=
  lazymatch acc with
  | (x, ?i) :: _ => i
  | _ :: ?t => index x t
  end.
Ltac next acc :=
  lazymatch acc with
  | (_, ?i) :: _ => constr:(S i)
  | _ => constr:(O)
  end.

(** Add the states of [s] to [acc]; [k] gets the new layer and the indices. *)
Ltac place s acc k :=
  lazymatch s with
  | ?x :: ?t =>
      match goal with
      | _ => let i := index x acc in place t acc ltac:(fun acc' js => k acc' constr:(i :: js))
      | _ => let i := next acc in
             place t constr:((x, i) :: acc) ltac:(fun acc' js => k acc' constr:(i :: js))
      end
  | _ => k acc constr:(@nil nat)
  end.
Ltac places ss acc k :=
  lazymatch ss with
  | ?s :: ?t =>
      place s acc ltac:(fun acc' js =>
        places t acc' ltac:(fun acc'' iss => k acc'' constr:(js :: iss)))
  | _ => k acc constr:(@nil (list nat))
  end.
Ltac states acc l :=
  lazymatch acc with
  | (?x, _) :: ?t => states t constr:(x :: l)
  | _ => l
  end.

(** One round: the successors of a layer, which [ev] evaluates, and the
    layer they form. *)
Ltac layer_with ev :=
  lazymatch goal with
  | |- layers_of ?succs ?Q ?l =>
      let T := type of l in
      let A := lazymatch T with list ?A => A end in
      let ss := fresh "ss" in
      let E := fresh "E" in
      evar (ss : list T);
      assert (E : succs <$> l = ss) by (subst ss; ev; reflexivity);
      subst ss;
      lazymatch type of E with
      | _ = ?v =>
          places v constr:(@nil (A * nat)) ltac:(fun acc idx =>
            let l' := states acc constr:(@nil A) in
            refine (layers_idx succs Q l idx l' E eq_refl _ _); clear E;
            [cbv [finals];
             repeat (apply List.Forall_cons; cbv beta); try apply List.Forall_nil|])
      end
  end.

(** The same for a property of every state, which [prove] shows. *)
Ltac safe_layer ev prove :=
  lazymatch goal with
  | |- safe_of ?succs ?Q ?l =>
      let T := type of l in
      let A := lazymatch T with list ?A => A end in
      let ss := fresh "ss" in
      let E := fresh "E" in
      evar (ss : list T);
      assert (E : succs <$> l = ss) by (subst ss; ev; reflexivity);
      subst ss;
      lazymatch type of E with
      | _ = ?v =>
          places v constr:(@nil (A * nat)) ltac:(fun acc idx =>
            let l' := states acc constr:(@nil A) in
            refine (safe_cons succs Q l idx l' E _ _); clear E;
            [repeat (apply List.Forall_cons; [prove|]); apply List.Forall_nil|])
      end
  end.
Ltac explore_safe prove := repeat (first [apply safe_nil | safe_layer ltac:(run_eval) ltac:(prove)]).

Ltac explore_with ev := repeat (first [apply layers_nil | layer_with ev]).
Ltac explore := explore_with run_eval.
