(* ===== verification/Common.v ===== *)
(** * Common: the helpers of [Common/common.c]

    Every program of the repository is linked with these functions.  They are
    polymorphic in the kernel: the descriptor calls they make are given by the
    interface [FdCalls], which the kernels that have descriptors implement. *)

From S2P Require Import Prelude Posix.

(** The descriptor calls [common.c] makes. *)
Class FdCalls (C : Type) := {
  c_close : Z -> C;
  c_write : Z -> bytes -> C;
  c_getfl : Z -> C;
  c_setfl : Z -> Z -> C;
  as_write : C -> option (Z * bytes);
  as_write_write : forall fd chunk, as_write (c_write fd chunk) = Some (fd, chunk);
}.

(** glibc's message for an error number. *)
Definition strerror (e : errno) : bytes :=
  B match e with
    | EOK => "Success"
    | EPERM => "Operation not permitted"
    | ENOENT => "No such file or directory"
    | EINTR => "Interrupted system call"
    | E2BIG => "Argument list too long"
    | EBADF => "Bad file descriptor"
    | ECHILD => "No child processes"
    | EAGAIN => "Resource temporarily unavailable"
    | ENOMEM => "Cannot allocate memory"
    | EEXIST => "File exists"
    | EINVAL => "Invalid argument"
    | EMFILE => "Too many open files"
    | EPIPE => "Broken pipe"
    | ERANGE => "Numerical result out of range"
    | EDEADLK => "Resource deadlock avoided"
    | ENOLCK => "No locks available"
    | EIDRM => "Identifier removed"
    | EOVERFLOW => "Value too large for defined data type"
    | ETIMEDOUT => "Connection timed out"
    | EADDRINUSE => "Address already in use"
    | ECONNREFUSED => "Connection refused"
    | EMSGSIZE => "Message too long"
    | EFBIG => "File too large"
    | EBUSY => "Device or resource busy"
    end.

Definition EXIT_FAILURE : Z := 1.

Section Common.
Context {C : Type}.

(** [fprintf(stderr, "error: %s\n", message); exit(EXIT_FAILURE);] *)
Definition die {A} (message : bytes) : prog C A :=
  proc (Eprintf (B "error: " ++ message ++ [LF])) ;;;
  Exit EXIT_FAILURE.

(** [errno] is the one of the failed call. *)
Definition die_errno {A} (e : errno) (message : bytes) : prog C A :=
  proc (Eprintf (B "error: " ++ message ++ B ": " ++ strerror e ++ [LF])) ;;;
  Exit EXIT_FAILURE.

Definition wait_body (pid : Z) : unit -> prog C (unit + unit) :=
  fun _ =>
    r <- proc (Waitpid pid false) ;;
    if rv r =? -1 then
      if decide (rerr r = EINTR) then Ret (inl tt)
      else die_errno (rerr r) (B "waitpid")
    else Ret (inr tt).

Definition wait_for_pid (pid : Z) : prog C unit := loop (wait_body pid) tt.

Definition reap_body : unit -> prog C (unit + unit) :=
  fun _ =>
    r <- proc Wait ;;
    if rv r >? 0 then Ret (inl tt) else Ret (inr tt).

Definition reap_all_children : prog C unit := loop reap_body tt.

Context `{FdCalls C}.

Definition xclose (fd : Z) : prog C unit :=
  if fd >=? 0 then
    r <- sys (c_close fd) ;;
    if rv r =? -1 then die_errno (rerr r) (B "close") else Ret tt
  else Ret tt.

Definition SIZE_T_MOD : Z := 2 ^ 64.
Definition SSIZE_MAX : Z := 2 ^ 63 - 1.

(** [(ssize_t)n] for an [n] of type [size_t]: the value modulo [2 ^ 64]. *)
Definition to_ssize (n : Z) : Z := if n <=? SSIZE_MAX then n else n - SIZE_T_MOD.

(** The bytes [buffer[cursor .. cursor + n)]; [None] when they are not all
    inside the buffer. *)
Definition slice (buffer : bytes) (cursor n : Z) : option bytes :=
  if (0 <=? cursor) && (cursor + n <=? blen buffer)
  then Some (take (Z.to_nat n) (drop (Z.to_nat cursor) buffer))
  else None.

(** The loop of [write_all]; its state is (cursor, remaining). *)
Definition write_all_body (fd : Z) (buffer : bytes) (length : Z)
    : Z * Z -> prog C ((Z * Z) + Z) :=
  fun '(cursor, remaining) =>
    if remaining >? 0 then
      match slice buffer cursor remaining with
      | None => Undef
      | Some chunk =>
          r <- sys (c_write fd chunk) ;;
          if rv r =? -1 then
            if decide (rerr r = EINTR) then Ret (inl (cursor, remaining))
            else Ret (inr (-1))
          else
            Ret (inl (cursor + rv r, (remaining - rv r) mod SIZE_T_MOD))
      end
    else Ret (inr (to_ssize length)).

Definition write_all (fd : Z) (buffer : bytes) (length : Z) : prog C Z :=
  loop (write_all_body fd buffer length) (0, length).

Definition O_NONBLOCK : Z := 2048.

(** The reply carries the [errno] the caller reports. *)
Definition set_nonblock (fd : Z) : prog C reply :=
  r <- sys (c_getfl fd) ;;
  if rv r =? -1 then Ret r
  else sys (c_setfl fd (Z.lor (rv r) O_NONBLOCK)).
End Common.

#[global] Arguments strerror e : simpl never.
#[global] Arguments die {C A} message : simpl never.
#[global] Arguments die_errno {C A} e message : simpl never.

(** ** Traces: what a fragment does whatever the kernel answers *)

(** The ways a fragment can end. *)
Inductive outcome (A : Type) : Type :=
| Returned (a : A)
| Exited (code : Z)
| Undefined.
Arguments Returned {A} a.
Arguments Exited {A} code.
Arguments Undefined {A}.

(** One call with the reply it got. *)
Inductive obs (C : Type) : Type :=
| OProc (c : pcall) (r : reply)
| OSys (c : C) (r : reply).
Arguments OProc {C} c r.
Arguments OSys {C} c r.

(** [runs p tr o]: when the calls of [p] are answered as in [tr], [p] makes
    exactly these calls and ends with [o]. *)
Inductive runs {C A : Type} : prog C A -> list (obs C) -> outcome A -> Prop :=
| runs_ret a : runs (Ret a) [] (Returned a)
| runs_exit n : runs (Exit n) [] (Exited n)
| runs_exit_ n : runs (Exit_ n) [] (Exited n)
| runs_undef : runs Undef [] Undefined
| runs_proc c k r tr o : runs (k r) tr o -> runs (Proc c k) (OProc c r :: tr) o
| runs_sys c k r tr o : runs (k r) tr o -> runs (Sys c k) (OSys c r :: tr) o
| runs_loop S R (body : S -> prog C (S + R)) s k tr o :
    runs (unroll body s k) tr o -> runs (Loop body s k) tr o.

#[export] Hint Constructors runs : posix.

(** Inversion, by computation on the program. *)
Lemma runs_inv {C A} (p : prog C A) tr o :
  runs p tr o ->
  match p with
  | Ret a => tr = [] /\ o = Returned a
  | Exit n | Exit_ n => tr = [] /\ o = Exited n
  | Undef => tr = [] /\ o = Undefined
  | Proc c k => exists r tr', tr = OProc c r :: tr' /\ runs (k r) tr' o
  | Sys c k => exists r tr', tr = OSys c r :: tr' /\ runs (k r) tr' o
  | Loop body s k => runs (unroll body s k) tr o
  end.
Proof. destruct 1; eauto. Qed.

(** Replies determine the run: a fragment is deterministic up to what the
    kernel answers, so one trace is not a proper prefix of another. *)
Lemma runs_deterministic {C A} (p : prog C A) tr o tr' o' :
  runs p tr o -> runs p tr' o' -> tr `prefix_of` tr' -> tr = tr' /\ o = o'.
Proof.
  intros Hr. revert tr' o'.
  induction Hr as [| | | |c k r tr o _ IH|c k r tr o _ IH|S R body s k tr o _ IH];
    intros tr' o' Hr' Hpre; apply runs_inv in Hr'; simpl in Hr'; try by destruct Hr' as [-> ->].
  - destruct Hr' as (r' & tr1 & -> & Hk). destruct Hpre as [t Ht]. simplify_eq/=.
    destruct (IH _ _ Hk) as [<- ->]; [by eexists|done].
  - destruct Hr' as (r' & tr1 & -> & Hk). destruct Hpre as [t Ht]. simplify_eq/=.
    destruct (IH _ _ Hk) as [<- ->]; [by eexists|done].
  - by apply IH.
Qed.

(** *** [write_all] against [write(2)] *)

(** The descriptor calls alone, as an instance of the interface. *)
Inductive fdcall : Type :=
| FClose (fd : Z)
| FWrite (fd : Z) (chunk : bytes)
| FGetfl (fd : Z)
| FSetfl (fd flags : Z).

#[export, refine] Instance fdcall_FdCalls : FdCalls fdcall := {|
  c_close := FClose; c_write := FWrite; c_getfl := FGetfl; c_setfl := FSetfl;
  as_write := fun c => match c with FWrite fd chunk => Some (fd, chunk) | _ => None end
|}.
Proof. done. Defined.

Section WriteContract.
Context {C : Type} `{FdCalls C}.

(** A call of [write(2)]: the bytes asked for and the reply. *)
Definition written (ob : obs C) : option (bytes * reply) :=
  match ob with
  | OSys c r => match as_write c with Some (_, chunk) => Some (chunk, r) | None => None end
  | _ => None
  end.

Lemma written_write fd chunk r : written (OSys (c_write fd chunk) r) = Some (chunk, r).
Proof. unfold written. by rewrite as_write_write. Qed.

(** [write(2)]: -1, or a count between 0 and the number of bytes asked. *)
Definition write_contract (ob : obs C) : Prop :=
  match written ob with
  | Some (chunk, r) => rv r = -1 \/ 0 <= rv r <= blen chunk
  | None => True
  end.

(** The bytes the kernel has taken over, in order. *)
Definition taken (ob : obs C) : bytes :=
  match written ob with
  | Some (chunk, r) => if rv r =? -1 then [] else take (Z.to_nat (rv r)) chunk
  | None => []
  end.
Definition accepted (tr : list (obs C)) : bytes := concat (taken <$> tr).

Lemma accepted_write fd chunk r tr :
  accepted (OSys (c_write fd chunk) r :: tr) =
  (if rv r =? -1 then [] else take (Z.to_nat (rv r)) chunk) ++ accepted tr.
Proof. unfold accepted, taken. cbn -[written]. by rewrite written_write. Qed.
Lemma contract_write fd chunk r :
  write_contract (OSys (c_write fd chunk) r) <-> rv r = -1 \/ 0 <= rv r <= blen chunk.
Proof. unfold write_contract. by rewrite written_write. Qed.

(** The last call failed with an error other than [EINTR]. *)
Definition hard_error (tr : list (obs C)) : Prop :=
  exists tr0 fd chunk r, tr = tr0 ++ [OSys (c_write fd chunk) r] /\ rv r = -1 /\ rerr r <> EINTR.

End WriteContract.

Section WriteAll.
Context {C : Type} `{FdCalls C} (fd : Z) (arr : bytes) (len : nat).
Hypothesis Hlen : (len <= length arr)%nat.
Hypothesis Hsize : Z.of_nat len < SIZE_T_MOD.

(** The array may be longer than the text to write. *)
Abbreviation buf := (take len arr).
Abbreviation body := (write_all_body (C:=C) fd arr (Z.of_nat len)).
Context {A : Type} (k : Z -> prog C A).
Abbreviation from n := (Loop body (Z.of_nat len - Z.of_nat n, Z.of_nat n) k).

Lemma slice_rest n :
  (n <= len)%nat -> slice arr (Z.of_nat len - Z.of_nat n) (Z.of_nat n) = Some (drop (len - n) buf).
Proof.
  intros Hn. unfold slice, blen.
  destruct (Z.leb_spec 0 (Z.of_nat len - Z.of_nat n)); [|lia].
  destruct (Z.leb_spec (Z.of_nat len - Z.of_nat n + Z.of_nat n) (Z.of_nat (length arr))); [|lia].
  cbn. rewrite Nat2Z.id, skipn_firstn_comm. do 3 f_equal; lia.
Qed.

(** One trip of the loop with [n] bytes left; [k] is what follows it. *)
Lemma write_all_trip (n : nat) tr o :
  (n <= len)%nat -> runs (from n) tr o ->
  let rest := drop (len - n) buf in
  (n = 0%nat /\ runs (k (to_ssize (Z.of_nat len))) tr o) \/
  (n <> 0%nat /\ exists r tr', tr = OSys (c_write fd rest) r :: tr' /\
    ((rv r = -1 /\ rerr r = EINTR /\ runs (from n) tr' o) \/
     (rv r = -1 /\ rerr r <> EINTR /\ runs (k (-1)) tr' o) \/
     (rv r <> -1 /\ (0 <= rv r <= Z.of_nat n -> runs (from (n - Z.to_nat (rv r))%nat) tr' o)))).
Proof.
  intros Hn Hr rest. apply runs_inv in Hr. unfold unroll in Hr. simpl in Hr.
  destruct (Z.of_nat n >? 0) eqn:Hpos.
  2: { left. zbool. split; [lia|done]. }
  right. zbool. split; [lia|]. rewrite slice_rest in Hr by done.
  simpl in Hr. apply runs_inv in Hr as (r & tr' & -> & Hr). exists r, tr'. split; [done|].
  destruct (rv r =? -1) eqn:Hv; zbool.
  - case_decide; simpl in Hr; [left; done|right; left; done].
  - right; right. split; [done|]. intros Hle. simpl in Hr.
    rewrite Z.mod_small in Hr by lia.
    replace (Z.of_nat (n - Z.to_nat (rv r))) with (Z.of_nat n - rv r) by lia.
    by replace (Z.of_nat len - (Z.of_nat n - rv r)) with (Z.of_nat len - Z.of_nat n + rv r) by lia.
Qed.

(** The calls of [write_all] with the value it returns, [rest] being what it
    has to write: all of them write to the descriptor. *)
Definition writes_to_fd (ob : obs C) : Prop := exists chunk r, ob = OSys (c_write fd chunk) r.
Definition delivers (rest : bytes) (tr : list (obs C)) (v : Z) : Prop :=
  Forall writes_to_fd tr /\
  ((v = to_ssize (Z.of_nat len) /\ accepted tr = rest) \/
   (v = -1 /\ hard_error tr /\ exists tl, tl <> [] /\ accepted tr ++ tl = rest)).

Lemma delivers_cons rest rest' c r tr v :
  (if rv r =? -1 then [] else take (Z.to_nat (rv r)) c) ++ rest' = rest ->
  delivers rest' tr v -> delivers rest (OSys (c_write fd c) r :: tr) v.
Proof.
  intros Hrest [Hf Hd]. split; [constructor; [by eexists _, _|done]|].
  destruct Hd as [[-> Ha]|(-> & (t0 & f0 & c0 & r0 & -> & He) & tl & Htl & Ha)].
  - left. by rewrite accepted_write, Ha.
  - right. split; [done|]. split; [by exists (OSys (c_write fd c) r :: t0), f0, c0, r0|].
    exists tl. split; [done|]. by rewrite accepted_write, <- app_assoc, Ha.
Qed.

Lemma write_all_loop (tr : list (obs C)) : forall (n : nat) o,
  (n <= len)%nat -> runs (from n) tr o -> Forall write_contract tr ->
  exists tr1 tr2 v, tr = tr1 ++ tr2 /\ delivers (drop (len - n) buf) tr1 v /\ runs (k v) tr2 o.
Proof.
  induction tr as [|ob tr IH]; intros n o Hn Hr Hc; apply write_all_trip in Hr; try done;
    destruct Hr as [(-> & Hk)|(Hn0 & r & tr' & Htr & Hr)]; try done.
  1,2: eexists [], _, _; split; [done|]; split; [split; [done|left; split; [done|]]|exact Hk];
    rewrite drop_ge by (rewrite length_take; lia); done.
  simplify_eq. apply Forall_cons in Hc as [Hr0 Hc]. apply contract_write in Hr0.
  set (rest := drop (len - n) buf) in *.
  assert (Hrest : length rest = n) by (subst rest; rewrite length_drop, length_take; lia).
  destruct Hr as [(Hv & He & Hr)|[(Hv & He & Hk)|(Hv & Hr)]].
  - destruct (IH _ _ Hn Hr Hc) as (t1 & t2 & v & -> & Hd & Hk).
    exists (OSys (c_write fd rest) r :: t1), t2, v. split; [done|]. split; [|done].
    by apply (delivers_cons _ rest); [rewrite Hv|].
  - exists [OSys (c_write fd rest) r], tr', (-1). split; [done|]. split; [|done].
    split; [constructor; [by eexists _, _|done]|].
    right. split; [done|]. split; [by exists [], fd, rest, r|]. exists rest.
    split; [intros E; rewrite E in Hrest; cbn in Hrest; lia|]. by rewrite accepted_write, Hv.
  - destruct Hr0 as [?|Hle]; [done|]. unfold blen in Hle.
    destruct (IH (n - Z.to_nat (rv r))%nat o) as (t1 & t2 & v & -> & Hd & Hk); [lia|apply Hr; lia|done|].
    exists (OSys (c_write fd rest) r :: t1), t2, v. split; [done|]. split; [|done].
    eapply delivers_cons; [|exact Hd].
    replace (rv r =? -1) with false by (symmetry; by apply Z.eqb_neq).
    rewrite <- (take_drop (Z.to_nat (rv r)) rest) at 2. f_equal. subst rest.
    rewrite drop_drop. f_equal. lia.
Qed.

(** [write_all] followed by [k]: the first [len] bytes of the array are
    delivered, or there is an error. *)
Lemma write_all_then (tr : list (obs C)) o :
  runs (bind (write_all fd arr (Z.of_nat len)) k) tr o -> Forall write_contract tr ->
  exists tr1 tr2 v, tr = tr1 ++ tr2 /\ delivers buf tr1 v /\ runs (k v) tr2 o.
Proof.
  intros Hr Hc. pose proof (write_all_loop tr len o (Nat.le_refl _)) as Hl.
  rewrite Nat.sub_diag, drop_0, Z.sub_diag in Hl. by apply Hl.
Qed.
End WriteAll.

(** ** Correctness of [common.c] *)

(** C5. [write_all] delivers the whole buffer or reports an error: however
    [write(2)] splits the data and however often it is interrupted, either
    the value returned is the length asked and the bytes the kernel took are
    exactly the buffer, in order and without repetition, or it is -1, the
    last [write] failed with an error other than [EINTR], and the bytes taken
    are a proper prefix of the buffer.  No byte outside the buffer is read.
    The buffer is at most [SSIZE_MAX] bytes long, so that its length is a
    value of the type returned. *)
Theorem write_all_correct {C} `{FdCalls C} fd buf (tr : list (obs C)) o :
  blen buf <= SSIZE_MAX ->
  runs (write_all fd buf (blen buf)) tr o ->
  Forall write_contract tr ->
  (o = Returned (blen buf) /\ accepted tr = buf) \/
  (o = Returned (-1) /\ hard_error tr /\
     exists tl, tl <> [] /\ accepted tr ++ tl = buf).
Proof.
  intros Hb Hr Hc. unfold blen in Hb.
  destruct (write_all_then fd buf (length buf) (Nat.le_refl _) ltac:(unfold SSIZE_MAX, SIZE_T_MOD in *; lia) Ret tr o Hr Hc)
    as (t1 & t2 & v & -> & [_ Hd] & [-> ->]%runs_inv).
  replace (to_ssize (Z.of_nat (length buf))) with (blen buf) in Hd
    by (unfold to_ssize, blen; by destruct (Z.leb_spec (Z.of_nat (length buf)) SSIZE_MAX); [|lia]).
  rewrite app_nil_r. rewrite firstn_all in Hd. destruct Hd as [[-> Ha]|(-> & He & Ha)]; [by left|by right].
Qed.

Lemma write_all_correct_witness :
  accepted [OSys (FWrite 4 (B "hello")) (ok 2); OSys (FWrite 4 (B "llo")) (failed EINTR);
            OSys (FWrite 4 (B "llo")) (ok 3)] = B "hello".
Proof.
  destruct (write_all_correct 4 (B "hello")
    [OSys (FWrite 4 (B "hello")) (ok 2); OSys (FWrite 4 (B "llo")) (failed EINTR);
     OSys (FWrite 4 (B "llo")) (ok 3)] (Returned 5)) as [[_ H]|(H & _)].
  - vm_compute; congruence.
  - repeat (apply runs_loop || apply runs_sys || apply runs_ret).
  - repeat constructor; vm_compute; intuition congruence.
  - exact H.
  - discriminate H.
Defined.

(** A kernel's behaviour on one descriptor: the reply to the [i]-th [write]. *)
Definition answers := nat -> bytes -> reply.

(** [write(2)] on a blocking descriptor makes progress: it fails or takes at
    least one byte of a non-empty request. *)
Definition write_progress (ans : answers) : Prop :=
  forall i chunk, chunk <> [] -> rv (ans i chunk) = -1 \/ 1 <= rv (ans i chunk) <= blen chunk.

(** Signals do not interrupt every later call. *)
Definition not_forever_interrupted (ans : answers) : Prop :=
  forall i, exists j, (i <= j)%nat /\ forall chunk, rerr (ans j chunk) <> EINTR.

(** The calls of a trace are answered by [ans], from the [i]-th on. *)
Fixpoint answered (ans : answers) (i : nat) (tr : list (obs fdcall)) : Prop :=
  match tr with
  | [] => True
  | OSys (FWrite _ chunk) r :: tr' => r = ans i chunk /\ answered ans (S i) tr'
  | _ :: _ => False
  end.

Section WriteAllTotal.
Context (fd : Z) (buf : bytes) (ans : answers).
Hypothesis Hbuf : blen buf < SIZE_T_MOD.
Hypothesis Hprog : write_progress ans.
Hypothesis Hint : not_forever_interrupted ans.

Abbreviation body := (write_all_body (C:=fdcall) fd buf (blen buf)).
Abbreviation from n := (Loop body (blen buf - Z.of_nat n, Z.of_nat n) Ret).

(** The trip taken on the reply [ans i rest]. *)
Lemma write_all_next n i tr o :
  (0 < n <= length buf)%nat ->
  let rest := drop (length buf - n) buf in
  let r := ans i rest in
  (if rv r =? -1 then
     if decide (rerr r = EINTR) then runs (from n) tr o
     else tr = [] /\ o = Returned (-1)
   else runs (from (n - Z.to_nat (rv r))) tr o) ->
  runs (from n) (OSys (FWrite fd rest) r :: tr) o.
Proof.
  intros Hn rest r Hk. apply runs_loop. unfold unroll. simpl.
  replace (Z.of_nat n >? 0) with true by (symmetry; apply Z.gtb_lt; lia).
  unfold slice, blen in *.
  replace (0 <=? Z.of_nat (length buf) - Z.of_nat n) with true by (symmetry; apply Z.leb_le; lia).
  replace (Z.of_nat (length buf) - Z.of_nat n + Z.of_nat n <=? Z.of_nat (length buf))
    with true by (symmetry; apply Z.leb_le; lia).
  simpl. rewrite Nat2Z.id.
  replace (Z.to_nat (Z.of_nat (length buf) - Z.of_nat n)) with (length buf - n)%nat by lia.
  assert (Hlen : length rest = n) by (subst rest; rewrite length_drop; lia).
  rewrite (take_ge (drop _ _)) by (rewrite length_drop; lia). fold rest.
  apply runs_sys. simpl. destruct (rv r =? -1) eqn:Hv; zbool.
  - case_decide; simpl; [done|]. destruct Hk as [-> ->]. constructor.
  - simpl. destruct (Hprog i rest) as [?|Hle]; [intros ->; simpl in *; lia|done|].
    fold r in Hle. unfold blen in Hle. rewrite Z.mod_small by lia.
    replace (Z.of_nat n - rv r) with (Z.of_nat (n - Z.to_nat (rv r))) by lia.
    replace (Z.of_nat (length buf) - Z.of_nat n + rv r)
      with (Z.of_nat (length buf) - Z.of_nat (n - Z.to_nat (rv r))) by lia. done.
Qed.

Lemma write_all_finishes n :
  (n <= length buf)%nat -> forall i, exists tr o, runs (from n) tr o /\ answered ans i tr.
Proof.
  induction (lt_wf n) as [n _ IH]. intros Hn i.
  destruct (decide (n = 0)%nat) as [->|Hn0].
  { exists [], (Returned (to_ssize (blen buf))). split; [|done]. apply runs_loop, runs_ret. }
  destruct (Hint i) as (j & Hij & Hj).
  remember (j - i)%nat as d eqn:Hd. revert i Hij Hd.
  induction d as [|d IHd]; intros i Hij Hd.
  all: set (rest := drop (length buf - n) buf); set (r := ans i rest).
  all: destruct (rv r =? -1) eqn:Hv; [destruct (decide (rerr r = EINTR)) as [He|He]|].
  1: { exfalso. replace j with i in Hj by lia. by apply (Hj rest). }
  3: { destruct (IHd (S i)) as (tr & o & Hr & Ha); [lia..|].
       exists (OSys (FWrite fd rest) r :: tr), o. split; [|done].
       apply write_all_next; [lia|]. fold rest r. rewrite Hv. by rewrite decide_True. }
  1, 3: exists [OSys (FWrite fd rest) r], (Returned (-1)); split; [|done];
    apply write_all_next; [lia|]; fold rest r; rewrite Hv; by rewrite decide_False.
  all: destruct (Hprog i rest) as [?|Hle];
    [intros E; apply (f_equal length) in E; subst rest; rewrite length_drop in E; simpl in E; lia
    |zbool; done|]; fold r in Hle;
    destruct (IH (n - Z.to_nat (rv r))%nat ltac:(lia) ltac:(lia) (S i)) as (tr & o & Hr & Ha);
    exists (OSys (FWrite fd rest) r :: tr), o; split; [|done];
    apply write_all_next; [lia|]; fold rest r; by rewrite Hv.
Qed.
End WriteAllTotal.

(** C29. [write_all] terminates: on a descriptor where [write(2)] makes
    progress and signals do not interrupt every call from some point on, the
    loop ends after finitely many calls, whatever the kernel answers. *)
Theorem write_all_terminates fd buf ans :
  blen buf < SIZE_T_MOD -> write_progress ans -> not_forever_interrupted ans ->
  exists tr o, runs (write_all fd buf (blen buf)) tr o /\ answered ans 0 tr.
Proof.
  intros Hb Hp Hi.
  destruct (write_all_finishes fd buf ans Hb Hp Hi (length buf) ltac:(lia) 0%nat)
    as (tr & o & Hr & Ha).
  unfold blen in Hr. rewrite Z.sub_diag in Hr. by exists tr, o.
Qed.

(** A kernel that interrupts every other call and takes one byte at a time. *)
Definition slow_kernel : answers := fun i _ => if Nat.even i then failed EINTR else ok 1.

Lemma write_all_terminates_witness :
  exists tr o, runs (write_all 4 (B "hello") 5) tr o /\ answered slow_kernel 0 tr.
Proof.
  apply (write_all_terminates 4 (B "hello") slow_kernel).
  - reflexivity.
  - intros i [|c chunk] Hne; [done|]. unfold slow_kernel, blen.
    destruct (Nat.even i); [left; reflexivity|right]. simpl rv. simpl length. lia.
  - intros i. exists (S (2 * i))%nat. split; [lia|]. intros chunk. unfold slow_kernel.
    replace (Nat.even (S (2 * i))) with false; [discriminate|].
    rewrite Nat.even_succ, <- Nat.negb_even, Nat.even_mul. reflexivity.
Defined.
