(* ===== verification/Guarded.v ===== *)
(** * Guarded: counters shared by forked children

    Three programs ([SharedMemory/mmap_file_lock_counter.c],
    [SharedMemory/process_shared_mutex.c],
    [Semaphores/sysv_binary_semaphore_guard.c]) have one shape: the parent forks
    some children, each of which repeats "acquire, increment a shared [int],
    release" and exits; the parent reaps them and prints the counter.  They
    differ in the lock.  This file states what the lock must promise, as the
    class [MutexGuard], and proves the shape correct for every such lock and
    every interleaving. *)

From S2P Require Import Prelude Posix Common.

(** [*p += inc], as the machine does it: a load, an addition, a store. *)
Definition increment {C} (ld : C) (st : Z -> C) (inc : Z) : prog C unit :=
  r <- sys ld ;;
  v <- int_add (rv r) inc ;;
  sys (st v) ;;;
  Ret tt.

(** The loop of a child. *)
Definition critical {C} (acq rel : prog C unit) (ld : C) (st : Z -> C) (inc : Z) : prog C unit :=
  acq ;;;
  increment ld st inc ;;;
  rel.

(** [if (fork() == 0) { child; _exit(0); }] *)
Definition fork_child {C} (child : prog C unit) : prog C unit :=
  r <- proc Fork ;;
  if rv r =? 0 then child ;;; Exit_ 0 else Ret tt.

(** ** What a lock promises

    [guards L h v s]: in kernel state [s], with process [i] alive iff
    [L !! i = Some true], process [h] is the holder and [v] is the value of
    the guarded cell.  [acq] and [rel] are the calls of the lock, [kacq] and
    [krel] what the C code does with their replies. *)
Class MutexGuard {C K : Type} `{Kernel C K}
    (acq rel ld : C) (st : Z -> C) (kacq krel : reply -> prog C unit)
    (guards : list bool -> option nat -> Z -> K -> Prop) : Prop := {
  guard_acquire : forall L v s i,
    guards L None v s -> L !! i = Some true ->
    exists r s', kexec i acq s = Done r s' /\ kacq r = Ret tt /\ guards L (Some i) v s';
  guard_blocks : forall L j v s i,
    guards L (Some j) v s -> L !! i = Some true -> i <> j -> kexec i acq s = Block;
  guard_release : forall L v s i,
    guards L (Some i) v s -> L !! i = Some true ->
    exists r s', kexec i rel s = Done r s' /\ krel r = Ret tt /\ guards L None v s';
  guard_load : forall L h v s i,
    guards L h v s -> L !! i = Some true ->
    exists r, kexec i ld s = Done r s /\ rv r = v;
  guard_store : forall L h v s i v',
    guards L h v s -> L !! i = Some true -> in_int v' = true ->
    exists r s', kexec i (st v') s = Done r s' /\ guards L h v' s';
  guard_fork : forall L h v s,
    guards L h v s -> L !! 0%nat = Some true ->
    guards (L ++ [true]) h v (kfork 0 (length L) s);
  guard_exit : forall L h v s i,
    guards L h v s -> L !! i = Some true -> h <> Some i ->
    guards (<[i := false]> L) h v (kexit i s);
}.

Section FanOut.
Context {C K : Type} `{HK : Kernel C K} (cf : config).
Context (acq rel ld : C) (st : Z -> C) (kacq krel : reply -> prog C unit).
Context (guards : list bool -> option nat -> Z -> K -> Prop).
Context `{HG : !MutexGuard acq rel ld st kacq krel guards}.
Context (inc : Z) (N M : nat) (fin : prog C Z) (o0 e0 : bytes).
Hypothesis Hinc : 0 <= inc.
Hypothesis Hbound : inc * Z.of_nat (N * M) <= INT_MAX.

Definition crit_body : Z -> prog C unit :=
  fun _ => critical (Sys acq kacq) (Sys rel krel) ld st inc.
Definition fork_body : Z -> prog C unit :=
  fun _ => fork_child (for_ M 0 crit_body).
Definition reap_fin : unit -> prog C Z := fun _ => reap_all_children ;;; fin.

(** The code of the parent from the fork loop on. *)
Definition fan_out : prog C Z := for_ N 0 fork_body ;;; reap_all_children ;;; fin.

(** A child's code sits inside the parent's remaining [m] forks. *)
Definition inchild (m : nat) (z : Z) (p : prog C unit) : prog C Z :=
  bind (bind (bind p (fun _ => Exit_ (A:=unit) 0)) (fun _ => for_ m z fork_body)) reap_fin.

(** Where a child is: [r] iterations remain after the current one, and
    [j] is the next value of the loop variable. *)
Inductive cpos : Type :=
| CLock (r : nat) (j : Z)
| CLoad (r : nat) (j : Z)
| CStore (r : nat) (j : Z) (v : Z)
| CUnlock (r : nat) (j : Z)
| CExit
| CDead
| CGone.

Definition cnext (r : nat) (j : Z) : cpos :=
  match r with O => CExit | S r' => CLock r' j end.

Record child := Child { c_m : nat; c_z : Z; c_pos : cpos }.

Definition code (m : nat) (z : Z) (c : cpos) : prog C Z :=
  match c with
  | CLock r j => inchild m z (for_ (S r) j crit_body)
  | CLoad r j =>
      inchild m z (bind (increment ld st inc ;;; Sys rel krel)
                        (fun _ => for_ r (j + 1) crit_body))
  | CStore r j v =>
      inchild m z (bind (bind (bind (int_add v inc) (fun v => sys (st v) ;;; Ret tt))
                              (fun _ => Sys rel krel))
                        (fun _ => for_ r (j + 1) crit_body))
  | CUnlock r j =>
      inchild m z (bind (Sys rel krel) (fun _ => for_ r (j + 1) crit_body))
  | _ => Exit_ 0
  end.

Definition child_proc (c : child) : process C :=
  match c_pos c with
  | CDead => Process (Zombie 0) (Some 0%nat) []
  | CGone => Process Reaped (Some 0%nat) []
  | p => Process (Live (code (c_m c) (c_z c) p)) (Some 0%nat) []
  end.

(** Where the parent is. *)
Inductive ppos : Type :=
| PFork (m : nat) (z : Z)
| PWait.

Definition parent_proc (p : ppos) : process C :=
  Process (Live match p with
                | PFork m z => bind (for_ m z fork_body) reap_fin
                | PWait => unroll reap_body tt (fun r => bind (Ret r) (fun _ => fin))
                end) None [].

Definition alive (c : child) : bool :=
  match c_pos c with CDead | CGone => false | _ => true end.
Definition in_crit (c : child) : bool :=
  match c_pos c with CLoad _ _ | CStore _ _ _ | CUnlock _ _ => true | _ => false end.
Definition completed (c : child) : nat :=
  match c_pos c with
  | CLock r _ | CLoad r _ | CStore r _ _ => M - S r
  | CUnlock r _ => M - r
  | _ => M
  end.
Definition wf_child (v : Z) (c : child) : Prop :=
  match c_pos c with
  | CLock r _ | CLoad r _ | CUnlock r _ => (r < M)%nat
  | CStore r _ v' => (r < M)%nat /\ v' = v
  | _ => True
  end.

Definition weight (c : child) : nat :=
  match c_pos c with
  | CLock r _ => 4 * r + 8
  | CLoad r _ => 4 * r + 7
  | CStore r _ _ => 4 * r + 6
  | CUnlock r _ => 4 * r + 5
  | CExit => 4
  | CDead => 3
  | CGone => 0
  end.
Definition pweight (p : ppos) : nat :=
  match p with PFork m _ => m * (4 * M + 6) + 2 | PWait => 1 end.
Definition pleft (p : ppos) : nat := match p with PFork m _ => m | PWait => 0 end.

Definition astate : Type := ppos * list child.
Definition mu (a : astate) : nat := (pweight a.1 + sumf weight a.2)%nat.

(** The value of the counter is [inc] times the number of completed
    increments; the holder of the lock is the one child in its critical
    section. *)
Record fan_inv (a : astate) (fi_h : option nat) (w : world C K) : Prop := FanInv {
  fi_procs : procs w = parent_proc a.1 :: (child_proc <$> a.2);
  fi_out : out w = o0;
  fi_err : errout w = e0;
  fi_len : (length a.2 + pleft a.1)%nat = N;
  fi_kern : guards (true :: (alive <$> a.2)) fi_h
              (inc * Z.of_nat (sumf completed a.2)) (kern w);
  fi_holder : forall k, fi_h = Some k -> exists c ch,
                k = S c /\ a.2 !! c = Some ch /\ in_crit ch = true;
  fi_crit : forall c ch, a.2 !! c = Some ch -> in_crit ch = true -> fi_h = Some (S c);
  fi_wf : Forall (wf_child (inc * Z.of_nat (sumf completed a.2))) a.2;
}.

Definition fan_R (a : astate) (w : world C K) : Prop := exists h, fan_inv a h w.

(** *** Facts about the table of processes *)

Lemma no_dead_reap (p : ppos) (cs : list child) :
  find_idx (fun q => child_of 0 q && is_zombie q) (parent_proc p :: (child_proc <$> cs)) = None ->
  existsb (fun q => child_of 0 q && is_live q) (parent_proc p :: (child_proc <$> cs)) = false ->
  Forall (fun c => c_pos c = CGone) cs.
Proof.
  intros Hz Hl. apply find_idx_None in Hz. apply Forall_cons in Hz as [_ Hz].
  simpl in Hl. rewrite Forall_fmap in Hz.
  apply Forall_forall. intros c Hc.
  eapply Forall_forall in Hz; [|exact Hc]. simpl in Hz.
  assert (Hc' : child_of 0 (child_proc c) && is_live (child_proc c) = false).
  { destruct (child_of 0 (child_proc c) && is_live (child_proc c)) eqn:E; [|done].
    rewrite <- Hl. symmetry. apply existsb_exists. exists (child_proc c). split; [|done].
    apply list_elem_of_In, list_elem_of_fmap. by exists c. }
  destruct c as [m z []]; simpl in *; done.
Qed.

Lemma dead_found (p : ppos) (cs : list child) j :
  find_idx (fun q => child_of 0 q && is_zombie q) (parent_proc p :: (child_proc <$> cs)) = Some j ->
  exists c ch, j = S c /\ cs !! c = Some ch /\ c_pos ch = CDead.
Proof.
  intros (q & Hq & Hf)%find_idx_Some. destruct j as [|c]; simplify_eq/=.
  rewrite list_lookup_fmap in Hq. apply fmap_Some in Hq as (ch & Hch & ->).
  exists c, ch. split; [done|]. split; [done|]. by destruct ch as [m z []].
Qed.

Lemma live_exists (p : ppos) (cs : list child) :
  existsb (fun q => child_of 0 q && is_live q) (parent_proc p :: (child_proc <$> cs)) = true ->
  exists c ch, cs !! c = Some ch /\ alive ch = true.
Proof.
  simpl. intros (q & Hin & Hq)%existsb_exists.
  apply list_elem_of_In, list_elem_of_fmap in Hin as (ch & -> & Hin).
  apply list_elem_of_lookup in Hin as (c & Hc). exists c, ch. split; [done|].
  destruct ch as [m z []]; simpl in *; done.
Qed.

(** *** One step of a child *)

Lemma wf_child_outside v v' ch : wf_child v ch -> in_crit ch = false -> wf_child v' ch.
Proof. destruct ch as [m z []]; simpl; done. Qed.

(** How the holder may change when child [c] moves from [ch] to [ch']. *)
Definition handover (h h' : option nat) (c : nat) (ch ch' : child) : Prop :=
  (h' = h /\ in_crit ch' = in_crit ch) \/
  (h = None /\ h' = Some (S c) /\ in_crit ch' = true) \/
  (h = Some (S c) /\ h' = None /\ in_crit ch' = false).

Lemma fan_update p (cs : list child) h w (c : nat) ch ch' h' s' :
  fan_inv (p, cs) h w -> cs !! c = Some ch ->
  guards (true :: (alive <$> <[c:=ch']> cs)) h'
    (inc * Z.of_nat (sumf completed (<[c:=ch']> cs))) s' ->
  handover h h' c ch ch' ->
  wf_child (inc * Z.of_nat (sumf completed (<[c:=ch']> cs))) ch' ->
  (completed ch' = completed ch \/ h = Some (S c)) ->
  fan_inv (p, <[c:=ch']> cs) h'
    (World (<[S c := child_proc ch']> (procs w)) s' (out w) (errout w)).
Proof.
  intros [Hp Ho He Hlen Hk Hholder Hcrit Hwf] Hc Hk' Hh Hwf' Hdone. simpl in *.
  assert (Hlt : (c < length cs)%nat) by (eapply lookup_lt_Some; eauto).
  assert (Hothers : forall k x, k <> c -> <[c:=ch']> cs !! k = Some x -> cs !! k = Some x).
  { intros k x Hne. by rewrite list_lookup_insert_ne. }
  split; simpl; try done.
  - rewrite Hp. simpl. by rewrite list_fmap_insert.
  - by rewrite length_insert.
  - intros k ->. destruct Hh as [[<- Hic]|[(_ & ? & Hic)|(_ & ? & _)]]; simplify_eq.
    + destruct (Hholder k eq_refl) as (k' & x & -> & Hx & Hcx).
      destruct (decide (k' = c)) as [->|Hne].
      * exists c, ch'. simplify_eq. rewrite list_lookup_insert_eq by done.
        split; [done|]. split; [done|]. congruence.
      * exists k', x. rewrite list_lookup_insert_ne by done. done.
    + exists c, ch'. by rewrite list_lookup_insert_eq.
  - intros k x Hx Hcx. destruct (decide (k = c)) as [->|Hne].
    + rewrite list_lookup_insert_eq in Hx by done. simplify_eq.
      destruct Hh as [[-> Hic]|[(_ & ? & _)|(_ & _ & Hic)]]; [|done|congruence].
      apply (Hcrit _ _ Hc). congruence.
    + apply Hothers in Hx; [|done]. specialize (Hcrit _ _ Hx Hcx).
      destruct Hh as [[-> _]|[(? & _)|(? & _)]]; simplify_eq; done.
  - apply Forall_lookup. intros k x Hx. destruct (decide (k = c)) as [->|Hne].
    + rewrite list_lookup_insert_eq in Hx by done. by simplify_eq.
    + apply Hothers in Hx; [|done]. pose proof (Forall_lookup_1 _ _ _ _ Hwf Hx) as Hwx.
      destruct Hdone as [Hsame|Hme].
      * pose proof (sumf_insert completed cs c ch ch' Hc) as Hs.
        replace (sumf completed (<[c:=ch']> cs)) with (sumf completed cs) by lia. done.
      * eapply wf_child_outside; [done|]. destruct (in_crit x) eqn:Hcx; [|done].
        specialize (Hcrit _ _ Hx Hcx). congruence.
Qed.

Lemma alive_same (cs : list child) (c : nat) ch ch' :
  cs !! c = Some ch -> alive ch' = alive ch -> alive <$> <[c:=ch']> cs = alive <$> cs.
Proof.
  intros Hc Ha. rewrite list_fmap_insert. apply list_insert_id.
  rewrite list_lookup_fmap, Hc. simpl. by rewrite Ha.
Qed.

Lemma completed_same (cs : list child) (c : nat) ch ch' :
  cs !! c = Some ch -> completed ch' = completed ch ->
  sumf completed (<[c:=ch']> cs) = sumf completed cs.
Proof. intros Hc Ha. pose proof (sumf_insert completed cs c ch ch' Hc). lia. Qed.

(** The increments still to come keep the counter inside [int]. *)
Lemma completed_lt (cs : list child) (c : nat) ch r j v :
  (length cs <= N)%nat -> cs !! c = Some ch -> c_pos ch = CStore r j v -> (r < M)%nat ->
  (S (sumf completed cs) <= N * M)%nat.
Proof.
  intros Hlen Hc Hpos Hr.
  pose proof (sumf_insert completed cs c ch (Child 0 0 CDead) Hc) as Hs.
  assert (Hle : (sumf completed (<[c:=Child 0 0 CDead]> cs) <= length cs * M)%nat).
  { rewrite <- (length_insert cs c (Child 0 0 CDead)). generalize (<[c:=Child 0 0 CDead]> cs).
    unfold sumf. induction l as [|x l IH]; simpl; [lia|].
    assert (completed x <= M)%nat by (destruct x as [? ? []]; unfold completed; simpl; lia). lia. }
  assert (Hch : completed ch = (M - S r)%nat) by (unfold completed; by rewrite Hpos).
  rewrite Hch in Hs. change (completed (Child 0 0 CDead)) with M in Hs.
  assert (length cs * M <= N * M)%nat by (apply Nat.mul_le_mono_r; lia). lia.
Qed.

(** Child [c] moves on, and has less left to do. *)
Definition child_goes p (cs : list child) w (c : nat) ch : Prop :=
  exists ch' h' w', run_step cf (S c) w = Some w' /\
    fan_inv (p, <[c:=ch']> cs) h' w' /\ (weight ch' < weight ch)%nat.

(** Its process, its place among the live ones and its right to the guard. *)
Lemma child_here p (cs : list child) h w c ch :
  fan_inv (p, cs) h w -> cs !! c = Some ch -> alive ch = true ->
  procs w !! S c = Some (child_proc ch) /\ (true :: (alive <$> cs)) !! S c = Some true /\
  wf_child (inc * Z.of_nat (sumf completed cs)) ch /\
  (if in_crit ch then h = Some (S c) else h <> Some (S c)).
Proof.
  intros [Hp Ho He Hlen Hk Hholder Hcrit Hwf] Hc Hal. split_and!.
  - rewrite Hp. simpl. by rewrite list_lookup_fmap, Hc.
  - simpl. by rewrite list_lookup_fmap, Hc; simpl; rewrite Hal.
  - exact (Forall_lookup_1 _ _ _ _ Hwf Hc).
  - destruct (in_crit ch) eqn:E; [by eapply Hcrit|]. intros ->.
    destruct (Hholder _ eq_refl) as (c' & x & ? & Hx & Hcx). simplify_eq/=. congruence.
Qed.

Lemma child_acquires p (cs : list child) w c m z r j :
  fan_inv (p, cs) None w -> cs !! c = Some (Child m z (CLock r j)) ->
  child_goes p cs w c (Child m z (CLock r j)).
Proof.
  intros Hinv Hc. destruct (child_here _ _ _ _ _ _ Hinv Hc eq_refl) as (HpS & HL & Hwc & _). cbn in Hwc.
  destruct (guard_acquire _ _ _ _ (fi_kern _ _ _ Hinv) HL) as (rp & s' & Hex & Hka & Hk').
  exists (Child m z (CLoad r j)), (Some (S c)). unfold run_step. rewrite HpS. cbn. rewrite Hex.
  eexists. split; [done|]. split; [|cbn; lia]. unfold resume, set_proc, set_kern. cbn. rewrite Hka.
  eapply (fan_update p cs None w c (Child m z (CLock r j)) (Child m z (CLoad r j))); try done.
  - erewrite alive_same, completed_same; done.
  - right; left. done.
  - by left.
Qed.

Lemma child_loads p (cs : list child) h w c m z r j :
  fan_inv (p, cs) h w -> cs !! c = Some (Child m z (CLoad r j)) ->
  child_goes p cs w c (Child m z (CLoad r j)).
Proof.
  intros Hinv Hc. destruct (child_here _ _ _ _ _ _ Hinv Hc eq_refl) as (HpS & HL & Hwc & ->). cbn in Hwc.
  destruct (guard_load _ _ _ _ _ (fi_kern _ _ _ Hinv) HL) as (rp & Hex & Hv).
  exists (Child m z (CStore r j (rv rp))), (Some (S c)). unfold run_step. rewrite HpS. cbn. rewrite Hex.
  eexists. split; [done|]. split; [|cbn; lia]. unfold resume, set_proc, set_kern. cbn.
  eapply (fan_update p cs _ w c (Child m z (CLoad r j)) (Child m z (CStore r j (rv rp)))); try done.
  - erewrite alive_same, completed_same; try done. apply Hinv.
  - by left.
  - erewrite completed_same by done. done.
  - by left.
Qed.

Lemma child_stores p (cs : list child) h w c m z r j v :
  fan_inv (p, cs) h w -> cs !! c = Some (Child m z (CStore r j v)) ->
  child_goes p cs w c (Child m z (CStore r j v)).
Proof.
  intros Hinv Hc. destruct (child_here _ _ _ _ _ _ Hinv Hc eq_refl) as (HpS & HL & [Hr ->] & ->).
  pose proof (fi_len _ _ _ Hinv) as Hlen. cbn in Hlen.
  pose proof (completed_lt cs c _ r j _ ltac:(lia) Hc eq_refl Hr) as Hlt.
  assert (Hint : in_int (inc * Z.of_nat (sumf completed cs) + inc) = true).
  { apply in_int_spec. unfold INT_MIN. split; [|nia].
    assert (0 <= inc * Z.of_nat (sumf completed cs)) by (apply Z.mul_nonneg_nonneg; lia). lia. }
  destruct (guard_store _ _ _ _ _ _ (fi_kern _ _ _ Hinv) HL Hint) as (rp & s' & Hex & Hk').
  exists (Child m z (CUnlock r j)), (Some (S c)). unfold run_step. rewrite HpS. cbn.
  unfold int_add. rewrite Hint. simpl. rewrite Hex. eexists. split; [done|].
  split; [|cbn; lia]. unfold resume, set_proc, set_kern. cbn.
  pose proof (sumf_insert completed cs c _ (Child m z (CUnlock r j)) Hc) as Hs. cbn in Hs.
  eapply (fan_update p cs _ w c (Child m z (CStore r j _)) (Child m z (CUnlock r j))); try done.
  - erewrite alive_same by done.
    replace (sumf completed (<[c:=Child m z (CUnlock r j)]> cs)) with (S (sumf completed cs)) by lia.
    replace (inc * Z.of_nat (S (sumf completed cs)))
      with (inc * Z.of_nat (sumf completed cs) + inc) by lia. done.
  - by left.
  - by right.
Qed.

Lemma child_releases p (cs : list child) h w c m z r j :
  fan_inv (p, cs) h w -> cs !! c = Some (Child m z (CUnlock r j)) ->
  child_goes p cs w c (Child m z (CUnlock r j)).
Proof.
  intros Hinv Hc. destruct (child_here _ _ _ _ _ _ Hinv Hc eq_refl) as (HpS & HL & Hwc & ->). cbn in Hwc.
  destruct (guard_release _ _ _ _ (fi_kern _ _ _ Hinv) HL) as (rp & s' & Hex & Hkr & Hk').
  exists (Child m z (cnext r (j + 1))), None. unfold run_step. rewrite HpS. cbn. rewrite Hex.
  eexists. split; [done|]. split; [|destruct r; cbn; lia].
  unfold resume, set_proc, set_kern. cbn. rewrite Hkr.
  pose proof (fan_update p cs (Some (S c)) w c (Child m z (CUnlock r j))
                (Child m z (cnext r (j + 1))) None s' Hinv Hc) as Hupd.
  destruct r as [|r]; apply Hupd; try (erewrite alive_same, completed_same by (done || (cbn; lia)); done).
  all: try (right; right; done); try (by left); try (by right); cbn; lia.
Qed.

Lemma child_leaves p (cs : list child) h w c m z :
  fan_inv (p, cs) h w -> cs !! c = Some (Child m z CExit) -> child_goes p cs w c (Child m z CExit).
Proof.
  intros Hinv Hc. destruct (child_here _ _ _ _ _ _ Hinv Hc eq_refl) as (HpS & HL & _ & Hnh).
  exists (Child m z CDead), h. unfold run_step. rewrite HpS. eexists. split; [done|].
  split; [|cbn; lia]. unfold terminate, set_proc, set_kern. cbn.
  eapply (fan_update p cs _ w c (Child m z CExit) (Child m z CDead)); try done.
  - erewrite completed_same by done.
    pose proof (guard_exit _ _ _ _ _ (fi_kern _ _ _ Hinv) HL Hnh) as Hk'. simpl in Hk'.
    by rewrite list_fmap_insert.
  - by left.
  - by left.
Qed.

(** The step a live child takes when the lock lets it. *)
Lemma child_step p (cs : list child) h w (c : nat) ch :
  fan_inv (p, cs) h w -> cs !! c = Some ch -> alive ch = true ->
  child_goes p cs w c ch \/ (run_step cf (S c) w = None /\ h <> None /\ h <> Some (S c)).
Proof.
  intros Hinv Hc Hal. destruct ch as [m z pos].
  destruct pos as [r j|r j|r j v|r j| | |]; try done.
  - destruct h as [k|]; [|left; by eapply child_acquires]. right.
    destruct (child_here _ _ _ _ _ _ Hinv Hc Hal) as (HpS & HL & _ & Hne). cbn in Hne.
    split; [|split; [done|done]]. unfold run_step. rewrite HpS. cbn.
    erewrite guard_blocks; [done|apply Hinv|done|congruence].
  - left. by eapply child_loads.
  - left. by eapply child_stores.
  - left. by eapply child_releases.
  - left. by eapply child_leaves.
Qed.

(** *** A child that is about to test its loop condition *)

Section Cnext.
Context (m : nat) (z : Z) (r : nat) (j : Z).
Abbreviation fresh_child := (Child m z (cnext r j)).

Lemma cnext_proc :
  child_proc fresh_child =
  Process (Live (inchild m z (for_ r j crit_body))) (Some 0%nat) [].
Proof. by destruct r. Qed.

Lemma cnext_alive : alive fresh_child = true.
Proof. by destruct r. Qed.

Lemma cnext_out : in_crit fresh_child = false.
Proof. by destruct r. Qed.

Lemma cnext_wf v : (r <= M)%nat -> wf_child v fresh_child.
Proof. destruct r; cbn; [done|lia]. Qed.

Lemma cnext_completed : (r <= M)%nat -> completed fresh_child = (M - r)%nat.
Proof. destruct r; cbn; lia. Qed.

Lemma cnext_weight : weight fresh_child = (4 * r + 4)%nat.
Proof. destruct r; cbn; lia. Qed.
End Cnext.

(** *** One step of the parent *)

Lemma parent_at p (cs : list child) h w :
  fan_inv (p, cs) h w -> procs w !! 0%nat = Some (parent_proc p).
Proof. intros Hinv. by rewrite (fi_procs _ _ _ Hinv). Qed.

Lemma child_at p (cs : list child) h w c :
  fan_inv (p, cs) h w -> procs w !! S c = child_proc <$> cs !! c.
Proof. intros Hinv. rewrite (fi_procs _ _ _ Hinv). simpl. apply list_lookup_fmap. Qed.

Lemma fork_step m z (cs : list child) h w :
  fan_inv (PFork (S m) z, cs) h w ->
  exists w', run_step cf 0 w = Some w' /\
    fan_inv (PFork m (z + 1), cs ++ [Child m (z + 1) (cnext M 0)]) h w'.
Proof.
  intros [Hp Ho He Hlen Hk Hholder Hcrit Hwf]. cbn in Hp, Hlen, Hk, Hholder, Hcrit, Hwf.
  set (ch := Child m (z + 1) (cnext M 0)).
  assert (Hdone : sumf completed (cs ++ [ch]) = sumf completed cs).
  { rewrite sumf_app. change (sumf completed [ch]) with (completed ch + 0)%nat.
    subst ch. rewrite cnext_completed by done. lia. }
  unfold run_step. rewrite Hp. eexists. split; [reflexivity|]. split; cbn; try done.
  - rewrite Hp, fmap_app. cbn. f_equal. f_equal. subst ch. by rewrite cnext_proc.
  - rewrite length_app. cbn. lia.
  - rewrite Hdone, fmap_app. cbn.
    replace (alive ch) with true by (subst ch; by rewrite cnext_alive).
    rewrite Hp. cbn. rewrite length_fmap.
    pose proof (guard_fork _ _ _ _ Hk eq_refl) as Hk'. cbn in Hk'.
    by rewrite length_fmap in Hk'.
  - intros k Hhk. destruct (Hholder k Hhk) as (c & x & -> & Hx & Hcx).
    exists c, x. split; [done|]. split; [|done]. by apply lookup_app_l_Some.
  - intros c x [Hx|[_ Hx]]%lookup_app_Some Hcx; [by eapply Hcrit|].
    apply list_lookup_singleton_Some in Hx as [_ <-]. subst ch. by rewrite cnext_out in Hcx.
  - rewrite Hdone. apply Forall_app. split; [done|]. constructor; [|done].
    by apply cnext_wf.
Qed.

Lemma fan_wait_step z (cs : list child) h w :
  fan_inv (PFork 0 z, cs) h w ->
  exists w', run_step cf 0 w = Some w' /\ fan_inv (PWait, cs) h w'.
Proof.
  intros [Hp Ho He Hlen Hk Hholder Hcrit Hwf]. unfold run_step. rewrite Hp.
  eexists. split; [reflexivity|]. split; cbn; try done. by rewrite Hp.
Qed.

Lemma reap_step (cs : list child) h w c ch :
  fan_inv (PWait, cs) h w -> cs !! c = Some ch -> c_pos ch = CDead ->
  find_idx (fun q => child_of 0 q && is_zombie q) (procs w) = Some (S c) ->
  exists w', run_step cf 0 w = Some w' /\
    fan_inv (PFork 0 0, <[c := Child (c_m ch) (c_z ch) CGone]> cs) h w'.
Proof.
  intros Hinv Hc Hpos Hf. pose proof Hinv as [Hp Ho He Hlen Hk Hholder Hcrit Hwf].
  cbn in Hp, Hlen, Hk. destruct ch as [m z pos]. cbn in Hpos. subst pos.
  set (ch' := Child m z CGone).
  assert (Hupd : fan_inv (PWait, <[c:=ch']> cs) h
                   (World (<[S c := child_proc ch']> (procs w)) (kern w) (out w) (errout w))).
  { eapply (fan_update PWait cs h w c _ ch'); try done; try by left.
    by erewrite alive_same, completed_same. }
  destruct Hupd as [Hp' Ho' He' Hlen' Hk' Hholder' Hcrit' Hwf'].
  unfold run_step. rewrite (parent_at _ _ _ _ Hinv). eexists. split.
  { cbn -[find_idx existsb]. rewrite Hf. reflexivity. }
  split; cbn; try done.
  cbn in Hp'. by rewrite Hp'.
Qed.

(** The reaping loop ends when no child is left. *)
Definition all_gone (w : world C K) : Prop :=
  find_idx (fun q => child_of 0 q && is_zombie q) (procs w) = None /\
  existsb (fun q => child_of 0 q && is_live q) (procs w) = false.

Lemma reaped_step (cs : list child) h w :
  fan_inv (PWait, cs) h w -> all_gone w ->
  exists s, run_step cf 0 w =
      Some (World (Process (Live fin) None [] ::
                   replicate N (Process Reaped (Some 0%nat) [])) s o0 e0) /\
    guards (true :: replicate N false) None (inc * Z.of_nat (N * M)) s.
Proof.
  intros Hinv [Hf Hl].
  assert (Hgone : Forall (fun c => c_pos c = CGone) cs).
  { rewrite (fi_procs _ _ _ Hinv) in Hf, Hl. by eapply no_dead_reap. }
  pose proof (fi_len _ _ _ Hinv) as Hlen. cbn in Hlen. rewrite Nat.add_0_r in Hlen.
  assert (Hgo : forall A (f : child -> A) x, (forall m z, f (Child m z CGone) = x) ->
            f <$> cs = replicate N x).
  { intros A f x Hx. rewrite <- Hlen. apply fmap_const. eapply Forall_impl; [exact Hgone|].
    intros [m z ?] E. cbn in E. by subst. }
  exists (kern w). split.
  - unfold run_step. rewrite (parent_at _ _ _ _ Hinv). cbn -[find_idx existsb].
    rewrite Hf, Hl. unfold resume, set_proc. cbn.
    rewrite (fi_procs _ _ _ Hinv), (fi_out _ _ _ Hinv), (fi_err _ _ _ Hinv). cbn.
    by rewrite (Hgo _ child_proc (Process Reaped (Some 0%nat) [])) by done.
  - pose proof (fi_kern _ _ _ Hinv) as Hk. cbn in Hk.
    rewrite (Hgo _ alive false) in Hk by done.
    rewrite (sumf_const completed cs M), Hlen in Hk.
    2: { eapply Forall_impl; [exact Hgone|]. intros [? ? ?] Hx. cbn in Hx. by subst. }
    destruct h as [k|]; [|done].
    destruct (fi_holder _ _ _ Hinv k eq_refl) as (c & x & _ & Hx & Hcx).
    eapply Forall_lookup in Hgone; [|exact Hx].
    destruct x as [? ? ?]. cbn in Hgone. by subst.
Qed.

(** What the parent does when it is waiting. *)
Lemma waiting_cases (cs : list child) h w :
  fan_inv (PWait, cs) h w ->
  (exists c ch w', cs !! c = Some ch /\ c_pos ch = CDead /\ run_step cf 0 w = Some w' /\
     fan_inv (PFork 0 0, <[c := Child (c_m ch) (c_z ch) CGone]> cs) h w') \/
  all_gone w \/
  (run_step cf 0 w = None /\ exists c ch, cs !! c = Some ch /\ alive ch = true).
Proof.
  intros Hinv. unfold all_gone.
  destruct (find_idx _ (procs w)) as [j|] eqn:Hf.
  - left. pose proof Hf as Hf'. rewrite (fi_procs _ _ _ Hinv) in Hf'.
    destruct (dead_found _ _ _ Hf') as (c & ch & -> & Hc & Hd).
    destruct (reap_step _ _ _ _ _ Hinv Hc Hd Hf) as (w' & Hs' & Hi'). by exists c, ch, w'.
  - destruct (existsb _ (procs w)) eqn:Hl; [|auto]. right; right. split.
    + unfold run_step. rewrite (parent_at _ _ _ _ Hinv). cbn -[find_idx existsb].
      by rewrite Hf, Hl.
    + rewrite (fi_procs _ _ _ Hinv) in Hl. by eapply live_exists.
Qed.

(** *** No deadlock *)

Lemma fan_progress a w : fan_R a w -> red (step cf) w.
Proof.
  destruct a as [p cs]. intros [h Hinv]. destruct p as [[|m] z|].
  - destruct (fan_wait_step _ _ _ _ Hinv) as (w' & Hs' & _). by exists w', 0%nat.
  - destruct (fork_step _ _ _ _ _ Hinv) as (w' & Hs' & _). by exists w', 0%nat.
  - destruct (waiting_cases _ _ _ Hinv) as [(c & ch & w' & _ & _ & Hs & _)|[Hg|(_ & c & ch & Hc & Hal)]].
    + by exists w', 0%nat.
    + destruct (reaped_step _ _ _ Hinv Hg) as (s & Hs & _). by eexists _, 0%nat.
    + assert (exists c' ch', cs !! c' = Some ch' /\ alive ch' = true /\
                (h = None \/ h = Some (S c'))) as (c' & ch' & Hc' & Hal' & Hh).
      { destruct h as [k|]; [|by exists c, ch; auto].
        destruct (fi_holder _ _ _ Hinv k eq_refl) as (c' & ch' & -> & Hc' & Hcr).
        exists c', ch'. split; [done|]. split; [|auto]. by destruct ch' as [? ? []]. }
      destruct (child_step _ _ _ _ _ _ Hinv Hc' Hal') as [(x & y & w' & Hs' & _)|(_ & ? & ?)].
      * by exists w', (S c').
      * destruct Hh; congruence.
Qed.

(** *** Every step makes progress *)

Lemma child_moves p (cs : list child) h w c w' :
  fan_inv (p, cs) h w -> run_step cf (S c) w = Some w' ->
  exists a', fan_R a' w' /\ (mu a' < mu (p, cs))%nat.
Proof.
  intros Hinv Hstep. pose proof Hstep as Hrun. unfold run_step in Hrun.
  rewrite (child_at _ _ _ _ _ Hinv) in Hrun.
  destruct (cs !! c) as [ch|] eqn:Hc; [|done]. cbn in Hrun.
  assert (Hal : alive ch = true) by (by destruct ch as [? ? []]).
  destruct (child_step _ _ _ _ _ _ Hinv Hc Hal) as [(ch' & h' & w1 & Hs' & Hinv' & Hw)|(? & _)];
    [|congruence].
  simplify_eq. exists (p, <[c:=ch']> cs). split; [by exists h'|].
  unfold mu. cbn. pose proof (sumf_insert weight cs c ch ch' Hc). lia.
Qed.

Lemma parent_moves p (cs : list child) h w w' :
  fan_inv (p, cs) h w -> run_step cf 0 w = Some w' ->
  (exists a', fan_R a' w' /\ (mu a' < mu (p, cs))%nat) \/ (p = PWait /\ all_gone w).
Proof.
  intros Hinv Hstep. destruct p as [[|m] z|].
  - destruct (fan_wait_step _ _ _ _ Hinv) as (w1 & Hs' & Hinv'). simplify_eq. left.
    exists (PWait, cs). split; [by exists h|]. unfold mu. cbn. lia.
  - destruct (fork_step _ _ _ _ _ Hinv) as (w1 & Hs' & Hinv'). simplify_eq. left.
    eexists. split; [by exists h|]. unfold mu. cbn. rewrite sumf_app.
    change (sumf weight [Child m (z + 1) (cnext M 0)]) with
      (weight (Child m (z + 1) (cnext M 0)) + 0)%nat.
    rewrite cnext_weight. lia.
  - destruct (waiting_cases _ _ _ Hinv) as [(c & ch & w1 & Hc & Hd & Hs & Hi)|[Hg|(Hs & _)]];
      [|by right|congruence].
    simplify_eq. left. eexists. split; [by exists h|]. unfold mu. cbn.
    pose proof (sumf_insert weight cs c ch (Child (c_m ch) (c_z ch) CGone) Hc) as Hw.
    assert (weight ch = 3%nat) as E by (unfold weight; by rewrite Hd).
    rewrite E in Hw. cbn in Hw. lia.
Qed.

(** *** The result *)

(** When the children are gone the parent runs [fin] alone, and the counter
    holds every increment. *)
Lemma fan_out_total (Q : world C K -> Prop) :
  (forall s, guards (true :: replicate N false) None (inc * Z.of_nat (N * M)) s ->
     total cf (World (Process (Live fin) None [] ::
                      replicate N (Process Reaped (Some 0%nat) [])) s o0 e0) Q) ->
  forall s, guards [true] None 0 s ->
  total cf (World [Process (Live fan_out) None []] s o0 e0) Q.
Proof.
  intros Hfin s Hs.
  eapply (total_sim cf fan_R mu Q) with (a := (PFork N 0, [])).
  - apply fan_progress.
  - intros [p cs] w [|c] w' [h Hinv] Hstep; [|left; by eapply child_moves].
    destruct (parent_moves _ _ _ _ _ Hinv Hstep) as [?|[-> Hg]]; [by left|right].
    destruct (reaped_step _ _ _ Hinv Hg) as (s' & Hs' & Hg'). simplify_eq. by apply Hfin.
  - exists None. split; cbn; try done. by rewrite Z.mul_0_r.
Qed.

(** Mutual exclusion, in every state the children can be interleaved to. *)
Lemma fan_inv_exclusive p (cs : list child) h w c1 c2 ch1 ch2 :
  fan_inv (p, cs) h w -> cs !! c1 = Some ch1 -> cs !! c2 = Some ch2 ->
  in_crit ch1 = true -> in_crit ch2 = true -> c1 = c2.
Proof.
  intros Hinv H1 H2 Hc1 Hc2.
  pose proof (fi_crit _ _ _ Hinv _ _ H1 Hc1). pose proof (fi_crit _ _ _ Hinv _ _ H2 Hc2).
  congruence.
Qed.
End FanOut.
