(* ===== verification/Fan.v ===== *)
(** * Fan: a parent that forks children and reaps them

    The shape "[for (i = i0; i < i0 + N; i++) if (fork() == 0) { body(i); _exit(0); }
    middle(); reap_all_children(); ...]" for children and a parent that run
    any code.  A client says where a child can be (the type [X]), where the
    parent can be in [middle] (the type [Y]), what they have left to run
    there, and which invariant [Inv] relates them, the kernel and the output;
    the obligations are about one step of one process at a time.  The section
    then accounts for forking, exiting, reaping and every interleaving. *)

From S2P Require Import Prelude Posix Common Guarded.

#[local] Arguments imap : simpl never.

Section Fan.
Context {C K : Type} `{HK : Kernel C K} (cf : config).
Context (N : nat) (i0 : Z) (body : Z -> prog C unit) (middle : prog C unit) (fin : prog C Z) (e0 : bytes).

Definition spawn_body : Z -> prog C unit := fun i => fork_child (body i).
Definition spawn_fin : unit -> prog C Z := fun _ => middle ;;; reap_all_children ;;; fin.
Definition spawn : prog C Z := for_ N i0 spawn_body ;;; middle ;;; reap_all_children ;;; fin.

(** What child [c] runs when [q] is left of its body. *)
Definition inkid (c : nat) (q : prog C unit) : prog C Z :=
  bind (bind (bind q (fun _ => Exit_ (A:=unit) 0))
             (fun _ => for_ (N - S c) (i0 + Z.of_nat c + 1) spawn_body)) spawn_fin.

(** One step of process [c], apart from its exit: what is left, its buffer,
    the kernel and the output; [None] when it blocks or makes another call. *)
Definition code_step {A} (c : nat) (q : prog C A) (ob : bytes) (s : K) (o : bytes)
    : option (prog C A * bytes * K * bytes) :=
  match q with
  | Sys a k =>
      match kexec c a s with
      | Done r s' => Some (k r, ob, s', o)
      | _ => None
      end
  | Proc (Println t) k =>
      let '(fl, rest) := stdio_line cf ob t in Some (k (ok (printed t + 1)), rest, s, o ++ fl)
  | Proc Fflush k => Some (k (ok 0), [], s, o ++ ob)
  | Proc Getpid k => Some (k (ok (pid_of cf c)), ob, s, o)
  | Loop b x k => Some (unroll b x k, ob, s, o)
  | _ => None
  end.

(** Does [q] only make calls that [code_step] describes? *)
Definition plain {A} (c : nat) (q : prog C A) (s : K) : Prop :=
  match q with
  | Sys a _ => kexec c a s <> Fault
  | Proc (Println _) _ | Proc Fflush _ | Proc Getpid _ | Loop _ _ _ | Ret _ => True
  | _ => False
  end.

Context {X : Type} (code : nat -> X -> prog C unit) (obuf : nat -> X -> bytes) (start : X).
Context {Y : Type} (pcode : Y -> prog C unit) (pbuf : Y -> bytes) (pstart : Y).

Inductive kid : Type :=
| KRun (x : X)
| KDead
| KGone.

(** What the parent is doing. *)
Inductive phase : Type :=
| Forking
| Middle (y : Y)
| Waiting (buffer : bytes).

Context (Inv : phase -> list kid -> K -> bytes -> Prop) (mu : phase -> list kid -> K -> nat).

Hypothesis H_start : forall c, code c start = body (i0 + Z.of_nat c) /\ obuf c start = [].
Hypothesis H_pstart : pcode pstart = middle /\ pbuf pstart = [].
Hypothesis H_fork : forall ks s o,
  Inv Forking ks s o -> (length ks < N)%nat ->
  let ks' := ks ++ [KRun start] in
  let s' := kfork 0 (S (length ks)) s in
  Inv Forking ks' s' o /\ (mu Forking ks' s' < mu Forking ks s)%nat.
Hypothesis H_begin : forall ks s o, Inv Forking ks s o -> length ks = N ->
  Inv (Middle pstart) ks s o /\ (mu (Middle pstart) ks s <= mu Forking ks s)%nat.
Hypothesis H_simple : forall ph ks s o c x,
  Inv ph ks s o -> ks !! c = Some (KRun x) -> plain (S c) (code c x) s.
Hypothesis H_psimple : forall y ks s o, Inv (Middle y) ks s o -> length ks = N -> plain 0 (pcode y) s.
Hypothesis H_move : forall ph ks s o c x q' ob' s' o',
  Inv ph ks s o -> ks !! c = Some (KRun x) ->
  code_step (S c) (code c x) (obuf c x) s o = Some (q', ob', s', o') ->
  exists x', code c x' = q' /\ obuf c x' = ob' /\ Inv ph (<[c := KRun x']> ks) s' o' /\
             (mu ph (<[c := KRun x']> ks) s' < mu ph ks s)%nat.
Hypothesis H_pmove : forall y ks s o q' ob' s' o',
  Inv (Middle y) ks s o -> length ks = N ->
  code_step 0 (pcode y) (pbuf y) s o = Some (q', ob', s', o') ->
  exists y', pcode y' = q' /\ pbuf y' = ob' /\ Inv (Middle y') ks s' o' /\
             (mu (Middle y') ks s' < mu (Middle y) ks s)%nat.
Hypothesis H_pdone : forall y ks s o a,
  Inv (Middle y) ks s o -> pcode y = Ret a ->
  Inv (Waiting (pbuf y)) ks s o /\ (mu (Waiting (pbuf y)) ks s <= mu (Middle y) ks s)%nat.
Hypothesis H_exit : forall ph ks s o c x a,
  Inv ph ks s o -> ks !! c = Some (KRun x) -> code c x = Ret a ->
  Inv ph (<[c := KDead]> ks) (kexit (S c) s) o /\
  (mu ph (<[c := KDead]> ks) (kexit (S c) s) < mu ph ks s)%nat.
Hypothesis H_reap : forall b ks s o c,
  Inv (Waiting b) ks s o -> ks !! c = Some KDead ->
  Inv (Waiting b) (<[c := KGone]> ks) s o /\
  (mu (Waiting b) (<[c := KGone]> ks) s < mu (Waiting b) ks s)%nat.
Hypothesis H_progress : forall ph ks s o,
  Inv ph ks s o -> length ks = N ->
  match ph with
  | Forking => False
  | Middle y => code_step 0 (pcode y) (pbuf y) s o = None /\ (forall a, pcode y <> Ret a)
  | Waiting _ => exists c x, ks !! c = Some (KRun x)
  end ->
  exists c x, ks !! c = Some (KRun x) /\
    ((exists a, code c x = Ret a) \/ is_Some (code_step (S c) (code c x) (obuf c x) s o)).

(** ** States *)

Definition kid_proc (c : nat) (k : kid) : process C :=
  match k with
  | KRun x => Process (Live (inkid c (code c x))) (Some 0%nat) (obuf c x)
  | KDead => Process (Zombie 0) (Some 0%nat) []
  | KGone => Process Reaped (Some 0%nat) []
  end.

(** The parent has [S m] forks to make, is in the middle, is about to enter
    the loop of [reap_all_children], or waits in it. *)
Inductive parent : Type :=
| AtFork (m : nat)
| AtMiddle (y : Y)
| AtLoop (b : bytes)
| AtWait (b : bytes).

Definition rest_of (q : prog C unit) : prog C Z := bind q (fun _ => reap_all_children ;;; fin).
Definition parent_proc (p : parent) : process C :=
  match p with
  | AtFork m => Process (Live (bind (for_ (S m) (i0 + Z.of_nat (N - S m)) spawn_body) spawn_fin)) None []
  | AtMiddle y => Process (Live (rest_of (pcode y))) None (pbuf y)
  | AtLoop b => Process (Live (rest_of (Ret tt))) None b
  | AtWait b => Process (Live (unroll reap_body tt (fun r => bind (Ret r) (fun _ => fin)))) None b
  end.

Definition phase_of (p : parent) : phase :=
  match p with
  | AtFork _ => Forking
  | AtMiddle y => Middle y
  | AtLoop b | AtWait b => Waiting b
  end.

(** While [S m] forks remain, [N - S m] children exist. *)
Definition counts (p : parent) (ks : list kid) : Prop :=
  match p with AtFork m => (length ks + S m = N)%nat | _ => length ks = N end.

Record fan_state (p : parent) (ks : list kid) (w : world C K) : Prop := {
  fs_procs : procs w = parent_proc p :: imap kid_proc ks;
  fs_err : errout w = e0;
  fs_len : counts p ks;
  fs_inv : Inv (phase_of p) ks (kern w) (out w);
}.

Definition early (p : parent) : nat := match p with AtMiddle _ | AtLoop _ => 1 | _ => 0 end.
Definition fan_rel (a : parent * list kid * K) (w : world C K) : Prop :=
  a.2 = kern w /\ fan_state a.1.1 a.1.2 w.
Definition fan_mu (a : parent * list kid * K) : nat :=
  (2 * mu (phase_of a.1.1) a.1.2 a.2 + early a.1.1)%nat.

Lemma fan_kid p ks w c :
  fan_state p ks w -> procs w !! S c = kid_proc c <$> ks !! c.
Proof.
  intros Hf. rewrite (fs_procs _ _ _ Hf).
  change (imap kid_proc ks !! c = kid_proc c <$> ks !! c). by rewrite list_lookup_imap.
Qed.

Lemma fan_parent p ks w : fan_state p ks w -> procs w !! 0%nat = Some (parent_proc p).
Proof. intros Hf. by rewrite (fs_procs _ _ _ Hf). Qed.

Lemma imap_insert {A B} (f : nat -> A -> B) l c a :
  imap f (<[c := a]> l) = <[c := f c a]> (imap f l).
Proof.
  apply list_eq. intros n. rewrite list_lookup_imap.
  destruct (decide (c = n)) as [<-|Hne].
  - destruct (decide (c < length l)%nat).
    + by rewrite !list_lookup_insert_eq by (rewrite ?length_imap; done).
    + by rewrite !list_insert_ge, list_lookup_imap by (rewrite ?length_imap; lia).
  - by rewrite !list_lookup_insert_ne, list_lookup_imap by done.
Qed.

(** Replacing a child. *)
Lemma fan_set p ks w c k k' s' o' :
  fan_state p ks w -> ks !! c = Some k -> Inv (phase_of p) (<[c := k']> ks) s' o' ->
  fan_state p (<[c := k']> ks)
    (World (<[S c := kid_proc c k']> (procs w)) s' o' (errout w)).
Proof.
  intros [Hp He Hl Hi] Hc HI. split; cbn; try done.
  - rewrite Hp. change (parent_proc p :: <[c := kid_proc c k']> (imap kid_proc ks) =
                        parent_proc p :: imap kid_proc (<[c := k']> ks)).
    by rewrite imap_insert.
  - destruct p; cbn in *; by rewrite length_insert.
Qed.

(** ** Steps of the code *)

Lemma code_step_bind {A A'} i (q : prog C A) (f : A -> prog C A') ob s o q' ob' s' o' :
  code_step i q ob s o = Some (q', ob', s', o') ->
  code_step i (bind q f) ob s o = Some (bind q' f, ob', s', o').
Proof.
  intros Hs. destruct q as [a|c k|a k|n|n| |S R b y k]; cbn in *; try done.
  - destruct c; try done; [by simplify_eq| |by simplify_eq].
    destruct (stdio_line cf ob text). by simplify_eq.
  - destruct (kexec i a s); by simplify_eq.
  - simplify_eq. by rewrite unroll_bind.
Qed.

(** [code_step] is a step of the machine. *)
Lemma code_step_run i w par ob (q : prog C Z) q' ob' s' o' :
  procs w !! i = Some (Process (Live q) par ob) ->
  code_step i q ob (kern w) (out w) = Some (q', ob', s', o') ->
  run_step cf i w = Some (World (<[i := Process (Live q') par ob']> (procs w)) s' o' (errout w)).
Proof.
  intros Hp Hs. unfold run_step. rewrite Hp. cbn.
  destruct q as [a|c k|a k|n|n| |S R b y k]; cbn in Hs |- *; try done.
  - destruct c; try done; cbn in Hs |- *; [by simplify_eq| |by simplify_eq].
    destruct (stdio_line cf ob text). by simplify_eq.
  - destruct (kexec i a (kern w)); by simplify_eq.
  - by simplify_eq.
Qed.

(** Code that has not ended and takes no step is blocked. *)
Lemma plain_blocked {A} i (q : prog C A) (f : A -> prog C Z) w par ob :
  plain i q (kern w) -> (forall a, q <> Ret a) ->
  code_step i q ob (kern w) (out w) = None ->
  procs w !! i = Some (Process (Live (bind q f)) par ob) -> run_step cf i w = None.
Proof.
  intros Hpl Hr Hs Hp. unfold run_step. rewrite Hp. cbn.
  destruct q as [a|c k|a k|n|n| |S R b y k]; cbn in Hpl, Hs |- *; try done.
  - by destruct (Hr a).
  - destruct c; try done. by destruct (stdio_line cf ob text).
  - by destruct (kexec i a (kern w)).
Qed.

(** ** Steps of a child *)

Lemma kid_run p ks w c x q' ob' s' o' :
  fan_state p ks w -> ks !! c = Some (KRun x) ->
  code_step (S c) (code c x) (obuf c x) (kern w) (out w) = Some (q', ob', s', o') ->
  run_step cf (S c) w =
  Some (World (<[S c := Process (Live (inkid c q')) (Some 0%nat) ob']> (procs w)) s' o' (errout w)).
Proof.
  intros Hf Hc Hs. eapply code_step_run.
  - by rewrite (fan_kid _ _ _ _ Hf), Hc.
  - by do 3 apply code_step_bind.
Qed.

Lemma kid_blocked p ks w c x :
  fan_state p ks w -> ks !! c = Some (KRun x) -> (forall a, code c x <> Ret a) ->
  code_step (S c) (code c x) (obuf c x) (kern w) (out w) = None -> run_step cf (S c) w = None.
Proof.
  intros Hf Hc Hr Hs. eapply plain_blocked; [|exact Hr|exact Hs|].
  - by eapply H_simple; [apply (fs_inv _ _ _ Hf)|].
  - rewrite (fan_kid _ _ _ _ Hf), Hc. cbn. unfold inkid. by rewrite !bind_assoc.
Qed.

Lemma ret_dec {A} (q : prog C A) : {a | q = Ret a} + {forall a, q <> Ret a}.
Proof. destruct q; [left; by eexists|right; done..]. Qed.

(** A child that can run does so, or exits; it never crashes. *)
Lemma kid_moves p ks w c w' :
  fan_state p ks w -> run_step cf (S c) w = Some w' ->
  exists ks', fan_state p ks' w' /\ (mu (phase_of p) ks' (kern w') < mu (phase_of p) ks (kern w))%nat.
Proof.
  intros Hf Hrun. pose proof (fs_inv _ _ _ Hf) as HI.
  destruct (ks !! c) as [k|] eqn:Hc.
  2: { unfold run_step in Hrun. by rewrite (fan_kid _ _ _ _ Hf), Hc in Hrun. }
  destruct k as [x| |];
    [|by unfold run_step in Hrun; rewrite (fan_kid _ _ _ _ Hf), Hc in Hrun..].
  destruct (ret_dec (code c x)) as [[a Ha]|Hr].
  - unfold run_step in Hrun. rewrite (fan_kid _ _ _ _ Hf), Hc in Hrun. cbn in Hrun.
    rewrite Ha in Hrun. cbn in Hrun. injection Hrun as <-. exists (<[c := KDead]> ks).
    destruct (H_exit _ _ _ _ _ _ _ HI Hc Ha) as [HI' Hmu].
    split; [|exact Hmu]. by apply (fan_set _ _ _ _ _ KDead _ _ Hf Hc).
  - destruct (code_step (S c) (code c x) (obuf c x) (kern w) (out w)) as [[[[q' ob'] s'] o']|] eqn:Hs.
    2: { by rewrite (kid_blocked _ _ _ _ _ Hf Hc Hr Hs) in Hrun. }
    rewrite (kid_run _ _ _ _ _ _ _ _ _ Hf Hc Hs) in Hrun. injection Hrun as <-.
    destruct (H_move _ _ _ _ _ _ _ _ _ _ HI Hc Hs) as (x' & <- & <- & HI' & Hmu).
    exists (<[c := KRun x']> ks). split; [|exact Hmu].
    by apply (fan_set _ _ _ _ _ (KRun x') _ _ Hf Hc).
Qed.

(** ** Steps of the parent *)

Lemma imap_snoc {A B} (f : nat -> A -> B) l a :
  imap f (l ++ [a]) = imap f l ++ [f (length l) a].
Proof. rewrite imap_app. f_equal. unfold imap. cbn. by rewrite Nat.add_0_r. Qed.

(** Where the parent is after the fork with [m] forks left. *)
Definition after_fork (m : nat) : parent := match m with O => AtMiddle pstart | S m' => AtFork m' end.

Lemma spawn_step m ks w :
  fan_state (AtFork m) ks w ->
  exists w', run_step cf 0 w = Some w' /\ fan_state (after_fork m) (ks ++ [KRun start]) w' /\
    (mu (phase_of (after_fork m)) (ks ++ [KRun start]) (kern w') < mu Forking ks (kern w))%nat.
Proof.
  intros Hf. pose proof Hf as [Hp He Hl HI]. cbn in Hl.
  unfold run_step. rewrite (fan_parent _ _ _ Hf). eexists. split; [reflexivity|].
  destruct (H_start (length ks)) as [Hc Hob]. destruct H_pstart as [Hpc Hpb].
  assert (Hlp : length (procs w) = S (length ks)) by (rewrite Hp; cbn; by rewrite length_imap).
  destruct (H_fork _ _ _ HI ltac:(lia)) as [HI' Hmu].
  assert (Hlk : length (ks ++ [KRun start]) = S (length ks)) by (rewrite length_app; cbn; lia).
  assert (Hpp : parent_proc (after_fork m) =
    Process (Live (bind (for_ m (i0 + Z.of_nat (N - S m) + 1) spawn_body) spawn_fin)) None []).
  { destruct m as [|m']; [unfold after_fork, parent_proc, rest_of; by rewrite Hpc, Hpb|].
    unfold after_fork, parent_proc.
    by replace (i0 + Z.of_nat (N - S m')) with (i0 + Z.of_nat (N - S (S m')) + 1) by lia. }
  cbn in Hmu, HI'. rewrite <- Hlp in Hmu, HI'.
  split; [split; cbn|].
  - rewrite Hp, imap_snoc, Hpp. transitivity
      (Process (Live (bind (for_ m (i0 + Z.of_nat (N - S m) + 1) spawn_body) spawn_fin)) None [] ::
       imap kid_proc ks ++
       [Process (Live (bind (bind (bind (body (i0 + Z.of_nat (N - S m))) (fun _ => Exit_ (A:=unit) 0))
                                  (fun _ => for_ m (i0 + Z.of_nat (N - S m) + 1) spawn_body)) spawn_fin))
                (Some 0%nat) []]); [reflexivity|].
    unfold kid_proc, inkid. rewrite Hc, Hob. replace (N - S m)%nat with (length ks) by lia.
    by replace (N - S (length ks))%nat with m by lia.
  - done.
  - destruct m; cbn; lia.
  - destruct m; [|done]. by apply H_begin; [|lia].
  - cbn. destruct m; [|done]. cbn. destruct (H_begin _ _ _ HI' ltac:(lia)). lia.
Qed.

(** The middle: a step of its code, or into the loop of
    [reap_all_children]. *)
Lemma middle_steps y ks w q' ob' s' o' :
  fan_state (AtMiddle y) ks w ->
  code_step 0 (pcode y) (pbuf y) (kern w) (out w) = Some (q', ob', s', o') ->
  exists y' w', run_step cf 0 w = Some w' /\ fan_state (AtMiddle y') ks w' /\
    (mu (Middle y') ks (kern w') < mu (Middle y) ks (kern w))%nat.
Proof.
  intros Hf Hs. pose proof Hf as [Hp He Hl HI]. cbn in Hl, HI.
  destruct (H_pmove _ _ _ _ _ _ _ _ HI Hl Hs) as (y' & Hq & Hb & HI' & Hmu).
  eexists y', _. split.
  { eapply code_step_run; [apply (fan_parent _ _ _ Hf)|]. unfold rest_of. by apply code_step_bind. }
  split; [|exact Hmu]. split; [|done..]. cbn. rewrite Hp. cbn. by rewrite Hq, Hb.
Qed.

Lemma loop_step p ks w b :
  fan_state p ks w -> parent_proc p = Process (Live (rest_of (Ret tt))) None b ->
  counts (AtWait b) ks -> Inv (Waiting b) ks (kern w) (out w) ->
  exists w', run_step cf 0 w = Some w' /\ fan_state (AtWait b) ks w' /\ kern w' = kern w.
Proof.
  intros Hf Hpp Hl HI. pose proof Hf as [Hp He _ _]. unfold run_step. rewrite (fan_parent _ _ _ Hf), Hpp.
  eexists. split; [reflexivity|]. split; [|done]. split; [|done..]. cbn. by rewrite Hp, Hpp.
Qed.

Lemma middle_done y ks w a :
  fan_state (AtMiddle y) ks w -> pcode y = Ret a ->
  exists w', run_step cf 0 w = Some w' /\ fan_state (AtWait (pbuf y)) ks w' /\
    (mu (Waiting (pbuf y)) ks (kern w') <= mu (Middle y) ks (kern w))%nat.
Proof.
  intros Hf Ha. destruct (H_pdone _ _ _ _ _ (fs_inv _ _ _ Hf) Ha) as [HI Hmu].
  destruct (loop_step _ _ _ (pbuf y) Hf) as (w' & Hs & Hf' & Hk); [|apply (fs_len _ _ _ Hf)|done|].
  - cbn. destruct a. by rewrite Ha.
  - exists w'. by rewrite Hk.
Qed.

(** *** Reaping *)

Definition zombie_of (q : process C) : bool := child_of 0 q && is_zombie q.
Definition live_of (q : process C) : bool := child_of 0 q && is_live q.

Lemma parent_none p : p_parent (parent_proc p) = None.
Proof. by destruct p. Qed.

Lemma found_zombie p ks w j :
  fan_state p ks w -> find_idx zombie_of (procs w) = Some j ->
  exists c, j = S c /\ ks !! c = Some KDead.
Proof.
  intros Hf Hj. apply find_idx_Some in Hj as (q & Hq & Hz).
  destruct j as [|c].
  { rewrite (fan_parent _ _ _ Hf) in Hq. simplify_eq. unfold zombie_of, child_of in Hz.
    by rewrite parent_none in Hz. }
  exists c. split; [done|]. rewrite (fan_kid _ _ _ _ Hf) in Hq.
  destruct (ks !! c) as [[x| |]|]; simplify_eq/=; done.
Qed.

Lemma no_zombie p ks w c :
  fan_state p ks w -> find_idx zombie_of (procs w) = None -> ks !! c <> Some KDead.
Proof.
  intros Hf Hn Hc. apply find_idx_None in Hn.
  pose proof (fan_kid _ _ _ c Hf) as Hk. rewrite Hc in Hk. cbn in Hk.
  eapply Forall_lookup in Hn; [|exact Hk]. done.
Qed.

Lemma live_kid p ks w :
  fan_state p ks w -> existsb live_of (procs w) = true <-> exists c x, ks !! c = Some (KRun x).
Proof.
  intros Hf. rewrite existsb_exists. split.
  - intros (q & Hq & Hl). apply list_elem_of_In, list_elem_of_lookup in Hq as [[|c] Hq].
    { rewrite (fan_parent _ _ _ Hf) in Hq. simplify_eq. unfold live_of, child_of in Hl.
      by rewrite parent_none in Hl. }
    rewrite (fan_kid _ _ _ _ Hf) in Hq. exists c.
    destruct (ks !! c) as [[x| |]|]; simplify_eq/=; try done. by exists x.
  - intros (c & x & Hc). pose proof (fan_kid _ _ _ c Hf) as Hk. rewrite Hc in Hk. cbn in Hk.
    eexists. split; [apply list_elem_of_In; by eapply list_elem_of_lookup_2|done].
Qed.

Lemma reap_kid b ks w c :
  fan_state (AtWait b) ks w -> ks !! c = Some KDead -> find_idx zombie_of (procs w) = Some (S c) ->
  exists w', run_step cf 0 w = Some w' /\ fan_state (AtLoop b) (<[c := KGone]> ks) w' /\
    (mu (Waiting b) (<[c := KGone]> ks) (kern w') < mu (Waiting b) ks (kern w))%nat.
Proof.
  intros Hf Hc Hz. destruct (H_reap _ _ _ _ _ (fs_inv _ _ _ Hf) Hc) as [HI Hmu].
  pose proof (fan_set _ _ _ _ _ KGone _ _ Hf Hc HI) as Hf'.
  unfold run_step. rewrite (fan_parent _ _ _ Hf). eexists. split.
  { cbn -[find_idx existsb]. change (fun q => child_of 0 q && is_zombie q) with zombie_of.
    rewrite Hz. reflexivity. }
  split; [|exact Hmu]. destruct Hf' as [Hp He Hl HI']. cbn in Hl. split; cbn; try done.
  cbn in Hp. by rewrite Hp.
Qed.

(** When no child is left, the parent goes on. *)
Lemma all_reaped b ks w :
  fan_state (AtWait b) ks w -> find_idx zombie_of (procs w) = None ->
  existsb live_of (procs w) = false ->
  ks = replicate N KGone /\
  run_step cf 0 w = Some (World (Process (Live fin) None b ::
    replicate N (Process Reaped (Some 0%nat) [])) (kern w) (out w) e0).
Proof.
  intros Hf Hz Hl. pose proof Hf as [Hp He Hlen HI]. cbn in Hlen.
  assert (Hks : ks = replicate N KGone).
  { apply list_eq. intros c. destruct (decide (c < N)%nat).
    - rewrite lookup_replicate_2 by done.
      destruct (lookup_lt_is_Some_2 ks c ltac:(lia)) as [k Hk]. rewrite Hk.
      destruct k as [x| |]; [|by destruct (no_zombie _ _ _ c Hf Hz)|done].
      assert (existsb live_of (procs w) = true) by (apply (live_kid _ _ _ Hf); eauto). congruence.
    - rewrite !lookup_ge_None_2; [done|rewrite length_replicate; lia|lia]. }
  split; [done|]. unfold run_step. rewrite (fan_parent _ _ _ Hf). cbn -[find_idx existsb].
  change (fun q => child_of 0 q && is_zombie q) with zombie_of.
  change (fun q => child_of 0 q && is_live q) with live_of. rewrite Hz, Hl. cbn.
  unfold resume, set_proc. cbn. rewrite Hp, He, Hks. cbn. do 3 f_equal.
  apply list_eq. intros c. rewrite list_lookup_imap. destruct (decide (c < N)%nat).
  - by rewrite !lookup_replicate_2.
  - by rewrite !lookup_ge_None_2 by (rewrite length_replicate; lia).
Qed.

Lemma wait_blocked b ks w :
  fan_state (AtWait b) ks w -> find_idx zombie_of (procs w) = None ->
  existsb live_of (procs w) = true -> run_step cf 0 w = None.
Proof.
  intros Hf Hz Hl. unfold run_step. rewrite (fan_parent _ _ _ Hf). cbn -[find_idx existsb].
  change (fun q => child_of 0 q && is_zombie q) with zombie_of.
  change (fun q => child_of 0 q && is_live q) with live_of. by rewrite Hz, Hl.
Qed.

(** ** All schedules *)

Lemma kid_red p ks w c x :
  fan_state p ks w -> ks !! c = Some (KRun x) ->
  (exists a, code c x = Ret a) \/ is_Some (code_step (S c) (code c x) (obuf c x) (kern w) (out w)) ->
  red (step cf) w.
Proof.
  intros Hf Hc [[a Ha]|[[[[q' ob'] s'] o'] Hs]].
  - eexists _, (S c). unfold run_step. rewrite (fan_kid _ _ _ _ Hf), Hc. cbn. rewrite Ha. reflexivity.
  - eexists _, (S c). by eapply kid_run.
Qed.

Lemma fan_red a w : fan_rel a w -> red (step cf) w.
Proof.
  destruct a as [[p ks] k]. intros [_ Hf]. cbn in Hf. destruct p as [m|y|b|b].
  - destruct (spawn_step _ _ _ Hf) as (w' & Hs & _). by exists w', 0%nat.
  - destruct (ret_dec (pcode y)) as [[a Ha]|Hr].
    { destruct (middle_done _ _ _ _ Hf Ha) as (w' & Hs & _). by exists w', 0%nat. }
    destruct (code_step 0 (pcode y) (pbuf y) (kern w) (out w)) as [[[[q' ob'] s'] o']|] eqn:Hs.
    { destruct (middle_steps _ _ _ _ _ _ _ Hf Hs) as (y' & w' & Hs' & _). by exists w', 0%nat. }
    destruct (H_progress _ _ _ _ (fs_inv _ _ _ Hf) (fs_len _ _ _ Hf)) as (c & x & Hc & Hm); [done|].
    by eapply kid_red.
  - destruct (loop_step _ _ _ b Hf eq_refl (fs_len _ _ _ Hf) (fs_inv _ _ _ Hf)) as (w' & Hs & _).
    by exists w', 0%nat.
  - destruct (find_idx zombie_of (procs w)) as [j|] eqn:Hz.
    { destruct (found_zombie _ _ _ _ Hf Hz) as (c & -> & Hc).
      destruct (reap_kid _ _ _ _ Hf Hc Hz) as (w' & Hs & _). by exists w', 0%nat. }
    destruct (existsb live_of (procs w)) eqn:Hl.
    2: { destruct (all_reaped _ _ _ Hf Hz Hl) as [_ Hs]. by eexists _, 0%nat. }
    apply (live_kid _ _ _ Hf) in Hl.
    destruct (H_progress _ _ _ _ (fs_inv _ _ _ Hf) (fs_len _ _ _ Hf) Hl) as (c & x & Hc & Hm).
    by eapply kid_red.
Qed.

(** A step of the parent: it is done with the children, or the measure
    decreases. *)
Lemma fan_parent_moves p ks w w' :
  fan_state p ks w -> run_step cf 0 w = Some w' ->
  (exists p' ks', fan_state p' ks' w' /\
     (fan_mu (p', ks', kern w') < fan_mu (p, ks, kern w))%nat) \/
  (exists b, Inv (Waiting b) (replicate N KGone) (kern w) (out w) /\
     w' = World (Process (Live fin) None b :: replicate N (Process Reaped (Some 0%nat) []))
            (kern w) (out w) e0).
Proof.
  intros Hf Hs. unfold fan_mu. destruct p as [m|y|b|b]; cbn [fst snd phase_of early].
  - left. destruct (spawn_step _ _ _ Hf) as (w1 & Hs1 & Hf1 & Hmu). simplify_eq.
    eexists _, _. split; [exact Hf1|]. destruct m; cbn in *; lia.
  - left. destruct (ret_dec (pcode y)) as [[a Ha]|Hr].
    { destruct (middle_done _ _ _ _ Hf Ha) as (w1 & Hs1 & Hf1 & Hmu). simplify_eq.
      eexists _, _. split; [exact Hf1|]. cbn. lia. }
    destruct (code_step 0 (pcode y) (pbuf y) (kern w) (out w)) as [[[[q' ob'] s'] o']|] eqn:Hs1.
    { destruct (middle_steps _ _ _ _ _ _ _ Hf Hs1) as (y' & w1 & Hs2 & Hf1 & Hmu). simplify_eq.
      eexists _, _. split; [exact Hf1|]. cbn. lia. }
    erewrite plain_blocked in Hs; [done| |exact Hr|exact Hs1|apply (fan_parent _ _ _ Hf)].
    by eapply H_psimple; [apply (fs_inv _ _ _ Hf)|apply (fs_len _ _ _ Hf)].
  - left. destruct (loop_step _ _ _ b Hf eq_refl (fs_len _ _ _ Hf) (fs_inv _ _ _ Hf)) as (w1 & Hs1 & Hf1 & Hk).
    simplify_eq. eexists _, _. split; [exact Hf1|]. cbn. rewrite Hk. lia.
  - destruct (find_idx zombie_of (procs w)) as [j|] eqn:Hz.
    { left. destruct (found_zombie _ _ _ _ Hf Hz) as (c & -> & Hc).
      destruct (reap_kid _ _ _ _ Hf Hc Hz) as (w1 & Hs1 & Hf1 & Hmu). simplify_eq.
      eexists _, _. split; [exact Hf1|]. cbn. lia. }
    destruct (existsb live_of (procs w)) eqn:Hl; [by rewrite (wait_blocked _ _ _ Hf Hz Hl) in Hs|].
    right. exists b. destruct (all_reaped _ _ _ Hf Hz Hl) as [-> Hs'].
    split; [apply (fs_inv _ _ _ Hf)|]. congruence.
Qed.

Lemma spawn_total (Q : world C K -> Prop) s o :
  Inv Forking [] s o ->
  (forall b s' o', Inv (Waiting b) (replicate N KGone) s' o' ->
     total cf (World (Process (Live fin) None b ::
                      replicate N (Process Reaped (Some 0%nat) [])) s' o' e0) Q) ->
  total cf (World [Process (Live spawn) None []] s o e0) Q.
Proof.
  intros HI Hfin.
  eapply (total_sim cf fan_rel fan_mu Q) with (a := (match N with O => AtMiddle pstart | S m => AtFork m end, [], s)).
  - apply fan_red.
  - intros [[p ks] k] w [|c] w' [Hk Hf] Hs; cbn in Hk, Hf; subst k.
    + destruct (fan_parent_moves _ _ _ _ Hf Hs) as [(p' & ks' & Hf' & Hmu)|(b & HI' & ->)].
      * left. exists (p', ks', kern w'). split; [split; done|done].
      * right. by apply Hfin.
    + left. destruct (kid_moves _ _ _ _ _ Hf Hs) as (ks' & Hf' & Hmu).
      exists (p, ks', kern w'). split; [split; done|]. unfold fan_mu. cbn in *. lia.
  - split; [done|]. destruct H_pstart as [Hpc Hpb].
    unfold spawn. destruct N as [|m] eqn:HN; split; try done.
    + cbn. unfold rest_of. by rewrite Hpc, Hpb.
    + by apply H_begin.
    + cbn [procs fst snd parent_proc]. by rewrite HN, Nat.sub_diag, Z.add_0_r.
Qed.
End Fan.
