(* ===== verification/Shm.v ===== *)
(** * Shm: POSIX shared memory, semaphores and process-shared mutexes

    The kernel objects behind [SharedMemory/posix_shm_ring_sem.c],
    [SharedMemory/process_shared_mutex.c],
    [Semaphores/posix_shm_unnamed_sem_latch.c] and
    [Semaphores/posix_named_sem_pingpong.c].  A shared-memory object is an
    array of cells, one per C object of the mapped structure: an [int], a
    [char], a [sem_t] (the cell holds its value) or a [pthread_mutex_t] (the
    cell holds 0 when free and [i + 1] when process [i] holds it).  A load or a
    store is one step, so an increment is not atomic. *)

From S2P Require Import Prelude Fmt Posix Common Guarded.

Record shm := ShmState {
  sh_names : list (bytes * nat);
  sh_sems : list (bytes * nat);
  sh_objs : list (list Z);
  sh_fds : list nat;
}.

Inductive shm_call : Type :=
| ShmUnlink (name : bytes)
| ShmOpenExcl (name : bytes)
| Ftruncate (fd : Z) (cells : nat)
| Mmap (fd : Z)
| Memset0 (reg : Z)
| SemInit (reg : Z) (cell : nat) (v : Z)
| SemOpenExcl (name : bytes) (v : Z)
| SemUnlink (name : bytes)
| SemClose (reg : Z)
| SemWait (reg : Z) (cell : nat)
| SemPost (reg : Z) (cell : nat)
| MutexInit (reg : Z) (cell : nat) (pshared : bool)
| MutexLock (reg : Z) (cell : nat)
| MutexUnlock (reg : Z) (cell : nat)
| Load (reg : Z) (cell : nat)
| Store (reg : Z) (cell : nat) (v : Z).

(** Name tables. *)
Definition name_eqb (a b : bytes) : bool := bool_decide (a = b).
Definition bound (name : bytes) (l : list (bytes * nat)) : bool :=
  existsb (fun e => name_eqb name e.1) l.
Definition unbind (name : bytes) (l : list (bytes * nat)) : list (bytes * nat) :=
  List.filter (fun e => negb (name_eqb name e.1)) l.

(** Cells. *)
Definition cell_at (s : shm) (reg : Z) (c : nat) : option Z :=
  if reg <? 0 then None else sh_objs s !! Z.to_nat reg ≫= (fun o => o !! c).
Definition set_objs (s : shm) (os : list (list Z)) : shm :=
  ShmState (sh_names s) (sh_sems s) os (sh_fds s).
Definition set_cell (s : shm) (reg : Z) (c : nat) (v : Z) : shm :=
  set_objs s (alter (fun o => <[c := v]> o) (Z.to_nat reg) (sh_objs s)).

Definition SEM_VALUE_MAX : Z := INT_MAX.

(** The object behind a descriptor; descriptors 0 to 2 are the standard
    streams. *)
Definition fd_obj (s : shm) (fd : Z) : option nat :=
  if fd <? 3 then None else sh_fds s !! Z.to_nat (fd - 3).

Definition shm_exec (i : nat) (c : shm_call) (s : shm) : kres shm :=
  let with_cell reg cell (f : Z -> kres shm) :=
    match cell_at s reg cell with Some v => f v | None => Fault end in
  match c with
  | ShmUnlink name =>
      if bound name (sh_names s)
      then Done (ok 0) (ShmState (unbind name (sh_names s)) (sh_sems s) (sh_objs s) (sh_fds s))
      else Done (failed ENOENT) s
  | ShmOpenExcl name =>
      if bound name (sh_names s) then Done (failed EEXIST) s
      else Done (ok (3 + Z.of_nat (length (sh_fds s))))
             (ShmState ((name, length (sh_objs s)) :: sh_names s) (sh_sems s)
                (sh_objs s ++ [[]]) (sh_fds s ++ [length (sh_objs s)]))
  | Ftruncate fd cells =>
      match fd_obj s fd with
      | Some o => Done (ok 0) (set_objs s (alter (fun l => resize cells 0 l) o (sh_objs s)))
      | None => Done (failed EBADF) s
      end
  | Mmap fd =>
      match fd_obj s fd with
      | Some o => Done (ok (Z.of_nat o)) s
      | None => Done (failed EBADF) s
      end
  | Memset0 reg =>
      Done (ok reg) (set_objs s (alter (fun l => replicate (length l) 0) (Z.to_nat reg) (sh_objs s)))
  | SemInit reg cell v =>
      with_cell reg cell (fun _ =>
        if v >? SEM_VALUE_MAX then Done (failed EINVAL) s
        else Done (ok 0) (set_cell s reg cell v))
  | SemOpenExcl name v =>
      if bound name (sh_sems s) then Done (failed EEXIST) s
      else Done (ok (Z.of_nat (length (sh_objs s))))
             (ShmState (sh_names s) ((name, length (sh_objs s)) :: sh_sems s)
                (sh_objs s ++ [[v]]) (sh_fds s))
  | SemUnlink name =>
      if bound name (sh_sems s)
      then Done (ok 0) (ShmState (sh_names s) (unbind name (sh_sems s)) (sh_objs s) (sh_fds s))
      else Done (failed ENOENT) s
  | SemClose _ => Done (ok 0) s
  | SemWait reg cell =>
      with_cell reg cell (fun v =>
        if v >? 0 then Done (ok 0) (set_cell s reg cell (v - 1)) else Block)
  | SemPost reg cell =>
      with_cell reg cell (fun v =>
        if v >=? SEM_VALUE_MAX then Done (failed EOVERFLOW) s
        else Done (ok 0) (set_cell s reg cell (v + 1)))
  | MutexInit reg cell pshared =>
      with_cell reg cell (fun _ =>
        Done (ok 0) (set_cell s reg cell (if pshared then 0 else -1)))
  | MutexLock reg cell =>
      with_cell reg cell (fun v =>
        if v =? 0 then Done (ok 0) (set_cell s reg cell (Z.of_nat i + 1))
        else if v <? 0 then Fault else Block)
  | MutexUnlock reg cell =>
      with_cell reg cell (fun v =>
        if v =? Z.of_nat i + 1 then Done (ok 0) (set_cell s reg cell 0) else Fault)
  | Load reg cell => with_cell reg cell (fun v => Done (ok v) s)
  | Store reg cell v => with_cell reg cell (fun _ => Done (ok 0) (set_cell s reg cell v))
  end.

(** Calls that can fail in any state. *)
Definition shm_fails (c : shm_call) (e : errno) : bool :=
  match c with
  | SemWait _ _ => bool_decide (e = EINTR)
  | ShmOpenExcl _ => bool_decide (e = EMFILE \/ e = EPERM)
  | SemOpenExcl _ _ => bool_decide (e = EMFILE \/ e = ENOMEM)
  | Mmap _ => bool_decide (e = ENOMEM)
  | _ => false
  end.

(** Memory and semaphores outlive the processes that use them. *)
#[export] Instance shm_kernel : Kernel shm_call shm := {|
  kexec := shm_exec;
  kfails := shm_fails;
  kfork := fun _ _ s => s;
  kexit := fun _ s => s;
|}.

(** ** Facts about cells *)

Lemma cell_at_set s reg c v :
  is_Some (cell_at s reg c) -> cell_at (set_cell s reg c v) reg c = Some v.
Proof.
  unfold cell_at, set_cell. cbn. destruct (reg <? 0); [by intros []|].
  destruct (sh_objs s !! Z.to_nat reg) as [o|] eqn:Ho; [|by intros []].
  cbn. intros [x Hx]. rewrite list_lookup_alter_eq, Ho. cbn.
  apply list_lookup_insert_eq. by eapply lookup_lt_Some.
Qed.

Lemma cell_at_set_ne s reg c c' v :
  c <> c' -> cell_at (set_cell s reg c v) reg c' = cell_at s reg c'.
Proof.
  intros Hne. unfold cell_at, set_cell. cbn. destruct (reg <? 0); [done|].
  rewrite list_lookup_alter_eq.
  destruct (sh_objs s !! Z.to_nat reg) as [o|]; [|done]. cbn.
  by apply list_lookup_insert_ne.
Qed.

Lemma unbind_unbound name l : bound name (unbind name l) = false.
Proof.
  unfold bound, unbind. induction l as [|e l IH]; cbn; [done|].
  destruct (name_eqb name e.1) eqn:E; cbn; [done|]. by rewrite E.
Qed.

Lemma shm_unlink_spec i name s0 :
  exists r s, shm_exec i (ShmUnlink name) s0 = Done r s /\ bound name (sh_names s) = false.
Proof.
  cbn. destruct (bound name (sh_names s0)) eqn:Hb; eexists _, _; (split; [done|]); [|done].
  apply unbind_unbound.
Qed.

(** ** Creating and mapping an object

    Three programs open with the same lines: remove a stale object, create it
    anew, size it and map it. *)

Definition map_new_object (name : bytes) (cells : nat) : prog shm_call Z :=
  sys (ShmUnlink name) ;;;
  fd <- sys (ShmOpenExcl name) ;;
  if rv fd =? -1 then die_errno (rerr fd) (B "shm_open") else
  sys (Ftruncate (rv fd) cells) ;;;
  m <- sys (Mmap (rv fd)) ;;
  if rv m =? -1 then die_errno (rerr m) (B "mmap") else
  Ret (rv m).

Lemma map_new_object_back cf (T : world shm_call shm -> Prop) name cells (k : Z -> prog shm_call Z) s0 o e :
  backward cf T ->
  (forall s reg, 0 <= reg -> (forall c, (c < cells)%nat -> cell_at s reg c = Some 0) ->
     T (World [Process (Live (k reg)) None []] s o e)) ->
  T (World [Process (Live (bind (map_new_object name cells) k)) None []] s0 o e).
Proof.
  intros HT Hk.
  destruct (shm_unlink_spec 0 name s0) as (r & s & Hs & Hb).
  eapply (back_sys cf T); [exact HT|exact Hs|].
  eapply (back_sys cf T); [exact HT|cbn; rewrite Hb; reflexivity|cbn].
  set (fd := 3 + Z.of_nat (length (sh_fds s))). set (s1 := ShmState _ _ _ _).
  assert (Hfd : fd_obj s1 fd = Some (length (sh_objs s))).
  { unfold fd_obj. replace (fd <? 3) with false by (symmetry; apply Z.ltb_ge; lia).
    cbn. rewrite lookup_app_r by lia.
    by replace (Z.to_nat (fd - 3) - length (sh_fds s))%nat with 0%nat by lia. }
  replace (fd =? -1) with false by (symmetry; apply Z.eqb_neq; lia).
  eapply (back_sys cf T); [exact HT|cbn; rewrite Hfd; reflexivity|].
  eapply (back_sys cf T); [exact HT|cbn; unfold fd_obj in *; cbn in *; rewrite Hfd; reflexivity|cbn].
  replace (Z.of_nat (length (sh_objs s)) =? -1) with false by (symmetry; apply Z.eqb_neq; lia).
  apply Hk; [lia|]. intros c Hc. unfold cell_at.
  replace (Z.of_nat (length (sh_objs s)) <? 0) with false by (symmetry; apply Z.ltb_ge; lia).
  cbn. rewrite Nat2Z.id, list_lookup_alter_eq, lookup_app_r, Nat.sub_diag by lia. cbn.
  by rewrite resize_nil, lookup_replicate_2.
Qed.

Lemma map_new_object_total cf name cells (k : Z -> prog shm_call Z) s0 o e Q :
  (forall s reg, 0 <= reg -> (forall c, (c < cells)%nat -> cell_at s reg c = Some 0) ->
     total cf (World [Process (Live (k reg)) None []] s o e) Q) ->
  total cf (World [Process (Live (bind (map_new_object name cells) k)) None []] s0 o e) Q.
Proof. apply (map_new_object_back cf (fun w => total cf w Q)), backward_total. Qed.

(** ** [SharedMemory/process_shared_mutex.c] *)

Module ProcessSharedMutex.
Definition SHM_NAME : bytes := B "/ipc_pshared_mutex".

(** [struct shared_state { pthread_mutex_t mutex; int balance; }] *)
Definition mutex : nat := 0.
Definition balance : nat := 1.
Definition sizeof_shared_state : nat := 2.

(** The loop a child runs. *)
Definition deposit (state : Z) : prog shm_call unit :=
  for_ 500 0 (fun j =>
    critical (sys (MutexLock state mutex) ;;; Ret tt)
             (sys (MutexUnlock state mutex) ;;; Ret tt)
             (Load state balance) (Store state balance) 2).

Definition main : prog shm_call Z :=
  state <- map_new_object SHM_NAME sizeof_shared_state ;;
  sys (MutexInit state mutex true) ;;;
  sys (Store state balance 0) ;;;
  for_ 4 0 (fun i => fork_child (deposit state)) ;;;
  reap_all_children ;;;
  b <- sys (Load state balance) ;;
  proc (Printf (B "shared balance=" ++ fmt_d (rv b) ++ ln " expected=4000")) ;;;
  sys (ShmUnlink SHM_NAME) ;;;
  Ret 0.

(** The mutex cell names the holder. *)
Definition guards (reg : Z) (L : list bool) (h : option nat) (v : Z) (s : shm) : Prop :=
  cell_at s reg mutex = Some (match h with None => 0 | Some i => Z.of_nat i + 1 end) /\
  cell_at s reg balance = Some v.

#[export] Instance pthread_guard reg :
  MutexGuard (MutexLock reg mutex) (MutexUnlock reg mutex) (Load reg balance)
    (Store reg balance) (fun _ => Ret tt) (fun _ => Ret tt) (guards reg).
Proof.
  split; unfold guards; cbn; unfold mutex, balance.
  - intros L v s i [Hm Hb] _. rewrite Hm. cbn. eexists _, _. split; [done|].
    split; [done|]. rewrite cell_at_set, cell_at_set_ne by (done || eauto). done.
  - intros L j v s i [Hm Hb] _ Hij. rewrite Hm.
    replace (Z.of_nat j + 1 =? 0) with false by (symmetry; apply Z.eqb_neq; lia).
    by replace (Z.of_nat j + 1 <? 0) with false by (symmetry; apply Z.ltb_ge; lia).
  - intros L v s i [Hm Hb] _. rewrite Hm, Z.eqb_refl. eexists _, _. split; [done|].
    split; [done|]. rewrite cell_at_set, cell_at_set_ne by (done || eauto). done.
  - intros L h v s i [Hm Hb] _. rewrite Hb. by eexists.
  - intros L h v s i v' [Hm Hb] _ _. rewrite Hb. eexists _, _. split; [done|].
    rewrite cell_at_set, cell_at_set_ne by (done || eauto). done.
  - done.
  - done.
Qed.

(** C15. [process_shared_mutex.c] is correct under every schedule: from any
    state of the shared-memory name space, however its five processes are
    interleaved, the program terminates, no update of [balance] is lost,
    it prints [shared balance=4000 expected=4000], exits with 0, reaps all
    its children and leaves no shared-memory name behind. *)
Theorem process_shared_mutex_correct cf s0 :
  total cf (boot main s0) (fun w =>
    finished 0 (ln "shared balance=4000 expected=4000") w /\
    bound SHM_NAME (sh_names (kern w)) = false).
Proof.
  apply map_new_object_total. intros s reg Hreg Hcells.
  assert (Hm : cell_at s reg mutex = Some 0) by (apply Hcells; unfold sizeof_shared_state, mutex, balance; lia).
  assert (Hb : cell_at s reg balance = Some 0) by (apply Hcells; unfold sizeof_shared_state, mutex, balance; lia).
  last_call (cbn; rewrite Hm; reflexivity).
  last_call (cbn; rewrite cell_at_set_ne, Hb by done; reflexivity).
  apply (fan_out_total cf (MutexLock reg mutex) (MutexUnlock reg mutex) (Load reg balance)
           (Store reg balance) (fun _ => Ret tt) (fun _ => Ret tt) (guards reg)
           2 4 500); [done..| |].
  - intros s' [_ Hb']. last_call (cbn; rewrite Hb'; reflexivity).
    last_print.
    destruct (shm_unlink_spec 0 SHM_NAME s') as (r & s1 & Hs1 & Hb1).
    last_call (exact Hs1).
    last_end. repeat split; cbn; [by eexists|exact Ho|exact Hb1].
  - split; cbn.
    + by rewrite cell_at_set_ne, cell_at_set by (done || eauto).
    + rewrite cell_at_set; [done|]. rewrite cell_at_set_ne, Hb by done. eauto.
Qed.

End ProcessSharedMutex.
