(* ===== verification/Ring.v ===== *)
(** * Ring: the bounded buffer of [SharedMemory/posix_shm_ring_sem.c]

    A producer and a consumer process share a ring of [CAPACITY] slots guarded
    by two counting semaphores and a binary one. *)

From S2P Require Import Prelude Fmt Posix Common Shm.

Definition SHM_NAME : bytes := B "/ipc_ring_sem".
Definition CAPACITY : Z := 8.
Definition ITEMS : nat := 20.

(** [struct ring { sem_t empty, full, mutex; int head, tail, slots[CAPACITY]; }] *)
Definition empty : nat := 0.
Definition full : nat := 1.
Definition mutex : nat := 2.
Definition head : nat := 3.
Definition tail : nat := 4.
Definition slots : nat := 5.
Definition sizeof_ring : nat := 13.

Definition sem_wait_body (ring : Z) (sem : nat) : unit -> prog shm_call (unit + unit) :=
  fun _ =>
    r <- sys (SemWait ring sem) ;;
    if rv r =? -1 then
      if decide (rerr r = EINTR) then Ret (inl tt)
      else die_errno (rerr r) (B "sem_wait")
    else Ret (inr tt).

Definition sem_wait_retry (ring : Z) (sem : nat) : prog shm_call unit :=
  loop (sem_wait_body ring sem) tt.

(** The cell of [slots[i]]; an index outside the array is undefined. *)
Definition slot (i : Z) : option nat :=
  if (0 <=? i) && (i <? CAPACITY) then Some (slots + Z.to_nat i)%nat else None.

(** The body of the consumer's loop; it yields the new [total]. *)
Definition consume (ring total : Z) : prog shm_call Z :=
  sem_wait_retry ring full ;;;
  sem_wait_retry ring mutex ;;;
  h <- sys (Load ring head) ;;
  match slot (rv h) with
  | None => Undef
  | Some c =>
      value <- sys (Load ring c) ;;
      h' <- sys (Load ring head) ;;
      next <- int_add (rv h') 1 ;;
      sys (Store ring head (Z.rem next CAPACITY)) ;;;
      sys (SemPost ring mutex) ;;;
      sys (SemPost ring empty) ;;;
      int_add total (rv value)
  end.

(** The body of the producer's loop. *)
Definition produce (ring value : Z) : prog shm_call unit :=
  sem_wait_retry ring empty ;;;
  sem_wait_retry ring mutex ;;;
  t <- sys (Load ring tail) ;;
  match slot (rv t) with
  | None => Undef
  | Some c =>
      sys (Store ring c value) ;;;
      t' <- sys (Load ring tail) ;;
      next <- int_add (rv t') 1 ;;
      sys (Store ring tail (Z.rem next CAPACITY)) ;;;
      sys (SemPost ring mutex) ;;;
      sys (SemPost ring full) ;;;
      Ret tt
  end.

Definition consumer (ring : Z) (items : nat) : prog shm_call Z :=
  total <- for_acc items 0 0 (fun i total => consume ring total) ;;
  proc (Printf (B "consumer total=" ++ fmt_d total ++ [LF])) ;;;
  proc Fflush ;;;
  Exit_ 0.

Definition producer (ring child : Z) (items : nat) : prog shm_call Z :=
  for_ items 1 (fun value => produce ring value) ;;;
  wait_for_pid child ;;;
  sys (ShmUnlink SHM_NAME) ;;;
  Ret 0.

Definition init_ring (ring : Z) : prog shm_call unit :=
  sys (Memset0 ring) ;;;
  sys (SemInit ring empty CAPACITY) ;;;
  sys (SemInit ring full 0) ;;;
  sys (SemInit ring mutex 1) ;;;
  Ret tt.

Definition main : prog shm_call Z :=
  ring <- map_new_object SHM_NAME sizeof_ring ;;
  init_ring ring ;;;
  child <- proc Fork ;;
  if rv child =? 0 then consumer ring ITEMS
  else producer ring (rv child) ITEMS.

(** ** The shared structure *)

Definition b2z (b : bool) : Z := if b then 1 else 0.
Definition b2n (b : bool) : nat := if b then 1 else 0.
Definition at_mod (k : nat) : Z := Z.of_nat k mod CAPACITY.
Definition slot_of (k : nat) : nat := (slots + Z.to_nat (at_mod k))%nat.
#[local] Arguments at_mod k : simpl never.
#[local] Arguments slot_of k : simpl never.

(** The ring with [k] items produced and [i] consumed.  The producer, busy
    with item [k], has taken an [empty] unit ([pe]), holds the mutex ([pm]),
    has written the slot ([ps]) and moved [tail] ([pt]); the consumer, busy
    with item [i], has taken a [full] unit ([ce]), holds the mutex ([cm]) and
    has moved [head] ([ch]). *)
Record kinv (ring : Z) (k i : nat) (pe pm ps pt ce cm ch : bool) (s : shm) : Prop := KInv {
  ki_empty : cell_at s ring empty = Some (CAPACITY + Z.of_nat i - Z.of_nat k - b2z pe);
  ki_empty_pos : 0 <= CAPACITY + Z.of_nat i - Z.of_nat k - b2z pe;
  ki_full : cell_at s ring full = Some (Z.of_nat k - Z.of_nat i - b2z ce);
  ki_full_pos : 0 <= Z.of_nat k - Z.of_nat i - b2z ce;
  ki_mutex : cell_at s ring mutex = Some (1 - b2z pm - b2z cm);
  ki_excl : pm && cm = false;
  ki_head : cell_at s ring head = Some (at_mod (i + b2n ch));
  ki_tail : cell_at s ring tail = Some (at_mod (k + b2n pt));
  ki_slots : forall n, (i <= n < k + b2n ps)%nat ->
    cell_at s ring (slot_of n) = Some (Z.of_nat n + 1);
  ki_cells : forall n, is_Some (cell_at s ring (slot_of n));
}.

Lemma at_mod_bound k : 0 <= at_mod k < 8.
Proof. unfold at_mod, CAPACITY. apply Z.mod_pos_bound. lia. Qed.

Lemma slot_at_mod k : slot (at_mod k) = Some (slot_of k).
Proof.
  unfold slot. pose proof (at_mod_bound k) as H. unfold CAPACITY.
  replace (0 <=? at_mod k) with true by (symmetry; apply Z.leb_le; lia).
  by replace (at_mod k <? 8) with true by (symmetry; apply Z.ltb_lt; lia).
Qed.

Lemma slot_of_ge k : (5 <= slot_of k < 13)%nat.
Proof. unfold slot_of, slots. pose proof (at_mod_bound k). lia. Qed.

(** The index arithmetic of [(tail + 1) % CAPACITY]. *)
Lemma at_mod_succ k :
  in_int (at_mod k + 1) = true /\ Z.rem (at_mod k + 1) CAPACITY = at_mod (S k).
Proof.
  pose proof (at_mod_bound k) as H. split.
  - apply in_int_spec. unfold INT_MIN, INT_MAX. lia.
  - rewrite Z.rem_mod_nonneg by (unfold CAPACITY; lia). unfold at_mod, CAPACITY.
    rewrite Z.add_mod_idemp_l by lia. f_equal. lia.
Qed.

(** Items less than [CAPACITY] apart are in different slots. *)
Lemma slot_of_ne n k : (n < k)%nat -> (k - n < 8)%nat -> slot_of n <> slot_of k.
Proof.
  intros Hlt Hd E. unfold slot_of in E.
  pose proof (at_mod_bound n). pose proof (at_mod_bound k).
  assert (Em : at_mod n = at_mod k) by lia. unfold at_mod, CAPACITY in Em.
  pose proof (Z.div_mod (Z.of_nat n) 8 ltac:(lia)). pose proof (Z.div_mod (Z.of_nat k) 8 ltac:(lia)).
  lia.
Qed.

(** A write to one cell seen from another. *)
Ltac cell_ne :=
  match goal with
  | |- context [slot_of ?n] => pose proof (slot_of_ge n)
  | _ => idtac
  end; unfold empty, full, mutex, head, tail in *; lia.
Ltac cells :=
  repeat (rewrite cell_at_set_ne by cell_ne);
  rewrite ?cell_at_set by eauto.

(** Close the fields of a [kinv] after a write to the control cells. *)
Ltac kfields :=
  split; intros; cells; cbn [b2z b2n andb] in *; unfold CAPACITY in *;
  try match goal with
      | H : cell_at ?s ?r ?c = Some _ |- cell_at ?s ?r ?c = Some _ => rewrite H
      end;
  first [done | lia | by eauto | by f_equal; lia | by do 2 f_equal; lia
        | match goal with H : forall _, _ -> cell_at _ _ _ = _ |- _ => apply H; lia end | idtac].

Ltac bool_case e b :=
  replace e with b by (symmetry; first [apply Z.gtb_lt | apply Z.eqb_neq | apply Z.geb_le
    | rewrite Z.geb_leb; apply Z.leb_gt | rewrite Z.gtb_ltb; apply Z.ltb_ge];
    unfold CAPACITY, SEM_VALUE_MAX, INT_MAX in *; cbn [b2z] in *; lia).

Section Kernel.
Context (ring : Z) (i0 : nat).
Abbreviation exec := (shm_exec i0).
Context (k i : nat) (s : shm).

(** The producer's calls. *)

Lemma k_wait_empty pm ps pt ce cm ch :
  kinv ring k i false pm ps pt ce cm ch s ->
  if bool_decide (k < 8 + i)%nat
  then exists s', exec (SemWait ring empty) s = Done (ok 0) s' /\
                  kinv ring k i true pm ps pt ce cm ch s'
  else exec (SemWait ring empty) s = Block.
Proof.
  intros []. cbn. rewrite ki_empty0. case_bool_decide.
  - bool_case (CAPACITY + Z.of_nat i - Z.of_nat k - b2z false >? 0) true.
    eexists. split; [done|]. kfields.
  - by bool_case (CAPACITY + Z.of_nat i - Z.of_nat k - b2z false >? 0) false.
Qed.

Lemma k_wait_mutex_p pe ps pt ce cm ch :
  kinv ring k i pe false ps pt ce cm ch s ->
  if cm then exec (SemWait ring mutex) s = Block
  else exists s', exec (SemWait ring mutex) s = Done (ok 0) s' /\
                  kinv ring k i pe true ps pt ce false ch s'.
Proof.
  intros []. cbn. rewrite ki_mutex0. destruct cm; [done|].
  eexists. split; [done|]. kfields.
Qed.

Lemma k_load_tail pe pm ps ce cm ch :
  kinv ring k i pe pm ps false ce cm ch s ->
  exec (Load ring tail) s = Done (ok (at_mod k)) s.
Proof. intros []. cbn. rewrite ki_tail0. cbn. by rewrite Nat.add_0_r. Qed.

Lemma k_store_slot pm pt ce cm ch :
  kinv ring k i true pm false pt ce cm ch s ->
  exists s', exec (Store ring (slot_of k) (Z.of_nat k + 1)) s = Done (ok 0) s' /\
             kinv ring k i true pm true pt ce cm ch s'.
Proof.
  intros []. cbn. destruct (ki_cells0 k) as [x Hx]. rewrite Hx. eexists. split; [done|].
  pose proof (slot_of_ge k). split; try done.
  1-5: rewrite cell_at_set_ne by cell_ne; done.
  - intros n Hn. cbn in Hn. destruct (decide (n = k)) as [->|Hne].
    + apply cell_at_set. eauto.
    + rewrite cell_at_set_ne; [apply ki_slots0; cbn; lia|].
      intros E. symmetry in E. revert E. apply slot_of_ne; [lia|].
      unfold CAPACITY in *. cbn in *. lia.
  - intros n. destruct (decide (slot_of k = slot_of n)) as [E|E].
    + rewrite <- E, cell_at_set by eauto. eauto.
    + by rewrite cell_at_set_ne.
Qed.

Lemma k_store_tail pe pm ps ce cm ch :
  kinv ring k i pe pm ps false ce cm ch s ->
  exists s', exec (Store ring tail (at_mod (S k))) s = Done (ok 0) s' /\
             kinv ring k i pe pm ps true ce cm ch s'.
Proof.
  intros []. cbn. rewrite ki_tail0. eexists. split; [done|]. kfields.
Qed.

Lemma k_post_mutex_p pe ps pt ce cm ch :
  kinv ring k i pe true ps pt ce cm ch s ->
  exists s', exec (SemPost ring mutex) s = Done (ok 0) s' /\
             kinv ring k i pe false ps pt ce cm ch s'.
Proof.
  intros []. destruct cm; [done|]. cbn. rewrite ki_mutex0. eexists. split; [done|]. kfields.
Qed.

Lemma k_post_full ce cm ch :
  kinv ring k i true false true true ce cm ch s ->
  exists s', exec (SemPost ring full) s = Done (ok 0) s' /\
             kinv ring (S k) i false false false false ce cm ch s'.
Proof.
  intros []. cbn. rewrite ki_full0.
  assert (0 <= b2z ce <= 1) by (by destruct ce).
  bool_case (Z.of_nat k - Z.of_nat i - b2z ce >=? SEM_VALUE_MAX) false.
  eexists. split; [done|]. kfields.
Qed.

(** The consumer's calls. *)

Lemma k_wait_full pe pm ps pt cm ch :
  kinv ring k i pe pm ps pt false cm ch s ->
  if bool_decide (i < k)%nat
  then exists s', exec (SemWait ring full) s = Done (ok 0) s' /\
                  kinv ring k i pe pm ps pt true cm ch s'
  else exec (SemWait ring full) s = Block.
Proof.
  intros []. cbn. rewrite ki_full0. case_bool_decide.
  - bool_case (Z.of_nat k - Z.of_nat i - b2z false >? 0) true.
    eexists. split; [done|]. kfields.
  - by bool_case (Z.of_nat k - Z.of_nat i - b2z false >? 0) false.
Qed.

Lemma k_wait_mutex_c pe pm ps pt ce ch :
  kinv ring k i pe pm ps pt ce false ch s ->
  if pm then exec (SemWait ring mutex) s = Block
  else exists s', exec (SemWait ring mutex) s = Done (ok 0) s' /\
                  kinv ring k i pe false ps pt ce true ch s'.
Proof.
  intros []. cbn. rewrite ki_mutex0. destruct pm; [done|].
  eexists. split; [done|]. kfields.
Qed.

Lemma k_load_head pe pm ps pt ce cm :
  kinv ring k i pe pm ps pt ce cm false s ->
  exec (Load ring head) s = Done (ok (at_mod i)) s.
Proof. intros []. cbn. rewrite ki_head0. cbn. by rewrite Nat.add_0_r. Qed.

(** The slot the consumer reads holds the oldest item. *)
Lemma k_load_slot pe pm ps pt cm ch :
  kinv ring k i pe pm ps pt true cm ch s ->
  exec (Load ring (slot_of i)) s = Done (ok (Z.of_nat i + 1)) s.
Proof. intros []. cbn. cbn in *. rewrite ki_slots0 by lia. done. Qed.

Lemma k_store_head pe pm ps pt ce cm :
  kinv ring k i pe pm ps pt ce cm false s ->
  exists s', exec (Store ring head (at_mod (S i))) s = Done (ok 0) s' /\
             kinv ring k i pe pm ps pt ce cm true s'.
Proof.
  intros []. cbn. rewrite ki_head0. eexists. split; [done|]. kfields.
Qed.

Lemma k_post_mutex_c pe pm ps pt ce ch :
  kinv ring k i pe pm ps pt ce true ch s ->
  exists s', exec (SemPost ring mutex) s = Done (ok 0) s' /\
             kinv ring k i pe pm ps pt ce false ch s'.
Proof.
  intros []. destruct pm; [done|]. cbn. rewrite ki_mutex0. eexists. split; [done|]. kfields.
Qed.

Lemma k_post_empty pe pm ps pt :
  kinv ring k i pe pm ps pt true false true s ->
  exists s', exec (SemPost ring empty) s = Done (ok 0) s' /\
             kinv ring k (S i) pe pm ps pt false false false s'.
Proof.
  intros []. cbn. rewrite ki_empty0.
  assert (0 <= b2z pe <= 1) by (by destruct pe).
  bool_case (CAPACITY + Z.of_nat i - Z.of_nat k - b2z pe >=? SEM_VALUE_MAX) false.
  eexists. split; [done|]. kfields.
Qed.
End Kernel.

(** ** The states the two processes go through *)

(** The sum [1 + ... + i] the consumer has added up after [i] items. *)
Fixpoint sum_to (i : nat) : Z :=
  match i with O => 0 | S i' => sum_to i' + Z.of_nat i end.
#[local] Arguments sum_to i : simpl never.

Lemma sum_to_S i : sum_to (S i) = sum_to i + (Z.of_nat i + 1).
Proof. unfold sum_to. fold sum_to. lia. Qed.

Lemma sum_to_double i : 2 * sum_to i = Z.of_nat i * (Z.of_nat i + 1).
Proof. induction i as [|i IH]; [done|]. rewrite sum_to_S. lia. Qed.

Section Ring.
Context (cf : config) (ring : Z) (N : nat).
Hypothesis HN : Z.of_nat N * (Z.of_nat N + 1) <= INT_MAX.

(** The replies a process gets in one trip of its loop, for item [k]. *)
Definition prod_replies (k : nat) : list reply :=
  [ok 0; ok 0; ok 0; ok 0; ok (at_mod k); ok 0; ok (at_mod k); ok 0; ok 0].
Definition cons_replies (i : nat) : list reply :=
  [ok 0; ok 0; ok 0; ok 0; ok (at_mod i); ok (Z.of_nat i + 1); ok (at_mod i); ok 0; ok 0].

Definition prod_end : unit -> prog shm_call Z := fun _ =>
  wait_for_pid (pid_of cf 1) ;;; sys (ShmUnlink SHM_NAME) ;;; Ret 0.
Definition cons_end : Z -> prog shm_call Z := fun total =>
  proc (Printf (B "consumer total=" ++ fmt_d total ++ [LF])) ;;; proc Fflush ;;; Exit_ 0.

(** Where the producer is: in the trip for item [k], [j] calls into it, with
    [r] items to follow; or past its loop. *)
Inductive ppos : Type :=
| PItem (k r j : nat)
| PLoop
| PWait
| PUnlink
| PRet.

Definition pcode (p : ppos) : prog shm_call Z :=
  match p with
  | PItem k r j =>
      adv (take j (prod_replies k))
        (bind (for_ (S r) (Z.of_nat k + 1) (fun value => produce ring value)) prod_end)
  | PLoop => prod_end tt
  | PWait => adv [ok 0] (prod_end tt)
  | PUnlink => sys (ShmUnlink SHM_NAME) ;;; Ret 0
  | PRet => Ret 0
  end.

Inductive cpos : Type :=
| CItem (i r j : nat)
| CPrint
| CFlush
| CExit
| CDead
| CGone.

Definition ccode (c : cpos) : prog shm_call Z :=
  match c with
  | CItem i r j =>
      adv (take j (cons_replies i))
        (bind (for_acc (S r) (Z.of_nat i) (sum_to i) (fun _ total => consume ring total)) cons_end)
  | CPrint => cons_end (sum_to N)
  | CFlush => proc Fflush ;;; Exit_ 0
  | _ => Exit_ 0
  end.

Definition pnext (k r : nat) : ppos :=
  match r with O => PLoop | S r' => PItem (S k) r' 0 end.
Definition cnext (i r : nat) : cpos :=
  match r with O => CPrint | S r' => CItem (S i) r' 0 end.

(** How far each process is, as counters and flags of [kinv]. *)
Definition pitem (p : ppos) : nat := match p with PItem k _ _ => k | _ => N end.
Definition prank (p : ppos) : nat := match p with PItem _ _ j => j | _ => 0 end.
Definition citem (c : cpos) : nat := match c with CItem i _ _ => i | _ => N end.
Definition crank (c : cpos) : nat := match c with CItem _ _ j => j | _ => 0 end.
Definition inside (j : nat) : bool := (4 <=? j)%nat && (j <=? 8)%nat.

Definition kinv_at (p : ppos) (c : cpos) (s : shm) : Prop :=
  kinv ring (pitem p) (citem c)
    (2 <=? prank p)%nat (inside (prank p)) (6 <=? prank p)%nat (8 <=? prank p)%nat
    (2 <=? crank c)%nat (inside (crank c)) (8 <=? crank c)%nat s.

Definition text : bytes := B "consumer total=" ++ fmt_d (sum_to N) ++ [LF].

Definition pproc (p : ppos) : process shm_call := Process (Live (pcode p)) None [].

(** After the consumer's [printf] the text may still be in its stdio
    buffer [b]. *)
Definition cproc (c : cpos) (b : bytes) : process shm_call :=
  match c with
  | CDead => Process (Zombie 0) (Some 0%nat) []
  | CGone => Process Reaped (Some 0%nat) []
  | _ => Process (Live (ccode c)) (Some 0%nat) b
  end.

Definition pwf (p : ppos) : Prop :=
  match p with PItem k r j => (k + r + 1)%nat = N /\ (j <= 9)%nat | _ => True end.
Definition cwf (c : cpos) : Prop :=
  match c with CItem i r j => (i + r + 1)%nat = N /\ (j <= 9)%nat | _ => True end.
Definition printed (c : cpos) : bytes :=
  match c with CItem _ _ _ | CPrint => [] | _ => text end.

Record ring_inv (p : ppos) (c : cpos) (b : bytes) (w : world shm_call shm) : Prop := RingInv {
  ri_procs : procs w = [pproc p; cproc c b];
  ri_err : errout w = [];
  ri_out : out w ++ b = printed c;
  ri_flushed : match c with CFlush => True | _ => b = [] end;
  ri_pwf : pwf p;
  ri_cwf : cwf c;
  ri_end : match p with PUnlink | PRet => c = CGone | _ => c <> CGone end;
  ri_kern : c <> CGone -> kinv_at p c (kern w);
  ri_clean : p = PRet -> bound SHM_NAME (sh_names (kern w)) = false;
}.

Definition pmu (p : ppos) : nat :=
  match p with
  | PItem _ r j => 10 * r + (10 - j) + 10
  | PLoop => 5 | PWait => 4 | PUnlink => 3 | PRet => 2
  end.
Definition cmu (c : cpos) : nat :=
  match c with
  | CItem _ r j => 10 * r + (10 - j) + 10
  | CPrint => 5 | CFlush => 4 | CExit => 3 | CDead => 2 | CGone => 0
  end.

(** *** The producer *)

Lemma at_p p c b w : ring_inv p c b w -> procs w !! 0%nat = Some (pproc p).
Proof. intros H. by rewrite (ri_procs _ _ _ _ H). Qed.
Lemma at_c p c b w : ring_inv p c b w -> procs w !! 1%nat = Some (cproc c b).
Proof. intros H. by rewrite (ri_procs _ _ _ _ H). Qed.

(** A move of the producer inside its loop: it goes on with [q]. *)
Lemma prod_moved k r j c b w p' s' q :
  ring_inv (PItem k r j) c b w -> pcode p' = q -> kinv_at p' c s' ->
  pwf p' -> match p' with PItem _ _ _ | PLoop => True | _ => False end ->
  ring_inv p' c b (set_kern s' (resume 0 (pproc (PItem k r j)) q w)).
Proof.
  intros [] <- Hk Hwf Hp'. split; cbn; try done.
  - by rewrite ri_procs0.
  - by destruct p'.
  - by destruct p'.
Qed.

(** Where the producer goes on after [j] calls. *)
Definition psucc (k r j : nat) : ppos :=
  if (j <? 9)%nat then PItem k r (S j) else pnext k r.

Lemma psucc_ok k r j :
  pwf (PItem k r j) ->
  pwf (psucc k r j) /\ (pmu (psucc k r j) < pmu (PItem k r j))%nat /\
  match psucc k r j with PItem _ _ _ | PLoop => True | _ => False end.
Proof.
  unfold psucc. intros [Hk Hj]. destruct (Nat.ltb_spec j 9); cbn.
  - split; [lia|]. split; [lia|done].
  - destruct r; cbn; split; try done; lia.
Qed.

(** The producer's call number [j] and what follows its reply. *)
(** The code of the next call, once the slot and the index it depends on are
    known; and a call that returns, by what the kernel answers. *)
Ltac ring_code Hslot Hin Hrem :=
  first
    [ reflexivity
    | cbn -[Z.of_nat]; rewrite Hslot; reflexivity
    | cbn -[Z.of_nat]; rewrite Hslot; cbn -[Z.of_nat]; unfold int_add at 1; rewrite Hin; reflexivity
    | cbn; rewrite Hslot; cbn; unfold int_add at 1; rewrite Hin; cbn; rewrite Hrem; reflexivity ].
Ltac ring_returns Hp Hs Hslot Hin Hrem :=
  left; eexists _, _; split;
    [eapply run_sys_done; [exact Hp| |exact Hs]; ring_code Hslot Hin Hrem|];
  try (split; [ring_code Hslot Hin Hrem|done]).

Lemma prod_step k r j c b w :
  ring_inv (PItem k r j) c b w ->
  (exists s' q, run_step cf 0 w = Some (set_kern s' (resume 0 (pproc (PItem k r j)) q w)) /\
     pcode (psucc k r j) = q /\ kinv_at (psucc k r j) c s') \/
  (run_step cf 0 w = None /\
     ((j = 1%nat /\ (8 + citem c <= k)%nat) \/ (j = 3%nat /\ inside (crank c) = true))).
Proof.
  intros Hinv. pose proof (at_p _ _ _ _ Hinv) as Hp.
  pose proof (ri_pwf _ _ _ _ Hinv) as [Hkr Hj].
  pose proof (ri_kern _ _ _ _ Hinv (ri_end _ _ _ _ Hinv)) as Hk.
  pose proof (slot_at_mod k) as Hslot. destruct (at_mod_succ k) as [Hin Hrem].
  destruct j as [|[|[|[|[|[|[|[|[|[|j]]]]]]]]]]; [..|lia].
  1, 3: (* entering a retry loop *)
    left; eexists (kern w), _; split; [erewrite run_loop; [reflexivity|exact Hp|reflexivity]|done].
  - (* sem_wait empty *)
    pose proof (k_wait_empty ring 0 _ _ _ _ _ _ _ _ _ Hk) as H.
    case_bool_decide; [destruct H as (s' & Hs & Hk'); ring_returns Hp Hs Hslot Hin Hrem|].
    right. split; [eapply run_sys_block; [exact Hp|reflexivity|exact H]|left; cbn in *; lia].
  - (* sem_wait mutex *)
    pose proof (k_wait_mutex_p ring 0 _ _ _ _ _ _ _ _ _ Hk) as H.
    destruct (inside (crank c)) eqn:Hcm.
    + right. split; [eapply run_sys_block; [exact Hp|reflexivity|exact H]|by right].
    + destruct H as (s' & Hs & Hk'). ring_returns Hp Hs Hslot Hin Hrem.
      split; [done|]. unfold kinv_at. by rewrite Hcm.
  - (* load tail *)
    pose proof (k_load_tail ring 0 _ _ _ _ _ _ _ _ _ Hk) as Hs. ring_returns Hp Hs Hslot Hin Hrem.
  - (* store the slot *)
    destruct (k_store_slot ring 0 _ _ _ _ _ _ _ _ Hk) as (s' & Hs & Hk'). ring_returns Hp Hs Hslot Hin Hrem.
  - (* load tail again *)
    pose proof (k_load_tail ring 0 _ _ _ _ _ _ _ _ _ Hk) as Hs. ring_returns Hp Hs Hslot Hin Hrem.
  - (* store tail *)
    destruct (k_store_tail ring 0 _ _ _ _ _ _ _ _ _ Hk) as (s' & Hs & Hk'). ring_returns Hp Hs Hslot Hin Hrem.
  - (* post mutex *)
    destruct (k_post_mutex_p ring 0 _ _ _ _ _ _ _ _ _ Hk) as (s' & Hs & Hk'). ring_returns Hp Hs Hslot Hin Hrem.
  - (* post full *)
    destruct (k_post_full ring 0 _ _ _ _ _ _ Hk) as (s' & Hs & Hk').
    left. eexists s', _. split; [eapply run_sys_done; [exact Hp| |exact Hs]; ring_code Hslot Hin Hrem|].
    destruct r as [|r].
    + split; [reflexivity|]. unfold kinv_at. cbn. replace N with (S k) by lia. done.
    + split; [|done]. cbn -[Z.of_nat]. by rewrite Nat2Z.inj_succ, <- Z.add_1_r.
Qed.

(** *** The consumer *)

Definition csucc (i r j : nat) : cpos :=
  if (j <? 9)%nat then CItem i r (S j) else cnext i r.

Lemma csucc_ok i r j :
  cwf (CItem i r j) ->
  cwf (csucc i r j) /\ (cmu (csucc i r j) < cmu (CItem i r j))%nat /\
  match csucc i r j with CItem _ _ _ | CPrint => True | _ => False end.
Proof.
  unfold csucc. intros [Hk Hj]. destruct (Nat.ltb_spec j 9); cbn.
  - split; [lia|]. split; [lia|done].
  - destruct r; cbn; split; try done; lia.
Qed.

Lemma cons_moved p i r j b w c' s' q :
  ring_inv p (CItem i r j) b w -> ccode c' = q -> kinv_at p c' s' ->
  cwf c' -> match c' with CItem _ _ _ | CPrint => True | _ => False end ->
  ring_inv p c' b (set_kern s' (resume 1 (cproc (CItem i r j) b) q w)).
Proof.
  intros [] <- Hk Hwf Hc'. cbn in *. split; cbn; try done.
  - rewrite ri_procs0. by destruct c'.
  - by destruct c'.
  - by destruct c'.
  - by destruct p, c'.
  - intros ->. done.
Qed.

(** The addition [total += value] stays inside [int]. *)
Lemma total_in_int i : (i < N)%nat -> in_int (sum_to i + (Z.of_nat i + 1)) = true.
Proof.
  intros Hi. rewrite <- sum_to_S. pose proof (sum_to_double (S i)) as Hd.
  apply in_int_spec. unfold INT_MIN. split; nia.
Qed.

Lemma cons_step p i r j b w :
  ring_inv p (CItem i r j) b w ->
  (exists s' q, run_step cf 1 w = Some (set_kern s' (resume 1 (cproc (CItem i r j) b) q w)) /\
     ccode (csucc i r j) = q /\ kinv_at p (csucc i r j) s') \/
  (run_step cf 1 w = None /\
     ((j = 1%nat /\ (pitem p <= i)%nat) \/ (j = 3%nat /\ inside (prank p) = true))).
Proof.
  intros Hinv. pose proof (at_c _ _ _ _ Hinv) as Hp.
  pose proof (ri_cwf _ _ _ _ Hinv) as [Hkr Hj].
  pose proof (ri_kern _ _ _ _ Hinv ltac:(done)) as Hk.
  pose proof (slot_at_mod i) as Hslot. destruct (at_mod_succ i) as [Hin Hrem].
  destruct j as [|[|[|[|[|[|[|[|[|[|j]]]]]]]]]]; [..|lia].
  1, 3: (* entering a retry loop *)
    left; eexists (kern w), _; split; [erewrite run_loop; [reflexivity|exact Hp|reflexivity]|done].
  - (* sem_wait full *)
    pose proof (k_wait_full ring 1 _ _ _ _ _ _ _ _ _ Hk) as H.
    case_bool_decide; [destruct H as (s' & Hs & Hk'); ring_returns Hp Hs Hslot Hin Hrem|].
    right. split; [eapply run_sys_block; [exact Hp|reflexivity|exact H]|left; cbn in *; lia].
  - (* sem_wait mutex *)
    pose proof (k_wait_mutex_c ring 1 _ _ _ _ _ _ _ _ _ Hk) as H.
    destruct (inside (prank p)) eqn:Hcm.
    + right. split; [eapply run_sys_block; [exact Hp|reflexivity|exact H]|by right].
    + destruct H as (s' & Hs & Hk'). ring_returns Hp Hs Hslot Hin Hrem.
      split; [done|]. unfold kinv_at. by rewrite Hcm.
  - (* load head *)
    pose proof (k_load_head ring 1 _ _ _ _ _ _ _ _ _ Hk) as Hs. ring_returns Hp Hs Hslot Hin Hrem.
  - (* load the slot *)
    pose proof (k_load_slot ring 1 _ _ _ _ _ _ _ _ _ Hk) as Hs. ring_returns Hp Hs Hslot Hin Hrem.
  - (* load head again *)
    pose proof (k_load_head ring 1 _ _ _ _ _ _ _ _ _ Hk) as Hs. ring_returns Hp Hs Hslot Hin Hrem.
  - (* store head *)
    destruct (k_store_head ring 1 _ _ _ _ _ _ _ _ _ Hk) as (s' & Hs & Hk'). ring_returns Hp Hs Hslot Hin Hrem.
  - (* post mutex *)
    destruct (k_post_mutex_c ring 1 _ _ _ _ _ _ _ _ _ Hk) as (s' & Hs & Hk'). ring_returns Hp Hs Hslot Hin Hrem.
  - (* post empty *)
    destruct (k_post_empty ring 1 _ _ _ _ _ _ _ Hk) as (s' & Hs & Hk').
    left. eexists s', _. split; [eapply run_sys_done; [exact Hp| |exact Hs]; ring_code Hslot Hin Hrem|].
    cbn -[Z.of_nat]. unfold int_add. rewrite total_in_int, <- sum_to_S by lia.
    destruct r as [|r].
    + split; [|unfold kinv_at; cbn; replace N with (S i) by lia; done].
      cbn -[Z.of_nat]. replace N with (S i) by lia. reflexivity.
    + split; [|done]. cbn -[Z.of_nat]. by rewrite Nat2Z.inj_succ, <- Z.add_1_r.
Qed.

(** *** After the loops *)

Lemma cons_end_step p c b w :
  ring_inv p c b w -> match c with CPrint | CFlush | CExit => True | _ => False end ->
  exists c' b' w', run_step cf 1 w = Some w' /\ ring_inv p c' b' w' /\ (cmu c' < cmu c)%nat.
Proof.
  intros Hinv Hc. pose proof (at_c _ _ _ _ Hinv) as Hp.
  pose proof (ri_end _ _ _ _ Hinv) as Hend. destruct Hinv as [Hps He Ho Hfl Hpwf Hcwf _ Hk Hcl].
  destruct c; try done; cbn in Ho, Hfl.
  - subst b. rewrite app_nil_r in Ho.
    destruct (stdio_put cf [] text) as [fl rest] eqn:Hput.
    exists CFlush, rest. eexists. split.
    { erewrite run_proc; [|exact Hp|reflexivity]. cbn -[stdio_put]. fold text. rewrite Hput. reflexivity. }
    split; [|cbn; lia]. apply stdio_put_app in Hput. split; cbn; try done.
    + by rewrite Hps.
    + by rewrite Ho.
    + by destruct p.
    + intros _. by apply Hk.
  - exists CExit, []. eexists. split; [erewrite run_proc; [|exact Hp|reflexivity]; reflexivity|].
    split; [|cbn; lia]. split; cbn; try done.
    + by rewrite Hps.
    + by rewrite app_nil_r.
    + by destruct p.
    + intros _. by apply Hk.
  - subst b. exists CDead, []. eexists. split; [unfold run_step; rewrite Hp; reflexivity|].
    split; [|cbn; lia]. split; cbn; try done.
    + by rewrite Hps.
    + by destruct p.
    + intros _. by apply Hk.
Qed.

Lemma ring_wait_step c b w :
  ring_inv PWait c b w ->
  (c = CDead /\ exists w', run_step cf 0 w = Some w' /\ ring_inv PUnlink CGone [] w') \/
  (c <> CDead /\ run_step cf 0 w = None).
Proof.
  intros Hinv. pose proof (at_p _ _ _ _ Hinv) as Hp. pose proof (at_c _ _ _ _ Hinv) as Hc.
  pose proof (ri_end _ _ _ _ Hinv) as Hend. cbn in Hend.
  destruct Hinv as [Hps He Ho Hfl Hpwf Hcwf _ Hk Hcl].
  erewrite run_proc; [|exact Hp|reflexivity].
  destruct c; try done.
  all: try (right; split; [done|]; eapply waitpid_live; [exact Hc|reflexivity|reflexivity]).
  left. split; [done|]. eexists. split; [eapply waitpid_zombie; [exact Hc|reflexivity|reflexivity]|].
  subst b. split; cbn; try done.
  by rewrite Hps.
Qed.

Lemma unlink_step b w :
  ring_inv PUnlink CGone b w ->
  exists w', run_step cf 0 w = Some w' /\ ring_inv PRet CGone b w'.
Proof.
  intros Hinv. pose proof (at_p _ _ _ _ Hinv) as Hp.
  destruct (shm_unlink_spec 0 SHM_NAME (kern w)) as (r & s' & Hs & Hb).
  eexists. split; [eapply run_sys_done; [exact Hp|reflexivity|exact Hs]|].
  destruct Hinv. split; cbn; try done. by rewrite ri_procs0.
Qed.

(** *** All schedules *)

Definition ring_R (a : ppos * cpos * bytes) (w : world shm_call shm) : Prop :=
  ring_inv a.1.1 a.1.2 a.2 w.
Definition ring_mu (a : ppos * cpos * bytes) : nat := (pmu a.1.1 + cmu a.1.2)%nat.
Definition ring_done (w : world shm_call shm) : Prop :=
  finished 0 text w /\ bound SHM_NAME (sh_names (kern w)) = false.

Lemma prod_moves p c b w w' :
  ring_inv p c b w -> run_step cf 0 w = Some w' ->
  (exists a', ring_R a' w' /\ (ring_mu a' < ring_mu (p, c, b))%nat) \/ total cf w' ring_done.
Proof.
  intros Hinv Hs. destruct p as [k r j| | | |].
  - left. destruct (prod_step _ _ _ _ _ _ Hinv) as [(s' & q & Hs' & Hq & Hk)|[? _]]; [|congruence].
    destruct (psucc_ok k r j (ri_pwf _ _ _ _ Hinv)) as (Hwf & Hmu & Hp').
    exists (psucc k r j, c, b). unfold ring_mu. cbn -[pmu]. split; [|lia].
    rewrite Hs in Hs'. simplify_eq. by eapply prod_moved.
  - left. exists (PWait, c, b). split; [|unfold ring_mu; cbn; lia].
    erewrite run_loop in Hs; [|exact (at_p _ _ _ _ Hinv)|reflexivity]. simplify_eq.
    destruct Hinv. split; cbn; try done. by rewrite ri_procs0.
  - left. destruct (ring_wait_step _ _ _ Hinv) as [(-> & w1 & Hs' & Hi)|[_ ?]]; [|congruence].
    simplify_eq. exists (PUnlink, CGone, []). split; [done|]. unfold ring_mu. cbn. lia.
  - left. pose proof (ri_end _ _ _ _ Hinv). cbn in *. subst c.
    destruct (unlink_step _ _ Hinv) as (w1 & Hs' & Hi). simplify_eq.
    exists (PRet, CGone, b). split; [done|]. unfold ring_mu. cbn. lia.
  - right. pose proof (ri_end _ _ _ _ Hinv). cbn in *. subst c.
    unfold run_step in Hs. rewrite (at_p _ _ _ _ Hinv) in Hs. cbn in Hs. simplify_eq.
    destruct Hinv as [Hps He Ho Hfl _ _ _ _ Hcl]. cbn in *. subst b. rewrite app_nil_r in Ho.
    apply total_now.
    + apply halted_nf. unfold halted. cbn. rewrite Hps. repeat constructor.
    + split; [|by apply Hcl]. split; cbn; [exists []; by rewrite Hps|].
      by rewrite app_nil_r.
Qed.

Lemma cons_moves p c b w w' :
  ring_inv p c b w -> run_step cf 1 w = Some w' ->
  exists a', ring_R a' w' /\ (ring_mu a' < ring_mu (p, c, b))%nat.
Proof.
  intros Hinv Hs. destruct c as [i r j| | | | |].
  - destruct (cons_step _ _ _ _ _ _ Hinv) as [(s' & q & Hs' & Hq & Hk)|[? _]]; [|congruence].
    destruct (csucc_ok i r j (ri_cwf _ _ _ _ Hinv)) as (Hwf & Hmu & Hp').
    exists (p, csucc i r j, b). unfold ring_mu. cbn -[cmu]. split; [|lia].
    rewrite Hs in Hs'. simplify_eq. by eapply cons_moved.
  - destruct (cons_end_step _ _ _ _ Hinv I) as (c' & b' & w1 & Hs' & Hi & Hmu).
    simplify_eq. exists (p, c', b'). split; [done|]. unfold ring_mu. cbn -[cmu] in *. lia.
  - destruct (cons_end_step _ _ _ _ Hinv I) as (c' & b' & w1 & Hs' & Hi & Hmu).
    simplify_eq. exists (p, c', b'). split; [done|]. unfold ring_mu. cbn -[cmu] in *. lia.
  - destruct (cons_end_step _ _ _ _ Hinv I) as (c' & b' & w1 & Hs' & Hi & Hmu).
    simplify_eq. exists (p, c', b'). split; [done|]. unfold ring_mu. cbn -[cmu] in *. lia.
  - by erewrite run_dead in Hs by (apply (at_c _ _ _ _ Hinv) || done).
  - by erewrite run_dead in Hs by (apply (at_c _ _ _ _ Hinv) || done).
Qed.

(** The consumer can move whenever the producer waits for it. *)
Lemma cons_can_move p c b w :
  ring_inv p c b w -> c <> CDead -> c <> CGone -> inside (prank p) = false ->
  (citem c < pitem p)%nat \/ citem c = N ->
  red (step cf) w.
Proof.
  intros Hinv Hd Hg Hin Hlt. destruct c as [i r j| | | | |]; try done.
  2-4: destruct (cons_end_step _ _ _ _ Hinv I) as (c' & b' & w1 & Hs' & _); by exists w1, 1%nat.
  pose proof (ri_cwf _ _ _ _ Hinv) as [Hi _]. cbn in Hlt.
  destruct (cons_step _ _ _ _ _ _ Hinv) as [(s' & q & Hs' & _)|(_ & [[_ ?]|[_ ?]])].
  - by eexists _, 1%nat.
  - lia.
  - congruence.
Qed.

Lemma ring_progress a w : ring_R a w -> red (step cf) w.
Proof.
  destruct a as [[p c] b]. unfold ring_R. cbn. intros Hinv.
  destruct p as [k r j| | | |].
  - destruct (prod_step _ _ _ _ _ _ Hinv) as [(s' & q & Hs' & _)|(_ & [[-> Hle]|[-> Hcm]])].
    + by eexists _, 0%nat.
    + pose proof (ri_end _ _ _ _ Hinv). pose proof (ri_pwf _ _ _ _ Hinv) as [? _].
      eapply cons_can_move; [exact Hinv|intros ->; cbn in Hle; lia|done|done|cbn; lia].
    + pose proof (ri_end _ _ _ _ Hinv) as He. cbn in He.
      destruct c as [i r' j| | | | |]; try done.
      destruct (cons_step _ _ _ _ _ _ Hinv) as [(s' & q & Hs' & _)|(_ & [[-> _]|[-> _]])]; try done.
      by eexists _, 1%nat.
  - eexists _, 0%nat. eapply run_loop; [apply (at_p _ _ _ _ Hinv)|reflexivity].
  - destruct (ring_wait_step _ _ _ Hinv) as [(-> & w1 & Hs' & Hi)|[Hnd _]]; [by exists w1, 0%nat|].
    eapply cons_can_move; [exact Hinv|done|apply (ri_end _ _ _ _ Hinv)|done|].
    pose proof (ri_cwf _ _ _ _ Hinv). destruct c; cbn in *; lia.
  - pose proof (ri_end _ _ _ _ Hinv). cbn in *. subst c.
    destruct (unlink_step _ _ Hinv) as (w1 & Hs' & Hi). by exists w1, 0%nat.
  - eexists _, 0%nat. unfold run_step. rewrite (at_p _ _ _ _ Hinv). reflexivity.
Qed.

(** From a correct state every schedule ends with the right total. *)
Lemma ring_total p c b w : ring_inv p c b w -> total cf w ring_done.
Proof.
  intros Hinv. eapply (total_sim cf ring_R ring_mu ring_done) with (a := (p, c, b)); [| |exact Hinv].
  - apply ring_progress.
  - intros [[p' c'] b'] u i u' Hu Hs. destruct i as [|[|i]].
    + by eapply prod_moves.
    + left. by eapply cons_moves.
    + unfold run_step in Hs. by rewrite (ri_procs _ _ _ _ Hu) in Hs.
Qed.
End Ring.

(** The state [fork] leaves: the semaphores initialised, both processes at
    the start of their loops. *)
Lemma ring_start cf (T : world shm_call shm -> Prop) ring s :
  backward cf T ->
  (forall w, ring_inv cf ring ITEMS (PItem 0 19 0) (CItem 0 19 0) [] w -> T w) ->
  (forall c, (c < sizeof_ring)%nat -> cell_at s ring c = Some 0) -> 0 <= ring ->
  T (World [Process (Live (init_ring ring ;;;
              child <- proc Fork ;;
              if rv child =? 0 then consumer ring ITEMS
              else producer ring (rv child) ITEMS)) None []] s [] []).
Proof.
  intros HT Hinv Hcells Hring.
  set (s0 := set_objs s (alter (fun l => replicate (length l) 0) (Z.to_nat ring) (sh_objs s))).
  assert (H0 : forall c, (c < sizeof_ring)%nat -> cell_at s0 ring c = Some 0).
  { intros c Hc. specialize (Hcells c Hc). revert Hcells. unfold cell_at. cbn.
    destruct (ring <? 0); [done|]. rewrite list_lookup_alter_eq.
    destruct (sh_objs s !! Z.to_nat ring) as [l|]; cbn; [|done].
    intros Hl. apply lookup_replicate_2. by eapply lookup_lt_Some. }
  unfold sizeof_ring in H0.
  eapply (back_sys cf T); [exact HT|reflexivity|]. fold s0.
  eapply (back_sys cf T); [exact HT|cbn; rewrite (H0 empty) by cell_ne; reflexivity|].
  eapply (back_sys cf T); [exact HT|cbn; rewrite cell_at_set_ne, (H0 full) by cell_ne; reflexivity|].
  eapply (back_sys cf T); [exact HT|cbn; rewrite !cell_at_set_ne, (H0 mutex) by cell_ne; reflexivity|].
  eapply HT; [reflexivity|reflexivity|]. apply Hinv.
  split; cbn; try done; try (unfold ITEMS; lia).
  intros _.
  assert (Hset : forall c, (3 <= c < 13)%nat -> cell_at (set_cell (set_cell (set_cell s0 ring empty CAPACITY) ring full 0) ring mutex 1) ring c = Some 0).
  { intros c Hc. rewrite !cell_at_set_ne by cell_ne. apply H0. lia. }
  split; try done.
  - rewrite !cell_at_set_ne by cell_ne. apply cell_at_set. rewrite H0 by cell_ne. eauto.
  - rewrite cell_at_set_ne by cell_ne. apply cell_at_set.
    rewrite cell_at_set_ne, H0 by cell_ne. eauto.
  - apply cell_at_set. rewrite !cell_at_set_ne, H0 by cell_ne. eauto.
  - apply (Hset 3%nat). lia.
  - apply (Hset 4%nat). lia.
  - intros n Hn. cbn in Hn. lia.
  - intros n. pose proof (slot_of_ge n). eexists. apply Hset. lia.
Qed.

Lemma ring_every_schedule cf s0 : total cf (boot main s0) (ring_done ITEMS).
Proof.
  apply map_new_object_total. intros s reg Hreg Hcells.
  apply (ring_start cf (fun w => total cf w (ring_done ITEMS))); [apply backward_total| |done..].
  intros w. by apply ring_total.
Qed.

(** C1. [posix_shm_ring_sem.c] is a correct bounded buffer under every
    schedule: from any state of the shared-memory name space, however the
    producer and the consumer are interleaved, neither deadlock nor
    undefined behaviour occurs, the program terminates and prints
    [consumer total=210], the sum of the items, exits with 0, reaps its child
    and leaves no shared-memory name behind.  (That every item is read exactly
    once and in order is shown in [RingSpec].) *)
Theorem ring_correct cf s0 :
  total cf (boot main s0) (fun w =>
    finished 0 (ln "consumer total=210") w /\ bound SHM_NAME (sh_names (kern w)) = false).
Proof. apply ring_every_schedule. Qed.

(** One schedule: the producer runs when it can, else the consumer. *)
Example ring_greedy :
  let w := first_run (Config false 100) 2 1000 (boot main (ShmState [] [] [] [])) in
  out w = ln "consumer total=210" /\ sh_names (kern w) = [].
Proof. vm_compute. split; reflexivity. Qed.
