(* ===== verification/RingSpec.v ===== *)
(** * RingSpec: the ring as a bounded queue

    What the shared memory of [SharedMemory/posix_shm_ring_sem.c] promises,
    apart from any program text: a first-in first-out queue of at most
    [CAPACITY] items.  The program refines it: whatever the schedule, the
    writes and reads of the slots, in the order in which they happen, are a
    run of the queue; they transfer the items in order, each exactly once. *)

From S2P Require Import Prelude Posix Shm Ring.

(** ** The abstract queue *)

(** What a process does to the queue. *)
Inductive access : Type :=
| Put (x : Z)
| Get (x : Z).

(** What is in the queue, and what has been taken from it. *)
Record fifo := Fifo { contents : list Z; received : list Z }.

Inductive fifo_step : fifo -> access -> fifo -> Prop :=
| fifo_put x l r : Z.of_nat (length l) < CAPACITY -> fifo_step (Fifo l r) (Put x) (Fifo (l ++ [x]) r)
| fifo_get x l r : fifo_step (Fifo (x :: l) r) (Get x) (Fifo l (r ++ [x])).

Inductive fifo_run (f0 : fifo) : list access -> fifo -> Prop :=
| fifo_start : fifo_run f0 [] f0
| fifo_snoc tr f a f' : fifo_run f0 tr f -> fifo_step f a f' -> fifo_run f0 (tr ++ [a]) f'.

Definition puts (tr : list access) : list Z := omap (fun a => match a with Put x => Some x | _ => None end) tr.
Definition gets (tr : list access) : list Z := omap (fun a => match a with Get x => Some x | _ => None end) tr.

(** A run of the queue: what came out is what the gets returned, and went in
    before, in the same order. *)
Lemma fifo_run_order tr f :
  fifo_run (Fifo [] []) tr f -> received f = gets tr /\ puts tr = gets tr ++ contents f.
Proof.
  induction 1 as [|tr f a f' _ [IHg IHp] Hs]; [done|]. unfold puts, gets in *. rewrite !omap_app.
  destruct Hs as [x l r Hlt|x l r]; cbn in *; rewrite IHp, ?app_nil_r; split; subst; try done.
  - by rewrite <- app_assoc.
  - by rewrite <- app_assoc.
Qed.

(** ** The accesses of the program *)

(** What process [i] is about to do to a slot of the ring, once the consumer
    exists: write a value, or read the one it finds. *)
Definition accesses (i : nat) (w : world shm_call shm) : list access :=
  match procs w with
  | [_; _] =>
      match p_stat <$> procs w !! i with
      | Some (Live (Sys (Store _ c x) _)) => if (slots <=? c)%nat then [Put x] else []
      | Some (Live (Sys (Load ring c) _)) =>
          if (slots <=? c)%nat then
            match kexec i (Load ring c) (kern w) with Done r _ => [Get (rv r)] | _ => [] end
          else []
      | _ => []
      end
  | _ => []
  end.

(** An execution from [w] with the accesses it made. *)
Inductive traced (cf : config) (w : world shm_call shm) : list access -> world shm_call shm -> Prop :=
| traced_start : traced cf w [] w
| traced_step i w1 tr w' :
    run_step cf i w = Some w1 -> traced cf w1 tr w' -> traced cf w (accesses i w ++ tr) w'.

(** The shared memory holds the queue [f]: its items lie in consecutive slots
    of the ring, after those that have been taken; the semaphores count them
    and the free slots, except that each process may be at most one ahead or
    behind; and whenever the mutex is free, [head] and [tail] are at the
    first item and after the last one. *)
Record represents (ring : Z) (s : shm) (f : fifo) : Prop := {
  r_slots : forall n x, contents f !! n = Some x ->
    cell_at s ring (slot_of (length (received f) + n)) = Some x;
  r_full : exists v, cell_at s ring full = Some v /\
    0 <= v /\ Z.of_nat (length (contents f)) - 2 <= v <= Z.of_nat (length (contents f));
  r_empty : exists v, cell_at s ring empty = Some v /\
    0 <= v /\ CAPACITY - Z.of_nat (length (contents f)) - 2 <= v <= CAPACITY - Z.of_nat (length (contents f));
  r_mutex : cell_at s ring mutex = Some 0 \/
    (cell_at s ring mutex = Some 1 /\
     cell_at s ring head = Some (at_mod (length (received f))) /\
     cell_at s ring tail = Some (at_mod (length (received f) + length (contents f))));
}.

(** ** The states of the program *)

(** The items [i + 1], ..., [k]. *)
Definition items (i k : nat) : list Z := (fun n => Z.of_nat n + 1) <$> seq i (k - i).
Definition fifo_of (i k : nat) : fifo := Fifo (items i k) (items 0 i).

Lemma items_length i k : length (items i k) = (k - i)%nat.
Proof. unfold items. by rewrite length_fmap, length_seq. Qed.

Lemma items_put i k : (i <= k)%nat -> items i (S k) = items i k ++ [Z.of_nat k + 1].
Proof.
  intros Hi. unfold items. replace (S k - i)%nat with (S (k - i)) by lia.
  rewrite seq_S, fmap_app. by replace (i + (k - i))%nat with k by lia.
Qed.

Lemma items_get i k : (i < k)%nat -> items i k = (Z.of_nat i + 1) :: items (S i) k.
Proof. intros Hi. unfold items. by replace (k - i)%nat with (S (k - S i)) by lia. Qed.

Lemma items_prefix k n : (k <= n)%nat -> items 0 k `prefix_of` items 0 n.
Proof.
  intros Hk. exists (items k n). unfold items. rewrite <- fmap_app, !Nat.sub_0_r.
  f_equal. rewrite <- (seq_app k (n - k) 0 : _ = seq 0 k ++ seq k (n - k)).
  by replace (k + (n - k))%nat with n by lia.
Qed.

Lemma fifo_of_put i k :
  (i <= k)%nat -> (k < 8 + i)%nat -> fifo_step (fifo_of i k) (Put (Z.of_nat k + 1)) (fifo_of i (S k)).
Proof.
  intros Hi Hk. unfold fifo_of. rewrite items_put by done. constructor.
  rewrite items_length. unfold CAPACITY. lia.
Qed.

Lemma fifo_of_get i k : (i < k)%nat -> fifo_step (fifo_of i k) (Get (Z.of_nat i + 1)) (fifo_of (S i) k).
Proof.
  intros Hi. unfold fifo_of. rewrite (items_get i k), (items_put 0 i) by lia. constructor.
Qed.

(** ** The simulation *)

#[export] Instance ppos_eq_dec : EqDecision ppos.
Proof. solve_decision. Defined.

Section Sim.
Context (cf : config) (ring : Z) (N : nat).
Hypothesis HN : Z.of_nat N * (Z.of_nat N + 1) <= INT_MAX.

Abbreviation inv := (ring_inv cf ring N).

(** The items written and read: a trip's sixth call is the one on the slot. *)
Definition stored (p : ppos) : nat := (pitem N p + b2n (6 <=? prank p)%nat)%nat.
Definition loaded (c : cpos) : nat := (citem N c + b2n (6 <=? crank c)%nat)%nat.
Definition queue_of (p : ppos) (c : cpos) : fifo := fifo_of (loaded c) (stored p).

(** The trace so far is a run of the queue that has put the items in order. *)
Definition so_far (tr : list access) (i k : nat) : Prop :=
  fifo_run (Fifo [] []) tr (fifo_of i k) /\ puts tr = items 0 k /\ (k <= N)%nat.

Lemma so_far_put tr i k :
  so_far tr i k -> (i <= k)%nat -> (k < 8 + i)%nat -> (k < N)%nat -> so_far (tr ++ [Put (Z.of_nat k + 1)]) i (S k).
Proof.
  intros (Hr & Hp & _) Hi Hk HkN. split_and!; [|unfold puts in *; by rewrite omap_app, Hp, items_put by lia|lia].
  eapply fifo_snoc; [exact Hr|by apply fifo_of_put].
Qed.

Lemma so_far_get tr i k : so_far tr i k -> (i < k)%nat -> so_far (tr ++ [Get (Z.of_nat i + 1)]) (S i) k.
Proof.
  intros (Hr & Hp & Hk) Hi. split_and!; [|unfold puts in *; by rewrite omap_app, app_nil_r|done].
  eapply fifo_snoc; [exact Hr|by apply fifo_of_get].
Qed.

(** The counters, from the semaphores. *)
Lemma counts p c b w :
  inv p c b w -> c <> CGone ->
  (citem N c <= loaded c <= pitem N p)%nat /\ (stored p <= 8 + citem N c)%nat /\
  ((2 <= prank p)%nat -> pitem N p < 8 + citem N c)%nat /\
  ((2 <= crank c)%nat -> citem N c < pitem N p)%nat.
Proof.
  intros Hi Hc. destruct (ri_kern _ _ _ _ _ _ _ Hi Hc) as [_ He _ Hf _ _ _ _ _ _].
  unfold loaded, stored, CAPACITY in *. revert He Hf.
  destruct (Nat.leb_spec 2 (prank p)), (Nat.leb_spec 2 (crank c)),
    (Nat.leb_spec 6 (prank p)), (Nat.leb_spec 6 (crank c)); cbn; lia.
Qed.

Lemma kinv_represents p c b w : inv p c b w -> c <> CGone -> represents ring (kern w) (queue_of p c).
Proof.
  intros Hi Hc. pose proof (counts _ _ _ _ Hi Hc) as (Hl & Hs & Hp2 & Hc2).
  pose proof (ri_pwf _ _ _ _ _ _ _ Hi) as Hpw. pose proof (ri_cwf _ _ _ _ _ _ _ Hi) as Hcw.
  destruct (ri_kern _ _ _ _ _ _ _ Hi Hc) as [He He0 Hf Hf0 Hm Hx Hh Ht Hsl _].
  assert (Hps : (pitem N p <= stored p)%nat) by (unfold stored; lia).
  unfold queue_of, fifo_of. split; cbn [contents received]; rewrite ?items_length, ?Nat.sub_0_r.
  - intros n x Hn. unfold items in Hn. rewrite list_lookup_fmap in Hn.
    apply fmap_Some in Hn as (m & Hm' & ->). apply lookup_seq in Hm' as [-> Hn].
    apply Hsl. unfold stored in Hn. lia.
  - eexists. split; [exact Hf|]. split; [done|]. unfold loaded, stored in *.
    revert Hf0. destruct (Nat.leb_spec 2 (crank c)), (Nat.leb_spec 6 (prank p)), (Nat.leb_spec 6 (crank c));
      cbn [b2z b2n] in *; lia.
  - eexists. split; [exact He|]. split; [done|]. unfold loaded, stored, CAPACITY in *.
    revert He0. destruct (Nat.leb_spec 2 (prank p)), (Nat.leb_spec 6 (prank p)), (Nat.leb_spec 6 (crank c));
      cbn [b2z b2n] in *; lia.
  - destruct (inside (prank p)) eqn:Ep; [left; rewrite Hm; destruct (inside (crank c)); done|].
    destruct (inside (crank c)) eqn:Ec; [left; by rewrite Hm|]. right. split; [done|].
    replace (loaded c + (stored p - loaded c))%nat with (stored p) by lia.
    assert (Hj : forall j, (j <= 9)%nat -> inside j = false -> (6 <=? j)%nat = (8 <=? j)%nat).
    { intros j Hj. unfold inside. destruct (Nat.leb_spec 4 j), (Nat.leb_spec j 8), (Nat.leb_spec 6 j), (Nat.leb_spec 8 j);
        cbn; try done; lia. }
    unfold loaded, stored. rewrite !Hj; [done| |done| |done].
    + by destruct p; cbn in *; try lia.
    + by destruct c; cbn in *; try lia.
Qed.

(** The accesses of the two processes, by their place in the code. *)
Lemma prod_accesses p c b w :
  inv p c b w ->
  accesses 0 w = match p with PItem k _ j => if (j =? 5)%nat then [Put (Z.of_nat k + 1)] else [] | _ => [] end.
Proof.
  intros Hi. unfold accesses. rewrite (ri_procs _ _ _ _ _ _ _ Hi). cbn [lookup list_lookup fmap option_fmap option_map].
  destruct p as [k r j| | | |]; [|done..]. pose proof (ri_pwf _ _ _ _ _ _ _ Hi) as [_ Hj].
  pose proof (slot_at_mod k) as Hslot. destruct (at_mod_succ k) as [Hin Hrem].
  destruct j as [|[|[|[|[|[|[|[|[|[|j]]]]]]]]]]; try done; try lia.
  all: cbn; rewrite Hslot; cbn; try done; unfold int_add; by rewrite Hin.
Qed.

Lemma cons_accesses p c b w :
  inv p c b w ->
  accesses 1 w = match c with CItem i _ j => if (j =? 5)%nat then [Get (Z.of_nat i + 1)] else [] | _ => [] end.
Proof.
  intros Hi. unfold accesses. rewrite (ri_procs _ _ _ _ _ _ _ Hi). cbn [lookup list_lookup fmap option_fmap option_map].
  destruct c as [i r j| | | | |]; [|done..]. pose proof (ri_cwf _ _ _ _ _ _ _ Hi) as [_ Hj].
  pose proof (slot_at_mod i) as Hslot. destruct (at_mod_succ i) as [Hin Hrem].
  destruct j as [|[|[|[|[|[|[|[|[|[|j]]]]]]]]]]; try done; try lia.
  all: cbn; rewrite Hslot; cbn; try done; try (unfold int_add at 1; by rewrite Hin).
  pose proof (k_load_slot ring 1 _ _ _ _ _ _ _ _ _ (ri_kern _ _ _ _ _ _ _ Hi ltac:(done))) as Hs.
  cbn in Hs. by destruct (cell_at _ _ _); simplify_eq/=.
Qed.

(** Every step of the program takes its accesses to the queue. *)
Definition on (tr : list access) (w' : world shm_call shm) : Prop :=
  exists p' c' b', inv p' c' b' w' /\ so_far tr (loaded c') (stored p').

Lemma stored_succ k r j :
  pwf N (PItem k r j) -> stored (psucc k r j) = if (j =? 5)%nat then S k else stored (PItem k r j).
Proof.
  intros [Hk Hj]. unfold psucc, stored. destruct j as [|[|[|[|[|[|[|[|[|[|j]]]]]]]]]]; cbn; try lia.
  destruct r; cbn; lia.
Qed.
Lemma loaded_succ i r j :
  cwf N (CItem i r j) -> loaded (csucc i r j) = if (j =? 5)%nat then S i else loaded (CItem i r j).
Proof.
  intros [Hk Hj]. unfold csucc, loaded. destruct j as [|[|[|[|[|[|[|[|[|[|j]]]]]]]]]]; cbn; try lia.
  destruct r; cbn; lia.
Qed.

Lemma prod_sim p c b w w' tr :
  inv p c b w -> so_far tr (loaded c) (stored p) -> p <> PRet -> run_step cf 0 w = Some w' ->
  on (tr ++ accesses 0 w) w'.
Proof.
  intros Hi Ht Hp Hs. rewrite (prod_accesses _ _ _ _ Hi). destruct p as [k r j| | | |]; [..|done].
  - destruct (prod_step _ _ _ _ _ _ _ _ _ Hi) as [(s' & q & Hs' & Hq & Hk)|[? _]]; [|congruence].
    pose proof (ri_pwf _ _ _ _ _ _ _ Hi) as Hpw. destruct (psucc_ok N k r j Hpw) as (Hwf & _ & Hp').
    exists (psucc k r j), c, b. rewrite Hs in Hs'. simplify_eq. split; [by eapply prod_moved|].
    rewrite (stored_succ _ _ _ Hpw). destruct (Nat.eqb_spec j 5) as [->|]; [|by rewrite app_nil_r].
    destruct (counts _ _ _ _ Hi (ri_end _ _ _ _ _ _ _ Hi)) as (Hl & _ & H2 & _). cbn in Hl, H2, Hpw.
    apply so_far_put; [|lia..]. unfold stored in Ht. cbn in Ht. by rewrite Nat.add_0_r in Ht.
  - rewrite app_nil_r. exists PWait, c, b. split; [|done].
    erewrite run_loop in Hs; [|exact (at_p _ _ _ _ _ _ _ Hi)|reflexivity]. simplify_eq.
    destruct Hi. split; cbn; try done. by rewrite ri_procs.
  - rewrite app_nil_r. destruct (ring_wait_step _ _ _ _ _ _ Hi) as [(-> & w1 & Hs' & Hi')|[_ ?]]; [|congruence].
    simplify_eq. exists PUnlink, CGone, []. done.
  - rewrite app_nil_r. pose proof (ri_end _ _ _ _ _ _ _ Hi). cbn in *. subst c.
    destruct (unlink_step _ _ _ _ _ Hi) as (w1 & Hs' & Hi'). simplify_eq. by exists PRet, CGone, b.
Qed.

Lemma cons_sim p c b w w' tr :
  inv p c b w -> so_far tr (loaded c) (stored p) -> run_step cf 1 w = Some w' ->
  on (tr ++ accesses 1 w) w'.
Proof.
  intros Hi Ht Hs. rewrite (cons_accesses _ _ _ _ Hi).
  assert (Hend : match c with CPrint | CFlush | CExit => True | _ => False end -> on (tr ++ []) w').
  { intros Hc. rewrite app_nil_r.
    destruct (cons_end_step _ _ _ _ _ _ _ Hi Hc) as (c' & b' & w1 & Hs' & Hi' & Hmu). simplify_eq.
    exists p, c', b'. split; [done|]. replace (loaded c') with (loaded c); [done|].
    destruct c; try done; destruct c'; cbn in Hmu; (done || lia). }
  destruct c as [i r j| | | | |]; [|by apply Hend..| |].
  - destruct (cons_step _ _ _ HN _ _ _ _ _ _ Hi) as [(s' & q & Hs' & Hq & Hk)|[? _]]; [|congruence].
    pose proof (ri_cwf _ _ _ _ _ _ _ Hi) as Hcw. destruct (csucc_ok N i r j Hcw) as (Hwf & _ & Hp').
    exists p, (csucc i r j), b. rewrite Hs in Hs'. simplify_eq. split; [by eapply cons_moved|].
    rewrite (loaded_succ _ _ _ Hcw). destruct (Nat.eqb_spec j 5) as [->|]; [|by rewrite app_nil_r].
    destruct (counts _ _ _ _ Hi ltac:(done)) as (_ & _ & _ & H2). cbn in H2.
    apply so_far_get; [|unfold stored; lia]. unfold loaded in Ht. cbn in Ht. by rewrite Nat.add_0_r in Ht.
  - by erewrite run_dead in Hs by (apply (at_c _ _ _ _ _ _ _ Hi) || done).
  - by erewrite run_dead in Hs by (apply (at_c _ _ _ _ _ _ _ Hi) || done).
Qed.

(** The consumer has not been reaped. *)
Definition consumer_there (w : world shm_call shm) : Prop :=
  exists p c, procs w = [p; c] /\ p_stat c <> Reaped.

(** The states of a run and the accesses that led there: described, or after
    the end. *)
Definition described (tr : list access) (w : world shm_call shm) : Prop :=
  on tr w \/
  ((exists p c, procs w = [p; c] /\ p_stat c = Reaped /\ is_live p = false) /\ so_far tr N N).

Lemma described_step tr w i w' :
  described tr w -> run_step cf i w = Some w' -> described (tr ++ accesses i w) w'.
Proof.
  intros [(p & c & b & Hi & Ht)|[(p & c & Hp & Hc & Hl) Ht]] Hs.
  - destruct i as [|[|i]]; [|left; by eapply cons_sim|].
    2: { unfold run_step in Hs. by rewrite (ri_procs _ _ _ _ _ _ _ Hi) in Hs. }
    destruct (decide (p = PRet)) as [->|Hne]; [|left; by eapply prod_sim].
    right. rewrite (prod_accesses _ _ _ _ Hi), app_nil_r. pose proof (ri_end _ _ _ _ _ _ _ Hi). cbn in *. subst c.
    unfold run_step in Hs. rewrite (at_p _ _ _ _ _ _ _ Hi) in Hs. cbn in Hs. simplify_eq. split.
    + eexists _, _. cbn. rewrite (ri_procs _ _ _ _ _ _ _ Hi). cbn. split_and!; reflexivity.
    + unfold loaded, stored in Ht. cbn in Ht. by rewrite Nat.add_0_r in Ht.
  - exfalso. unfold run_step in Hs. rewrite Hp in Hs.
    destruct i as [|[|i]]; cbn in Hs; [|by rewrite Hc in Hs|done].
    unfold is_live in Hl. by destruct (p_stat p).
Qed.

Lemma described_traced tr w tr' w' : described tr w -> traced cf w tr' w' -> described (tr ++ tr') w'.
Proof.
  intros Hd Ht. revert tr Hd. induction Ht as [w|w i w1 tr' w' Hs _ IH]; intros tr Hd.
  - by rewrite app_nil_r.
  - rewrite app_assoc. apply IH. by apply described_step.
Qed.

(** What the theorem says of a state and the accesses that led to it. *)
Definition refines (tr : list access) (w : world shm_call shm) : Prop :=
  exists f, fifo_run (Fifo [] []) tr f /\ puts tr `prefix_of` items 0 N /\
    (consumer_there w -> represents ring (kern w) f) /\
    (nf (step cf) w -> received f = items 0 N).

Lemma described_refines tr w : described tr w -> refines tr w.
Proof.
  intros [(p & c & b & Hi & Hr & Hp & Hk)|[(p & c & Hp & Hc & _) (Hr & Hpt & _)]].
  - exists (queue_of p c). split; [done|]. split; [rewrite Hp; by apply items_prefix|]. split.
    + intros (p' & c' & Hp' & Hc'). eapply kinv_represents; [exact Hi|]. intros ->.
      rewrite (ri_procs _ _ _ _ _ _ _ Hi) in Hp'. by simplify_eq.
    + intros []. eapply (ring_progress cf ring N HN (p, c, b)). exact Hi.
  - exists (fifo_of N N). split; [done|]. split; [by rewrite Hpt|]. split; [|done].
    intros (p' & c' & Hp' & Hc'). rewrite Hp in Hp'. by simplify_eq.
Qed.
End Sim.

(** What holds of the described states holds of every reachable state with
    both processes. *)
Lemma traced_reaches cf w tr w' : traced cf w tr w' -> rtc (step cf) w w'.
Proof. induction 1 as [|w i w1 tr w' Hs _ IH]; [constructor|]. eapply rtc_l; [by exists i|done]. Qed.

Lemma reaches_traced cf w w' : rtc (step cf) w w' -> exists tr, traced cf w tr w'.
Proof.
  induction 1 as [w|w w1 w' [i Hs] _ [tr IH]]; [exists []; constructor|].
  exists (accesses i w ++ tr). by econstructor.
Qed.

(** Before the fork there is one process, which makes no access. *)
Lemma backward_traced cf (I : list access -> world shm_call shm -> Prop) :
  (forall w w1 p, procs w = [p] -> run_step cf 0 w = Some w1 -> I [] w) ->
  backward cf (fun w => forall tr w', traced cf w tr w' -> I tr w').
Proof.
  intros HI p w w1 Hp Hs Ha tr w' Ht. destruct Ht as [|i w2 tr w' Hs' Ht]; [by eapply HI|].
  destruct i as [|i]; [|unfold run_step in Hs'; rewrite Hp in Hs'; simplify_eq/=].
  simplify_eq. unfold accesses. rewrite Hp. by apply Ha.
Qed.

Lemma ring_always cf s0 (I : list access -> world shm_call shm -> Prop) :
  (forall w w1 p, procs w = [p] -> run_step cf 0 w = Some w1 -> I [] w) ->
  (forall ring tr w, described cf ring ITEMS tr w -> I tr w) ->
  forall tr w, traced cf (boot main s0) tr w -> I tr w.
Proof.
  intros H1 H2. pose proof (backward_traced cf I H1) as HT.
  apply (map_new_object_back cf _ _ _ _ _ _ _ HT). intros s ring Hring Hcells.
  apply (ring_start cf _ _ _ HT); [|done..]. intros w Hi tr w' Ht. apply (H2 ring).
  apply (described_traced cf ring ITEMS ltac:(unfold ITEMS, INT_MAX; lia) [] w); [|done].
  left. eexists _, _, _. split; [exact Hi|]. split; [constructor|]. split; [done|]. unfold ITEMS, stored. cbn. lia.
Qed.

(** C2. [posix_shm_ring_sem.c] refines the bounded queue.  In every execution,
    the writes and reads of the slots, in the order in which they happen, are
    a run of a first-in first-out queue of at most [CAPACITY] items: every
    read returns the oldest value written and not yet read.  The values
    written are 1, 2, 3, ... in order.  Until the consumer has been reaped
    the shared memory is that of the queue, with [head] and [tail] at its ends
    whenever the mutex is free; and when the program has ended, every item has
    been read exactly once, in order. *)
Theorem ring_refines_fifo cf s0 tr w :
  traced cf (boot main s0) tr w ->
  exists f, fifo_run (Fifo [] []) tr f /\ puts tr `prefix_of` items 0 ITEMS /\
    (consumer_there w -> exists ring, represents ring (kern w) f) /\
    (nf (step cf) w -> gets tr = items 0 ITEMS).
Proof.
  revert tr w. apply (ring_always cf s0).
  - intros w w1 p Hp Hs. exists (Fifo [] []). split; [constructor|]. split; [apply prefix_nil|]. split.
    + intros (p' & c' & Hp' & _). by rewrite Hp in Hp'.
    + intros []. by exists w1, 0%nat.
  - intros ring tr w Hd.
    destruct (described_refines cf ring ITEMS ltac:(unfold ITEMS, INT_MAX; lia) _ _ Hd) as (f & Hr & Hp & Hc & Hn).
    exists f. destruct (fifo_run_order _ _ Hr) as [<- _]. split_and!; eauto.
Qed.

(** A state in which the producer is in its critical section. *)
Definition sample_state : world shm_call shm :=
  default (boot main (ShmState [] [] [] []))
    (execs (Config true 1) (Run <$> replicate 14 0%nat) (boot main (ShmState [] [] [] []))).

Lemma sample_reached : rtc (step (Config true 1)) (boot main (ShmState [] [] [] [])) sample_state.
Proof.
  unfold sample_state. destruct (execs _ _ _) as [w|] eqn:E; [by apply runs_reach in E|apply rtc_refl].
Qed.

Lemma sample_procs : exists p q, procs sample_state = [p; q].
Proof.
  assert (Hl : length (procs sample_state) = 2%nat) by (vm_compute; reflexivity).
  destruct (procs sample_state) as [|p [|q [|]]]; try done. eauto.
Qed.

(** The accesses of a given schedule. *)
Fixpoint tracing (cf : config) (is_ : list nat) (w : world shm_call shm) : list access * world shm_call shm :=
  match is_ with
  | [] => ([], w)
  | i :: is_ =>
      match run_step cf i w with
      | Some w1 => let '(tr, w') := tracing cf is_ w1 in (accesses i w ++ tr, w')
      | None => ([], w)
      end
  end.

Lemma tracing_traced cf is_ w : traced cf w (tracing cf is_ w).1 (tracing cf is_ w).2.
Proof.
  revert w. induction is_ as [|i is_ IH]; intros w; cbn; [constructor|].
  destruct (run_step cf i w) as [w1|] eqn:Hs; [|constructor].
  specialize (IH w1). destruct (tracing cf is_ w1). by econstructor.
Qed.

(** The producer writes two items, then the consumer reads one. *)
Definition sample_schedule : list nat := replicate 28 0%nat ++ replicate 8 1%nat.
Definition sample_run : list access * world shm_call shm :=
  tracing (Config true 1) sample_schedule (boot main (ShmState [] [] [] [])).

Lemma ring_refines_witness :
  sample_run.1 = [Put 1; Put 2; Get 1] /\
  exists f, fifo_run (Fifo [] []) sample_run.1 f /\ puts sample_run.1 `prefix_of` items 0 ITEMS /\
    (consumer_there sample_run.2 -> exists ring, represents ring (kern sample_run.2) f) /\
    (nf (step (Config true 1)) sample_run.2 -> gets sample_run.1 = items 0 ITEMS).
Proof.
  split; [vm_compute; reflexivity|].
  apply (ring_refines_fifo (Config true 1) (ShmState [] [] [] []) sample_run.1 sample_run.2).
  apply tracing_traced.
Defined.

(** ** No data races *)

(** The process is about to read or write a field of the shared structure
    outside the semaphores' own operations. *)
Definition accessing (p : process shm_call) : bool :=
  match p_stat p with Live (Sys (Load _ _) _) | Live (Sys (Store _ _ _) _) => true | _ => false end.

Section Heads.
Context (cf : config) (ring : Z) (N : nat).
Hypothesis HN : Z.of_nat N * (Z.of_nat N + 1) <= INT_MAX.

Lemma prod_accessing p : pwf N p -> accessing (pproc cf ring p) = true -> inside (prank p) = true.
Proof.
  destruct p as [k r j| | | |]; [|done..]. intros [_ Hj].
  pose proof (slot_at_mod k) as Hslot. destruct (at_mod_succ k) as [Hin Hrem].
  destruct j as [|[|[|[|[|[|[|[|[|[|j]]]]]]]]]]; try done; [|lia].
  cbn. rewrite Hslot. cbn. unfold int_add. by rewrite Hin.
Qed.

Lemma cons_accessing c b : cwf N c -> accessing (cproc ring N c b) = true -> inside (crank c) = true.
Proof.
  destruct c as [i r j| | | | |]; [|done..]. intros [_ Hj].
  pose proof (slot_at_mod i) as Hslot. destruct (at_mod_succ i) as [Hin Hrem].
  destruct j as [|[|[|[|[|[|[|[|[|[|j]]]]]]]]]]; try done; [|lia].
  cbn. rewrite Hslot. cbn. unfold int_add at 1. by rewrite Hin.
Qed.

Lemma described_race_free tr w :
  described cf ring N tr w ->
  forall i j p q, i <> j -> procs w !! i = Some p -> procs w !! j = Some q ->
  accessing p && accessing q = false.
Proof.
  intros Hd.
  assert (H01 : forall p q, procs w = [p; q] -> accessing p && accessing q = false).
  { intros p q Hp. destruct Hd as [(p' & c & b & Hi & _)|[(p' & c & Hp' & Hc & _) _]].
    - rewrite (ri_procs _ _ _ _ _ _ _ Hi) in Hp. simplify_eq.
      destruct (accessing (pproc cf ring p')) eqn:Ha; [|done].
      destruct (accessing (cproc ring N c b)) eqn:Hb; [|done].
      apply (prod_accessing _ (ri_pwf _ _ _ _ _ _ _ Hi)) in Ha.
      apply (cons_accessing _ _ (ri_cwf _ _ _ _ _ _ _ Hi)) in Hb.
      assert (Hg : c <> CGone) by (by intros ->).
      pose proof (ki_excl _ _ _ _ _ _ _ _ _ _ _ (ri_kern _ _ _ _ _ _ _ Hi Hg)) as He.
      by rewrite Ha, Hb in He.
    - rewrite Hp in Hp'. simplify_eq. unfold accessing at 2. rewrite Hc. apply andb_false_r. }
  assert (Hl : exists p q, procs w = [p; q]).
  { destruct Hd as [(p' & c & b & Hi & _)|[(p' & c & Hp' & _) _]]; [|eauto].
    rewrite (ri_procs _ _ _ _ _ _ _ Hi). eauto. }
  destruct Hl as (p & q & Hp). specialize (H01 p q Hp). rewrite Hp.
  intros [|[|i]] [|[|j]] p' q' Hne Hp' Hq'; simplify_eq/=; try done. by rewrite andb_comm.
Qed.
End Heads.

(** C3. No two processes of [posix_shm_ring_sem.c] are ever about to access
    the shared structure at the same time: in every reachable state at most
    one process stands before a read or a write of [head], [tail] or a slot. *)
Theorem ring_race_free cf s0 w i j p q :
  rtc (step cf) (boot main s0) w -> i <> j ->
  procs w !! i = Some p -> procs w !! j = Some q -> accessing p && accessing q = false.
Proof.
  intros Hr Hij. apply reaches_traced in Hr as [tr Hr]. revert tr w Hr p q.
  apply (ring_always cf s0 (fun _ w => forall p q,
    procs w !! i = Some p -> procs w !! j = Some q -> accessing p && accessing q = false)).
  - intros w w1 p1 Hp _ p q Hi Hj. rewrite Hp in Hi, Hj. destruct i, j; simplify_eq/=.
  - intros ring tr w Hd p q. by eapply (described_race_free cf ring ITEMS).
Qed.

Lemma ring_race_free_witness :
  exists p q, procs sample_state = [p; q] /\ accessing p = true /\ accessing p && accessing q = false.
Proof.
  destruct sample_procs as (p & q & E). exists p, q. split; [exact E|]. split.
  - assert (Hr : default false (accessing <$> (procs sample_state !! 0%nat)) = true) by (vm_compute; reflexivity).
    rewrite E in Hr. exact Hr.
  - apply (ring_race_free (Config true 1) (ShmState [] [] [] []) sample_state 0 1 p q sample_reached);
      [done|by rewrite E|by rewrite E].
Defined.
