(* ===== verification/Semaphores.v ===== *)
(** * Semaphores: the POSIX semaphore programs

    [Semaphores/posix_named_sem_pingpong.c] and
    [Semaphores/posix_shm_unnamed_sem_latch.c]. *)

From S2P Require Import Prelude Fmt Posix Explore Common Guarded Shm.

(** ** [Semaphores/posix_named_sem_pingpong.c] *)

Module PingPong.
Definition SEM_PING : bytes := B "/ipc_sem_ping".
Definition SEM_PONG : bytes := B "/ipc_sem_pong".

(** The body of the child's loop and of the parent's. *)
Definition pong_turn (ping pong : Z) (i : Z) : prog shm_call unit :=
  sys (SemWait pong 0) ;;;
  n <- int_add i 1 ;;
  proc (Printf (B "pong " ++ fmt_d n ++ [LF])) ;;;
  proc Fflush ;;;
  sys (SemPost ping 0) ;;; Ret tt.

Definition ping_turn (ping pong : Z) (i : Z) : prog shm_call unit :=
  sys (SemWait ping 0) ;;;
  n <- int_add i 1 ;;
  proc (Printf (B "ping " ++ fmt_d n ++ [LF])) ;;;
  sys (SemPost pong 0) ;;; Ret tt.

Definition main : prog shm_call Z :=
  sys (SemUnlink SEM_PING) ;;;
  sys (SemUnlink SEM_PONG) ;;;
  ping <- sys (SemOpenExcl SEM_PING 1) ;;
  pong <- sys (SemOpenExcl SEM_PONG 0) ;;
  if (rv ping =? -1) || (rv pong =? -1) then
    die_errno (if rv pong =? -1 then rerr pong else rerr ping) (B "sem_open") else
  child <- proc Fork ;;
  if rv child =? 0 then
    for_ 3 0 (pong_turn (rv ping) (rv pong)) ;;;
    Exit_ 0
  else
    for_ 3 0 (ping_turn (rv ping) (rv pong)) ;;;
    wait_for_pid (rv child) ;;;
    sys (SemClose (rv ping)) ;;;
    sys (SemClose (rv pong)) ;;;
    sys (SemUnlink SEM_PING) ;;;
    sys (SemUnlink SEM_PONG) ;;;
    Ret 0.

(** A semaphore name space in which either name may have been left behind
    by an earlier run. *)
Definition stale (a b : bool) : shm :=
  ShmState [] ((if a then [(SEM_PING, 0%nat)] else []) ++ (if b then [(SEM_PONG, 1%nat)] else []))
    [[5]; [7]] [].

Definition turns : bytes :=
  ln "ping 1" ++ ln "pong 1" ++ ln "ping 2" ++ ln "pong 2" ++ ln "ping 3" ++ ln "pong 3".
Definition pongs_first : bytes :=
  ln "pong 1" ++ ln "pong 2" ++ ln "pong 3" ++ ln "ping 1" ++ ln "ping 2" ++ ln "ping 3".

(** C38. [posix_named_sem_pingpong.c] under every schedule, whatever an
    earlier run left behind: both processes end, no semaphore name remains,
    and on a terminal the turns alternate.  When standard output is not a
    terminal the three pongs come out before the three pings, because the
    parent does not flush: its lines stay in its buffer until it exits. *)
Theorem pingpong_correct cf a b :
  total cf (boot main (stale a b)) (fun w =>
    finished 0 (if tty cf then turns else pongs_first) w /\ sh_sems (kern w) = []).
Proof.
  destruct cf as [[] p], a, b; apply layers_boot; explore;
    (repeat split; [by eexists|reflexivity..]).
Qed.
End PingPong.

(** ** [Semaphores/posix_shm_unnamed_sem_latch.c] *)

Module Latch.
Definition SHM_NAME : bytes := B "/ipc_sem_latch".

(** [struct shared_latch { sem_t ready; char message[64]; }] *)
Definition ready : nat := 0.
Definition message : nat := 1.
Definition sizeof_message : nat := 64.
Definition sizeof_shared_latch : nat := 65.

(** [snprintf(shared->message, sizeof(shared->message), text)]: the
    characters that fit, then a NUL, one store each. *)
Fixpoint store_chars (shared : Z) (cell : nat) (text : bytes) : prog shm_call unit :=
  match text with
  | [] => Ret tt
  | c :: text' =>
      sys (Store shared cell (Z.of_nat (nat_of_ascii c))) ;;; store_chars shared (S cell) text'
  end.

(** [%s] of a string in shared memory: loads up to the NUL; reading past
    the array is undefined. *)
Fixpoint load_chars (shared : Z) (n : nat) (cell : nat) : prog shm_call bytes :=
  match n with
  | O => Undef
  | S n' =>
      r <- sys (Load shared cell) ;;
      if rv r =? 0 then Ret []
      else s <- load_chars shared n' (S cell) ;; Ret (ascii_of_nat (Z.to_nat (rv r)) :: s)
  end.

Definition main : prog shm_call Z :=
  shared <- map_new_object SHM_NAME sizeof_shared_latch ;;
  sys (SemInit shared ready 0) ;;;
  child <- proc Fork ;;
  if rv child =? 0 then
    sys (SemWait shared ready) ;;;
    m <- load_chars shared sizeof_message message ;;
    proc (Printf (B "child observed: " ++ m ++ [LF])) ;;;
    proc Fflush ;;;
    Exit_ 0
  else
    store_chars shared message
      (snprintf (Z.of_nat sizeof_message) (B "shared-memory latch released")).1 ;;;
    sys (SemPost shared ready) ;;;
    wait_for_pid (rv child) ;;;
    sys (ShmUnlink SHM_NAME) ;;;
    Ret 0.

Definition stale (a : bool) : shm :=
  ShmState (if a then [(SHM_NAME, 0%nat)] else []) [] [[1; 2]] [].

(** [posix_shm_unnamed_sem_latch.c] under every schedule: the child
    never sees a partly written message; it prints the whole of it after the
    parent has released the latch, both processes end and no shared-memory
    name remains. *)
Theorem latch_correct cf a :
  total cf (boot main (stale a)) (fun w =>
    finished 0 (ln "child observed: shared-memory latch released") w /\
    sh_names (kern w) = []).
Proof.
  destruct cf as [[] p], a; apply layers_boot; explore;
    (repeat split; [by eexists|reflexivity..]).
Qed.
End Latch.
