(* ===== verification/Interrupts.v ===== *)
(** * Interrupts: code that starts interrupted calls again

    [sem_wait_retry], [wait_for_pid] and [write_all] repeat a call that fails
    with [EINTR].  A program that does so for each of its interruptible calls
    is [resumes]; for such a program interruptions change nothing: what every
    schedule without them guarantees holds with any number of them, at any
    call of any process. *)

From S2P Require Import Prelude Fmt Posix Local Explore Common Shm Ring Semaphores.

Section Interrupts.
Context {C K : Type} `{Kernel C K} (cf : config).
Implicit Types w : world C K.

(** One step, or the interruption of a call. *)
Definition stepi (w w' : world C K) : Prop :=
  step cf w w' \/ exists i, fail_step i EINTR w = Some w'.

(** ** Programs *)

(** [q] is the program [p] one trip round a loop earlier. *)
Definition back_to {A} (p q : prog C A) : Prop :=
  exists S R (body : S -> prog C (S + R)) s k, q = Loop body s k /\ unroll body s k = p.

(** The next call, if it can be interrupted, is then made again. *)
Definition resumed {A} (p : prog C A) : Prop :=
  match p with
  | Sys c k => kfails c EINTR = true -> back_to p (k (failed EINTR))
  | Proc c k => pfails c EINTR = true -> back_to p (k (failed EINTR))
  | _ => True
  end.

Definition resumes {A} (p : prog C A) : Prop := forall rs, resumed (adv rs p).

Lemma resumes_now {A} (p : prog C A) : resumes p -> resumed p.
Proof. intros Hp. exact (Hp []). Qed.

Lemma resumes_adv {A} r (p : prog C A) : resumes p -> resumes (adv [r] p).
Proof. intros Hp rs. destruct p; first [exact (Hp (r :: rs))|by destruct rs]. Qed.

Lemma resumes_ret {A} (a : A) : resumes (Ret a : prog C A).
Proof. by intros []. Qed.
Lemma resumes_exit {A} n : resumes (Exit n : prog C A).
Proof. by intros []. Qed.
Lemma resumes_exit_ {A} n : resumes (Exit_ n : prog C A).
Proof. by intros []. Qed.
Lemma resumes_undef {A} : resumes (Undef : prog C A).
Proof. by intros []. Qed.

Lemma resumes_proc {A} c (k : reply -> prog C A) :
  (pfails c EINTR = true -> back_to (Proc c k) (k (failed EINTR))) -> (forall r, resumes (k r)) ->
  resumes (Proc c k).
Proof. intros Hn Hk [|r rs]; [done|]. apply Hk. Qed.

Lemma resumes_sys {A} c (k : reply -> prog C A) :
  (kfails c EINTR = true -> back_to (Sys c k) (k (failed EINTR))) -> (forall r, resumes (k r)) ->
  resumes (Sys c k).
Proof. intros Hn Hk [|r rs]; [done|]. apply Hk. Qed.

Lemma back_to_bind {A A'} (p q : prog C A) (f : A -> prog C A') :
  back_to p q -> back_to (bind p f) (bind q f).
Proof.
  intros (S & R & body & s & k & -> & <-). exists S, R, body, s, (fun r => bind (k r) f).
  split; [done|]. symmetry. apply unroll_bind.
Qed.

Lemma resumed_bind {A A'} (p : prog C A) (f : A -> prog C A') :
  resumed p -> (forall a, resumed (f a)) -> resumed (bind p f).
Proof.
  intros Hp Hf. destruct p; cbn; try done; try apply Hf;
    intros Hc; by apply (back_to_bind _ _ f (Hp Hc)).
Qed.

Lemma resumes_bind {A A'} (p : prog C A) (f : A -> prog C A') :
  resumes p -> (forall a, resumes (f a)) -> resumes (bind p f).
Proof.
  intros Hp Hf rs. revert p Hp. induction rs as [|r rs IH]; intros p Hp.
  { apply resumed_bind; [by apply resumes_now|]. intros a. by apply resumes_now. }
  destruct p; try done; cbn [bind adv].
  - exact (Hf a (r :: rs)).
  - apply IH. exact (resumes_adv r _ Hp).
  - apply IH. exact (resumes_adv r _ Hp).
  - rewrite <- unroll_bind. apply IH. exact (resumes_adv r _ Hp).
Qed.

(** A loop resumes when its body does, or when the body starts with a call
    whose interruption sends it round again with the same state. *)
Definition retried {S R} (s : S) (p : prog C (S + R)) : Prop :=
  match p with
  | Sys c k => k (failed EINTR) = Ret (inl s) /\ forall r, resumes (k r)
  | Proc c k => k (failed EINTR) = Ret (inl s) /\ forall r, resumes (k r)
  | _ => False
  end.

Lemma resumes_loop {A S R} (body : S -> prog C (S + R)) s (k : R -> prog C A) :
  (forall s, resumes (body s) \/ retried s (body s)) -> (forall r, resumes (k r)) ->
  resumes (Loop body s k).
Proof.
  intros Hbody Hk rs. remember (length rs) as n eqn:Hn. revert rs s Hn.
  induction (lt_wf n) as [n _ IH]. intros [|r0 rs] s ->; [done|]. cbn [adv].
  (* what follows a body that resumes *)
  assert (Hrest : forall rs' (p : prog C (S + R)), (length rs' <= length rs)%nat -> resumes p ->
    resumed (adv rs' (bind p (fun x => match x with inl s' => Loop body s' k | inr r => k r end)))).
  { induction rs' as [|r rs' IHr]; intros p Hle Hp.
    - apply resumed_bind; [by apply resumes_now|]. intros [s'|r]; [done|]. apply resumes_now, Hk.
    - destruct p; try done; cbn [bind adv].
      + destruct a as [s'|x]; [|exact (Hk x (r :: rs'))]. apply (IH (length (r :: rs')) ltac:(cbn in *; lia) (r :: rs') s' eq_refl).
      + apply IHr; [cbn in Hle; lia|]. exact (resumes_adv r _ Hp).
      + apply IHr; [cbn in Hle; lia|]. exact (resumes_adv r _ Hp).
      + rewrite <- unroll_bind. apply IHr; [cbn in Hle; lia|]. exact (resumes_adv r _ Hp). }
  destruct (Hbody s) as [Hb|Hb]; [by apply Hrest|].
  unfold unroll. destruct (body s) as [ |c q|c q| | | |] eqn:E; try done; destruct Hb as [Hback Hq];
    (destruct rs as [|r rs]; [|cbn [bind adv]; apply Hrest; [cbn; lia|apply Hq]]);
    cbn; intros _; rewrite Hback; cbn; exists S, R, body, s, k; (split; [done|]); unfold unroll; by rewrite E.
Qed.

(** ** Worlds *)

Definition steady_proc (p : process C) : Prop :=
  match p_stat p with Live q => resumes q | _ => True end.
Definition steady (w : world C K) : Prop := Forall steady_proc (procs w).

Lemma steady_insert i p (l : list (process C)) :
  steady_proc p -> Forall steady_proc l -> Forall steady_proc (<[i := p]> l).
Proof. intros Hp Hl. by apply Forall_insert. Qed.
#[local] Hint Resolve steady_insert : core.

Lemma steady_exec i p c k w w' :
  steady w -> (forall r, resumes (k r)) -> exec_proc cf i p c k w = Some w' -> steady w'.
Proof.
  unfold steady. intros Hw Hk.
  assert (Hans : forall r par ob, steady_proc (Process (Live (k r)) par ob)) by (intros; apply Hk).
  assert (Hgone : forall par ob, steady_proc (Process Reaped par ob)) by done.
  destruct c; cbn.
  - intros [= <-]. cbn. apply Forall_app. split; [auto|]. constructor; [apply Hk|constructor].
  - destruct (find_idx _ _); [|destruct (existsb _ _); [done|]]; intros [= <-]; cbn; auto.
  - destruct (procs w !! idx_of cf pid) as [q|]; [|intros [= <-]; cbn; auto].
    destruct (negb _); [intros [= <-]; cbn; auto|].
    destruct (p_stat q); [destruct nohang; [|done]|..]; try done; intros [= <-]; cbn; auto.
  - intros [= <-]. cbn. auto.
  - destruct (stdio_put _ _ _). intros [= <-]. cbn. auto.
  - destruct (stdio_line _ _ _). intros [= <-]. cbn. auto.
  - intros [= <-]. cbn. auto.
  - intros [= <-]. cbn. auto.
  - destruct (find_idx _ _); intros [= <-]; cbn; auto.
Qed.

Lemma steady_step i w w' : steady w -> run_step cf i w = Some w' -> steady w'.
Proof.
  intros Hw. unfold run_step. destruct (procs w !! i) as [p|] eqn:Hp; [|done].
  pose proof (Forall_lookup_1 _ _ _ _ Hw Hp) as Hs. unfold steady_proc in Hs.
  assert (Hend : forall code fl, steady (terminate i p code fl w)).
  { intros code []; unfold steady, terminate; cbn; by apply steady_insert. }
  destruct (p_stat p) as [q|code| |]; [|done..].
  destruct q as [code|c k|c k|code|code| |S R body s k].
  - intros [= <-]. apply Hend.
  - apply steady_exec; [done|]. intros r. exact (resumes_adv r _ Hs).
  - destruct (kexec i c (kern w)) as [r s| |]; [|done|]; intros [= <-]; unfold steady; cbn; apply steady_insert; try done.
    exact (resumes_adv r _ Hs).
  - intros [= <-]. apply Hend.
  - intros [= <-]. apply Hend.
  - intros [= <-]. unfold steady. cbn. by apply steady_insert.
  - intros [= <-]. unfold steady. cbn. apply steady_insert; [|done]. exact (resumes_adv (ok 0) _ Hs).
Qed.

(** An interruption leads to a state that is one local step away from the
    one it left. *)
Lemma interrupted i w w1 :
  steady w -> fail_step i EINTR w = Some w1 ->
  exists p p1, procs w1 !! i = Some p1 /\ local_to cf i p1 p /\ set_proc i p w1 = w /\ steady w1.
Proof.
  intros Hw. unfold fail_step. destruct (procs w !! i) as [p|] eqn:Hp; [|done].
  pose proof (Forall_lookup_1 _ _ _ _ Hw Hp) as Hs. unfold steady_proc in Hs.
  destruct (p_stat p) as [q|code| |] eqn:Hq; [|done..].
  assert (Hback : forall q1, back_to q q1 -> resumes q1 ->
    exists p' p1, procs (resume i p q1 w) !! i = Some p1 /\ local_to cf i p1 p' /\
      set_proc i p' (resume i p q1 w) = w /\ steady (resume i p q1 w)).
  { intros q1 (S & R & body & s & k & -> & E) Hq1. exists p, (Process (Live (Loop body s k)) (p_parent p) (p_obuf p)).
    split; [cbn; apply list_lookup_insert_eq; by eapply lookup_lt_Some|].
    split; [|split].
    - split; [done|]. split; [done|]. split; [unfold is_live; by rewrite Hq|].
      intros w' Hw'. unfold run_step. rewrite Hw'. cbn. unfold resume. cbn. rewrite E.
      destruct p as [st par ob]. cbn in Hq. by rewrite Hq.
    - destruct w. unfold set_proc, resume. cbn in *. by rewrite list_insert_insert_eq, list_insert_id.
    - unfold steady. cbn. by apply steady_insert. }
  destruct q as [code|c k|c k|code|code| |S R body s k]; try done.
  - destruct (pfails c EINTR) eqn:Hf; [|done]. intros [= <-].
    apply Hback; [by apply (resumes_now _ Hs)|exact (resumes_adv (failed EINTR) _ Hs)].
  - destruct (kfails c EINTR) eqn:Hf; [|done]. intros [= <-].
    apply Hback; [by apply (resumes_now _ Hs)|exact (resumes_adv (failed EINTR) _ Hs)].
Qed.

(** What every schedule without interruptions guarantees holds from every
    state that is reached with them. *)
Theorem total_interrupted w w' (Q : world C K -> Prop) :
  steady w -> total cf w Q -> rtc stepi w w' -> total cf w' Q.
Proof.
  intros Hw Ht Hr. induction Hr as [w|w w1 w2 [[i Hs]|[i Hs]] _ IH]; [done|..]; apply IH.
  - by eapply steady_step.
  - destruct Ht as [Hsn HQ]. split; [by eapply Hsn; exists i|].
    intros w3 Hr3. apply HQ. eapply rtc_l; [by exists i|done].
  - destruct (interrupted i w w1 Hw Hs) as (p & p1 & _ & _ & _ & ?). done.
  - destruct (interrupted i w w1 Hw Hs) as (p & p1 & Hp1 & Hl & E & _).
    eapply total_local; [exact Hl|exact Hp1|]. by rewrite E.
Qed.
End Interrupts.

(** ** The helpers resume *)

Section Helpers.
Context {C K : Type} `{Kernel C K}.

(** A call that is not interrupted. *)
Lemma resumes_sys_safe (c : C) : kfails c EINTR = false -> resumes (sys c).
Proof. intros Hc. apply resumes_sys; [by rewrite Hc|]. intros r. apply resumes_ret. Qed.
Lemma resumes_proc_safe c : pfails c EINTR = false -> resumes (proc c : prog C reply).
Proof. intros Hc. apply resumes_proc; [by rewrite Hc|]. intros r. apply resumes_ret. Qed.

Lemma resumes_die_errno {A} e m : resumes (die_errno e m : prog C A).
Proof. apply resumes_proc; [done|]. intros r. apply resumes_exit. Qed.

Lemma resumes_int_add a b : resumes (int_add a b : prog C Z).
Proof. unfold int_add. destruct (in_int _); [apply resumes_ret|apply resumes_undef]. Qed.

Lemma resumes_for n i (body : Z -> prog C unit) :
  (forall i, resumes (body i)) -> resumes (for_ n i body).
Proof.
  intros Hb. revert i. induction n as [|n IH]; intros i; [apply resumes_ret|].
  apply resumes_bind; [done|]. intros _. apply IH.
Qed.

Lemma resumes_for_acc {A} n i (a : A) (body : Z -> A -> prog C A) :
  (forall i a, resumes (body i a)) -> resumes (for_acc n i a body).
Proof.
  intros Hb. revert i a. induction n as [|n IH]; intros i a; [apply resumes_ret|].
  apply resumes_bind; [done|]. intros a'. apply IH.
Qed.

Lemma resumes_wait_for_pid pid : resumes (wait_for_pid pid : prog C unit).
Proof.
  apply resumes_loop; [|intros r; apply resumes_ret]. intros []. right. split; [done|]. intros r. cbn.
  destruct (_ =? _); [destruct (decide _)|]; try apply resumes_ret. apply resumes_die_errno.
Qed.

(** [write_all], when the kernel's [write] is the call it makes. *)
Lemma resumes_write_all `{FdCalls C} fd buf len : resumes (write_all fd buf len : prog C Z).
Proof.
  apply resumes_loop; [|intros r; apply resumes_ret]. intros [cursor remaining]. cbn.
  destruct (_ >? _); [|left; apply resumes_ret].
  destruct (slice _ _ _); [|left; apply resumes_undef].
  right. split; [done|]. intros r. cbn. destruct (_ =? _); [destruct (decide _)|]; apply resumes_ret.
Qed.
End Helpers.

(** Code made of the above. *)
Ltac resume_code :=
  repeat first
    [ apply resumes_ret | apply resumes_exit | apply resumes_exit_ | apply resumes_undef
    | apply resumes_die_errno | apply resumes_int_add | apply resumes_wait_for_pid | apply resumes_write_all
    | apply resumes_sys_safe; reflexivity | apply resumes_proc_safe; reflexivity
    | apply resumes_for; intros ? | apply resumes_for_acc; intros ? ?
    | apply resumes_bind; [|intros ?]
    | match goal with |- resumes (match ?x with _ => _ end) => destruct x end ].

(** ** [posix_shm_ring_sem.c] *)

Lemma resumes_sem_wait_retry ring sem : resumes (sem_wait_retry ring sem).
Proof.
  apply resumes_loop; [|intros r; apply resumes_ret]. intros []. right. split; [done|]. intros r. cbn.
  destruct (_ =? _); [destruct (decide _)|]; try apply resumes_ret. apply resumes_die_errno.
Qed.

Lemma resumes_main : resumes Ring.main.
Proof.
  assert (Hw := resumes_sem_wait_retry).
  unfold Ring.main, map_new_object, init_ring, consumer, producer, consume, produce.
  resume_code; try apply Hw.
Qed.

(** C10. [posix_shm_ring_sem.c] with interruptions: whatever calls of the
    producer and the consumer have failed with [EINTR], and however often,
    every schedule from there on still ends, with [consumer total=210]
    printed, the sum of the items, exit code 0, the child reaped and no
    shared-memory name left. *)
Theorem ring_interrupted cf s0 w :
  rtc (stepi cf) (boot Ring.main s0) w ->
  total cf w (fun w =>
    finished 0 (ln "consumer total=210") w /\ bound SHM_NAME (sh_names (kern w)) = false).
Proof.
  apply total_interrupted; [|apply ring_every_schedule].
  constructor; [apply resumes_main|constructor].
Qed.

(** Events in which calls are only interrupted. *)
Lemma interrupts_reach {C K} `{Kernel C K} cf evs (w w' : world C K) :
  Forall (fun ev => match ev with Run _ => True | Fail _ e => e = EINTR end) evs ->
  execs cf evs w = Some w' -> rtc (stepi cf) w w'.
Proof.
  intros Hev. revert w. induction Hev as [|ev evs Hev _ IH]; intros w Hs; simplify_eq/=; [apply rtc_refl|].
  destruct (exec cf ev w) as [w1|] eqn:E; [|done]. eapply rtc_l; [|by apply IH].
  destruct ev as [i|i e]; [left; by exists i|right; subst e; by exists i].
Qed.

(** The producer is interrupted as it takes its first slot, the consumer as
    it waits for an item. *)
Definition interruptions : list event :=
  replicate 10 (Run 0) ++ [Fail 0 EINTR; Run 1; Fail 1 EINTR].

Lemma ring_interrupted_witness :
  match execs (Config true 9) interruptions (boot Ring.main (ShmState [] [] [] [])) with
  | Some w => total (Config true 9) w (fun w =>
      finished 0 (ln "consumer total=210") w /\ bound SHM_NAME (sh_names (kern w)) = false)
  | None => False
  end.
Proof.
  destruct (execs (Config true 9) interruptions (boot Ring.main (ShmState [] [] [] []))) as [w|] eqn:E.
  - apply (ring_interrupted (Config true 9) (ShmState [] [] [] []) w).
    apply (interrupts_reach _ interruptions); [by repeat constructor|exact E].
  - apply (f_equal (fun o => match o with Some _ => true | None => false end)) in E.
    vm_compute in E. discriminate E.
Defined.

(** [reap_all_children], on the other hand, stops at an interruption as if
    no child were left. *)
Theorem reap_gives_up {C} r :
  rv r <= 0 -> runs (reap_all_children : prog C unit) [OProc Wait r] (Returned tt).
Proof.
  intros Hr. apply runs_loop. apply runs_proc. cbn. rewrite Z.gtb_ltb.
  destruct (Z.ltb_spec 0 (rv r)); [lia|]. apply runs_ret.
Qed.

Lemma reap_gives_up_witness :
  runs (reap_all_children : prog fdcall unit) [OProc Wait (failed EINTR)] (Returned tt).
Proof. apply reap_gives_up. cbn. lia. Defined.

(** ** Waits that are not started again *)

Lemma reached_by {C K} `{Kernel C K} cf evs (w : world C K) (text : bytes) :
  Forall (fun ev => match ev with Run _ => True | Fail _ e => e = EINTR end) evs ->
  out <$> execs cf evs w = Some text -> exists w', rtc (stepi cf) w w' /\ out w' = text.
Proof.
  intros Hev Hx. apply fmap_Some in Hx as (w' & Hw & ->). exists w'. split; [|done].
  by apply (interrupts_reach _ evs).
Qed.

(** C34. [posix_named_sem_pingpong.c] and [posix_shm_unnamed_sem_latch.c] do not
    look at what [sem_wait] returns: interrupted there, the child of the first
    takes a turn that is not its own, and the child of the second shows a
    message that has not been written yet. *)
Theorem unchecked_waits cf :
  (exists w, rtc (stepi cf) (boot PingPong.main (PingPong.stale false false)) w /\ out w = ln "pong 1") /\
  (exists w, rtc (stepi cf) (boot Latch.main (Latch.stale false)) w /\ out w = ln "child observed: ").
Proof.
  split.
  - apply (reached_by _ (replicate 5 (Run 0) ++ [Fail 1 EINTR; Run 1; Run 1])); [by repeat constructor|].
    by destruct cf as [[] p]; vm_compute.
  - apply (reached_by _ (replicate 6 (Run 0) ++ [Fail 1 EINTR; Run 1; Run 1; Run 1])); [by repeat constructor|].
    by destruct cf as [[] p]; vm_compute.
Qed.
