(* ===== verification/Sysv.v ===== *)
(** * Sysv: System V semaphore sets and shared-memory segments

    The kernel objects behind [Semaphores/sysv_binary_semaphore_guard.c] and
    [Semaphores/sysv_semaphore_set_barrier.c]: semaphore sets with the
    per-process adjustments that [SEM_UNDO] keeps and [exit] applies, and
    segments holding one [int], which live on after [IPC_RMID] until the last
    process has detached.  The module [BinaryGuard] is the first program; the
    second is in [Barrier]. *)

From S2P Require Import Prelude Fmt Posix Explore Common Guarded.

(** A segment: its contents, and whether it is marked for removal. *)
Record segment := Segment { sg_val : Z; sg_removed : bool }.

Record sysv := SysvState {
  sv_sems : list (option (list Z));
  sv_adj : list (nat * (nat * nat) * Z);
  sv_segs : list (option segment);
  sv_att : list (nat * nat);
}.

Inductive sysv_call : Type :=
| Semget (nsems : nat)
| SemctlSetval (id : Z) (num : nat) (v : Z)
| SemctlSetall (id : Z) (vs : list Z)
| SemctlRmid (id : Z)
| Semop (id : Z) (num : nat) (op : Z) (undo : bool)
| Shmget
| Shmat (id : Z)
| Shmdt (addr : Z)
| ShmctlRmid (id : Z)
| SegLoad (addr : Z)
| SegStore (addr v : Z).

Definition SEMVMX : Z := 32767.
Definition SEMAEM : Z := 32767.

(** An identifier as an index. *)
Definition ident (id : Z) : option nat := if id <? 0 then None else Some (Z.to_nat id).

Definition get_set (s : sysv) (id : Z) : option (list Z) :=
  n ← ident id; default None (sv_sems s !! n).
Definition put_set (s : sysv) (id : Z) (vs : option (list Z)) : sysv :=
  SysvState (<[Z.to_nat id := vs]> (sv_sems s)) (sv_adj s) (sv_segs s) (sv_att s).

(** The adjustment process [i] has accumulated for a semaphore. *)
Definition adj_of (i : nat) (key : nat * nat) (l : list (nat * (nat * nat) * Z)) : Z :=
  match List.find (fun e => bool_decide (e.1 = (i, key))) l with Some e => e.2 | None => 0 end.
Definition adj_set (i : nat) (key : nat * nat) (v : Z) (l : list (nat * (nat * nat) * Z))
    : list (nat * (nat * nat) * Z) :=
  let l' := List.filter (fun e => negb (bool_decide (e.1 = (i, key)))) l in
  if v =? 0 then l' else (i, key, v) :: l'.
Definition set_adj (s : sysv) (l : list (nat * (nat * nat) * Z)) : sysv :=
  SysvState (sv_sems s) l (sv_segs s) (sv_att s).

(** Setting or removing a semaphore cancels the adjustments to it. *)
Definition forget_adj (f : nat * nat -> bool) (s : sysv) : sysv :=
  set_adj s (List.filter (fun e => negb (f e.1.2)) (sv_adj s)).

(** [semop] with one operation. *)
Definition semop (i : nat) (id : Z) (num : nat) (op : Z) (undo : bool) (s : sysv) : kres sysv :=
  match get_set s id with
  | None => Done (failed EINVAL) s
  | Some vs =>
      match vs !! num with
      | None => Done (failed EFBIG) s
      | Some v =>
          if op =? 0 then if v =? 0 then Done (ok 0) s else Block
          else if v + op <? 0 then Block
          else if v + op >? SEMVMX then Done (failed ERANGE) s
          else
            let key := (Z.to_nat id, num) in
            let a := adj_of i key (sv_adj s) - op in
            if undo && ((a <? - SEMAEM - 1) || (a >? SEMAEM)) then Done (failed ERANGE) s
            else
              let s' := put_set s id (Some (<[num := v + op]> vs)) in
              Done (ok 0) (if undo then set_adj s' (adj_set i key a (sv_adj s)) else s')
      end
  end.

(** What [exit] does with one adjustment. *)
Definition apply_adj (s : sysv) (e : nat * (nat * nat) * Z) : sysv :=
  let '(_, (id, num), a) := e in
  match sv_sems s !! id with
  | Some (Some vs) =>
      match vs !! num with
      | Some v => put_set s (Z.of_nat id) (Some (<[num := Z.max 0 (v + a)]> vs))
      | None => s
      end
  | _ => s
  end.

(** A segment goes away when it is marked and nobody is attached. *)
Definition sweep (s : sysv) : sysv :=
  SysvState (sv_sems s) (sv_adj s)
    (imap (fun n o =>
       match o with
       | Some g =>
           if sg_removed g && negb (existsb (fun e => Nat.eqb e.2 n) (sv_att s)) then None else o
       | None => None
       end) (sv_segs s))
    (sv_att s).

Definition attached (i : nat) (n : nat) (s : sysv) : bool :=
  existsb (fun e => bool_decide (e = (i, n))) (sv_att s).
Definition get_seg (s : sysv) (id : Z) : option segment :=
  n ← ident id; default None (sv_segs s !! n).
Definition put_seg (s : sysv) (id : Z) (g : segment) : sysv :=
  SysvState (sv_sems s) (sv_adj s) (<[Z.to_nat id := Some g]> (sv_segs s)) (sv_att s).
Definition set_att (s : sysv) (l : list (nat * nat)) : sysv :=
  SysvState (sv_sems s) (sv_adj s) (sv_segs s) l.

(** Memory of a segment, for an attached process. *)
Definition seg_access (i : nat) (addr : Z) (s : sysv) (f : segment -> kres sysv) : kres sysv :=
  match get_seg s addr with
  | Some g => if attached i (Z.to_nat addr) s then f g else Fault
  | None => Fault
  end.

Definition sysv_exec (i : nat) (c : sysv_call) (s : sysv) : kres sysv :=
  match c with
  | Semget nsems =>
      Done (ok (Z.of_nat (length (sv_sems s))))
        (SysvState (sv_sems s ++ [Some (replicate nsems 0)]) (sv_adj s) (sv_segs s) (sv_att s))
  | SemctlSetval id num v =>
      match get_set s id with
      | None => Done (failed EINVAL) s
      | Some vs =>
          if (v <? 0) || (v >? SEMVMX) then Done (failed ERANGE) s
          else Done (ok 0) (forget_adj (fun k => bool_decide (k = (Z.to_nat id, num)))
                             (put_set s id (Some (<[num := v]> vs))))
      end
  | SemctlSetall id vs =>
      match get_set s id with
      | None => Done (failed EINVAL) s
      | Some _ => Done (ok 0) (forget_adj (fun k => Nat.eqb k.1 (Z.to_nat id)) (put_set s id (Some vs)))
      end
  | SemctlRmid id =>
      match get_set s id with
      | None => Done (failed EINVAL) s
      | Some _ => Done (ok 0) (forget_adj (fun k => Nat.eqb k.1 (Z.to_nat id)) (put_set s id None))
      end
  | Semop id num op undo => semop i id num op undo s
  | Shmget =>
      Done (ok (Z.of_nat (length (sv_segs s))))
        (SysvState (sv_sems s) (sv_adj s) (sv_segs s ++ [Some (Segment 0 false)]) (sv_att s))
  | Shmat id =>
      match get_seg s id with
      | None => Done (failed EINVAL) s
      | Some _ => Done (ok id) (set_att s ((i, Z.to_nat id) :: sv_att s))
      end
  | Shmdt addr =>
      if attached i (Z.to_nat addr) s then
        Done (ok 0) (sweep (set_att s
          (List.filter (fun e => negb (bool_decide (e = (i, Z.to_nat addr)))) (sv_att s))))
      else Done (failed EINVAL) s
  | ShmctlRmid id =>
      match get_seg s id with
      | None => Done (failed EINVAL) s
      | Some g => Done (ok 0) (sweep (put_seg s id (Segment (sg_val g) true)))
      end
  | SegLoad addr => seg_access i addr s (fun g => Done (ok (sg_val g)) s)
  | SegStore addr v =>
      seg_access i addr s (fun g => Done (ok 0) (put_seg s addr (Segment v (sg_removed g))))
  end.

Definition sysv_fails (c : sysv_call) (e : errno) : bool :=
  match c with
  | Semget _ | Shmget => bool_decide (e = ENOMEM)
  | Shmat _ => bool_decide (e = ENOMEM)
  | Semop _ _ _ _ => bool_decide (e = EINTR)
  | _ => false
  end.

(** A child inherits attachments but no adjustments; termination detaches
    and applies the adjustments. *)
#[export] Instance sysv_kernel : Kernel sysv_call sysv := {|
  kexec := sysv_exec;
  kfails := sysv_fails;
  kfork := fun i j s =>
    set_att s (((fun e => (j, e.2)) <$> List.filter (fun e => Nat.eqb e.1 i) (sv_att s)) ++ sv_att s);
  kexit := fun i s =>
    let mine := List.filter (fun e => Nat.eqb e.1.1 i) (sv_adj s) in
    let s1 := fold_left apply_adj mine s in
    let s2 := set_adj s1 (List.filter (fun e => negb (Nat.eqb e.1.1 i)) (sv_adj s)) in
    sweep (set_att s2 (List.filter (fun e => negb (Nat.eqb e.1 i)) (sv_att s)));
|}.

(** ** [Semaphores/sysv_binary_semaphore_guard.c] *)

Module BinaryGuard.
(** [sem_op]'s error check. *)
Definition sem_op_reply (r : reply) : prog sysv_call unit :=
  if rv r =? -1 then die_errno (rerr r) (B "semop") else Ret tt.
Definition sem_op (semid op : Z) : prog sysv_call unit :=
  Sys (Semop semid 0 op true) sem_op_reply.

(** The loop a child runs. *)
Definition count (semid counter : Z) : prog sysv_call unit :=
  for_ 1000 0 (fun j =>
    critical (sem_op semid (-1)) (sem_op semid 1) (SegLoad counter) (SegStore counter) 1).

Definition main : prog sysv_call Z :=
  semid <- sys (Semget 1) ;;
  if rv semid =? -1 then die_errno (rerr semid) (B "semget") else
  r <- sys (SemctlSetval (rv semid) 0 1) ;;
  if rv r =? -1 then die_errno (rerr r) (B "semctl SETVAL") else
  shmid <- sys Shmget ;;
  if rv shmid =? -1 then die_errno (rerr shmid) (B "shmget") else
  counter <- sys (Shmat (rv shmid)) ;;
  if rv counter =? -1 then die_errno (rerr counter) (B "shmat") else
  sys (SegStore (rv counter) 0) ;;;
  for_ 4 0 (fun i => fork_child (count (rv semid) (rv counter))) ;;;
  reap_all_children ;;;
  v <- sys (SegLoad (rv counter)) ;;
  proc (Printf (B "system-v guarded counter=" ++ fmt_d (rv v) ++ ln " expected=4000")) ;;;
  sys (Shmdt (rv counter)) ;;;
  sys (ShmctlRmid (rv shmid)) ;;;
  sys (SemctlRmid (rv semid)) ;;;
  Ret 0.

(** What the lock keeps: the semaphore is 0 exactly while a process holds
    it, that process has the only adjustment, the segment holds the counter
    and the processes alive are the ones attached to it. *)
Record guards (sid gid : nat) (L : list bool) (h : option nat) (v : Z) (s : sysv) : Prop := {
  g_sem : sv_sems s !! sid = Some (Some [match h with None => 1 | Some _ => 0 end]);
  g_adj : sv_adj s = match h with None => [] | Some i => [(i, (sid, 0%nat), 1)] end;
  g_seg : sv_segs s !! gid = Some (Some (Segment v false));
  g_att : forall i, (i, gid) ∈ sv_att s <-> L !! i = Some true;
}.
Arguments g_sem {_ _ _ _ _ _}.
Arguments g_adj {_ _ _ _ _ _}.
Arguments g_seg {_ _ _ _ _ _}.
Arguments g_att {_ _ _ _ _ _}.

Lemma ident_nat n : ident (Z.of_nat n) = Some n.
Proof. unfold ident. rewrite Nat2Z.id. by destruct (Z.ltb_spec (Z.of_nat n) 0); [lia|]. Qed.

Lemma get_set_nat s n : get_set s (Z.of_nat n) = default None (sv_sems s !! n).
Proof. unfold get_set. by rewrite ident_nat. Qed.
Lemma get_seg_nat s n : get_seg s (Z.of_nat n) = default None (sv_segs s !! n).
Proof. unfold get_seg. by rewrite ident_nat. Qed.

Lemma attached_true i n s : attached i n s = true <-> (i, n) ∈ sv_att s.
Proof.
  unfold attached. rewrite existsb_exists. split.
  - intros (e & He & E). apply bool_decide_eq_true in E as ->. by apply list_elem_of_In.
  - intros He. exists (i, n). rewrite bool_decide_eq_true. by rewrite <- list_elem_of_In.
Qed.

Lemma sweep_kept s n v :
  sv_segs s !! n = Some (Some (Segment v false)) ->
  sv_segs (sweep s) !! n = Some (Some (Segment v false)).
Proof. intros Hn. cbn. rewrite list_lookup_imap, Hn. done. Qed.

(** The two operations of the semaphore. *)
Lemma semop_take sid gid L v s i :
  guards sid gid L None v s ->
  exists s', semop i (Z.of_nat sid) 0 (-1) true s = Done (ok 0) s' /\ guards sid gid L (Some i) v s'.
Proof.
  intros [Hs Ha Hg Hat]. unfold semop. rewrite get_set_nat, Hs. cbn. rewrite Ha. cbn.
  eexists. split; [done|]. split; cbn; try done.
  - rewrite Nat2Z.id, list_lookup_insert_eq; [done|]. by eapply lookup_lt_Some.
  - by rewrite Nat2Z.id.
Qed.

Lemma semop_busy sid gid L j v s i :
  guards sid gid L (Some j) v s -> semop i (Z.of_nat sid) 0 (-1) true s = Block.
Proof. intros [Hs Ha Hg Hat]. unfold semop. rewrite get_set_nat, Hs. done. Qed.

Lemma semop_give sid gid L v s i :
  guards sid gid L (Some i) v s ->
  exists s', semop i (Z.of_nat sid) 0 1 true s = Done (ok 0) s' /\ guards sid gid L None v s'.
Proof.
  intros [Hs Ha Hg Hat]. unfold semop. rewrite get_set_nat, Hs. cbn. rewrite Ha, Nat2Z.id. cbn.
  unfold adj_of, adj_set. cbn. rewrite bool_decide_true by done. cbn.
  eexists. split; [done|]. split; cbn; try done.
  rewrite Nat2Z.id, list_lookup_insert_eq; [done|]. by eapply lookup_lt_Some.
Qed.

#[export] Instance sysv_guard sid gid :
  MutexGuard (Semop (Z.of_nat sid) 0 (-1) true) (Semop (Z.of_nat sid) 0 1 true)
    (SegLoad (Z.of_nat gid)) (SegStore (Z.of_nat gid)) sem_op_reply sem_op_reply (guards sid gid).
Proof.
  split.
  - intros L v s i Hg _. destruct (semop_take _ _ _ _ _ i Hg) as (s' & Hs & Hg'). by eexists _, s'.
  - intros L j v s i Hg _ _. by eapply semop_busy.
  - intros L v s i Hg _. destruct (semop_give _ _ _ _ _ i Hg) as (s' & Hs & Hg'). by eexists _, s'.
  - intros L h v s i Hg Hi. cbn. unfold seg_access. rewrite get_seg_nat, (g_seg Hg). cbn.
    rewrite Nat2Z.id, (proj2 (attached_true _ _ _)) by (by apply (g_att Hg)). by eexists.
  - intros L h v s i v' Hg Hi _. cbn. unfold seg_access. rewrite get_seg_nat, (g_seg Hg). cbn.
    rewrite Nat2Z.id, (proj2 (attached_true _ _ _)) by (by apply (g_att Hg)).
    eexists _, _. split; [done|]. destruct Hg as [Hs Ha Hg Hat]. split; cbn; try done.
    rewrite Nat2Z.id, list_lookup_insert_eq; [done|]. by eapply lookup_lt_Some.
  - intros L h v s [Hs Ha Hg Hat] H0. split; cbn; try done. intros i.
    rewrite elem_of_app, list_elem_of_fmap. rewrite lookup_app. split.
    + intros [((a & b) & E & Hin)|Hin].
      * simplify_eq/=. rewrite lookup_ge_None_2, Nat.sub_diag by done. done.
      * apply Hat in Hin. by rewrite Hin.
    + destruct (L !! i) as [b|] eqn:Hi; [intros E; right; apply Hat; congruence|].
      intros Hl. left. apply list_lookup_singleton_Some in Hl as [Hl _].
      apply lookup_ge_None in Hi. exists (0%nat, gid). split; [f_equal; cbn; lia|].
      rewrite list_elem_of_In, filter_In, <- list_elem_of_In. split; [by apply Hat|done].
  - intros L h v s i [Hs Ha Hg Hat] Hi Hne.
    assert (Hmine : List.filter (fun e => Nat.eqb e.1.1 i) (sv_adj s) = [] /\
                    List.filter (fun e => negb (Nat.eqb e.1.1 i)) (sv_adj s) = sv_adj s).
    { rewrite Ha. destruct h as [k|]; [|done]. cbn.
      destruct (Nat.eqb_spec k i); [congruence|done]. }
    destruct Hmine as [Hm Hm']. cbn. rewrite Hm, Hm'. cbn. split; try done.
    + by apply sweep_kept.
    + intros k. cbn. rewrite list_elem_of_In, filter_In, <- list_elem_of_In, Hat. cbn.
      rewrite negb_true_iff, Nat.eqb_neq. destruct (decide (k = i)) as [->|Hk].
      * rewrite list_lookup_insert_eq by (by eapply lookup_lt_Some). clear. naive_solver.
      * rewrite list_lookup_insert_ne by done. clear -Hk. naive_solver.
Qed.

(** The calls that set the objects up, from the tables [sems] and [segs]. *)
Section Setup.
Context (sems : list (option (list Z))) (segs : list (option segment)).
Abbreviation sid := (length sems).
Abbreviation gid := (length segs).

Lemma setup_semget :
  sysv_exec 0 (Semget 1) (SysvState sems [] segs []) =
  Done (ok (Z.of_nat sid)) (SysvState (sems ++ [Some [0]]) [] segs []).
Proof. done. Qed.

Lemma setup_setval :
  sysv_exec 0 (SemctlSetval (Z.of_nat sid) 0 1) (SysvState (sems ++ [Some [0]]) [] segs []) =
  Done (ok 0) (SysvState (sems ++ [Some [1]]) [] segs []).
Proof.
  cbn. rewrite get_set_nat. cbn. rewrite lookup_app_r, Nat.sub_diag by done. cbn.
  unfold forget_adj, put_set, set_adj. cbn. do 2 f_equal.
  rewrite Nat2Z.id, insert_app_r_alt, Nat.sub_diag by done. done.
Qed.

Lemma setup_shmget :
  sysv_exec 0 Shmget (SysvState (sems ++ [Some [1]]) [] segs []) =
  Done (ok (Z.of_nat gid))
    (SysvState (sems ++ [Some [1]]) [] (segs ++ [Some (Segment 0 false)]) []).
Proof. done. Qed.

Abbreviation ready := (SysvState (sems ++ [Some [1]]) [] (segs ++ [Some (Segment 0 false)]) [(0%nat, gid)]).

Lemma setup_shmat :
  sysv_exec 0 (Shmat (Z.of_nat gid))
    (SysvState (sems ++ [Some [1]]) [] (segs ++ [Some (Segment 0 false)]) []) =
  Done (ok (Z.of_nat gid)) ready.
Proof.
  cbn. rewrite get_seg_nat. cbn. rewrite lookup_app_r, Nat.sub_diag by done. cbn.
  unfold set_att. cbn. by rewrite Nat2Z.id.
Qed.

Lemma setup_store : sysv_exec 0 (SegStore (Z.of_nat gid) 0) ready = Done (ok 0) ready.
Proof.
  cbn. unfold seg_access. rewrite get_seg_nat. cbn. rewrite lookup_app_r, Nat.sub_diag by done. cbn.
  rewrite Nat2Z.id. unfold attached. cbn. rewrite bool_decide_true by done. cbn.
  unfold put_seg. cbn. rewrite Nat2Z.id, insert_app_r_alt, Nat.sub_diag by done. done.
Qed.

Lemma setup_guards : guards sid gid [true] None 0 ready.
Proof.
  split; cbn; try done.
  - by rewrite lookup_app_r, Nat.sub_diag by done.
  - by rewrite lookup_app_r, Nat.sub_diag by done.
  - intros i. rewrite list_elem_of_singleton. destruct i as [|i]; [done|]. split; [|done].
    intros [=].
Qed.
End Setup.

(** Removing the segment and the set once every child is gone. *)
Lemma teardown sid gid N v s :
  guards sid gid (true :: replicate N false) None v s ->
  exists s1 s2 s3,
    sysv_exec 0 (Shmdt (Z.of_nat gid)) s = Done (ok 0) s1 /\
    sysv_exec 0 (ShmctlRmid (Z.of_nat gid)) s1 = Done (ok 0) s2 /\
    sysv_exec 0 (SemctlRmid (Z.of_nat sid)) s2 = Done (ok 0) s3 /\
    sv_sems s3 !! sid = Some None /\ sv_segs s3 !! gid = Some None /\ sv_adj s3 = [].
Proof.
  intros [Hs Ha Hg Hat].
  set (att := List.filter (fun e => negb (bool_decide (e = (0%nat, gid)))) (sv_att s)).
  assert (Hatt : existsb (fun e => Nat.eqb e.2 gid) att = false).
  { apply not_true_is_false. rewrite existsb_exists. intros ([i g] & Hin & Hg').
    cbn in Hg'. apply Nat.eqb_eq in Hg' as ->. subst att.
    apply filter_In in Hin as [Hin Hne]. rewrite <- list_elem_of_In in Hin. apply Hat in Hin.
    destruct i as [|i]; [by rewrite bool_decide_true in Hne|].
    cbn in Hin. by apply lookup_replicate in Hin as [? _]. }
  cbn. rewrite (proj2 (attached_true _ _ _)) by (rewrite Nat2Z.id; by apply Hat).
  rewrite Nat2Z.id. fold att. eexists _, _, _. split; [reflexivity|].
  assert (Hg1 : sv_segs (sweep (set_att s att)) !! gid = Some (Some (Segment v false)))
    by (by apply sweep_kept).
  rewrite get_seg_nat, Hg1. cbn. split; [reflexivity|].
  rewrite get_set_nat. cbn. rewrite Hs. cbn. split; [reflexivity|]. cbn. rewrite Nat2Z.id. split.
  - apply list_lookup_insert_eq. by eapply lookup_lt_Some.
  - rewrite Ha. split; [|done]. rewrite list_lookup_imap, Nat2Z.id. rewrite list_lookup_insert_eq.
    + cbn. by rewrite Hatt.
    + rewrite length_imap. by eapply lookup_lt_Some.
Qed.

Lemma exit_clean s sid gid :
  sv_sems s !! sid = Some None -> sv_segs s !! gid = Some None -> sv_adj s = [] ->
  sv_sems (kexit 0 s) !! sid = Some None /\ sv_segs (kexit 0 s) !! gid = Some None.
Proof. intros Hs Hg Ha. cbn. rewrite Ha. cbn. by rewrite list_lookup_imap, Hg. Qed.

Lemma nat_not_minus_one n : (Z.of_nat n =? -1) = false.
Proof. apply Z.eqb_neq. lia. Qed.

(** C16. [sysv_binary_semaphore_guard.c] is correct under every schedule:
    from any table of semaphore sets and segments, however its five processes
    are interleaved, the program terminates, no increment is lost, it prints
    [system-v guarded counter=4000 expected=4000], exits with 0, and neither
    its semaphore set nor its segment outlives it. *)
Theorem sysv_binary_semaphore_guard_correct cf sems segs :
  total cf (boot main (SysvState sems [] segs [])) (fun w =>
    finished 0 (ln "system-v guarded counter=4000 expected=4000") w /\
    sv_sems (kern w) !! length sems = Some None /\
    sv_segs (kern w) !! length segs = Some None).
Proof.
  last_call (apply setup_semget).
  cbn [rv ok]. rewrite nat_not_minus_one.
  last_call (apply setup_setval).
  last_call (apply setup_shmget).
  cbn [rv ok]. rewrite nat_not_minus_one.
  last_call (apply setup_shmat).
  cbn [rv ok]. rewrite nat_not_minus_one.
  last_call (apply setup_store).
  apply (fan_out_total cf _ _ _ _ _ _ (guards (length sems) (length segs)) 1 4 1000); [done..| |].
  - intros s' Hg. eapply last_sys; [auto with posix| |].
    { cbn. unfold seg_access. rewrite get_seg_nat, (g_seg Hg). cbn.
      rewrite Nat2Z.id, (proj2 (attached_true _ _ _)) by (by apply (g_att Hg)). reflexivity. }
    last_print.
    destruct (teardown _ _ _ _ _ Hg) as (s1 & s2 & s3 & H1 & H2 & H3 & Hs3 & Hg3 & Ha3).
    last_call (exact H1).
    last_call (exact H2).
    last_call (exact H3).
    last_end.
    split; [split; [by eexists|split; [exact Ho|done]]|by apply exit_clean].
  - apply setup_guards.
Qed.
End BinaryGuard.
