(* ===== verification/Barrier.v ===== *)
(** * Barrier: [Semaphores/sysv_semaphore_set_barrier.c]

    Every worker announces that it has reached the barrier, decrements a
    semaphore that starts at the number of workers, waits until it is zero and
    announces that it has been released.  The proof is for any number of
    workers that a semaphore can hold. *)

From S2P Require Import Prelude Fmt Posix Common Guarded Fan Sysv.

Definition WORKERS : nat := 3.

Definition change (semid : Z) (index : nat) (delta : Z) : prog sysv_call unit :=
  r <- sys (Semop semid index delta false) ;;
  if rv r =? -1 then die_errno (rerr r) (B "semop change") else Ret tt.

Definition wait_zero (semid : Z) (index : nat) : prog sysv_call unit :=
  r <- sys (Semop semid index 0 false) ;;
  if rv r =? -1 then die_errno (rerr r) (B "semop wait zero") else Ret tt.

Definition reached (n : Z) : bytes := B "worker " ++ fmt_d n ++ B " reached barrier".
Definition released (n : Z) : bytes := B "worker " ++ fmt_d n ++ B " released".

(** What worker [i] runs. *)
Definition worker (semid : Z) (i : Z) : prog sysv_call unit :=
  n <- int_add i 1 ;;
  proc (Println (reached n)) ;;;
  proc Fflush ;;;
  change semid 0 (-1) ;;;
  wait_zero semid 0 ;;;
  n' <- int_add i 1 ;;
  proc (Println (released n')) ;;;
  proc Fflush ;;;
  Ret tt.

(** The program for a given number of workers. *)
Definition program (workers : nat) : prog sysv_call Z :=
  semid <- sys (Semget 2) ;;
  if rv semid =? -1 then die_errno (rerr semid) (B "semget") else
  sys (SemctlSetall (rv semid) [Z.of_nat workers; 0]) ;;;
  for_ workers 0 (fun i => fork_child (worker (rv semid) i)) ;;;
  reap_all_children ;;;
  sys (SemctlRmid (rv semid)) ;;;
  Ret 0.

Definition main : prog sysv_call Z := program WORKERS.

(** ** Sets of children that have done something *)

Section Flags.
Context {A : Type} (f : A -> bool).

(** [R] lists the indices of the entries of [l] that satisfy [f]. *)
Definition flagged (l : list A) (R : list nat) : Prop :=
  NoDup R /\ forall c, c ∈ R <-> exists a, l !! c = Some a /\ f a = true.

Lemma flagged_nil : flagged [] [].
Proof. split; [constructor|]. intros c. split; [by intros ?%elem_of_nil|by intros (? & ? & _)]. Qed.

Lemma flagged_snoc l a R : flagged l R -> f a = false -> flagged (l ++ [a]) R.
Proof.
  intros [Hn HR] Ha. split; [done|]. intros c. rewrite HR. split.
  - intros (x & Hx & Hf). exists x. split; [by apply lookup_app_l_Some|done].
  - intros (x & [Hx|[_ Hx]]%lookup_app_Some & Hf); [by exists x|].
    apply list_lookup_singleton_Some in Hx as [_ <-]. congruence.
Qed.

Lemma flagged_same l c a b R :
  flagged l R -> l !! c = Some a -> f a = f b -> flagged (<[c := b]> l) R.
Proof.
  intros [Hn HR] Hc Hab. split; [done|]. intros d. rewrite HR.
  destruct (decide (c = d)) as [<-|Hne].
  - rewrite list_lookup_insert_eq by (by eapply lookup_lt_Some). rewrite Hc.
    split; intros (x & Hx & Hf); simplify_eq; eexists; (split; [done|congruence]).
  - by rewrite list_lookup_insert_ne.
Qed.

Lemma flagged_add l c a b R :
  flagged l R -> l !! c = Some a -> f a = false -> f b = true -> flagged (<[c := b]> l) (R ++ [c]).
Proof.
  intros [Hn HR] Hc Ha Hb.
  assert (Hnot : c ∉ R). { rewrite HR. intros (x & Hx & Hf). congruence. }
  split; [apply NoDup_app; split; [done|split; [|apply NoDup_singleton]]|].
  { intros x Hx ?%list_elem_of_singleton. by subst. }
  intros d. rewrite elem_of_app, list_elem_of_singleton.
  destruct (decide (c = d)) as [<-|Hne].
  - rewrite list_lookup_insert_eq by (by eapply lookup_lt_Some). split; [eauto|by right].
  - rewrite list_lookup_insert_ne, HR by done. split; [intros [?|?]; [done|congruence]|by left].
Qed.

Lemma flagged_none l R : flagged l R -> Forall (fun a => f a = false) l -> R = [].
Proof.
  intros [_ HR] Hl. destruct R as [|c R]; [done|].
  destruct (proj1 (HR c) ltac:(constructor)) as (a & Ha & Hf).
  rewrite Forall_lookup in Hl. by rewrite (Hl _ _ Ha) in Hf.
Qed.

Lemma flagged_all l R : flagged l R -> Forall (fun a => f a = true) l -> R ≡ₚ seq 0 (length l).
Proof.
  intros [Hn HR] Hl. apply NoDup_Permutation; [done|apply NoDup_seq|]. intros c.
  rewrite HR, elem_of_seq, Forall_lookup in *. split.
  - intros (a & Ha & _). apply lookup_lt_Some in Ha. lia.
  - intros [_ Hc]. destruct (lookup_lt_is_Some_2 l c ltac:(lia)) as [a Ha]. eauto.
Qed.
End Flags.

(** ** The invariant *)

Section Barrier.
Context (cf : config) (N sid : nat).
Hypothesis HN : Z.of_nat N <= SEMVMX.

(** The replies a worker has got when it has made [j] calls. *)
Definition answers (c : nat) : list reply :=
  [ok (printed (reached (Z.of_nat c + 1)) + 1); ok 0; ok 0; ok 0;
   ok (printed (released (Z.of_nat c + 1)) + 1); ok 0].

Definition code (c : nat) (j : nat) : prog sysv_call unit :=
  adv (take j (answers c)) (worker (Z.of_nat sid) (Z.of_nat c)).

(** What its buffer holds between printing and flushing. *)
Definition obuf (c : nat) (j : nat) : bytes :=
  if tty cf then [] else
  if (j =? 1)%nat then reached (Z.of_nat c + 1) ++ [LF]
  else if (j =? 5)%nat then released (Z.of_nat c + 1) ++ [LF] else [].

(** What is left to do. *)
Definition kid_weight (k : kid (X:=nat)) : nat :=
  match k with KRun j => 9 - j | KDead => 2 | KGone => 0 end.
Definition weight (ph : phase (Y:=unit)) (ks : list kid) (s : sysv) : nat :=
  (match ph with Forking => (N - length ks) * 10 | _ => 0 end + sumf kid_weight ks)%nat.

(** How far a child is: its position, or past all of them. *)
Definition rank (k : kid (X:=nat)) : nat := match k with KRun j => j | _ => 7 end.

(** The line has reached standard output; the semaphore has been
    decremented; the wait is over. *)
Definition shown (at_ : nat) (k : kid) : bool :=
  if tty cf then (at_ <? rank k)%nat else (S at_ <? rank k)%nat.
Definition said_reached : kid -> bool := shown 0.
Definition said_released : kid -> bool := shown 4.
Definition passed (k : kid) : nat := if (2 <? rank k)%nat then 1 else 0.
Definition past (k : kid) : bool := (3 <? rank k)%nat.

Definition line_reached (c : nat) : bytes := reached (Z.of_nat c + 1) ++ [LF].
Definition line_released (c : nat) : bytes := released (Z.of_nat c + 1) ++ [LF].

(** The output: first the lines of those who reached the barrier, then the
    lines of those released. *)
Record inv (ks : list kid) (s : sysv) (o : bytes) : Prop := {
  i_out : exists R E, o = concat (line_reached <$> R) ++ concat (line_released <$> E) /\
            flagged said_reached ks R /\ flagged said_released ks E;
  i_sem : sv_sems s !! sid = Some (Some [Z.of_nat (N - sumf passed ks); 0]);
  i_adj : sv_adj s = [];
  i_len : (length ks <= N)%nat;
  i_pos : forall c j, ks !! c = Some (KRun j) -> (j <= 6)%nat;
  i_past : forall c k, ks !! c = Some k -> past k = true -> sumf passed ks = N;
}.

Lemma inv_kern ks s s' o :
  sv_sems s' !! sid = sv_sems s !! sid -> sv_adj s' = sv_adj s -> inv ks s o -> inv ks s' o.
Proof. intros Hs Ha [Ho He Hj Hl Hp Hq]. split; [done|congruence|congruence|done..]. Qed.

Lemma sum_length (l : list kid) : (sumf passed l <= length l)%nat.
Proof.
  unfold sumf. induction l as [|x l IH]; [done|].
  change (passed x + sum_list_with passed l <= S (length l))%nat.
  assert (passed x <= 1)%nat by (unfold passed; destruct (2 <? rank x)%nat; lia). lia.
Qed.

(** While some child is not through its decrement, nobody is past the wait. *)
Lemma not_all ks c k :
  (length ks <= N)%nat -> ks !! c = Some k -> passed k = 0%nat -> (sumf passed ks < N)%nat.
Proof.
  intros Hl Hc Hk. pose proof (sumf_insert passed ks c k (KRun 6%nat) Hc) as Hs.
  change (passed (KRun 6%nat)) with 1%nat in Hs.
  pose proof (sum_length (<[c := KRun 6%nat]> ks)) as Hle. rewrite length_insert in Hle. lia.
Qed.

Lemma said_past k : said_released k = true -> past k = true.
Proof. unfold said_released, shown, past. rewrite Nat.ltb_lt. destruct (tty cf); rewrite Nat.ltb_lt; lia. Qed.

Lemma none_released ks s o E :
  inv ks s o -> (sumf passed ks < N)%nat -> flagged said_released ks E -> E = [].
Proof.
  intros HI Hlt HE. apply (flagged_none _ _ _ HE), Forall_lookup. intros c k Hc.
  destruct (said_released k) eqn:Hs; [|done]. apply said_past in Hs.
  rewrite (i_past _ _ _ HI _ _ Hc Hs) in Hlt. lia.
Qed.

(** *** What a child's step may change *)

Section Step.
Context (ks : list (kid (X:=nat))) (s : sysv) (o : bytes) (c : nat) (k k' : kid (X:=nat)).
Hypothesis HI : inv ks s o.
Hypothesis Hc : ks !! c = Some k.
Hypothesis Hpos : forall j, k' = KRun j -> (j <= 6)%nat.

(** A step leaves the positions and the condition on the released. *)
Lemma step_pos d j : <[c := k']> ks !! d = Some (KRun j) -> (j <= 6)%nat.
Proof.
  destruct (decide (c = d)) as [<-|Hne].
  - rewrite list_lookup_insert_eq by (by eapply lookup_lt_Some). intros [= ->]. by apply Hpos.
  - rewrite list_lookup_insert_ne by done. apply (i_pos _ _ _ HI).
Qed.

Lemma step_past :
  (sumf passed ks <= sumf passed (<[c := k']> ks) <= N)%nat ->
  (past k' = true -> past k = true \/ sumf passed ks = N) ->
  forall d x, <[c := k']> ks !! d = Some x -> past x = true -> sumf passed (<[c := k']> ks) = N.
Proof.
  intros Hle Hk d x. destruct (decide (c = d)) as [<-|Hne].
  - rewrite list_lookup_insert_eq by (by eapply lookup_lt_Some). intros [= ->] Hx.
    destruct (Hk Hx) as [Hp|Hp]; [pose proof (i_past _ _ _ HI _ _ Hc Hp)|]; lia.
  - rewrite list_lookup_insert_ne by done. intros Hd Hx.
    pose proof (i_past _ _ _ HI _ _ Hd Hx). lia.
Qed.

Lemma sum_le : (sumf passed ks <= N)%nat.
Proof. etransitivity; [apply sum_length|apply (i_len _ _ _ HI)]. Qed.

(** Steps that leave the semaphore alone; [ol] is what they print. *)
Lemma inv_print ol :
  passed k = passed k' -> (past k' = true -> past k = true \/ sumf passed ks = N) ->
  (exists R E, o ++ ol = concat (line_reached <$> R) ++ concat (line_released <$> E) /\
     flagged said_reached (<[c := k']> ks) R /\ flagged said_released (<[c := k']> ks) E) ->
  inv (<[c := k']> ks) s (o ++ ol).
Proof.
  intros Hp Hq Ho. pose proof (sumf_insert passed ks c k k' Hc) as Hs. pose proof sum_le.
  split; [done| |apply (i_adj _ _ _ HI)|rewrite length_insert; apply (i_len _ _ _ HI)|apply step_pos|].
  - replace (sumf passed (<[c := k']> ks)) with (sumf passed ks) by lia. apply (i_sem _ _ _ HI).
  - apply step_past; [lia|done].
Qed.

Lemma inv_quiet :
  said_reached k = said_reached k' -> said_released k = said_released k' ->
  passed k = passed k' -> (past k' = true -> past k = true \/ sumf passed ks = N) ->
  inv (<[c := k']> ks) s o.
Proof.
  intros Hr He Hp Hq. rewrite <- (app_nil_r o). apply inv_print; [done..|].
  destruct (i_out _ _ _ HI) as (R & E & -> & HR & HE). exists R, E. rewrite app_nil_r.
  split; [done|]. split; by eapply flagged_same.
Qed.

Lemma inv_reached :
  said_reached k = false -> said_reached k' = true -> said_released k = said_released k' ->
  passed k = 0%nat -> passed k' = 0%nat -> past k' = false ->
  inv (<[c := k']> ks) s (o ++ line_reached c).
Proof.
  intros Hr Hr' He Hp Hp' Hq. apply inv_print; [congruence..|].
  destruct (i_out _ _ _ HI) as (R & E & Ho & HR & HE).
  pose proof (not_all _ _ _ (i_len _ _ _ HI) Hc Hp) as Hlt.
  assert (E = []) as -> by (by eapply none_released). cbn in Ho. rewrite app_nil_r in Ho.
  exists (R ++ [c]), []. split; [|split; [by eapply flagged_add|by eapply flagged_same]].
  rewrite Ho, fmap_app, concat_app. cbn. by rewrite !app_nil_r.
Qed.

Lemma inv_released :
  said_reached k = said_reached k' -> said_released k = false -> said_released k' = true ->
  passed k = passed k' -> past k = true ->
  inv (<[c := k']> ks) s (o ++ line_released c).
Proof.
  intros Hr He He' Hp Hq. apply inv_print; [done|by left|].
  destruct (i_out _ _ _ HI) as (R & E & Ho & HR & HE).
  exists R, (E ++ [c]). split; [|split; [by eapply flagged_same|by eapply flagged_add]].
  rewrite Ho, fmap_app, concat_app. cbn. by rewrite !app_nil_r, app_assoc.
Qed.

(** The decrement. *)
Lemma inv_down s' :
  said_reached k = said_reached k' -> said_released k = said_released k' ->
  passed k = 0%nat -> passed k' = 1%nat -> past k' = false ->
  sv_sems s' !! sid = Some (Some [Z.of_nat (N - S (sumf passed ks)); 0]) -> sv_adj s' = [] ->
  inv (<[c := k']> ks) s' o.
Proof.
  intros Hr He Hp Hp' Hq Hs Ha. pose proof (sumf_insert passed ks c k k' Hc) as Hsum.
  pose proof (not_all _ _ _ (i_len _ _ _ HI) Hc Hp) as Hlt.
  assert (E1 : sumf passed (<[c := k']> ks) = S (sumf passed ks)) by lia.
  split; [| |done|rewrite length_insert; apply (i_len _ _ _ HI)|apply step_pos|].
  - destruct (i_out _ _ _ HI) as (R & E & -> & HR & HE). exists R, E. split; [done|].
    split; by eapply flagged_same.
  - by rewrite E1.
  - apply step_past; [lia|congruence].
Qed.
End Step.

(** *** The obligations of [Fan] *)

(** One step of a worker at each position. *)
Definition moved (c j : nat) (s : sysv) (o : bytes)
    : option (prog sysv_call unit * bytes * sysv * bytes) :=
  let next s' o' := Some (code c (S j), obuf c (S j), s', o') in
  let line l := if tty cf then l else [] in
  let flush l := if tty cf then [] else l in
  match j with
  | 0%nat => next s (o ++ line (line_reached c))
  | 1%nat => next s (o ++ flush (line_reached c))
  | 2%nat => match semop (S c) (Z.of_nat sid) 0 (-1) false s with Done _ s' => next s' o | _ => None end
  | 3%nat => match semop (S c) (Z.of_nat sid) 0 0 false s with Done _ s' => next s' o | _ => None end
  | 4%nat => next s (o ++ line (line_released c))
  | 5%nat => next s (o ++ flush (line_released c))
  | _ => None
  end.

Lemma index_fits ks s o c k : inv ks s o -> ks !! c = Some k -> in_int (Z.of_nat c + 1) = true.
Proof.
  intros HI Hc. apply in_int_spec. pose proof (i_len _ _ _ HI). apply lookup_lt_Some in Hc.
  unfold SEMVMX in HN. unfold INT_MIN, INT_MAX. lia.
Qed.

(** A decrement by a child that has not done it, and the wait. *)
Lemma down_ok ks s o c k :
  inv ks s o -> ks !! c = Some k -> passed k = 0%nat ->
  exists s', semop (S c) (Z.of_nat sid) 0 (-1) false s = Done (ok 0) s' /\
    sv_sems s' !! sid = Some (Some [Z.of_nat (N - S (sumf passed ks)); 0]) /\ sv_adj s' = [].
Proof.
  intros HI Hc Hk. pose proof (not_all _ _ _ (i_len _ _ _ HI) Hc Hk) as Hlt.
  pose proof (i_sem _ _ _ HI) as Hs. unfold semop. rewrite BinaryGuard.get_set_nat, Hs. cbn.
  destruct (Z.ltb_spec (Z.of_nat (N - sumf passed ks) + -1) 0); [lia|].
  destruct (Z.gtb_spec (Z.of_nat (N - sumf passed ks) + -1) SEMVMX); [lia|].
  eexists. split; [done|]. cbn. split; [|apply (i_adj _ _ _ HI)].
  rewrite Nat2Z.id, list_lookup_insert_eq by (by eapply lookup_lt_Some). do 4 f_equal. lia.
Qed.

Lemma wait_ok ks s o c :
  inv ks s o ->
  semop c (Z.of_nat sid) 0 0 false s =
  if (sumf passed ks =? N)%nat then Done (ok 0) s else Block.
Proof.
  intros HI. pose proof (i_sem _ _ _ HI) as Hs. pose proof (i_len _ _ _ HI) as Hl.
  pose proof (sum_length ks). unfold semop. rewrite BinaryGuard.get_set_nat, Hs. cbn.
  destruct (Nat.eqb_spec (sumf passed ks) N) as [Hn|Hn].
  - rewrite Hn, Nat.sub_diag. done.
  - destruct (Z.eqb_spec (Z.of_nat (N - sumf passed ks)) 0); [lia|done].
Qed.

Lemma kid_step_moved ks s o c j :
  inv ks s o -> ks !! c = Some (KRun j) ->
  code_step cf (S c) (code c j) (obuf c j) s o = moved c j s o.
Proof.
  intros HI Hc. pose proof (index_fits _ _ _ _ _ HI Hc) as Hi.
  pose proof (i_pos _ _ _ HI _ _ Hc) as Hj.
  unfold code, worker, int_add. rewrite Hi.
  destruct j as [|[|[|[|[|[|[|j]]]]]]]; [..|lia].
  all: unfold moved, code, worker, int_add, obuf, stdio_line, line_reached, line_released; rewrite ?Hi.
  all: cbn -[printed reached released semop tty].
  1,2,5,6,7: unfold stdio_line; by destruct (tty cf).
  - destruct (down_ok _ _ _ _ _ HI Hc ltac:(done)) as (s' & -> & _). done.
  - rewrite (wait_ok _ _ _ _ HI). by destruct (sumf passed ks =? N)%nat.
Qed.

(** Apply a step lemma and evaluate its conditions. *)
Ltac flags lem :=
  apply lem; unfold said_reached, said_released, shown, passed, past;
  try match goal with H : tty cf = _ |- _ => rewrite H end; cbn;
  try (intros ? [=]; subst; lia); auto.

(** Every position has a step that keeps the invariant, apart from the wait
    before the last decrement and the end. *)
Lemma moved_inv ks s o c j q' ob' s' o' :
  inv ks s o -> ks !! c = Some (KRun j) -> moved c j s o = Some (q', ob', s', o') ->
  (j < 6)%nat /\ code c (S j) = q' /\ obuf c (S j) = ob' /\ inv (<[c := KRun (S j)]> ks) s' o'.
Proof.
  intros HI Hc Hm.
  destruct j as [|[|[|[|[|[|j]]]]]]; cbn -[code obuf line_reached line_released semop tty] in Hm; [..|done].
  1,2,5,6: simplify_eq; split_and!; [lia|done..|]; destruct (tty cf) eqn:Ht; rewrite ?app_nil_r.
  - by flags (inv_reached _ _ _ _ _ (KRun 1%nat) HI Hc).
  - by flags (inv_quiet _ _ _ _ _ (KRun 1%nat) HI Hc).
  - by flags (inv_quiet _ _ _ _ _ (KRun 2%nat) HI Hc).
  - by flags (inv_reached _ _ _ _ _ (KRun 2%nat) HI Hc).
  - by flags (inv_released _ _ _ _ _ (KRun 5%nat) HI Hc).
  - by flags (inv_quiet _ _ _ _ _ (KRun 5%nat) HI Hc).
  - by flags (inv_quiet _ _ _ _ _ (KRun 6%nat) HI Hc).
  - by flags (inv_released _ _ _ _ _ (KRun 6%nat) HI Hc).
  - destruct (down_ok _ _ _ _ _ HI Hc ltac:(done)) as (s1 & E & Hs & Ha). rewrite E in Hm.
    simplify_eq. split_and!; [lia|done..|].
    by destruct (tty cf) eqn:Ht; flags (inv_down _ _ _ _ _ (KRun 3%nat) HI Hc).
  - rewrite (wait_ok _ _ _ _ HI) in Hm. destruct (Nat.eqb_spec (sumf passed ks) N) as [Hn|]; [|done].
    simplify_eq. split_and!; [lia|done..|].
    by destruct (tty cf) eqn:Ht; flags (inv_quiet _ _ _ _ _ (KRun 4%nat) HI Hc).
Qed.

Lemma inv_start s o :
  sv_sems s !! sid = Some (Some [Z.of_nat N; 0]) -> sv_adj s = [] -> o = [] -> inv [] s o.
Proof.
  intros Hs Ha ->. split; [|by rewrite Nat.sub_0_r|done|cbn; lia|done|done].
  exists [], []. split; [done|]. split; apply flagged_nil.
Qed.

Lemma inv_fork ks s o :
  inv ks s o -> (length ks < N)%nat -> inv (ks ++ [KRun 0%nat]) (kfork 0 (S (length ks)) s) o.
Proof.
  intros HI Hl. apply (inv_kern _ s); [done|done|].
  assert (Hsum : sumf passed (ks ++ [KRun 0%nat]) = sumf passed ks)
    by (rewrite sumf_app; unfold sumf; cbn; lia).
  destruct HI as [(R & E & Ho & HR & HE) Hs Ha Hn Hp Hq]. split; rewrite ?Hsum; try done.
  - exists R, E. split; [done|]. split; (apply flagged_snoc; [done|]);
      unfold said_reached, said_released, shown; by destruct (tty cf).
  - rewrite length_app. cbn. lia.
  - intros c j [Hc|[_ Hc]]%lookup_app_Some; [by eapply Hp|].
    apply list_lookup_singleton_Some in Hc as [_ [= <-]]. lia.
  - intros c k [Hc|[_ Hc]]%lookup_app_Some; [by eapply Hq|].
    by apply list_lookup_singleton_Some in Hc as [_ <-].
Qed.

Lemma inv_exit ks s o c j a :
  inv ks s o -> ks !! c = Some (KRun j) -> code c j = Ret a ->
  inv (<[c := KDead]> ks) (kexit (S c) s) o.
Proof.
  intros HI Hc Hr. assert (j = 6%nat) as ->.
  { pose proof (index_fits _ _ _ _ _ HI Hc) as Hi. pose proof (i_pos _ _ _ HI _ _ Hc) as Hj.
    unfold code, worker, int_add in Hr. rewrite Hi in Hr.
    destruct j as [|[|[|[|[|[|[|j]]]]]]]; [done..|lia]. }
  apply (inv_kern _ s); [|cbn; by rewrite (i_adj _ _ _ HI)|].
  { cbn. by rewrite (i_adj _ _ _ HI). }
  by destruct (tty cf) eqn:Ht; flags (inv_quiet _ _ _ _ _ KDead HI Hc).
Qed.

Lemma inv_reap ks s o c :
  inv ks s o -> ks !! c = Some KDead -> inv (<[c := KGone]> ks) s o.
Proof.
  intros HI Hc. by destruct (tty cf) eqn:Ht; flags (inv_quiet _ _ _ _ _ KGone HI Hc).
Qed.

Lemma behind (l : list kid) :
  (sumf passed l < length l)%nat -> exists c k, l !! c = Some k /\ passed k = 0%nat.
Proof.
  unfold sumf. induction l as [|x l IH]; [cbn; lia|].
  change (passed x + sum_list_with passed l < S (length l) -> exists c k,
    (x :: l) !! c = Some k /\ passed k = 0)%nat.
  destruct (passed x) as [|n] eqn:Hx; [by exists 0%nat, x|]. intros Hlt.
  destruct IH as (c & k & Hc & Hk); [lia|]. by exists (S c), k.
Qed.

(** Somebody can run: a worker before its decrement, or else any of them. *)
Lemma inv_progress ks s o :
  inv ks s o -> length ks = N -> (exists c j, ks !! c = Some (KRun j)) ->
  exists c j, ks !! c = Some (KRun j) /\
    ((exists a, code c j = Ret a) \/ is_Some (code_step cf (S c) (code c j) (obuf c j) s o)).
Proof.
  intros HI Hl (c & j & Hc). destruct (decide (sumf passed ks = N)) as [Hn|Hn].
  - exists c, j. split; [done|]. rewrite (kid_step_moved _ _ _ _ _ HI Hc).
    pose proof (index_fits _ _ _ _ _ HI Hc) as Hi. pose proof (i_pos _ _ _ HI _ _ Hc) as Hj.
    destruct j as [|[|[|[|[|[|[|j]]]]]]]; [by right..| | |by right|by right| |lia].
    + right. destruct (down_ok _ _ _ _ _ HI Hc eq_refl) as (s' & E & _). cbn -[semop]. by rewrite E.
    + right. cbn -[semop]. rewrite (wait_ok _ _ _ _ HI), Hn, Nat.eqb_refl. done.
    + left. unfold code, worker, int_add. rewrite Hi. by eexists.
  - destruct (behind ks) as (d & k & Hd & Hk).
    { pose proof (sum_length ks). lia. }
    destruct k as [i| |]; [|done..]. exists d, i. split; [done|]. right.
    rewrite (kid_step_moved _ _ _ _ _ HI Hd).
    destruct i as [|[|[|i]]]; [done|done| |done]. 
    destruct (down_ok _ _ _ _ _ HI Hd eq_refl) as (s' & E & _). cbn -[semop]. by rewrite E.
Qed.

(** *** The program *)

(** All the workers are gone: everybody was announced twice. *)
Lemma inv_end s o :
  inv (replicate N KGone) s o ->
  (exists R E, R ≡ₚ seq 0 N /\ E ≡ₚ seq 0 N /\
     o = concat (line_reached <$> R) ++ concat (line_released <$> E)) /\
  sv_sems s !! sid = Some (Some [0; 0]) /\ sv_adj s = [].
Proof.
  intros [(R & E & Ho & HR & HE) Hs Ha Hl Hp Hq]. split; [|split; [|done]].
  - exists R, E. split; [|split; [|done]].
    + apply flagged_all in HR; [by rewrite length_replicate in HR|].
      apply Forall_replicate. unfold said_reached, shown. by destruct (tty cf).
    + apply flagged_all in HE; [by rewrite length_replicate in HE|].
      apply Forall_replicate. unfold said_released, shown. by destruct (tty cf).
  - rewrite (sumf_const _ _ 1%nat), length_replicate in Hs by (by apply Forall_replicate).
    by rewrite Nat.mul_1_r, Nat.sub_diag in Hs.
Qed.
End Barrier.

(** The parent prints nothing while it waits. *)
Definition phase_inv cf N sid (ph : phase (Y:=unit)) (ks : list kid) (s : sysv) (o : bytes) : Prop :=
  match ph with Waiting b => b = [] | _ => True end /\ inv cf N sid ks s o.

Lemma weight_insert N ph ks s s' c k k' :
  ks !! c = Some k -> (kid_weight k' < kid_weight k)%nat ->
  (weight N ph (<[c := k']> ks) s' < weight N ph ks s)%nat.
Proof.
  intros Hc Hlt. unfold weight. rewrite length_insert.
  pose proof (sumf_insert kid_weight ks c _ k' Hc). destruct ph; lia.
Qed.

Lemma spawn_inv cf N sid fin (HN : Z.of_nat N <= SEMVMX) (Q : world sysv_call sysv -> Prop) s o :
  inv cf N sid [] s o ->
  (forall s' o', inv cf N sid (replicate N KGone) s' o' ->
     total cf (World (Process (Live fin) None [] ::
                      replicate N (Process Reaped (Some 0%nat) [])) s' o' []) Q) ->
  total cf (World [Process (Live (spawn N 0 (worker (Z.of_nat sid)) (Ret tt) fin)) None []] s o []) Q.
Proof.
  intros H0 Hfin.
  apply (spawn_total cf N 0 (worker (Z.of_nat sid)) (Ret tt) fin [] (code sid) (obuf cf) 0%nat
           (fun _ : unit => Ret tt) (fun _ => []) tt (phase_inv cf N sid) (weight N)).
  - intros c. split; [done|]. unfold obuf. by destruct (tty cf).
  - done.
  - intros ks s1 o1 [_ HI] Hl. split; [split; [done|by apply inv_fork]|].
    unfold weight. rewrite length_app, sumf_app. unfold sumf. cbn. lia.
  - intros ks s1 o1 [_ HI] Hl. split; [done|]. unfold weight. lia.
  - intros ph ks s1 o1 c j [_ HI] Hc. pose proof (index_fits _ _ _ HN _ _ _ _ _ HI Hc) as Hi.
    pose proof (i_pos _ _ _ _ _ _ HI _ _ Hc) as Hj. unfold code, worker, int_add. rewrite Hi.
    destruct j as [|[|[|[|[|[|[|j]]]]]]]; [done|done| | |done..|lia]; cbn -[semop].
    + by destruct (down_ok _ _ _ HN _ _ _ _ _ HI Hc eq_refl) as (s' & -> & _).
    + rewrite (wait_ok _ _ _ _ _ _ _ HI). by destruct (_ =? _)%nat.
  - done.
  - intros ph ks s1 o1 c j q' ob' s' o' [Hb HI] Hc Hs. rewrite (kid_step_moved _ _ _ HN _ _ _ _ _ HI Hc) in Hs.
    destruct (moved_inv _ _ _ HN _ _ _ _ _ _ _ _ _ HI Hc Hs) as (Hj & Hq & Hob & HI').
    exists (S j). split_and!; [done..|]. apply (weight_insert _ _ _ _ _ _ _ _ Hc). cbn. lia.
  - done.
  - intros y ks s1 o1 a [_ HI] _. split; [done|]. unfold weight. lia.
  - intros ph ks s1 o1 c j a [Hb HI] Hc Ha. split; [split; [done|by eapply inv_exit]|].
    apply (weight_insert _ _ _ _ _ _ _ _ Hc). pose proof (i_pos _ _ _ _ _ _ HI _ _ Hc). cbn. lia.
  - intros b ks s1 o1 c [Hb HI] Hc. split; [split; [done|by apply inv_reap]|].
    apply (weight_insert _ _ _ _ _ _ _ _ Hc). cbn. lia.
  - intros ph ks s1 o1 [_ HI] Hl Hp. apply (inv_progress _ N); [done..|]. destruct ph; [done|by destruct Hp as [_ Hp]; destruct (Hp tt)|done].
  - done.
  - intros b s1 o1 [-> HI]. by apply Hfin.
Qed.

Section Setup.
Context (sems : list (option (list Z))) (segs : list (option segment)) (N : nat).
Abbreviation sid := (length sems).

Lemma setup_semget2 :
  sysv_exec 0 (Semget 2) (SysvState sems [] segs []) =
  Done (ok (Z.of_nat sid)) (SysvState (sems ++ [Some [0; 0]]) [] segs []).
Proof. done. Qed.

Lemma setup_setall :
  sysv_exec 0 (SemctlSetall (Z.of_nat sid) [Z.of_nat N; 0]) (SysvState (sems ++ [Some [0; 0]]) [] segs []) =
  Done (ok 0) (SysvState (sems ++ [Some [Z.of_nat N; 0]]) [] segs []).
Proof.
  cbn. rewrite BinaryGuard.get_set_nat. cbn. rewrite lookup_app_r, Nat.sub_diag by done. cbn.
  unfold forget_adj, put_set, set_adj. cbn. do 2 f_equal.
  rewrite Nat2Z.id, insert_app_r_alt, Nat.sub_diag by done. done.
Qed.

Lemma removed s vs :
  sv_sems s !! sid = Some (Some vs) -> sv_adj s = [] ->
  exists s', sysv_exec 0 (SemctlRmid (Z.of_nat sid)) s = Done (ok 0) s' /\
    sv_sems (kexit 0 s') !! sid = Some None.
Proof.
  intros Hs Ha. cbn. rewrite BinaryGuard.get_set_nat, Hs. cbn. eexists. split; [done|].
  cbn. rewrite Ha. cbn. rewrite Nat2Z.id. apply list_lookup_insert_eq. by eapply lookup_lt_Some.
Qed.
End Setup.

(** C14. [sysv_semaphore_set_barrier.c] is a barrier: for any number of workers
    a semaphore can count and under every schedule, the program terminates,
    every worker says once that it reached the barrier and once that it was
    released, no release line comes before any line of an arrival, the exit
    code is 0, every child is reaped and the semaphore set is removed. *)
Theorem sysv_barrier_correct cf workers sems segs :
  Z.of_nat workers <= SEMVMX ->
  total cf (boot (program workers) (SysvState sems [] segs [])) (fun w =>
    (exists R E, R ≡ₚ seq 0 workers /\ E ≡ₚ seq 0 workers /\
       finished 0 (concat (line_reached <$> R) ++ concat (line_released <$> E)) w) /\
    sv_sems (kern w) !! length sems = Some None).
Proof.
  intros HN. last_call (apply setup_semget2).
  cbn [rv ok]. rewrite BinaryGuard.nat_not_minus_one.
  last_call (apply setup_setall).
  apply (spawn_inv cf workers (length sems)); [done| |].
  - apply inv_start; [|done..]. cbn. by rewrite lookup_app_r, Nat.sub_diag by done.
  - intros s o ((R & E & HR & HE & Ho) & Hs & Ha)%inv_end.
    destruct (removed _ _ _ Hs Ha) as (s' & Hrm & Hk).
    last_call (exact Hrm).
    last_end. split; [|exact Hk].
    exists R, E. split; [done|]. split; [done|].
    split; [eexists; cbn; by rewrite length_replicate|]. cbn. by rewrite app_nil_r.
Qed.

(** The program itself has three workers. *)
Lemma sysv_barrier_witness :
  Z.of_nat 3 <= SEMVMX /\
  total (Config true 1) (boot main (SysvState [] [] [] [])) (fun w =>
    (exists R E, R ≡ₚ seq 0 3 /\ E ≡ₚ seq 0 3 /\
       finished 0 (concat (line_reached <$> R) ++ concat (line_released <$> E)) w) /\
    sv_sems (kern w) !! 0%nat = Some None).
Proof.
  split; [by vm_compute|]. apply (sysv_barrier_correct (Config true 1) 3 [] []). by vm_compute.
Defined.
