(* ===== verification/Files.v ===== *)
(** * Files: descriptors, open file descriptions, locks and file mappings

    The kernel behind the programs of [FileLocking] and
    [SharedMemory/mmap_file_lock_counter.c].  It keeps the three levels that
    the lock calls tell apart: the descriptors of each process, the open file
    descriptions they refer to (shared across [fork]), and the files.  POSIX
    record locks belong to a process, open-file-description locks and [flock]
    locks to a description. *)

From S2P Require Import Prelude Fmt Posix Explore Common Guarded.

Inductive owner : Type :=
| ByProc (i : nat)
| ByOfd (o : nat).

#[export] Instance owner_eq_dec : EqDecision owner.
Proof. solve_decision. Defined.

(** A write lock on the bytes [lo, hi) of a file. *)
Record lock := Lock { lk_inode : nat; lk_owner : owner; lk_lo : Z; lk_hi : Z }.

Record ofd := Ofd { o_inode : nat; o_off : nat }.

Record files := FilesState {
  f_names : list (bytes * nat);
  f_inodes : list bytes;
  f_ofds : list ofd;
  f_fds : list (list (option nat));
  f_locks : list lock;
  f_flocks : list (nat * nat);
}.

Inductive file_call : Type :=
| Open (path : bytes) (creat trunc : bool)
| Ftruncate (fd : Z) (len : nat)
| Mmap (fd : Z)
| LoadInt (addr : Z)
| StoreInt (addr v : Z)
| SetLk (fd : Z) (by_ofd wait unlock : bool) (start len : Z)
| Flock (fd : Z) (unlock nonblock : bool)
| Pwrite (fd : Z) (data : bytes) (off : nat)
| Write (fd : Z) (data : bytes)
| Unlink (path : bytes).

(** ** Integers in a mapped file: four bytes, least significant first *)

Definition byte_at (v : Z) (k : Z) : ascii := ascii_of_nat (Z.to_nat ((v / 256 ^ k) mod 256)).
Definition encode_int (v : Z) : bytes := [byte_at v 0; byte_at v 1; byte_at v 2; byte_at v 3].
Definition byte_val (c : ascii) : Z := Z.of_nat (nat_of_ascii c).
Definition decode_int (b : bytes) : option Z :=
  match b with
  | b0 :: b1 :: b2 :: b3 :: _ =>
      let u := byte_val b0 + 256 * byte_val b1 + 65536 * byte_val b2 + 16777216 * byte_val b3 in
      Some (if u <? 2 ^ 31 then u else u - 2 ^ 32)
  | _ => None
  end.

(** ** Files *)

Definition path_eqb (a b : bytes) : bool := bool_decide (a = b).
Definition find_path (path : bytes) (l : list (bytes * nat)) : option nat :=
  snd <$> List.find (fun e => path_eqb path e.1) l.

(** [data] written at [off]: a gap is filled with holes. *)
Definition splice (off : nat) (data old : bytes) : bytes :=
  take off (old ++ replicate (off - length old) hole) ++ data ++ drop (off + length data) old.

Definition set_inode (s : files) (n : nat) (b : bytes) : files :=
  FilesState (f_names s) (<[n := b]> (f_inodes s)) (f_ofds s) (f_fds s) (f_locks s) (f_flocks s).
Definition set_locks (s : files) (l : list lock) : files :=
  FilesState (f_names s) (f_inodes s) (f_ofds s) (f_fds s) l (f_flocks s).
Definition set_flocks (s : files) (l : list (nat * nat)) : files :=
  FilesState (f_names s) (f_inodes s) (f_ofds s) (f_fds s) (f_locks s) l.

(** The lowest free descriptor; 0 to 2 are the standard streams. *)
Definition alloc_fd (t : list (option nat)) (o : nat) : Z * list (option nat) :=
  match find_idx (fun e => match e with None => true | Some _ => false end) t with
  | Some n => (3 + Z.of_nat n, <[n := Some o]> t)
  | None => (3 + Z.of_nat (length t), t ++ [Some o])
  end.

Definition fd_table (s : files) (i : nat) : list (option nat) := default [] (f_fds s !! i).
Definition fd_ofd (s : files) (i : nat) (fd : Z) : option nat :=
  if fd <? 3 then None else default None (fd_table s i !! Z.to_nat (fd - 3)).

(** The description and the file behind a descriptor. *)
Definition with_fd (i : nat) (fd : Z) (s : files) (f : nat -> ofd -> bytes -> kres files) : kres files :=
  match fd_ofd s i fd with
  | Some o =>
      match f_ofds s !! o with
      | Some d =>
          match f_inodes s !! o_inode d with
          | Some b => f o d b
          | None => Fault
          end
      | None => Fault
      end
  | None => Done (failed EBADF) s
  end.

(** ** Locks *)

Definition OFFSET_END : Z := 2 ^ 63.

(** [l_len = 0] means up to the end of any file. *)
Definition range_end (start len : Z) : Z := if len =? 0 then OFFSET_END else start + len.

Definition overlaps (l : lock) (n : nat) (lo hi : Z) : bool :=
  Nat.eqb (lk_inode l) n && (lk_lo l <? hi) && (lo <? lk_hi l).
Definition conflicts (l : lock) (w : owner) (n : nat) (lo hi : Z) : bool :=
  negb (bool_decide (lk_owner l = w)) && overlaps l n lo hi.

(** What is left of a lock of [w] when the range is taken out of it. *)
Definition cut (w : owner) (n : nat) (lo hi : Z) (l : lock) : list lock :=
  if bool_decide (lk_owner l = w) && overlaps l n lo hi then
    (if lk_lo l <? lo then [Lock n w (lk_lo l) lo] else []) ++
    (if hi <? lk_hi l then [Lock n w hi (lk_hi l)] else [])
  else [l].

Definition set_lk (w : owner) (wait unlock : bool) (n : nat) (lo hi : Z) (s : files) : kres files :=
  if unlock then Done (ok 0) (set_locks s (f_locks s ≫= cut w n lo hi))
  else if existsb (fun l => conflicts l w n lo hi) (f_locks s) then
    if wait then Block else Done (failed EAGAIN) s
  else Done (ok 0) (set_locks s (Lock n w lo hi :: (f_locks s ≫= cut w n lo hi))).

Definition file_exec (i : nat) (c : file_call) (s : files) : kres files :=
  match c with
  | Open path creat trunc =>
      let '(t, o) := (fd_table s i, length (f_ofds s)) in
      let '(fd, t') := alloc_fd t o in
      let opened n names inodes :=
        Done (ok fd) (FilesState names inodes (f_ofds s ++ [Ofd n 0]) (<[i := t']> (f_fds s))
                        (f_locks s) (f_flocks s)) in
      match find_path path (f_names s) with
      | Some n => opened n (f_names s) (if trunc then <[n := []]> (f_inodes s) else f_inodes s)
      | None =>
          if creat then
            opened (length (f_inodes s)) ((path, length (f_inodes s)) :: f_names s) (f_inodes s ++ [[]])
          else Done (failed ENOENT) s
      end
  | Ftruncate fd len =>
      with_fd i fd s (fun _ d b => Done (ok 0) (set_inode s (o_inode d) (resize len hole b)))
  | Mmap fd => with_fd i fd s (fun _ d _ => Done (ok (Z.of_nat (o_inode d))) s)
  | LoadInt addr =>
      match f_inodes s !! Z.to_nat addr ≫= decode_int with
      | Some v => Done (ok v) s
      | None => Fault
      end
  | StoreInt addr v =>
      match f_inodes s !! Z.to_nat addr with
      | Some (_ :: _ :: _ :: _ :: rest) =>
          Done (ok 0) (set_inode s (Z.to_nat addr) (encode_int v ++ rest))
      | _ => Fault
      end
  | SetLk fd by_ofd wait unlock start len =>
      with_fd i fd s (fun o d _ =>
        set_lk (if by_ofd then ByOfd o else ByProc i) wait unlock (o_inode d)
          start (range_end start len) s)
  | Flock fd unlock nonblock =>
      with_fd i fd s (fun o d _ =>
        let others := List.filter (fun e => negb (Nat.eqb e.2 o)) (f_flocks s) in
        if unlock then Done (ok 0) (set_flocks s others)
        else if existsb (fun e => Nat.eqb e.1 (o_inode d)) others then
          if nonblock then Done (failed EAGAIN) s else Block
        else Done (ok 0) (set_flocks s ((o_inode d, o) :: others)))
  | Pwrite fd data off =>
      with_fd i fd s (fun _ d b =>
        Done (ok (blen data)) (set_inode s (o_inode d) (splice off data b)))
  | Write fd data =>
      with_fd i fd s (fun o d b =>
        let s' := set_inode s (o_inode d) (splice (o_off d) data b) in
        Done (ok (printed data))
          (FilesState (f_names s') (f_inodes s')
             (<[o := Ofd (o_inode d) (o_off d + length data)]> (f_ofds s'))
             (f_fds s') (f_locks s') (f_flocks s')))
  | Unlink path =>
      match find_path path (f_names s) with
      | Some _ =>
          Done (ok 0) (FilesState (List.filter (fun e => negb (path_eqb path e.1)) (f_names s))
                         (f_inodes s) (f_ofds s) (f_fds s) (f_locks s) (f_flocks s))
      | None => Done (failed ENOENT) s
      end
  end.

Definition file_fails (c : file_call) (e : errno) : bool :=
  match c with
  | Open _ _ _ => bool_decide (e = EMFILE \/ e = EPERM)
  | Mmap _ => bool_decide (e = ENOMEM)
  | SetLk _ _ true false _ _ => bool_decide (e = EINTR \/ e = EDEADLK \/ e = ENOLCK)
  | SetLk _ _ _ _ _ _ => bool_decide (e = ENOLCK)
  | Flock _ false false => bool_decide (e = EINTR)
  | _ => false
  end.

(** Is some descriptor still referring to description [o]? *)
Definition referenced (fds : list (list (option nat))) (o : nat) : bool :=
  existsb (existsb (fun e => bool_decide (e = Some o))) fds.

(** Termination closes every descriptor of the process: its record locks
    go, and the locks of descriptions nobody refers to any more. *)
Definition file_exit (i : nat) (s : files) : files :=
  let fds := <[i := []]> (f_fds s) in
  FilesState (f_names s) (f_inodes s) (f_ofds s) fds
    (List.filter (fun l => match lk_owner l with
                           | ByProc j => negb (Nat.eqb i j)
                           | ByOfd o => referenced fds o
                           end) (f_locks s))
    (List.filter (fun e => referenced fds e.2) (f_flocks s)).

#[export] Instance file_kernel : Kernel file_call files := {|
  kexec := file_exec;
  kfails := file_fails;
  kfork := fun i j s =>
    FilesState (f_names s) (f_inodes s) (f_ofds s) (f_fds s ++ [fd_table s i])
      (f_locks s) (f_flocks s);
  kexit := file_exit;
|}.

(** A file system that may hold an old version of one file; the first
    process has only its standard streams open. *)
Definition disk (path : bytes) (old : option bytes) : files :=
  match old with
  | Some b => FilesState [(path, 0%nat)] [b] [] [[]] [] []
  | None => FilesState [] [] [] [[]] [] []
  end.

(** Opening with [O_CREAT | O_TRUNC] makes what was there irrelevant. *)
Definition fresh (path : bytes) : files :=
  FilesState [(path, 0%nat)] [[]] [Ofd 0 0] [[Some 0%nat]] [] [].

Lemma path_eqb_refl path : path_eqb path path = true.
Proof. unfold path_eqb. by apply bool_decide_eq_true. Qed.

Lemma open_fresh path old :
  file_exec 0 (Open path true true) (disk path old) = Done (ok 3) (fresh path).
Proof.
  destruct old; unfold disk, file_exec, find_path; cbn; [|done]. by rewrite path_eqb_refl.
Qed.

Lemma layers_open cf (main : prog file_call Z) path old k Q :
  main = Sys (Open path true true) k ->
  layers cf main Q [AWorld [AProc (ALive [ok 3]) None []] (fresh path) [] []] ->
  total cf (boot main (disk path old)) Q.
Proof.
  intros -> Hl. eapply layers_second; [|exact Hl].
  unfold run_step. cbn -[file_exec disk]. by rewrite open_fresh.
Qed.

(** ** The two int representations agree *)

Lemma byte_val_at v k : 0 <= k -> byte_val (byte_at v k) = (v / 256 ^ k) mod 256.
Proof.
  intros Hk. unfold byte_val, byte_at. pose proof (Z.mod_pos_bound (v / 256 ^ k) 256 ltac:(lia)).
  rewrite nat_ascii_embedding; lia.
Qed.

Lemma decode_encode v rest : in_int v = true -> decode_int (encode_int v ++ rest) = Some v.
Proof.
  rewrite in_int_spec. unfold INT_MIN, INT_MAX. intros Hv. cbn [decode_int encode_int app].
  rewrite !byte_val_at by lia. change (256 ^ 0) with 1. change (256 ^ 1) with 256.
  change (256 ^ 2) with 65536. change (256 ^ 3) with 16777216. rewrite Z.div_1_r.
  assert (E : v mod 256 + 256 * ((v / 256) mod 256) + 65536 * ((v / 65536) mod 256) +
              16777216 * ((v / 16777216) mod 256) = v mod 2 ^ 32).
  { change 65536 with (256 * 256). change 16777216 with (256 * 256 * 256).
    change (2 ^ 32) with (256 * (256 * (256 * 256))). rewrite <- !Z.div_div by lia.
    rewrite (Z.rem_mul_r v 256), (Z.rem_mul_r (v / 256) 256), (Z.rem_mul_r (v / 256 / 256) 256) by lia.
    lia. }
  rewrite E. f_equal. destruct (Z.ltb_spec (v mod 2 ^ 32) (2 ^ 31)) as [H|H].
  - destruct (Z_lt_dec v 0); [|apply Z.mod_small; lia].
    rewrite <- (Z.mod_add v 1) in H by lia. rewrite Z.mod_small in H; lia.
  - destruct (Z_lt_dec v 0); [|rewrite Z.mod_small in H; lia].
    rewrite <- (Z.mod_add v 1) by lia. rewrite Z.mod_small; lia.
Qed.
