(* ===== verification/FileLocks.v ===== *)
(** * FileLocks: the programs that lock files

    [SharedMemory/mmap_file_lock_counter.c] and the five programs of
    [FileLocking]. *)

From S2P Require Import Prelude Fmt Posix Explore Common Guarded Files.

(** ** [SharedMemory/mmap_file_lock_counter.c] *)

Module MmapCounter.
Definition FILE_PATH : bytes := B "/tmp/ipc_mmap_counter.dat".
Definition CHILDREN : nat := 4.
Definition ITERATIONS : nat := 1000.
Definition sizeof_int : nat := 4.

(** [lock_region]: the whole file, through the process's record locks. *)
Definition lock_reply (r : reply) : prog file_call unit :=
  if rv r =? -1 then die_errno (rerr r) (B "fcntl") else Ret tt.
Definition lock_region (fd : Z) (unlock : bool) : prog file_call unit :=
  Sys (SetLk fd false true unlock 0 0) lock_reply.

Definition count (fd counter : Z) : prog file_call unit :=
  for_ ITERATIONS 0 (fun j =>
    critical (lock_region fd false) (lock_region fd true) (LoadInt counter) (StoreInt counter) 1).

Definition main : prog file_call Z :=
  fd <- sys (Open FILE_PATH true true) ;;
  if rv fd =? -1 then die_errno (rerr fd) (B "open") else
  sys (Ftruncate (rv fd) sizeof_int) ;;;
  counter <- sys (Mmap (rv fd)) ;;
  if rv counter =? -1 then die_errno (rerr counter) (B "mmap") else
  sys (StoreInt (rv counter) 0) ;;;
  for_ CHILDREN 0 (fun i => fork_child (count (rv fd) (rv counter))) ;;;
  reap_all_children ;;;
  v <- sys (LoadInt (rv counter)) ;;
  proc (Printf (B "counter=" ++ fmt_d (rv v) ++ B " expected=" ++
                fmt_d (Z.of_nat (CHILDREN * ITERATIONS)) ++ [LF])) ;;;
  sys (Unlink FILE_PATH) ;;;
  Ret 0.

(** The record lock of the holder is the only lock; every live process has
    the file open as descriptor 3; the file holds the counter. *)
Record guards (L : list bool) (h : option nat) (v : Z) (s : files) : Prop := {
  g_locks : f_locks s = match h with None => [] | Some i => [Lock 0 (ByProc i) 0 OFFSET_END] end;
  g_ofds : f_ofds s = [Ofd 0 0];
  g_names : f_names s = [(FILE_PATH, 0%nat)];
  g_inode : f_inodes s = [encode_int v];
  g_int : in_int v = true;
  g_len : length (f_fds s) = length L;
  g_fds : forall i, L !! i = Some true -> f_fds s !! i = Some [Some 0%nat];
}.

Lemma guards_fd L h v s i f :
  guards L h v s -> L !! i = Some true ->
  with_fd i 3 s f = f 0%nat (Ofd 0 0) (encode_int v).
Proof.
  intros [Hl Ho Hnm Hn Hi Hlen Hf] HL. unfold with_fd, fd_ofd, fd_table. cbn.
  rewrite (Hf i HL). cbn. by rewrite Ho; cbn; rewrite Hn.
Qed.

Lemma guards_locks L h h' v s :
  guards L h v s ->
  guards L h' v (set_locks s match h' with None => [] | Some i => [Lock 0 (ByProc i) 0 OFFSET_END] end).
Proof. intros [Hl Ho Hnm Hn Hi Hlen Hf]. by split. Qed.

#[export] Instance record_lock_guard :
  MutexGuard (SetLk 3 false true false 0 0) (SetLk 3 false true true 0 0)
    (LoadInt 0) (StoreInt 0) lock_reply lock_reply guards.
Proof.
  split.
  - intros L v s i Hg HL. cbn. erewrite guards_fd by done. unfold set_lk. cbn.
    rewrite (g_locks _ _ _ _ Hg). cbn. eexists _, _. split; [done|]. split; [done|].
    by apply (guards_locks _ _ (Some i)) in Hg.
  - intros L j v s i Hg HL Hne. cbn. erewrite guards_fd by done. unfold set_lk. cbn.
    rewrite (g_locks _ _ _ _ Hg). cbn. unfold conflicts. cbn.
    rewrite bool_decide_false by congruence. done.
  - intros L v s i Hg HL. cbn. erewrite guards_fd by done. unfold set_lk. cbn.
    rewrite (g_locks _ _ _ _ Hg). cbn. unfold cut. cbn. rewrite bool_decide_true by done. cbn.
    eexists _, _. split; [done|]. split; [done|]. by apply (guards_locks _ _ None) in Hg.
  - intros L h v s i Hg HL. cbn [kexec file_kernel file_exec]. rewrite (g_inode _ _ _ _ Hg).
    pose proof (decode_encode v [] (g_int _ _ _ _ Hg)) as Hd. rewrite app_nil_r in Hd.
    exists (ok v). split; [|done]. change ([encode_int v] !! Z.to_nat 0) with (Some (encode_int v)).
    cbn [mbind option_bind]. by rewrite Hd.
  - intros L h v s i v' Hg HL Hv'. cbn. rewrite (g_inode _ _ _ _ Hg). cbn.
    eexists _, _. split; [done|]. destruct Hg as [Hl Ho Hnm Hn Hi Hlen Hf]. split; try done.
    cbn. by rewrite Hn.
  - intros L h v s [Hl Ho Hnm Hn Hi Hlen Hf] H0. split; cbn; try done.
    + by rewrite !length_app, Hlen.
    + intros i HL. rewrite lookup_app in HL. rewrite lookup_app.
      destruct (L !! i) as [b|] eqn:E.
      * simplify_eq. by rewrite (Hf i E).
      * apply list_lookup_singleton_Some in HL as [Hz _]. apply lookup_ge_None in E.
        rewrite (lookup_ge_None_2 (f_fds s)) by lia. replace (i - length (f_fds s))%nat with 0%nat by lia.
        cbn. unfold fd_table. by rewrite (Hf 0%nat H0).
  - intros L h v s i [Hl Ho Hnm Hn Hi Hlen Hf] HL Hne. split; cbn; try done.
    + rewrite Hl. destruct h as [j|]; [|done]. cbn.
      destruct (Nat.eqb_spec i j); [congruence|done].
    + by rewrite !length_insert.
    + intros j HL'. destruct (decide (i = j)) as [->|Hij].
      * rewrite list_lookup_insert_eq in HL' by (by eapply lookup_lt_Some). done.
      * rewrite list_lookup_insert_ne in HL' by done.
        rewrite list_lookup_insert_ne by done. by apply Hf.
Qed.

(** C17. [mmap_file_lock_counter.c] is correct under every schedule,
    whatever an earlier run left in the file: however its five processes are
    interleaved, the program terminates, no increment of the mapped counter is
    lost, it prints [counter=4000 expected=4000], exits with 0, reaps its
    children, leaves no lock and removes the file. *)
Theorem mmap_file_lock_counter_correct cf old :
  total cf (boot main (disk FILE_PATH old)) (fun w =>
    finished 0 (ln "counter=4000 expected=4000") w /\
    f_names (kern w) = [] /\ f_locks (kern w) = []).
Proof.
  last_call (apply open_fresh).
  last_call (reflexivity).
  last_call (reflexivity).
  last_call (reflexivity).
  apply (fan_out_total cf _ _ _ _ _ _ guards 1 4 1000); [done..| |].
  - intros s Hg.
    edestruct guard_load as (r & Hr & Hv); [exact Hg|by instantiate (1 := 0%nat)|].
    last_call (exact Hr). rewrite Hv.
    last_print.
    last_call (cbn; rewrite (g_names _ _ _ _ Hg); reflexivity).
    last_end. split; [split; [by eexists|split; [exact Ho|done]]|].
    cbn. by rewrite (g_locks _ _ _ _ Hg).
  - split; try done. intros i Hi. by destruct i.
Qed.
End MmapCounter.

(** ** [FileLocking/deadlock_avoidance_ordering.c] *)

Module Ordered.
Definition FILE_PATH : bytes := B "/tmp/ipc_ordered_locks.dat".

Definition lock_byte (fd byte : Z) : prog file_call unit :=
  r <- sys (SetLk fd false true false byte 1) ;;
  if rv r =? -1 then die_errno (rerr r) (B "lock byte") else Ret tt.

Definition announcement (pid : Z) : bytes :=
  B "process " ++ fmt_id pid ++ B " acquired locks in global order".

Definition child (fd : Z) : prog file_call unit :=
  lock_byte fd 0 ;;;
  lock_byte fd 1 ;;;
  pid <- proc Getpid ;;
  proc (Println (announcement (rv pid))) ;;;
  proc Fflush ;;;
  Ret tt.

Definition main : prog file_call Z :=
  fd <- sys (Open FILE_PATH true true) ;;
  if rv fd =? -1 then die_errno (rerr fd) (B "open") else
  sys (Ftruncate (rv fd) 2) ;;;
  for_ 2 0 (fun i => fork_child (child (rv fd))) ;;;
  reap_all_children ;;;
  sys (Unlink FILE_PATH) ;;;
  Ret 0.

(** The two lines, in one order or the other. *)
Definition line (cf : config) (i : nat) : bytes := announcement (pid_of cf i) ++ [LF].

(** C21. [deadlock_avoidance_ordering.c] never deadlocks: under every
    schedule both children get both locks, one after the other, each prints
    its line, and the program ends with no lock held and the file removed. *)
Theorem ordered_locks_no_deadlock cf old :
  total cf (boot main (disk FILE_PATH old)) (fun w =>
    (finished 0 (line cf 1 ++ line cf 2) w \/ finished 0 (line cf 2 ++ line cf 1) w) /\
    f_locks (kern w) = [] /\ f_names (kern w) = []).
Proof.
  destruct cf as [[] p]; (eapply layers_open; [reflexivity|]); explore;
    (split; [first [left; solve [ended]|right; solve [ended]]|done]).
Qed.
End Ordered.

(** ** [FileLocking/fcntl_byte_range_locks.c] *)

Module Ranges.
Definition FILE_PATH : bytes := B "/tmp/ipc_range_lock.dat".

Definition lock_range (fd start len : Z) : prog file_call unit :=
  r <- sys (SetLk fd false true false start len) ;;
  if rv r =? -1 then die_errno (rerr r) (B "fcntl lock") else Ret tt.

Definition main : prog file_call Z :=
  fd <- sys (Open FILE_PATH true true) ;;
  if rv fd =? -1 then die_errno (rerr fd) (B "open") else
  sys (Ftruncate (rv fd) 128) ;;;
  left <- proc Fork ;;
  if rv left =? 0 then
    lock_range (rv fd) 0 32 ;;;
    sys (Pwrite (rv fd) (ln "left-range") 0) ;;;
    proc (Println (B "child locked bytes 0..31")) ;;;
    proc Fflush ;;;
    Exit_ 0
  else
  right <- proc Fork ;;
  if rv right =? 0 then
    lock_range (rv fd) 64 32 ;;;
    sys (Pwrite (rv fd) (ln "right-range") 64) ;;;
    proc (Println (B "child locked bytes 64..95")) ;;;
    proc Fflush ;;;
    Exit_ 0
  else
  wait_for_pid (rv left) ;;;
  wait_for_pid (rv right) ;;;
  sys (Unlink FILE_PATH) ;;;
  Ret 0.

Definition text_left : bytes := ln "child locked bytes 0..31".
Definition text_right : bytes := ln "child locked bytes 64..95".

(** The file the two children leave. *)
Definition contents : bytes :=
  ln "left-range" ++ replicate 53 NUL ++ ln "right-range" ++ replicate 52 NUL.

(** [fcntl_byte_range_locks.c] under every schedule: the two ranges
    are disjoint, so neither child ever waits for the other; both writes land
    in the file, both lines are printed (in either order), and the program
    ends with no lock held and the file removed. *)
Theorem byte_range_locks_correct cf old :
  total cf (boot main (disk FILE_PATH old)) (fun w =>
    (finished 0 (text_left ++ text_right) w \/ finished 0 (text_right ++ text_left) w) /\
    f_inodes (kern w) = [contents] /\ f_locks (kern w) = [] /\ f_names (kern w) = []).
Proof.
  destruct cf as [[] p]; (eapply layers_open; [reflexivity|]); explore;
    (split; [first [left; solve [ended]|right; solve [ended]]|done]).
Qed.
End Ranges.

(** ** [FileLocking/flock_parent_child.c] *)

Module FlockParentChild.
Definition FILE_PATH : bytes := B "/tmp/ipc_flock.dat".

Definition main : prog file_call Z :=
  fd <- sys (Open FILE_PATH true true) ;;
  if rv fd =? -1 then die_errno (rerr fd) (B "open") else
  r <- sys (Flock (rv fd) false false) ;;
  if rv r =? -1 then die_errno (rerr r) (B "flock parent") else
  child <- proc Fork ;;
  if rv child =? 0 then
    fd2 <- sys (Open FILE_PATH false false) ;;
    r <- sys (Flock (rv fd2) false true) ;;
    if rv r =? -1 then
      proc (Println (B "child could not acquire competing flock while parent holds it")) ;;;
      proc Fflush ;;;
      Exit_ 0
    else Exit_ 1
  else
  wait_for_pid (rv child) ;;;
  sys (Flock (rv fd) true false) ;;;
  sys (Unlink FILE_PATH) ;;;
  Ret 0.

(** [flock_parent_child.c] under every schedule: the child opens the
    file anew, so its description competes with the parent's and the attempt
    is refused; the program prints so, exits with 0 and leaves neither lock
    nor file. *)
Theorem flock_parent_child_correct cf old :
  total cf (boot main (disk FILE_PATH old)) (fun w =>
    finished 0 (ln "child could not acquire competing flock while parent holds it") w /\
    f_flocks (kern w) = [] /\ f_names (kern w) = []).
Proof.
  destruct cf as [[] p]; (eapply layers_open; [reflexivity|]); explore; (split; [ended|done]).
Qed.
End FlockParentChild.

(** ** [FileLocking/lockfile_single_instance.c] *)

Module SingleInstance.
Definition LOCK_PATH : bytes := B "/tmp/ipc_single_instance.lock".

Definition try_lock (fd : Z) : prog file_call reply := sys (SetLk fd false false false 0 0).

Definition main : prog file_call Z :=
  fd <- sys (Open LOCK_PATH true false) ;;
  if rv fd =? -1 then die_errno (rerr fd) (B "open") else
  r <- try_lock (rv fd) ;;
  if rv r =? -1 then die_errno (rerr r) (B "initial lock") else
  pid <- proc Getpid ;;
  sys (Write (rv fd) (fmt_id (rv pid) ++ [LF])) ;;;
  child <- proc Fork ;;
  if rv child =? 0 then
    competing <- sys (Open LOCK_PATH false false) ;;
    r <- try_lock (rv competing) ;;
    if rv r =? -1 then
      proc (Println (B "second instance rejected by advisory lock")) ;;;
      proc Fflush ;;;
      Exit_ 0
    else Exit_ 1
  else
  wait_for_pid (rv child) ;;;
  sys (Unlink LOCK_PATH) ;;;
  Ret 0.

(** What [dprintf(fd, "%ld\n", getpid())] writes. *)
Definition pid_line (cf : config) : bytes := fmt_id (pid_of cf 0) ++ [LF].

(** [lockfile_single_instance.c] under every schedule, with or without
    a lock file left by an instance that is gone: the first instance gets the
    lock, the second is refused and says so, and the program removes the file
    and its lock.  The process id is written over the start of an old file,
    which is not truncated: a longer old line keeps its tail. *)
Theorem single_instance_correct cf old :
  total cf (boot main (disk LOCK_PATH old)) (fun w =>
    finished 0 (ln "second instance rejected by advisory lock") w /\
    f_locks (kern w) = [] /\ f_names (kern w) = [] /\
    f_inodes (kern w) = [pid_line cf ++ drop (length (pid_line cf)) (default [] old)]).
Proof.
  destruct cf as [[] p], old as [b|]; apply layers_boot; explore;
    (split; [ended|split; [done|split; [done|]]]).
  all: unfold pid_line; rewrite <- app_assoc; reflexivity.
Qed.
End SingleInstance.

(** ** [FileLocking/ofd_lock_counter.c] *)

Module OfdCounter.
Definition FILE_PATH : bytes := B "/tmp/ipc_ofd_lock_counter.dat".

Definition ofd_lock (fd : Z) (unlock : bool) : prog file_call unit :=
  r <- sys (SetLk fd true true unlock 0 0) ;;
  if rv r =? -1 then die_errno (rerr r) (B "F_OFD_SETLKW") else Ret tt.

Definition count (fd counter : Z) : prog file_call unit :=
  for_ 500 0 (fun j =>
    critical (ofd_lock fd false) (ofd_lock fd true) (LoadInt counter) (StoreInt counter) 1).

Definition main : prog file_call Z :=
  fd <- sys (Open FILE_PATH true true) ;;
  if rv fd =? -1 then die_errno (rerr fd) (B "open") else
  sys (Ftruncate (rv fd) 4) ;;;
  counter <- sys (Mmap (rv fd)) ;;
  if rv counter =? -1 then die_errno (rerr counter) (B "mmap") else
  sys (StoreInt (rv counter) 0) ;;;
  for_ 3 0 (fun i => fork_child (count (rv fd) (rv counter))) ;;;
  reap_all_children ;;;
  v <- sys (LoadInt (rv counter)) ;;
  proc (Printf (B "ofd-locked counter=" ++ fmt_d (rv v) ++ ln " expected=1500")) ;;;
  sys (Unlink FILE_PATH) ;;;
  Ret 0.

(** A lock of a description never conflicts with a lock of the same
    description, and [fork] duplicates descriptors, not descriptions. *)
Lemma same_ofd_no_conflict o n lo hi l :
  Forall (fun k => lk_owner k = ByOfd o) l ->
  existsb (fun k => conflicts k (ByOfd o) n lo hi) l = false.
Proof.
  induction 1 as [|k l Hk _ IH]; cbn; [done|]. rewrite IH, orb_false_r.
  unfold conflicts. by rewrite Hk, bool_decide_true.
Qed.

(** One schedule: the three children in lock step. *)
Definition lock_step : list nat :=
  replicate 7 0%nat ++ concat (replicate (4 * 500) [1; 2; 3])%nat ++
  [1; 2; 3]%nat ++ replicate 12 0%nat.

(** C22. [ofd_lock_counter.c] does not protect its counter: the children
    share the description their parent opened before [fork], so the lock of
    one never excludes another.  With the three children in lock step the
    program prints [counter=500] where it expects 1500. *)
Theorem ofd_lock_counter_loses_updates cf old :
  exists w, rtc (step cf) (boot main (disk FILE_PATH old)) w /\ halted w /\
    finished 0 (ln "ofd-locked counter=500 expected=1500") w.
Proof.
  assert (E : exists w, execs cf (Run <$> lock_step) (boot main (disk FILE_PATH old)) = Some w /\
    halted w /\ finished 0 (ln "ofd-locked counter=500 expected=1500") w).
  { destruct cf as [[] p], old as [b|]; eexists; (split; [vm_compute; reflexivity|]).
    all: repeat split; try by repeat constructor. all: by eexists. }
  destruct E as (w & Hw & Hf). exists w. split; [by eapply runs_reach|done].
Qed.
End OfdCounter.
