(* ===== verification/Msgq.v ===== *)
(** * Msgq: System V message queues

    The kernel object behind [MessageQueues/sysv_priority_workers.c],
    [MessageQueues/sysv_request_reply.c] and
    [MessageQueues/sysv_queue_control.c]: a queue of typed messages from which
    a receiver takes the first one of the type it asks for.  The last two
    programs are here, the first in [Workers]. *)

From S2P Require Import Prelude Fmt Posix Explore Common.

(** A message: its type, the integers or the characters of its body, and
    the size of the body in bytes. *)
Record msg := Msg { m_type : Z; m_ints : list Z; m_text : bytes; m_size : Z }.

Record queue := Queue { q_msgs : list msg; q_bytes : Z }.

Record msgq := MsgqState { mq_queues : list (option queue) }.

Inductive msg_call : Type :=
| Msgget
| Msgsnd (id : Z) (m : msg)
| Msgrcv (id : Z) (maxsize type : Z)
| MsgctlStat (id : Z)
| MsgctlRmid (id : Z).

Definition MSGMNB : Z := 16384.
Definition MSGMAX : Z := 8192.

Definition get_queue (s : msgq) (id : Z) : option queue :=
  if id <? 0 then None else default None (mq_queues s !! Z.to_nat id).
Definition put_queue (s : msgq) (id : Z) (q : option queue) : msgq :=
  MsgqState (<[Z.to_nat id := q]> (mq_queues s)).

Definition used (l : list msg) : Z := foldr (fun m n => m_size m + n) 0 l.

(** Is [m] a message that [msgrcv] with a positive or zero type accepts? *)
Definition wanted (type : Z) (m : msg) : bool := (type =? 0) || sym_eqb (m_type m) type.

(** The first wanted message and the others. *)
Fixpoint take_first (type : Z) (l : list msg) : option (msg * list msg) :=
  match l with
  | [] => None
  | m :: l' =>
      if wanted type m then Some (m, l')
      else match take_first type l' with
           | Some (x, rest) => Some (x, m :: rest)
           | None => None
           end
  end.

(** With a negative type, the first message of the lowest type that is at
    most its absolute value. *)
Definition lowest (bound : Z) (l : list msg) : option Z :=
  foldr (fun m acc =>
    if m_type m <=? bound then
      Some (match acc with Some t => Z.min (m_type m) t | None => m_type m end)
    else acc) None l.

Definition pick (type : Z) (l : list msg) : option (msg * list msg) :=
  if type <? 0 then t ← lowest (- type) l; take_first t l else take_first type l.

Definition msg_exec (i : nat) (c : msg_call) (s : msgq) : kres msgq :=
  let with_queue id f := match get_queue s id with
                         | Some q => f q
                         | None => Done (failed EIDRM) s
                         end in
  match c with
  | Msgget =>
      Done (ok (Z.of_nat (length (mq_queues s)))) (MsgqState (mq_queues s ++ [Some (Queue [] MSGMNB)]))
  | Msgsnd id m =>
      with_queue id (fun q =>
        if (m_type m <=? 0) || (m_size m >? MSGMAX) then Done (failed EINVAL) s
        else if used (q_msgs q) + m_size m >? q_bytes q then Block
        else Done (ok 0) (put_queue s id (Some (Queue (q_msgs q ++ [m]) (q_bytes q)))))
  | Msgrcv id maxsize type =>
      with_queue id (fun q =>
        match pick type (q_msgs q) with
        | None => Block
        | Some (m, rest) =>
            if m_size m >? maxsize then Done (failed E2BIG) s
            else Done (Reply (m_size m) EOK (m_text m) (m_type m :: m_ints m))
                   (put_queue s id (Some (Queue rest (q_bytes q))))
        end)
  | MsgctlStat id =>
      with_queue id (fun q => Done (ok_ints 0 [Z.of_nat (length (q_msgs q)); q_bytes q]) s)
  | MsgctlRmid id => with_queue id (fun q => Done (ok 0) (put_queue s id None))
  end.

Definition msg_fails (c : msg_call) (e : errno) : bool :=
  match c with
  | Msgget => bool_decide (e = ENOMEM)
  | Msgsnd _ _ | Msgrcv _ _ _ => bool_decide (e = EINTR)
  | _ => false
  end.

(** Queues outlive processes. *)
#[export] Instance msg_kernel : Kernel msg_call msgq := {|
  kexec := msg_exec;
  kfails := msg_fails;
  kfork := fun _ _ s => s;
  kexit := fun _ s => s;
|}.

(** The [n]-th integer of a received message. *)
Definition field (r : reply) (n : nat) : Z := default 0 (rints r !! n).

(** [msgrcv] into a struct whose fields are read without checking that the
    call succeeded: after a failure they are uninitialised, and reading them
    is undefined. *)
Definition receive (qid size type : Z) : prog msg_call reply :=
  r <- sys (Msgrcv qid size type) ;;
  if rv r =? -1 then Undef else Ret r.

(** ** [MessageQueues/sysv_request_reply.c] *)

Module RequestReply.
(** [struct request { long type, reply_type; int a, b; }] and
    [struct reply { long type; int sum, product; }], without the type. *)
Definition sizeof_request : Z := 16.
Definition sizeof_reply : Z := 8.

Definition serve (qid : Z) : prog msg_call Z :=
  req <- receive qid sizeof_request 1 ;;
  sum <- int_add (field req 2) (field req 3) ;;
  product <- int_mul (field req 2) (field req 3) ;;
  sys (Msgsnd qid (Msg (field req 1) [sum; product] [] sizeof_reply)) ;;;
  Exit_ 0.

Definition main : prog msg_call Z :=
  qid <- sys Msgget ;;
  if rv qid =? -1 then die_errno (rerr qid) (B "msgget") else
  server <- proc Fork ;;
  if rv server =? 0 then serve (rv qid) else
  pid <- proc Getpid ;;
  let reply_type := rv pid in
  sys (Msgsnd (rv qid) (Msg 1 [reply_type; 21; 34] [] sizeof_request)) ;;;
  rep <- receive (rv qid) sizeof_reply reply_type ;;
  proc (Println (B "sum=" ++ fmt_d (field rep 1) ++ B " product=" ++ fmt_d (field rep 2) ++
                 B " reply-type=" ++ fmt_id reply_type)) ;;;
  wait_for_pid (rv server) ;;;
  sys (MsgctlRmid (rv qid)) ;;;
  Ret 0.

Definition answer (cf : config) : bytes :=
  B "sum=55 product=714 reply-type=" ++ fmt_id (pid_of cf 0) ++ [LF].

(** The one comparison that depends on the client's process id. *)
Ltac rr_eval H :=
  repeat (run_eval; rewrite H); run_eval.

(** C35. [sysv_request_reply.c] under every schedule, for every process id
    but 1: the request reaches the server, the reply with its sum and product
    reaches the client, neither process takes the other's message, and the
    queue is removed. *)
Theorem request_reply_correct cf :
  pid_of cf 0 <> 1 ->
  total cf (boot main (MsgqState [])) (fun w =>
    finished 0 (answer cf) w /\ mq_queues (kern w) = [None]).
Proof.
  intros Hp.
  assert (H : sym_eqb 1 (Zpos (pidp cf 0)) = false) by (apply Z.eqb_neq; intros E; by apply Hp).
  clear Hp. destruct cf as [[] p]; apply layers_boot; explore_with ltac:(rr_eval H);
    (split; [ended|done]).
Qed.

Lemma request_reply_correct_witness :
  total (Config true 4242) (boot main (MsgqState [])) (fun w =>
    finished 0 (ln "sum=55 product=714 reply-type=4242") w /\ mq_queues (kern w) = [None]).
Proof. apply (request_reply_correct (Config true 4242)). discriminate. Defined.

(** When the client is process 1 its reply type is the type of its own
    request: there is a run in which it takes that request for the reply,
    [msgrcv] fails on the size, and the client reads a struct that was never
    filled. *)
Theorem request_reply_pid_1 tt :
  exists w, rtc (step (Config tt 1)) (boot main (MsgqState [])) w /\
    procs w !! 0%nat = Some (Process Crashed None []).
Proof.
  assert (E : exists w, execs (Config tt 1) (Run <$> replicate 6 0%nat) (boot main (MsgqState [])) = Some w /\
    procs w !! 0%nat = Some (Process Crashed None [])).
  { destruct tt; eexists; split; reflexivity. }
  destruct E as (w & Hw & Hc). exists w. split; [by eapply runs_reach|done].
Qed.
End RequestReply.

(** ** [MessageQueues/sysv_queue_control.c] *)

Module QueueControl.
(** [struct msg { long type; char text[32]; }] *)
Definition sizeof_text : Z := 32.

Definition main : prog msg_call Z :=
  qid <- sys Msgget ;;
  if rv qid =? -1 then die_errno (rerr qid) (B "msgget") else
  for_ 4 0 (fun i =>
    n <- int_add i 1 ;;
    let text := (snprintf sizeof_text (B "queued-" ++ fmt_d n)).1 in
    let body := text ++ replicate (Z.to_nat sizeof_text - length text) NUL in
    sys (Msgsnd (rv qid) (Msg 10 [] body sizeof_text)) ;;; Ret tt) ;;;
  ds <- sys (MsgctlStat (rv qid)) ;;
  if rv ds =? -1 then die_errno (rerr ds) (B "msgctl IPC_STAT") else
  proc (Printf (B "queue-id=" ++ fmt_d (rv qid) ++ B " messages=" ++ fmt_u (field ds 0) ++
                B " max-bytes=" ++ fmt_u (field ds 1) ++ [LF])) ;;;
  sys (MsgctlRmid (rv qid)) ;;;
  Ret 0.

Lemma get_queue_last qs q :
  get_queue (MsgqState (qs ++ [q])) (Z.of_nat (length qs)) = q.
Proof.
  unfold get_queue. destruct (Z.ltb_spec (Z.of_nat (length qs)) 0); [lia|]. cbn.
  by rewrite Nat2Z.id, lookup_app_r, Nat.sub_diag by done.
Qed.
Lemma put_queue_last qs q q' :
  put_queue (MsgqState (qs ++ [q])) (Z.of_nat (length qs)) q' = MsgqState (qs ++ [q']).
Proof. unfold put_queue. cbn. by rewrite Nat2Z.id, insert_app_r_alt, Nat.sub_diag by done. Qed.

Lemma msgget_new i qs :
  msg_exec i Msgget (MsgqState qs) =
  Done (ok (Z.of_nat (length qs))) (MsgqState (qs ++ [Some (Queue [] MSGMNB)])).
Proof. done. Qed.

(** [sysv_queue_control.c], whatever queues exist: the four messages
    fit the queue without blocking, [IPC_STAT] counts them, the line printed
    names the new queue, four messages and the limit of 16384 bytes, and the
    queue is removed. *)
Theorem queue_control_correct cf qs :
  total cf (boot main (MsgqState qs)) (fun w =>
    finished 0 (B "queue-id=" ++ fmt_d (Z.of_nat (length qs)) ++
                ln " messages=4 max-bytes=16384") w /\
    kern w = MsgqState (qs ++ [None])).
Proof.
  last_call (apply msgget_new). cbn [rv ok].
  replace (Z.of_nat (length qs) =? -1) with false by (symmetry; apply Z.eqb_neq; lia).
  do 4 (eapply last_sys;
    [apply dead_nil|cbn -[put_queue get_queue]; rewrite get_queue_last; cbn -[put_queue get_queue];
     rewrite put_queue_last; reflexivity|]).
  last_call (cbn -[get_queue]; rewrite get_queue_last; reflexivity).
  last_print.
  eapply last_sys;
    [apply dead_nil|cbn -[put_queue get_queue]; rewrite get_queue_last, put_queue_last; reflexivity|].
  last_end. split; [|done]. split; [by eexists|]. split; [exact Ho|done].
Qed.
End QueueControl.
