(* ===== verification/Workers.v ===== *)
(** * Workers: [MessageQueues/sysv_priority_workers.c]

    A parent deals jobs to workers through one System V queue, by message
    type, collects the results through the same queue and stops the workers.
    The proof is for any number of workers below the type of the results and
    any number of jobs that fit the queue. *)

From Stdlib Require Import FunctionalExtensionality.
From S2P Require Import Prelude Fmt Posix Common Guarded Fan Msgq.

Definition WORKERS : nat := 3.
Definition JOBS : nat := 9.

(** [sizeof(struct job_msg) - sizeof(long)] and the same of
    [struct result_msg], whose [long pid] is aligned. *)
Definition sizeof_job : Z := 8.
Definition sizeof_result : Z := 24.
Definition RESULT : Z := 100.

(** One trip of the worker's [for (;;)]. *)
Definition worker_body (qid type : Z) : unit -> prog msg_call (unit + unit) :=
  fun _ =>
    job <- sys (Msgrcv qid sizeof_job type) ;;
    if rv job =? -1 then die_errno (rerr job) (B "msgrcv") else
    if field job 1 <? 0 then Ret (inr tt) else
    result <- int_mul (field job 2) (field job 2) ;;
    pid <- proc Getpid ;;
    r <- sys (Msgsnd qid (Msg RESULT [field job 1; field job 2; result; rv pid] [] sizeof_result)) ;;
    if rv r =? -1 then die_errno (rerr r) (B "msgsnd result") else Ret (inl tt).

Definition worker (qid type : Z) : prog msg_call unit := loop (worker_body qid type) tt.

Definition send_job (workers : nat) (qid i : Z) : prog msg_call unit :=
  type <- int_add (Z.rem i (Z.of_nat workers)) 1 ;;
  job_id <- int_add i 1 ;;
  value <- int_add i 2 ;;
  sys (Msgsnd qid (Msg type [job_id; value] [] sizeof_job)) ;;; Ret tt.

Definition result_text (job_id value result pid : Z) : bytes :=
  B "job=" ++ fmt_d job_id ++ B " value=" ++ fmt_d value ++ B " square=" ++ fmt_d result ++
  B " worker=" ++ fmt_d pid.

Definition collect (qid i : Z) : prog msg_call unit :=
  result <- receive qid sizeof_result RESULT ;;
  proc (Println (result_text (field result 1) (field result 2) (field result 3) (field result 4))) ;;;
  Ret tt.

Definition send_stop (qid i : Z) : prog msg_call unit :=
  sys (Msgsnd qid (Msg i [-1; 0] [] sizeof_job)) ;;; Ret tt.

(** The program for given numbers of workers and jobs. *)
Definition program (workers jobs : nat) : prog msg_call Z :=
  qid <- sys Msgget ;;
  if rv qid =? -1 then die_errno (rerr qid) (B "msgget") else
  for_ workers 1 (fun i => fork_child (worker (rv qid) i)) ;;;
  for_ jobs 0 (send_job workers (rv qid)) ;;;
  for_ jobs 0 (collect (rv qid)) ;;;
  for_ workers 1 (send_stop (rv qid)) ;;;
  reap_all_children ;;;
  sys (MsgctlRmid (rv qid)) ;;;
  Ret 0.

Definition main : prog msg_call Z := program WORKERS JOBS.

(** A run in which the parent, else the first worker that can, moves. *)
Example workers_run :
  out (first_run (Config true 10) 4 300 (boot main (MsgqState []))) =
  concat ((fun j => result_text (j + 1) (j + 2) ((j + 2) * (j + 2)) (11 + j mod 3) ++ [LF]) <$>
          [0; 3; 6; 1; 4; 7; 2; 5; 8]).
Proof. vm_compute. reflexivity. Qed.

(** ** Jobs by worker *)

Section Classes.
Context (W : nat).
Hypothesis HW : (0 < W)%nat.

(** The jobs of worker [c], in their order. *)
Definition of_worker (c : nat) (l : list nat) : list nat := filter (fun j => j mod W = c)%nat l.

#[local] Arguments of_worker : simpl never.
#[local] Arguments Nat.modulo : simpl never.

Lemma of_worker_app c l l' : of_worker c (l ++ l') = of_worker c l ++ of_worker c l'.
Proof. apply filter_app. Qed.

Lemma of_worker_one j : of_worker (j mod W) [j] = [j].
Proof. unfold of_worker. by rewrite filter_cons_True by done. Qed.

Lemma of_worker_other c j : (j mod W)%nat <> c -> of_worker c [j] = [].
Proof. intros Hne. unfold of_worker. by rewrite filter_cons_False by done. Qed.

Lemma in_of_worker j c l : j ∈ of_worker c l -> j ∈ l /\ (j mod W)%nat = c.
Proof. unfold of_worker. rewrite list_elem_of_filter. tauto. Qed.

Lemma sumf_one n c : (c < n)%nat -> sumf (fun d => if decide (d = c) then 1 else 0)%nat (seq 0 n) = 1%nat.
Proof.
  revert c. induction n as [|n IH]; intros c Hc; [lia|]. rewrite seq_S, sumf_app. unfold sumf at 2. cbn.
  destruct (decide (n = c)) as [->|Hne].
  - rewrite (sumf_const _ _ 0%nat), Nat.mul_0_r; [done|].
    apply Forall_forall. intros d Hd%elem_of_seq. case_decide; lia.
  - rewrite IH; lia.
Qed.

(** Every job belongs to one worker. *)
Lemma class_lengths l : sumf (fun c => length (of_worker c l)) (seq 0 W) = length l.
Proof.
  induction l as [|j l IH].
  - rewrite (sumf_const _ _ 0%nat); [by rewrite Nat.mul_0_r|]. by apply Forall_forall.
  - change (j :: l) with ([j] ++ l). rewrite length_app, <- IH.
    rewrite (sumf_ext _ (fun c => (if decide (c = j mod W) then 1 else 0) + length (of_worker c l))%nat).
    + rewrite sumf_plus, sumf_one; [done|]. apply Nat.mod_upper_bound. lia.
    + intros c _. rewrite of_worker_app, length_app.
      case_decide as Hc; [subst; by rewrite of_worker_one|by rewrite of_worker_other by congruence].
Qed.

(** [shown] and the rest make up all jobs, worker by worker. *)
Section Split.
Context (shown : list nat) (rest : nat -> list nat) (n : nat).
Hypothesis Hs : forall c, (c < W)%nat -> of_worker c shown ++ rest c = of_worker c (seq 0 n).

Lemma split_lengths : (length shown + sumf (fun c => length (rest c)) (seq 0 W) = n)%nat.
Proof.
  rewrite <- (class_lengths shown). transitivity (sumf (fun c => length (of_worker c (seq 0 n))) (seq 0 W)).
  - rewrite <- sumf_plus. apply sumf_ext. intros c Hc%elem_of_seq.
    rewrite <- Hs by lia. by rewrite length_app.
  - rewrite class_lengths. apply length_seq.
Qed.

Lemma split_full c : length shown = n -> (c < W)%nat -> rest c = [].
Proof.
  intros Hl Hc. pose proof split_lengths as Hsum.
  pose proof (sumf_le (fun c => length (rest c)) (seq 0 W) c c) as Hle.
  rewrite lookup_seq_lt in Hle by done. specialize (Hle eq_refl). cbn in Hle.
  apply length_zero_iff_nil. lia.
Qed.

Lemma split_bound c j : (c < W)%nat -> j ∈ of_worker c shown ++ rest c -> (j < n)%nat.
Proof. intros Hc. rewrite Hs by done. intros [?%elem_of_seq _]%in_of_worker. lia. Qed.

Lemma split_perm : length shown = n -> shown ≡ₚ seq 0 n.
Proof.
  intros Hl. symmetry. apply submseteq_length_Permutation; [|rewrite length_seq; lia].
  apply NoDup_submseteq; [apply NoDup_seq|]. intros j Hj.
  assert (Hc : (j mod W < W)%nat) by (apply Nat.mod_upper_bound; lia).
  pose proof (Hs _ Hc) as E. rewrite (split_full _ Hl Hc), app_nil_r in E.
  assert (Hin : j ∈ of_worker (j mod W) (seq 0 n)) by (apply list_elem_of_filter; done).
  rewrite <- E in Hin. by apply in_of_worker in Hin as [? _].
Qed.
End Split.
End Classes.

#[local] Arguments of_worker : simpl never.
#[local] Arguments Nat.modulo : simpl never.
#[local] Arguments Nat.ltb : simpl never.

(** ** What the queue holds *)

(** Job [j] on its way to its worker, its result on its way back, the
    message that stops worker [c]. *)
Inductive item : Type :=
| IJob (j : nat)
| IRes (j : nat)
| IStop (c : nat).

Section Workers.
Context (cf : config) (W J qid : nat).
Hypothesis HW : (0 < W < 100)%nat.
Hypothesis HJ : Z.of_nat (24 * J + 8 * W) <= MSGMNB.

Definition msg_of (i : item) : msg :=
  match i with
  | IJob j => Msg (1 + Z.of_nat (j mod W)) [Z.of_nat j + 1; Z.of_nat j + 2] [] sizeof_job
  | IRes j => Msg RESULT [Z.of_nat j + 1; Z.of_nat j + 2; (Z.of_nat j + 2) * (Z.of_nat j + 2);
                          pid_of cf (S (j mod W))] [] sizeof_result
  | IStop c => Msg (1 + Z.of_nat c) [-1; 0] [] sizeof_job
  end.

Definition reply_of (i : item) : reply :=
  Reply (m_size (msg_of i)) EOK [] (m_type (msg_of i) :: m_ints (msg_of i)).

(** The line of job [j]. *)
Definition line (j : nat) : bytes :=
  result_text (Z.of_nat j + 1) (Z.of_nat j + 2) ((Z.of_nat j + 2) * (Z.of_nat j + 2))
    (pid_of cf (S (j mod W))) ++ [LF].

Definition jobs_for (c : nat) (L : list item) : list nat :=
  omap (fun i => match i with IJob j => if decide (j mod W = c)%nat then Some j else None | _ => None end) L.
Definition results (L : list item) : list nat :=
  omap (fun i => match i with IRes j => Some j | _ => None end) L.
Definition stops_for (c : nat) (L : list item) : nat :=
  sumf (fun i => match i with IStop d => if decide (d = c) then 1 else 0 | _ => 0 end)%nat L.

(** ** Where the processes are *)

(** A worker: at its loop, at [msgrcv], at [getpid], at [msgsnd], done. *)
Inductive wpos : Type :=
| WLoop
| WRecv
| WGot (j : nat)
| WSend (j : nat)
| WDone (c : nat).

Definition wreplies (x : wpos) : list reply :=
  match x with
  | WLoop => []
  | WRecv => [ok 0]
  | WGot j => [ok 0; reply_of (IJob j)]
  | WSend j => [ok 0; reply_of (IJob j); ok (pid_of cf (S (j mod W)))]
  | WDone c => [ok 0; reply_of (IStop c)]
  end.
Definition wcode (c : nat) (x : wpos) : prog msg_call unit :=
  adv (wreplies x) (worker (Z.of_nat qid) (1 + Z.of_nat c)).

(** The parent: [PSend n] is about to send job [n]; [P] is what it has
    printed. *)
Inductive ppos : Type :=
| PSend (n : nat)
| PRecv (P : list nat)
| PPrint (P : list nat) (j : nat)
| PStop (P : list nat) (t : nat)
| PEnd (P : list nat).

Abbreviation q := (Z.of_nat qid).
Definition sends (n : nat) : prog msg_call unit := for_ (J - n) (Z.of_nat n) (send_job W q).
Definition collects (n : nat) : prog msg_call unit := for_ (J - n) (Z.of_nat n) (collect q).
Definition stops (t : nat) : prog msg_call unit := for_ (W - t) (1 + Z.of_nat t) (send_stop q).
Definition middle : prog msg_call unit := sends 0 ;;; collects 0 ;;; stops 0.

Definition pcode (y : ppos) : prog msg_call unit :=
  match y with
  | PSend n => sends n ;;; collects 0 ;;; stops 0
  | PRecv P => collects (length P) ;;; stops 0
  | PPrint P j => adv [reply_of (IRes j)] (collects (length P) ;;; stops 0)
  | PStop P t => stops t
  | PEnd _ => Ret tt
  end.

Definition printed_by (y : ppos) : list nat :=
  match y with PSend _ => [] | PRecv P | PPrint P _ | PStop P _ | PEnd P => P end.
Definition texts (P : list nat) : bytes := concat (line <$> P).
Definition pbuf (y : ppos) : bytes := if tty cf then [] else texts (printed_by y).
Definition pout (y : ppos) : bytes := if tty cf then texts (printed_by y) else [].

Definition at_stop (P : list nat) (t : nat) : ppos := if (t <? W)%nat then PStop P t else PEnd P.
Definition at_recv (P : list nat) : ppos := if (length P <? J)%nat then PRecv P else at_stop P 0.
Definition at_send (n : nat) : ppos := if (n <? J)%nat then PSend n else at_recv [].

(** What it has: the jobs sent, the jobs whose results have arrived, the
    workers stopped. *)
Definition sent (y : ppos) : nat := match y with PSend n => n | _ => J end.
Definition arrived (y : ppos) : list nat :=
  match y with PPrint P j => P ++ [j] | _ => printed_by y end.
Definition stopped (y : ppos) : nat := match y with PStop _ t => t | PEnd _ => W | _ => 0 end.
Definition pwf (y : ppos) : Prop :=
  match y with
  | PSend n => (n < J)%nat
  | PRecv P | PPrint P _ => (length P < J)%nat
  | PStop P t => length P = J /\ (t < W)%nat
  | PEnd P => length P = J
  end.

Lemma pcode_at_stop P t : (t <= W)%nat -> pcode (at_stop P t) = stops t.
Proof.
  intros Ht. unfold at_stop. destruct (Nat.ltb_spec t W); [done|].
  replace t with W by lia. unfold stops. by rewrite Nat.sub_diag.
Qed.

Lemma pcode_at_recv P : (length P <= J)%nat -> pcode (at_recv P) = (collects (length P) ;;; stops 0).
Proof.
  intros HP. unfold at_recv. destruct (Nat.ltb_spec (length P) J); [done|].
  rewrite pcode_at_stop by lia. replace (length P) with J by lia. unfold collects. by rewrite Nat.sub_diag.
Qed.

Lemma pcode_at_send n : (n <= J)%nat -> pcode (at_send n) = (sends n ;;; collects 0 ;;; stops 0).
Proof.
  intros Hn. unfold at_send. destruct (Nat.ltb_spec n J); [done|].
  rewrite pcode_at_recv by (cbn; lia). replace n with J by lia. unfold sends. by rewrite Nat.sub_diag.
Qed.

(** ** The invariant *)

Abbreviation wkid := (kid (X:=wpos)).

Definition kheld (k : wkid) : list nat := match k with KRun (WGot j) | KRun (WSend j) => [j] | _ => [] end.
Definition held (ks : list wkid) (c : nat) : list nat := match ks !! c with Some k => kheld k | None => [] end.

(** A worker that has received its stop. *)
Definition kleft (k : wkid) : bool := match k with KRun (WDone _) | KDead | KGone => true | _ => false end.
Definition left (ks : list wkid) (c : nat) : bool := match ks !! c with Some k => kleft k | None => false end.

(** The room a message takes, counting a job as its result. *)
Definition room (i : item) : nat := match i with IStop _ => 8 | _ => 24 end.
Definition kroom (k : wkid) : nat := length (kheld k) * 24.

(** The jobs that have been sent and have not arrived. *)
Definition under_way (ks : list wkid) (L : list item) (c : nat) : list nat :=
  of_worker W c (results L) ++ held ks c ++ jobs_for c L.

Record winv (y : ppos) (ks : list wkid) (L : list item) : Prop := {
  w_pos : pwf y;
  w_len : (length ks <= W)%nat;
  w_jobs : forall c, (c < W)%nat ->
    of_worker W c (arrived y) ++ under_way ks L c = of_worker W c (seq 0 (sent y));
  w_stop : forall c, (c < W)%nat ->
    stops_for c L = (if (c <? stopped y)%nat && negb (left ks c) then 1 else 0)%nat;
  w_left : forall c, left ks c = true -> (c < stopped y)%nat;
  w_which : forall c, IStop c ∈ L -> (c < W)%nat;
  w_room : (sumf room L + sumf kroom ks + 24 * (J - sent y) + 8 * (W - stopped y) <= 24 * J + 8 * W)%nat;
}.

(** *** Lists of items *)

Lemma jobs_app c L L' : jobs_for c (L ++ L') = jobs_for c L ++ jobs_for c L'.
Proof. apply omap_app. Qed.
Lemma results_app L L' : results (L ++ L') = results L ++ results L'.
Proof. apply omap_app. Qed.
Lemma stops_app c L L' : stops_for c (L ++ L') = (stops_for c L + stops_for c L')%nat.
Proof. apply sumf_app. Qed.

(** The messages a receiver of type [t] does not want. *)
Definition for_worker (c : nat) (i : item) : bool :=
  match i with IJob j => (j mod W =? c)%nat | IRes _ => false | IStop d => (d =? c)%nat end.
Definition is_result (i : item) : bool := match i with IRes _ => true | _ => false end.

Lemma jobs_none c L : Forall (fun i => for_worker c i = false) L -> jobs_for c L = [] /\ stops_for c L = 0%nat.
Proof.
  induction 1 as [|i L Hi _ [IHj IHs]]; [done|]. unfold jobs_for, stops_for in *. rewrite sumf_cons, IHs.
  destruct i as [j|j|d]; cbn in *; rewrite ?IHj; [|done|].
  - case_decide; [|done]. by apply Nat.eqb_neq in Hi.
  - case_decide; [|done]. by apply Nat.eqb_neq in Hi.
Qed.

Lemma results_none L : Forall (fun i => is_result i = false) L -> results L = [].
Proof. induction 1 as [|i L Hi _ IH]; [done|]. by destruct i. Qed.

(** *** Reading the invariant *)

Section Facts.
Context (y : ppos) (ks : list wkid) (L : list item).
Hypothesis HI : winv y ks L.

Lemma under_way_bound c j : (c < W)%nat -> j ∈ under_way ks L c -> (j < sent y)%nat /\ (j mod W)%nat = c.
Proof.
  intros Hc Hj. assert (Hin : j ∈ of_worker W c (seq 0 (sent y))).
  { rewrite <- (w_jobs _ _ _ HI) by done. apply elem_of_app. by right. }
  apply in_of_worker in Hin as [?%elem_of_seq ?]. split; [lia|done].
Qed.

Lemma held_bound c j : j ∈ held ks c -> (c < W)%nat /\ (j < sent y)%nat /\ (j mod W)%nat = c.
Proof.
  intros Hj. assert (Hc : (c < W)%nat).
  { unfold held in Hj. destruct (ks !! c) eqn:Hk; [|by apply elem_of_nil in Hj].
    apply lookup_lt_Some in Hk. pose proof (w_len _ _ _ HI). lia. }
  split; [done|]. apply under_way_bound; [done|]. unfold under_way. rewrite !elem_of_app. tauto.
Qed.

Lemma job_bound j : IJob j ∈ L -> (j < sent y)%nat.
Proof.
  intros Hj. apply (under_way_bound (j mod W)); [apply Nat.mod_upper_bound; lia|].
  unfold under_way. rewrite !elem_of_app. right. right. apply list_elem_of_omap.
  exists (IJob j). split; [done|]. by rewrite decide_True.
Qed.

Lemma sent_le : (sent y <= J)%nat.
Proof. pose proof (w_pos _ _ _ HI). destruct y; cbn in *; lia. Qed.

(** Once every result has arrived nothing is under way. *)
Lemma nothing_under_way c : length (arrived y) = sent y -> (c < W)%nat -> under_way ks L c = [].
Proof. intros Hl Hc. eapply (split_full W); [lia|apply (w_jobs _ _ _ HI)|done..]. Qed.

Lemma stopping c : (0 < stopped y)%nat -> (c < W)%nat -> under_way ks L c = [].
Proof.
  intros Hs. apply nothing_under_way. pose proof (w_pos _ _ _ HI). destruct y; cbn in *; lia.
Qed.
End Facts.

Lemma used_room L : used (msg_of <$> L) <= Z.of_nat (sumf room L).
Proof.
  induction L as [|i L IH]; [done|]. rewrite sumf_cons. cbn -[sumf]. unfold used in IH. cbn in IH.
  destruct i; cbn; unfold sizeof_job, sizeof_result; lia.
Qed.

(** There is always room for a result, a job or a stop. *)
Lemma room_for y ks L i :
  winv y ks L -> (sumf room L + room i <= 24 * J + 8 * W)%nat ->
  used (msg_of <$> L) + m_size (msg_of i) <= MSGMNB.
Proof.
  intros HI Hr. pose proof (used_room L). destruct i; cbn in *; unfold sizeof_job, sizeof_result; lia.
Qed.

(** *** Steps of the parent *)

Lemma winv_sent n ks L :
  winv (PSend n) ks L -> winv (at_send (S n)) ks (L ++ [IJob n]).
Proof.
  intros [Hp Hl Hj Hs Hlf Hw Hr]. cbn in Hp.
  assert (Ha : arrived (at_send (S n)) = [] /\ sent (at_send (S n)) = S n /\ stopped (at_send (S n)) = 0%nat /\
               pwf (at_send (S n))).
  { unfold at_send, at_recv, at_stop. destruct (Nat.ltb_spec (S n) J); [done|].
    destruct (Nat.ltb_spec (length (@nil nat)) J) as [?|Hz]; [|cbn in Hz; lia].
    cbn. split_and!; [done|lia|done|lia]. }
  destruct Ha as (Ea & Es & Et & Hwf). split; rewrite ?Ea, ?Es, ?Et; try done.
  - intros c Hc. specialize (Hj c Hc). cbn in Hj. unfold under_way in *.
    rewrite results_app, jobs_app, app_nil_r, seq_S, of_worker_app, <- Hj. cbn.
    rewrite <- !app_assoc. do 2 f_equal. f_equal.
    case_decide as Hd; [subst c; by rewrite of_worker_one|by rewrite of_worker_other].
  - intros c Hc. rewrite stops_app, Hs by done. unfold stops_for, sumf. cbn. lia.
  - intros c [Hc|Hc]%elem_of_app; [by apply Hw|]. by apply list_elem_of_singleton in Hc.
  - rewrite sumf_app. cbn in *. unfold sumf at 2. cbn. lia.
Qed.

Lemma winv_arrived P ks L1 L2 j :
  winv (PRecv P) ks (L1 ++ IRes j :: L2) -> Forall (fun i => is_result i = false) L1 ->
  winv (PPrint P j) ks (L1 ++ L2).
Proof.
  intros [Hp Hl Hj Hs Hlf Hw Hr] H1. split; cbn in *; try done.
  - intros c Hc. rewrite <- Hj by done. unfold under_way.
    rewrite !results_app, !jobs_app, (results_none _ H1), of_worker_app.
    change (results (IRes j :: L2)) with ([j] ++ results L2). rewrite !of_worker_app. by rewrite <- !app_assoc.
  - intros c Hc. rewrite <- (Hs c Hc). by rewrite !stops_app.
  - intros c Hc. apply Hw. rewrite elem_of_app in *. rewrite elem_of_cons. tauto.
  - rewrite !sumf_app in *. rewrite sumf_cons in Hr. cbn in Hr. lia.
Qed.

Lemma winv_printed P ks L j : winv (PPrint P j) ks L -> winv (at_recv (P ++ [j])) ks L.
Proof.
  intros HI. pose proof (w_pos _ _ _ HI) as Hp. cbn in Hp.
  assert (Hlen : length (P ++ [j]) = S (length P)) by (rewrite length_app; cbn; lia).
  destruct HI as [_ Hl Hj Hs Hlf Hw Hr].
  unfold at_recv, at_stop. destruct (Nat.ltb_spec (length (P ++ [j])) J).
  - split; cbn in *; try done.
  - destruct (Nat.ltb_spec 0 W); [|lia]. split; cbn in *; try done. lia.
Qed.

Lemma winv_stopped P t ks L :
  winv (PStop P t) ks L -> winv (at_stop P (S t)) ks (L ++ [IStop t]).
Proof.
  intros [[Hp Ht] Hl Hj Hs Hlf Hw Hr].
  assert (Ha : arrived (at_stop P (S t)) = P /\ sent (at_stop P (S t)) = J /\
               stopped (at_stop P (S t)) = S t /\ pwf (at_stop P (S t))).
  { unfold at_stop. destruct (Nat.ltb_spec (S t) W); cbn; split_and!; try done; lia. }
  destruct Ha as (Ea & Es & Et & Hwf). split; rewrite ?Ea, ?Es, ?Et; try done.
  - intros c Hc. etransitivity; [|apply (Hj c Hc)]. unfold under_way.
    by rewrite results_app, jobs_app, !app_nil_r.
  - intros c Hc. rewrite stops_app, Hs by done. unfold stops_for, sumf. cbn.
    destruct (decide (t = c)) as [<-|Hne].
    + destruct (left ks t) eqn:Hlt; [specialize (Hlf _ Hlt); cbn in Hlf; lia|].
      rewrite Nat.ltb_irrefl. by replace (t <? S t)%nat with true by (symmetry; apply Nat.ltb_lt; lia).
    + replace (c <? S t)%nat with (c <? t)%nat; [lia|].
      destruct (Nat.ltb_spec c t), (Nat.ltb_spec c (S t)); (done || lia).
  - intros c Hc. specialize (Hlf c Hc). cbn in Hlf. lia.
  - intros c [Hc|Hc]%elem_of_app; [by apply Hw|]. apply list_elem_of_singleton in Hc. by simplify_eq.
  - rewrite sumf_app. cbn in *. unfold sumf at 2. cbn. lia.
Qed.
(** *** Steps of a worker *)

Lemma held_insert ks c k k' d :
  ks !! c = Some k -> held (<[c := k']> ks) d = if decide (d = c) then kheld k' else held ks d.
Proof.
  intros Hc. unfold held. case_decide as Hd.
  - subst d. by rewrite list_lookup_insert_eq by (by eapply lookup_lt_Some).
  - by rewrite list_lookup_insert_ne.
Qed.

Lemma left_insert ks c k k' d :
  ks !! c = Some k -> left (<[c := k']> ks) d = if decide (d = c) then kleft k' else left ks d.
Proof.
  intros Hc. unfold left. case_decide as Hd.
  - subst d. by rewrite list_lookup_insert_eq by (by eapply lookup_lt_Some).
  - by rewrite list_lookup_insert_ne.
Qed.

Lemma held_at ks c k : ks !! c = Some k -> held ks c = kheld k.
Proof. intros Hc. unfold held. by rewrite Hc. Qed.
Lemma left_at ks c k : ks !! c = Some k -> left ks c = kleft k.
Proof. intros Hc. unfold left. by rewrite Hc. Qed.

Section Kid.
Context (y : ppos) (ks : list wkid) (c : nat) (k : wkid).
Hypothesis Hc : ks !! c = Some k.

Lemma kid_index L : winv y ks L -> (c < W)%nat.
Proof. intros HI. pose proof (w_len _ _ _ HI). apply lookup_lt_Some in Hc. lia. Qed.

(** A step that neither takes nor gives. *)
Lemma winv_same L k' :
  winv y ks L -> kheld k' = kheld k -> kleft k' = kleft k -> winv y (<[c := k']> ks) L.
Proof.
  intros HI Hh Hf.
  assert (Eh : forall d, held (<[c := k']> ks) d = held ks d).
  { intros d. rewrite (held_insert _ _ _ _ _ Hc). case_decide; [subst; by rewrite (held_at _ _ _ Hc)|done]. }
  assert (Ef : forall d, left (<[c := k']> ks) d = left ks d).
  { intros d. rewrite (left_insert _ _ _ _ _ Hc). case_decide; [subst; by rewrite (left_at _ _ _ Hc)|done]. }
  destruct HI as [Hp Hl Hj Hs Hlf Hw Hr]. split; try done.
  - by rewrite length_insert.
  - intros d Hd. unfold under_way. rewrite Eh. by apply Hj.
  - intros d Hd. rewrite Ef. by apply Hs.
  - intros d. rewrite Ef. apply Hlf.
  - pose proof (sumf_insert kroom ks c k k' Hc) as Hsum. unfold kroom in Hsum at 2 4. rewrite Hh in Hsum. lia.
Qed.

(** A job is taken from the queue. *)
Lemma winv_took L1 L2 j :
  winv y ks (L1 ++ IJob j :: L2) -> k = KRun WRecv ->
  Forall (fun i => for_worker c i = false) L1 -> (j mod W = c)%nat ->
  winv y (<[c := KRun (WGot j)]> ks) (L1 ++ L2).
Proof.
  intros [Hp Hl Hj Hs Hlf Hw Hr] -> H1 Hjc. destruct (jobs_none _ _ H1) as [E1 _]. split; try done.
  - by rewrite length_insert.
  - intros d Hd. rewrite <- (Hj d Hd). f_equal. unfold under_way.
    rewrite !results_app, !jobs_app, (held_insert _ _ _ _ _ Hc). f_equal.
    change (jobs_for d (IJob j :: L2)) with (jobs_for d ([IJob j] ++ L2)). rewrite (jobs_app d [IJob j]).
    destruct (decide (d = c)) as [->|Hne]; cbn.
    + rewrite (held_at _ _ _ Hc), E1. cbn. by rewrite decide_True.
    + by rewrite decide_False by congruence.
  - intros d Hd. rewrite stops_app, (left_insert _ _ _ _ _ Hc).
    specialize (Hs d Hd). rewrite stops_app in Hs.
    change (stops_for d (IJob j :: L2)) with (stops_for d L2) in Hs. rewrite Hs.
    case_decide; [subst; by rewrite (left_at _ _ _ Hc)|done].
  - intros d. rewrite (left_insert _ _ _ _ _ Hc). case_decide; [done|apply Hlf].
  - intros d Hd. apply Hw. rewrite elem_of_app in *. rewrite elem_of_cons. tauto.
  - pose proof (sumf_insert kroom ks c _ (KRun (WGot j)) Hc). cbn in *.
    rewrite !sumf_app in *. rewrite sumf_cons in Hr. cbn in *. lia.
Qed.

(** The message that stops the worker. *)
Lemma winv_told L1 L2 :
  winv y ks (L1 ++ IStop c :: L2) -> k = KRun WRecv ->
  Forall (fun i => for_worker c i = false) L1 ->
  winv y (<[c := KRun (WDone c)]> ks) (L1 ++ L2).
Proof.
  intros HI Hk H1. pose proof (kid_index _ HI) as HcW. subst k. destruct HI as [Hp Hl Hj Hs Hlf Hw Hr].
  destruct (jobs_none _ _ H1) as [_ E1].
  assert (Hst : (c <? stopped y)%nat = true /\ stops_for c (L1 ++ L2) = 0%nat).
  { specialize (Hs c HcW). rewrite stops_app in *. change (IStop c :: L2) with ([IStop c] ++ L2) in Hs.
    rewrite stops_app, (left_at _ _ _ Hc) in Hs. unfold stops_for at 2, sumf in Hs. cbn in Hs.
    rewrite decide_True in Hs by done. destruct (c <? stopped y)%nat; cbn in Hs; lia. }
  destruct Hst as [Hst E2]. split; try done.
  - by rewrite length_insert.
  - intros d Hd. rewrite <- (Hj d Hd). f_equal. unfold under_way.
    rewrite !results_app, !jobs_app, (held_insert _ _ _ _ _ Hc). do 2 f_equal.
    case_decide; [subst; by rewrite (held_at _ _ _ Hc)|done].
  - intros d Hd. rewrite (left_insert _ _ _ _ _ Hc). case_decide as Hdc.
    + subst d. by rewrite E2, andb_false_r.
    + rewrite <- (Hs d Hd), !stops_app. f_equal. change (IStop c :: L2) with ([IStop c] ++ L2).
      rewrite stops_app. unfold stops_for at 2, sumf. cbn. by rewrite decide_False.
  - intros d. rewrite (left_insert _ _ _ _ _ Hc). case_decide; [|apply Hlf].
    subst d. intros _. by apply Nat.ltb_lt.
  - intros d Hd. apply Hw. rewrite elem_of_app in *. rewrite elem_of_cons. tauto.
  - pose proof (sumf_insert kroom ks c _ (KRun (WDone c)) Hc). cbn in *.
    rewrite !sumf_app in *. rewrite sumf_cons in Hr. cbn in *. lia.
Qed.

(** The result goes into the queue. *)
Lemma winv_result L j :
  winv y ks L -> k = KRun (WSend j) -> winv y (<[c := KRun WLoop]> ks) (L ++ [IRes j]).
Proof.
  intros HI ->. destruct (held_bound _ _ _ HI c j) as (_ & _ & Hjc).
  { rewrite (held_at _ _ _ Hc). constructor. }
  destruct HI as [Hp Hl Hj Hs Hlf Hw Hr]. split; try done.
  - by rewrite length_insert.
  - intros d Hd. rewrite <- (Hj d Hd). f_equal. unfold under_way.
    rewrite results_app, jobs_app, app_nil_r, of_worker_app, (held_insert _ _ _ _ _ Hc), <- app_assoc.
    f_equal. cbn. destruct (decide (d = c)) as [->|Hne].
    + rewrite (held_at _ _ _ Hc). cbn. rewrite <- Hjc. by rewrite of_worker_one.
    + by rewrite of_worker_other by congruence.
  - intros d Hd. rewrite stops_app, (left_insert _ _ _ _ _ Hc), Hs by done.
    unfold stops_for, sumf. cbn. rewrite Nat.add_0_r.
    case_decide; [subst; by rewrite (left_at _ _ _ Hc)|done].
  - intros d. rewrite (left_insert _ _ _ _ _ Hc). case_decide; [done|apply Hlf].
  - intros d [Hd|Hd]%elem_of_app; [by apply Hw|]. by apply list_elem_of_singleton in Hd.
  - pose proof (sumf_insert kroom ks c _ (KRun WLoop) Hc). cbn in *.
    rewrite sumf_app. unfold sumf at 2. cbn in *. lia.
Qed.
End Kid.

Lemma winv_fork y ks L :
  winv y ks L -> (length ks < W)%nat -> winv y (ks ++ [KRun WLoop]) L.
Proof.
  intros [Hp Hl Hj Hs Hlf Hw Hr] Hlt.
  assert (Eh : forall d, held (ks ++ [KRun WLoop]) d = held ks d /\ left (ks ++ [KRun WLoop]) d = left ks d).
  { intros d. unfold held, left. destruct (decide (d < length ks)%nat).
    - by rewrite lookup_app_l.
    - rewrite lookup_app_r, (lookup_ge_None_2 ks) by lia. by destruct (d - length ks)%nat. }
  split; try done.
  - rewrite length_app. cbn. lia.
  - intros d Hd. unfold under_way. rewrite (proj1 (Eh d)). by apply Hj.
  - intros d Hd. rewrite (proj2 (Eh d)). by apply Hs.
  - intros d. rewrite (proj2 (Eh d)). apply Hlf.
  - rewrite sumf_app. unfold sumf at 3. cbn. lia.
Qed.

Lemma winv_start : winv (at_send 0) [] [].
Proof.
  assert (Ha : arrived (at_send 0) = [] /\ sent (at_send 0) = 0%nat /\ stopped (at_send 0) = 0%nat /\
               pwf (at_send 0)).
  { unfold at_send, at_recv, at_stop. cbn [length].
    destruct (Nat.ltb_spec 0 J); [done|]. destruct (Nat.ltb_spec 0 W); [|lia]. cbn. split_and!; (done || lia). }
  destruct Ha as (Ea & Es & Et & Hwf). split; rewrite ?Ea, ?Es, ?Et; try done.
  - cbn. lia.
  - by intros c Hc%elem_of_nil.
  - unfold sumf. cbn. lia.
Qed.
(** ** The queue *)

Definition queue_is (s : msgq) (L : list item) : Prop :=
  mq_queues s !! qid = Some (Some (Queue (msg_of <$> L) MSGMNB)).

Lemma queue_get s L : queue_is s L -> get_queue s q = Some (Queue (msg_of <$> L) MSGMNB).
Proof.
  intros Hq. unfold get_queue. destruct (Z.ltb_spec q 0); [lia|]. by rewrite Nat2Z.id, Hq.
Qed.

Lemma queue_put s L L' : queue_is s L -> queue_is (put_queue s q (Some (Queue (msg_of <$> L') MSGMNB))) L'.
Proof.
  intros Hq. unfold queue_is, put_queue. cbn. rewrite Nat2Z.id. apply list_lookup_insert_eq.
  by eapply lookup_lt_Some.
Qed.

Lemma send_ok p s L i :
  queue_is s L -> used (msg_of <$> L) + m_size (msg_of i) <= MSGMNB ->
  exists s', msg_exec p (Msgsnd q (msg_of i)) s = Done (ok 0) s' /\ queue_is s' (L ++ [i]).
Proof.
  intros Hq Hu. unfold msg_exec. rewrite (queue_get _ _ Hq). cbn [q_msgs q_bytes].
  assert (Hok : (m_type (msg_of i) <=? 0) || (m_size (msg_of i) >? MSGMAX) = false).
  { apply orb_false_iff. rewrite Z.leb_gt, Z.gtb_ltb, Z.ltb_ge.
    destruct i; cbn; unfold RESULT, sizeof_job, sizeof_result, MSGMAX; lia. }
  rewrite Hok. destruct (Z.gtb_spec (used (msg_of <$> L) + m_size (msg_of i)) MSGMNB); [lia|].
  eexists. split; [done|]. change [msg_of i] with (msg_of <$> [i]). rewrite <- fmap_app.
  by eapply queue_put.
Qed.

(** The first wanted message, and those before it. *)
Lemma take_first_items t L :
  match take_first t (msg_of <$> L) with
  | Some (m, rest) => exists L1 i L2, L = L1 ++ i :: L2 /\ m = msg_of i /\ rest = msg_of <$> (L1 ++ L2) /\
      wanted t (msg_of i) = true /\ Forall (fun x => wanted t (msg_of x) = false) L1
  | None => Forall (fun x => wanted t (msg_of x) = false) L
  end.
Proof.
  induction L as [|i L IH]; [constructor|]. cbn. destruct (wanted t (msg_of i)) eqn:Hw.
  - exists [], i, L. split_and!; try done.
  - destruct (take_first t (msg_of <$> L)) as [[m rest]|].
    + destruct IH as (L1 & i' & L2 & -> & -> & -> & Hw' & H1).
      exists (i :: L1), i', L2. split_and!; try done. by constructor.
    + by constructor.
Qed.

Lemma recv_ok p s L size t :
  queue_is s L -> 0 < t ->
  (exists L1 i L2, L = L1 ++ i :: L2 /\ wanted t (msg_of i) = true /\
     Forall (fun x => wanted t (msg_of x) = false) L1 /\
     (m_size (msg_of i) <= size -> exists s',
        msg_exec p (Msgrcv q size t) s = Done (reply_of i) s' /\ queue_is s' (L1 ++ L2))) \/
  (msg_exec p (Msgrcv q size t) s = Block /\ Forall (fun x => wanted t (msg_of x) = false) L).
Proof.
  intros Hq Ht. cbn. rewrite (queue_get _ _ Hq). cbn. unfold pick.
  destruct (Z.ltb_spec t 0); [lia|]. pose proof (take_first_items t L) as HL.
  destruct (take_first t (msg_of <$> L)) as [[m rest]|]; [left|by right].
  destruct HL as (L1 & i & L2 & -> & -> & -> & Hw & H1). exists L1, i, L2. split_and!; try done.
  intros Hs. destruct (Z.gtb_spec (m_size (msg_of i)) size); [lia|]. eexists. split.
  - destruct i; reflexivity.
  - by eapply queue_put.
Qed.

(** Types and receivers. *)
Lemma wanted_worker c i : (c < W)%nat -> wanted (1 + Z.of_nat c) (msg_of i) = for_worker c i.
Proof.
  intros Hc. unfold wanted, sym_eqb. destruct (Z.eqb_spec (1 + Z.of_nat c) 0); [lia|].
  destruct i as [j|j|d]; cbn [orb msg_of m_type for_worker]; unfold RESULT.
  - destruct (Nat.eqb_spec (j mod W) c), (Z.eqb_spec (1 + Z.of_nat (j mod W)) (1 + Z.of_nat c)); (done || lia).
  - destruct (Z.eqb_spec 100 (1 + Z.of_nat c)); [lia|done].
  - destruct (Nat.eqb_spec d c), (Z.eqb_spec (1 + Z.of_nat d) (1 + Z.of_nat c)); (done || lia).
Qed.

Lemma wanted_result y ks L i : winv y ks L -> i ∈ L -> wanted RESULT (msg_of i) = is_result i.
Proof.
  intros HI Hi. unfold wanted, sym_eqb, RESULT. cbn [orb Z.eqb].
  destruct i as [j|j|d]; cbn [msg_of m_type is_result]; [|done|].
  - assert (j mod W < W)%nat by (apply Nat.mod_upper_bound; lia).
    destruct (Z.eqb_spec (1 + Z.of_nat (j mod W)) 100); [lia|done].
  - pose proof (w_which _ _ _ HI _ Hi). destruct (Z.eqb_spec (1 + Z.of_nat d) 100); [lia|done].
Qed.

Lemma not_wanted_worker c L :
  (c < W)%nat -> Forall (fun x => wanted (1 + Z.of_nat c) (msg_of x) = false) L ->
  Forall (fun i => for_worker c i = false) L.
Proof.
  intros Hc HL. eapply Forall_impl; [exact HL|]. intros i Hi. cbn beta in Hi. by rewrite wanted_worker in Hi.
Qed.
(** ** What each position runs *)

Lemma few_jobs : Z.of_nat J <= 682.
Proof. unfold MSGMNB in HJ. lia. Qed.

Definition send_tail (c : nat) : reply -> prog msg_call unit :=
  fun r => bind (if rv r =? -1 then die_errno (rerr r) (B "msgsnd result") else Ret (inl tt))
    (fun x => match x with
              | inl s' => Loop (worker_body q (1 + Z.of_nat c)) s' Ret
              | inr r => Ret r
              end).

Lemma got_code c j :
  (j < J)%nat ->
  wcode c (WGot j) = Proc Getpid (fun pid =>
    Sys (Msgsnd q (Msg RESULT [Z.of_nat j + 1; Z.of_nat j + 2; (Z.of_nat j + 2) * (Z.of_nat j + 2); rv pid]
                     [] sizeof_result)) (send_tail c)).
Proof.
  intros Hj. pose proof few_jobs. unfold wcode, worker, loop, unroll, worker_body. cbn.
  destruct (Z.ltb_spec (Z.of_nat j + 1) 0); [lia|]. unfold int_mul.
  replace (in_int ((Z.of_nat j + 2) * (Z.of_nat j + 2))) with true.
  2: { symmetry. apply in_int_spec. unfold INT_MIN, INT_MAX. nia. }
  reflexivity.
Qed.

Lemma send_code c j :
  (j < J)%nat -> wcode c (WSend j) = Sys (Msgsnd q (msg_of (IRes j))) (send_tail c).
Proof.
  intros Hj. transitivity (adv [ok (pid_of cf (S (j mod W)))] (wcode c (WGot j))).
  - unfold wcode. cbn. destruct (Z.of_nat j + 1 <? 0); [done|]. unfold int_mul. by case_match.
  - by rewrite got_code.
Qed.

Lemma PSend_code n :
  (n < J)%nat -> pcode (PSend n) = Sys (Msgsnd q (msg_of (IJob n))) (fun _ => pcode (at_send (S n))).
Proof.
  intros Hn. pose proof few_jobs. rewrite pcode_at_send by lia. cbn [pcode]. unfold sends.
  replace (J - n)%nat with (S (J - S n)) by lia. cbn [for_]. unfold send_job, int_add.
  assert (Hm : (n mod W < W)%nat) by (apply Nat.mod_upper_bound; lia).
  rewrite Z.rem_mod_nonneg, <- Nat2Z.inj_mod by lia.
  replace (in_int (Z.of_nat (n mod W) + 1)) with true
    by (symmetry; apply in_int_spec; unfold INT_MIN, INT_MAX; lia).
  replace (in_int (Z.of_nat n + 1)) with true by (symmetry; apply in_int_spec; unfold INT_MIN, INT_MAX; lia).
  replace (in_int (Z.of_nat n + 2)) with true by (symmetry; apply in_int_spec; unfold INT_MIN, INT_MAX; lia).
  rewrite (Z.add_comm _ 1). replace (Z.of_nat (S n)) with (Z.of_nat n + 1) by lia. reflexivity.
Qed.

Definition recv_tail (P : list nat) : reply -> prog msg_call unit :=
  fun r => adv [r] (collects (length P) ;;; stops 0).

Lemma PRecv_code P :
  (length P < J)%nat -> pcode (PRecv P) = Sys (Msgrcv q sizeof_result RESULT) (recv_tail P).
Proof.
  intros HP. cbn [pcode]. unfold recv_tail, collects.
  replace (J - length P)%nat with (S (J - S (length P))) by lia. reflexivity.
Qed.

Lemma PPrint_code P j :
  (length P < J)%nat ->
  pcode (PPrint P j) =
  Proc (Println (result_text (Z.of_nat j + 1) (Z.of_nat j + 2) ((Z.of_nat j + 2) * (Z.of_nat j + 2))
                   (pid_of cf (S (j mod W))))) (fun _ => pcode (at_recv (P ++ [j]))).
Proof.
  intros HP. assert (Hl : length (P ++ [j]) = S (length P)) by (rewrite length_app; cbn; lia).
  rewrite pcode_at_recv by lia. rewrite Hl. cbn [pcode]. unfold collects.
  replace (J - length P)%nat with (S (J - S (length P))) by lia.
  replace (Z.of_nat (S (length P))) with (Z.of_nat (length P) + 1) by lia. reflexivity.
Qed.

Lemma PStop_code P t :
  (t < W)%nat -> pcode (PStop P t) = Sys (Msgsnd q (msg_of (IStop t))) (fun _ => pcode (at_stop P (S t))).
Proof.
  intros Ht. rewrite pcode_at_stop by lia. cbn [pcode]. unfold stops.
  replace (W - t)%nat with (S (W - S t)) by lia.
  replace (1 + Z.of_nat (S t)) with (1 + Z.of_nat t + 1) by lia. reflexivity.
Qed.
(** ** Steps of the machine *)

Lemma msg_no_fault p c s : msg_exec p c s <> Fault.
Proof. unfold msg_exec. destruct c; repeat case_match; done. Qed.

(** What is left to do. *)
Definition msg_weight (m : msg) : nat := if m_size m =? sizeof_job then 4 else 0.
Definition item_weight (i : item) : nat := match i with IRes _ => 0 | _ => 4 end.
Definition queued (s : msgq) : nat :=
  match mq_queues s !! qid with Some (Some Q) => sumf msg_weight (q_msgs Q) | _ => 0 end.
Definition kid_weight (k : wkid) : nat :=
  match k with
  | KRun WLoop => 4 | KRun WRecv => 3 | KRun (WGot _) => 6 | KRun (WSend _) => 5 | KRun (WDone _) => 2
  | KDead => 1 | KGone => 0
  end.
Definition pos_weight (y : ppos) : nat :=
  match y with
  | PSend n => 5 * (J - n) + 2 * J + 5 * W
  | PRecv P => 2 * (J - length P) + 5 * W
  | PPrint P _ => 2 * (J - length P) - 1 + 5 * W
  | PStop _ t => 5 * (W - t)
  | PEnd _ => 0
  end.
Definition weight (ph : phase (Y:=ppos)) (ks : list wkid) (s : msgq) : nat :=
  match ph with
  | Forking => (W - length ks) * 5 + pos_weight (at_send 0)
  | Middle y => pos_weight y
  | Waiting _ => 0
  end + sumf kid_weight ks + queued s.

Lemma queued_items s L : queue_is s L -> queued s = sumf item_weight L.
Proof.
  intros Hq. unfold queued. rewrite Hq. cbn [q_msgs]. clear.
  induction L as [|i L IH]; [done|]. rewrite fmap_cons, !sumf_cons, IH. by destruct i.
Qed.

Definition wbuf (c : nat) (x : wpos) : bytes := [].

(** A worker's step. *)
Lemma worker_step y ks s L o c x q' ob' s' o' :
  winv y ks L -> queue_is s L -> ks !! c = Some (KRun x) ->
  code_step cf (S c) (wcode c x) [] s o = Some (q', ob', s', o') ->
  exists x' L', wcode c x' = q' /\ ob' = [] /\ o' = o /\ queue_is s' L' /\
    winv y (<[c := KRun x']> ks) L' /\
    (kid_weight (KRun x') + sumf item_weight L' < kid_weight (KRun x) + sumf item_weight L)%nat.
Proof.
  intros HI Hq Hc Hs. pose proof (kid_index _ _ _ _ Hc _ HI) as HcW.
  destruct x as [| |j|j|d].
  - cbn in Hs. simplify_eq. exists WRecv, L. split_and!; try done; [|cbn; lia].
    by eapply (winv_same _ _ _ _ Hc).
  - cbn -[msg_exec] in Hs.
    destruct (recv_ok (S c) s L sizeof_job (1 + Z.of_nat c) Hq ltac:(lia))
      as [(L1 & i & L2 & -> & Hw & H1 & Hr)|[Hb _]]; [|by rewrite Hb in Hs].
    rewrite wanted_worker in Hw by done. apply not_wanted_worker in H1; [|done].
    destruct i as [j|j|d]; [|done|]; cbn in Hw; apply Nat.eqb_eq in Hw;
      destruct Hr as (s1 & Hs1 & Hq1); try (cbn; done); rewrite Hs1 in Hs; simplify_eq.
    + exists (WGot j), (L1 ++ L2). split_and!; try done; [by eapply winv_took|].
      rewrite !sumf_app, sumf_cons. cbn. lia.
    + exists (WDone c), (L1 ++ L2). split_and!; try done; [by eapply winv_told|].
      rewrite !sumf_app, sumf_cons. cbn. lia.
  - destruct (held_bound _ _ _ HI c j) as (_ & Hj & Hjc).
    { rewrite (held_at _ _ _ Hc). constructor. }
    pose proof (sent_le _ _ _ HI). rewrite got_code in Hs by lia. cbn in Hs. simplify_eq.
    exists (WSend j), L. split_and!; try done; [|by eapply (winv_same _ _ _ _ Hc)|cbn; lia].
    rewrite send_code by lia. done.
  - destruct (held_bound _ _ _ HI c j) as (_ & Hj & Hjc).
    { rewrite (held_at _ _ _ Hc). constructor. }
    pose proof (sent_le _ _ _ HI). rewrite send_code in Hs by lia. cbn -[msg_exec] in Hs.
    destruct (send_ok (S c) s L (IRes j) Hq) as (s1 & Hs1 & Hq1).
    { eapply room_for; [done|]. pose proof (w_room _ _ _ HI). pose proof (sumf_le kroom ks c _ Hc).
      cbn in *. lia. }
    cbn in Hs, Hs1. rewrite Hs1 in Hs. simplify_eq. exists WLoop, (L ++ [IRes j]).
    split_and!; try done; [by eapply winv_result|].
    rewrite sumf_app. unfold sumf at 2. cbn. lia.
  - done.
Qed.

(** A worker can move unless it waits for a message that is not there. *)
Lemma worker_moves y ks s L o c x :
  winv y ks L -> queue_is s L -> ks !! c = Some (KRun x) ->
  (x = WRecv -> jobs_for c L <> [] \/ stops_for c L <> 0%nat) ->
  (exists a, wcode c x = Ret a) \/ is_Some (code_step cf (S c) (wcode c x) [] s o).
Proof.
  intros HI Hq Hc Hx. pose proof (kid_index _ _ _ _ Hc _ HI) as HcW. pose proof (sent_le _ _ _ HI).
  destruct x as [| |j|j|d]; [by right| | | |left; by eexists].
  - right. cbn -[msg_exec].
    destruct (recv_ok (S c) s L sizeof_job (1 + Z.of_nat c) Hq ltac:(lia))
      as [(L1 & i & L2 & -> & Hw & H1 & Hr)|[_ Hn]].
    + rewrite wanted_worker in Hw by done.
      destruct Hr as (s1 & -> & _); [|done]. by destruct i.
    + apply not_wanted_worker in Hn; [|done]. destruct (jobs_none _ _ Hn). destruct (Hx eq_refl); done.
  - destruct (held_bound _ _ _ HI c j) as (_ & Hj & _); [rewrite (held_at _ _ _ Hc); constructor|].
    right. by rewrite got_code by lia.
  - destruct (held_bound _ _ _ HI c j) as (_ & Hj & _); [rewrite (held_at _ _ _ Hc); constructor|].
    right. rewrite send_code by lia. cbn -[msg_exec].
    destruct (send_ok (S c) s L (IRes j) Hq) as (s1 & Hs1 & _).
    { eapply room_for; [done|]. pose proof (w_room _ _ _ HI). pose proof (sumf_le kroom ks c _ Hc).
      cbn in *. lia. }
    cbn in Hs1 |- *. by rewrite Hs1.
Qed.

Lemma printed_at_stop P t : printed_by (at_stop P t) = P.
Proof. unfold at_stop. by destruct (t <? W)%nat. Qed.
Lemma printed_at_recv P : printed_by (at_recv P) = P.
Proof. unfold at_recv. destruct (length P <? J)%nat; [done|apply printed_at_stop]. Qed.
Lemma printed_at_send n : printed_by (at_send n) = [].
Proof. unfold at_send. destruct (n <? J)%nat; [done|apply printed_at_recv]. Qed.

Lemma pbuf_same y y' : printed_by y' = printed_by y -> pbuf y' = pbuf y /\ pout y' = pout y.
Proof. intros E. unfold pbuf, pout. by rewrite E. Qed.

Lemma texts_snoc P j : texts (P ++ [j]) = texts P ++ line j.
Proof. unfold texts. rewrite fmap_app, concat_app. cbn. by rewrite app_nil_r. Qed.

Lemma weight_at_stop P t : (t <= W)%nat -> pos_weight (at_stop P t) = (5 * (W - t))%nat.
Proof. intros Ht. unfold at_stop. destruct (Nat.ltb_spec t W); cbn; lia. Qed.
Lemma weight_at_recv P : (pos_weight (at_recv P) <= 2 * (J - length P) + 5 * W)%nat.
Proof. unfold at_recv. destruct (Nat.ltb_spec (length P) J); [done|]. rewrite weight_at_stop; lia. Qed.
Lemma weight_at_send n : (pos_weight (at_send n) <= 5 * (J - n) + 2 * J + 5 * W)%nat.
Proof.
  unfold at_send. destruct (Nat.ltb_spec n J); [done|]. pose proof (weight_at_recv []). cbn in *. lia.
Qed.

(** The parent's step. *)
Lemma parent_step y ks s L q' ob' s' o' :
  winv y ks L -> queue_is s L ->
  code_step cf 0 (pcode y) (pbuf y) s (pout y) = Some (q', ob', s', o') ->
  exists y' L', pcode y' = q' /\ pbuf y' = ob' /\ o' = pout y' /\ queue_is s' L' /\ winv y' ks L' /\
    (pos_weight y' + sumf item_weight L' < pos_weight y + sumf item_weight L)%nat.
Proof.
  intros HI Hq Hs. pose proof (w_pos _ _ _ HI) as Hp. pose proof (w_room _ _ _ HI) as Hr.
  destruct y as [n|P|P j|P t|P]; cbn in Hp.
  - rewrite PSend_code in Hs by done. cbn -[msg_exec pcode] in Hs.
    destruct (send_ok 0 s L (IJob n) Hq) as (s1 & Hs1 & Hq1).
    { eapply room_for; [done|]. cbn in *. lia. }
    cbn -[pcode] in Hs, Hs1. rewrite Hs1 in Hs. simplify_eq.
    destruct (pbuf_same (PSend n) (at_send (S n)) (printed_at_send _)) as [Eb Eo].
    exists (at_send (S n)), (L ++ [IJob n]). split_and!; try done; [by apply winv_sent|].
    rewrite sumf_app. unfold sumf at 2. pose proof (weight_at_send (S n)). cbn in *. lia.
  - rewrite PRecv_code in Hs by done. cbn -[msg_exec pcode] in Hs.
    destruct (recv_ok 0 s L sizeof_result RESULT Hq ltac:(done))
      as [(L1 & i & L2 & -> & Hw & H1 & Hrr)|[Hb _]]; [|by rewrite Hb in Hs].
    rewrite (wanted_result _ _ _ _ HI) in Hw by (rewrite elem_of_app, elem_of_cons; tauto).
    destruct i as [j|j|d]; try done. destruct Hrr as (s1 & Hs1 & Hq1); [done|].
    rewrite Hs1 in Hs. simplify_eq. exists (PPrint P j), (L1 ++ L2). split_and!; try done.
    + apply winv_arrived; [done|]. apply Forall_forall. intros i Hi.
      eapply Forall_forall in H1; [|exact Hi]. rewrite <- H1. symmetry.
      eapply wanted_result; [exact HI|]. apply elem_of_app. by left.
    + rewrite !sumf_app, sumf_cons. cbn. lia.
  - rewrite PPrint_code in Hs by done. cbn -[pcode] in Hs.
    exists (at_recv (P ++ [j])), L.
    assert (Hx : pbuf (at_recv (P ++ [j])) = ob' /\ o' = pout (at_recv (P ++ [j])) /\
                 pcode (at_recv (P ++ [j])) = q' /\ s' = s).
    { unfold pbuf, pout. rewrite printed_at_recv. unfold pbuf, pout, stdio_line in Hs. cbn -[pcode] in Hs.
      rewrite texts_snoc. unfold line. destruct (tty cf); by simplify_eq. }
    destruct Hx as (Eb & Eo & Ec & ->). split_and!; try done; [by apply winv_printed|].
    pose proof (weight_at_recv (P ++ [j])) as Hw. rewrite length_app in Hw. cbn in *. lia.
  - rewrite PStop_code in Hs by (apply Hp). cbn -[msg_exec pcode] in Hs.
    destruct (send_ok 0 s L (IStop t) Hq) as (s1 & Hs1 & Hq1).
    { eapply room_for; [done|]. cbn in *. lia. }
    cbn -[pcode] in Hs, Hs1. rewrite Hs1 in Hs. simplify_eq.
    destruct (pbuf_same (PStop P t) (at_stop P (S t)) (printed_at_stop _ _)) as [Eb Eo].
    exists (at_stop P (S t)), (L ++ [IStop t]). split_and!; try done; [by apply winv_stopped|].
    rewrite sumf_app, weight_at_stop by lia. unfold sumf at 2. cbn in *. lia.
  - done.
Qed.

(** Only [msgrcv] can make the parent wait, for a result that is not there. *)
Lemma parent_waits y ks s L :
  winv y ks L -> queue_is s L -> (forall a, pcode y <> Ret a) ->
  code_step cf 0 (pcode y) (pbuf y) s (pout y) = None ->
  (exists P, y = PRecv P) /\ results L = [].
Proof.
  intros HI Hq Hr Hs. pose proof (w_pos _ _ _ HI) as Hp. pose proof (w_room _ _ _ HI) as Hrm.
  destruct y as [n|P|P j|P t|P]; cbn in Hp.
  - rewrite PSend_code in Hs by done. cbn -[msg_exec pcode] in Hs.
    destruct (send_ok 0 s L (IJob n) Hq) as (s1 & Hs1 & _); [eapply room_for; [done|]; cbn in *; lia|].
    cbn -[pcode] in Hs, Hs1. by rewrite Hs1 in Hs.
  - split; [by eexists|]. rewrite PRecv_code in Hs by done. cbn -[msg_exec pcode] in Hs.
    destruct (recv_ok 0 s L sizeof_result RESULT Hq ltac:(done))
      as [(L1 & i & L2 & -> & Hw & H1 & Hrr)|[_ Hn]].
    + destruct Hrr as (s1 & Hs1 & _); [by destruct i|]. by rewrite Hs1 in Hs.
    + apply results_none, Forall_forall. intros i Hi. eapply Forall_forall in Hn; [|exact Hi].
      rewrite <- Hn. symmetry. by eapply wanted_result.
  - rewrite PPrint_code in Hs by done. cbn -[pcode] in Hs. by destruct (stdio_line _ _ _).
  - rewrite PStop_code in Hs by (apply Hp). cbn -[msg_exec pcode] in Hs.
    destruct (send_ok 0 s L (IStop t) Hq) as (s1 & Hs1 & _); [eapply room_for; [done|]; cbn in *; lia|].
    cbn -[pcode] in Hs, Hs1. by rewrite Hs1 in Hs.
  - by destruct (Hr tt).
Qed.

Lemma pcode_ret y a : pwf y -> pcode y = Ret a -> exists P, y = PEnd P.
Proof.
  intros Hp. destruct y as [n|P|P j|P t|P]; cbn in Hp.
  - by rewrite PSend_code.
  - by rewrite PRecv_code.
  - by rewrite PPrint_code.
  - by rewrite PStop_code by (apply Hp).
  - intros _. by eexists.
Qed.

Lemma pcode_plain y s : pwf y -> plain 0 (pcode y) s.
Proof.
  intros Hp. destruct y as [n|P|P j|P t|P]; cbn in Hp.
  - rewrite PSend_code by done. apply msg_no_fault.
  - rewrite PRecv_code by done. apply msg_no_fault.
  - by rewrite PPrint_code.
  - rewrite PStop_code by (apply Hp). apply msg_no_fault.
  - done.
Qed.

Lemma wcode_plain y ks s L c x :
  winv y ks L -> ks !! c = Some (KRun x) -> plain (S c) (wcode c x) s.
Proof.
  intros HI Hc. pose proof (sent_le _ _ _ HI).
  destruct x as [| |j|j|d]; [done|apply msg_no_fault| | |done];
    (destruct (held_bound _ _ _ HI c j) as (_ & Hj & _); [rewrite (held_at _ _ _ Hc); constructor|]).
  - by rewrite got_code by lia.
  - rewrite send_code by lia. apply msg_no_fault.
Qed.

Lemma wcode_ret y ks L c x a :
  winv y ks L -> ks !! c = Some (KRun x) -> wcode c x = Ret a -> exists d, x = WDone d.
Proof.
  intros HI Hc Ha. pose proof (sent_le _ _ _ HI).
  destruct x as [| |j|j|d]; [done|done| | |by eexists];
    (destruct (held_bound _ _ _ HI c j) as (_ & Hj & _); [rewrite (held_at _ _ _ Hc); constructor|]).
  - by rewrite got_code in Ha by lia.
  - by rewrite send_code in Ha by lia.
Qed.

(** While the parent waits for a result, some worker can move. *)
Lemma someone_works P ks s L o :
  winv (PRecv P) ks L -> queue_is s L -> length ks = W -> results L = [] ->
  exists c x, ks !! c = Some (KRun x) /\
    ((exists a, wcode c x = Ret a) \/ is_Some (code_step cf (S c) (wcode c x) [] s o)).
Proof.
  intros HI Hq Hlen Hres.
  destruct (decide (Exists (fun c => under_way ks L c <> []) (seq 0 W))) as [Hex|Hno].
  - apply Exists_exists in Hex as (c & Hc%elem_of_seq & Hu).
    unfold under_way in Hu. rewrite Hres in Hu. cbn in Hu.
    destruct (lookup_lt_is_Some_2 ks c ltac:(lia)) as [k Hk].
    assert (Hx : exists x, k = KRun x).
    { pose proof (w_left _ _ _ HI c) as Hlf. rewrite (left_at _ _ _ Hk) in Hlf. cbn in Hlf.
      destruct k as [x| |]; [by eexists|..]; specialize (Hlf eq_refl); lia. }
    destruct Hx as [x ->]. exists c, x. split; [done|]. eapply worker_moves; try done.
    intros ->. left. by rewrite (held_at _ _ _ Hk) in Hu.
  - exfalso. pose proof (w_pos _ _ _ HI) as Hp. cbn in Hp.
    pose proof (split_lengths W ltac:(lia) _ _ _ (w_jobs _ _ _ HI)) as Hsum. cbn in Hsum.
    rewrite (sumf_const _ _ 0%nat) in Hsum; [lia|]. apply Forall_forall. intros c Hc.
    destruct (under_way ks L c) as [|j l] eqn:E; [done|]. destruct Hno. apply Exists_exists.
    exists c. split; [done|]. by rewrite E.
Qed.
(** ** All schedules *)

Definition inv (ph : phase (Y:=ppos)) (ks : list wkid) (s : msgq) (o : bytes) : Prop :=
  exists y L, queue_is s L /\ winv y ks L /\ o = pout y /\
    match ph with
    | Forking => y = at_send 0
    | Middle y' => y = y'
    | Waiting b => (exists P, y = PEnd P) /\ b = pbuf y
    end.

Lemma weight_kid ph ks s s' c k k' L L' :
  ks !! c = Some k -> queue_is s L -> queue_is s' L' ->
  (kid_weight k' + sumf item_weight L' < kid_weight k + sumf item_weight L)%nat ->
  (weight ph (<[c := k']> ks) s' < weight ph ks s)%nat.
Proof.
  intros Hc Hq Hq' Hlt. unfold weight. rewrite (queued_items _ _ Hq), (queued_items _ _ Hq'), length_insert.
  pose proof (sumf_insert kid_weight ks c _ k' Hc). destruct ph; lia.
Qed.

(** All the workers are gone: every job was printed once, each worker's jobs
    in order. *)
Definition all_done (R : list nat) : Prop :=
  R ≡ₚ seq 0 J /\ forall c, (c < W)%nat -> of_worker W c R = of_worker W c (seq 0 J).

Lemma winv_done P ks L : winv (PEnd P) ks L -> all_done P.
Proof.
  intros HI. pose proof (w_pos _ _ _ HI) as Hp. cbn in Hp. split.
  - by apply (split_perm W ltac:(lia) _ _ _ (w_jobs _ _ _ HI)).
  - intros c Hc. etransitivity; [|apply (w_jobs _ _ _ HI c Hc)].
    rewrite (stopping _ _ _ HI) by (cbn; lia). by rewrite app_nil_r.
Qed.

Lemma spawn_workers fin (Q : world msg_call msgq -> Prop) s :
  queue_is s [] ->
  (forall b o s' R L, b = (if tty cf then [] else texts R) -> o = (if tty cf then texts R else []) ->
     queue_is s' L -> all_done R ->
     total cf (World (Process (Live fin) None b ::
                      replicate W (Process Reaped (Some 0%nat) [])) s' o []) Q) ->
  total cf (World [Process (Live (spawn W 1 (worker q) middle fin)) None []] s [] []) Q.
Proof.
  intros Hq Hfin.
  apply (spawn_total cf W 1 (worker q) middle fin [] wcode wbuf WLoop pcode pbuf (at_send 0) inv weight).
  - done.
  - split; [rewrite pcode_at_send by lia; reflexivity|]. unfold pbuf. rewrite printed_at_send. by destruct (tty cf).
  - intros ks s1 o (y & L & Hq1 & HI & Ho & Hy) Hl. split.
    + exists y, L. split_and!; try done. by apply winv_fork.
    + unfold weight. rewrite length_app, sumf_app. unfold sumf at 2. cbn. unfold queued. cbn. lia.
  - intros ks s1 o (y & L & Hq1 & HI & Ho & Hy) Hl. split; [by exists y, L|]. unfold weight. lia.
  - intros ph ks s1 o c x (y & L & Hq1 & HI & Ho & Hy) Hc. by eapply wcode_plain.
  - intros y ks s1 o (y1 & L & Hq1 & HI & Ho & ->) Hl. apply pcode_plain, (w_pos _ _ _ HI).
  - intros ph ks s1 o c x q' ob' s' o' (y & L & Hq1 & HI & Ho & Hy) Hc Hs.
    destruct (worker_step _ _ _ _ _ _ _ _ _ _ _ HI Hq1 Hc Hs) as (x' & L' & Hx & -> & -> & Hq2 & HI2 & Hw).
    exists x'. split_and!; try done; [by exists y, L'|]. by eapply weight_kid.
  - intros y ks s1 o q' ob' s' o' (y1 & L & Hq1 & HI & -> & ->) Hl Hs.
    destruct (parent_step _ _ _ _ _ _ _ _ HI Hq1 Hs) as (y' & L' & Hc & Hb & -> & Hq2 & HI2 & Hw).
    exists y'. split_and!; try done; [by exists y', L'|].
    unfold weight. rewrite (queued_items _ _ Hq1), (queued_items _ _ Hq2). lia.
  - intros y ks s1 o a (y1 & L & Hq1 & HI & Ho & ->) Ha.
    destruct (pcode_ret _ _ (w_pos _ _ _ HI) Ha) as [P ->].
    split; [exists (PEnd P), L; split_and!; try done; by eexists|]. unfold weight. cbn. lia.
  - intros ph ks s1 o c x a (y & L & Hq1 & HI & Ho & Hy) Hc Ha.
    destruct (wcode_ret _ _ _ _ _ _ HI Hc Ha) as [d ->].
    split; [exists y, L; split_and!; try done; by eapply (winv_same _ _ _ _ Hc)|].
    eapply weight_kid; [done|exact Hq1|exact Hq1|]. cbn. lia.
  - intros b ks s1 o c (y & L & Hq1 & HI & Ho & Hy) Hc.
    split; [exists y, L; do 2 (split; [done || by eapply (winv_same _ _ _ _ Hc)|]); done|].
    eapply weight_kid; [done|exact Hq1|exact Hq1|]. cbn. lia.
  - intros ph ks s1 o (y & L & Hq1 & HI & -> & Hy) Hl Hp. destruct ph as [|y'|b]; [done| |].
    + subst y'. destruct Hp as [Hs Hr].
      destruct (parent_waits _ _ _ _ HI Hq1 Hr Hs) as [[P ->] Hres]. by eapply someone_works.
    + destruct Hy as [[P ->] _]. destruct Hp as (c & x & Hc). exists c, x. split; [done|].
      eapply worker_moves; try done. intros ->. right.
      pose proof (kid_index _ _ _ _ Hc _ HI) as HcW.
      rewrite (w_stop _ _ _ HI c HcW), (left_at _ _ _ Hc). cbn.
      by replace (c <? W)%nat with true by (symmetry; by apply Nat.ltb_lt).
  - exists (at_send 0), []. split_and!; try done; [by apply winv_start|].
    unfold pout. rewrite printed_at_send. by destruct (tty cf).
  - intros b s1 o (y & L & Hq1 & HI & -> & (P & ->) & ->). eapply (Hfin _ _ _ P L); try done. by eapply winv_done.
Qed.
End Workers.

(** The program is of the shape of [spawn]. *)
Lemma program_spawn W J (qid : nat) fin :
  (for_ W 1 (fun i => fork_child (worker (Z.of_nat qid) i)) ;;;
   for_ J 0 (send_job W (Z.of_nat qid)) ;;;
   for_ J 0 (collect (Z.of_nat qid)) ;;;
   for_ W 1 (send_stop (Z.of_nat qid)) ;;;
   reap_all_children ;;; fin) =
  spawn W 1 (worker (Z.of_nat qid)) (middle W J qid) fin.
Proof.
  unfold spawn, middle, sends, collects, stops. rewrite !Nat.sub_0_r. f_equal.
  apply functional_extensionality. intros _. by rewrite !bind_assoc.
Qed.

(** C13. [sysv_priority_workers.c]: with any number of workers from 1 to 99
    and any number of jobs whose messages fit the queue, under every schedule
    the program ends; every job is printed exactly once, with its value, its
    square and the process id of the worker it was dealt to; the jobs of each
    worker are printed in the order in which they were sent; all workers are
    stopped and reaped and the queue is removed. *)
Theorem priority_workers_correct cf workers jobs queues :
  (0 < workers < 100)%nat -> Z.of_nat (24 * jobs + 8 * workers) <= MSGMNB ->
  total cf (boot (program workers jobs) (MsgqState queues)) (fun w =>
    (exists R, R ≡ₚ seq 0 jobs /\
       (forall c, (c < workers)%nat -> of_worker workers c R = of_worker workers c (seq 0 jobs)) /\
       finished 0 (concat (line cf workers <$> R)) w) /\
    mq_queues (kern w) !! length queues = Some None).
Proof.
  intros HW HJ. last_call (reflexivity). cbn [rv ok mq_queues].
  destruct (Z.eqb_spec (Z.of_nat (length queues)) (-1)); [lia|].
  rewrite program_spawn.
  apply (spawn_workers cf workers jobs (length queues) HW HJ).
  - unfold queue_is. cbn. by rewrite lookup_app_r, Nat.sub_diag by done.
  - intros b o s R L Hb Ho Hq [HR Hc].
    last_call (cbn; rewrite (queue_get _ _ _ _ HW HJ _ _ Hq); reflexivity).
    last_end. split.
    + exists R. split; [done|]. split; [done|].
      split; [eexists; cbn; by rewrite length_replicate|]. split; [|done]. cbn. subst.
      destruct (tty cf); [by rewrite app_nil_r|done].
    + cbn. rewrite Nat2Z.id. apply list_lookup_insert_eq. by eapply lookup_lt_Some.
Qed.

(** The program itself has three workers and nine jobs. *)
Lemma priority_workers_witness :
  (0 < 3 < 100)%nat /\ Z.of_nat (24 * 9 + 8 * 3) <= MSGMNB /\
  total (Config true 10) (boot main (MsgqState [])) (fun w =>
    (exists R, R ≡ₚ seq 0 9 /\
       (forall c, (c < 3)%nat -> of_worker 3 c R = of_worker 3 c (seq 0 9)) /\
       finished 0 (concat (line (Config true 10) 3 <$> R)) w) /\
    mq_queues (kern w) !! 0%nat = Some None).
Proof.
  split; [lia|]. split; [by vm_compute|].
  apply (priority_workers_correct (Config true 10) 3 9 []); [lia|by vm_compute].
Defined.
