(* ===== verification/Io.v ===== *)
(** * Io: descriptors over pipes, FIFOs, sockets, files and event counters

    The kernel behind the programs of [Pipes], [AlternativeIO], [Sockets] and
    [InternetSockets], and behind [SharedMemory/memfd_sealed_config.c].  Every process has
    a table of descriptors; descriptors refer to open descriptions, which
    [fork] shares; descriptions refer to byte channels, files, datagram queues
    or event counters.  A channel is at end of file when no open description,
    no connection waiting to be accepted and no description in flight can
    still write to it. *)

From S2P Require Import Prelude Fmt Posix Explore Common.

(** Addresses: a path, a name in the abstract namespace, a loopback port. *)
Inductive addr : Type :=
| APath (p : bytes)
| AAbstract (name : bytes)
| APort (port : Z).

Definition bytes_eqb (a b : bytes) : bool := bool_decide (a = b).
Definition addr_eqb (a b : addr) : bool :=
  match a, b with
  | APath p, APath q => bytes_eqb p q
  | AAbstract p, AAbstract q => bytes_eqb p q
  | APort p, APort q => sym_eqb p q
  | _, _ => false
  end.

(** A byte channel; [c_gen] counts the writes to it, [c_opens] how often it
    has been opened for writing, [c_rights] are the descriptions sent along
    with its bytes. *)
Record chan := Chan { c_buf : bytes; c_gen : nat; c_opens : nat; c_rights : list nat }.

Record inode := Inode { i_data : bytes; i_seals : Z }.

(** A watched descriptor: its number, its description, edge triggered or
    not, and the number of writes already reported. *)
Record watch := Watch { w_fd : Z; w_desc : nat; w_edge : bool; w_seen : nat }.

Inductive desc : Type :=
| DFree
| DPipeR (c : nat) (nonblock : bool) (seen : nat)
| DPipeW (c : nat)
| DSocket (nonblock : bool) (bound : option addr)
| DListen (a : addr) (nonblock : bool) (pending : list nat)
| DStream (rx tx : nat) (nonblock writing : bool)
| DDgram (bound peer : option addr) (queue : list (option addr * bytes))
| DFile (n : nat) (off : nat)
| DEvent (count : Z)
| DEpoll (ws : list watch).

Inductive node : Type :=
| NFile (n : nat)
| NFifo (c : nat)
| NSock (d : nat).

Record io := IoState {
  io_names : list (addr * node);
  io_chans : list chan;
  io_inodes : list inode;
  io_descs : list desc;
  io_fds : list (list (option nat));
  io_stdout : bytes;
  io_ports : list Z;
}.

Inductive io_call : Type :=
| Pipe
| Close (fd : Z)
| Read (fd n : Z)
| Write (fd : Z) (data : bytes)
| Getfl (fd : Z)
| Setfl (fd flags : Z)
| Rewind (fd : Z)
| Open (path : bytes) (creat trunc : bool)
| OpenFifo (path : bytes) (for_write nonblock : bool)
| Mkfifo (path : bytes)
| Unlink (path : bytes)
| Socketpair
| Socket (nonblock : bool)
| SocketDgram
| Bind (fd : Z) (a : addr)
| Listen (fd : Z)
| Connect (fd : Z) (a : addr)
| Accept (fd : Z) (nonblock : bool)
| ShutdownWr (fd : Z)
| Getsockname (fd : Z)
| Sendto (fd : Z) (to : option addr) (data : bytes)
| Recvfrom (fd n : Z)
| SendFd (sock fd : Z)
| RecvFd (sock : Z)
| Eventfd (v : Z)
| Poll (fds : list Z)
| EpollCreate
| EpollAdd (ep fd : Z) (edge : bool)
| EpollWait (ep : Z) (max : nat)
| Splice (fd_in fd_out n : Z)
| Memfd
| MmapAnon (len : Z)
| AddSeals (fd seals : Z)
| GetSeals (fd : Z).

Definition PIPE_CAPACITY : Z := 65536.

(** ** The state *)

Definition set_chans (s : io) (l : list chan) : io :=
  IoState (io_names s) l (io_inodes s) (io_descs s) (io_fds s) (io_stdout s) (io_ports s).
Definition set_names (s : io) (l : list (addr * node)) : io :=
  IoState l (io_chans s) (io_inodes s) (io_descs s) (io_fds s) (io_stdout s) (io_ports s).
Definition set_inodes (s : io) (l : list inode) : io :=
  IoState (io_names s) (io_chans s) l (io_descs s) (io_fds s) (io_stdout s) (io_ports s).
Definition set_descs (s : io) (l : list desc) : io :=
  IoState (io_names s) (io_chans s) (io_inodes s) l (io_fds s) (io_stdout s) (io_ports s).
Definition set_fds (s : io) (l : list (list (option nat))) : io :=
  IoState (io_names s) (io_chans s) (io_inodes s) (io_descs s) l (io_stdout s) (io_ports s).
Definition set_ports (s : io) (l : list Z) : io :=
  IoState (io_names s) (io_chans s) (io_inodes s) (io_descs s) (io_fds s) (io_stdout s) l.

Definition put_desc (s : io) (d : nat) (x : desc) : io := set_descs s (<[d := x]> (io_descs s)).
Definition put_chan (s : io) (c : nat) (x : chan) : io := set_chans s (<[c := x]> (io_chans s)).

Definition fd_table (s : io) (i : nat) : list (option nat) := default [] (io_fds s !! i).
Definition fd_desc (s : io) (i : nat) (fd : Z) : option nat :=
  if fd <? 3 then None else default None (fd_table s i !! Z.to_nat (fd - 3)).

(** A new description and the lowest free descriptor for it. *)
Definition new_fd (i d : nat) (s : io) : Z * io :=
  let t := fd_table s i in
  match find_idx (fun e => match e with None => true | Some _ => false end) t with
  | Some n => (3 + Z.of_nat n, set_fds s (<[i := <[n := Some d]> t]> (io_fds s)))
  | None => (3 + Z.of_nat (length t), set_fds s (<[i := t ++ [Some d]]> (io_fds s)))
  end.
Definition new_desc (x : desc) (s : io) : nat * io :=
  (length (io_descs s), set_descs s (io_descs s ++ [x])).
Definition open_desc (i : nat) (x : desc) (s : io) : Z * io :=
  let '(d, s1) := new_desc x s in new_fd i d s1.
Definition new_chan (s : io) : nat * io :=
  (length (io_chans s), set_chans s (io_chans s ++ [Chan [] 0 0 []])).

(** Who keeps a description open: a descriptor of some process, the queue
    of a listening socket, or a message in flight. *)
Definition pending_of (x : desc) : list nat :=
  match x with DListen _ _ l => l | _ => [] end.
Definition in_use (s : io) (d : nat) : bool :=
  existsb (existsb (fun e => match e with Some x => Nat.eqb x d | None => false end)) (io_fds s) ||
  existsb (fun x => existsb (Nat.eqb d) (pending_of x)) (io_descs s) ||
  existsb (fun c => existsb (Nat.eqb d) (c_rights c)) (io_chans s).

(** Descriptions nobody keeps open go away, and epoll forgets them. *)
Definition reap_descs (s : io) : io :=
  let ds := imap (fun d x => if in_use s d then x else DFree) (io_descs s) in
  set_descs s (map (fun x => match x with
    | DEpoll ws => DEpoll (List.filter (fun w => in_use s (w_desc w)) ws)
    | _ => x
    end) ds).

Definition writes_to (c : nat) (x : desc) : bool :=
  match x with
  | DPipeW c' => Nat.eqb c c'
  | DStream _ tx _ true => Nat.eqb c tx
  | _ => false
  end.
Definition reads_from (c : nat) (x : desc) : bool :=
  match x with
  | DPipeR c' _ _ => Nat.eqb c c'
  | DStream rx _ _ _ => Nat.eqb c rx
  | _ => false
  end.
Definition has_writer (s : io) (c : nat) : bool := existsb (writes_to c) (io_descs s).
Definition has_reader (s : io) (c : nat) : bool := existsb (reads_from c) (io_descs s).

Definition find_name (s : io) (a : addr) : option node :=
  snd <$> List.find (fun e => addr_eqb a e.1) (io_names s).

(** ** Reading and writing *)

Definition with_desc (i : nat) (fd : Z) (s : io) (f : nat -> desc -> kres io) : kres io :=
  match fd_desc s i fd with
  | Some d => match io_descs s !! d with Some x => f d x | None => Fault end
  | None => Done (failed EBADF) s
  end.
Definition with_chan (s : io) (c : nat) (f : chan -> kres io) : kres io :=
  match io_chans s !! c with Some x => f x | None => Fault end.

Definition read_chan (s : io) (c : nat) (nonblock : bool) (n : nat) : kres io :=
  with_chan s c (fun ch =>
    match c_buf ch with
    | [] => if negb (has_writer s c) then Done (ok 0) s
            else if nonblock then Done (failed EAGAIN) s else Block
    | b => Done (ok_bytes (blen (take n b)) (take n b))
             (put_chan s c (Chan (drop n b) (c_gen ch) (c_opens ch) (c_rights ch)))
    end).

(** Writing to a channel that nobody can read kills the writer. *)
Definition write_chan (s : io) (c : nat) (nonblock : bool) (data : bytes) : kres io :=
  with_chan s c (fun ch =>
    if negb (has_reader s c) then Fault
    else if blen (c_buf ch) + blen data >? PIPE_CAPACITY then
      if nonblock then Done (failed EAGAIN) s else Block
    else Done (ok (blen data))
           (put_chan s c (Chan (c_buf ch ++ data) (S (c_gen ch)) (c_opens ch) (c_rights ch)))).

(** A file write at an offset. *)
Definition splice_bytes (off : nat) (data old : bytes) : bytes :=
  take off (old ++ replicate (off - length old) hole) ++ data ++ drop (off + length data) old.

Definition F_SEAL_SHRINK : Z := 2.
Definition F_SEAL_GROW : Z := 4.
Definition F_SEAL_WRITE : Z := 8.

(** Eight-byte counters, least significant byte first. *)
Fixpoint le_bytes (n : nat) (v : Z) : bytes :=
  match n with
  | O => []
  | S n' => ascii_of_nat (Z.to_nat (v mod 256)) :: le_bytes n' (v / 256)
  end.
Fixpoint le_value (b : bytes) : Z :=
  match b with
  | [] => 0
  | c :: b' => Z.of_nat (nat_of_ascii c) + 256 * le_value b'
  end.

Definition io_read (i : nat) (fd n : Z) (s : io) : kres io :=
  with_desc i fd s (fun d x =>
    match x with
    | DPipeR c nb _ => read_chan s c nb (Z.to_nat n)
    | DStream rx _ nb _ => read_chan s rx nb (Z.to_nat n)
    | DFile m off =>
        match io_inodes s !! m with
        | Some ino =>
            let b := take (Z.to_nat n) (drop off (i_data ino)) in
            Done (ok_bytes (blen b) b) (put_desc s d (DFile m (off + length b)))
        | None => Fault
        end
    | DEvent v =>
        if n <? 8 then Done (failed EINVAL) s
        else if v =? 0 then Block
        else Done (ok_bytes 8 (le_bytes 8 v)) (put_desc s d (DEvent 0))
    | DDgram bound peer q =>
        match q with
        | [] => Block
        | (_, m) :: q' =>
            let b := take (Z.to_nat n) m in
            Done (ok_bytes (blen b) b) (put_desc s d (DDgram bound peer q'))
        end
    | _ => Done (failed EINVAL) s
    end).

(** Appending a datagram to the socket bound to [a]. *)
Definition deliver (s : io) (from : option addr) (a : addr) (data : bytes) : kres io :=
  match find_name s a with
  | Some (NSock d) =>
      match io_descs s !! d with
      | Some (DDgram bound peer q) =>
          Done (ok (blen data)) (put_desc s d (DDgram bound peer (q ++ [(from, data)])))
      | _ => Done (failed ECONNREFUSED) s
      end
  | _ => Done (failed ENOENT) s
  end.

Definition io_write (i : nat) (fd : Z) (data : bytes) (s : io) : kres io :=
  with_desc i fd s (fun d x =>
    match x with
    | DPipeW c => write_chan s c false data
    | DStream _ tx nb true => write_chan s tx nb data
    | DStream _ _ _ false => Fault
    | DFile m off =>
        match io_inodes s !! m with
        | Some ino =>
            if negb (Z.land (i_seals ino) F_SEAL_WRITE =? 0) then Done (failed EPERM) s
            else Done (ok (blen data))
              (put_desc (set_inodes s (<[m := Inode (splice_bytes off data (i_data ino)) (i_seals ino)]>
                                         (io_inodes s)))
                 d (DFile m (off + length data)))
        | None => Fault
        end
    | DEvent v =>
        if blen data <? 8 then Done (failed EINVAL) s
        else Done (ok 8) (put_desc s d (DEvent (v + le_value (take 8 data))))
    | DDgram bound (Some a) _ => deliver s bound a data
    | _ => Done (failed EINVAL) s
    end).

(** ** Readiness *)

(** Does [poll] report the description?  A pipe or FIFO without data is
    reported when its writers are gone, but not before the first writer has
    come: [seen] is the count of openings when the reader opened it. *)
Definition chan_ready (s : io) (c : nat) (seen : option nat) : bool :=
  match io_chans s !! c with
  | Some ch =>
      negb (blen (c_buf ch) =? 0) ||
      (negb (has_writer s c) && match seen with
                                | Some n => negb (Nat.eqb n (c_opens ch))
                                | None => true
                                end)
  | None => false
  end.
Definition readable (s : io) (x : desc) : bool :=
  match x with
  | DPipeR c _ seen => chan_ready s c (Some seen)
  | DStream rx _ _ _ => chan_ready s rx None
  | DListen _ _ pending => negb (bool_decide (pending = []))
  | DDgram _ _ q => negb (bool_decide (length q = 0%nat))
  | DFile _ _ => true
  | DEvent v => negb (v =? 0)
  | _ => false
  end.

Definition fd_ready (i : nat) (s : io) (fd : Z) : bool :=
  match fd_desc s i fd with
  | Some d => match io_descs s !! d with Some x => readable s x | None => false end
  | None => false
  end.

(** The number of writes a watched channel has seen. *)
Definition generation (s : io) (x : desc) : nat :=
  match x with
  | DPipeR c _ _ | DStream c _ _ _ => match io_chans s !! c with Some ch => c_gen ch | None => 0%nat end
  | _ => 0%nat
  end.

(** Level triggered: readable.  Edge triggered: readable, with something
    written since the last report. *)
Definition watch_ready (s : io) (w : watch) : bool :=
  match io_descs s !! w_desc w with
  | Some x =>
      readable s x && (negb (w_edge w) || negb (Nat.eqb (generation s x) (w_seen w)))
  | None => false
  end.

Definition epoll_wait (i : nat) (ep : Z) (max : nat) (s : io) : kres io :=
  with_desc i ep s (fun d x =>
    match x with
    | DEpoll ws =>
        let hits := take max (List.filter (watch_ready s) ws) in
        match hits with
        | [] => Block
        | _ =>
            let mark w :=
              if w_edge w && watch_ready s w then
                Watch (w_fd w) (w_desc w) true
                  (match io_descs s !! w_desc w with Some y => generation s y | None => 0%nat end)
              else w in
            Done (ok_ints (Z.of_nat (length hits)) (w_fd <$> hits)) (put_desc s d (DEpoll (mark <$> ws)))
        end
    | _ => Done (failed EINVAL) s
    end).

(** ** Sockets *)

(** A datagram socket that connects to a port gets one of its own. *)
Definition io_connect (i : nat) (fd : Z) (a : addr) (s : io) : kres io :=
  with_desc i fd s (fun d x =>
    match x with
    | DSocket nb _ =>
        match find_name s a with
        | Some (NSock l) =>
            match io_descs s !! l with
            | Some (DListen la lnb pending) =>
                let '(c1, s1) := new_chan s in
                let '(c2, s2) := new_chan s1 in
                let s3 := put_desc s2 d (DStream c1 c2 nb true) in
                let '(e, s4) := new_desc (DStream c2 c1 false true) s3 in
                Done (ok 0) (put_desc s4 l (DListen la lnb (pending ++ [e])))
            | _ => Done (failed ECONNREFUSED) s
            end
        | _ => Done (failed ENOENT) s
        end
    | DDgram bound _ q =>
        match bound, a, io_ports s with
        | None, APort _, p :: ports =>
            Done (ok 0) (put_desc (set_names (set_ports s ports) ((APort p, NSock d) :: io_names s)) d
                           (DDgram (Some (APort p)) (Some a) q))
        | _, _, _ => Done (ok 0) (put_desc s d (DDgram bound (Some a) q))
        end
    | _ => Done (failed EINVAL) s
    end).

Definition io_accept (i : nat) (fd : Z) (nonblock : bool) (s : io) : kres io :=
  with_desc i fd s (fun d x =>
    match x with
    | DListen la lnb (e :: pending) =>
        match io_descs s !! e with
        | Some (DStream rx tx _ w) =>
            let s1 := put_desc (put_desc s e (DStream rx tx nonblock w)) d (DListen la lnb pending) in
            let '(newfd, s2) := new_fd i e s1 in
            Done (ok newfd) s2
        | _ => Fault
        end
    | DListen _ lnb [] => if lnb then Done (failed EAGAIN) s else Block
    | _ => Done (failed EINVAL) s
    end).

(** Binding to an address nobody has; port 0 asks for the next unused port. *)
Definition bind_to (d : nat) (x : desc) (a : addr) (s : io) : kres io :=
  match find_name s a with
  | Some _ => Done (failed EADDRINUSE) s
  | None =>
      match x with
      | DSocket nb None =>
          Done (ok 0) (put_desc (set_names s ((a, NSock d) :: io_names s)) d (DSocket nb (Some a)))
      | DDgram None peer q =>
          Done (ok 0) (put_desc (set_names s ((a, NSock d) :: io_names s)) d (DDgram (Some a) peer q))
      | _ => Done (failed EINVAL) s
      end
  end.

Definition io_bind (i : nat) (fd : Z) (a : addr) (s : io) : kres io :=
  with_desc i fd s (fun d x =>
    match a with
    | APort 0 =>
        match io_ports s with
        | p :: ports => bind_to d x (APort p) (set_ports s ports)
        | [] => Done (failed EADDRINUSE) s
        end
    | _ => bind_to d x a s
    end).

Definition O_NONBLOCK_FLAG : Z := 2048.

Definition io_setfl (i : nat) (fd flags : Z) (s : io) : kres io :=
  with_desc i fd s (fun d x =>
    let nb := negb (Z.land flags O_NONBLOCK_FLAG =? 0) in
    match x with
    | DPipeR c _ seen => Done (ok 0) (put_desc s d (DPipeR c nb seen))
    | DStream rx tx _ w => Done (ok 0) (put_desc s d (DStream rx tx nb w))
    | DSocket _ b => Done (ok 0) (put_desc s d (DSocket nb b))
    | DListen a _ p => Done (ok 0) (put_desc s d (DListen a nb p))
    | _ => Done (ok 0) s
    end).

Definition nonblocking (x : desc) : bool :=
  match x with
  | DPipeR _ nb _ | DStream _ _ nb _ | DSocket nb _ | DListen _ nb _ => nb
  | _ => false
  end.

(** Closing a socket that is bound to a port frees the port. *)
Definition release_ports (s : io) : io :=
  set_names s (List.filter (fun e => match e with
                                     | (APort _, NSock d) | (AAbstract _, NSock d) => in_use s d
                                     | _ => true
                                     end) (io_names s)).

Definition io_close (i : nat) (fd : Z) (s : io) : kres io :=
  match fd_desc s i fd with
  | None => Done (failed EBADF) s
  | Some _ =>
      let s1 := set_fds s (<[i := <[Z.to_nat (fd - 3) := None]> (fd_table s i)]> (io_fds s)) in
      Done (ok 0) (release_ports (reap_descs s1))
  end.

(** The channel has been opened for writing once more. *)
Definition count_open (c : nat) (s : io) : io :=
  set_chans s (alter (fun ch => Chan (c_buf ch) (c_gen ch) (S (c_opens ch)) (c_rights ch)) c (io_chans s)).
Definition opens (c : nat) (s : io) : nat :=
  match io_chans s !! c with Some ch => c_opens ch | None => 0%nat end.

(** [open] of a FIFO for writing waits for a reader. *)
Definition open_fifo (i : nat) (path : bytes) (for_write nonblock : bool) (s : io) : kres io :=
  match find_name s (APath path) with
  | Some (NFifo c) =>
      if for_write then
        if has_reader s c then let '(fd, s1) := open_desc i (DPipeW c) (count_open c s) in Done (ok fd) s1 else Block
      else
        if nonblock || has_writer s c then
          let '(fd, s1) := open_desc i (DPipeR c nonblock (opens c s)) s in Done (ok fd) s1
        else Block
  | Some _ => Done (failed EINVAL) s
  | None => Done (failed ENOENT) s
  end.

Definition open_file (i : nat) (path : bytes) (creat trunc : bool) (s : io) : kres io :=
  match find_name s (APath path) with
  | Some (NFile n) =>
      let s1 := if trunc then set_inodes s (alter (fun o => Inode [] (i_seals o)) n (io_inodes s)) else s in
      let '(fd, s2) := open_desc i (DFile n 0) s1 in Done (ok fd) s2
  | Some _ => Done (failed EINVAL) s
  | None =>
      if creat then
        let n := length (io_inodes s) in
        let s1 := set_names (set_inodes s (io_inodes s ++ [Inode [] 0])) ((APath path, NFile n) :: io_names s) in
        let '(fd, s2) := open_desc i (DFile n 0) s1 in Done (ok fd) s2
      else Done (failed ENOENT) s
  end.

(** [splice] from a file into a pipe, or from a pipe to standard output. *)
Definition io_splice (i : nat) (fd_in fd_out n : Z) (s : io) : kres io :=
  match io_read i fd_in n s with
  | Done r s1 =>
      if rv r =? -1 then Done r s1
      else if fd_out =? 1 then
        Done (ok (rv r)) (IoState (io_names s1) (io_chans s1) (io_inodes s1) (io_descs s1) (io_fds s1)
                            (io_stdout s1 ++ rbytes r) (io_ports s1))
      else io_write i fd_out (rbytes r) s1
  | x => x
  end.

Definition io_exec (i : nat) (c : io_call) (s : io) : kres io :=
  match c with
  | Pipe =>
      let '(ch, s1) := new_chan s in
      let '(r, s2) := open_desc i (DPipeR ch false 0) s1 in
      let '(w, s3) := open_desc i (DPipeW ch) (count_open ch s2) in
      Done (ok_ints 0 [r; w]) s3
  | Close fd => io_close i fd s
  | Read fd n => io_read i fd n s
  | Write fd data => io_write i fd data s
  | Getfl fd => with_desc i fd s (fun _ x => Done (ok (if nonblocking x then 2 + O_NONBLOCK_FLAG else 2)) s)
  | Setfl fd flags => io_setfl i fd flags s
  | Rewind fd =>
      with_desc i fd s (fun d x =>
        match x with
        | DFile n _ => Done (ok 0) (put_desc s d (DFile n 0))
        | _ => Done (failed EINVAL) s
        end)
  | Open path creat trunc => open_file i path creat trunc s
  | OpenFifo path for_write nonblock => open_fifo i path for_write nonblock s
  | Mkfifo path =>
      match find_name s (APath path) with
      | Some _ => Done (failed EEXIST) s
      | None => let '(ch, s1) := new_chan s in
                Done (ok 0) (set_names s1 ((APath path, NFifo ch) :: io_names s1))
      end
  | Unlink path =>
      match find_name s (APath path) with
      | Some _ =>
          Done (ok 0) (set_names s (List.filter (fun e => negb (addr_eqb (APath path) e.1)) (io_names s)))
      | None => Done (failed ENOENT) s
      end
  | Socketpair =>
      let '(c1, s1) := new_chan s in
      let '(c2, s2) := new_chan s1 in
      let '(a, s3) := open_desc i (DStream c1 c2 false true) s2 in
      let '(b, s4) := open_desc i (DStream c2 c1 false true) s3 in
      Done (ok_ints 0 [a; b]) s4
  | Socket nonblock => let '(fd, s1) := open_desc i (DSocket nonblock None) s in Done (ok fd) s1
  | SocketDgram => let '(fd, s1) := open_desc i (DDgram None None []) s in Done (ok fd) s1
  | Bind fd a => io_bind i fd a s
  | Listen fd =>
      with_desc i fd s (fun d x =>
        match x with
        | DSocket nb (Some a) => Done (ok 0) (put_desc s d (DListen a nb []))
        | _ => Done (failed EINVAL) s
        end)
  | Connect fd a => io_connect i fd a s
  | Accept fd nonblock => io_accept i fd nonblock s
  | ShutdownWr fd =>
      with_desc i fd s (fun d x =>
        match x with
        | DStream rx tx nb _ => Done (ok 0) (put_desc s d (DStream rx tx nb false))
        | _ => Done (failed EINVAL) s
        end)
  | Getsockname fd =>
      with_desc i fd s (fun _ x =>
        match x with
        | DSocket _ (Some (APort p)) | DListen (APort p) _ _ | DDgram (Some (APort p)) _ _ =>
            Done (ok_ints 0 [p]) s
        | _ => Done (ok 0) s
        end)
  | Sendto fd to data =>
      with_desc i fd s (fun _ x =>
        match x, to with
        | DDgram bound _ _, Some a => deliver s bound a data
        | DDgram bound (Some a) _, None => deliver s bound a data
        | _, _ => Done (failed EINVAL) s
        end)
  | Recvfrom fd n =>
      with_desc i fd s (fun d x =>
        match x with
        | DDgram bound peer ((from, m) :: q) =>
            let b := take (Z.to_nat n) m in
            Done (Reply (blen b) EOK b match from with Some (APort p) => [p] | _ => [] end)
              (put_desc s d (DDgram bound peer q))
        | DDgram _ _ [] => Block
        | _ => Done (failed EINVAL) s
        end)
  | SendFd sock fd =>
      with_desc i sock s (fun _ x =>
        match x, fd_desc s i fd with
        | DStream _ tx _ true, Some d =>
            with_chan s tx (fun ch =>
              if has_reader s tx
              then Done (ok 1) (put_chan s tx (Chan (c_buf ch ++ B "F") (S (c_gen ch)) (c_opens ch) (c_rights ch ++ [d])))
              else Fault)
        | _, None => Done (failed EBADF) s
        | _, _ => Done (failed EINVAL) s
        end)
  | RecvFd sock =>
      with_desc i sock s (fun _ x =>
        match x with
        | DStream rx _ nb _ =>
            with_chan s rx (fun ch =>
              match c_buf ch, c_rights ch with
              | _ :: b, d :: l =>
                  let '(fd, s1) := new_fd i d (put_chan s rx (Chan b (c_gen ch) (c_opens ch) l)) in
                  Done (ok_ints 1 [fd]) s1
              | _ :: b, [] => Done (ok 1) (put_chan s rx (Chan b (c_gen ch) (c_opens ch) []))
              | [], _ => if has_writer s rx then Block else Done (ok 0) s
              end)
        | _ => Done (failed EINVAL) s
        end)
  | Eventfd v => let '(fd, s1) := open_desc i (DEvent v) s in Done (ok fd) s1
  | Poll fds =>
      let ready := fd_ready i s <$> fds in
      if existsb id ready
      then Done (ok_ints (Z.of_nat (length (List.filter id ready))) (Z.b2z <$> ready)) s
      else Block
  | EpollCreate => let '(fd, s1) := open_desc i (DEpoll []) s in Done (ok fd) s1
  | EpollAdd ep fd edge =>
      match fd_desc s i fd with
      | None => Done (failed EBADF) s
      | Some e =>
          with_desc i ep s (fun d x =>
            match x with
            | DEpoll ws =>
                let seen := match io_descs s !! e with
                            | Some y => if readable s y then 0%nat else generation s y
                            | None => 0%nat
                            end in
                Done (ok 0) (put_desc s d (DEpoll (ws ++ [Watch fd e edge seen])))
            | _ => Done (failed EINVAL) s
            end)
      end
  | EpollWait ep max => epoll_wait i ep max s
  | Splice fd_in fd_out n => io_splice i fd_in fd_out n s
  | Memfd =>
      let n := length (io_inodes s) in
      let '(fd, s1) := open_desc i (DFile n 0) (set_inodes s (io_inodes s ++ [Inode [] 0])) in
      Done (ok fd) s1
  | MmapAnon len => Done (ok 4096) s
  | AddSeals fd seals =>
      with_desc i fd s (fun _ x =>
        match x with
        | DFile n _ =>
            Done (ok 0) (set_inodes s (alter (fun o => Inode (i_data o) (Z.lor (i_seals o) seals)) n (io_inodes s)))
        | _ => Done (failed EINVAL) s
        end)
  | GetSeals fd =>
      with_desc i fd s (fun _ x =>
        match x with
        | DFile n _ => match io_inodes s !! n with Some o => Done (ok (i_seals o)) s | None => Fault end
        | _ => Done (failed EINVAL) s
        end)
  end.

(** Calls that can fail in any state; a poll whose timeout expires counts
    as one that fails. *)
Definition io_fails (c : io_call) (e : errno) : bool :=
  match c with
  | Pipe | Open _ _ _ | Socket _ | SocketDgram | Socketpair | Eventfd _ | EpollCreate | Memfd =>
      bool_decide (e = EMFILE)
  | MmapAnon _ => bool_decide (e = ENOMEM)
  | Read _ _ | Write _ _ | Accept _ _ | Recvfrom _ _ | OpenFifo _ _ _ => bool_decide (e = EINTR)
  | Poll _ | EpollWait _ _ => bool_decide (e = EINTR \/ e = ETIMEDOUT)
  | _ => false
  end.

#[export] Instance io_kernel : Kernel io_call io := {|
  kexec := io_exec;
  kfails := io_fails;
  kfork := fun i j s => set_fds s (io_fds s ++ [fd_table s i]);
  kexit := fun i s => release_ports (reap_descs (set_fds s (<[i := []]> (io_fds s))));
|}.

#[export, refine] Instance io_FdCalls : FdCalls io_call := {|
  c_close := Close; c_write := Write; c_getfl := Getfl; c_setfl := Setfl;
  as_write := fun c => match c with Write fd chunk => Some (fd, chunk) | _ => None end
|}.
Proof. done. Defined.

(** A machine on which nothing is open and the unused ports are [ports]. *)
Definition idle (ports : list Z) : io := IoState [] [] [] [] [[]] [] ports.

(** [buffer[n] = '\0'] into an array of [size] characters that a read has
    filled with [b]: outside the array it is undefined; what [%s] then prints
    is the text up to the first NUL. *)
Definition terminated {C} (size : Z) (r : reply) : prog C bytes :=
  if (0 <=? rv r) && (rv r <? size) then Ret (cstr (rbytes r)) else Undef.
