(* ===== verification/AltIo.v ===== *)
(** * AltIo: the programs of [AlternativeIO]

    Readiness by [select], [poll] and edge-triggered [epoll], and the event
    counter. *)

From S2P Require Import Prelude Fmt Posix Explore Common Io.

Definition STDOUT_FILENO : Z := 1.

(** [write_all(fd, text, strlen(text))], its result unused. *)
Definition write_text (fd : Z) (text : bytes) : prog io_call unit :=
  write_all fd text (blen text) ;;; Ret tt.

(** [pipe(pipefd)] and its error check. *)
Definition make_pipe : prog io_call (Z * Z) :=
  p <- sys Pipe ;;
  if rv p =? -1 then die_errno (rerr p) (B "pipe")
  else Ret (default 0 (rints p !! 0%nat), default 0 (rints p !! 1%nat)).

(** ** [AlternativeIO/select_timeout_pipe.c] *)

Module SelectTimeout.
Definition main : prog io_call Z :=
  p <- make_pipe ;;
  let '(rx, tx) := p in
  write_text tx (ln "ready via select") ;;;
  ready <- sys (Poll [rx]) ;;
  if rv ready =? -1 then die_errno (rerr ready) (B "select") else
  if rv ready =? 0 then die (B "select timed out") else
  n <- sys (Read rx 63) ;;
  buffer <- terminated 64 n ;;
  proc (Printf buffer) ;;;
  Ret 0.

(** [select_timeout_pipe.c]: the data written before the call makes
    the descriptor ready, so [select] returns at once and the line is echoed. *)
Theorem select_timeout_correct cf ports :
  total cf (boot main (idle ports)) (finished 0 (ln "ready via select")).
Proof. destruct cf as [[] p]; apply layers_boot; explore; ended. Qed.
End SelectTimeout.

(** ** [AlternativeIO/poll_many_pipes.c] *)

Module PollMany.
Definition PIPES : nat := 3.

(** The first loop: the read ends, in order. *)
Definition fill (i : Z) (rxs : list Z) : prog io_call (list Z) :=
  p <- make_pipe ;;
  let '(rx, tx) := p in
  n <- int_add i 1 ;;
  let '(msg, len) := snprintf 32 (B "pipe-" ++ fmt_d n ++ [LF]) in
  write_all tx msg len ;;;
  Ret (rxs ++ [rx]).

(** The second loop, over the descriptors and their [revents]. *)
Fixpoint drain (fds revents : list Z) : prog io_call unit :=
  match fds, revents with
  | fd :: fds', ev :: revents' =>
      (if ev =? 1 then
         n <- sys (Read fd 31) ;;
         buffer <- terminated 32 n ;;
         proc (Printf (B "poll saw " ++ buffer)) ;;; Ret tt
       else Ret tt) ;;;
      drain fds' revents'
  | _, _ => Ret tt
  end.

Definition main : prog io_call Z :=
  rxs <- for_acc PIPES 0 [] fill ;;
  ready <- sys (Poll rxs) ;;
  if rv ready <=? 0 then die (B "poll did not report readiness") else
  drain rxs (rints ready) ;;;
  Ret 0.

(** [poll_many_pipes.c]: [poll] reports all three pipes, and each of
    them is drained in order. *)
Theorem poll_many_correct cf ports :
  total cf (boot main (idle ports))
    (finished 0 (ln "poll saw pipe-1" ++ ln "poll saw pipe-2" ++ ln "poll saw pipe-3")).
Proof. destruct cf as [[] p]; apply layers_boot; explore; ended. Qed.
End PollMany.

(** ** [AlternativeIO/epoll_edge_triggered_pipe.c] *)

Module EpollEdge.
Definition main : prog io_call Z :=
  p <- make_pipe ;;
  let '(rx, tx) := p in
  r <- set_nonblock rx ;;
  if rv r =? -1 then die_errno (rerr r) (B "set_nonblock") else
  ep <- sys EpollCreate ;;
  if rv ep =? -1 then die_errno (rerr ep) (B "epoll_create1") else
  sys (EpollAdd (rv ep) rx true) ;;;
  write_text tx (ln "edge-triggered epoll") ;;;
  out <- sys (EpollWait (rv ep) 1) ;;
  if negb (rv out =? 1) then die (B "epoll_wait failed") else
  n <- sys (Read rx 63) ;;
  buffer <- terminated 64 n ;;
  proc (Printf buffer) ;;;
  Ret 0.

(** [epoll_edge_triggered_pipe.c]: the write after registration is the
    edge that [epoll_wait] reports, and the line is read and echoed. *)
Theorem epoll_edge_correct cf ports :
  total cf (boot main (idle ports)) (finished 0 (ln "edge-triggered epoll")).
Proof. destruct cf as [[] p]; apply layers_boot; explore; ended. Qed.
End EpollEdge.

(** ** [AlternativeIO/eventfd_counter.c] *)

Module EventfdCounter.
Definition main : prog io_call Z :=
  fd <- sys (Eventfd 0) ;;
  if rv fd =? -1 then die_errno (rerr fd) (B "eventfd") else
  child <- proc Fork ;;
  if rv child =? 0 then
    write_all (rv fd) (le_bytes 8 5) 8 ;;;
    Exit_ 0
  else
  n <- sys (Read (rv fd) 8) ;;
  if negb (rv n =? 8) then die_errno (rerr n) (B "read eventfd") else
  proc (Printf (B "eventfd counter=" ++ fmt_u (le_value (rbytes n)) ++ [LF])) ;;;
  wait_for_pid (rv child) ;;;
  Ret 0.

(** [eventfd_counter.c] under every schedule: the parent's read waits
    for the child's write and returns the value written. *)
Theorem eventfd_correct cf ports :
  total cf (boot main (idle ports)) (finished 0 (ln "eventfd counter=5")).
Proof. destruct cf as [[] p]; apply layers_boot; explore; ended. Qed.
End EventfdCounter.
