(* ===== verification/Pipes.v ===== *)
(** * Pipes: programs over pipes, FIFOs and file descriptors

    [Pipes/fifo_select_chat.c], [Pipes/splice_zero_copy_pipe.c],
    [Pipes/full_duplex_pipe_poll.c], [SharedMemory/memfd_sealed_config.c] and
    [SharedMemory/mmap_copy_on_write.c]. *)

From S2P Require Import Prelude Fmt Posix Explore Common Io AltIo.

(** ** [Pipes/splice_zero_copy_pipe.c] *)

Module SpliceZeroCopy.
Definition FILE_PATH : bytes := B "/tmp/ipc_splice_source.txt".
Definition data : bytes := ln "zero-copy splice moves bytes through a pipe buffer".

Definition main : prog io_call Z :=
  source <- sys (Open FILE_PATH true true) ;;
  if rv source =? -1 then die_errno (rerr source) (B "open source") else
  write_text (rv source) data ;;;
  sys (Rewind (rv source)) ;;;
  p <- make_pipe ;;
  let '(rx, tx) := p in
  moved <- sys (Splice (rv source) tx 4096) ;;
  if rv moved =? -1 then die_errno (rerr moved) (B "splice file to pipe") else
  r <- sys (Splice rx STDOUT_FILENO (rv moved)) ;;
  if rv r =? -1 then die_errno (rerr r) (B "splice pipe to stdout") else
  xclose rx ;;;
  xclose tx ;;;
  xclose (rv source) ;;;
  sys (Unlink FILE_PATH) ;;;
  Ret 0.

(** A file system that may hold an old version of one file. *)
Definition disk (old : option bytes) (ports : list Z) : io :=
  match old with
  | Some b => IoState [(APath FILE_PATH, NFile 0)] [] [Inode b 0] [] [[]] [] ports
  | None => idle ports
  end.

(** [splice_zero_copy_pipe.c]: what was written to the file comes out
    on standard output through the pipe, unchanged; every descriptor is
    closed and the file is removed. *)
Theorem splice_correct cf old ports :
  total cf (boot main (disk old ports)) (fun w =>
    finished 0 [] w /\ io_stdout (kern w) = data /\ io_names (kern w) = [] /\
    Forall (fun d => d = DFree) (io_descs (kern w))).
Proof.
  destruct cf as [[] p], old as [b|]; apply layers_boot; explore;
    (split; [ended|]; split; [reflexivity|]; split; [reflexivity|by repeat constructor]).
Qed.
End SpliceZeroCopy.

(** ** [SharedMemory/memfd_sealed_config.c] *)

Module MemfdSealed.
Definition config : bytes := ln "workers=4" ++ ln "mode=readonly-after-seal".
Definition seals : Z := Z.lor F_SEAL_WRITE (Z.lor F_SEAL_GROW F_SEAL_SHRINK).

Definition create_memfd : prog io_call Z :=
  fd <- sys Memfd ;;
  if rv fd =? -1 then die_errno (rerr fd) (B "memfd_create") else Ret (rv fd).

Definition main : prog io_call Z :=
  fd <- create_memfd ;;
  write_text fd config ;;;
  r <- sys (AddSeals fd seals) ;;
  if rv r =? -1 then die_errno (rerr r) (B "F_ADD_SEALS") else
  child <- proc Fork ;;
  if rv child =? 0 then
    sys (Rewind fd) ;;;
    n <- sys (Read fd 127) ;;
    buffer <- terminated 128 n ;;
    proc (Printf (ln "child mapped sealed config:" ++ buffer)) ;;;
    proc Fflush ;;;
    Exit_ 0
  else
  wait_for_pid (rv child) ;;;
  s <- sys (GetSeals fd) ;;
  proc (Printf (B "seals=0x" ++ fmt_x (rv s) ++ [LF])) ;;;
  Ret 0.

(** [memfd_sealed_config.c] under every schedule: the child reads back
    the whole configuration, the parent reports the three seals as [0xe], and
    the sealed file still holds what was written before sealing. *)
Theorem memfd_sealed_correct cf ports :
  total cf (boot main (idle ports)) (fun w =>
    finished 0 (ln "child mapped sealed config:" ++ config ++ ln "seals=0xe") w /\
    io_inodes (kern w) = [Inode config seals]).
Proof. destruct cf as [[] p]; apply layers_boot; explore; (split; [ended|done]). Qed.

(** A sealed file refuses every write, whatever the descriptor's owner. *)
Lemma sealed_write_refused i fd data s d n off o :
  fd_desc s i fd = Some d -> io_descs s !! d = Some (DFile n off) ->
  io_inodes s !! n = Some o -> Z.land (i_seals o) F_SEAL_WRITE <> 0 ->
  io_exec i (Write fd data) s = Done (failed EPERM) s.
Proof.
  intros Hf Hd Hn Hs. cbn. unfold io_write, with_desc. rewrite Hf, Hd, Hn.
  by destruct (Z.eqb_spec (Z.land (i_seals o) F_SEAL_WRITE) 0).
Qed.
End MemfdSealed.

(** ** [SharedMemory/mmap_copy_on_write.c] *)

Module CopyOnWrite.
(** A private mapping is memory of the process: [fork] copies it, so it is
    a variable of the program, here the contents of [page]. *)
Definition strcpy (text page : bytes) : bytes := text ++ NUL :: drop (S (length text)) page.

Definition main : prog io_call Z :=
  m <- sys (MmapAnon 4096) ;;
  if rv m =? -1 then die_errno (rerr m) (B "mmap") else
  let page := strcpy (B "parent-before-fork") (replicate 4096 NUL) in
  child <- proc Fork ;;
  if rv child =? 0 then
    let page := strcpy (B "child-private-copy") page in
    proc (Printf (B "child sees: " ++ cstr page ++ [LF])) ;;;
    proc Fflush ;;;
    Exit_ 0
  else
  wait_for_pid (rv child) ;;;
  proc (Printf (B "parent still sees: " ++ cstr page ++ [LF])) ;;;
  Ret 0.

(** [mmap_copy_on_write.c] under every schedule: the child sees its
    own text, the parent afterwards still the one written before [fork]. *)
Theorem copy_on_write_correct cf ports :
  total cf (boot main (idle ports))
    (finished 0 (ln "child sees: child-private-copy" ++
                 ln "parent still sees: parent-before-fork")).
Proof. destruct cf as [[] p]; apply layers_boot; explore; ended. Qed.
End CopyOnWrite.

(** ** [Pipes/fifo_select_chat.c] *)

Module FifoChat.
Definition FIFO_A : bytes := B "/tmp/ipc_fifo_a.fifo".
Definition FIFO_B : bytes := B "/tmp/ipc_fifo_b.fifo".

Definition mkfifo_clean (path : bytes) : prog io_call unit :=
  sys (Unlink path) ;;;
  r <- sys (Mkfifo path) ;;
  if rv r =? -1 then die_errno (rerr r) (B "mkfifo") else Ret tt.

(** One round of [peer]'s loop. *)
Definition chat (name : bytes) (rx tx i : Z) : prog io_call unit :=
  n <- int_add i 1 ;;
  let '(out, len) := snprintf 96 (name ++ B " message " ++ fmt_d n ++ [LF]) in
  write_all tx out len ;;;
  r <- sys (Poll [rx]) ;;
  if rv r =? -1 then die_errno (rerr r) (B "select") else
  n <- sys (Read rx 95) ;;
  if rv n >? 0 then proc (Printf (name ++ B " received: " ++ cstr (rbytes n))) ;;; Ret tt
  else Ret tt.

Definition peer (name rx_path tx_path : bytes) : prog io_call unit :=
  rx <- sys (OpenFifo rx_path false true) ;;
  tx <- sys (OpenFifo tx_path true false) ;;
  if (rv rx =? -1) || (rv tx =? -1)
  then die_errno (if rv tx =? -1 then rerr tx else rerr rx) (B "open fifo") else
  for_ 3 0 (chat name (rv rx) (rv tx)).

Definition main : prog io_call Z :=
  mkfifo_clean FIFO_A ;;;
  mkfifo_clean FIFO_B ;;;
  child <- proc Fork ;;
  if rv child =? -1 then die_errno (rerr child) (B "fork") else
  if rv child =? 0 then
    peer (B "peer-B") FIFO_A FIFO_B ;;;
    proc Fflush ;;;
    Exit_ 0
  else
  peer (B "peer-A") FIFO_B FIFO_A ;;;
  wait_for_pid (rv child) ;;;
  sys (Unlink FIFO_A) ;;;
  sys (Unlink FIFO_B) ;;;
  Ret 0.

(** Which process moves: it runs as long as it can, then the other. *)
Fixpoint alternate (cf : config) (fuel : nat) (i : nat) (w : world io_call io) : world io_call io :=
  match fuel with
  | O => w
  | S n => match run_step cf i w with
           | Some w' => alternate cf n i w'
           | None => match run_step cf (1 - i) w with
                     | Some w' => alternate cf n (1 - i) w'
                     | None => w
                     end
           end
  end.

Lemma alternate_reach cf fuel i w : rtc (step cf) w (alternate cf fuel i w).
Proof.
  revert i w. induction fuel as [|n IH]; intros i w; cbn [alternate]; [apply rtc_refl|].
  destruct (run_step cf i w) as [w1|] eqn:E1; [eapply rtc_l; [by exists i|apply IH]|].
  destruct (run_step cf (1 - i) w) as [w1|] eqn:E2; [eapply rtc_l; [by eexists|apply IH]|].
  apply rtc_refl.
Qed.

(** Where the two peers are stuck: peer-A in [waitpid], peer-B in
    [select]. *)
Definition stuck (w : world io_call io) : Prop :=
  exists k k' b b', procs w = [Process (Live (Proc (Waitpid 101 false) k)) None b;
                               Process (Live (Sys (Poll [3]) k')) (Some 0%nat) b'].

Definition final (tt : bool) (ports : list Z) : world io_call io :=
  alternate (Config tt 100) 200 0 (boot main (idle ports)).

Lemma final_reach tt ports : rtc (step (Config tt 100)) (boot main (idle ports)) (final tt ports).
Proof. unfold final. apply alternate_reach. Qed.

Lemma final_stuck tt ports : stuck (final tt ports).
Proof. destruct tt; vm_compute; eexists _, _, _, _; reflexivity. Qed.

(** The two calls it is stuck in do not return. *)
Definition blocked (cf : config) (w : world io_call io) (i : nat) : bool :=
  match run_step cf i w with None => true | Some _ => false end.

Lemma final_blocked tt ports :
  blocked (Config tt 100) (final tt ports) 0 && blocked (Config tt 100) (final tt ports) 1 = true.
Proof. destruct tt; vm_compute; reflexivity. Qed.

Lemma stuck_deadlock cf w :
  stuck w -> blocked cf w 0 && blocked cf w 1 = true -> deadlock cf w.
Proof.
  unfold blocked. intros (k & k' & b & b' & E) Hb. apply andb_true_iff in Hb as [H0 H1]. split.
  - unfold halted. rewrite E. intros H. by inversion H.
  - intros [w' [i Hi]]. destruct i as [|[|i]].
    + by rewrite Hi in H0.
    + by rewrite Hi in H1.
    + unfold run_step in Hi. by rewrite E in Hi.
Qed.

(** C23. [fifo_select_chat.c] can deadlock.  A peer that reads two messages
    at once has one read too many left: when peer-A has read its third
    message it waits for peer-B to exit, without closing its end of the FIFO,
    while peer-B waits in [select] for a message that will not come. *)
Theorem fifo_chat_deadlock tt ports :
  exists w, rtc (step (Config tt 100)) (boot main (idle ports)) w /\
    deadlock (Config tt 100) w /\ stuck w.
Proof.
  exists (final tt ports). split; [apply final_reach|].
  split; [apply stuck_deadlock; [apply final_stuck|apply final_blocked]|apply final_stuck].
Qed.
End FifoChat.

(** ** [Pipes/full_duplex_pipe_poll.c] *)

Module FullDuplex.
(** What the child answers to a request of [buffer]. *)
Definition reply_text (pid : Z) (buffer : bytes) : bytes :=
  B "child pid=" ++ fmt_id pid ++ B " processed: " ++ buffer.

Definition sizeof_request : Z := 128.
Definition sizeof_reply : Z := 160.

Definition child_body (rx tx : Z) : unit -> prog io_call (unit + unit) :=
  fun _ =>
    n <- sys (Read rx (sizeof_request - 1)) ;;
    if rv n <=? 0 then Ret (inr tt) else
    pid <- proc Getpid ;;
    let '(reply, len) := snprintf sizeof_reply (reply_text (rv pid) (cstr (rbytes n))) in
    write_all tx reply len ;;;
    Ret (inl tt).

Definition child_loop (rx tx : Z) : prog io_call unit := loop (child_body rx tx) tt.

Definition ask (rx tx : Z) (request : bytes) : prog io_call unit :=
  write_text tx request ;;;
  r <- sys (Poll [rx]) ;;
  if rv r <=? 0 then die (B "poll timed out waiting for child") else
  n <- sys (Read rx (sizeof_reply - 1)) ;;
  if rv n <=? 0 then die_errno (rerr n) (B "read reply") else
  buffer <- terminated sizeof_reply n ;;
  proc (Printf buffer) ;;;
  Ret tt.

Definition requests : list bytes := [ln "read inode"; ln "flush page cache"; ln "sync journal"].

Definition main : prog io_call Z :=
  down <- sys Pipe ;;
  if rv down =? -1 then die_errno (rerr down) (B "pipe") else
  up <- sys Pipe ;;
  if rv up =? -1 then die_errno (rerr up) (B "pipe") else
  let fd (r : reply) n := default 0 (rints r !! n) in
  child <- proc Fork ;;
  if rv child =? -1 then die_errno (rerr child) (B "fork") else
  if rv child =? 0 then
    xclose (fd down 1%nat) ;;;
    xclose (fd up 0%nat) ;;;
    child_loop (fd down 0%nat) (fd up 1%nat) ;;;
    Exit_ 0
  else
  xclose (fd down 0%nat) ;;;
  xclose (fd up 1%nat) ;;;
  fold_right (fun q k => ask (fd up 0%nat) (fd down 1%nat) q ;;; k) (Ret tt) requests ;;;
  xclose (fd down 1%nat) ;;;
  xclose (fd up 0%nat) ;;;
  wait_for_pid (rv child) ;;;
  Ret 0.

(** The child's reply always fits its buffer: for every process id an
    [int] can hold and every request it can have read, the text [snprintf]
    formats has at most 159 characters, so [write_all] sends exactly the
    buffer's contents, none of it cut off and nothing beyond it. *)
Theorem reply_fits pid buffer :
  0 < pid <= INT_MAX -> blen buffer <= sizeof_request - 1 ->
  let '(reply, len) := snprintf sizeof_reply (reply_text pid buffer) in
  len < sizeof_reply /\ slice reply 0 len = Some (reply_text pid buffer).
Proof.
  intros Hp Hb.
  assert (Hd : (length (fmt_id pid) <= 10)%nat).
  { unfold fmt_id, fmt_d. destruct (Z.ltb_spec pid 0); [lia|]. apply fmt_u_length; [|lia].
    unfold INT_MAX in Hp. split; [lia|]. change (10 ^ Z.of_nat 10) with 10000000000. lia. }
  assert (Hl : blen (reply_text pid buffer) <= 159).
  { unfold reply_text, blen, sizeof_request in *. rewrite !length_app.
    change (length (B "child pid=")) with 10%nat. change (length (B " processed: ")) with 12%nat. lia. }
  unfold snprintf, sizeof_reply. split; [lia|]. unfold slice, blen in *.
  rewrite (take_ge (reply_text pid buffer)) by lia. rewrite length_app.
  destruct (Z.leb_spec (0 + Z.of_nat (length (reply_text pid buffer)))
              (Z.of_nat (length (reply_text pid buffer) + length [NUL]))); [|cbn in *; lia].
  cbn -[reply_text]. f_equal. rewrite Nat2Z.id. apply take_app_length.
Qed.

Lemma reply_fits_witness :
  let '(reply, len) := snprintf sizeof_reply (reply_text INT_MAX (replicate 127 "x"%char)) in
  len < sizeof_reply /\ slice reply 0 len = Some (reply_text INT_MAX (replicate 127 "x"%char)).
Proof. apply (reply_fits INT_MAX (replicate 127 "x"%char)); vm_compute; repeat split; discriminate. Defined.
End FullDuplex.
