(* ===== verification/Sockets.v ===== *)
(** * Sockets: the socket programs that serve themselves

    [Sockets/abstract_namespace_ping.c], [Sockets/socketpair_fd_passing.c],
    [Sockets/unix_dgram_logger.c], [InternetSockets/tcp_shutdown_halfclose.c],
    [InternetSockets/udp_connected_echo.c],
    [InternetSockets/reuseaddr_rebind_demo.c] and [Sockets/epoll_unix_echo.c]. *)

From S2P Require Import Prelude Fmt Posix Explore Common Io AltIo.

(** [struct sockaddr_un]: [sun_path] has 108 characters. *)
Definition sizeof_sun_path : Z := 108.

(** The name [snprintf(addr.sun_path, sizeof(addr.sun_path), "%s", path)]
    leaves in the address. *)
Definition sun_path (path : bytes) : bytes := cstr (snprintf sizeof_sun_path path).1.

(** ** [Sockets/abstract_namespace_ping.c] *)

Module AbstractPing.
Definition offsetof_sun_path : Z := 2.
Definition sizeof_sockaddr_un : Z := 110.

(** [abstract_addr]: the bytes of [sun_path] after its leading NUL, and the
    length passed to [bind] and [connect]. *)
Definition abstract_addr (name : bytes) : bytes * Z :=
  ((snprintf (sizeof_sun_path - 1) name).1, offsetof_sun_path + 1 + blen name).

(** The kernel takes the name from the first [len] bytes of the address;
    reading past the structure is undefined. *)
Definition kernel_name (a : bytes * Z) : option bytes :=
  let '(path, len) := a in
  if len <=? sizeof_sockaddr_un
  then Some (take (Z.to_nat (len - offsetof_sun_path - 1))
               (path ++ replicate (Z.to_nat (sizeof_sun_path - 1 - blen path)) NUL))
  else None.

Definition NAME : bytes := B "ipc.abstract.ping".

Definition main : prog io_call Z :=
  server <- sys (Socket false) ;;
  if rv server =? -1 then die_errno (rerr server) (B "socket") else
  match kernel_name (abstract_addr NAME) with
  | None => Undef
  | Some name =>
      r <- sys (Bind (rv server) (AAbstract name)) ;;
      if rv r =? -1 then die_errno (rerr r) (B "bind/listen") else
      r <- sys (Listen (rv server)) ;;
      if rv r =? -1 then die_errno (rerr r) (B "bind/listen") else
      child <- proc Fork ;;
      if rv child =? -1 then die_errno (rerr child) (B "fork") else
      if rv child =? 0 then
        client <- sys (Socket false) ;;
        r <- sys (Connect (rv client) (AAbstract name)) ;;
        if rv r =? -1 then die_errno (rerr r) (B "connect") else
        write_text (rv client) (ln "ping abstract namespace") ;;;
        Exit_ 0
      else
      accepted <- sys (Accept (rv server) false) ;;
      n <- sys (Read (rv accepted) 63) ;;
      buffer <- terminated 64 n ;;
      proc (Printf (B "server received: " ++ buffer)) ;;;
      wait_for_pid (rv child) ;;;
      Ret 0
  end.

(** The address [abstract_addr] builds names exactly the given name as
    long as the name has at most 106 characters. *)
Theorem abstract_addr_exact name :
  blen name <= 106 -> kernel_name (abstract_addr name) = Some name.
Proof.
  intros Hn. unfold kernel_name, abstract_addr, snprintf, sizeof_sun_path, offsetof_sun_path,
    sizeof_sockaddr_un, blen in *. cbn [fst].
  destruct (Z.leb_spec (2 + 1 + Z.of_nat (length name)) 110); [|lia].
  rewrite (take_ge name) by lia. f_equal. rewrite <- app_assoc.
  replace (Z.to_nat (2 + 1 + Z.of_nat (length name) - 2 - 1)) with (length name) by lia.
  apply take_app_length.
Qed.

Lemma abstract_addr_exact_witness : kernel_name (abstract_addr NAME) = Some NAME.
Proof. apply (abstract_addr_exact NAME). vm_compute. discriminate. Defined.

(** [abstract_namespace_ping.c] under every schedule: the connection
    is accepted, the whole line reaches the server, both processes end. *)
Theorem abstract_ping_correct cf ports :
  total cf (boot main (idle ports)) (finished 0 (ln "server received: ping abstract namespace")).
Proof. destruct cf as [[] p]; apply layers_boot; explore; ended. Qed.
End AbstractPing.

(** ** [Sockets/socketpair_fd_passing.c] *)

Module FdPassing.
Definition TEMP_FILE : bytes := B "/tmp/ipc_fd_passing.txt".

Definition send_fd (sock fd : Z) : prog io_call unit :=
  r <- sys (SendFd sock fd) ;;
  if rv r =? -1 then die_errno (rerr r) (B "sendmsg") else Ret tt.

(** Without a control message there is no [CMSG_DATA] to read. *)
Definition recv_fd (sock : Z) : prog io_call Z :=
  r <- sys (RecvFd sock) ;;
  if rv r =? -1 then die_errno (rerr r) (B "recvmsg") else
  match rints r with fd :: _ => Ret fd | [] => Undef end.

Definition main : prog io_call Z :=
  sv <- sys Socketpair ;;
  if rv sv =? -1 then die_errno (rerr sv) (B "socketpair") else
  let sv0 := default 0 (rints sv !! 0%nat) in
  let sv1 := default 0 (rints sv !! 1%nat) in
  fd <- sys (Open TEMP_FILE true true) ;;
  if rv fd =? -1 then die_errno (rerr fd) (B "open") else
  write_text (rv fd) (ln "descriptor passed over unix socket") ;;;
  sys (Rewind (rv fd)) ;;;
  child <- proc Fork ;;
  if rv child =? -1 then die_errno (rerr child) (B "fork") else
  if rv child =? 0 then
    xclose sv0 ;;;
    received <- recv_fd sv1 ;;
    n <- sys (Read received 127) ;;
    buf <- terminated 128 n ;;
    proc (Printf (B "child read from received fd: " ++ buf)) ;;;
    proc Fflush ;;;
    Exit_ 0
  else
  xclose sv1 ;;;
  send_fd sv0 (rv fd) ;;;
  wait_for_pid (rv child) ;;;
  xclose (rv fd) ;;;
  xclose sv0 ;;;
  sys (Unlink TEMP_FILE) ;;;
  Ret 0.

(** The descriptor number of the file, in the parent and, inherited, in the
    child: the first two are those of the socket pair. *)
Definition FILE_FD : Z := 5.

(** When the child is about to read, it reads from a descriptor other than
    the one it inherited, and that descriptor refers to the description the
    parent holds and has sent. *)
Definition reads_the_passed_one (w : world io_call io) : bool :=
  match p_stat <$> procs w !! 1%nat with
  | Some (Live (Sys (Read fd _) _)) =>
      negb (fd =? FILE_FD) &&
      match fd_desc (kern w) 1 fd, fd_desc (kern w) 0 FILE_FD with
      | Some d, Some d' => (d =? d')%nat
      | _, _ => false
      end
  | _ => true
  end.

(** When the parent is about to return, it has closed all it had opened. *)
Definition closed_before_return (w : world io_call io) : bool :=
  match p_stat <$> procs w !! 0%nat with
  | Some (Live (Ret _)) => forallb (fun o => bool_decide (o = None)) (fd_table (kern w) 0)
  | _ => true
  end.

(** C39. [socketpair_fd_passing.c] under every schedule: the program ends, the
    child has printed the whole line and the file is removed; whenever the
    child reads, it is from a descriptor of its own that refers to the very
    description that the parent sent; and when the parent returns it has
    closed every descriptor it had opened. *)
Theorem fd_passing_correct cf ports :
  total cf (boot main (idle ports)) (fun w =>
    finished 0 (ln "child read from received fd: descriptor passed over unix socket") w /\
    io_names (kern w) = []) /\
  always cf (fun w => reads_the_passed_one w = true /\ closed_before_return w = true) (boot main (idle ports)).
Proof.
  split; destruct cf as [[] p].
  1,2: apply layers_boot; explore; (split; [ended|reflexivity]).
  all: apply safe_boot; explore_safe ltac:(split; reflexivity).
Qed.

(** The child does get to read: otherwise nothing would be said of it. *)
Example passed_fd_read :
  let w := default (boot main (idle [])) (execs (Config true 10) (Run <$> replicate 9 0%nat ++ replicate 2 1%nat) (boot main (idle []))) in
  match p_stat <$> procs w !! 1%nat with Some (Live (Sys (Read fd _) _)) => fd =? 3 | _ => false end = true.
Proof. vm_compute. reflexivity. Qed.
End FdPassing.

(** ** [Sockets/unix_dgram_logger.c] *)

Module DgramLogger.
Definition SERVER_PATH : bytes := B "/tmp/ipc_dgram_logger.sock".
Definition CLIENT_PATH : bytes := B "/tmp/ipc_dgram_client.sock".

Definition bind_unix (fd : Z) (path : bytes) : prog io_call unit :=
  sys (Unlink path) ;;;
  r <- sys (Bind fd (APath (sun_path path))) ;;
  if rv r =? -1 then die_errno (rerr r) (B "bind") else Ret tt.

Definition log_one (server i : Z) : prog io_call unit :=
  n <- sys (Recvfrom server 127) ;;
  buffer <- terminated 128 n ;;
  proc (Printf (B "logger received: " ++ buffer)) ;;; Ret tt.

Definition send_one (client i : Z) : prog io_call unit :=
  n <- int_add i 1 ;;
  let '(line, len) := snprintf 64 (B "event=" ++ fmt_d n ++ ln " source=client") in
  match slice line 0 len with
  | Some data => sys (Sendto client (Some (APath (sun_path SERVER_PATH))) data) ;;; Ret tt
  | None => Undef
  end.

Definition main : prog io_call Z :=
  server <- sys SocketDgram ;;
  client <- sys SocketDgram ;;
  if (rv server =? -1) || (rv client =? -1)
  then die_errno (if rv client =? -1 then rerr client else rerr server) (B "socket") else
  bind_unix (rv server) SERVER_PATH ;;;
  bind_unix (rv client) CLIENT_PATH ;;;
  child <- proc Fork ;;
  if rv child =? -1 then die_errno (rerr child) (B "fork") else
  if rv child =? 0 then
    for_ 3 0 (log_one (rv server)) ;;;
    proc Fflush ;;;
    Exit_ 0
  else
  for_ 3 0 (send_one (rv client)) ;;;
  wait_for_pid (rv child) ;;;
  sys (Unlink SERVER_PATH) ;;;
  sys (Unlink CLIENT_PATH) ;;;
  Ret 0.

Definition logged (n : Z) : bytes :=
  B "logger received: event=" ++ fmt_d n ++ ln " source=client".

(** [unix_dgram_logger.c] under every schedule: the three datagrams
    arrive whole, in order and without loss, and both socket names are
    removed. *)
Theorem dgram_logger_correct cf ports :
  total cf (boot main (idle ports)) (fun w =>
    finished 0 (logged 1 ++ logged 2 ++ logged 3) w /\ io_names (kern w) = []).
Proof. destruct cf as [[] p]; apply layers_boot; explore; (split; [ended|reflexivity]). Qed.
End DgramLogger.

(** ** [InternetSockets/tcp_shutdown_halfclose.c] *)

Module HalfClose.
(** [bind] to port 0 of the loopback address, [listen], [getsockname]. *)
Definition listen_on_any (server : Z) : prog io_call Z :=
  r <- sys (Bind server (APort 0)) ;;
  if rv r =? -1 then die_errno (rerr r) (B "bind/listen") else
  r <- sys (Listen server) ;;
  if rv r =? -1 then die_errno (rerr r) (B "bind/listen") else
  a <- sys (Getsockname server) ;;
  Ret (default 0 (rints a !! 0%nat)).

(** [while (read(accepted, buffer, sizeof(buffer)) > 0) {}] *)
Definition drain_body (fd : Z) : unit -> prog io_call (unit + unit) :=
  fun _ =>
    n <- sys (Read fd 64) ;;
    if rv n >? 0 then Ret (inl tt) else Ret (inr tt).

Definition main : prog io_call Z :=
  server <- sys (Socket false) ;;
  if rv server =? -1 then die_errno (rerr server) (B "socket") else
  port <- listen_on_any (rv server) ;;
  child <- proc Fork ;;
  if rv child =? 0 then
    client <- sys (Socket false) ;;
    sys (Connect (rv client) (APort port)) ;;;
    write_text (rv client) (B "request body") ;;;
    sys (ShutdownWr (rv client)) ;;;
    n <- sys (Read (rv client) 63) ;;
    response <- terminated 64 n ;;
    proc (Printf (B "client read after half-close: " ++ response ++ [LF])) ;;;
    proc Fflush ;;;
    Exit_ 0
  else
  accepted <- sys (Accept (rv server) false) ;;
  loop (drain_body (rv accepted)) tt ;;;
  write_text (rv accepted) (B "response after EOF") ;;;
  wait_for_pid (rv child) ;;;
  Ret 0.

(** [tcp_shutdown_halfclose.c] under every schedule: the half-close is
    the end of file that ends the server's loop, the other direction stays
    open, and the client prints the response sent after it. *)
Theorem halfclose_correct cf port ports :
  total cf (boot main (idle (port :: ports)))
    (finished 0 (ln "client read after half-close: response after EOF")).
Proof. destruct cf as [[] p]; apply layers_boot; explore; ended. Qed.
End HalfClose.

(** ** [InternetSockets/udp_connected_echo.c] *)

Module UdpEcho.
Definition main : prog io_call Z :=
  server <- sys SocketDgram ;;
  client <- sys SocketDgram ;;
  if (rv server =? -1) || (rv client =? -1)
  then die_errno (if rv client =? -1 then rerr client else rerr server) (B "socket") else
  r <- sys (Bind (rv server) (APort 0)) ;;
  if rv r =? -1 then die_errno (rerr r) (B "bind server") else
  a <- sys (Getsockname (rv server)) ;;
  r <- sys (Connect (rv client) (APort (default 0 (rints a !! 0%nat)))) ;;
  if rv r =? -1 then die_errno (rerr r) (B "connect udp") else
  write_text (rv client) (B "udp payload") ;;;
  m <- sys (Recvfrom (rv server) 64) ;;
  match rints m with
  | [] => Undef
  | from :: _ =>
      sys (Sendto (rv server) (Some (APort from)) (rbytes m)) ;;;
      n <- sys (Read (rv client) 63) ;;
      buffer <- terminated 64 n ;;
      proc (Printf (B "connected udp echo: " ++ buffer ++ [LF])) ;;;
      Ret 0
  end.

(** [udp_connected_echo.c]: the datagram goes to the bound port and
    comes back to the port the client got when it connected, whatever two
    ports the system assigns. *)
Theorem udp_echo_correct cf p q ports :
  p <> q -> total cf (boot main (idle (p :: q :: ports)))
    (finished 0 (ln "connected udp echo: udp payload")).
Proof.
  intros Hne. assert (H : sym_eqb p q = false) by (by apply Z.eqb_neq).
  assert (H' : sym_eqb q p = false) by (apply Z.eqb_neq; congruence). clear Hne.
  destruct cf as [[] pid]; apply layers_boot;
    explore_with ltac:(repeat (run_eval; first [rewrite H|rewrite H']); run_eval); ended.
Qed.

Lemma udp_echo_correct_witness :
  total (Config true 100) (boot main (idle [40000; 40001]))
    (finished 0 (ln "connected udp echo: udp payload")).
Proof. apply (udp_echo_correct (Config true 100) 40000 40001 []). discriminate. Defined.
End UdpEcho.

(** ** [InternetSockets/reuseaddr_rebind_demo.c] *)

Module Rebind.
(** [bind_once(port, &actual)]: the descriptor and the port it got. *)
Definition bind_once (port : Z) : prog io_call (Z * Z) :=
  fd <- sys (Socket false) ;;
  if rv fd =? -1 then die_errno (rerr fd) (B "socket") else
  r <- sys (Bind (rv fd) (APort port)) ;;
  if rv r =? -1 then die_errno (rerr r) (B "bind") else
  a <- sys (Getsockname (rv fd)) ;;
  Ret (rv fd, default 0 (rints a !! 0%nat)).

Definition main : prog io_call Z :=
  first <- bind_once 0 ;;
  xclose first.1 ;;;
  second <- bind_once first.2 ;;
  proc (Println (B "SO_REUSEADDR allowed rebind on loopback port " ++ fmt_id second.2)) ;;;
  xclose second.1 ;;;
  Ret 0.

(** [reuseaddr_rebind_demo.c]: closing the first socket frees its
    port, and the second socket gets the same one. *)
Theorem rebind_correct cf port ports :
  0 < port -> total cf (boot main (idle (port :: ports))) (fun w =>
    finished 0 (B "SO_REUSEADDR allowed rebind on loopback port " ++ fmt_id port ++ [LF]) w /\
    io_names (kern w) = []).
Proof.
  intros Hp. destruct port as [|port|port]; [lia| |lia]. clear Hp.
  destruct cf as [[] pid]; apply layers_boot; explore; (split; [ended|reflexivity]).
Qed.

Lemma rebind_correct_witness :
  total (Config false 7) (boot main (idle [50123])) (fun w =>
    finished 0 (ln "SO_REUSEADDR allowed rebind on loopback port 50123") w /\
    io_names (kern w) = []).
Proof. apply (rebind_correct (Config false 7) 50123 []). reflexivity. Defined.
End Rebind.

(** ** [Sockets/epoll_unix_echo.c] *)

Module EpollEcho.
Definition SOCKET_PATH : bytes := B "/tmp/ipc_epoll_echo.sock".

Definition client (i : Z) : prog io_call unit :=
  fd <- sys (Socket false) ;;
  sys (Connect (rv fd) (APath (sun_path SOCKET_PATH))) ;;;
  n <- int_add i 1 ;;
  let '(msg, len) := snprintf 32 (B "client-" ++ fmt_d n ++ [LF]) in
  write_all (rv fd) msg len ;;; Ret tt.

(** The inner loop, over the reported descriptors; it yields the new count
    of replies. *)
Fixpoint handle (server ep : Z) (events : list Z) (replies : Z) : prog io_call Z :=
  match events with
  | [] => Ret replies
  | fd :: events' =>
      replies' <- (if fd =? server then
                     c <- sys (Accept server true) ;;
                     sys (EpollAdd ep (rv c) false) ;;; Ret replies
                   else
                     n <- sys (Read fd 63) ;;
                     r <- (if rv n >? 0 then
                             proc (Printf (B "epoll echo saw: " ++ cstr (rbytes n))) ;;;
                             int_add replies 1
                           else Ret replies) ;;
                     xclose fd ;;; Ret r) ;;
      handle server ep events' replies'
  end.

Definition reactor_body (server ep : Z) : Z -> prog io_call (Z + unit) :=
  fun replies =>
    if replies <? 2 then
      ready <- sys (EpollWait ep 4) ;;
      if rv ready <=? 0 then die (B "epoll_wait timeout") else
      r <- handle server ep (rints ready) replies ;;
      Ret (inl r)
    else Ret (inr tt).

Definition main : prog io_call Z :=
  server <- sys (Socket true) ;;
  if rv server =? -1 then die_errno (rerr server) (B "socket") else
  sys (Unlink SOCKET_PATH) ;;;
  r <- sys (Bind (rv server) (APath (sun_path SOCKET_PATH))) ;;
  if rv r =? -1 then die_errno (rerr r) (B "bind/listen") else
  r <- sys (Listen (rv server)) ;;
  if rv r =? -1 then die_errno (rerr r) (B "bind/listen") else
  for_ 2 0 (fun i =>
    child <- proc Fork ;;
    if rv child =? 0 then client i ;;; Exit_ 0 else Ret tt) ;;;
  ep <- sys EpollCreate ;;
  sys (EpollAdd (rv ep) (rv server) false) ;;;
  loop (reactor_body (rv server) (rv ep)) 0 ;;;
  reap_all_children ;;;
  sys (Unlink SOCKET_PATH) ;;;
  Ret 0.
End EpollEcho.
