(* ===== verification/CalcServer.v ===== *)
(** * CalcServer: the sessions of the calculator

    [serve] of [Sockets/unix_calc_server.c], which answers one client, and
    [Sockets/unix_calc_client.c].  Their theorems quantify over every way
    [read(2)] and [write(2)] can answer; the parser is the one of [Calc]. *)

From S2P Require Import Prelude Fmt Double Calc Posix Common Io Sockets.

#[local] Arguments snprintf : simpl never.
#[local] Arguments write_all : simpl never.
#[local] Arguments evaluate : simpl never.

Definition BUFFER_SIZE : Z := 512.

(** ["pid=%ld result=%.3f\n"]; [nan_neg] is the sign the C library prints
    for a NaN. *)
Definition response_text (nan_neg : bool) (pid : Z) (result : double) : bytes :=
  B "pid=" ++ fmt_d pid ++ B " result=" ++ fmt_f3 nan_neg result ++ [LF].

(** [serve(client)]. *)
Definition serve (nan_neg : bool) (client : Z) : prog io_call unit :=
  n <- sys (Read client (BUFFER_SIZE - 1)) ;;
  if rv n <=? 0 then Ret tt else
  request <- terminated BUFFER_SIZE n ;;
  match evaluate request with
  | inr message => die message
  | inl result =>
      pid <- proc Getpid ;;
      let '(response, len) := snprintf BUFFER_SIZE (response_text nan_neg (rv pid) result) in
      write_all client response len ;;;
      Ret tt
  end.

Definition RESPONSE_SIZE : Z := 256.

(** [main] of the client, for [argc] arguments [argv]. *)
Definition client_main (argv : list bytes) : prog io_call Z :=
  match argv with
  | [_; path; expression] =>
      fd <- sys (Socket false) ;;
      if rv fd =? -1 then die_errno (rerr fd) (B "socket") else
      r <- sys (Connect (rv fd) (APath (sun_path path))) ;;
      if rv r =? -1 then die_errno (rerr r) (B "connect") else
      write_all (rv fd) expression (blen expression) ;;;
      sys (ShutdownWr (rv fd)) ;;;
      n <- sys (Read (rv fd) (RESPONSE_SIZE - 1)) ;;
      if rv n =? -1 then die_errno (rerr n) (B "read") else
      response <- terminated RESPONSE_SIZE n ;;
      proc (Printf response) ;;;
      xclose (rv fd) ;;;
      Ret 0
  | argv0 :: _ =>
      proc (Eprintf (B "usage: " ++ argv0 ++ ln " <socket-path> <expression>")) ;;;
      Ret 2
  | [] => Undef
  end.

(** ** The response always fits *)

Lemma grammar_size_bounded :
  (forall s e t, Factor s e t -> size_bounded (eval e)) /\
  (forall s e t, Term s e t -> size_bounded (eval e)) /\
  (forall s e t, Expr s e t -> size_bounded (eval e)).
Proof.
  apply grammar_ind; try done.
  - intros s v t (u & _ & _ & _ & Hv & _). cbn. pose proof (strtod_size_bounded u) as Hu. by rewrite Hv in Hu.
  - intros s u e t _ _ He. by apply dneg_size_bounded.
  - intros s a r o u b t _ Ha _ _ Hb. destruct o; [by apply dmul_size_bounded|by apply ddiv_size_bounded].
  - intros s a r o u b t _ Ha _ _ Hb. destruct o; [by apply dadd_size_bounded|by apply dsub_size_bounded].
Qed.

Lemma evaluate_size_bounded input v : evaluate input = inl v -> size_bounded v.
Proof. intros (e & (t & He & _) & <-)%evaluate_sound. by eapply grammar_size_bounded. Qed.

(** Process ids are positive [int]s. *)
Definition is_pid (pid : Z) : Prop := 0 < pid <= INT_MAX.

Lemma fmt_pid_length pid : is_pid pid -> (length (fmt_d pid) <= 10)%nat.
Proof.
  unfold is_pid, INT_MAX. intros Hp. unfold fmt_d. destruct (Z.ltb_spec pid 0); [lia|].
  apply fmt_u_length; [|lia]. cbn. lia.
Qed.

Lemma response_length b pid v :
  is_pid pid -> size_bounded v -> (length (response_text b pid v) <= 337)%nat.
Proof.
  intros Hp Hv. pose proof (fmt_pid_length _ Hp). pose proof (fmt_f3_length b _ Hv).
  unfold response_text. rewrite !length_app.
  change (length (B "pid=")) with 4%nat. change (length (B " result=")) with 8%nat. cbn [length]. lia.
Qed.

(** The whole response is in the buffer, and its length is the one returned. *)
Lemma response_fits b pid v :
  is_pid pid -> size_bounded v ->
  exists tl, snprintf BUFFER_SIZE (response_text b pid v) =
             (response_text b pid v ++ tl, Z.of_nat (length (response_text b pid v))).
Proof.
  intros Hp Hv. pose proof (response_length b _ _ Hp Hv). exists [NUL].
  unfold snprintf, BUFFER_SIZE. rewrite take_ge by lia. done.
Qed.

(** ** One request *)

(** What [read], [write] and [getpid] promise. *)
Definition session_contract (ob : obs io_call) : Prop :=
  match ob with
  | OSys (Read _ n) r => rv r = -1 \/ (0 <= rv r <= n /\ blen (rbytes r) = rv r)
  | OProc Getpid r => is_pid (rv r)
  | _ => write_contract ob
  end.

Lemma session_write tr : Forall session_contract tr -> Forall write_contract tr.
Proof.
  intros Hc. eapply Forall_impl; [exact Hc|]. intros [c r|c r]; [done|]. by destruct c.
Qed.

(** What a session with the calls [tr] that ends with [o] has done. *)
Inductive session (nan_neg : bool) (client : Z) : list (obs io_call) -> outcome unit -> Prop :=
| session_empty r :
    rv r <= 0 -> session nan_neg client [OSys (Read client 511) r] (Returned tt)
| session_rejected r m r' :
    0 < rv r ->
    evaluate (cstr (rbytes r)) = inr m ->
    session nan_neg client
      [OSys (Read client 511) r; OProc (Eprintf (B "error: " ++ m ++ [LF])) r'] (Exited 1)
| session_answered r v pid tr :
    0 < rv r -> is_pid (rv pid) ->
    evaluate (cstr (rbytes r)) = inl v -> Forall (writes_to_fd client) tr ->
    accepted tr = response_text nan_neg (rv pid) v ->
    session nan_neg client (OSys (Read client 511) r :: OProc Getpid pid :: tr) (Returned tt)
| session_broken r v pid tr tl :
    0 < rv r -> is_pid (rv pid) ->
    evaluate (cstr (rbytes r)) = inl v -> Forall (writes_to_fd client) tr ->
    hard_error tr -> tl <> [] ->
    accepted tr ++ tl = response_text nan_neg (rv pid) v ->
    session nan_neg client (OSys (Read client 511) r :: OProc Getpid pid :: tr) (Returned tt).

Lemma serve_session nan_neg client tr o :
  runs (serve nan_neg client) tr o -> Forall session_contract tr -> session nan_neg client tr o.
Proof.
  intros Hr Hc. apply runs_inv in Hr as (n & tr1 & -> & Hr). cbn in Hr.
  apply Forall_cons in Hc as [Hn Hc]. cbn in Hn.
  destruct (Z.leb_spec (rv n) 0) as [Hle|Hpos].
  { apply runs_inv in Hr as [-> ->]. by constructor. }
  destruct Hn as [?|[Hn Hlen]]; [lia|].
  unfold terminated in Hr.
  replace ((0 <=? rv n) && (rv n <? BUFFER_SIZE)) with true in Hr
    by (symmetry; unfold BUFFER_SIZE in *; apply andb_true_iff; split; [apply Z.leb_le|apply Z.ltb_lt]; lia).
  cbn in Hr. destruct (evaluate (cstr (rbytes n))) as [v|m] eqn:He.
  2: { apply runs_inv in Hr as (r & tr2 & -> & Hr). apply runs_inv in Hr as [-> ->]. by constructor. }
  apply runs_inv in Hr as (pid & tr2 & -> & Hr). cbn in Hr.
  apply Forall_cons in Hc as [Hp Hc]. cbn in Hp.
  destruct (response_fits nan_neg _ _ Hp (evaluate_size_bounded _ _ He)) as [tl Hs]. rewrite Hs in Hr.
  set (text := response_text nan_neg (rv pid) v) in *.
  pose proof (response_length nan_neg _ _ Hp (evaluate_size_bounded _ _ He)) as Hl. fold text in Hl.
  apply write_all_then in Hr as (t1 & t2 & w & -> & Hd & [-> ->]%runs_inv);
    [|rewrite length_app; lia|unfold SIZE_T_MOD; lia|by apply session_write].
  rewrite app_nil_r. rewrite take_app_length in Hd.
  destruct Hd as [Hf Hd].
  destruct Hd as [[_ Ha]|(_ & Hh & tl' & Hne & Ha)];
    [by eapply session_answered|by eapply session_broken].
Qed.

(** C6. A session with the calculator: whatever bytes the client sends and
    however the kernel splits the reply, [serve] answers a request of the
    grammar with the full text [pid=... result=...] of its value, which
    always fits the 512-byte buffer, or stops at a hard write error having
    sent a prefix of it; it answers nothing to an empty request; and it dies
    with the parser's message, without writing to the client, on any other. *)
Theorem serve_correct nan_neg client tr o :
  runs (serve nan_neg client) tr o -> Forall session_contract tr ->
  o <> Undefined /\ session nan_neg client tr o.
Proof.
  intros Hr Hc. pose proof (serve_session _ _ _ _ Hr Hc) as Hs. split; [|done]. by destruct Hs.
Qed.

(** A session in which the kernel takes the reply in two pieces. *)
Definition sample_trace (v : double) : list (obs io_call) :=
  let text := response_text false 7 v in
  [OSys (Read 5 511) (ok_bytes 5 (B "1+2*3")); OProc Getpid (ok 7);
   OSys (Write 5 text) (ok 4); OSys (Write 5 (drop 4 text)) (failed EINTR);
   OSys (Write 5 (drop 4 text)) (ok 15)].

Definition seven : double := of_int 7.

Lemma serve_correct_witness :
  evaluate (B "1+2*3") = inl seven /\
  session false 5 (sample_trace seven) (Returned tt) /\
  accepted (drop 2 (sample_trace seven)) = ln "pid=7 result=7.000".
Proof.
  split; [by vm_compute|]. split; [|by vm_compute].
  apply (serve_correct false 5 (sample_trace seven) (Returned tt)).
  - apply runs_sys. cbn. replace (evaluate _) with (inl (B:=bytes) seven) by (by vm_compute).
    apply runs_proc. repeat (apply runs_loop || apply runs_sys || apply runs_ret).
  - repeat constructor; vm_compute; intuition congruence.
Defined.

(** ** The client *)

(** The calls after the connection: the request, the half-close, one read,
    the text shown and the close. *)
Inductive exchange (fd : Z) (request : bytes) : list (obs io_call) -> outcome Z -> Prop :=
| exchange_shown t1 r1 n r2 r3 :
    Forall (writes_to_fd fd) t1 ->
    (accepted t1 = request \/ hard_error t1 /\ exists tl, tl <> [] /\ accepted t1 ++ tl = request) ->
    0 <= rv n <= 255 -> rv r3 <> -1 ->
    exchange fd request
      (t1 ++ [OSys (ShutdownWr fd) r1; OSys (Read fd 255) n;
              OProc (Printf (cstr (rbytes n))) r2; OSys (Close fd) r3]) (Returned 0)
| exchange_failed t1 c r m r' :
    rv r = -1 -> c = Read fd 255 \/ c = Close fd ->
    exchange fd request (t1 ++ [OSys c r; OProc (Eprintf m) r']) (Exited 1).

Lemma client_exchange fd request tr o :
  0 <= fd -> blen request < SIZE_T_MOD ->
  runs (write_all fd request (blen request) ;;;
        sys (ShutdownWr fd) ;;;
        n <- sys (Read fd (RESPONSE_SIZE - 1)) ;;
        if rv n =? -1 then die_errno (rerr n) (B "read") else
        response <- terminated RESPONSE_SIZE n ;;
        proc (Printf response) ;;;
        xclose fd ;;;
        Ret 0) tr o ->
  Forall session_contract tr -> exchange fd request tr o.
Proof.
  intros Hfd Hb Hr Hc. apply write_all_then in Hr as (t1 & t2 & v & -> & [Hf Hd] & Hr);
    [|done|done|by apply session_write].
  apply Forall_app in Hc as [_ Hc]. rewrite firstn_all in Hd.
  apply runs_inv in Hr as (r1 & t3 & -> & Hr). apply Forall_cons in Hc as [_ Hc]. cbn in Hr.
  apply runs_inv in Hr as (n & t4 & -> & Hr). apply Forall_cons in Hc as [Hn Hc]. cbn in Hr, Hn.
  destruct (Z.eqb_spec (rv n) (-1)) as [Hm|Hne].
  { apply runs_inv in Hr as (r & t5 & -> & [-> ->]%runs_inv).
    rewrite cons_middle, app_assoc. eapply exchange_failed; [done|by left]. }
  destruct Hn as [?|[Hn Hl]]; [done|]. unfold terminated, RESPONSE_SIZE in *.
  destruct (Z.leb_spec 0 (rv n)); [|lia]. destruct (Z.ltb_spec (rv n) 256); [|lia]. cbn in Hr.
  apply runs_inv in Hr as (r2 & t5 & -> & Hr). cbn in Hr.
  unfold xclose in Hr. destruct (Z.geb_spec fd 0); [|lia]. cbn in Hr.
  apply runs_inv in Hr as (r3 & t6 & -> & Hr). cbn in Hr.
  destruct (Z.eqb_spec (rv r3) (-1)) as [Hm|Hr3].
  { apply runs_inv in Hr as (r & t7 & -> & [-> ->]%runs_inv).
    do 3 rewrite cons_middle, app_assoc. eapply exchange_failed; [done|by right]. }
  apply runs_inv in Hr as [-> ->]. constructor; [done| |lia|done].
  destruct Hd as [[_ Ha]|(_ & Hh & Ha)]; [by left|by right].
Qed.

Lemma client_session argv0 path expression fd0 fd1 tr o :
  0 <= rv fd0 -> rv fd1 <> -1 -> blen expression < SIZE_T_MOD ->
  runs (client_main [argv0; path; expression])
    (OSys (Socket false) fd0 :: OSys (Connect (rv fd0) (APath (sun_path path))) fd1 :: tr) o ->
  Forall session_contract tr -> exchange (rv fd0) expression tr o.
Proof.
  intros H0 H1 Hb Hr Hc. apply runs_inv in Hr as (r & tr' & E & Hr). injection E as <- <-.
  cbn in Hr.
  destruct (Z.eqb_spec (rv fd0) (-1)); [lia|].
  apply runs_inv in Hr as (r' & tr' & E & Hr). injection E as <- <-. cbn in Hr.
  destruct (Z.eqb_spec (rv fd1) (-1)); [done|]. by apply client_exchange.
Qed.

(** The client [unix_calc_client.c]: once connected it sends the whole
    expression (or stops at a hard write error, which it does not report),
    closes its sending side, and shows the text one [read] returns, at most
    255 bytes of it; every failure it notices ends in exit code 1. *)
Theorem client_correct argv0 path expression fd0 fd1 tr o :
  0 <= rv fd0 -> rv fd1 <> -1 -> blen expression < SIZE_T_MOD ->
  runs (client_main [argv0; path; expression])
    (OSys (Socket false) fd0 :: OSys (Connect (rv fd0) (APath (sun_path path))) fd1 :: tr) o ->
  Forall session_contract tr -> exchange (rv fd0) expression tr o.
Proof. apply client_session. Qed.

(** A run of the client on ["1+2*3"]. *)
Definition sample_exchange : list (obs io_call) :=
  [OSys (Write 3 (B "1+2*3")) (ok 5); OSys (ShutdownWr 3) (ok 0);
   OSys (Read 3 255) (ok_bytes 19 (ln "pid=7 result=7.000"));
   OProc (Printf (ln "pid=7 result=7.000")) (ok 19); OSys (Close 3) (ok 0)].

Lemma client_correct_witness : exchange 3 (B "1+2*3") sample_exchange (Returned 0).
Proof.
  apply (client_correct (B "client") (B "/tmp/s") (B "1+2*3") (ok 3) (ok 0)); try done.
  - repeat (apply runs_loop || apply runs_sys || apply runs_proc || apply runs_ret).
  - repeat constructor; vm_compute; intuition congruence.
Defined.

Lemma cstr_prefix b : exists tl, cstr b ++ tl = b.
Proof.
  induction b as [|c b [tl IH]]; [by exists []|]. cbn. destruct (is_nul c).
  - by exists (c :: b).
  - exists tl. cbn. by rewrite IH.
Qed.
