(* ===== verification/CalcEnd.v ===== *)
(** * CalcEnd: the calculator end to end

    [serve] of [Sockets/unix_calc_server.c] and [Sockets/unix_calc_client.c]
    put together: the two are connected by byte streams, and what the client
    shows is related to the value of the expression it was given.  The
    kernel may split, shorten and interrupt every transfer. *)

From S2P Require Import Prelude Fmt Double Calc Posix Common Io Sockets CalcServer.

#[local] Arguments evaluate : simpl never.

(** ** Text without NUL *)

Definition no_nul (b : bytes) : Prop := Forall (fun c => is_nul c = false) b.

Lemma cstr_no_nul b : no_nul b -> cstr b = b.
Proof. induction 1 as [|c b Hc _ IH]; cbn; [done|]. by rewrite Hc, IH. Qed.

Lemma no_nul_prefix a b : a `prefix_of` b -> no_nul b -> no_nul a.
Proof. intros [tl ->] Hb. by apply Forall_app in Hb as [? _]. Qed.

Lemma digit_no_nul d : 0 <= d < 16 -> is_nul (digit d) = false.
Proof.
  intros Hd. assert (Hc : In d [0;1;2;3;4;5;6;7;8;9;10;11;12;13;14;15]) by (cbn; lia).
  cbn in Hc. intuition subst; reflexivity.
Qed.

Lemma digits_no_nul fuel n : no_nul (digits_aux fuel 10 n []).
Proof.
  revert n. induction fuel as [|fuel IH]; intros n; [constructor|].
  assert (Hd : is_nul (digit (n mod 10)) = false)
    by (apply digit_no_nul; pose proof (Z.mod_pos_bound n 10); lia).
  rewrite digits_aux_step. destruct (n <? 10); [by repeat constructor|].
  apply Forall_app. split; [apply IH|by repeat constructor].
Qed.

Lemma fmt_d_no_nul n : no_nul (fmt_d n).
Proof.
  unfold fmt_d, fmt_u, digits. destruct (n <? 0); [|apply digits_no_nul].
  apply Forall_app. split; [by repeat constructor|apply digits_no_nul].
Qed.

Lemma fixed3_no_nul k : no_nul (fixed3 k).
Proof.
  unfold fixed3. apply Forall_app. split; [apply digits_no_nul|].
  assert (0 <= k mod 1000 / 100 < 10) by (split; [apply Z.div_pos|apply Z.div_lt_upper_bound]; pose proof (Z.mod_pos_bound k 1000); lia).
  assert (0 <= k mod 100 / 10 < 10) by (split; [apply Z.div_pos|apply Z.div_lt_upper_bound]; pose proof (Z.mod_pos_bound k 100); lia).
  pose proof (Z.mod_pos_bound k 10 ltac:(lia)).
  repeat (apply Forall_cons; split); try done; apply digit_no_nul; lia.
Qed.

Lemma response_no_nul b pid v : no_nul (response_text b pid v).
Proof.
  assert (Hs : forall s, no_nul (sign_text s)) by (intros []; by repeat constructor).
  unfold response_text. repeat (apply Forall_app; split); try by repeat constructor.
  - apply fmt_d_no_nul.
  - destruct v; cbn [fmt_f3]; apply Forall_app; (split; [apply Hs|]);
      first [apply fixed3_no_nul|by repeat constructor].
Qed.

(** ** What passed through the descriptors *)

(** The bytes a process has read, and the text it has printed. *)
Definition got (ob : obs io_call) : bytes :=
  match ob with
  | OSys (Read _ _) r => if rv r =? -1 then [] else rbytes r
  | _ => []
  end.
Definition received (tr : list (obs io_call)) : bytes := concat (got <$> tr).
Definition displayed (ob : obs io_call) : bytes :=
  match ob with OProc (Printf text) _ => text | _ => [] end.
Definition shown (tr : list (obs io_call)) : bytes := concat (displayed <$> tr).

Lemma received_app t1 t2 : received (t1 ++ t2) = received t1 ++ received t2.
Proof. unfold received. by rewrite fmap_app, concat_app. Qed.
Lemma shown_app t1 t2 : shown (t1 ++ t2) = shown t1 ++ shown t2.
Proof. unfold shown. by rewrite fmap_app, concat_app. Qed.
Lemma accepted_app (t1 t2 : list (obs io_call)) : accepted (t1 ++ t2) = accepted t1 ++ accepted t2.
Proof. unfold accepted. by rewrite fmap_app, concat_app. Qed.

Lemma writes_receive fd (tr : list (obs io_call)) :
  Forall (writes_to_fd fd) tr -> received tr = [] /\ shown tr = [].
Proof.
  induction 1 as [|ob tr (chunk & r & ->) _ [IHr IHs]]; [done|].
  unfold received, shown in *. cbn. done.
Qed.

(** The server's side of a session: it sent nothing, because it read
    nothing or nothing it understood, or it sent the answer to what it read. *)
Definition server_side (nan_neg : bool) (ts : list (obs io_call)) : Prop :=
  (accepted ts = [] /\ (received ts = [] \/ exists m, evaluate (cstr (received ts)) = inr m)) \/
  (exists v pid, is_pid pid /\ evaluate (cstr (received ts)) = inl v /\
     accepted ts `prefix_of` response_text nan_neg pid v /\
     (accepted ts = response_text nan_neg pid v \/ hard_error ts)).

Lemma hard_error_cons (ob : obs io_call) tr : hard_error tr -> hard_error (ob :: tr).
Proof. intros (t0 & fd & c & r & -> & Hr). by exists (ob :: t0), fd, c, r. Qed.

Lemma session_summary nan_neg client ts o :
  session nan_neg client ts o -> Forall session_contract ts -> server_side nan_neg ts.
Proof.
  assert (Hgot : forall r tr, 0 < rv r -> received tr = [] ->
    received (OSys (Read client 511) r :: tr) = rbytes r).
  { intros r tr Hr Htr. unfold received in *. cbn. rewrite Htr, app_nil_r.
    by destruct (Z.eqb_spec (rv r) (-1)); [lia|]. }
  destruct 1 as [r Hr|r m r' Hr He|r v pid tr Hr Hp He Hw Ha|r v pid tr tl Hr Hp He Hw Hh Hne Ha]; intros Hc;
    apply Forall_cons in Hc as [Hc1 Hc].
  - left. split; [done|]. left. unfold received. cbn. cbn in Hc1.
    destruct (Z.eqb_spec (rv r) (-1)); [done|]. destruct Hc1 as [?|[? Hl]]; [done|].
    destruct (rbytes r); [done|]. unfold blen in Hl. cbn in Hl. lia.
  - left. split; [done|]. right. exists m. by rewrite Hgot.
  - right. exists v, (rv pid). destruct (writes_receive _ _ Hw) as [Hrecv _].
    rewrite Hgot by done. split; [done|]. split; [done|].
    change (accepted (_ :: _ :: tr)) with (accepted tr). rewrite Ha. auto.
  - right. exists v, (rv pid). destruct (writes_receive _ _ Hw) as [Hrecv _].
    rewrite Hgot by done. split; [done|]. split; [done|].
    change (accepted (_ :: _ :: tr)) with (accepted tr). rewrite <- Ha.
    split; [by exists tl|]. right. by apply hard_error_cons, hard_error_cons.
Qed.

(** The client's side: it sent a prefix of its argument, and shows the C
    string in what it read. *)
Lemma exchange_summary fd e tc :
  exchange fd e tc (Returned 0) -> accepted tc `prefix_of` e /\ shown tc = cstr (received tc).
Proof.
  intros Hx. inversion Hx as [t1 r1 n r2 r3 Hw Ha Hn Hr3|]; subst.
  destruct (writes_receive _ _ Hw) as [Hrecv Hshown]. split.
  - rewrite accepted_app. cbn. rewrite app_nil_r.
    destruct Ha as [->|[_ (tl & _ & <-)]]; [done|by exists tl].
  - rewrite received_app, shown_app, Hrecv, Hshown. unfold received, shown. cbn. rewrite !app_nil_r.
    by destruct (Z.eqb_spec (rv n) (-1)); [lia|].
Qed.


Section EndToEnd.
(** A server's session and a client's run on an argument without NUL, as
    every argument of a C program is, whose streams are connected: each reads
    a prefix of what the other has sent. *)
Context (nan_neg : bool) (client : Z) (argv0 path e : bytes) (fd0 fd1 : reply).
Context (ts tc : list (obs io_call)) (os : outcome unit).
Hypothesis Hargument : no_nul e /\ blen e < SIZE_T_MOD.
Hypothesis Hconnected : 0 <= rv fd0 /\ rv fd1 <> -1.
Hypothesis Hserver : runs (serve nan_neg client) ts os.
Hypothesis Hclient : runs (client_main [argv0; path; e])
  (OSys (Socket false) fd0 :: OSys (Connect (rv fd0) (APath (sun_path path))) fd1 :: tc) (Returned 0).
Hypothesis Hcalls : Forall session_contract ts /\ Forall session_contract tc.
Hypothesis Hrequest : received ts `prefix_of` accepted tc.
Hypothesis Hreply : received tc `prefix_of` accepted ts.

Lemma both_sides :
  server_side nan_neg ts /\ received ts `prefix_of` e /\ shown tc = cstr (received tc) /\
  cstr (received ts) = received ts.
Proof.
  pose proof (session_summary _ _ _ _ (serve_session _ _ _ _ Hserver (proj1 Hcalls)) (proj1 Hcalls)) as Hs.
  pose proof (client_session argv0 path e fd0 fd1 tc (Returned 0) (proj1 Hconnected) (proj2 Hconnected)
    (proj2 Hargument) Hclient (proj2 Hcalls)) as Hx.
  destruct (exchange_summary _ _ _ Hx) as [Ha Hsh].
  assert (Hpre : received ts `prefix_of` e) by (by etrans).
  split; [done|]. split; [done|]. split; [done|]. apply cstr_no_nul.
  by eapply no_nul_prefix; [|apply Hargument].
Qed.

(** C11. Whatever the kernel does to the transfers: if the client shows
    anything, it is a prefix of the answer to a prefix of its argument, an
    expression of the grammar with the value shown. *)
Theorem calc_answer_sound :
  shown tc <> [] ->
  exists q ast pid, q `prefix_of` e /\ Request q ast /\ is_pid pid /\
    shown tc `prefix_of` response_text nan_neg pid (eval ast).
Proof.
  intros Hne. destruct both_sides as (Hs & Hpre & Hsh & Hc).
  destruct (cstr_prefix (received tc)) as [tl Htl]. rewrite <- Hsh in Htl.
  destruct Hs as [[Ha _]|(v & pid & Hp & Hv & Ha & _)].
  - rewrite Ha in Hreply. apply prefix_nil_inv in Hreply. rewrite Hreply in Htl.
    by apply app_eq_nil in Htl as [? _].
  - rewrite Hc in Hv. apply evaluate_sound in Hv as (ast & Hr & <-).
    exists (received ts), ast, pid. split; [done|]. split; [done|]. split; [done|].
    transitivity (received tc); [by exists tl|]. by etrans.
Qed.

(** C12. When nothing is lost on the way (the server's one [read] got the whole
    argument, its answer was not cut by a write error and the client's one
    [read] got all of it), the client shows the answer if its argument is an
    expression of the grammar, and nothing otherwise. *)
Theorem calc_answer_complete :
  received ts = e -> ~ hard_error ts -> received tc = accepted ts ->
  match evaluate e with
  | inl v => exists pid, is_pid pid /\ shown tc = response_text nan_neg pid v
  | inr _ => shown tc = []
  end.
Proof.
  intros He Hh Hall. destruct both_sides as (Hs & _ & Hsh & Hc). rewrite Hsh, Hall.
  unfold server_side in Hs. rewrite Hc, He in Hs.
  destruct Hs as [[-> [->|[m ->]]]|(v & pid & Hp & -> & _ & [Ha|?])]; [done|done| |done].
  exists pid. split; [done|]. rewrite Ha. apply cstr_no_nul, response_no_nul.
Qed.

End EndToEnd.

(** The samples of [CalcServer], connected to each other. *)
Lemma sample_server : runs (serve false 5) (sample_trace seven) (Returned tt).
Proof.
  apply runs_sys. cbn. replace (evaluate _) with (inl (B:=bytes) seven) by (by vm_compute).
  apply runs_proc. repeat (apply runs_loop || apply runs_sys || apply runs_ret).
Qed.

Lemma sample_client :
  runs (client_main [B "client"; B "/tmp/s"; B "1+2*3"])
    (OSys (Socket false) (ok 3) :: OSys (Connect 3 (APath (sun_path (B "/tmp/s")))) (ok 0) :: sample_exchange)
    (Returned 0).
Proof. repeat (apply runs_loop || apply runs_sys || apply runs_proc || apply runs_ret). Qed.

Lemma sample_contracts : Forall session_contract (sample_trace seven) /\ Forall session_contract sample_exchange.
Proof. split; repeat constructor; vm_compute; intuition congruence. Qed.

Lemma calc_answer_sound_witness :
  exists q ast pid, q `prefix_of` B "1+2*3" /\ Request q ast /\ is_pid pid /\
    shown sample_exchange `prefix_of` response_text false pid (eval ast).
Proof.
  apply (calc_answer_sound false 5 (B "client") (B "/tmp/s") (B "1+2*3") (ok 3) (ok 0)
           (sample_trace seven) sample_exchange (Returned tt)).
  - split; [by repeat constructor|reflexivity].
  - split; vm_compute; congruence.
  - exact sample_server.
  - exact sample_client.
  - exact sample_contracts.
  - exists []. vm_compute. reflexivity.
  - exists []. vm_compute. reflexivity.
  - vm_compute. congruence.
Defined.

Lemma calc_answer_complete_witness :
  match evaluate (B "1+2*3") with
  | inl v => exists pid, is_pid pid /\ shown sample_exchange = response_text false pid v
  | inr _ => shown sample_exchange = []
  end.
Proof.
  apply (calc_answer_complete false 5 (B "client") (B "/tmp/s") (B "1+2*3") (ok 3) (ok 0)
           (sample_trace seven) sample_exchange (Returned tt)).
  - split; [by repeat constructor|reflexivity].
  - split; vm_compute; congruence.
  - exact sample_server.
  - exact sample_client.
  - exact sample_contracts.
  - exists []. vm_compute. reflexivity.
  - vm_compute. reflexivity.
  - intros (t0 & fd & c & r & E & Hr & _). apply (f_equal last) in E. rewrite last_snoc in E.
    vm_compute in E. injection E as _ _ <-. vm_compute in Hr. congruence.
  - vm_compute. reflexivity.
Defined.











(** ** A request longer than the server's buffer *)

(** Blanks, and a number that the buffer cuts in two. *)
Definition long_request : bytes := replicate 510 " "%char ++ B "12".

(** C31. The server reads once, at most 511 bytes, and does not notice that there
    is more: a request one byte longer than that has the value 12, but the
    server, given what fits its buffer and meeting no write error, sends the
    whole answer that the value is 1, and goes on as after any request. *)
Theorem server_truncates client tr o :
  runs (serve false client) (OSys (Read client 511) (ok_bytes 511 (take 511 long_request)) :: tr) o ->
  Forall session_contract tr -> ~ hard_error tr ->
  (exists v, evaluate long_request = inl v /\ fmt_f3 false v = B "12.000") /\
  o = Returned tt /\
  exists pid, is_pid pid /\ accepted tr = B "pid=" ++ fmt_d pid ++ ln " result=1.000".
Proof.
  intros Hr Hc Hh. split; [exists (of_int 12); split; by vm_compute|].
  set (r := ok_bytes 511 (take 511 long_request)) in *.
  assert (Hc' : Forall session_contract (OSys (Read client 511) r :: tr)).
  { constructor; [|done]. right. by vm_compute. }
  assert (Hv : evaluate (cstr (rbytes r)) = inl (of_int 1)) by (by vm_compute).
  pose proof (serve_session _ _ _ _ Hr Hc') as Hs.
  inversion Hs as [r0 Hle|r0 m r' Hpos He|r0 v pid t Hpos Hp He Hw Ha|r0 v pid t tl Hpos Hp He Hw Hhe Hne Ha]; subst.
  - cbn in Hle. lia.
  - rewrite Hv in He. discriminate He.
  - split; [done|]. assert (v = of_int 1) as -> by congruence. exists (rv pid). split; [done|].
    change (accepted (_ :: t)) with (accepted t). rewrite Ha. reflexivity.
  - destruct Hh. by apply hard_error_cons.
Qed.

(** The session in which the kernel takes the answer at once. *)
Definition long_session : list (obs io_call) :=
  [OProc Getpid (ok 7); OSys (Write 5 (ln "pid=7 result=1.000")) (ok 19)].

Lemma server_truncates_witness :
  (exists v, evaluate long_request = inl v /\ fmt_f3 false v = B "12.000") /\
  @Returned unit tt = Returned tt /\
  exists pid, is_pid pid /\ accepted long_session = B "pid=" ++ fmt_d pid ++ ln " result=1.000".
Proof.
  apply (server_truncates 5 long_session (Returned tt)).
  - apply runs_sys. change (rv (ok_bytes 511 (take 511 long_request))) with 511. cbn.
    replace (evaluate _) with (inl (B:=bytes) (of_int 1)) by (by vm_compute).
    apply runs_proc. repeat (apply runs_loop || apply runs_sys || apply runs_ret).
  - repeat constructor; vm_compute; intuition congruence.
  - intros (t0 & fd & c & r & E & Hr & _). apply (f_equal last) in E. rewrite last_snoc in E.
    vm_compute in E. injection E as _ _ <-. vm_compute in Hr. congruence.
Defined.
