(* ===== verification/TcpServer.v ===== *)
(** * TcpServer: [InternetSockets/tcp_forking_echo_server.c]

    A parent that listens on the loopback address, forks clients that connect
    and send a line, and forks a worker for every connection it accepts. *)

From S2P Require Import Prelude Fmt Posix Explore Common Guarded Io AltIo Sockets CalcServer.

(** [listen_loopback(&addr)]: the descriptor and the port.  [SO_REUSEADDR]
    changes nothing for a port that the system chooses. *)
Definition listen_loopback : prog io_call (Z * Z) :=
  fd <- sys (Socket false) ;;
  if rv fd =? -1 then die_errno (rerr fd) (B "socket") else
  r <- sys (Bind (rv fd) (APort 0)) ;;
  if rv r =? -1 then die_errno (rerr r) (B "bind/listen") else
  r <- sys (Listen (rv fd)) ;;
  if rv r =? -1 then die_errno (rerr r) (B "bind/listen") else
  a <- sys (Getsockname (rv fd)) ;;
  Ret (rv fd, default 0 (rints a !! 0%nat)).

Definition connect_client (port : Z) (text : bytes) : prog io_call unit :=
  fd <- sys (Socket false) ;;
  r <- sys (Connect (rv fd) (APort port)) ;;
  if rv r =? -1 then die_errno (rerr r) (B "connect") else
  write_all (rv fd) text (blen text) ;;;
  xclose (rv fd).

Definition client_text (i : Z) : bytes := if i =? 0 then ln "alpha" else ln "beta".

(** What the process forked for a connection runs. *)
Definition echo_worker (client : Z) : prog io_call unit :=
  n <- sys (Read client 63) ;;
  buffer <- terminated 64 n ;;
  proc (Printf (B "tcp worker echo: " ++ buffer)) ;;;
  proc Fflush ;;;
  Ret tt.

Definition serve_one (server : Z) (i : Z) : prog io_call unit :=
  client <- sys (Accept server false) ;;
  fork_child (echo_worker (rv client)) ;;;
  xclose (rv client).

(** The program for a given number of clients. *)
Definition program (clients : nat) : prog io_call Z :=
  listening <- listen_loopback ;;
  let '(server, port) := (listening : Z * Z) in
  for_ clients 0 (fun i => fork_child (connect_client port (client_text i))) ;;;
  for_ clients 0 (serve_one server) ;;;
  reap_all_children ;;;
  Ret 0.

Definition main : prog io_call Z := program 2.

(** [tcp_forking_echo_server.c] with one client, under every schedule: the worker echoes the
    client's line, both are reaped and the program exits with 0. *)
Theorem tcp_one_client_correct cf port ports :
  total cf (boot (program 1) (idle (port :: ports))) (finished 0 (ln "tcp worker echo: alpha")).
Proof. destruct cf as [[] p]; apply layers_boot; explore; ended. Qed.

(** The program itself: a run with its two clients. *)
Example tcp_two_clients_run :
  let w := first_run (Config true 10) 5 300 (boot main (idle [50123])) in
  out w = ln "tcp worker echo: alpha" ++ ln "tcp worker echo: beta" /\
  length (procs w) = 5%nat /\ forallb (fun p => negb (is_live p)) (procs w) = true.
Proof. vm_compute. done. Qed.

(** ** Every answer of the kernel *)

(** A connected client sends its whole text, or stops at a hard write error
    having sent a prefix. *)
Lemma connect_client_sends port text tr o fd r :
  0 <= rv fd -> rv r <> -1 -> blen text < SIZE_T_MOD ->
  runs (connect_client port text)
    (OSys (Socket false) fd :: OSys (Connect (rv fd) (APort port)) r :: tr) o ->
  Forall session_contract tr ->
  exists t c, tr = t ++ c /\ Forall (writes_to_fd (rv fd)) t /\
    (accepted t = text \/ hard_error t /\ exists tl, tl <> [] /\ accepted t ++ tl = text).
Proof.
  intros Hfd Hr Hb Hcl Hc. apply runs_inv in Hcl as (x & tr1 & E & Hcl). injection E as <- <-. cbn in Hcl.
  apply runs_inv in Hcl as (x & tr1 & E & Hcl). injection E as <- <-. cbn in Hcl.
  destruct (Z.eqb_spec (rv r) (-1)); [done|].
  apply write_all_then in Hcl as (t1 & t2 & v & -> & [Hf Hd] & _); [|done|done|by apply session_write].
  exists t1, t2. split; [done|]. split; [done|]. rewrite firstn_all in Hd.
  destruct Hd as [[_ Ha]|(_ & Hh & Ha)]; [by left|by right].
Qed.

(** C40. The worker of [tcp_forking_echo_server.c], whatever [read] answers:
    it prints the text received, up to a NUL, and ends normally; but it does
    not check [read], and when that fails it writes before its buffer, which
    is undefined. *)
Theorem tcp_worker_correct client tr o :
  runs (echo_worker client) tr o -> Forall session_contract tr ->
  (exists n, rv n = -1 /\ tr = [OSys (Read client 63) n] /\ o = Undefined) \/
  (exists n r1 r2, 0 <= rv n <= 63 /\
     tr = [OSys (Read client 63) n; OProc (Printf (B "tcp worker echo: " ++ cstr (rbytes n))) r1; OProc Fflush r2] /\
     o = Returned tt).
Proof.
  intros Hr Hc. apply runs_inv in Hr as (n & tr1 & -> & Hr). apply Forall_cons in Hc as [Hn _].
  cbn in Hn, Hr. unfold terminated in Hr. destruct Hn as [Hn|[Hn _]].
  - rewrite Hn in Hr. cbn in Hr. apply runs_inv in Hr as [-> ->]. left. eauto.
  - replace ((0 <=? rv n) && (rv n <? 64)) with true in Hr
      by (symmetry; apply andb_true_iff; rewrite Z.leb_le, Z.ltb_lt; lia).
    cbn in Hr. apply runs_inv in Hr as (r1 & tr2 & -> & Hr). cbn in Hr.
    apply runs_inv in Hr as (r2 & tr3 & -> & Hr). cbn in Hr. apply runs_inv in Hr as [-> ->].
    right. eauto 10.
Qed.

(** A worker whose [read] fails. *)
Lemma tcp_worker_witness :
  let tr := [OSys (Read 5 63) (failed EINTR)] in
  (exists n, rv n = -1 /\ tr = [OSys (Read 5 63) n] /\ @Undefined unit = Undefined) \/
  (exists n r1 r2, 0 <= rv n <= 63 /\
     tr = [OSys (Read 5 63) n; OProc (Printf (B "tcp worker echo: " ++ cstr (rbytes n))) r1; OProc Fflush r2] /\
     @Undefined unit = Returned tt).
Proof.
  apply (tcp_worker_correct 5 [OSys (Read 5 63) (failed EINTR)] Undefined).
  - apply runs_sys, runs_undef.
  - repeat constructor.
Defined.
