(* ===== verification/TcpMany.v ===== *)
(** * TcpMany: the forking TCP server with any number of clients

    [InternetSockets/tcp_forking_echo_server.c] ([TcpServer]) under every
    schedule.  The parent, the clients and the workers are each at one of a
    few places of their code; a connection belongs to one client and, once
    accepted, to one worker.  The invariant says what the kernel holds for
    each of them: it only speaks of what is still open, so that nothing has
    to be known of what has been released. *)

From S2P Require Import Prelude Fmt Posix Explore Common Guarded Io AltIo Sockets TcpServer.

(** ** The code, by place *)

Section Places.
Context (n : nat) (port : Z).

(** The text of client [i] depends on whether it is the first. *)
Definition text (first : bool) : bytes := if first then ln "alpha" else ln "beta".
Definition is_first (i : nat) : bool := Z.of_nat i =? 0.
Definition line (i : nat) : bytes := B "tcp worker echo: " ++ text (is_first i).

(** Client [i] after [j] calls: it is about to call [socket], [connect], to
    enter the loop of [write_all], to write, to leave the loop, to close and
    to exit. *)
Definition client_code (first : bool) : prog io_call Z :=
  bind (connect_client port (text first)) (fun _ => Exit_ 0).
Definition client_replies (first : bool) : list reply :=
  [ok 4; ok 0; ok 0; ok (blen (text first)); ok 0; ok 0].
Definition client_at (first : bool) (j : nat) : prog io_call Z :=
  adv (take j (client_replies first)) (client_code first).

(** A worker for the same text: about to read, to print, to flush, to exit. *)
Definition worker_code : prog io_call Z := bind (echo_worker 4) (fun _ => Exit_ 0).
Definition worker_replies (first : bool) : list reply :=
  [ok_bytes (blen (text first)) (text first); ok (printed (B "tcp worker echo: " ++ text first)); ok 0].
Definition worker_at (first : bool) (j : nat) : prog io_call Z :=
  adv (take j (worker_replies first)) worker_code.

(** The parent. *)
Definition reaping : prog io_call Z := bind reap_all_children (fun _ => Ret 0).
Definition accepting (k : nat) : prog io_call Z :=
  bind (for_ (n - k) (Z.of_nat k) (serve_one 3)) (fun _ => reaping).
Definition forking (i : nat) : prog io_call Z :=
  bind (for_ (n - i) (Z.of_nat i) (fun i => fork_child (connect_client port (client_text i))))
       (fun _ => accepting 0).

Inductive place : Type :=
| PFork (i : nat)
| PAccept (k : nat)
| PWork (k : nat)
| PClose (k : nat)
| PReapL
| PReap.

Definition parent_at (p : place) : prog io_call Z :=
  match p with
  | PFork i => forking i
  | PAccept k => accepting k
  | PWork k => adv [ok 4] (accepting k)
  | PClose k => adv [ok 4; ok 1] (accepting k)
  | PReapL => reaping
  | PReap => adv [ok 0] reaping
  end.

(** What is next. *)
Definition next_sys {C A} (p : prog C A) : option C := match p with Sys c _ => Some c | _ => None end.
Definition next_proc {C A} (p : prog C A) : option pcall := match p with Proc c _ => Some c | _ => None end.
Definition is_loop {C A} (p : prog C A) : bool := match p with Loop _ _ _ => true | _ => false end.

Lemma client_calls first :
  next_sys (client_at first 0) = Some (Socket false) /\
  next_sys (client_at first 1) = Some (Connect 4 (APort port)) /\
  is_loop (client_at first 2) = true /\
  next_sys (client_at first 3) = Some (Write 4 (text first)) /\
  is_loop (client_at first 4) = true /\
  next_sys (client_at first 5) = Some (Close 4) /\
  client_at first 6 = Exit_ 0.
Proof. destruct first; repeat split. Qed.

Lemma client_next first j r :
  (j < 6)%nat -> client_replies first !! j = Some r -> adv [r] (client_at first j) = client_at first (S j).
Proof.
  intros Hj Hr. unfold client_at. rewrite (take_S_r _ _ _ Hr). symmetry. apply adv_snoc.
Qed.

Lemma worker_calls first :
  next_sys (worker_at first 0) = Some (Read 4 63) /\
  next_proc (worker_at first 1) = Some (Printf (B "tcp worker echo: " ++ text first)) /\
  next_proc (worker_at first 2) = Some Fflush /\
  worker_at first 3 = Exit_ 0.
Proof. destruct first; repeat split. Qed.

Lemma worker_next first j r :
  worker_replies first !! j = Some r -> adv [r] (worker_at first j) = worker_at first (S j).
Proof. intros Hr. unfold worker_at. rewrite (take_S_r _ _ _ Hr). symmetry. apply adv_snoc. Qed.

Lemma child_exits {A A'} (p : prog io_call unit) (f : A -> prog io_call A') :
  bind (bind p (fun _ => Exit_ 0)) f = bind p (fun _ => Exit_ 0).
Proof. by rewrite bind_assoc. Qed.

Lemma forking_step i :
  (i < n)%nat ->
  next_proc (forking i) = Some Fork /\ adv [ok 0] (forking i) = client_at (is_first i) 0 /\
  forall pid, pid <> 0 -> adv [ok pid] (forking i) = forking (S i).
Proof.
  intros Hi. unfold forking. destruct (n - i)%nat as [|m] eqn:E; [lia|].
  replace (n - S i)%nat with m by lia. replace (Z.of_nat (S i)) with (Z.of_nat i + 1) by lia.
  split; [done|]. split.
  - set (again := fun _ : unit => for_ m (Z.of_nat i + 1) (fun i => fork_child (connect_client port (client_text i)))).
    change (bind (bind (bind (connect_client port (text (is_first i))) (fun _ => Exit_ 0)) again)
              (fun _ => accepting 0) = client_at (is_first i) 0).
    by rewrite !child_exits.
  - intros pid Hp. cbn. destruct (Z.eqb_spec pid 0); [done|]. done.
Qed.

Lemma forking_end : forking n = accepting 0.
Proof. unfold forking. by rewrite Nat.sub_diag. Qed.

Lemma accepting_step k :
  (k < n)%nat ->
  next_sys (accepting k) = Some (Accept 3 false) /\
  next_proc (parent_at (PWork k)) = Some Fork /\
  adv [ok 0] (parent_at (PWork k)) = worker_at true 0 /\
  (forall pid, pid <> 0 -> adv [ok pid] (parent_at (PWork k)) = parent_at (PClose k)) /\
  next_sys (parent_at (PClose k)) = Some (Close 4) /\
  adv [ok 0] (parent_at (PClose k)) = accepting (S k).
Proof.
  intros Hk. unfold parent_at, accepting. destruct (n - k)%nat as [|m] eqn:E; [lia|].
  replace (n - S k)%nat with m by lia. replace (Z.of_nat (S k)) with (Z.of_nat k + 1) by lia.
  split; [done|]. split; [done|]. split; [|split; [|split]].
  - set (again := fun _ : unit => for_ m (Z.of_nat k + 1) (serve_one 3)).
    change (bind (bind (bind (bind (echo_worker 4) (fun _ => Exit_ 0)) (fun _ : unit => xclose 4)) again)
              (fun _ => reaping) = worker_at true 0).
    by rewrite !child_exits.
  - intros pid Hp. cbn. by destruct (Z.eqb_spec pid 0).
  - done.
  - done.
Qed.

Lemma accepting_end : accepting n = reaping.
Proof. unfold accepting. by rewrite Nat.sub_diag. Qed.

Lemma reaping_step :
  is_loop reaping = true /\ next_proc (parent_at PReap) = Some Wait /\
  (forall pid, 0 < pid -> adv [ok pid] (parent_at PReap) = reaping) /\
  adv [failed ECHILD] (parent_at PReap) = Ret 0.
Proof.
  split; [done|]. split; [done|]. split; [|done]. intros pid Hp. cbn. rewrite Z.gtb_ltb.
  by destruct (Z.ltb_spec 0 pid); [|lia].
Qed.
End Places.

(** ** The kernel's calls, on what the processes hold *)

Lemma in_use_fd s j t x : io_fds s !! j = Some t -> Some x ∈ t -> in_use s x = true.
Proof.
  intros Ht Hx. unfold in_use. apply orb_true_iff. left. apply orb_true_iff. left.
  apply existsb_exists. exists t. split; [apply list_elem_of_In; by eapply list_elem_of_lookup_2|].
  apply existsb_exists. exists (Some x). split; [by apply list_elem_of_In|apply Nat.eqb_refl].
Qed.

Lemma in_use_pending s d a nb l x :
  io_descs s !! d = Some (DListen a nb l) -> x ∈ l -> in_use s x = true.
Proof.
  intros Hd Hx. unfold in_use. apply orb_true_iff. left. apply orb_true_iff. right.
  apply existsb_exists. exists (DListen a nb l).
  split; [apply list_elem_of_In; by eapply list_elem_of_lookup_2|].
  apply existsb_exists. exists x. split; [by apply list_elem_of_In|apply Nat.eqb_refl].
Qed.

Definition not_epoll (y : desc) : Prop := match y with DEpoll _ => False | _ => True end.

Lemma reap_keeps s x y :
  io_descs s !! x = Some y -> in_use s x = true -> not_epoll y -> io_descs (reap_descs s) !! x = Some y.
Proof.
  intros Hx Hu Hy. unfold reap_descs, set_descs. cbn [io_descs].
  rewrite list_lookup_fmap, list_lookup_imap, Hx. cbn. rewrite Hu. by destruct y.
Qed.

Lemma reap_length s : length (io_descs (reap_descs s)) = length (io_descs s).
Proof. unfold reap_descs, set_descs. cbn [io_descs]. by rewrite length_fmap, length_imap. Qed.

(** What closing a descriptor and exiting have in common. *)
Definition released (s : io) : io := release_ports (reap_descs s).

Section Calls.
Context (port : Z).

Lemma released_names s t :
  io_names s = [(APort port, NSock 0)] -> io_fds s !! 0%nat = Some t -> Some 0%nat ∈ t ->
  io_names (released s) = [(APort port, NSock 0)].
Proof.
  intros Hn Ht H0. unfold released, release_ports, set_names. cbn [io_names].
  replace (io_names (reap_descs s)) with (io_names s) by done. rewrite Hn. cbn [List.filter].
  by rewrite (in_use_fd (reap_descs s) 0 t 0 Ht H0).
Qed.

Lemma k_socket i s :
  io_fds s !! i = Some [Some 0%nat] ->
  io_exec i (Socket false) s =
  Done (ok 4) (IoState (io_names s) (io_chans s) (io_inodes s) (io_descs s ++ [DSocket false None])
                 (<[i := [Some 0%nat; Some (length (io_descs s))]]> (io_fds s)) (io_stdout s) (io_ports s)).
Proof.
  intros Ht. cbn. unfold open_desc, new_desc, new_fd, fd_table, set_descs, set_fds. cbn.
  rewrite Ht. done.
Qed.

Lemma fd_desc_4 s i d : io_fds s !! i = Some [Some 0%nat; Some d] -> fd_desc s i 4 = Some d.
Proof. intros Ht. unfold fd_desc, fd_table. cbn. by rewrite Ht. Qed.

Lemma k_connect i s d a pend m :
  io_fds s !! i = Some [Some 0%nat; Some d] -> io_descs s !! d = Some (DSocket false None) ->
  io_names s = [(APort port, NSock 0)] -> io_descs s !! 0%nat = Some (DListen a false pend) ->
  length (io_chans s) = m -> d <> 0%nat ->
  io_exec i (Connect 4 (APort port)) s =
  Done (ok 0) (IoState (io_names s) ((io_chans s ++ [Chan [] 0 0 []]) ++ [Chan [] 0 0 []]) (io_inodes s)
    (<[0%nat := DListen a false (pend ++ [length (io_descs s)])]>
       (<[d := DStream m (S m) false true]> (io_descs s) ++ [DStream (S m) m false true]))
    (io_fds s) (io_stdout s) (io_ports s)).
Proof.
  intros Ht Hd Hn H0 Hm Hne. cbn. unfold io_connect, with_desc, find_name.
  rewrite (fd_desc_4 _ _ _ Ht), Hd, Hn. cbn. rewrite sym_eqb_refl. cbn. rewrite H0.
  unfold new_desc, put_desc, set_descs, set_chans. cbn.
  rewrite length_app, length_insert, Hm. cbn. by rewrite ?Nat.add_1_r, Hn.
Qed.

Lemma has_reader_desc s c d x : io_descs s !! d = Some x -> reads_from c x = true -> has_reader s c = true.
Proof.
  intros Hd Hx. apply existsb_exists. exists x. split; [|done].
  apply list_elem_of_In. by eapply list_elem_of_lookup_2.
Qed.
Lemma has_writer_desc s c d x : io_descs s !! d = Some x -> writes_to c x = true -> has_writer s c = true.
Proof.
  intros Hd Hx. apply existsb_exists. exists x. split; [|done].
  apply list_elem_of_In. by eapply list_elem_of_lookup_2.
Qed.

Lemma k_write i s d rx tx ch e y data :
  io_fds s !! i = Some [Some 0%nat; Some d] -> io_descs s !! d = Some (DStream rx tx false true) ->
  io_chans s !! tx = Some ch -> c_buf ch = [] -> blen data <= PIPE_CAPACITY ->
  io_descs s !! e = Some y -> reads_from tx y = true ->
  io_exec i (Write 4 data) s =
  Done (ok (blen data)) (put_chan s tx (Chan data (S (c_gen ch)) (c_opens ch) (c_rights ch))).
Proof.
  intros Ht Hd Hch Hb Hlen He Hy. cbn [io_exec]. unfold io_write, with_desc.
  rewrite (fd_desc_4 _ _ _ Ht), Hd. unfold write_chan, with_chan. rewrite Hch.
  rewrite (has_reader_desc _ _ _ _ He Hy), Hb. cbn [negb app].
  replace (blen [] + blen data >? PIPE_CAPACITY) with false; [done|].
  symmetry. rewrite Z.gtb_ltb. apply Z.ltb_ge. change (blen []) with 0. lia.
Qed.

Lemma k_close i s d :
  io_fds s !! i = Some [Some 0%nat; Some d] ->
  io_exec i (Close 4) s = Done (ok 0) (released (set_fds s (<[i := [Some 0%nat; None]]> (io_fds s)))).
Proof.
  intros Ht. cbn [io_exec]. unfold io_close. rewrite (fd_desc_4 _ _ _ Ht).
  unfold fd_table. by rewrite Ht.
Qed.

Lemma fd_desc_3 s i t : io_fds s !! i = Some (Some 0%nat :: t) -> fd_desc s i 3 = Some 0%nat.
Proof. intros Ht. unfold fd_desc, fd_table. cbn. by rewrite Ht. Qed.

Lemma k_accept s t a e pend rx tx :
  io_fds s !! 0%nat = Some (Some 0%nat :: t) -> t = [] \/ t = [None] ->
  io_descs s !! 0%nat = Some (DListen a false (e :: pend)) ->
  io_descs s !! e = Some (DStream rx tx false true) ->
  io_exec 0 (Accept 3 false) s =
  Done (ok 4) (IoState (io_names s) (io_chans s) (io_inodes s)
    (<[0%nat := DListen a false pend]> (<[e := DStream rx tx false true]> (io_descs s)))
    (<[0%nat := [Some 0%nat; Some e]]> (io_fds s)) (io_stdout s) (io_ports s)).
Proof.
  intros Ht Hcase H0 He. cbn [io_exec]. unfold io_accept, with_desc.
  rewrite (fd_desc_3 _ _ _ Ht), H0, He. unfold new_fd, fd_table, put_desc, set_descs, set_fds. cbn.
  rewrite Ht. by destruct Hcase as [-> | ->].
Qed.

Lemma k_accept_blocks s t a :
  io_fds s !! 0%nat = Some (Some 0%nat :: t) -> io_descs s !! 0%nat = Some (DListen a false []) ->
  io_exec 0 (Accept 3 false) s = Block.
Proof.
  intros Ht H0. cbn [io_exec]. unfold io_accept, with_desc. by rewrite (fd_desc_3 _ _ _ Ht), H0.
Qed.

Lemma k_read i s e rx tx w ch :
  io_fds s !! i = Some [Some 0%nat; Some e] -> io_descs s !! e = Some (DStream rx tx false w) ->
  io_chans s !! rx = Some ch -> c_buf ch <> [] -> (length (c_buf ch) <= 63)%nat ->
  io_exec i (Read 4 63) s =
  Done (ok_bytes (blen (c_buf ch)) (c_buf ch))
       (put_chan s rx (Chan [] (c_gen ch) (c_opens ch) (c_rights ch))).
Proof.
  intros Ht He Hch Hne Hlen. cbn [io_exec]. unfold io_read, with_desc.
  rewrite (fd_desc_4 _ _ _ Ht), He. unfold read_chan, with_chan. rewrite Hch.
  change (Z.to_nat 63) with 63%nat. destruct (c_buf ch) as [|c b] eqn:E; [done|].
  by rewrite take_ge, drop_ge by done.
Qed.

Lemma k_read_blocks i s e rx tx w ch d x :
  io_fds s !! i = Some [Some 0%nat; Some e] -> io_descs s !! e = Some (DStream rx tx false w) ->
  io_chans s !! rx = Some ch -> c_buf ch = [] -> io_descs s !! d = Some x -> writes_to rx x = true ->
  io_exec i (Read 4 63) s = Block.
Proof.
  intros Ht He Hch Hb Hd Hx. cbn [io_exec]. unfold io_read, with_desc.
  rewrite (fd_desc_4 _ _ _ Ht), He. unfold read_chan, with_chan. rewrite Hch, Hb.
  by rewrite (has_writer_desc _ _ _ _ Hd Hx).
Qed.
End Calls.

(** ** The invariant *)

(** A connection: the client's index, its description and the server's. *)
Record conn := Conn { cn_client : nat; cn_d : nat; cn_e : nat }.

(** Who a description was made for. *)
Inductive owner : Type :=
| OListen
| OClient (i : nat)
| OServer (k : nat).

(** Where everybody is: the parent, the clients (7 when terminated, 8 when
    reaped), the connections in the order in which they were made, the workers
    (4 when terminated, 5 when reaped; worker [k] serves connection [k]), the
    owners of the descriptions, and the clients whose lines have come out. *)
Record state := St {
  g_place : place;
  g_cl : list nat;
  g_conns : list conn;
  g_wk : list nat;
  g_own : list owner;
  g_log : list nat;
}.

Section Many.
Context (cf : config) (n : nat) (port : Z).
Implicit Types g : state.
Implicit Types w : world io_call io.

Definition accepted_by (p : place) : nat :=
  match p with PFork _ => 0 | PAccept k => k | PWork k | PClose k => S k | _ => n end.
Definition clients_by (p : place) : nat := match p with PFork i => i | _ => n end.
Definition workers_by (p : place) : nat :=
  match p with PFork _ => 0 | PAccept k | PWork k => k | PClose k => S k | _ => n end.
Definition place_ok (p : place) : Prop :=
  match p with PFork i => (i < n)%nat | PAccept k | PWork k | PClose k => (k < n)%nat | _ => True end.

(** The worker of a connection has not read yet, or does not exist yet. *)
Definition unread (ph : option nat) : bool :=
  match ph with None | Some O => true | _ => false end.

(** The parent's descriptors. *)
Definition parent_fds (g : state) (t : list (option nat)) : Prop :=
  match g_place g with
  | PFork _ => t = [Some 0%nat]
  | PWork k | PClose k => exists cn, g_conns g !! k = Some cn /\ t = [Some 0%nat; Some (cn_e cn)]
  | _ => t = [Some 0%nat] \/ t = [Some 0%nat; None]
  end.

(** What client [i] holds. *)
Definition client_holds (g : state) (i j : nat) (s : io) : Prop :=
  match j with
  | 0 => io_fds s !! S i = Some [Some 0%nat]
  | 1 => exists d, io_fds s !! S i = Some [Some 0%nat; Some d] /\
           io_descs s !! d = Some (DSocket false None) /\ g_own g !! d = Some (OClient i)
  | 2 | 3 | 4 | 5 => exists k cn, g_conns g !! k = Some cn /\ cn_client cn = i /\
           io_fds s !! S i = Some [Some 0%nat; Some (cn_d cn)] /\
           io_descs s !! cn_d cn = Some (DStream (2 * k) (S (2 * k)) false true) /\
           g_own g !! cn_d cn = Some (OClient i)
  | _ => True
  end%nat.

(** What is known of connection [k]: its client has connected; the text is
    in the channel from when the client has written it until the worker has
    read it; and the server's end is open until then. *)
Definition conn_holds (g : state) (k : nat) (cn : conn) (s : io) : Prop :=
  exists j ch, g_cl g !! cn_client cn = Some j /\ (2 <= j)%nat /\
    ((j < 4)%nat -> unread (g_wk g !! k) = true) /\ g_own g !! cn_e cn = Some (OServer k) /\
    io_chans s !! S (2 * k) = Some ch /\
    c_buf ch = (if (4 <=? j)%nat && unread (g_wk g !! k) then text (is_first (cn_client cn)) else []) /\
    (unread (g_wk g !! k) = true -> io_descs s !! cn_e cn = Some (DStream (S (2 * k)) (2 * k) false true)).

Record kinv (g : state) (s : io) : Prop := KInv {
  ki_names : io_names s = [(APort port, NSock 0)];
  ki_listen : io_descs s !! 0%nat =
    Some (DListen (APort port) false (cn_e <$> drop (accepted_by (g_place g)) (g_conns g)));
  ki_chans : length (io_chans s) = (2 * length (g_conns g))%nat;
  ki_own : length (g_own g) = length (io_descs s);
  ki_own0 : g_own g !! 0%nat = Some OListen;
  ki_fds : length (io_fds s) = S (length (g_cl g) + length (g_wk g));
  ki_parent : exists t, io_fds s !! 0%nat = Some t /\ parent_fds g t;
  ki_clients : forall i j, g_cl g !! i = Some j -> client_holds g i j s;
  ki_conns : forall k cn, g_conns g !! k = Some cn -> conn_holds g k cn s;
  ki_workers : forall k, g_wk g !! k = Some 0%nat ->
    exists cn, g_conns g !! k = Some cn /\ io_fds s !! S (n + k) = Some [Some 0%nat; Some (cn_e cn)];
}.

(** The counts. *)
Record ginv (g : state) : Prop := GInv {
  gi_place : place_ok (g_place g);
  gi_cl : length (g_cl g) = clients_by (g_place g);
  gi_wk : length (g_wk g) = workers_by (g_place g);
  gi_acc : (accepted_by (g_place g) <= length (g_conns g))%nat;
  gi_nodup : NoDup (cn_client <$> g_conns g);
  gi_connected : forall i j, g_cl g !! i = Some j -> (2 <= j)%nat -> i ∈ cn_client <$> g_conns g;
  gi_log : NoDup (g_log g);
  gi_logged : forall c, c ∈ g_log g <-> exists k cn ph, g_conns g !! k = Some cn /\ cn_client cn = c /\
    g_wk g !! k = Some ph /\ ((if tty cf then 2 else 3) <= ph)%nat;
}.

(** The processes. *)
Definition client_proc (i j : nat) : process io_call :=
  Process (if (j <=? 6)%nat then Live (client_at port (is_first i) j) else if (j =? 7)%nat then Zombie 0 else Reaped)
          (Some 0%nat) [].
Definition worker_proc (c j : nat) : process io_call :=
  Process (if (j <=? 3)%nat then Live (worker_at (is_first c) j) else if (j =? 4)%nat then Zombie 0 else Reaped)
          (Some 0%nat) (if (j =? 2)%nat && negb (tty cf) then line c else []).

Record pinv (g : state) (w : world io_call io) : Prop := PInv {
  pi_parent : procs w !! 0%nat = Some (Process (Live (parent_at n port (g_place g))) None []);
  pi_length : length (procs w) = S (length (g_cl g) + length (g_wk g));
  pi_clients : forall i j, g_cl g !! i = Some j -> procs w !! S i = Some (client_proc i j);
  pi_workers : forall k j, g_wk g !! k = Some j -> exists cn, g_conns g !! k = Some cn /\
    procs w !! S (n + k) = Some (worker_proc (cn_client cn) j);
  pi_out : out w = concat (line <$> g_log g);
  pi_err : errout w = [];
}.

Definition inv (g : state) (w : world io_call io) : Prop := ginv g /\ kinv g (kern w) /\ pinv g w.

(** ** What is needed is kept open *)

Lemma parent_listens g t : parent_fds g t -> Some 0%nat ∈ t.
Proof.
  unfold parent_fds. destruct (g_place g); try (intros ->; constructor);
    try (intros (cn & _ & ->); constructor); intros [-> | ->]; constructor.
Qed.

Lemma server_open g s k cn :
  ginv g -> kinv g s -> g_conns g !! k = Some cn -> unread (g_wk g !! k) = true -> in_use s (cn_e cn) = true.
Proof.
  intros Hg Hk Hcn Hu. destruct (decide (k < accepted_by (g_place g))%nat) as [Hlt|Hge].
  - destruct (g_wk g !! k) as [[|ph]|] eqn:Hw; [|done|].
    + destruct (ki_workers _ _ Hk k Hw) as (cn' & Hcn' & Hf). simplify_eq.
      eapply in_use_fd; [exact Hf|]. by constructor; constructor.
    + apply lookup_ge_None in Hw. rewrite (gi_wk _ Hg) in Hw.
      destruct (ki_parent _ _ Hk) as (t & Ht & Hp). unfold parent_fds in Hp.
      destruct (g_place g) as [i|k0|k0|k0| |]; cbn in Hlt, Hw; try lia.
      assert (k = k0) as -> by lia. destruct Hp as (cn' & Hcn' & ->). simplify_eq.
      eapply in_use_fd; [exact Ht|]. by constructor; constructor.
  - eapply in_use_pending; [apply (ki_listen _ _ Hk)|]. apply list_elem_of_fmap. exists cn. split; [done|].
    apply (list_elem_of_lookup_2 _ (k - accepted_by (g_place g))). rewrite lookup_drop, <- Hcn. f_equal. lia.
Qed.

Lemma kinv_released g s : ginv g -> kinv g s -> kinv g (released s).
Proof.
  intros Hg Hk. pose proof (ki_parent _ _ Hk) as (t & Ht & Hp). pose proof (parent_listens _ _ Hp) as H0.
  assert (Hkeep : forall x y, io_descs s !! x = Some y -> in_use s x = true -> not_epoll y ->
    io_descs (released s) !! x = Some y) by (intros x y; apply reap_keeps).
  constructor.
  - apply (released_names port s t); [apply Hk|done|done].
  - apply Hkeep; [apply Hk|by eapply in_use_fd|done].
  - apply (ki_chans _ _ Hk).
  - rewrite (ki_own _ _ Hk). symmetry. apply reap_length.
  - apply (ki_own0 _ _ Hk).
  - apply (ki_fds _ _ Hk).
  - exists t. done.
  - intros i j Hj. pose proof (ki_clients _ _ Hk i j Hj) as Hc.
    assert (Hholds : forall d, io_fds s !! S i = Some [Some 0%nat; Some d] -> in_use s d = true)
      by (intros d Hd; eapply in_use_fd; [exact Hd|]; by constructor; constructor).
    destruct j as [|[|[|[|[|[|j]]]]]]; try done.
    1: destruct Hc as (d & Hf & Hd & Ho); exists d; split_and!; try done; apply Hkeep; [done|by apply Hholds|done].
    all: destruct Hc as (k & cn & Hcn & Hi & Hf & Hd & Ho); exists k, cn;
      split_and!; try done; apply Hkeep; [done|by apply Hholds|done].
  - intros k cn Hcn. destruct (ki_conns _ _ Hk k cn Hcn) as (j & ch & Hj & Hle & H4 & Ho & Hch & Hb & He).
    exists j, ch. split_and!; try done. intros Hu. apply Hkeep; [by apply He|by eapply server_open|done].
  - apply (ki_workers _ _ Hk).
Qed.

(** ** Steps *)

Lemma run_sys_adv i w p q c r s :
  procs w !! i = Some p -> p_stat p = Live q -> next_sys q = Some c -> kexec i c (kern w) = Done r s ->
  run_step cf i w = Some (set_kern s (resume i p (adv [r] q) w)).
Proof.
  intros Hp Hs Hc Hk. destruct q; try done. cbn in Hc. simplify_eq. cbn [adv].
  by apply (run_sys_done cf i w p c k).
Qed.

Lemma run_sys_blocks i w p q c :
  procs w !! i = Some p -> p_stat p = Live q -> next_sys q = Some c -> kexec i c (kern w) = Block ->
  run_step cf i w = None.
Proof.
  intros Hp Hs Hc Hk. destruct q; try done. cbn in Hc. simplify_eq. by eapply run_sys_block.
Qed.

Lemma run_loop_adv i w p q :
  procs w !! i = Some p -> p_stat p = Live q -> is_loop q = true ->
  run_step cf i w = Some (resume i p (adv [ok 0] q) w).
Proof. intros Hp Hs Hc. destruct q as [| | | | | |S R body x k]; try done. by apply (run_loop cf i w p S R body x k). Qed.

(** What the invariant keeps when things are added. *)
Record grows (g g' : state) : Prop := Grows {
  gr_conns : forall k cn, g_conns g !! k = Some cn -> g_conns g' !! k = Some cn;
  gr_own : forall x o, g_own g !! x = Some o -> g_own g' !! x = Some o;
}.

Lemma grows_same g g' : g_conns g' = g_conns g -> g_own g' = g_own g -> grows g g'.
Proof. intros E1 E2. constructor; intros; congruence. Qed.

Lemma client_holds_mono g g' i j s s' :
  grows g g' -> io_fds s' !! S i = io_fds s !! S i ->
  (forall x y, g_own g !! x = Some (OClient i) -> io_descs s !! x = Some y -> io_descs s' !! x = Some y) ->
  client_holds g i j s -> client_holds g' i j s'.
Proof.
  intros Hg Hf Hd Hc. destruct j as [|[|[|[|[|[|j]]]]]]; cbn in *; try done.
  { by rewrite Hf. }
  { destruct Hc as (d & Ht & Hs & Ho). exists d. rewrite Hf. split_and!; [done|by apply Hd|by apply Hg]. }
  all: destruct Hc as (k & cn & Hcn & Hi & Ht & Hs & Ho); exists k, cn; rewrite Hf;
    split_and!; [by apply Hg|done|done|by apply Hd|by apply Hg].
Qed.

Lemma conn_holds_mono g g' k cn s s' :
  grows g g' -> io_chans s' !! S (2 * k) = io_chans s !! S (2 * k) ->
  g_wk g' !! k = g_wk g !! k ->
  (forall j, g_cl g !! cn_client cn = Some j ->
     exists j', g_cl g' !! cn_client cn = Some j' /\ (j <= j')%nat /\ (4 <=? j')%nat = (4 <=? j)%nat) ->
  (unread (g_wk g !! k) = true -> forall y, io_descs s !! cn_e cn = Some y -> io_descs s' !! cn_e cn = Some y) ->
  conn_holds g k cn s -> conn_holds g' k cn s'.
Proof.
  intros Hg Hch Hw Hcl Hd (j & ch & Hj & Hle & H4 & Ho & Hc & Hb & He).
  destruct (Hcl j Hj) as (j' & Hj' & Hle' & E4). exists j', ch. rewrite Hch, Hw, E4.
  split_and!; [done|lia| |by apply Hg|done|done|intros Hu; apply Hd; auto].
  intros Hlt. apply H4. destruct (Nat.leb_spec 4 j), (Nat.leb_spec 4 j'); (done || lia).
Qed.

Definition move_client (g : state) (i j : nat) : state :=
  St (g_place g) (<[i := j]> (g_cl g)) (g_conns g) (g_wk g) (g_own g) (g_log g).

Lemma client_below g i j : ginv g -> g_cl g !! i = Some j -> (i < n)%nat.
Proof.
  intros Hg Hj. apply lookup_lt_Some in Hj. rewrite (gi_cl _ Hg) in Hj. pose proof (gi_place _ Hg) as Hp.
  destruct (g_place g); cbn in *; lia.
Qed.

(** The processes after a client's step. *)
Lemma pinv_client g g' w w' i j j' :
  ginv g -> pinv g w -> g_cl g !! i = Some j -> grows g g' ->
  g_place g' = g_place g -> g_cl g' = <[i := j']> (g_cl g) -> g_wk g' = g_wk g -> g_log g' = g_log g ->
  procs w' = <[S i := client_proc i j']> (procs w) -> out w' = out w -> errout w' = errout w ->
  pinv g' w'.
Proof.
  intros Hg Hw Hj Hgr Ep Ec Ew El Hp Ho He. pose proof (client_below _ _ _ Hg Hj) as Hi.
  assert (Hlen : (S i < length (procs w))%nat).
  { rewrite (pi_length _ _ Hw). apply lookup_lt_Some in Hj. lia. }
  constructor.
  - rewrite Hp, list_lookup_insert_ne, Ep by lia. apply Hw.
  - rewrite Hp, length_insert, Ec, Ew, length_insert. apply Hw.
  - intros i' j0. rewrite Hp, Ec. intros Hj0. destruct (decide (i' = i)) as [->|Hne].
    + rewrite list_lookup_insert_eq in Hj0 by (by eapply lookup_lt_Some). simplify_eq.
      by rewrite list_lookup_insert_eq.
    + rewrite list_lookup_insert_ne in Hj0 by done. rewrite list_lookup_insert_ne by lia.
      by apply Hw.
  - intros k j0. rewrite Ew. intros Hk. destruct (pi_workers _ _ Hw k j0 Hk) as (cn & Hcn & Hpk).
    exists cn. split; [by apply Hgr|]. rewrite Hp, list_lookup_insert_ne by lia. done.
  - rewrite Ho, El. apply Hw.
  - rewrite He. apply Hw.
Qed.

(** *** Clients *)

Lemma server_not_client g s k cn i :
  kinv g s -> g_conns g !! k = Some cn -> g_own g !! cn_e cn <> Some (OClient i) /\ cn_e cn <> 0%nat.
Proof.
  intros Hk Hcn. destruct (ki_conns _ _ Hk k cn Hcn) as (j & ch & _ & _ & _ & Ho & _).
  split; [congruence|]. intros E. rewrite E, (ki_own0 _ _ Hk) in Ho. discriminate Ho.
Qed.

(** What a step of client [i] from [j] to [j'] has to show. *)
Lemma kinv_client g g' s s' i j j' :
  ginv g -> kinv g s -> g_cl g !! i = Some j -> grows g g' ->
  g_place g' = g_place g -> g_cl g' = <[i := j']> (g_cl g) -> g_wk g' = g_wk g ->
  io_names s' = io_names s ->
  io_descs s' !! 0%nat =
    Some (DListen (APort port) false (cn_e <$> drop (accepted_by (g_place g)) (g_conns g'))) ->
  length (io_chans s') = (2 * length (g_conns g'))%nat -> length (g_own g') = length (io_descs s') ->
  length (io_fds s') = length (io_fds s) -> (forall x, x <> S i -> io_fds s' !! x = io_fds s !! x) ->
  (forall x y, g_own g !! x <> Some (OClient i) -> x <> 0%nat ->
     io_descs s !! x = Some y -> io_descs s' !! x = Some y) ->
  client_holds g' i j' s' ->
  (forall k cn, g_conns g' !! k = Some cn -> cn_client cn = i -> conn_holds g' k cn s') ->
  (forall k cn, g_conns g' !! k = Some cn -> cn_client cn <> i ->
     g_conns g !! k = Some cn /\ io_chans s' !! S (2 * k) = io_chans s !! S (2 * k)) ->
  kinv g' s'.
Proof.
  intros Hg Hk Hj Hgr Ep Ec Ew En Hl Hch Ho Hlf Hf Hd Hi Hmine Hothers.
  assert (Hwk : forall k, S (n + k) <> S i) by (intros k; pose proof (client_below _ _ _ Hg Hj); lia).
  constructor.
  - rewrite En. apply Hk.
  - by rewrite Ep.
  - done.
  - done.
  - apply Hgr, Hk.
  - rewrite Hlf, (ki_fds _ _ Hk), Ec, Ew. by rewrite length_insert.
  - destruct (ki_parent _ _ Hk) as (t & Ht & Hp). exists t. split; [by rewrite Hf by lia|].
    unfold parent_fds in *. rewrite Ep. destruct (g_place g); try done;
      destruct Hp as (cn & Hcn & ->); exists cn; (split; [by apply Hgr|done]).
  - intros i' j0. rewrite Ec. intros Hj0. destruct (decide (i' = i)) as [->|Hne].
    + rewrite list_lookup_insert_eq in Hj0 by (by eapply lookup_lt_Some). by simplify_eq.
    + rewrite list_lookup_insert_ne in Hj0 by done.
      apply (client_holds_mono g g' i' j0 s s'); [done|apply Hf; lia| |by apply Hk].
      intros x y Hx. apply Hd; [congruence|]. intros ->. rewrite (ki_own0 _ _ Hk) in Hx. discriminate Hx.
  - intros k cn Hcn. destruct (decide (cn_client cn = i)) as [E|Hne]; [by apply Hmine|].
    destruct (Hothers k cn Hcn Hne) as [Hold Hc].
    apply (conn_holds_mono g g' k cn s s'); [done|done|by rewrite Ew| | |by apply Hk].
    + intros j0 Hj0. exists j0. rewrite Ec, list_lookup_insert_ne by done. done.
    + intros _ y. destruct (server_not_client _ _ _ _ i Hk Hold). by apply Hd.
  - intros k. rewrite Ew. intros Hw. destruct (ki_workers _ _ Hk k Hw) as (cn & Hcn & Ht).
    exists cn. split; [by apply Hgr|]. by rewrite Hf.
Qed.

(** The connection of a client. *)
Lemma own_conn g s i j k cn :
  ginv g -> kinv g s -> g_cl g !! i = Some j -> g_conns g !! k = Some cn -> cn_client cn = i ->
  (2 <= j)%nat.
Proof.
  intros Hg Hk Hj Hcn <-. destruct (ki_conns _ _ Hk k cn Hcn) as (j' & ch & Hj' & Hle & _). by simplify_eq.
Qed.

Lemma same_conn g k k' cn cn' :
  ginv g -> g_conns g !! k = Some cn -> g_conns g !! k' = Some cn' -> cn_client cn = cn_client cn' -> k = k'.
Proof.
  intros Hg Hk Hk' E. eapply (NoDup_lookup (cn_client <$> g_conns g)); [apply Hg|..];
    rewrite list_lookup_fmap; [by rewrite Hk|by rewrite Hk', E].
Qed.

(** A client that goes on without changing what has been written. *)
Lemma kinv_move g s s' i j j' :
  ginv g -> kinv g s -> g_cl g !! i = Some j -> (2 <= j <= j')%nat -> (4 <=? j')%nat = (4 <=? j)%nat ->
  io_names s' = io_names s -> io_descs s' = io_descs s -> io_chans s' = io_chans s ->
  length (io_fds s') = length (io_fds s) -> (forall x, x <> S i -> io_fds s' !! x = io_fds s !! x) ->
  client_holds g i j' s' -> kinv (move_client g i j') s'.
Proof.
  intros Hg Hk Hj Hle E4 En Ed Ec Hlf Hf Hi.
  apply (kinv_client g _ s s' i j j'); try done.
  - rewrite Ed. apply Hk.
  - rewrite Ec. apply Hk.
  - rewrite Ed. apply Hk.
  - intros x y _ _. by rewrite Ed.
  - intros k cn Hcn E. apply (conn_holds_mono g _ k cn s s'); try done.
    + by rewrite Ec.
    + intros j0 Hj0. exists j'. cbn. rewrite E, list_lookup_insert_eq by (by eapply lookup_lt_Some).
      rewrite E in Hj0. simplify_eq. split_and!; [done|lia|done].
    + intros _ y. by rewrite Ed.
    + by apply Hk.
  - intros k cn Hcn _. split; [done|]. by rewrite Ec.
Qed.

Lemma ginv_move g i j j' :
  ginv g -> g_cl g !! i = Some j -> ((2 <= j')%nat -> (2 <= j)%nat) -> ginv (move_client g i j').
Proof.
  intros Hg Hj Hle. constructor; try apply Hg.
  - cbn. rewrite length_insert. apply Hg.
  - cbn. intros i' j0 Hj0 H2. destruct (decide (i' = i)) as [->|Hne].
    + rewrite list_lookup_insert_eq in Hj0 by (by eapply lookup_lt_Some). simplify_eq.
      eapply (gi_connected _ Hg); [exact Hj|auto].
    + rewrite list_lookup_insert_ne in Hj0 by done. by eapply Hg.
Qed.

(** The steps left: twice those of the children, so that the parent can go
    back to [wait], and the parent's own. *)
Definition place_mu (p : place) : nat :=
  match p with
  | PFork _ => 3 * n + 3
  | PAccept k => 3 * (n - k) + 2
  | PWork k => 3 * (n - k) + 1
  | PClose k => 3 * (n - k)
  | PReapL => 1
  | PReap => 0
  end%nat.
Definition mu (g : state) : nat :=
  (20 * (n - length (g_cl g)) + 2 * sumf (fun j => 8 - j)%nat (g_cl g) +
   20 * (n - length (g_wk g)) + 2 * sumf (fun j => 5 - j)%nat (g_wk g) + place_mu (g_place g))%nat.

Lemma mu_client g g' i j :
  g_cl g !! i = Some j -> (j <= 7)%nat ->
  g_place g' = g_place g -> g_cl g' = <[i := S j]> (g_cl g) -> g_wk g' = g_wk g -> (mu g' < mu g)%nat.
Proof.
  intros Hj Hle Ep Ec Ew. unfold mu. rewrite Ep, Ec, Ew, length_insert.
  pose proof (sumf_insert (fun j => 8 - j)%nat _ _ _ (S j) Hj) as Hs. cbv beta in Hs. lia.
Qed.

(** A state from which process [x] moves on. *)
Definition moves (x : nat) (g : state) (w : world io_call io) : Prop :=
  exists g' w', run_step cf x w = Some w' /\ inv g' w' /\ (mu g' < mu g)%nat.

(** A client's call that returns. *)
Lemma client_calls_to g g' w i j c r s' :
  inv g w -> g_cl g !! i = Some j -> (j < 6)%nat ->
  next_sys (client_at port (is_first i) j) = Some c -> client_replies (is_first i) !! j = Some r ->
  kexec (S i) c (kern w) = Done r s' -> grows g g' ->
  g_place g' = g_place g -> g_cl g' = <[i := S j]> (g_cl g) -> g_wk g' = g_wk g -> g_log g' = g_log g ->
  ginv g' -> kinv g' s' -> moves (S i) g w.
Proof.
  intros (Hg & Hk & Hw) Hj Hlt Hc Hr Hx Hgr Ep Ec Ew El Hg' Hk'.
  pose proof (pi_clients _ _ Hw i j Hj) as Hp.
  assert (Hl : p_stat (client_proc i j) = Live (client_at port (is_first i) j)).
  { unfold client_proc. cbn. by destruct (Nat.leb_spec j 6); [|lia]. }
  exists g', (set_kern s' (resume (S i) (client_proc i j) (client_at port (is_first i) (S j)) w)).
  split; [rewrite <- (client_next _ _ _ _ Hlt Hr); by eapply run_sys_adv|].
  split; [|by eapply mu_client; [exact Hj|lia|..]]. split; [done|]. split; [done|].
  apply (pinv_client g g' w _ i j (S j)); try done.
  unfold client_proc. by destruct (Nat.leb_spec (S j) 6); [|lia].
Qed.

Lemma client_loops g w i j :
  inv g w -> g_cl g !! i = Some j -> j = 2%nat \/ j = 4%nat -> moves (S i) g w.
Proof.
  intros (Hg & Hk & Hw) Hj Hcase. pose proof (pi_clients _ _ Hw i j Hj) as Hp.
  pose proof (client_calls port (is_first i)) as (_ & _ & L2 & _ & L4 & _).
  exists (move_client g i (S j)), (resume (S i) (client_proc i j) (client_at port (is_first i) (S j)) w).
  assert (Hnext : adv [ok 0] (client_at port (is_first i) j) = client_at port (is_first i) (S j)).
  { apply client_next; [lia|]. by destruct Hcase as [-> | ->]. }
  split; [|split; [|by eapply mu_client; [exact Hj|lia|..]]].
  - rewrite <- Hnext. apply run_loop_adv; [done| |by destruct Hcase as [-> | ->]].
    by destruct Hcase as [-> | ->].
  - split; [apply (ginv_move g i j); [done|done|lia]|]. split.
    + apply (kinv_move g (kern w) (kern w) i j); try done; [lia|by destruct Hcase as [-> | ->]|].
      pose proof (ki_clients _ _ Hk i j Hj) as Hc. by destruct Hcase as [-> | ->].
    + apply (pinv_client g _ w _ i j (S j)); try done. cbn. by destruct Hcase as [-> | ->].
Qed.

Lemma client_socket g w i : inv g w -> g_cl g !! i = Some 0%nat -> moves (S i) g w.
Proof.
  intros Hinv Hj. pose proof Hinv as (Hg & Hk & Hw). pose proof (ki_clients _ _ Hk i 0 Hj) as Hc. cbn in Hc.
  assert (Hlt : (S i < length (io_fds (kern w)))%nat) by (by eapply lookup_lt_Some).
  set (g' := St (g_place g) (<[i := 1%nat]> (g_cl g)) (g_conns g) (g_wk g) (g_own g ++ [OClient i]) (g_log g)).
  assert (Hgr : grows g g').
  { constructor; [done|]. intros x o Hx. cbn. by apply lookup_app_l_Some. }
  eapply (client_calls_to g g' w i 0);
    [done|done|lia|apply client_calls|done|by apply k_socket|done|done|done|done|done| |].
  - pose proof (ginv_move g i 0 1 Hg Hj ltac:(lia)) as Hm. by destruct Hm; constructor.
  - apply (kinv_client g g' (kern w) _ i 0 1); try done; cbn.
    + rewrite lookup_app_l by (eapply lookup_lt_Some, (ki_listen _ _ Hk)). apply Hk.
    + apply Hk.
    + rewrite !length_app, (ki_own _ _ Hk). done.
    + apply length_insert.
    + intros x Hx. by rewrite list_lookup_insert_ne by done.
    + intros x y _ _ Hx. by apply lookup_app_l_Some.
    + exists (length (io_descs (kern w))). split_and!.
      * by rewrite list_lookup_insert_eq.
      * by rewrite lookup_app_r, Nat.sub_diag by lia.
      * rewrite <- (ki_own _ _ Hk), lookup_app_r, Nat.sub_diag by lia. done.
    + intros k cn Hcn E. pose proof (own_conn _ _ _ _ _ _ Hg Hk Hj Hcn E). lia.
Qed.

Lemma workers_accepted g : ginv g -> (length (g_wk g) <= accepted_by (g_place g))%nat.
Proof. intros Hg. rewrite (gi_wk _ Hg). destruct (g_place g); cbn; lia. Qed.

Lemma not_connected g s i : ginv g -> kinv g s -> g_cl g !! i = Some 1%nat -> i ∉ cn_client <$> g_conns g.
Proof.
  intros Hg Hk Hj Hin. apply list_elem_of_fmap in Hin as (cn & E & Hin).
  apply list_elem_of_lookup in Hin as [k Hcn]. pose proof (own_conn _ _ _ _ _ _ Hg Hk Hj Hcn (eq_sym E)). lia.
Qed.

Definition connect_client_to (g : state) (i d e : nat) : state :=
  St (g_place g) (<[i := 2%nat]> (g_cl g)) (g_conns g ++ [Conn i d e]) (g_wk g)
     (g_own g ++ [OServer (length (g_conns g))]) (g_log g).

Lemma ginv_connect g s i d e :
  ginv g -> kinv g s -> g_cl g !! i = Some 1%nat -> ginv (connect_client_to g i d e).
Proof.
  intros Hg Hk Hj. pose proof (not_connected _ _ _ Hg Hk Hj) as Hnew.
  constructor; cbn; try apply Hg.
  - rewrite length_insert. apply Hg.
  - rewrite length_app. pose proof (gi_acc _ Hg). lia.
  - rewrite fmap_app. apply NoDup_app. split; [apply Hg|]. split.
    + intros x Hx Hx'. cbn in Hx'. apply list_elem_of_singleton in Hx' as ->. done.
    + apply NoDup_singleton.
  - intros i' j Hj' H2. rewrite fmap_app. apply elem_of_app. destruct (decide (i' = i)) as [->|Hne].
    + right. constructor.
    + left. rewrite list_lookup_insert_ne in Hj' by done. by eapply Hg.
  - intros c. rewrite (gi_logged _ Hg c). split; intros (k & cn & ph & Hcn & Hc & Hph & Hle).
    + exists k, cn, ph. split; [by apply lookup_app_l_Some|done].
    + exists k, cn, ph. split; [|done]. rewrite lookup_app_l in Hcn; [done|].
      apply lookup_lt_Some in Hph. pose proof (workers_accepted _ Hg). pose proof (gi_acc _ Hg). lia.
Qed.

Lemma client_connects g w i : inv g w -> g_cl g !! i = Some 1%nat -> moves (S i) g w.
Proof.
  intros Hinv Hj. pose proof Hinv as (Hg & Hk & Hw).
  destruct (ki_clients _ _ Hk i 1 Hj) as (d & Hf & Hd & Ho).
  set (K := length (g_conns g)). set (e := length (io_descs (kern w))).
  set (g' := connect_client_to g i d e).
  assert (Hd0 : d <> 0%nat) by (intros ->; rewrite (ki_own0 _ _ Hk) in Ho; discriminate Ho).
  assert (Hde : (d < e)%nat) by (by eapply lookup_lt_Some).
  assert (Hoe : length (g_own g) = e) by apply Hk.
  assert (Hch : length (io_chans (kern w)) = (2 * K)%nat) by apply Hk.
  eapply (client_calls_to g g' w i 1);
    [done|done|lia|apply client_calls|done| | |done|done|done|done|by eapply ginv_connect|].
  { eapply k_connect; [done|done|apply Hk|apply Hk|exact Hch|done]. }
  { constructor; intros; by apply lookup_app_l_Some. }
  apply (kinv_client g g' (kern w) _ i 1 2); try done; cbn.
  - constructor; intros; by apply lookup_app_l_Some.
  - rewrite list_lookup_insert_eq by (rewrite length_app, length_insert; lia).
    rewrite drop_app_le by apply Hg. by rewrite fmap_app.
  - rewrite !length_app, Hch. cbn. fold K. lia.
  - rewrite length_insert, !length_app, length_insert, Hoe. done.
  - intros x y Hx Hx0 Hy. assert (x <> d) by congruence.
    rewrite list_lookup_insert_ne by done. apply lookup_app_l_Some. by rewrite list_lookup_insert_ne.
  - exists K, (Conn i d e). cbn. split_and!; try done.
    + by rewrite lookup_app_r, Nat.sub_diag by done.
    + rewrite list_lookup_insert_ne by done. apply lookup_app_l_Some.
      by rewrite list_lookup_insert_eq by done.
    + by apply lookup_app_l_Some.
  - intros k cn Hcn E. apply lookup_snoc_Some in Hcn as [[_ Hcn]|[-> <-]]; fold K.
    { pose proof (own_conn _ _ _ _ _ _ Hg Hk Hj Hcn E). lia. }
    exists 2%nat, (Chan [] 0 0 []). cbn. split_and!; try done.
    + apply list_lookup_insert_eq. by eapply lookup_lt_Some.
    + intros _. rewrite lookup_ge_None_2; [done|].
      pose proof (workers_accepted _ Hg). pose proof (gi_acc _ Hg). unfold K. lia.
    + rewrite lookup_app_r by lia. by rewrite Hoe, Nat.sub_diag.
    + rewrite lookup_app_r by (rewrite length_app, Hch; cbn; lia).
      rewrite length_app, Hch. cbn. by replace (S (K + (K + 0)) - (K + (K + 0) + 1))%nat with 0%nat by lia.
    + intros _. rewrite list_lookup_insert_ne by lia.
      rewrite lookup_app_r by (rewrite length_insert; lia).
      by rewrite length_insert, Nat.sub_diag.
  - intros k cn Hcn E. apply lookup_snoc_Some in Hcn as [[Hlt Hcn]|[-> <-]]; [|done]. split; [done|].
    rewrite <- app_assoc. apply lookup_app_l. rewrite Hch. lia.
Qed.

Lemma text_size first : text first <> [] /\ (length (text first) <= 63)%nat /\ blen (text first) <= PIPE_CAPACITY.
Proof. destruct first; (split; [done|]; split; [vm_compute; lia|vm_compute; congruence]). Qed.

Lemma client_writes g w i : inv g w -> g_cl g !! i = Some 3%nat -> moves (S i) g w.
Proof.
  intros Hinv Hj. pose proof Hinv as (Hg & Hk & Hw).
  destruct (ki_clients _ _ Hk i 3 Hj) as (k & cn & Hcn & Hi & Hf & Hd & Ho).
  destruct (ki_conns _ _ Hk k cn Hcn) as (j & ch & Hj' & _ & H4 & Hoe & Hch & Hb & He).
  rewrite Hi, Hj in Hj'. simplify_eq. specialize (H4 ltac:(lia)). specialize (He H4). cbn in Hb.
  pose proof (client_calls port (is_first (cn_client cn))) as (_ & _ & _ & Hcall & _).
  destruct (text_size (is_first (cn_client cn))) as (_ & _ & Hsize).
  eapply (client_calls_to g (move_client g (cn_client cn) 4) w (cn_client cn) 3);
    [done|done|lia|exact Hcall|done| |done|done|done|done|done|apply (ginv_move g _ 3); [done|done|lia]|].
  { eapply k_write; [done|done|done|done|done|exact He|]. cbn. by rewrite Nat.eqb_refl. }
  apply (kinv_client g _ (kern w) _ (cn_client cn) 3 4); try done.
  - apply Hk.
  - cbn. rewrite length_insert. apply Hk.
  - apply Hk.
  - exists k, cn. done.
  - intros k' cn' Hcn' E. cbn in Hcn'. pose proof (same_conn _ _ _ _ _ Hg Hcn' Hcn E) as ->. simplify_eq.
    eexists 4%nat, _. cbn. split_and!; try done; try lia.
    + apply list_lookup_insert_eq. by eapply lookup_lt_Some.
    + apply list_lookup_insert_eq. by eapply lookup_lt_Some.
    + cbn. by rewrite H4.
  - intros k' cn' Hcn' E. split; [done|]. cbn. apply list_lookup_insert_ne. intros E'.
    assert (k = k') as -> by lia. cbn in Hcn'. by simplify_eq.
Qed.

Lemma kinv_leave g s i j j' t :
  ginv g -> kinv g s -> g_cl g !! i = Some j -> (5 <= j)%nat -> (6 <= j')%nat -> (j <= j')%nat ->
  kinv (move_client g i j') (released (set_fds s (<[S i := t]> (io_fds s)))).
Proof.
  intros Hg Hk Hj H5 H6 Hle.
  apply kinv_released; [apply (ginv_move g i j); [done|done|lia]|].
  apply (kinv_move g s _ i j); try done.
  - lia.
  - destruct (Nat.leb_spec 4 j), (Nat.leb_spec 4 j'); (done || lia).
  - apply length_insert.
  - intros x Hx. cbn. by rewrite list_lookup_insert_ne.
  - by destruct j' as [|[|[|[|[|[|j']]]]]]; try lia.
Qed.

Lemma client_closes g w i : inv g w -> g_cl g !! i = Some 5%nat -> moves (S i) g w.
Proof.
  intros Hinv Hj. pose proof Hinv as (Hg & Hk & Hw).
  destruct (ki_clients _ _ Hk i 5 Hj) as (k & cn & Hcn & Hi & Hf & Hd & Ho).
  eapply (client_calls_to g (move_client g i 6) w i 5);
    [done|done|lia|apply client_calls|done|by eapply k_close|done|done|done|done|done
    |apply (ginv_move g _ 5); [done|done|lia]|].
  apply (kinv_leave g (kern w) i 5 6); (done || lia).
Qed.

Lemma client_exits g w i : inv g w -> g_cl g !! i = Some 6%nat -> moves (S i) g w.
Proof.
  intros (Hg & Hk & Hw) Hj. pose proof (pi_clients _ _ Hw i 6 Hj) as Hp.
  pose proof (client_calls port (is_first i)) as (_ & _ & _ & _ & _ & _ & E6).
  eexists (move_client g i 7), _. split; [|split; [|by eapply mu_client; [exact Hj|lia|..]]].
  - unfold run_step. rewrite Hp. unfold client_proc. cbn [p_stat Nat.leb]. rewrite E6. reflexivity.
  - split; [apply (ginv_move g _ 6); [done|done|lia]|]. split.
    + apply (kinv_leave g (kern w) i 6 7); (done || lia).
    + by apply (pinv_client g _ w _ i 6 7).
Qed.

Lemma client_moves g w i j : inv g w -> g_cl g !! i = Some j -> (j <= 6)%nat -> moves (S i) g w.
Proof.
  intros Hinv Hj Hle. destruct j as [|[|[|[|[|[|[|j]]]]]]]; [..|lia].
  - by apply client_socket.
  - by apply client_connects.
  - apply (client_loops g w i 2); auto.
  - by apply client_writes.
  - apply (client_loops g w i 4); auto.
  - by apply client_closes.
  - by apply client_exits.
Qed.

(** *** Workers *)

Definition threshold : nat := if tty cf then 2 else 3.
Definition move_worker (g : state) (k j : nat) (log : list nat) : state :=
  St (g_place g) (g_cl g) (g_conns g) (<[k := j]> (g_wk g)) (g_own g) log.
Definition log_after (g : state) (c j : nat) : list nat :=
  if (j =? threshold)%nat then g_log g ++ [c] else g_log g.

Lemma ginv_worker g k j cn :
  ginv g -> g_wk g !! k = Some j -> g_conns g !! k = Some cn ->
  ginv (move_worker g k (S j) (log_after g (cn_client cn) (S j))).
Proof.
  intros Hg Hj Hcn. set (c0 := cn_client cn).
  assert (Hlk : forall k' ph, <[k := S j]> (g_wk g) !! k' = Some ph ->
    (k' = k /\ ph = S j) \/ (k' <> k /\ g_wk g !! k' = Some ph)).
  { intros k' ph. destruct (decide (k' = k)) as [->|Hne].
    - rewrite list_lookup_insert_eq by (by eapply lookup_lt_Some). intros [= <-]. by left.
    - rewrite list_lookup_insert_ne by done. by right. }
  assert (Hold : forall c, c ∈ g_log g -> exists k' cn' ph, g_conns g !! k' = Some cn' /\ cn_client cn' = c /\
    <[k := S j]> (g_wk g) !! k' = Some ph /\ (threshold <= ph)%nat).
  { intros c Hc. apply (gi_logged _ Hg) in Hc as (k' & cn' & ph & Hcn' & E & Hph & Hle).
    destruct (decide (k' = k)) as [->|Hne].
    - exists k, cn', (S j). simplify_eq. split_and!; [done|done| |].
      + apply list_lookup_insert_eq. by eapply lookup_lt_Some.
      + unfold threshold. lia.
    - exists k', cn', ph. by rewrite list_lookup_insert_ne. }
  assert (Hnew : (S j = threshold)%nat -> c0 ∉ g_log g).
  { intros ET Hc. apply (gi_logged _ Hg) in Hc as (k' & cn' & ph & Hcn' & E & Hph & Hle).
    pose proof (same_conn _ _ _ _ _ Hg Hcn' Hcn E) as ->. simplify_eq. unfold threshold in ET. lia. }
  unfold log_after. constructor; cbn [move_worker g_place g_cl g_conns g_wk g_own g_log]; try apply Hg.
  - rewrite length_insert. apply Hg.
  - destruct (Nat.eqb_spec (S j) threshold) as [ET|]; [|apply Hg].
    apply NoDup_app. split; [apply Hg|]. split; [|apply NoDup_singleton].
    intros x Hx Hx'. apply list_elem_of_singleton in Hx' as ->. by apply Hnew.
  - fold threshold. intros c. split.
    + destruct (Nat.eqb_spec (S j) threshold) as [ET|]; [|apply Hold].
      intros [Hc|Hc]%elem_of_app; [by apply Hold|]. apply list_elem_of_singleton in Hc as ->.
      exists k, cn, (S j). split_and!; [done|done| |lia].
      apply list_lookup_insert_eq. by eapply lookup_lt_Some.
    + intros (k' & cn' & ph & Hcn' & E & Hph & Hle). apply Hlk in Hph as [[-> ->]|[Hne Hph]].
      * simplify_eq. destruct (Nat.eqb_spec (S j) threshold) as [ET|HT].
        { apply elem_of_app. right. constructor. }
        apply (gi_logged _ Hg). eexists k, _, j. split_and!; [done|done|done|]. fold threshold. lia.
      * assert (Hin : c ∈ g_log g) by (apply (gi_logged _ Hg); exists k', cn', ph; done).
        destruct (_ =? _)%nat; [by apply elem_of_app; left|done].
Qed.

Lemma kinv_worker g s s' k j j' log :
  kinv g s -> g_wk g !! k = Some j -> (0 < j')%nat ->
  io_names s' = io_names s -> io_descs s' = io_descs s ->
  length (io_chans s') = length (io_chans s) ->
  (forall x, x <> S (2 * k) -> io_chans s' !! x = io_chans s !! x) ->
  length (io_fds s') = length (io_fds s) -> (forall x, x <> S (n + k) -> io_fds s' !! x = io_fds s !! x) ->
  (length (g_cl g) <= n)%nat ->
  (forall cn, g_conns g !! k = Some cn -> conn_holds (move_worker g k j' log) k cn s') ->
  kinv (move_worker g k j' log) s'.
Proof.
  intros Hk Hj Hj' En Ed Hlc Hc Hlf Hf Hcl Hmine.
  assert (Hgr : grows g (move_worker g k j' log)) by (by apply grows_same).
  constructor; cbn.
  - rewrite En. apply Hk.
  - rewrite Ed. apply Hk.
  - rewrite Hlc. apply Hk.
  - rewrite Ed. apply Hk.
  - apply Hk.
  - rewrite Hlf, length_insert. apply Hk.
  - destruct (ki_parent _ _ Hk) as (t & Ht & Hp). exists t. split; [by rewrite Hf by lia|done].
  - intros i j0 Hj0. apply (client_holds_mono g _ i j0 s s'); [done| | |by apply Hk].
    + apply Hf. apply lookup_lt_Some in Hj0. lia.
    + intros x y _. by rewrite Ed.
  - intros k' cn Hcn. destruct (decide (k' = k)) as [->|Hne]; [by apply Hmine|].
    apply (conn_holds_mono g _ k' cn s s'); [done|apply Hc; lia| | | |by apply Hk].
    + cbn. by rewrite list_lookup_insert_ne.
    + intros j0 Hj0. by exists j0.
    + intros _ y. by rewrite Ed.
  - intros k' Hk'. destruct (decide (k' = k)) as [->|Hne].
    + rewrite list_lookup_insert_eq in Hk' by (by eapply lookup_lt_Some). simplify_eq. lia.
    + rewrite list_lookup_insert_ne in Hk' by done.
      destruct (ki_workers _ _ Hk k' Hk') as (cn & Hcn & Ht). exists cn. split; [done|]. by rewrite Hf by lia.
Qed.

Lemma clients_most g : ginv g -> (length (g_cl g) <= n)%nat.
Proof.
  intros Hg. rewrite (gi_cl _ Hg). pose proof (gi_place _ Hg). destruct (g_place g); cbn in *; lia.
Qed.

(** With workers, every client has been forked. *)
Lemma workers_all g k j : ginv g -> g_wk g !! k = Some j -> length (g_cl g) = n.
Proof.
  intros Hg Hj. apply lookup_lt_Some in Hj. rewrite (gi_wk _ Hg) in Hj. rewrite (gi_cl _ Hg).
  destruct (g_place g); cbn in *; lia.
Qed.

Lemma pinv_worker g w w' k j cn :
  ginv g -> pinv g w -> g_wk g !! k = Some j -> g_conns g !! k = Some cn ->
  procs w' = <[S (n + k) := worker_proc (cn_client cn) (S j)]> (procs w) ->
  out w' = concat (line <$> log_after g (cn_client cn) (S j)) -> errout w' = errout w ->
  pinv (move_worker g k (S j) (log_after g (cn_client cn) (S j))) w'.
Proof.
  intros Hg Hw Hj Hcn Hp Ho He. pose proof (workers_all _ _ _ Hg Hj) as Hn.
  assert (Hlen : (S (n + k) < length (procs w))%nat).
  { rewrite (pi_length _ _ Hw), Hn. apply lookup_lt_Some in Hj. lia. }
  constructor; cbn.
  - rewrite Hp, list_lookup_insert_ne by lia. apply Hw.
  - rewrite Hp, !length_insert. apply Hw.
  - intros i j0 Hj0. rewrite Hp, list_lookup_insert_ne; [by apply Hw|].
    apply lookup_lt_Some in Hj0. lia.
  - intros k' j0 Hk'. rewrite Hp. destruct (decide (k' = k)) as [->|Hne].
    + rewrite list_lookup_insert_eq in Hk' by (by eapply lookup_lt_Some). simplify_eq.
      exists cn. split; [done|]. by apply list_lookup_insert_eq.
    + rewrite list_lookup_insert_ne in Hk' by done. destruct (pi_workers _ _ Hw k' j0 Hk') as (cn' & Hcn' & E).
      exists cn'. split; [done|]. by rewrite list_lookup_insert_ne by lia.
  - done.
  - rewrite He. apply Hw.
Qed.

Lemma mu_worker g k j log :
  g_wk g !! k = Some j -> (j <= 4)%nat -> (mu (move_worker g k (S j) log) < mu g)%nat.
Proof.
  intros Hj Hle. unfold mu. cbn [g_cl g_wk g_place move_worker]. rewrite length_insert.
  pose proof (sumf_insert (fun j => 5 - j)%nat _ _ _ (S j) Hj) as Hs. cbv beta in Hs. lia.
Qed.

Lemma next_proc_Some {C A} (q : prog C A) c :
  next_proc q = Some c -> exists k, q = Proc c k /\ forall r, adv [r] q = k r.
Proof. destruct q; try done. intros [= ->]. by eexists. Qed.

Lemma line_text c : line c = B "tcp worker echo: " ++ text (is_first c).
Proof. done. Qed.

Lemma line_put c : stdio_put cf [] (line c) = if tty cf then (line c, []) else ([], line c).
Proof.
  unfold stdio_put. destruct (tty cf); [|done]. unfold line, text. by destruct (is_first c).
Qed.

Lemma worker_stat c j : (j <= 3)%nat -> p_stat (worker_proc c j) = Live (worker_at (is_first c) j).
Proof. intros Hj. unfold worker_proc. cbn. by destruct (Nat.leb_spec j 3); [|lia]. Qed.

(** A connection whose worker has not read: it can, or the client is about
    to write. *)
Lemma worker_reads g w k :
  inv g w -> g_wk g !! k = Some 0%nat ->
  moves (S (n + k)) g w \/
  (run_step cf (S (n + k)) w = None /\ exists i j, g_cl g !! i = Some j /\ (j <= 6)%nat).
Proof.
  intros (Hg & Hk & Hw) Hj. destruct (ki_workers _ _ Hk k Hj) as (cn & Hcn & Hf).
  destruct (ki_conns _ _ Hk k cn Hcn) as (j & ch & Hcl & Hle & H4 & Ho & Hch & Hb & He).
  destruct (pi_workers _ _ Hw k 0 Hj) as (cn' & Hcn' & Hp). rewrite Hcn in Hcn'. injection Hcn' as <-.
  pose proof (worker_calls (is_first (cn_client cn))) as (Hcall & _).
  pose proof (worker_stat (cn_client cn) 0 ltac:(lia)) as Hs.
  rewrite Hj in He, Hb. specialize (He eq_refl). cbn [unread] in Hb. rewrite andb_true_r in Hb.
  destruct (Nat.leb_spec 4 j) as [Hw4|Hw4].
  - left. destruct (text_size (is_first (cn_client cn))) as (Hne & Hsz & _). rewrite <- Hb in Hne, Hsz.
    pose proof (k_read (S (n + k)) (kern w) _ _ _ _ ch Hf He Hch Hne Hsz) as Hr. rewrite Hb in Hr.
    assert (Hlog : log_after g (cn_client cn) 1 = g_log g) by (unfold log_after, threshold; by destruct (tty cf)).
    eexists (move_worker g k 1 (log_after g (cn_client cn) 1)), _.
    split; [by eapply run_sys_adv|]. split; [|apply (mu_worker g k 0); [done|lia]].
    split; [by apply ginv_worker|]. split.
    + apply (kinv_worker g (kern w) _ k 0); try done; try lia.
      * cbn. apply length_insert.
      * intros x Hx. cbn. by rewrite list_lookup_insert_ne.
      * by apply clients_most.
      * intros cn0 Hcn0. rewrite Hcn in Hcn0. injection Hcn0 as <-.
        eexists j, _. cbn. rewrite list_lookup_insert_eq by (by eapply lookup_lt_Some). cbn.
        split_and!; try done; [lia|apply list_lookup_insert_eq; by eapply lookup_lt_Some|].
        cbn. by rewrite andb_false_r.
    + apply (pinv_worker g w _ k 0 cn); try done. rewrite Hlog. apply Hw.
  - right. split; [|exists (cn_client cn), j; split; [done|lia]].
    eapply run_sys_blocks; [done|done|done|].
    assert (Hd : io_descs (kern w) !! cn_d cn = Some (DStream (2 * k) (S (2 * k)) false true)).
    { pose proof (ki_clients _ _ Hk _ _ Hcl) as Hc.
      destruct j as [|[|[|[|j]]]]; try lia; destruct Hc as (k' & cn' & Hcn' & E & _ & Hd & _);
        pose proof (same_conn _ _ _ _ _ Hg Hcn' Hcn E) as ->; rewrite Hcn in Hcn'; by injection Hcn' as <-. }
    eapply k_read_blocks; [done|done|done|done|exact Hd|]. cbn. by rewrite Nat.eqb_refl.
Qed.

(** Printing, flushing and exiting leave the kernel's part as it is. *)
Lemma kinv_worker_on g s k j log :
  ginv g -> kinv g s -> g_wk g !! k = Some j -> (1 <= j)%nat -> kinv (move_worker g k (S j) log) s.
Proof.
  intros Hg Hk Hj H1. apply (kinv_worker g s s k j); try done; [lia|by apply clients_most|].
  intros cn Hcn. destruct (ki_conns _ _ Hk k cn Hcn) as (jc & ch & Hcl & Hle & H4 & Ho & Hch & Hb & He).
  rewrite Hj in H4, Hb, He. exists jc, ch. cbn.
  rewrite list_lookup_insert_eq by (by eapply lookup_lt_Some). destruct j as [|j]; [lia|]. by split_and!.
Qed.

Lemma worker_prints g w k : inv g w -> g_wk g !! k = Some 1%nat -> moves (S (n + k)) g w.
Proof.
  intros (Hg & Hk & Hw) Hj. destruct (pi_workers _ _ Hw k 1 Hj) as (cn & Hcn & Hp).
  pose proof (worker_calls (is_first (cn_client cn))) as (_ & Hcall & _).
  pose proof (worker_stat (cn_client cn) 1 ltac:(lia)) as Hs.
  apply next_proc_Some in Hcall as (kk & Eq & Hadv).
  exists (move_worker g k 2 (log_after g (cn_client cn) 2)),
    (emit (if tty cf then line (cn_client cn) else [])
       (set_proc (S (n + k)) (worker_proc (cn_client cn) 2) w)).
  split; [|split; [|apply (mu_worker g k 1); [done|lia]]].
  - erewrite run_proc; [|done|by rewrite Hs, Eq]. cbn [exec_proc]. rewrite <- line_text.
    change (p_obuf (worker_proc (cn_client cn) 1)) with (@nil ascii). rewrite line_put.
    rewrite <- Hadv, (worker_next (is_first (cn_client cn)) 1) by done.
    unfold worker_proc. by destruct (tty cf).
  - split; [by apply ginv_worker|]. split.
    + by apply kinv_worker_on.
    + apply (pinv_worker g w _ k 1 cn); try done.
      unfold log_after, threshold. destruct (tty cf); cbn.
      * rewrite fmap_app, concat_app, (pi_out _ _ Hw). cbn. by rewrite app_nil_r.
      * rewrite app_nil_r. apply Hw.
Qed.

Lemma worker_flushes g w k : inv g w -> g_wk g !! k = Some 2%nat -> moves (S (n + k)) g w.
Proof.
  intros (Hg & Hk & Hw) Hj. destruct (pi_workers _ _ Hw k 2 Hj) as (cn & Hcn & Hp).
  pose proof (worker_calls (is_first (cn_client cn))) as (_ & _ & Hcall & _).
  pose proof (worker_stat (cn_client cn) 2 ltac:(lia)) as Hs.
  apply next_proc_Some in Hcall as (kk & Eq & Hadv).
  eexists (move_worker g k 3 (log_after g (cn_client cn) 3)), _.
  split; [|split; [|apply (mu_worker g k 2); [done|lia]]].
  - erewrite run_proc; [|done|by rewrite Hs, Eq]. reflexivity.
  - rewrite <- Hadv, (worker_next (is_first (cn_client cn)) 2) by done.
    split; [by apply ginv_worker|]. split; [apply kinv_worker_on; (done || lia)|].
    apply (pinv_worker g w _ k 2 cn); try done.
    unfold log_after, threshold, worker_proc. destruct (tty cf); cbn.
    + rewrite app_nil_r. apply Hw.
    + rewrite fmap_app, concat_app, (pi_out _ _ Hw). cbn. by rewrite app_nil_r.
Qed.

Lemma worker_exits g w k : inv g w -> g_wk g !! k = Some 3%nat -> moves (S (n + k)) g w.
Proof.
  intros (Hg & Hk & Hw) Hj. destruct (pi_workers _ _ Hw k 3 Hj) as (cn & Hcn & Hp).
  pose proof (worker_calls (is_first (cn_client cn))) as (_ & _ & _ & E3).
  assert (Hlog : log_after g (cn_client cn) 4 = g_log g) by (unfold log_after, threshold; by destruct (tty cf)).
  eexists (move_worker g k 4 (log_after g (cn_client cn) 4)), _.
  split; [|split; [|apply (mu_worker g k 3); [done|lia]]].
  - unfold run_step. rewrite Hp. unfold worker_proc. cbn [p_stat Nat.leb]. rewrite E3. reflexivity.
  - assert (Hg' : ginv (move_worker g k 4 (log_after g (cn_client cn) 4))) by (by apply ginv_worker).
    split; [done|]. split.
    + apply (kinv_released _ (set_fds (kern w) (<[S (n + k) := []]> (io_fds (kern w))))); [done|].
      apply (kinv_worker g (kern w) _ k 3); try done; try lia.
      * cbn. apply length_insert.
      * intros x Hx. cbn. by rewrite list_lookup_insert_ne.
      * by apply clients_most.
      * intros cn' Hcn'. pose proof (kinv_worker_on g (kern w) k 3 (log_after g (cn_client cn) 4) Hg Hk Hj ltac:(lia)) as Hon.
        by apply (ki_conns _ _ Hon).
    + apply (pinv_worker g w _ k 3 cn); try done. rewrite Hlog. apply Hw.
Qed.

(** *** The parent *)

Definition put_place (g : state) (p : place) : state :=
  St p (g_cl g) (g_conns g) (g_wk g) (g_own g) (g_log g).

Lemma ginv_place g p :
  ginv g -> place_ok p -> clients_by p = clients_by (g_place g) -> workers_by p = workers_by (g_place g) ->
  (accepted_by p <= length (g_conns g))%nat -> ginv (put_place g p).
Proof.
  intros Hg Hp Hc Hw Ha. constructor; cbn; try apply Hg; try done.
  - rewrite Hc. apply Hg.
  - rewrite Hw. apply Hg.
Qed.

Lemma pinv_place g w w' p :
  pinv g w -> procs w' = <[0%nat := Process (Live (parent_at n port p)) None []]> (procs w) ->
  out w' = out w -> errout w' = errout w -> pinv (put_place g p) w'.
Proof.
  intros Hw Hp Ho He. assert (Hlen : (0 < length (procs w))%nat) by (rewrite (pi_length _ _ Hw); lia).
  constructor; cbn; rewrite ?Hp, ?Ho, ?He; try apply Hw.
  - by apply list_lookup_insert_eq.
  - rewrite length_insert. apply Hw.
  - intros i j Hj. rewrite list_lookup_insert_ne by lia. by apply Hw.
  - intros k j Hj. rewrite list_lookup_insert_ne by lia. by apply Hw.
Qed.

Lemma kinv_place g s s' p t :
  kinv g s -> io_names s' = io_names s -> io_chans s' = io_chans s ->
  length (io_descs s') = length (io_descs s) ->
  io_descs s' !! 0%nat = Some (DListen (APort port) false (cn_e <$> drop (accepted_by p) (g_conns g))) ->
  (forall x, x <> 0%nat -> io_descs s' !! x = io_descs s !! x) ->
  length (io_fds s') = length (io_fds s) -> io_fds s' !! 0%nat = Some t -> parent_fds (put_place g p) t ->
  (forall x, x <> 0%nat -> io_fds s' !! x = io_fds s !! x) ->
  kinv (put_place g p) s'.
Proof.
  intros Hk En Ec Hld Hl Hd Hlf Ht Hp Hf.
  assert (Hgr : grows g (put_place g p)) by (by apply grows_same).
  constructor; cbn.
  - rewrite En. apply Hk.
  - done.
  - rewrite Ec. apply Hk.
  - rewrite Hld. apply Hk.
  - apply Hk.
  - rewrite Hlf. apply Hk.
  - by exists t.
  - intros i j Hj. apply (client_holds_mono g _ i j s s'); [done|by apply Hf| |by apply Hk].
    intros x y Hx. rewrite Hd; [done|]. intros ->. rewrite (ki_own0 _ _ Hk) in Hx. discriminate Hx.
  - intros k cn Hcn. apply (conn_holds_mono g _ k cn s s'); [done|by rewrite Ec|done| | |by apply Hk].
    + intros j Hj. by exists j.
    + intros _ y. rewrite Hd; [done|]. by apply (server_not_client _ _ _ _ 0 Hk Hcn).
  - intros k Hj. destruct (ki_workers _ _ Hk k Hj) as (cn & Hcn & Ht'). exists cn. by rewrite Hf.
Qed.

Lemma mu_place g p : (place_mu p < place_mu (g_place g))%nat -> (mu (put_place g p) < mu g)%nat.
Proof. unfold mu. cbn [put_place g_cl g_wk g_place]. lia. Qed.

(** Forking: the new process stands at the start of its code, with a copy
    of the parent's descriptors. *)
Lemma run_fork g w q :
  pinv g w -> next_proc (parent_at n port (g_place g)) = Some Fork ->
  adv [ok 0] (parent_at n port (g_place g)) = q ->
  run_step cf 0 w = Some (World
    (<[0%nat := Process (Live (adv [ok (pid_of cf (length (procs w)))] (parent_at n port (g_place g)))) None []]> (procs w) ++
     [Process (Live q) (Some 0%nat) []])
    (set_fds (kern w) (io_fds (kern w) ++ [fd_table (kern w) 0])) (out w) (errout w)).
Proof.
  intros Hw Hc <-. apply next_proc_Some in Hc as (k & E & Hadv). rewrite !Hadv.
  erewrite run_proc; [|apply Hw|cbn; by rewrite E]. reflexivity.
Qed.

Definition after_fork (i : nat) : place := if (S i <? n)%nat then PFork (S i) else PAccept 0.
Definition after_close (k : nat) : place := if (S k <? n)%nat then PAccept (S k) else PReapL.

Lemma pid_not_0 i : pid_of cf i <> 0.
Proof. rewrite pid_of_eq. lia. Qed.

(** The state after a client has been forked, and after a worker has. *)
Definition fork_client (g : state) (i : nat) : state :=
  St (after_fork i) (g_cl g ++ [0%nat]) (g_conns g) (g_wk g) (g_own g) (g_log g).
Definition fork_worker (g : state) (k : nat) : state :=
  St (PClose k) (g_cl g) (g_conns g) (g_wk g ++ [0%nat]) (g_own g) (g_log g).

(** The world after [fork], for the program [q] of the parent and [q'] of
    the child. *)
Definition forked (w : world io_call io) (q q' : prog io_call Z) : world io_call io :=
  World (<[0%nat := Process (Live q) None []]> (procs w) ++ [Process (Live q') (Some 0%nat) []])
    (set_fds (kern w) (io_fds (kern w) ++ [fd_table (kern w) 0])) (out w) (errout w).

(** What is known at the first loop, and at the second. *)
Lemma at_fork g i :
  ginv g -> g_place g = PFork i -> (i < n)%nat /\ length (g_cl g) = i /\ g_wk g = [].
Proof.
  intros Hg Ep. pose proof (gi_place _ Hg) as Hi. pose proof (gi_cl _ Hg) as Hcl. pose proof (gi_wk _ Hg) as Hwk.
  rewrite Ep in Hi, Hcl, Hwk. cbn in *. split_and!; [done|done|by apply nil_length_inv].
Qed.

Lemma at_work g k :
  ginv g -> g_place g = PWork k ->
  (k < n)%nat /\ length (g_cl g) = n /\ length (g_wk g) = k /\ (S k <= length (g_conns g))%nat.
Proof.
  intros Hg Ep. pose proof (gi_place _ Hg) as Hk. pose proof (gi_cl _ Hg) as Hcl. pose proof (gi_wk _ Hg) as Hwk.
  pose proof (gi_acc _ Hg) as Ha. by rewrite Ep in Hk, Hcl, Hwk, Ha.
Qed.

Lemma accepted_fork i : accepted_by (after_fork i) = 0%nat.
Proof. unfold after_fork. by destruct (S i <? n)%nat. Qed.

Lemma ginv_fork g i : ginv g -> g_place g = PFork i -> ginv (fork_client g i).
Proof.
  intros Hg Ep. destruct (at_fork _ _ Hg Ep) as (Hi & Hcl & Hwk).
  constructor; cbn; try apply Hg.
  - unfold after_fork. destruct (Nat.ltb_spec (S i) n); cbn; lia.
  - rewrite length_app, Hcl. unfold after_fork. destruct (Nat.ltb_spec (S i) n); cbn; lia.
  - rewrite Hwk. unfold after_fork. by destruct (S i <? n)%nat.
  - rewrite accepted_fork. lia.
  - intros i' j Hj H2. apply lookup_app_Some in Hj as [Hj|[_ Hj]]; [by eapply Hg|].
    apply list_lookup_singleton_Some in Hj as [_ <-]. lia.
Qed.

Lemma kinv_fork g w i q q' :
  ginv g -> kinv g (kern w) -> g_place g = PFork i -> kinv (fork_client g i) (kern (forked w q q')).
Proof.
  intros Hg Hk Ep. destruct (at_fork _ _ Hg Ep) as (Hi & Hcl & Hwk).
  destruct (ki_parent _ _ Hk) as (t & Ht & Hpt). unfold parent_fds in Hpt. rewrite Ep in Hpt. subst t.
  pose proof (ki_fds _ _ Hk) as Hlf. rewrite Hwk, Hcl in Hlf. cbn in Hlf. rewrite Nat.add_0_r in Hlf.
  assert (Hgr : grows g (fork_client g i)) by (by apply grows_same).
  constructor; cbn; try apply Hk.
  - rewrite accepted_fork. pose proof (ki_listen _ _ Hk) as Hl. by rewrite Ep in Hl.
  - rewrite !length_app, Hlf, Hcl, Hwk. cbn. lia.
  - exists [Some 0%nat]. split; [by apply lookup_app_l_Some|]. unfold parent_fds, fork_client, after_fork.
    cbn [g_place]. destruct (S i <? n)%nat; [done|by left].
  - intros i' j Hj. apply lookup_app_Some in Hj as [Hj|[Hle Hj]].
    + apply (client_holds_mono g _ i' j (kern w)); [done| |done|by apply Hk].
      cbn. apply lookup_app_l. apply lookup_lt_Some in Hj. lia.
    + apply list_lookup_singleton_Some in Hj as [Hi' <-]. assert (i' = i) as -> by lia. cbn.
      rewrite lookup_app_r by lia. rewrite Hlf, Nat.sub_diag. cbn. unfold fd_table. by rewrite Ht.
  - intros k cn Hcn. apply (conn_holds_mono g _ k cn (kern w)); try done; [|by apply Hk].
    intros j Hj. exists j. split; [by apply lookup_app_l_Some|done].
  - intros k. by rewrite Hwk.
Qed.

Lemma pinv_fork g w i :
  ginv g -> pinv g w -> g_place g = PFork i ->
  pinv (fork_client g i) (forked w (forking n port (S i)) (client_at port (is_first i) 0)).
Proof.
  intros Hg Hw Ep. destruct (at_fork _ _ Hg Ep) as (Hi & Hcl & Hwk).
  pose proof (pi_length _ _ Hw) as Hlp. rewrite Hwk, Hcl in Hlp. cbn in Hlp. rewrite Nat.add_0_r in Hlp.
  constructor; cbn; try apply Hw.
  - rewrite lookup_app_l by (rewrite length_insert; lia). rewrite list_lookup_insert_eq by lia.
    unfold after_fork. destruct (Nat.ltb_spec (S i) n); [done|]. cbn.
    assert (S i = n) as -> by lia. by rewrite forking_end.
  - rewrite !length_app, length_insert, Hlp, Hcl, Hwk. cbn. lia.
  - intros i' j Hj. apply lookup_app_Some in Hj as [Hj|[Hle Hj]].
    + rewrite lookup_app_l by (rewrite length_insert; apply lookup_lt_Some in Hj; lia).
      rewrite list_lookup_insert_ne by lia. by apply Hw.
    + apply list_lookup_singleton_Some in Hj as [Hi' <-]. assert (i' = i) as -> by lia.
      rewrite lookup_app_r by (rewrite length_insert; lia).
      rewrite length_insert, Hlp, Nat.sub_diag. done.
  - intros k j. by rewrite Hwk.
Qed.

Lemma parent_forks g w i : inv g w -> g_place g = PFork i -> moves 0 g w.
Proof.
  intros (Hg & Hk & Hw) Ep. destruct (at_fork _ _ Hg Ep) as (Hi & Hcl & Hwk).
  destruct (forking_step n port i Hi) as (Hfork & Hchild & Hpar).
  exists (fork_client g i), (forked w (forking n port (S i)) (client_at port (is_first i) 0)).
  split; [|split; [split; [by apply ginv_fork|split; [by apply kinv_fork|by apply pinv_fork]]|]].
  - rewrite (run_fork g w (client_at port (is_first i) 0)), Ep by (done || by rewrite Ep).
    cbn [parent_at]. by rewrite (Hpar _ (pid_not_0 _)).
  - unfold mu. rewrite Ep. cbn [fork_client g_cl g_wk g_place]. rewrite length_app, sumf_app, Hcl.
    change (sumf _ [0%nat]) with 8%nat. cbn [length].
    unfold after_fork. destruct (Nat.ltb_spec (S i) n); cbn [place_mu]; lia.
Qed.

(** With fewer connections than clients, some client is still running. *)
Lemma someone_left g :
  ginv g -> length (g_cl g) = n -> (length (g_conns g) < n)%nat ->
  exists i j, g_cl g !! i = Some j /\ (j <= 6)%nat.
Proof.
  intros Hg Hcl Hlt. destruct (decide (Exists (fun j => j <= 6)%nat (g_cl g))) as [He|Hne].
  { apply Exists_exists in He as (j & Hin & Hj). apply list_elem_of_lookup in Hin as [i Hi]. by exists i, j. }
  exfalso. assert (Hsub : seq 0 n ⊆ cn_client <$> g_conns g).
  { intros i Hi. apply elem_of_seq in Hi.
    destruct (lookup_lt_is_Some_2 (g_cl g) i ltac:(lia)) as [j Hj]. eapply (gi_connected _ Hg); [exact Hj|].
    destruct (decide (j <= 6)%nat); [|lia]. destruct Hne. apply Exists_exists. exists j.
    split; [by eapply list_elem_of_lookup_2|done]. }
  assert (Hlen : (length (seq 0 n) <= length (cn_client <$> g_conns g))%nat)
    by (apply submseteq_length, NoDup_submseteq; [apply NoDup_seq|exact Hsub]).
  rewrite length_seq, length_fmap in Hlen. lia.
Qed.

(** Accepting: it waits only while every connection has been accepted, and
    then some client has yet to connect. *)
Lemma parent_accepts g w k :
  inv g w -> g_place g = PAccept k ->
  moves 0 g w \/ (run_step cf 0 w = None /\ exists i j, g_cl g !! i = Some j /\ (j <= 6)%nat).
Proof.
  intros (Hg & Hk & Hw) Ep. pose proof (gi_place _ Hg) as Hkn. pose proof (gi_acc _ Hg) as Ha.
  pose proof (gi_cl _ Hg) as Hcl. pose proof (gi_wk _ Hg) as Hwk. pose proof (ki_listen _ _ Hk) as Hl.
  rewrite Ep in Hkn, Hcl, Hwk, Ha, Hl. cbn in Hkn, Hcl, Hwk, Ha, Hl.
  destruct (accepting_step n port k Hkn) as (Hcall & _).
  destruct (ki_parent _ _ Hk) as (t & Ht & Hpt). unfold parent_fds in Hpt. rewrite Ep in Hpt.
  assert (exists t', t = Some 0%nat :: t' /\ (t' = [] \/ t' = [None])) as (t' & -> & Ht').
  { destruct Hpt as [-> | ->]; eauto. }
  pose proof (pi_parent _ _ Hw) as Hp. rewrite Ep in Hp.
  destruct (g_conns g !! k) as [cn|] eqn:Hcn.
  - left. rewrite (drop_S _ _ _ Hcn) in Hl. cbn in Hl.
    destruct (ki_conns _ _ Hk k cn Hcn) as (j & ch & _ & _ & _ & Ho & _ & _ & He).
    rewrite lookup_ge_None_2 in He by lia. specialize (He eq_refl).
    pose proof (server_not_client _ _ _ _ 0 Hk Hcn) as [_ Hne].
    exists (put_place g (PWork k)),
      (set_kern (IoState (io_names (kern w)) (io_chans (kern w)) (io_inodes (kern w))
          (<[0%nat := DListen (APort port) false (cn_e <$> drop (S k) (g_conns g))]>
             (<[cn_e cn := DStream (S (2 * k)) (2 * k) false true]> (io_descs (kern w))))
          (<[0%nat := [Some 0%nat; Some (cn_e cn)]]> (io_fds (kern w))) (io_stdout (kern w)) (io_ports (kern w)))
        (resume 0 (Process (Live (accepting n k)) None []) (parent_at n port (PWork k)) w)).
    split; [|split; [split; [|split]|]].
    + apply (run_sys_adv 0 w _ (accepting n k) (Accept 3 false) (ok 4)); [exact Hp|done|done|].
      by eapply k_accept.
    + apply ginv_place; rewrite ?Ep; cbn; try done. apply lookup_lt_Some in Hcn. lia.
    + apply (kinv_place g (kern w) _ _ [Some 0%nat; Some (cn_e cn)]); try done; cbn.
      * by rewrite !length_insert.
      * rewrite list_lookup_insert_eq; [done|]. rewrite length_insert. by eapply lookup_lt_Some.
      * intros x Hx. rewrite list_lookup_insert_ne by done. destruct (decide (x = cn_e cn)) as [->|Hx'].
        { rewrite list_lookup_insert_eq by (by eapply lookup_lt_Some). done. }
        { by rewrite list_lookup_insert_ne by done. }
      * apply length_insert.
      * rewrite list_lookup_insert_eq by (by eapply lookup_lt_Some). done.
      * by exists cn.
      * intros x Hx. by rewrite list_lookup_insert_ne.
    + by apply (pinv_place g w).
    + apply mu_place. rewrite Ep. cbn [place_mu]. lia.
  - right. apply lookup_ge_None in Hcn. split.
    + eapply run_sys_blocks; [exact Hp|done|done|].
      eapply k_accept_blocks; [done|]. rewrite Hl, drop_ge by done. done.
    + apply someone_left; (done || lia).
Qed.

Lemma ginv_work g k : ginv g -> g_place g = PWork k -> ginv (fork_worker g k).
Proof.
  intros Hg Ep. destruct (at_work _ _ Hg Ep) as (Hkn & Hcl & Hwk & Ha).
  constructor; cbn; try apply Hg; try done.
  - rewrite length_app, Hwk. cbn. lia.
  - intros c. rewrite (gi_logged _ Hg c). split; intros (k' & cn' & ph & Hcn' & Hc & Hph & Hle).
    + exists k', cn', ph. split_and!; try done. by apply lookup_app_l_Some.
    + exists k', cn', ph. split_and!; try done. apply lookup_app_Some in Hph as [?|[_ Hph]]; [done|].
      apply list_lookup_singleton_Some in Hph as [_ <-]. destruct (tty cf); lia.
Qed.

(** A worker that has just been forked has not read. *)
Lemma unread_fork g k k' : unread (g_wk (fork_worker g k) !! k') = unread (g_wk g !! k').
Proof.
  cbn. destruct (decide (k' < length (g_wk g))%nat) as [Hlt|Hge].
  - by rewrite lookup_app_l by lia.
  - rewrite lookup_app_r by lia. rewrite (lookup_ge_None_2 (g_wk g)) by lia.
    by destruct (k' - length (g_wk g))%nat as [|[]].
Qed.

Lemma kinv_work g w k q q' :
  ginv g -> kinv g (kern w) -> g_place g = PWork k -> kinv (fork_worker g k) (kern (forked w q q')).
Proof.
  intros Hg Hk Ep. destruct (at_work _ _ Hg Ep) as (Hkn & Hcl & Hwk & Ha).
  destruct (ki_parent _ _ Hk) as (t & Ht & Hpt). unfold parent_fds in Hpt. rewrite Ep in Hpt.
  destruct Hpt as (cn & Hcn & ->). pose proof (ki_fds _ _ Hk) as Hlf. rewrite Hwk, Hcl in Hlf.
  assert (Hgr : grows g (fork_worker g k)) by (by apply grows_same).
  constructor; cbn; try apply Hk.
  - pose proof (ki_listen _ _ Hk) as Hl. by rewrite Ep in Hl.
  - rewrite !length_app, Hlf, Hcl, Hwk. cbn. lia.
  - exists [Some 0%nat; Some (cn_e cn)]. split; [by apply lookup_app_l_Some|]. by exists cn.
  - intros i j Hj. apply (client_holds_mono g _ i j (kern w)); [done| |done|by apply Hk].
    cbn. apply lookup_app_l. apply lookup_lt_Some in Hj. lia.
  - intros k' cn' Hcn'.
    destruct (ki_conns _ _ Hk k' cn' Hcn') as (jc & ch & Hj & Hle & H4 & Ho & Hch & Hb & He).
    exists jc, ch. rewrite unread_fork. by split_and!.
  - intros k' Hk'. apply lookup_app_Some in Hk' as [Hk'|[Hle Hk']].
    + destruct (ki_workers _ _ Hk k' Hk') as (cn' & Hcn' & Hf). exists cn'. split; [done|].
      by apply lookup_app_l_Some.
    + apply list_lookup_singleton_Some in Hk' as [Hk' _]. assert (k' = k) as -> by lia.
      exists cn. split; [done|]. rewrite lookup_app_r by lia. rewrite Hlf, Nat.sub_diag. cbn.
      unfold fd_table. by rewrite Ht.
Qed.

Lemma pinv_work g w k :
  ginv g -> pinv g w -> g_place g = PWork k ->
  pinv (fork_worker g k) (forked w (parent_at n port (PClose k)) (worker_at true 0)).
Proof.
  intros Hg Hw Ep. destruct (at_work _ _ Hg Ep) as (Hkn & Hcl & Hwk & Ha).
  destruct (lookup_lt_is_Some_2 (g_conns g) k ltac:(lia)) as [cn Hcn].
  pose proof (pi_length _ _ Hw) as Hlp. rewrite Hwk, Hcl in Hlp.
  constructor; cbn; try apply Hw.
  - rewrite lookup_app_l by (rewrite length_insert; lia). by rewrite list_lookup_insert_eq by lia.
  - rewrite !length_app, length_insert, Hlp, Hcl, Hwk. cbn. lia.
  - intros i j Hj. rewrite lookup_app_l by (rewrite length_insert; apply lookup_lt_Some in Hj; lia).
    rewrite list_lookup_insert_ne by lia. by apply Hw.
  - intros k' j Hj. apply lookup_app_Some in Hj as [Hj|[Hle Hj]].
    + destruct (pi_workers _ _ Hw k' j Hj) as (cn' & Hcn' & Hp). exists cn'. split; [done|].
      apply lookup_app_l_Some. by rewrite list_lookup_insert_ne by lia.
    + apply list_lookup_singleton_Some in Hj as [Hk' <-]. assert (k' = k) as -> by lia.
      exists cn. split; [done|]. rewrite lookup_app_r by (rewrite length_insert; lia).
      by rewrite length_insert, Hlp, Nat.sub_diag.
Qed.

Lemma parent_works g w k : inv g w -> g_place g = PWork k -> moves 0 g w.
Proof.
  intros (Hg & Hk & Hw) Ep. destruct (at_work _ _ Hg Ep) as (Hkn & Hcl & Hwk & Ha).
  destruct (accepting_step n port k Hkn) as (_ & Hfork & Hchild & Hpar & _).
  exists (fork_worker g k), (forked w (parent_at n port (PClose k)) (worker_at true 0)).
  split; [|split; [split; [by apply ginv_work|split; [by apply kinv_work|by apply pinv_work]]|]].
  - rewrite (run_fork g w (worker_at true 0)), Ep by (done || by rewrite Ep).
    by rewrite (Hpar _ (pid_not_0 _)).
  - unfold mu. rewrite Ep. cbn [fork_worker g_cl g_wk g_place]. rewrite length_app, sumf_app, Hwk.
    change (sumf _ [0%nat]) with 5%nat. cbn [length place_mu]. lia.
Qed.

Lemma parent_closes g w k : inv g w -> g_place g = PClose k -> moves 0 g w.
Proof.
  intros (Hg & Hk & Hw) Ep. pose proof (gi_place _ Hg) as Hkn. pose proof (gi_acc _ Hg) as Ha.
  rewrite Ep in Hkn, Ha. cbn in Hkn, Ha.
  destruct (accepting_step n port k Hkn) as (_ & _ & _ & _ & Hcall & Hnext).
  destruct (ki_parent _ _ Hk) as (t & Ht & Hpt). unfold parent_fds in Hpt. rewrite Ep in Hpt.
  destruct Hpt as (cn & Hcn & ->). pose proof (pi_parent _ _ Hw) as Hp. rewrite Ep in Hp.
  assert (Hsame : accepted_by (after_close k) = S k /\ workers_by (after_close k) = S k /\
    clients_by (after_close k) = n /\ place_ok (after_close k)).
  { unfold after_close. destruct (Nat.ltb_spec (S k) n); cbn; lia. }
  destruct Hsame as (Ea & Ew & Ec & Hok).
  assert (Hg' : ginv (put_place g (after_close k))).
  { apply ginv_place; rewrite ?Ep; cbn; try done. by rewrite Ea. }
  exists (put_place g (after_close k)),
    (set_kern (released (set_fds (kern w) (<[0%nat := [Some 0%nat; None]]> (io_fds (kern w)))))
      (resume 0 (Process (Live (parent_at n port (PClose k))) None []) (parent_at n port (after_close k)) w)).
  assert (Hprog : adv [ok 0] (parent_at n port (PClose k)) = parent_at n port (after_close k)).
  { rewrite Hnext. unfold after_close. destruct (Nat.ltb_spec (S k) n); [done|].
    assert (S k = n) as -> by lia. apply accepting_end. }
  split; [|split; [split; [done|split]|]].
  - rewrite <- Hprog. eapply run_sys_adv; [exact Hp|done|exact Hcall|]. by eapply k_close.
  - apply kinv_released; [done|].
    apply (kinv_place g (kern w) _ _ [Some 0%nat; None]); try done; cbn.
    + rewrite Ea. pose proof (ki_listen _ _ Hk) as Hl. by rewrite Ep in Hl.
    + apply length_insert.
    + rewrite list_lookup_insert_eq by (by eapply lookup_lt_Some). done.
    + unfold parent_fds. cbn [g_place put_place]. unfold after_close. destruct (S k <? n)%nat; by right.
    + intros x Hx. by rewrite list_lookup_insert_ne.
  - by apply (pinv_place g w).
  - apply mu_place. rewrite Ep. unfold after_close. destruct (Nat.ltb_spec (S k) n); cbn [place_mu]; lia.
Qed.

Lemma parent_loops g w : inv g w -> g_place g = PReapL -> moves 0 g w.
Proof.
  intros (Hg & Hk & Hw) Ep. pose proof (pi_parent _ _ Hw) as Hp. rewrite Ep in Hp.
  eexists (put_place g PReap), _. split; [eapply run_loop_adv; [exact Hp|done|done]|].
  split; [split; [|split]|apply mu_place; rewrite Ep; cbn; lia].
  - apply ginv_place; rewrite ?Ep; try done. pose proof (gi_acc _ Hg) as Ha. by rewrite Ep in Ha.
  - destruct (ki_parent _ _ Hk) as (t & Ht & Hpt). apply (kinv_place g (kern w) _ _ t); try done.
    + pose proof (ki_listen _ _ Hk) as Hl. by rewrite Ep in Hl.
    + unfold parent_fds in *. by rewrite Ep in Hpt.
  - by apply (pinv_place g w).
Qed.
(** *** Waiting for the children *)

(** The other processes are the clients and the workers. *)
Lemma other_at g w x p :
  inv g w -> procs w !! S x = Some p ->
  (exists j, g_cl g !! x = Some j /\ p = client_proc x j) \/
  (exists k j cn, x = (n + k)%nat /\ g_wk g !! k = Some j /\ g_conns g !! k = Some cn /\
     p = worker_proc (cn_client cn) j).
Proof.
  intros (Hg & Hk & Hw) Hp. pose proof (lookup_lt_Some _ _ _ Hp) as Hlt. rewrite (pi_length _ _ Hw) in Hlt.
  destruct (g_cl g !! x) as [j|] eqn:Hj.
  - left. exists j. split; [done|]. rewrite (pi_clients _ _ Hw x j Hj) in Hp. by injection Hp.
  - right. apply lookup_ge_None in Hj.
    destruct (g_wk g !! 0%nat) as [j0|] eqn:H0; [|apply lookup_ge_None in H0; lia].
    pose proof (workers_all _ _ _ Hg H0) as Hn.
    destruct (lookup_lt_is_Some_2 (g_wk g) (x - n) ltac:(lia)) as [j Hj'].
    destruct (pi_workers _ _ Hw _ _ Hj') as (cn & Hcn & E).
    replace (n + (x - n))%nat with x in E by lia. exists (x - n)%nat, j, cn.
    split_and!; [lia|done|done|congruence].
Qed.

(** A client that is still running, and then somebody can move. *)
Definition busy (g : state) : Prop := exists i j, g_cl g !! i = Some j /\ (j <= 6)%nat.

Lemma moves_red x g w : moves x g w -> red (step cf) w.
Proof. intros (g' & w' & Hs & _). by exists w', x. Qed.

Lemma busy_red g w : inv g w -> busy g -> red (step cf) w.
Proof. intros Hinv (i & j & Hj & Hle). by eapply moves_red, client_moves. Qed.

Lemma server_worker_moves g w k j :
  inv g w -> g_wk g !! k = Some j -> (j <= 3)%nat ->
  moves (S (n + k)) g w \/ (run_step cf (S (n + k)) w = None /\ busy g).
Proof.
  intros Hinv Hj Hle. destruct j as [|[|[|[|j]]]]; [..|lia].
  - by apply worker_reads.
  - left. by apply worker_prints.
  - left. by apply worker_flushes.
  - left. by apply worker_exits.
Qed.

(** A step of a child. *)
Lemma other_moves g w x :
  inv g w -> moves (S x) g w \/ (run_step cf (S x) w = None /\
    (forall p, procs w !! S x = Some p -> is_live p = true -> busy g)).
Proof.
  intros Hinv. destruct (procs w !! S x) as [p|] eqn:Hp.
  2: { right. split; [unfold run_step; by rewrite Hp|done]. }
  destruct (other_at _ _ _ _ Hinv Hp) as [(j & Hj & ->)|(k & j & cn & -> & Hj & Hcn & ->)].
  - destruct (decide (j <= 6)%nat) as [Hle|Hgt]; [left; by eapply client_moves|]. right.
    assert (Hdead : is_live (client_proc x j) = false).
    { unfold client_proc, is_live. cbn [p_stat]. destruct (Nat.leb_spec j 6); [lia|]. by destruct (j =? 7)%nat. }
    split; [|intros ? [= <-]; congruence].
    unfold run_step. rewrite Hp. unfold is_live in Hdead. by destruct (p_stat (client_proc x j)).
  - destruct (decide (j <= 3)%nat) as [Hle|Hgt].
    { destruct (server_worker_moves _ _ _ _ Hinv Hj Hle) as [?|[? ?]]; [by left|by right]. }
    right. assert (Hdead : is_live (worker_proc (cn_client cn) j) = false).
    { unfold worker_proc, is_live. cbn [p_stat]. destruct (Nat.leb_spec j 3); [lia|]. by destruct (j =? 4)%nat. }
    split; [|intros ? [= <-]; congruence].
    unfold run_step. rewrite Hp. unfold is_live in Hdead. by destruct (p_stat (worker_proc (cn_client cn) j)).
Qed.

Definition zombie_child (q : process io_call) : bool := child_of 0 q && is_zombie q.
Definition live_child (q : process io_call) : bool := child_of 0 q && is_live q.

(** What [wait] does. *)
Lemma run_wait g w :
  pinv g w -> g_place g = PReap ->
  run_step cf 0 w =
  match find_idx zombie_child (procs w) with
  | Some j => Some (resume 0 (Process (Live (parent_at n port PReap)) None []) reaping
                      (set_proc j (Process Reaped (Some 0%nat) []) w))
  | None => if existsb live_child (procs w) then None
            else Some (resume 0 (Process (Live (parent_at n port PReap)) None []) (Ret 0) w)
  end.
Proof.
  intros Hw Ep. pose proof (pi_parent _ _ Hw) as Hp. rewrite Ep in Hp.
  destruct (reaping_step n port) as (_ & Hc & Hpos & Hend).
  apply next_proc_Some in Hc as (k & E & Hadv).
  erewrite run_proc; [|exact Hp|cbn [p_stat]; by rewrite E]. cbn [exec_proc].
  change (fun q => child_of 0 q && is_zombie q) with zombie_child.
  change (fun q => child_of 0 q && is_live q) with live_child.
  destruct (find_idx zombie_child (procs w)) as [j|].
  - by rewrite <- Hadv, Hpos by (rewrite pid_of_eq; lia).
  - by rewrite <- Hadv, Hend.
Qed.
(** Back to the loop, with a child reaped. *)
Lemma back_to_loop g w w1 :
  g_place g = PReap -> ginv g -> kinv g (kern w) -> pinv g w ->
  w1 = resume 0 (Process (Live (parent_at n port PReap)) None []) reaping w -> inv (put_place g PReapL) w1.
Proof.
  intros Ep Hg Hk Hw ->. split; [|split].
  - apply ginv_place; rewrite ?Ep; try done. pose proof (gi_acc _ Hg) as Ha. by rewrite Ep in Ha.
  - destruct (ki_parent _ _ Hk) as (t & Ht & Hpt). apply (kinv_place g (kern w) _ _ t); try done.
    + pose proof (ki_listen _ _ Hk) as Hl. by rewrite Ep in Hl.
    + unfold parent_fds in *. by rewrite Ep in Hpt.
  - by apply (pinv_place g w).
Qed.

Lemma client_reaped g w i :
  inv g w -> g_place g = PReap -> g_cl g !! i = Some 7%nat ->
  find_idx zombie_child (procs w) = Some (S i) -> moves 0 g w.
Proof.
  intros (Hg & Hk & Hw) Ep Hj Hz.
  eexists (put_place (move_client g i 8) PReapL), _. split; [rewrite (run_wait g w Hw Ep), Hz; reflexivity|]. split.
  - eapply back_to_loop; [done| | | |reflexivity].
    + apply (ginv_move g i 7); [done|done|lia].
    + apply (kinv_move g (kern w) _ i 7); (done || lia).
    + by apply (pinv_client g _ w _ i 7 8).
  - unfold mu. cbn [put_place move_client g_cl g_wk g_place]. rewrite Ep, length_insert. cbn [place_mu].
    pose proof (sumf_insert (fun j => 8 - j)%nat _ _ _ 8%nat Hj) as Hs. cbv beta in Hs. lia.
Qed.

Lemma worker_reaped g w k :
  inv g w -> g_place g = PReap -> g_wk g !! k = Some 4%nat ->
  find_idx zombie_child (procs w) = Some (S (n + k)) -> moves 0 g w.
Proof.
  intros (Hg & Hk & Hw) Ep Hj Hz. destruct (pi_workers _ _ Hw k 4 Hj) as (cn & Hcn & Hp).
  assert (Hlog : log_after g (cn_client cn) 5 = g_log g) by (unfold log_after, threshold; by destruct (tty cf)).
  eexists (put_place (move_worker g k 5 (log_after g (cn_client cn) 5)) PReapL), _.
  split; [rewrite (run_wait g w Hw Ep), Hz; reflexivity|]. split.
  - eapply back_to_loop; [done| | | |reflexivity].
    + by apply ginv_worker.
    + apply (kinv_worker_on g (kern w) k 4); (done || lia).
    + apply (pinv_worker g w _ k 4 cn); try done. rewrite Hlog. apply Hw.
  - unfold mu. cbn [put_place move_worker g_cl g_wk g_place]. rewrite Ep, length_insert. cbn [place_mu].
    pose proof (sumf_insert (fun j => 5 - j)%nat _ _ _ 5%nat Hj) as Hs. cbv beta in Hs. lia.
Qed.

(** Every child has been waited for. *)
Definition all_waited (g : state) : Prop :=
  (forall i j, g_cl g !! i = Some j -> 8 <= j)%nat /\ (forall k j, g_wk g !! k = Some j -> 5 <= j)%nat.

Lemma zombie_child_at g w x :
  inv g w -> find_idx zombie_child (procs w) = Some x ->
  (exists i, x = S i /\ g_cl g !! i = Some 7%nat) \/ (exists k, x = S (n + k) /\ g_wk g !! k = Some 4%nat).
Proof.
  intros Hinv Hz. pose proof Hinv as (_ & _ & Hw). apply find_idx_Some in Hz as (p & Hp & Hz).
  destruct x as [|x]; [rewrite (pi_parent _ _ Hw) in Hp; by simplify_eq/=|].
  destruct (other_at _ _ _ _ Hinv Hp) as [(j & Hj & ->)|(k & j & cn & -> & Hj & Hcn & ->)].
  - left. exists x. split; [done|]. unfold zombie_child, client_proc, is_zombie in Hz. cbn [p_stat child_of p_parent] in Hz.
    destruct (Nat.leb_spec j 6); [done|]. destruct (Nat.eqb_spec j 7) as [E|]; [by rewrite E in Hj|done].
  - right. exists k. split; [done|]. unfold zombie_child, worker_proc, is_zombie in Hz. cbn [p_stat child_of p_parent] in Hz.
    destruct (Nat.leb_spec j 3); [done|]. destruct (Nat.eqb_spec j 4) as [E|]; [by rewrite E in Hj|done].
Qed.

Lemma none_left g w :
  inv g w -> find_idx zombie_child (procs w) = None -> existsb live_child (procs w) = false -> all_waited g.
Proof.
  intros (_ & _ & Hw) Hz Hl. apply find_idx_None in Hz.
  assert (Hno : forall x p, procs w !! x = Some p -> child_of 0 p = true -> p_stat p = Reaped \/ p_stat p = Crashed).
  { intros x p Hp Hc. pose proof (Forall_lookup_1 _ _ _ _ Hz Hp) as Hzp. unfold zombie_child in Hzp.
    assert (Hlp : live_child p = false).
    { apply not_true_iff_false. intros E. rewrite <- not_true_iff_false in Hl. apply Hl, existsb_exists.
      exists p. split; [apply list_elem_of_In; by eapply list_elem_of_lookup_2|done]. }
    unfold live_child in Hlp. rewrite Hc in Hzp, Hlp. unfold is_zombie, is_live in *.
    destruct (p_stat p); auto; discriminate. }
  split.
  - intros i j Hj. destruct (Hno _ _ (pi_clients _ _ Hw i j Hj) eq_refl) as [E|E]; unfold client_proc in E;
      cbn [p_stat] in E; destruct (Nat.leb_spec j 6); try done; destruct (Nat.eqb_spec j 7); try done; lia.
  - intros k j Hj. destruct (pi_workers _ _ Hw k j Hj) as (cn & _ & Hp).
    destruct (Hno _ _ Hp eq_refl) as [E|E]; unfold worker_proc in E;
      cbn [p_stat] in E; destruct (Nat.leb_spec j 3); try done; destruct (Nat.eqb_spec j 4); try done; lia.
Qed.

(** Waiting: a child is reaped, or one is still running, or none is left. *)
Lemma parent_reaps g w :
  inv g w -> g_place g = PReap ->
  moves 0 g w \/
  (run_step cf 0 w = None /\ exists x p, procs w !! S x = Some p /\ is_live p = true) \/
  (all_waited g /\ run_step cf 0 w = Some (resume 0 (Process (Live (parent_at n port PReap)) None []) (Ret 0) w)).
Proof.
  intros Hinv Ep. pose proof Hinv as (_ & _ & Hw).
  destruct (find_idx zombie_child (procs w)) as [x|] eqn:Hz.
  { left. destruct (zombie_child_at _ _ _ Hinv Hz) as [(i & -> & Hi)|(k & -> & Hk)];
      [by eapply client_reaped|by eapply worker_reaped]. }
  right. pose proof (run_wait g w Hw Ep) as Hrun. rewrite Hz in Hrun.
  destruct (existsb live_child (procs w)) eqn:Hl.
  - left. split; [done|]. apply existsb_exists in Hl as (p & Hin & Hp).
    apply list_elem_of_In, list_elem_of_lookup in Hin as [[|x] Hx].
    + rewrite (pi_parent _ _ Hw) in Hx. by simplify_eq/=.
    + exists x, p. split; [done|]. unfold live_child in Hp. by apply andb_true_iff in Hp as [_ ?].
  - right. split; [by eapply none_left|done].
Qed.

(** ** Every schedule *)

(** Who can move next from a state: the parent, if nobody blocks it. *)
Lemma parent_cases g w :
  inv g w ->
  moves 0 g w \/
  (run_step cf 0 w = None /\ (busy g \/ exists x p, procs w !! S x = Some p /\ is_live p = true)) \/
  (all_waited g /\ g_place g = PReap /\
   run_step cf 0 w = Some (resume 0 (Process (Live (parent_at n port PReap)) None []) (Ret 0) w)).
Proof.
  intros Hinv. destruct (g_place g) as [i|k|k|k| |] eqn:Ep.
  - left. by eapply parent_forks.
  - destruct (parent_accepts _ _ _ Hinv Ep) as [?|[? ?]]; [by left|right; left; auto].
  - left. by eapply parent_works.
  - left. by eapply parent_closes.
  - left. by apply parent_loops.
  - destruct (parent_reaps _ _ Hinv Ep) as [?|[[? ?]|[? ?]]]; [by left|right; left; auto|right; right; auto].
Qed.

Lemma inv_red g w : inv g w -> red (step cf) w.
Proof.
  intros Hinv. destruct (parent_cases _ _ Hinv) as [Hm|[[_ [Hb|(x & p & Hp & Hl)]]|(_ & _ & Hs)]].
  - by eapply moves_red.
  - by eapply busy_red.
  - destruct (other_moves g w x Hinv) as [Hm|[_ Hb]]; [by eapply moves_red|].
    eapply busy_red; [done|by eapply Hb].
  - by eexists _, 0%nat.
Qed.

(** What has come out when every child has been reaped. *)
Lemma all_echoed g w : inv g w -> all_waited g -> g_place g = PReap -> g_log g ≡ₚ seq 0 n.
Proof.
  intros (Hg & Hk & _) [Hc8 Hw5] Ep. pose proof (gi_cl _ Hg) as Hcl. pose proof (gi_wk _ Hg) as Hwk.
  rewrite Ep in Hcl, Hwk. cbn in Hcl, Hwk.
  assert (Hbelow : forall k cn, g_conns g !! k = Some cn -> (cn_client cn < n)%nat).
  { intros k cn Hcn. destruct (ki_conns _ _ Hk k cn Hcn) as (j & _ & Hj & _).
    apply lookup_lt_Some in Hj. lia. }
  assert (Hmany : (length (g_conns g) <= n)%nat).
  { rewrite <- (length_fmap cn_client), <- (length_seq n 0).
    apply submseteq_length, NoDup_submseteq; [apply Hg|].
    intros c Hc. apply list_elem_of_fmap in Hc as (cn & -> & Hin).
    apply list_elem_of_lookup in Hin as [k Hcn]. apply elem_of_seq. pose proof (Hbelow _ _ Hcn). lia. }
  apply NoDup_Permutation; [apply Hg|apply NoDup_seq|]. intros c. rewrite (gi_logged _ Hg c), elem_of_seq. split.
  - intros (k & cn & ph & Hcn & <- & _). pose proof (Hbelow _ _ Hcn). lia.
  - intros Hc. destruct (lookup_lt_is_Some_2 (g_cl g) c ltac:(lia)) as [j Hj].
    pose proof (gi_connected _ Hg c j Hj ltac:(pose proof (Hc8 _ _ Hj); lia)) as Hin.
    apply list_elem_of_fmap in Hin as (cn & -> & Hin). apply list_elem_of_lookup in Hin as [k Hcn].
    pose proof (lookup_lt_Some _ _ _ Hcn) as Hlt.
    destruct (lookup_lt_is_Some_2 (g_wk g) k ltac:(lia)) as [ph Hph].
    exists k, cn, ph. split_and!; try done. pose proof (Hw5 _ _ Hph). destruct (tty cf); lia.
Qed.

Definition echoed (w : world io_call io) : Prop :=
  exists order, order ≡ₚ seq 0 n /\ finished 0 (concat (line <$> order)) w.

Lemma parent_ends g w :
  inv g w -> all_waited g -> g_place g = PReap ->
  total cf (resume 0 (Process (Live (parent_at n port PReap)) None []) (Ret 0) w) echoed.
Proof.
  intros Hinv Hall Ep. pose proof (all_echoed _ _ Hinv Hall Ep) as Hlog. pose proof Hinv as (Hg & Hk & Hw).
  set (ps := replicate (length (g_cl g) + length (g_wk g)) (Process (C := io_call) Reaped (Some 0%nat) [])).
  assert (Hps : <[0%nat := Process (Live (Ret 0)) None []]> (procs w) = Process (Live (Ret 0)) None [] :: ps).
  { apply list_eq. intros [|x].
    - rewrite list_lookup_insert_eq by (rewrite (pi_length _ _ Hw); lia). done.
    - rewrite list_lookup_insert_ne by done. rewrite lookup_cons_ne_0 by done. cbn [Nat.pred].
      destruct (procs w !! S x) as [p|] eqn:Hp.
      + pose proof (lookup_lt_Some _ _ _ Hp) as Hlt. rewrite (pi_length _ _ Hw) in Hlt.
        unfold ps. rewrite lookup_replicate_2 by lia. f_equal.
        destruct Hall as [Hc8 Hw5].
        destruct (other_at _ _ _ _ Hinv Hp) as [(j & Hj & ->)|(k & j & cn & -> & Hj & _ & ->)].
        * pose proof (Hc8 _ _ Hj). unfold client_proc.
          by destruct (Nat.leb_spec j 6), (Nat.eqb_spec j 7); try lia.
        * pose proof (Hw5 _ _ Hj). unfold worker_proc.
          by destruct (Nat.leb_spec j 3), (Nat.eqb_spec j 4), (Nat.eqb_spec j 2); try lia.
      + symmetry. apply lookup_ge_None in Hp. rewrite (pi_length _ _ Hw) in Hp.
        apply lookup_ge_None. unfold ps. rewrite length_replicate. lia. }
  unfold resume, set_proc. cbn [p_parent p_obuf]. rewrite Hps. apply last_ret.
  - apply Forall_replicate. done.
  - exists (g_log g). split; [done|]. split; [|split].
    + exists []. cbn. by unfold ps; rewrite length_replicate.
    + cbn. rewrite app_nil_r. apply Hw.
    + apply Hw.
Qed.

Lemma served g w : inv g w -> total cf w echoed.
Proof.
  apply (total_sim cf inv mu); [apply inv_red|]. clear g w. intros g w [|x] w' Hinv Hs.
  - destruct (parent_cases _ _ Hinv) as [(g' & w1 & Hs1 & Hi & Hmu)|[[Hs1 _]|(Hall & Ep & Hs1)]];
      [|congruence|]; rewrite Hs in Hs1; injection Hs1 as ->; [left; by exists g'|right].
    by eapply parent_ends.
  - left. destruct (other_moves g w x Hinv) as [(g' & w1 & Hs1 & Hi & Hmu)|[Hs1 _]]; [|congruence].
    rewrite Hs in Hs1. injection Hs1 as ->. by exists g'.
Qed.

(** The state in which the parent has started to listen. *)
Definition listening_state : state :=
  St (match n with O => PReapL | S _ => PFork 0 end) [] [] [] [OListen] [].
Definition listening_kern (ports : list Z) : io :=
  IoState [(APort port, NSock 0)] [] [] [DListen (APort port) false []] [[Some 0%nat]] [] ports.

Lemma listening_inv ports :
  inv listening_state (World [Process (Live (forking n port 0)) None []] (listening_kern ports) [] []).
Proof.
  assert (Hp : g_place listening_state = PReapL /\ n = 0%nat \/ g_place listening_state = PFork 0 /\ (0 < n)%nat).
  { unfold listening_state. destruct n as [|m] eqn:E; [by left|right]. split; [done|lia]. }
  split; [|split].
  - constructor; try by constructor; try done.
    1-4: destruct Hp as [[-> En]|[-> En]]; cbn; (done || lia).
    { done. }
    intros c. split; [by intros ?%not_elem_of_nil|]. by intros (k & cn & ph & Hcn & _).
  - constructor; try done.
    + cbn. by destruct (accepted_by _).
    + exists [Some 0%nat]. split; [done|]. unfold parent_fds. destruct Hp as [[-> _]|[-> _]]; [by left|done].
  - constructor; try done. destruct Hp as [[-> En]|[-> _]]; [|done]. cbn. by rewrite En.
Qed.
End Many.

Lemma program_served cf n port ports :
  total cf (boot (program n) (idle (port :: ports))) (echoed n).
Proof.
  do 4 (eapply total_solo; [reflexivity|reflexivity|]).
  pose proof (served cf n port _ _ (listening_inv cf n port ports)) as Ht.
  unfold forking, accepting in Ht. by rewrite Nat.sub_0_r in Ht.
Qed.

(** C8. [tcp_forking_echo_server.c] with any number of clients, under every schedule and whatever the
    port the system chooses: no run blocks for ever, every client's line is echoed by its own worker
    exactly once and whole, in some order; every child is reaped, and the program exits with 0.  (The
    backlog of 8 that the program asks for is not modelled: its two clients never fill it.) *)
Theorem tcp_echo_correct cf n port ports :
  total cf (boot (program n) (idle (port :: ports))) (fun w =>
    exists order, order ≡ₚ seq 0 n /\
      finished 0 (concat ((fun i => B "tcp worker echo: " ++ client_text (Z.of_nat i)) <$> order)) w).
Proof. apply program_served. Qed.

(** The program itself has two clients, and two possible outputs. *)
Corollary tcp_main_correct cf port ports :
  total cf (boot main (idle (port :: ports))) (fun w =>
    finished 0 (ln "tcp worker echo: alpha" ++ ln "tcp worker echo: beta") w \/
    finished 0 (ln "tcp worker echo: beta" ++ ln "tcp worker echo: alpha") w).
Proof.
  eapply total_impl; [|apply (program_served cf 2)]. intros w (order & Hperm & Hf).
  symmetry in Hperm. apply Permutation_length_2_inv in Hperm as [-> | ->]; [by left|by right].
Qed.
