(* ===== verification/Resolve.v ===== *)
(** * Resolve: [InternetSockets/getaddrinfo_loopback_client.c]

    The program asks the C library's resolver for the stream endpoints of the
    loopback address and counts them.  The resolver and the texts of its
    error codes are parameters. *)

From S2P Require Import Prelude Fmt Posix Common.

(** [struct addrinfo] lists, by an identifier; the node, the service and
    the hints ([ai_family], [ai_socktype], [ai_flags]). *)
Inductive gai_call : Type :=
| Getaddrinfo (node service : bytes) (family socktype flags : Z)
| Freeaddrinfo (list_id : Z).

(** The lists handed out; [None] once freed. *)
Record gai := GaiState { gai_lists : list (option (list Z)) }.

Definition AF_UNSPEC : Z := 0.
Definition SOCK_STREAM : Z := 1.
Definition AI_NUMERICHOST : Z := 4.

(** [for (it = list; it != NULL; it = it->ai_next) count++;] *)
Fixpoint count_nodes (it : list Z) (count : Z) : prog gai_call Z :=
  match it with
  | [] => Ret count
  | _ :: next => c <- int_add count 1 ;; count_nodes next c
  end.

Definition main (gai_strerror : Z -> bytes) : prog gai_call Z :=
  rc <- sys (Getaddrinfo (B "127.0.0.1") (B "80") AF_UNSPEC SOCK_STREAM AI_NUMERICHOST) ;;
  if negb (rv rc =? 0) then
    proc (Eprintf (B "getaddrinfo: " ++ gai_strerror (rv rc) ++ [LF])) ;;;
    Ret 1
  else
  count <- count_nodes (tail (rints rc)) 0 ;;
  proc (Println (B "resolved loopback stream endpoints=" ++ fmt_d count)) ;;;
  sys (Freeaddrinfo (default 0 (rints rc !! 0%nat))) ;;;
  Ret 0.

Section Resolver.
(** What the resolver answers: an error code or the endpoints. *)
Context (resolver : bytes -> bytes -> Z -> Z -> Z -> Z + list Z) (gai_strerror : Z -> bytes).

(** Freeing a list twice is undefined. *)
Definition gai_exec (i : nat) (c : gai_call) (s : gai) : kres gai :=
  match c with
  | Getaddrinfo node service family socktype flags =>
      match resolver node service family socktype flags with
      | inl rc => Done (ok rc) s
      | inr l => Done (ok_ints 0 (Z.of_nat (length (gai_lists s)) :: l)) (GaiState (gai_lists s ++ [Some l]))
      end
  | Freeaddrinfo id =>
      match gai_lists s !! Z.to_nat id with
      | Some (Some _) => Done (ok 0) (GaiState (<[Z.to_nat id := None]> (gai_lists s)))
      | _ => Fault
      end
  end.

#[local] Instance gai_kernel : Kernel gai_call gai := {|
  kexec := gai_exec;
  kfails := fun _ _ => false;
  kfork := fun _ _ s => s;
  kexit := fun _ s => s;
|}.

Lemma count_nodes_length l n :
  0 <= n -> n + Z.of_nat (length l) <= INT_MAX -> count_nodes l n = Ret (n + Z.of_nat (length l)).
Proof.
  revert n. induction l as [|x l IH]; intros n Hn Hl; cbn -[Z.of_nat] in *; [by rewrite Z.add_0_r|].
  unfold int_add. replace (in_int (n + 1)) with true
    by (symmetry; apply in_int_spec; unfold INT_MIN, INT_MAX in *; lia).
  cbn [bind]. rewrite IH by lia. f_equal. lia.
Qed.

(** What the program shows for each answer of the resolver. *)
Definition resolved (answer : Z + list Z) (w : world gai_call gai) : Prop :=
  match answer with
  | inl rc =>
      (exists b, procs w = [Process (Zombie 1) None b]) /\ out w = [] /\
      errout w = B "getaddrinfo: " ++ gai_strerror rc ++ [LF] /\ gai_lists (kern w) = []
  | inr l =>
      finished 0 (B "resolved loopback stream endpoints=" ++ fmt_d (Z.of_nat (length l)) ++ [LF]) w /\
      gai_lists (kern w) = [None]
  end.

(** [getaddrinfo_loopback_client.c] for any resolver: when it fails, the
    program reports the text of its error code and exits with 1; when it
    answers, the program counts the endpoints of the answer and frees the
    list exactly once. *)
Theorem getaddrinfo_correct cf :
  let answer := resolver (B "127.0.0.1") (B "80") AF_UNSPEC SOCK_STREAM AI_NUMERICHOST in
  match answer with inl rc => rc <> 0 | inr l => Z.of_nat (length l) <= INT_MAX end ->
  total cf (boot (main gai_strerror) (GaiState [])) (resolved answer).
Proof.
  intros answer Ha. destruct answer as [rc|l] eqn:E; unfold answer in E.
  - last_call (cbn; rewrite E; reflexivity). cbn [rv ok].
    destruct (Z.eqb_spec rc 0); [done|]. cbn [negb].
    eapply total_solo; [reflexivity|reflexivity|]. last_end.
    by split_and!; [eexists|..].
  - last_call (cbn; rewrite E; reflexivity). cbn [rv ok_ints negb Z.eqb rints tail].
    rewrite count_nodes_length by lia. cbn [bind].
    last_print.
    last_call (reflexivity).
    last_end. split; [|done].
    split; [by eexists|]. split; [|done]. cbn. by rewrite Ho.
Qed.
End Resolver.

(** One resolver: a single endpoint for the loopback address. *)
Lemma getaddrinfo_witness :
  total (H := gai_kernel (fun _ _ _ _ _ => inr [2130706433])) (Config true 1)
    (boot (main (fun _ => B "unknown error")) (GaiState []))
    (resolved (fun _ => B "unknown error") (inr [2130706433])).
Proof.
  apply (getaddrinfo_correct (fun _ _ _ _ _ => inr [2130706433]) (fun _ => B "unknown error") (Config true 1)).
  by vm_compute.
Defined.
