(* ===== verification/Sig.v ===== *)
(** * Sig: signals

    A layer over a kernel that adds what the signal programs use: actions,
    masks, pending signals, [kill], [sigqueue], [raise], [pause],
    [sigsuspend], [alarm], and the global variables that a handler shares
    with the code it interrupts.  The machine of [Posix] is extended with the
    delivery of signals: a handler is a program that is put in front of what
    the process has left to run.  A signal that is pending and not blocked
    can be delivered at any time; it is delivered at the latest when a call
    of the process returns, and, when the call would block, during it: the
    call is then repeated or fails with [EINTR], as [SA_RESTART] and the call
    decide. *)

From S2P Require Import Prelude Fmt Posix Explore Common.

Definition SIGUSR1 : Z := 10.
Definition SIGALRM : Z := 14.
Definition SIGCHLD : Z := 17.
Definition SIGRTMIN : Z := 34.

(** What a handler or [signalfd] learns: number, payload, sender. *)
Record siginfo := Siginfo { si_signo : Z; si_value : Z; si_pid : Z }.

(** An installed action: the handler, by its number in the program, and
    whether [SA_RESTART] is set. *)
Record action := Action { sa_handler : nat; sa_restart : bool }.

(** The signal state of a process, its global variables and the sets of its
    signal descriptors. *)
Record psig := Psig {
  ps_actions : list (Z * action);
  ps_mask : list Z;
  ps_pending : list siginfo;
  ps_alarm : bool;
  ps_parent : option nat;
  ps_mem : list Z;
  ps_sfds : list (list Z);
}.

Record sigs (K : Type) := Sigs { sg_procs : list psig; sg_base : K }.
Arguments Sigs {K} _ _.
Arguments sg_procs {K} _.
Arguments sg_base {K} _.

(** [Compare a b] is [a == b], an instruction of the process rather than a
    call of the kernel, like the loads and stores of globals. *)
Inductive scall (C : Type) : Type :=
| Base (c : C)
| Sigaction (sig : Z) (act : action)
| Sigprocmask (block : bool) (set : list Z)
| Sigpending
| Kill (pid sig : Z)
| Sigqueue (pid sig value : Z)
| Raise (sig : Z)
| Pause
| Sigsuspend (mask : list Z)
| Sigreturn (mask : list Z)
| SetAlarm
| Usleep
| Getppid
| GLoad (x : nat)
| GStore (x : nat) (v : Z)
| Compare (a b : Z)
| Signalfd (set : list Z)
| ReadSiginfo (fd : Z).
Arguments Base {C} c.
Arguments Sigaction {C} sig act.
Arguments Sigprocmask {C} block set.
Arguments Sigpending {C}.
Arguments Kill {C} pid sig.
Arguments Sigqueue {C} pid sig value.
Arguments Raise {C} sig.
Arguments Pause {C}.
Arguments Sigsuspend {C} mask.
Arguments Sigreturn {C} mask.
Arguments SetAlarm {C}.
Arguments Usleep {C}.
Arguments Getppid {C}.
Arguments GLoad {C} x.
Arguments GStore {C} x v.
Arguments Compare {C} a b.
Arguments Signalfd {C} set.
Arguments ReadSiginfo {C} fd.

(** What a base kernel tells the layer: which blocked calls [SA_RESTART]
    repeats, and the signals a call sends. *)
Class Interruptible (C K : Type) := {
  restarts : C -> bool;
  posts : nat -> C -> K -> list (nat * siginfo);
}.

(** ** Pending signals *)

Definition member (n : Z) (l : list Z) : bool := existsb (Z.eqb n) l.
Definition add_sig (n : Z) (l : list Z) : list Z := if member n l then l else n :: l.
Definition block_all (set mask : list Z) : list Z := foldr add_sig mask set.
Definition unblock_all (set mask : list Z) : list Z := List.filter (fun n => negb (member n set)) mask.

(** The lowest signal number that is pending and not in [mask]. *)
Definition lowest_pending (mask : list Z) (l : list siginfo) : option Z :=
  foldr (fun x acc =>
    if member (si_signo x) mask then acc
    else Some (match acc with Some n => Z.min (si_signo x) n | None => si_signo x end)) None l.

(** The oldest pending signal numbered [n]. *)
Fixpoint take_pending (n : Z) (l : list siginfo) : option (siginfo * list siginfo) :=
  match l with
  | [] => None
  | x :: l' =>
      if si_signo x =? n then Some (x, l')
      else match take_pending n l' with
           | Some (y, rest) => Some (y, x :: rest)
           | None => None
           end
  end.

(** The signal to deliver next under [mask]: lowest number first, oldest
    first among equals. *)
Definition next_signal (mask : list Z) (l : list siginfo) : option (siginfo * list siginfo) :=
  match lowest_pending mask l with Some n => take_pending n l | None => None end.

Definition action_of (p : psig) (n : Z) : option action :=
  snd <$> List.find (fun e => e.1 =? n) (ps_actions p).

Definition set_mask (m : list Z) (p : psig) : psig :=
  Psig (ps_actions p) m (ps_pending p) (ps_alarm p) (ps_parent p) (ps_mem p) (ps_sfds p).
Definition set_pending (l : list siginfo) (p : psig) : psig :=
  Psig (ps_actions p) (ps_mask p) l (ps_alarm p) (ps_parent p) (ps_mem p) (ps_sfds p).
Definition set_action (n : Z) (a : action) (p : psig) : psig :=
  Psig ((n, a) :: List.filter (fun e => negb (e.1 =? n)) (ps_actions p))
       (ps_mask p) (ps_pending p) (ps_alarm p) (ps_parent p) (ps_mem p) (ps_sfds p).
Definition set_alarm (b : bool) (p : psig) : psig :=
  Psig (ps_actions p) (ps_mask p) (ps_pending p) b (ps_parent p) (ps_mem p) (ps_sfds p).
Definition add_sfd (set : list Z) (p : psig) : psig :=
  Psig (ps_actions p) (ps_mask p) (ps_pending p) (ps_alarm p) (ps_parent p) (ps_mem p) (ps_sfds p ++ [set]).
Definition set_mem (m : list Z) (p : psig) : psig :=
  Psig (ps_actions p) (ps_mask p) (ps_pending p) (ps_alarm p) (ps_parent p) m (ps_sfds p).

(** A signal nobody handles and nobody blocks: [SIGCHLD] is ignored, the
    others kill the process. *)
Definition unhandled (p : psig) (n : Z) : bool :=
  match action_of p n with Some _ => false | None => negb (member n (ps_mask p)) end.

(** A standard signal that is pending already is not queued again. *)
Definition receive_signal (x : siginfo) (p : psig) : psig :=
  if unhandled p (si_signo x) then p
  else if (si_signo x <? SIGRTMIN) && existsb (fun y => si_signo y =? si_signo x) (ps_pending p) then p
  else set_pending (ps_pending p ++ [x]) p.

Definition alter_ps {K} (f : psig -> psig) (i : nat) (s : sigs K) : sigs K :=
  Sigs (alter f i (sg_procs s)) (sg_base s).
Definition post {K} (s : sigs K) (e : nat * siginfo) : sigs K := alter_ps (receive_signal e.2) e.1 s.
Definition kills {K} (s : sigs K) (j : nat) (n : Z) : bool :=
  match sg_procs s !! j with
  | Some p => unhandled p n && negb (n =? SIGCHLD)
  | None => true
  end.

(** ** The kernel *)

Section Kernel.
Context {C K : Type} `{HK : Kernel C K} `{HI : Interruptible C K} (cf : config).

Definition send (i j : nat) (n v : Z) (s : sigs K) : kres (sigs K) :=
  if kills s j n then Fault
  else Done (ok 0) (post s (j, Siginfo n v (pid_of cf i))).

Definition sig_exec (i : nat) (c : scall C) (s : sigs K) : kres (sigs K) :=
  match c with
  | Base c =>
      match kexec i c (sg_base s) with
      | Done r b => Done r (fold_left post (posts i c (sg_base s)) (Sigs (sg_procs s) b))
      | Block => Block
      | Fault => Fault
      end
  | Sigaction n a => Done (ok 0) (alter_ps (set_action n a) i s)
  | Sigprocmask block set =>
      Done (ok 0) (alter_ps (fun p => set_mask
        ((if block then block_all else unblock_all) set (ps_mask p)) p) i s)
  | Sigpending =>
      match sg_procs s !! i with
      | Some p => Done (ok_ints 0 (si_signo <$> ps_pending p)) s
      | None => Fault
      end
  | Kill pid n => send i (idx_of cf pid) n 0 s
  | Sigqueue pid n v => send i (idx_of cf pid) n v s
  | Raise n => send i i n 0 s
  | Pause | Sigsuspend _ => Block
  | Sigreturn m => Done (ok 0) (alter_ps (set_mask m) i s)
  | SetAlarm => Done (ok 0) (alter_ps (set_alarm true) i s)
  | Usleep => Done (ok 0) s
  | Getppid =>
      match sg_procs s !! i with
      | Some p => Done (ok (match ps_parent p with Some j => pid_of cf j | None => 1 end)) s
      | None => Fault
      end
  | GLoad x =>
      match sg_procs s !! i with
      | Some p => match ps_mem p !! x with Some v => Done (ok v) s | None => Fault end
      | None => Fault
      end
  | GStore x v =>
      match sg_procs s !! i with
      | Some p => if decide (x < length (ps_mem p))%nat
                  then Done (ok 0) (alter_ps (set_mem (<[x := v]> (ps_mem p))) i s) else Fault
      | None => Fault
      end
  | Compare a b => Done (ok (Z.b2z (sym_eqb a b))) s
  | Signalfd set =>
      match sg_procs s !! i with
      | Some p => Done (ok (3 + Z.of_nat (length (ps_sfds p)))) (alter_ps (add_sfd set) i s)
      | None => Fault
      end
  | ReadSiginfo fd =>
      match sg_procs s !! i with
      | Some p =>
          let set := default [] (ps_sfds p !! Z.to_nat (fd - 3)) in
          match List.find (fun x => member (si_signo x) set) (ps_pending p) with
          | Some x =>
              match take_pending (si_signo x) (ps_pending p) with
              | Some (y, rest) =>
                  Done (ok_ints 128 [si_signo y; si_pid y]) (alter_ps (set_pending rest) i s)
              | None => Fault
              end
          | None => Block
          end
      | None => Fault
      end
  end.

(** A child starts with its parent's actions, mask and variables and no
    pending signal; its end sends [SIGCHLD] to its parent. *)
#[export] Instance sig_kernel : Kernel (scall C) (sigs K) := {|
  kexec := sig_exec;
  kfails := fun c e => match c with Base c => kfails c e | _ => false end;
  kfork := fun i j s =>
    Sigs (sg_procs s ++ match sg_procs s !! i with
                        | Some p => [Psig (ps_actions p) (ps_mask p) [] false (Some i) (ps_mem p) (ps_sfds p)]
                        | None => []
                        end)
         (kfork i j (sg_base s));
  kexit := fun i s =>
    let s' := Sigs (sg_procs s) (kexit i (sg_base s)) in
    match sg_procs s !! i with
    | Some p => match ps_parent p with
                | Some j => post s' (j, Siginfo SIGCHLD 0 (pid_of cf i))
                | None => s'
                end
    | None => s'
    end;
|}.

(** ** Delivery *)

Context (handler : nat -> siginfo -> prog (scall C) unit).

(** A handler with the return that restores the mask. *)
Definition frame (h : nat) (x : siginfo) (restore : list Z) : prog (scall C) unit :=
  handler h x ;;; sys (Sigreturn restore) ;;; Ret tt.

(** Put a handler in front of what process [i] runs, which becomes
    [back action q]; [mask] is the mask in effect and [restore] the one to
    come back to. *)
Definition enter (i : nat) (mask restore : list Z)
    (back : action -> prog (scall C) Z -> prog (scall C) Z) (w : world (scall C) (sigs K))
    : option (world (scall C) (sigs K)) :=
  match procs w !! i, sg_procs (kern w) !! i with
  | Some p, Some ps =>
      match p_stat p, next_signal mask (ps_pending ps) with
      | Live q, Some (x, rest) =>
          match action_of ps (si_signo x) with
          | Some a =>
              Some (set_kern (alter_ps (fun p => set_mask (add_sig (si_signo x) mask) (set_pending rest p)) i (kern w))
                      (resume i p (bind (frame (sa_handler a) x restore) (fun _ => back a q)) w))
          | None => None
          end
      | _, _ => None
      end
  | _, _ => None
  end.

(** Steps a process makes without entering the system: loads, stores,
    buffered output. *)
Definition user_mode (q : prog (scall C) Z) : bool :=
  match q with
  | Sys (GLoad _) _ | Sys (GStore _ _) _ | Sys (Compare _ _) _ => true
  | Sys _ _ => false
  | Proc (Printf _) _ | Proc (Println _) _ => true
  | Proc _ _ => false
  | _ => true
  end.

(** Calls that [SA_RESTART] repeats. *)
Definition restartable (q : prog (scall C) Z) : bool :=
  match q with
  | Sys (Base c) _ => restarts c
  | Proc Wait _ | Proc (Waitpid _ _) _ => true
  | _ => false
  end.
Definition interrupted (a : action) (q : prog (scall C) Z) : prog (scall C) Z :=
  if sa_restart a && restartable q then q else adv [failed EINTR] q.

(** The mask while a call waits. *)
Definition wait_mask (q : prog (scall C) Z) (mask : list Z) : list Z :=
  match q with Sys (Sigsuspend m) _ => m | _ => mask end.

Definition mask_of (i : nat) (s : sigs K) : list Z :=
  match sg_procs s !! i with Some p => ps_mask p | None => [] end.

(** The return from a call: a pending signal is delivered first. *)
Definition settle (i : nat) (w : world (scall C) (sigs K)) : world (scall C) (sigs K) :=
  let mask := mask_of i (kern w) in default w (enter i mask mask (fun _ q => q) w).

Inductive sig_event : Type :=
| SRun
| SDeliver
| SInterrupt
| STick.

(** What the program of process [i] is; [None] when it has ended. *)
Definition current (i : nat) (w : world (scall C) (sigs K)) : option (prog (scall C) Z) :=
  match procs w !! i with
  | Some p => match p_stat p with Live q => Some q | _ => None end
  | None => None
  end.

Definition sig_step (i : nat) (ev : sig_event) (w : world (scall C) (sigs K))
    : option (world (scall C) (sigs K)) :=
  match current i w with
  | None => None
  | Some q =>
      let mask := mask_of i (kern w) in
      match ev with
      | SRun =>
          match run_step cf i w with
          | Some w1 => Some (if user_mode q then w1 else settle i w1)
          | None => None
          end
      | SDeliver => enter i mask mask (fun _ q => q) w
      | SInterrupt =>
          if user_mode q then None else
          match run_step cf i w with
          | None => enter i (wait_mask q mask) mask interrupted w
          | Some _ => None
          end
      | STick =>
          match sg_procs (kern w) !! i with
          | Some p =>
              if ps_alarm p
              then Some (set_kern (post (alter_ps (set_alarm false) i (kern w)) (i, Siginfo SIGALRM 0 0)) w)
              else None
          | None => None
          end
      end
  end.

Definition sstep (w w' : world (scall C) (sigs K)) : Prop :=
  exists i ev, sig_step i ev w = Some w'.

(** Total correctness with signals: every execution ends, and wherever it
    ends [Q] holds. *)
Definition sig_total (w : world (scall C) (sigs K)) (Q : world (scall C) (sigs K) -> Prop) : Prop :=
  total_of sstep w Q.

End Kernel.

(** A process with [n] global variables, all zero, and no handler. *)
Definition quiet (n : nat) : psig := Psig [] [] [] false None (replicate n 0) [].

(** Code that knows nothing of signals, in a program that does. *)
Fixpoint lift {C A : Type} (p : prog C A) : prog (scall C) A :=
  match p with
  | Ret a => Ret a
  | Proc c k => Proc c (fun r => lift (k r))
  | Sys c k => Sys (Base c) (fun r => lift (k r))
  | Exit n => Exit n
  | Exit_ n => Exit_ n
  | Undef => Undef
  | Loop body s k => Loop (fun s => lift (body s)) s (fun r => lift (k r))
  end.
