(* ===== verification/SigExplore.v ===== *)
(** * SigExplore: all schedules of a small program with signals

    The descriptions of [Explore] with handlers: what a process has left to
    run is the replies its [main] has got and, for every handler it is in,
    the replies that handler has got. *)

From S2P Require Import Prelude Posix Explore Sig.

(** A handler under way: its number, its argument, the mask to restore and
    the replies it has got. *)
Record running := Running { ru_handler : nat; ru_info : siginfo; ru_restore : list Z; ru_replies : list reply }.
Record stack := Stack { st_running : list running; st_main : list reply }.

(** One more reply goes to the first of two programs in sequence. *)
Lemma adv_bind {C A A'} r (p : prog C A) (f : A -> prog C A') :
  (forall a, p <> Ret a) -> adv [r] (bind p f) = bind (adv [r] p) f.
Proof.
  intros Hp. destruct p as [a|c k|c k|n|n| |S R body s k]; cbn; try done.
  - by destruct (Hp a).
  - symmetry. apply unroll_bind.
Qed.

Lemma adv_last {C A} rs r (p : prog C A) : adv (rs ++ [r]) p = adv [r] (adv rs p).
Proof.
  revert p. induction rs as [|x rs IH]; intros p; [done|].
  destruct p; cbn; try done; apply IH.
Qed.

Section SigExplore.
Context {C K : Type} `{HK : Kernel C K} `{HI : Interruptible C K} (cf : config).
Context (handler : nat -> siginfo -> prog (scall C) unit) (main : prog (scall C) Z).

Abbreviation code_of r := (frame handler (ru_handler r) (ru_info r) (ru_restore r)).

Fixpoint run_frames (fs : list running) (rs : list reply) : prog (scall C) Z :=
  match fs with
  | [] => adv rs main
  | r :: fs' => bind (adv (ru_replies r) (code_of r)) (fun _ => run_frames fs' rs)
  end.
Definition sconc (q : stack) : prog (scall C) Z := run_frames (st_running q) (st_main q).

Definition is_ret {A} (p : prog (scall C) A) : bool := match p with Ret _ => true | _ => false end.

(** A reply goes to the innermost handler; one that is finished is dropped. *)
Fixpoint reply_frames (fs : list running) (rs : list reply) (r : reply) : stack :=
  match fs with
  | [] => Stack [] (rs ++ [r])
  | f :: fs' =>
      if is_ret (adv (ru_replies f) (code_of f)) then reply_frames fs' rs r
      else
        let f' := Running (ru_handler f) (ru_info f) (ru_restore f) (ru_replies f ++ [r]) in
        if is_ret (adv (ru_replies f') (code_of f)) then Stack fs' rs else Stack (f' :: fs') rs
  end.
Definition sans (q : stack) (r : reply) : stack := reply_frames (st_running q) (st_main q) r.

Lemma sans_conc q r : sconc (sans q r) = adv [r] (sconc q).
Proof.
  destruct q as [fs rs]. unfold sconc, sans. cbn [st_running st_main].
  induction fs as [|f fs IH]; cbn [run_frames reply_frames]; [apply adv_last|].
  destruct (adv (ru_replies f) (code_of f)) as [a|c k|c k|n|n| |S R b s k] eqn:E; cbn [is_ret].
  { exact IH. }
  all: rewrite adv_bind by (intros ?; done).
  all: assert (Hn : adv (ru_replies f ++ [r]) (code_of f) = adv [r] (adv (ru_replies f) (code_of f)))
    by apply adv_last; rewrite E in Hn.
  all: destruct (is_ret (adv (ru_replies f ++ [r]) (code_of f))) eqn:Hr;
    cbn [ru_replies]; rewrite Hn in Hr |- *; rewrite Hr; cbn [st_running st_main run_frames];
    [|cbn [ru_replies ru_handler ru_info ru_restore]; by rewrite Hn].
  all: match type of Hr with is_ret ?p = _ => destruct p; done end.
Qed.

(** A handler is entered. *)
Definition push (h : nat) (x : siginfo) (restore : list Z) (q : stack) : stack :=
  Stack (Running h x restore [] :: st_running q) (st_main q).

Lemma push_conc h x m q : sconc (push h x m q) = bind (frame handler h x m) (fun _ => sconc q).
Proof. done. Qed.

Abbreviation state := (aworld stack (sigs K)).
Abbreviation sworld := (conc sconc).
#[local] Existing Instance sig_kernel.

Definition a_enter (i : nat) (mask restore : list Z) (back : action -> stack -> stack) (a : state)
    : option state :=
  match a_procs a !! i, sg_procs (a_kern a) !! i with
  | Some p, Some ps =>
      match a_stat p, next_signal mask (ps_pending ps) with
      | ALive q, Some (x, rest) =>
          match action_of ps (si_signo x) with
          | Some act =>
              Some (AWorld (<[i := AProc (ALive (push (sa_handler act) x restore (back act q)))
                                         (a_parent p) (a_obuf p)]> (a_procs a))
                      (alter_ps (fun p => set_mask (add_sig (si_signo x) mask) (set_pending rest p)) i (a_kern a))
                      (a_out a) (a_err a))
          | None => None
          end
      | _, _ => None
      end
  | _, _ => None
  end.

Lemma a_enter_conc i mask restore back aback a :
  (forall act q, sconc (aback act q) = back act (sconc q)) ->
  enter handler i mask restore back (sworld a) = sworld <$> a_enter i mask restore aback a.
Proof.
  intros Hb. unfold enter, a_enter. cbn [procs conc kern]. rewrite list_lookup_fmap.
  destruct (a_procs a !! i) as [p|]; [|done]. cbn [fmap option_fmap option_map].
  destruct (sg_procs (a_kern a) !! i) as [ps|]; [|done].
  destruct p as [[q|code| |] par ob]; cbn; try done.
  destruct (next_signal mask (ps_pending ps)) as [[x rest]|]; [|done].
  destruct (action_of ps (si_signo x)) as [act|]; [|done]. cbn.
  unfold conc, set_kern, resume, set_proc. cbn. rewrite list_fmap_insert. do 4 f_equal.
  unfold conc_proc. cbn [a_stat a_parent a_obuf conc_stat]. by rewrite push_conc, Hb.
Qed.

Definition a_settle (i : nat) (a : state) : state :=
  let mask := mask_of i (a_kern a) in default a (a_enter i mask mask (fun _ q => q) a).

Lemma a_settle_conc i a : settle handler i (sworld a) = sworld (a_settle i a).
Proof.
  unfold settle, a_settle. rewrite (a_enter_conc i _ _ (fun _ q => q) (fun _ q => q)) by done.
  cbn [kern conc]. by destruct (a_enter i _ _ _ a).
Qed.

Definition a_interrupted (act : action) (q : stack) : stack :=
  if sa_restart act && restartable (sconc q) then q else sans q (failed EINTR).

Abbreviation srun := (astep (H:=sig_kernel cf) cf sconc sans).

Definition sastep (i : nat) (ev : sig_event) (a : state) : option state :=
  match a_procs a !! i with
  | Some p =>
      match a_stat p with
      | ALive q =>
          let mask := mask_of i (a_kern a) in
          match ev with
          | SRun =>
              match srun a i with
              | Some a1 => Some (if user_mode (sconc q) then a1 else a_settle i a1)
              | None => None
              end
          | SDeliver => a_enter i mask mask (fun _ q => q) a
          | SInterrupt =>
              if user_mode (sconc q) then None else
              match srun a i with
              | None => a_enter i (wait_mask (sconc q) mask) mask a_interrupted a
              | Some _ => None
              end
          | STick =>
              match sg_procs (a_kern a) !! i with
              | Some p =>
                  if ps_alarm p
                  then Some (AWorld (a_procs a)
                         (post (alter_ps (set_alarm false) i (a_kern a)) (i, Siginfo SIGALRM 0 0))
                         (a_out a) (a_err a))
                  else None
              | None => None
              end
          end
      | _ => None
      end
  | None => None
  end.

Lemma sastep_conc i ev a :
  sig_step cf handler i ev (sworld a) = sworld <$> sastep i ev a.
Proof.
  assert (Hrun : run_step cf i (sworld a) = sworld <$> srun a i)
    by (apply astep_conc; apply sans_conc).
  unfold sig_step, sastep, current. cbn [procs conc]. rewrite list_lookup_fmap.
  destruct (a_procs a !! i) as [p|]; [|done]. cbn [fmap option_fmap option_map].
  destruct p as [[q|code| |] par ob]; cbn [conc_proc conc_stat a_stat p_stat]; try done.
  cbn [kern conc]. destruct ev.
  - rewrite Hrun. destruct (srun a i) as [a1|]; [|done]. cbn [fmap option_fmap option_map].
    rewrite a_settle_conc. by destruct (user_mode _).
  - by apply a_enter_conc.
  - destruct (user_mode _); [done|]. rewrite Hrun. destruct (srun a i); [done|]. cbn [fmap option_fmap option_map].
    apply a_enter_conc. intros act q'. unfold a_interrupted, interrupted.
    destruct (_ && _); [done|apply sans_conc].
  - destruct (sg_procs (a_kern a) !! i) as [ps|]; [|done]. by destruct (ps_alarm ps).
Qed.

Definition events : list sig_event := [SRun; SDeliver; SInterrupt; STick].
Definition ssuccs (a : state) : list state :=
  concat ((fun i => omap (fun ev => sastep i ev a) events) <$> seq 0 (length (a_procs a))).

Lemma ssuccs_step a w' :
  sstep cf handler (sworld a) w' <-> exists a', a' ∈ ssuccs a /\ w' = sworld a'.
Proof.
  unfold ssuccs, sstep. split.
  - intros (i & ev & Hi). rewrite sastep_conc in Hi. apply fmap_Some in Hi as (a' & Ha & ->).
    exists a'. split; [|done]. apply list_elem_of_In, in_concat. eexists. split.
    { apply list_elem_of_In, list_elem_of_fmap. exists i. split; [done|].
      apply elem_of_seq. split; [lia|]. unfold sastep in Ha.
      destruct (a_procs a !! i) eqn:Hp; [|done]. by apply lookup_lt_Some in Hp. }
    apply list_elem_of_In, list_elem_of_omap. exists ev. split; [by destruct ev; repeat constructor|exact Ha].
  - intros (a' & Ha & ->). apply list_elem_of_In, in_concat in Ha as (l & Hl & Ha).
    apply list_elem_of_In, list_elem_of_fmap in Hl as (i & -> & _).
    apply list_elem_of_In, list_elem_of_omap in Ha as (ev & _ & Hev).
    exists i, ev. by rewrite sastep_conc, Hev.
Qed.

Lemma slayers_boot (Q : world (scall C) (sigs K) -> Prop) s :
  layers_of ssuccs (fun a => Q (sworld a)) [AWorld [AProc (ALive (Stack [] [])) None []] s [] []] ->
  sig_total cf handler (boot main s) Q.
Proof.
  intros Hl. apply (layers_of_sound (sstep cf handler) sworld ssuccs) in Hl.
  2: intros a Q'; apply all_enough, ssuccs_step.
  by inversion Hl.
Qed.

(** ** One schedule *)

Fixpoint sastep_all (evs : list (nat * sig_event)) (a : state) : option state :=
  match evs with
  | [] => Some a
  | (i, ev) :: evs' => match sastep i ev a with Some a' => sastep_all evs' a' | None => None end
  end.

Lemma sastep_all_rtc evs a a' :
  sastep_all evs a = Some a' -> rtc (sstep cf handler) (sworld a) (sworld a').
Proof.
  revert a. induction evs as [|[i ev] evs IH]; intros a E; cbn in E; [by simplify_eq|].
  destruct (sastep i ev a) as [a1|] eqn:Ha; [|done].
  eapply rtc_l; [exists i, ev; by rewrite sastep_conc, Ha|by apply IH].
Qed.

Lemma srun_boot (Q : world (scall C) (sigs K) -> Prop) evs s a' :
  sastep_all evs (AWorld [AProc (ALive (Stack [] [])) None []] s [] []) = Some a' -> Q (sworld a') ->
  exists w, rtc (sstep cf handler) (boot main s) w /\ Q w.
Proof. intros E HQ. exists (sworld a'). split; [|done]. apply (sastep_all_rtc _ _ _ E). Qed.
End SigExplore.

(** Run one schedule with [evs] and leave the final state to check. *)
Ltac run_schedule evs :=
  eapply (srun_boot _ _ _ _ evs); [run_eval; reflexivity|].
