(* ===== verification/SignalProgs.v ===== *)
(** * SignalProgs: signals without descriptors

    [Signals/signal_mask_pending.c], [Signals/sigqueue_payload.c],
    [Signals/realtime_signal_order.c] and [Signals/sigsuspend_wait.c], over the
    layer of [Sig] alone. *)

From S2P Require Import Prelude Fmt Posix Explore Common Sig SigExplore.

(** A machine without other calls than those of [Sig]. *)
Inductive no_call : Type := .
#[export] Instance no_kernel : Kernel no_call unit := {|
  kexec := fun _ (c : no_call) _ => match c with end;
  kfails := fun (c : no_call) _ => match c with end;
  kfork := fun _ _ s => s;
  kexit := fun _ s => s;
|}.
#[export] Instance no_interruptible : Interruptible no_call unit := {|
  restarts := fun c : no_call => match c with end;
  posts := fun _ (c : no_call) _ => match c with end;
|}.

(** A first process with [n] global variables. *)
Definition alone (n : nat) : sigs unit := Sigs [quiet n] tt.

(** ** [Signals/signal_mask_pending.c] *)

Module MaskPending.
Definition delivered : nat := 0.
Definition on_usr1 : prog (scall no_call) unit := sys (GStore delivered 1) ;;; Ret tt.

Definition main : prog (scall no_call) Z :=
  sys (Sigaction SIGUSR1 (Action 0 false)) ;;;
  r <- sys (Sigprocmask true [SIGUSR1]) ;;
  if rv r =? -1 then die_errno (rerr r) (B "sigprocmask block") else
  sys (Raise SIGUSR1) ;;;
  pending <- sys Sigpending ;;
  d <- sys (GLoad delivered) ;;
  proc (Println (B "pending-before-unblock=" ++ fmt_d (Z.b2z (member SIGUSR1 (rints pending))) ++
                 B " delivered=" ++ fmt_d (rv d))) ;;;
  r <- sys (Sigprocmask false [SIGUSR1]) ;;
  if rv r =? -1 then die_errno (rerr r) (B "sigprocmask unblock") else
  sys Usleep ;;;
  d <- sys (GLoad delivered) ;;
  proc (Println (B "delivered-after-unblock=" ++ fmt_d (rv d))) ;;;
  Ret 0.

(** [signal_mask_pending.c]: a blocked signal stays pending and is not
    delivered, and it is delivered by the time it is unblocked, however the
    delivery is timed. *)
Theorem signal_mask_pending_correct cf :
  sig_total cf (fun _ _ => on_usr1) (boot main (alone 1)) (fun w =>
    finished 0 (ln "pending-before-unblock=1 delivered=0" ++ ln "delivered-after-unblock=1") w).
Proof.
  destruct cf as [[] p]; apply slayers_boot. all: explore; ended.
Qed.
End MaskPending.

(** ** [Signals/sigqueue_payload.c] *)

Module SigqueuePayload.
Definition got_payload : nat := 0.
Definition payload_value : nat := 1.

Definition on_usr1 (info : siginfo) : prog (scall no_call) unit :=
  sys (GStore payload_value (si_value info)) ;;;
  sys (GStore got_payload 1) ;;; Ret tt.

(** [while (!got_payload) pause();] *)
Definition wait_body : unit -> prog (scall no_call) (unit + unit) :=
  fun _ =>
    g <- sys (GLoad got_payload) ;;
    if rv g =? 0 then sys Pause ;;; Ret (inl tt) else Ret (inr tt).

Definition main : prog (scall no_call) Z :=
  r <- sys (Sigaction SIGUSR1 (Action 0 false)) ;;
  if rv r =? -1 then die_errno (rerr r) (B "sigaction") else
  pid <- proc Getpid ;;
  r <- sys (Sigqueue (rv pid) SIGUSR1 4096) ;;
  if rv r =? -1 then die_errno (rerr r) (B "sigqueue") else
  loop wait_body tt ;;;
  v <- sys (GLoad payload_value) ;;
  proc (Println (B "sigqueue payload=" ++ fmt_d (rv v))) ;;;
  Ret 0.

(** [sigqueue_payload.c]: the wait loop cannot miss the signal and the
    handler's payload is the one queued. *)
Theorem sigqueue_payload_correct cf :
  sig_total cf (fun _ => on_usr1) (boot main (alone 2)) (fun w =>
    finished 0 (ln "sigqueue payload=4096") w).
Proof. destruct cf as [[] p]; apply slayers_boot; explore; ended. Qed.
End SigqueuePayload.

(** ** [Signals/realtime_signal_order.c] *)

Module RealtimeOrder.
(** [seen], then the three [values]. *)
Definition seen : nat := 0.
Definition value_cell (n : Z) : nat := S (Z.to_nat n).

(** [if (seen < 3) values[seen++] = info->si_value.sival_int;] *)
Definition on_rt (info : siginfo) : prog (scall no_call) unit :=
  s <- sys (GLoad seen) ;;
  if rv s <? 3 then
    s <- sys (GLoad seen) ;;
    n <- int_add (rv s) 1 ;;
    sys (GStore seen n) ;;;
    sys (GStore (value_cell (rv s)) (si_value info)) ;;; Ret tt
  else Ret tt.

Definition wait_body : unit -> prog (scall no_call) (unit + unit) :=
  fun _ =>
    s <- sys (GLoad seen) ;;
    if rv s <? 3 then sys Pause ;;; Ret (inl tt) else Ret (inr tt).

Definition queue_one (i : Z) : prog (scall no_call) unit :=
  v <- int_add 100 i ;;
  pid <- proc Getpid ;;
  sys (Sigqueue (rv pid) SIGRTMIN v) ;;; Ret tt.

Definition main : prog (scall no_call) Z :=
  sys (Sigaction SIGRTMIN (Action 0 false)) ;;;
  sys (Sigprocmask true [SIGRTMIN]) ;;;
  for_ 3 0 queue_one ;;;
  sys (Sigprocmask false [SIGRTMIN]) ;;;
  loop wait_body tt ;;;
  a <- sys (GLoad (value_cell 0)) ;;
  b <- sys (GLoad (value_cell 1)) ;;
  c <- sys (GLoad (value_cell 2)) ;;
  proc (Println (B "realtime values=" ++ fmt_d (rv a) ++ B "," ++ fmt_d (rv b) ++ B "," ++ fmt_d (rv c))) ;;;
  Ret 0.

(** [realtime_signal_order.c]: the three queued signals are delivered
    once each, in the order in which they were sent. *)
Theorem realtime_signal_order_correct cf :
  sig_total cf (fun _ => on_rt) (boot main (alone 4)) (fun w =>
    finished 0 (ln "realtime values=100,101,102") w).
Proof. destruct cf as [[] p]; apply slayers_boot; explore; ended. Qed.
End RealtimeOrder.

(** ** [Signals/sigsuspend_wait.c] *)

Module SigsuspendWait.
Definition ready : nat := 0.
Definition on_usr1 : prog (scall no_call) unit := sys (GStore ready 1) ;;; Ret tt.

Definition wait_body : unit -> prog (scall no_call) (unit + unit) :=
  fun _ =>
    r <- sys (GLoad ready) ;;
    if rv r =? 0 then sys (Sigsuspend []) ;;; Ret (inl tt) else Ret (inr tt).

Definition main : prog (scall no_call) Z :=
  sys (Sigaction SIGUSR1 (Action 0 false)) ;;;
  sys (Sigprocmask true [SIGUSR1]) ;;;
  pid <- proc Fork ;;
  if rv pid =? 0 then
    sys Usleep ;;;
    ppid <- sys Getppid ;;
    sys (Kill (rv ppid) SIGUSR1) ;;;
    Exit_ 0
  else
  loop wait_body tt ;;;
  proc (Println (B "sigsuspend observed SIGUSR1 atomically")) ;;;
  reap_all_children ;;;
  Ret 0.

(** C24. [sigsuspend_wait.c]: wherever the child's signal falls relative to
    the parent's test and wait, it is not missed; the program ends and reaps
    its child. *)
Theorem sigsuspend_wait_correct cf :
  sig_total cf (fun _ _ => on_usr1) (boot main (alone 1)) (fun w =>
    finished 0 (ln "sigsuspend observed SIGUSR1 atomically") w).
Proof. destruct cf as [[] p]; apply slayers_boot; explore; ended. Qed.
End SigsuspendWait.
