(* ===== verification/SignalIo.v ===== *)
(** * SignalIo: programs in which signals meet descriptors

    [Signals/sigaction_restart_demo.c], [Signals/sigchld_supervisor.c],
    [Pipes/self_pipe_signal_reactor.c] and [AlternativeIO/signalfd_sigusr1.c],
    over the signal layer of [Sig] and the descriptors of [Io]. *)

From S2P Require Import Prelude Fmt Posix Explore Common Io Sig SigExplore.

(** The calls on slow objects that [SA_RESTART] repeats; [poll], [select] and
    [epoll_wait] always fail with [EINTR]. *)
#[export] Instance io_interruptible : Interruptible io_call io := {|
  restarts := fun c =>
    match c with
    | Read _ _ | Write _ _ | OpenFifo _ _ _ | Connect _ _ | Accept _ _ | Sendto _ _ _
    | Recvfrom _ _ | SendFd _ _ | RecvFd _ | Splice _ _ _ => true
    | _ => false
    end;
  posts := fun _ _ _ => [];
|}.

#[export, refine] Instance scall_FdCalls : FdCalls (scall io_call) := {|
  c_close := fun fd => Base (Close fd);
  c_write := fun fd b => Base (Write fd b);
  c_getfl := fun fd => Base (Getfl fd);
  c_setfl := fun fd fl => Base (Setfl fd fl);
  as_write := fun c => match c with Base (Write fd chunk) => Some (fd, chunk) | _ => None end
|}.
Proof. done. Defined.

(** A first process with [n] global variables and nothing open. *)
Definition with_io (n : nat) : sigs io := Sigs [quiet n] (idle []).

Definition two (r : reply) : Z * Z := (default 0 (rints r !! 0%nat), default 0 (rints r !! 1%nat)).

(** ** [Signals/sigaction_restart_demo.c] *)

Module RestartDemo.
Definition handled : nat := 0.
Definition on_usr1 : prog (scall io_call) unit := sys (GStore handled 1) ;;; Ret tt.

Definition message : bytes := ln "read resumed after signal".

Definition main : prog (scall io_call) Z :=
  p <- sys (Base Pipe) ;;
  if rv p =? -1 then die_errno (rerr p) (B "pipe") else
  let '(rd, wr) := two p in
  r <- sys (Sigaction SIGUSR1 (Action 0 true)) ;;
  if rv r =? -1 then die_errno (rerr r) (B "sigaction") else
  child <- proc Fork ;;
  if rv child =? 0 then
    sys Usleep ;;;
    ppid <- sys Getppid ;;
    sys (Kill (rv ppid) SIGUSR1) ;;;
    sys Usleep ;;;
    write_all wr message 26 ;;;
    Exit_ 0
  else
  n <- sys (Base (Read rd 63)) ;;
  if rv n =? -1 then die_errno (rerr n) (B "read") else
  buffer <- terminated 64 n ;;
  h <- sys (GLoad handled) ;;
  proc (Printf (B "handled=" ++ fmt_d (rv h) ++ B " " ++ buffer)) ;;;
  wait_for_pid (rv child) ;;;
  Ret 0.

(** C25. [sigaction_restart_demo.c]: whenever the signal arrives, before the
    read, during it or after it, the read is not cut short, the handler has
    run by the time the message is printed, and the child is reaped. *)
Theorem sigaction_restart_correct cf :
  sig_total cf (fun _ _ => on_usr1) (boot main (with_io 1)) (fun w =>
    finished 0 (ln "handled=1 read resumed after signal") w).
Proof. destruct cf as [[] p]; apply slayers_boot; explore; ended. Qed.
End RestartDemo.

(** ** [AlternativeIO/signalfd_sigusr1.c] *)

Module SignalfdUsr1.
Definition sizeof_info : Z := 128.

Definition main : prog (scall io_call) Z :=
  r <- sys (Sigprocmask true [SIGUSR1]) ;;
  if rv r =? -1 then die_errno (rerr r) (B "sigprocmask") else
  fd <- sys (Signalfd [SIGUSR1]) ;;
  if rv fd =? -1 then die_errno (rerr fd) (B "signalfd") else
  sys (Raise SIGUSR1) ;;;
  n <- sys (ReadSiginfo (rv fd)) ;;
  if negb (rv n =? sizeof_info) then die_errno (rerr n) (B "read signalfd") else
  let '(signo, pid) := two n in
  proc (Println (B "signalfd received signo=" ++ fmt_d signo ++ B " pid=" ++ fmt_id pid)) ;;;
  Ret 0.

(** [signalfd_sigusr1.c]: the blocked signal is read from the descriptor
    with its number and the sender's process id, which is the program's own. *)
Theorem signalfd_correct cf :
  sig_total cf (fun _ _ => Ret tt) (boot main (with_io 0)) (fun w =>
    finished 0 (B "signalfd received signo=10 pid=" ++ fmt_id (pid_of cf 0) ++ [LF]) w).
Proof. destruct cf as [[] p]; apply slayers_boot; explore; ended. Qed.
End SignalfdUsr1.

(** ** [Pipes/self_pipe_signal_reactor.c] *)

Module SelfPipe.
(** The two cells of [signal_pipe]. *)
Definition pipe_rd : nat := 0.
Definition pipe_wr : nat := 1.

Definition signal_handler (info : siginfo) : prog (scall io_call) unit :=
  fd <- sys (GLoad pipe_wr) ;;
  sys (Base (Write (rv fd) [ascii_of_nat (Z.to_nat (si_signo info mod 256))])) ;;;
  Ret tt.

(** One trip of [while (events < 2)]. *)
Definition react (events : Z) : prog (scall io_call) (Z + unit) :=
  if events <? 2 then
    fd <- sys (GLoad pipe_rd) ;;
    p <- sys (Base (Poll [rv fd])) ;;
    if rv p <=? 0 then die (B "poll timed out") else
    fd <- sys (GLoad pipe_rd) ;;
    n <- sys (Base (Read (rv fd) 1)) ;;
    if rv n =? 1 then
      proc (Println (B "main loop handled signal " ++ fmt_d (le_value (rbytes n)) ++ B " outside handler")) ;;;
      Ret (inl (events + 1))
    else Ret (inl events)
  else Ret (inr tt).

Definition main : prog (scall io_call) Z :=
  p <- sys (Base Pipe) ;;
  if rv p =? -1 then die_errno (rerr p) (B "pipe") else
  let '(rd, wr) := two p in
  sys (GStore pipe_rd rd) ;;;
  sys (GStore pipe_wr wr) ;;;
  r <- sys (Sigaction SIGUSR1 (Action 0 true)) ;;
  if rv r =? -1 then die_errno (rerr r) (B "sigaction") else
  r <- sys (Sigaction SIGALRM (Action 0 true)) ;;
  if rv r =? -1 then die_errno (rerr r) (B "sigaction") else
  sys (Raise SIGUSR1) ;;;
  sys SetAlarm ;;;
  loop react 0 ;;;
  fd <- sys (GLoad pipe_rd) ;;
  xclose (rv fd) ;;;
  fd <- sys (GLoad pipe_wr) ;;
  xclose (rv fd) ;;;
  Ret 0.

Definition handled_line (n : Z) : bytes :=
  B "main loop handled signal " ++ fmt_d n ++ ln " outside handler".

(** How a run can end. *)
Definition outcome_ok (w : world (scall io_call) (sigs io)) : Prop :=
  finished 0 (handled_line 10 ++ handled_line 14) w.
Definition outcome_dies (w : world (scall io_call) (sigs io)) : Prop :=
  (exists b, procs w = [Process (Zombie 1) None b]) /\
  out w = handled_line 10 /\ errout w = ln "error: poll timed out".

(** C20. [self_pipe_signal_reactor.c] under every timing: it always ends; it
    reports the first signal; and then it either reports the alarm and exits
    with 0, or dies with [poll timed out]. *)
Theorem self_pipe_outcomes cf :
  sig_total cf (fun _ => signal_handler) (boot main (with_io 2)) (fun w => outcome_ok w \/ outcome_dies w).
Proof.
  destruct cf as [[] p]; apply slayers_boot; explore.
  all: (left; ended) || (right; split; [by eexists|split; reflexivity]).
Qed.

(** The defect of [self_pipe_signal_reactor.c]: when the alarm expires
    while the program waits in [poll], which [SA_RESTART] does not repeat, the
    program takes the interruption for a timeout and dies. *)
Theorem self_pipe_dies cf :
  exists w, rtc (sstep cf (fun _ => signal_handler)) (boot main (with_io 2)) w /\ outcome_dies w.
Proof.
  destruct cf as [[] p];
    run_schedule (replicate 18 (0%nat, SRun) ++ [(0%nat, STick); (0%nat, SInterrupt)] ++ replicate 5 (0%nat, SRun));
    (split; [by eexists|split; reflexivity]).
Qed.
End SelfPipe.

(** ** [Signals/sigchld_supervisor.c] *)

Module Supervisor.
Definition RESTART_LIMIT : Z := 2.
Definition pipe_rd : nat := 0.
Definition pipe_wr : nat := 1.

Definition on_sigchld : prog (scall io_call) unit :=
  fd <- sys (GLoad pipe_wr) ;;
  sys (Base (Write (rv fd) [ascii_of_nat 1])) ;;;
  Ret tt.

Definition worker_text (attempt pid : Z) : bytes :=
  B "worker attempt=" ++ fmt_d attempt ++ B " pid=" ++ fmt_id pid.
Definition reaped_text (pid status : Z) : bytes :=
  B "supervisor reaped pid=" ++ fmt_id pid ++ B " status=" ++ fmt_d status.

Definition start_worker (attempt : Z) : prog (scall io_call) Z :=
  pid <- proc Fork ;;
  if rv pid =? -1 then die_errno (rerr pid) (B "fork") else
  if rv pid =? 0 then
    me <- proc Getpid ;;
    proc (Println (worker_text attempt (rv me))) ;;;
    proc Fflush ;;;
    Exit_ (30 + attempt)
  else Ret (rv pid).

(** One trip of [while (attempt < RESTART_LIMIT)]; the state is the attempt
    and the worker. *)
Definition supervise : Z * Z -> prog (scall io_call) ((Z * Z) + unit) :=
  fun '(attempt, worker) =>
    if attempt <? RESTART_LIMIT then
      fd <- sys (GLoad pipe_rd) ;;
      p <- sys (Base (Poll [rv fd])) ;;
      if rv p <=? 0 then die (B "poll timed out waiting for SIGCHLD") else
      fd <- sys (GLoad pipe_rd) ;;
      sys (Base (Read (rv fd) 8)) ;;;
      r <- proc (Waitpid worker true) ;;
      same <- sys (Compare (rv r) worker) ;;
      if negb (rv same =? 0) then
        proc (Println (reaped_text (rv r) (default 0 (rints r !! 0%nat)))) ;;;
        if attempt + 1 <? RESTART_LIMIT then
          w <- start_worker (attempt + 1) ;;
          Ret (inl (attempt + 1, w))
        else Ret (inl (attempt + 1, worker))
      else Ret (inl (attempt, worker))
    else Ret (inr tt).

Definition main : prog (scall io_call) Z :=
  p <- sys (Base Pipe) ;;
  if rv p =? -1 then die_errno (rerr p) (B "pipe") else
  let '(rd, wr) := two p in
  sys (GStore pipe_rd rd) ;;;
  sys (GStore pipe_wr wr) ;;;
  sys (Sigaction SIGCHLD (Action 0 true)) ;;;
  worker <- start_worker 0 ;;
  loop supervise (0, worker) ;;;
  Ret 0.

(** The lines of worker [n], whose process id is that of process [n + 1]. *)
Definition worker_line (cf : config) (n : nat) : bytes :=
  worker_text (Z.of_nat n) (pid_of cf (S n)) ++ [LF].
Definition reaped_line (cf : config) (n : nat) : bytes :=
  reaped_text (pid_of cf (S n)) (30 + Z.of_nat n) ++ [LF].

(** Standard output up to the second worker's line: the second worker has a
    copy of the buffer in which the first reaping waits to be written. *)
Definition restarted (cf : config) : bytes :=
  worker_line cf 0 ++ reaped_line cf 0 ++ worker_line cf 1 ++ (if tty cf then [] else reaped_line cf 0).

Definition both_reaped (cf : config) (w : world (scall io_call) (sigs io)) : Prop :=
  finished 0 (restarted cf ++ reaped_line cf 1) w.

(** The supervisor has died in attempt [n], leaving the worker unreaped. *)
Definition died (cf : config) (n : nat) (w : world (scall io_call) (sigs io)) : Prop :=
  (exists b, procs w = Process (Zombie 1) None b ::
     replicate n (Process Reaped (Some 0%nat) []) ++ [Process (Zombie (30 + Z.of_nat n)) (Some 0%nat) []]) /\
  out w = (if Nat.eqb n 0 then worker_line cf 0 else restarted cf) /\
  errout w = ln "error: poll timed out waiting for SIGCHLD".

(** The end of a run that died. *)
Ltac ended_died :=
  split; [eexists; reflexivity|]; split; [run_eval; reflexivity|reflexivity].

(** C18. [sigchld_supervisor.c] under every timing: it always ends; it has
    restarted and reaped both workers, with what it prints, or it has died in
    the first or in the second attempt with the message of a poll timeout. *)
Theorem supervisor_outcomes cf :
  sig_total cf (fun _ _ => on_sigchld) (boot main (with_io 2)) (fun w =>
    both_reaped cf w \/ died cf 0 w \/ died cf 1 w).
Proof.
  destruct cf as [[] p]; apply slayers_boot; explore.
  all: first [left; ended | right; left; ended_died | right; right; ended_died].
Qed.

(** C19. The defect of [sigchld_supervisor.c]: when the worker ends while the
    supervisor waits in [poll], which is the usual case, [SIGCHLD] interrupts
    [poll] and the supervisor takes this for a timeout and dies. *)
Theorem supervisor_dies cf :
  exists w, rtc (sstep cf (fun _ _ => on_sigchld)) (boot main (with_io 2)) w /\ died cf 0 w.
Proof.
  destruct cf as [[] p];
    run_schedule (replicate 7 (0%nat, SRun) ++ replicate 4 (1%nat, SRun) ++
                  [(0%nat, SInterrupt)] ++ replicate 5 (0%nat, SRun));
    ended_died.
Qed.
End Supervisor.
