(* ===== verification/Timed.v ===== *)
(** * Timed: POSIX message queues and waits with a deadline

    The kernel behind [MessageQueues/posix_mq_timed_receive.c],
    [MessageQueues/posix_mq_notify_signal.c] and
    [Semaphores/posix_sem_timedwait_timeout.c]: named queues of prioritised
    messages, a clock, and unnamed semaphores with a timed wait. *)

From S2P Require Import Prelude Fmt Posix Explore Common Io Sig SigExplore.

(** A queue: its limits, its messages with the highest priority first and the
    oldest first among equals, and the process to notify. *)
Record mqueue := Mqueue {
  mq_maxmsg : Z;
  mq_msgsize : Z;
  mq_msgs : list (Z * bytes);
  mq_notify : option (nat * Z);
}.

(** A descriptor refers to a queue and may be non-blocking; the clock reads
    seconds and nanoseconds. *)
Record timed := TimedState {
  t_names : list (bytes * nat);
  t_queues : list mqueue;
  t_mqds : list (option (nat * bool));
  t_sems : list Z;
  t_clock : Z * Z;
}.

Inductive timed_call : Type :=
| MqUnlink (name : bytes)
| MqOpen (name : bytes) (nonblock : bool) (maxmsg msgsize : Z)
| MqSend (mq : Z) (text : bytes) (prio : Z)
| MqReceive (mq size : Z) (deadline : option (Z * Z))
| MqNotify (mq sig : Z)
| MqClose (mq : Z)
| ClockGettime
| SemInit (v : Z)
| SemTimedwait (sem : Z) (deadline : Z * Z)
| SemDestroy (sem : Z).

Definition NSEC : Z := 1000000000.

Definition set_queues (s : timed) (l : list mqueue) : timed :=
  TimedState (t_names s) l (t_mqds s) (t_sems s) (t_clock s).
Definition set_names (s : timed) (l : list (bytes * nat)) : timed :=
  TimedState l (t_queues s) (t_mqds s) (t_sems s) (t_clock s).
Definition set_mqds (s : timed) (l : list (option (nat * bool))) : timed :=
  TimedState (t_names s) (t_queues s) l (t_sems s) (t_clock s).
Definition set_sems (s : timed) (l : list Z) : timed :=
  TimedState (t_names s) (t_queues s) (t_mqds s) l (t_clock s).
Definition set_clock (s : timed) (t : Z * Z) : timed :=
  TimedState (t_names s) (t_queues s) (t_mqds s) (t_sems s) t.

Definition name_eqb (a b : bytes) : bool := bool_decide (a = b).
Definition named (name : bytes) (l : list (bytes * nat)) : option nat :=
  snd <$> List.find (fun e => name_eqb name e.1) l.

(** A message goes behind those of the same or a higher priority. *)
Fixpoint enqueue (m : Z * bytes) (l : list (Z * bytes)) : list (Z * bytes) :=
  match l with
  | [] => [m]
  | x :: l' => if x.1 <? m.1 then m :: l else x :: enqueue m l'
  end.

(** A [timespec] that the kernel accepts, and when one is after another. *)
Definition valid_time (t : Z * Z) : bool := (0 <=? t.1) && (0 <=? t.2) && (t.2 <? NSEC).
Definition later (a b : Z * Z) : bool := (b.1 <? a.1) || ((b.1 =? a.1) && (b.2 <? a.2)).

Definition with_mq (s : timed) (mq : Z) (f : nat -> bool -> mqueue -> kres timed) : kres timed :=
  match (if mq <? 0 then None else default None (t_mqds s !! Z.to_nat mq)) with
  | Some (n, nb) => match t_queues s !! n with Some q => f n nb q | None => Fault end
  | None => Done (failed EBADF) s
  end.
Definition put_mq (s : timed) (n : nat) (q : mqueue) : timed := set_queues s (<[n := q]> (t_queues s)).

(** With a deadline, nobody else to send and an empty queue, the wait ends
    when the clock reaches the deadline; here the call blocks and the timeout
    is a failing call, as for [poll]. *)
Definition mq_receive (s : timed) (mq size : Z) (deadline : option (Z * Z)) : kres timed :=
  if match deadline with Some t => negb (valid_time t) | None => false end then Done (failed EINVAL) s
  else with_mq s mq (fun n nb q =>
    if size <? mq_msgsize q then Done (failed EMSGSIZE) s
    else match mq_msgs q with
         | [] => if nb then Done (failed EAGAIN) s else Block
         | (p, text) :: rest =>
             Done (Reply (blen text) EOK text [p])
               (put_mq s n (Mqueue (mq_maxmsg q) (mq_msgsize q) rest (mq_notify q)))
         end).

(** The wait on a semaphore that nobody posts ends at the deadline. *)
Definition sem_timedwait (s : timed) (sem : Z) (deadline : Z * Z) : kres timed :=
  match t_sems s !! Z.to_nat sem with
  | Some v =>
      if v >? 0 then Done (ok 0) (set_sems s (<[Z.to_nat sem := v - 1]> (t_sems s)))
      else if negb (valid_time deadline) then Done (failed EINVAL) s
      else Done (failed ETIMEDOUT) (if later deadline (t_clock s) then set_clock s deadline else s)
  | None => Fault
  end.

Definition timed_exec (i : nat) (c : timed_call) (s : timed) : kres timed :=
  match c with
  | MqUnlink name =>
      match named name (t_names s) with
      | Some _ => Done (ok 0) (set_names s (List.filter (fun e => negb (name_eqb name e.1)) (t_names s)))
      | None => Done (failed ENOENT) s
      end
  | MqOpen name nb maxmsg msgsize =>
      let mqd n s := Done (ok (Z.of_nat (length (t_mqds s)))) (set_mqds s (t_mqds s ++ [Some (n, nb)])) in
      match named name (t_names s) with
      | Some n => mqd n s
      | None =>
          if (maxmsg <=? 0) || (msgsize <=? 0) then Done (failed EINVAL) s else
          let n := length (t_queues s) in
          mqd n (set_names (set_queues s (t_queues s ++ [Mqueue maxmsg msgsize [] None]))
                           ((name, n) :: t_names s))
      end
  | MqSend mq text prio =>
      with_mq s mq (fun n nb q =>
        if mq_msgsize q <? blen text then Done (failed EMSGSIZE) s
        else if Z.of_nat (length (mq_msgs q)) >=? mq_maxmsg q
             then if nb then Done (failed EAGAIN) s else Block
        else Done (ok 0) (put_mq s n
               (Mqueue (mq_maxmsg q) (mq_msgsize q) (enqueue (prio, text) (mq_msgs q))
                       (match mq_msgs q with [] => None | _ => mq_notify q end))))
  | MqReceive mq size deadline => mq_receive s mq size deadline
  | MqNotify mq sig =>
      with_mq s mq (fun n _ q =>
        match mq_notify q with
        | Some _ => Done (failed EBUSY) s
        | None => Done (ok 0) (put_mq s n (Mqueue (mq_maxmsg q) (mq_msgsize q) (mq_msgs q) (Some (i, sig))))
        end)
  | MqClose mq => with_mq s mq (fun _ _ _ => Done (ok 0) (set_mqds s (<[Z.to_nat mq := None]> (t_mqds s))))
  | ClockGettime => Done (ok_ints 0 [(t_clock s).1; (t_clock s).2]) s
  | SemInit v => Done (ok (Z.of_nat (length (t_sems s)))) (set_sems s (t_sems s ++ [v]))
  | SemTimedwait sem deadline => sem_timedwait s sem deadline
  | SemDestroy sem => Done (ok 0) s
  end.

Definition timed_fails (c : timed_call) (e : errno) : bool :=
  match c with
  | MqReceive _ _ (Some _) => bool_decide (e = EINTR \/ e = ETIMEDOUT)
  | MqReceive _ _ None | MqSend _ _ _ => bool_decide (e = EINTR)
  | SemTimedwait _ _ => bool_decide (e = EINTR)
  | MqOpen _ _ _ _ => bool_decide (e = EMFILE)
  | _ => false
  end.

#[export] Instance timed_kernel : Kernel timed_call timed := {|
  kexec := timed_exec;
  kfails := timed_fails;
  kfork := fun _ _ s => s;
  kexit := fun _ s => s;
|}.

(** A message that arrives in an empty queue notifies the process that has
    asked for it. *)
#[export] Instance timed_interruptible : Interruptible timed_call timed := {|
  restarts := fun c => match c with MqSend _ _ _ | MqReceive _ _ _ | SemTimedwait _ _ => true | _ => false end;
  posts := fun i c s =>
    match c with
    | MqSend mq text _ =>
        match default None (t_mqds s !! Z.to_nat mq) with
        | Some (n, _) =>
            match t_queues s !! n with
            | Some (Mqueue maxmsg msgsize [] (Some (j, sig))) =>
                if (msgsize <? blen text) || (0 >=? maxmsg) then [] else [(j, Siginfo sig 0 0)]
            | _ => []
            end
        | None => []
        end
    | _ => []
    end;
|}.

(** [long] addition: overflow is undefined. *)
Definition in_long (z : Z) : bool := (- 2 ^ 63 <=? z) && (z <? 2 ^ 63).
Definition long_add {C} (a b : Z) : prog C Z := if in_long (a + b) then Ret (a + b) else Undef.

(** ** [Semaphores/posix_sem_timedwait_timeout.c] *)

Module SemTimedwaitTimeout.
(** The deadline, a tenth of a second from the time read. *)
Definition deadline_from (sec nsec : Z) : prog timed_call (Z * Z) :=
  nsec <- long_add nsec 100000000 ;;
  if nsec >=? 1000000000 then
    sec <- long_add sec 1 ;;
    nsec <- long_add nsec (-1000000000) ;;
    Ret (sec, nsec)
  else Ret (sec, nsec).

Definition main : prog timed_call Z :=
  sem <- sys (SemInit 0) ;;
  if rv sem =? -1 then die_errno (rerr sem) (B "sem_init") else
  now <- sys ClockGettime ;;
  deadline <- deadline_from (default 0 (rints now !! 0%nat)) (default 0 (rints now !! 1%nat)) ;;
  r <- sys (SemTimedwait (rv sem) deadline) ;;
  (if (rv r =? -1) && bool_decide (rerr r = ETIMEDOUT)
   then proc (Println (B "sem_timedwait expired as expected")) ;;; Ret tt
   else die (B "sem_timedwait did not time out")) ;;;
  sys (SemDestroy (rv sem)) ;;;
  Ret 0.

(** The time in nanoseconds. *)
Definition nanoseconds (t : Z * Z) : Z := t.1 * NSEC + t.2.

(** The normalised deadline is exactly a tenth of a second after the time
    read, and the kernel accepts it. *)
Lemma deadline_normalised sec nsec :
  valid_time (sec, nsec) = true -> sec < 2 ^ 62 ->
  exists d, deadline_from sec nsec = Ret d /\ valid_time d = true /\
            nanoseconds d = nanoseconds (sec, nsec) + 100000000.
Proof.
  unfold valid_time, deadline_from, long_add, in_long, nanoseconds, NSEC. cbn [fst snd].
  intros Hv Hs. apply andb_true_iff in Hv as [Hv H2]. apply andb_true_iff in Hv as [H0 H1].
  apply Z.leb_le in H0, H1. apply Z.ltb_lt in H2.
  assert (Hr : forall z, 0 <= z < 2 ^ 62 + 10 -> (- 2 ^ 63 <=? z) && (z <? 2 ^ 63) = true)
    by (intros z Hz; apply andb_true_iff; split; [apply Z.leb_le|apply Z.ltb_lt]; lia).
  rewrite Hr by lia. cbn [bind]. destruct (Z.geb_spec (nsec + 100000000) 1000000000).
  - rewrite Hr by lia. cbn [bind]. rewrite Hr by lia. eexists. split; [done|]. cbn [fst snd].
    split; [|lia]. rewrite !andb_true_iff, !Z.leb_le, Z.ltb_lt. lia.
  - eexists. split; [done|]. cbn [fst snd]. split; [|lia].
    rewrite !andb_true_iff, !Z.leb_le, Z.ltb_lt. lia.
Qed.

Lemma later_nanoseconds a b :
  valid_time a = true -> valid_time b = true -> nanoseconds b < nanoseconds a -> later a b = true.
Proof.
  unfold valid_time, later, nanoseconds, NSEC. rewrite !andb_true_iff, !Z.leb_le, !Z.ltb_lt.
  intros Ha Hb Hl. rewrite orb_true_iff, andb_true_iff, !Z.ltb_lt, Z.eqb_eq. lia.
Qed.

(** C36. [posix_sem_timedwait_timeout.c]: whatever time it is when the program
    starts, also in the last tenth of a second, the deadline it computes is
    valid and exactly 100 ms later, the wait expires when the clock shows the
    deadline, and the program reports it and exits with 0. *)
Theorem sem_timedwait_correct cf sec nsec :
  valid_time (sec, nsec) = true -> sec < 2 ^ 62 ->
  total cf (boot main (TimedState [] [] [] [] (sec, nsec))) (fun w =>
    finished 0 (ln "sem_timedwait expired as expected") w /\
    nanoseconds (t_clock (kern w)) = nanoseconds (sec, nsec) + 100000000).
Proof.
  intros Hv Hs. destruct (deadline_normalised _ _ Hv Hs) as (d & Hd & Hvd & Hnd).
  last_call (reflexivity). cbn [rv ok].
  last_call (reflexivity). cbn -[main deadline_from].
  rewrite Hd. cbn [bind].
  eapply last_sys; [auto with posix| |].
  { cbn. unfold sem_timedwait. cbn. rewrite Hvd. cbn. reflexivity. }
  rewrite (later_nanoseconds _ _ Hvd Hv) by lia. cbn -[stdio_line].
  last_print.
  last_call (reflexivity).
  last_end. split; [|exact Hnd].
  split; [by eexists|]. split; [exact Ho|done].
Qed.

Lemma sem_timedwait_witness :
  valid_time (5, 950000000) = true /\
  total (Config true 1) (boot main (TimedState [] [] [] [] (5, 950000000))) (fun w =>
    finished 0 (ln "sem_timedwait expired as expected") w /\
    nanoseconds (t_clock (kern w)) = 6050000000).
Proof.
  split; [by vm_compute|].
  apply (sem_timedwait_correct (Config true 1) 5 950000000); [by vm_compute|lia].
Defined.
End SemTimedwaitTimeout.

(** ** [MessageQueues/posix_mq_timed_receive.c] *)

Module MqTimedReceive.
Definition MQ_NAME : bytes := B "/ipc_timed_queue".

Definition main : prog timed_call Z :=
  sys (MqUnlink MQ_NAME) ;;;
  mq <- sys (MqOpen MQ_NAME false 4 64) ;;
  if rv mq =? -1 then die_errno (rerr mq) (B "mq_open") else
  sys (MqSend (rv mq) (B "deadline aware message") 3) ;;;
  now <- sys ClockGettime ;;
  sec <- long_add (default 0 (rints now !! 0%nat)) 1 ;;
  n <- sys (MqReceive (rv mq) 64 (Some (sec, default 0 (rints now !! 1%nat)))) ;;
  if rv n =? -1 then die_errno (rerr n) (B "mq_timedreceive") else
  text <- terminated 64 n ;;
  proc (Println (B "timed receive priority=" ++ fmt_d (default 0 (rints n !! 0%nat)) ++ B " text=" ++ text)) ;;;
  sys (MqClose (rv mq)) ;;;
  sys (MqUnlink MQ_NAME) ;;;
  Ret 0.

(** [posix_mq_timed_receive.c]: from any clock and whether or not a queue
    of its name is left over, the message it sends is the one it receives,
    with its priority, well before the deadline, and the name is removed. *)
Theorem mq_timed_receive_correct cf old sec nsec :
  valid_time (sec, nsec) = true -> sec < 2 ^ 62 ->
  total cf (boot main (TimedState (match old with Some _ => [(MQ_NAME, 0%nat)] | None => [] end)
                         (match old with Some q => [q] | None => [] end) [] [] (sec, nsec))) (fun w =>
    finished 0 (ln "timed receive priority=3 text=deadline aware message") w /\
    t_names (kern w) = [] /\ t_mqds (kern w) = [None]).
Proof.
  intros Hv Hs. assert (Hvd : valid_time (sec + 1, nsec) = true /\ in_long (sec + 1) = true).
  { unfold valid_time, in_long in *. cbn [fst snd] in *.
    rewrite !andb_true_iff, !Z.leb_le, !Z.ltb_lt in *. lia. }
  destruct Hvd as [Hvd Hl]. destruct old as [q|].
  all: do 4 (last_call (reflexivity); cbn -[long_add terminated]).
  all: unfold long_add; rewrite Hl; cbn -[terminated].
  all: last_call (cbn; unfold mq_receive; rewrite Hvd; reflexivity).
  all: cbn -[stdio_line].
  all: last_print.
  all: do 2 (last_call (reflexivity)).
  all: last_end; split; [|done].
  all: split; [by eexists|]; split; [exact Ho|done].
Qed.

Lemma mq_timed_receive_witness :
  valid_time (5, 0) = true /\
  total (Config true 1) (boot main (TimedState [] [] [] [] (5, 0))) (fun w =>
    finished 0 (ln "timed receive priority=3 text=deadline aware message") w /\
    t_names (kern w) = [] /\ t_mqds (kern w) = [None]).
Proof.
  split; [by vm_compute|]. apply (mq_timed_receive_correct (Config true 1) None 5 0); [by vm_compute|lia].
Defined.
End MqTimedReceive.

(** ** [MessageQueues/posix_mq_notify_signal.c] *)

Module MqNotifySignal.
Definition MQ_NAME : bytes := B "/ipc_notify_queue".
Definition notified : nat := 0.
Definition on_notify : prog (scall timed_call) unit := sys (GStore notified 1) ;;; Ret tt.

(** [while (!notified) pause();] *)
Definition wait_body : unit -> prog (scall timed_call) (unit + unit) :=
  fun _ =>
    r <- sys (GLoad notified) ;;
    if rv r =? 0 then sys Pause ;;; Ret (inl tt) else Ret (inr tt).

Definition main : prog (scall timed_call) Z :=
  sys (Base (MqUnlink MQ_NAME)) ;;;
  mq <- sys (Base (MqOpen MQ_NAME true 8 64)) ;;
  if rv mq =? -1 then die_errno (rerr mq) (B "mq_open") else
  sys (Sigaction SIGUSR1 (Action 0 false)) ;;;
  r <- sys (Base (MqNotify (rv mq) SIGUSR1)) ;;
  if rv r =? -1 then die_errno (rerr r) (B "mq_notify") else
  sys (Base (MqSend (rv mq) (B "notify payload") 7)) ;;;
  loop wait_body tt ;;;
  n <- sys (Base (MqReceive (rv mq) 64 None)) ;;
  text <- terminated 64 n ;;
  proc (Println (B "received priority=" ++ fmt_d (default 0 (rints n !! 0%nat)) ++ B " text=" ++ text)) ;;;
  sys (Base (MqClose (rv mq))) ;;;
  sys (Base (MqUnlink MQ_NAME)) ;;;
  Ret 0.

(** [posix_mq_notify_signal.c]: the notification is not missed, the
    message is received with its priority, and the name is removed, whether
    or not a queue of that name is left over. *)
Theorem mq_notify_correct cf (old : bool) :
  sig_total cf (fun _ _ => on_notify)
    (boot main (Sigs [quiet 1]
       (TimedState (if old then [(MQ_NAME, 0%nat)] else []) (if old then [Mqueue 8 64 [] None] else []) [] [] (0, 0))))
    (fun w =>
    finished 0 (ln "received priority=7 text=notify payload") w /\ t_names (sg_base (kern w)) = []).
Proof. destruct cf as [[] p], old; apply slayers_boot; explore; (split; [ended|done]). Qed.
End MqNotifySignal.
