(* ===== verification/CalcMain.v ===== *)
(** * CalcMain: the calculator's accept loop

    [reap] and [main] of [Sockets/unix_calc_server.c], over the signal layer,
    and the session of server and client that [README.md] shows. *)

From S2P Require Import Prelude Fmt Posix Explore Common Io Sockets CalcServer Sig SigExplore SignalIo.

Definition DEFAULT_SOCKET : bytes := B "/tmp/ipc_calc.sock".

(** The [SIGCHLD] handler. *)
Definition reap_children_body : unit -> prog (scall io_call) (unit + unit) :=
  fun _ =>
    r <- proc WaitAny ;;
    if rv r >? 0 then Ret (inl tt) else Ret (inr tt).
Definition reap : prog (scall io_call) unit := loop reap_children_body tt.

(** One trip of [for (;;)]. *)
Definition accept_body (nan_neg : bool) (server : Z) : unit -> prog (scall io_call) (unit + Z) :=
  fun _ =>
    client <- sys (Base (Accept server false)) ;;
    if rv client =? -1 then
      if decide (rerr client = EINTR) then Ret (inl tt)
      else die_errno (rerr client) (B "accept")
    else
    child <- proc Fork ;;
    if rv child =? -1 then die_errno (rerr child) (B "fork") else
    if rv child =? 0 then
      xclose server ;;;
      lift (serve nan_neg (rv client)) ;;;
      xclose (rv client) ;;;
      Exit_ 0
    else
    xclose (rv client) ;;;
    Ret (inl tt).

Definition server_main (nan_neg : bool) (argv : list bytes) : prog (scall io_call) Z :=
  let path := match argv with _ :: p :: _ => p | _ => DEFAULT_SOCKET end in
  sys (Sigaction SIGCHLD (Action 0 true)) ;;;
  server <- sys (Base (Socket false)) ;;
  if rv server =? -1 then die_errno (rerr server) (B "socket") else
  sys (Base (Unlink path)) ;;;
  r <- sys (Base (Bind (rv server) (APath (sun_path path)))) ;;
  if rv r =? -1 then die_errno (rerr r) (B "bind/listen") else
  r <- sys (Base (Listen (rv server))) ;;
  if rv r =? -1 then die_errno (rerr r) (B "bind/listen") else
  proc (Println (B "unix_calc_server listening on " ++ path)) ;;;
  proc Fflush ;;;
  loop (accept_body nan_neg (rv server)) tt.

(** ** The session of the README

    [README.md] shows how the two programs are used together: a shell starts
    the server in the background, then the client (lines 45 and 46).
    [session_main] is that shell: one process becomes the server, the other
    the client. *)
Definition session_main (path expression : bytes) : prog (scall io_call) Z :=
  pid <- proc Fork ;;
  if rv pid =? 0 then server_main false [B "unix_calc_server"; path]
  else lift (client_main [B "unix_calc_client"; path; expression]).

(** The client has shown the answer of the worker the server forked for it;
    the worker has been reaped and the server waits for the next client. *)
Definition answered (text : bytes) (w : world (scall io_call) (sigs io)) : Prop :=
  out w = ln "unix_calc_server listening on /tmp/ipc_calc.sock" ++ text /\ errout w = [] /\
  exists b p, procs w = [Process (Zombie 0) None b; p; Process Reaped (Some 1%nat) []] /\ is_live p = true.

(** The client came before the server listened. *)
Definition refused (w : world (scall io_call) (sigs io)) : Prop :=
  out w = ln "unix_calc_server listening on /tmp/ipc_calc.sock" /\
  (errout w = ln "error: connect: No such file or directory" \/
   errout w = ln "error: connect: Connection refused") /\
  exists b p, procs w = [Process (Zombie 1) None b; p] /\ is_live p = true.

(** Everything is concrete here, the process ids too. *)
Ltac concrete_eval := cbv -[printed hole].

Definition readme_session : prog (scall io_call) Z :=
  session_main (B "/tmp/ipc_calc.sock") (B "12 * (3 + 4) - 5").
Definition readme_result (w : world (scall io_call) (sigs io)) : Prop :=
  answered (ln "pid=4002 result=79.000") w \/ refused w.

Ltac session_explored :=
  apply slayers_boot; explore_with ltac:(concrete_eval);
  first [ left; split; [reflexivity|split; [reflexivity|]]; eexists _, _; split; [reflexivity|reflexivity]
        | right; split; [reflexivity|]; split; [first [left; reflexivity|right; reflexivity]|];
          eexists _, _; split; [reflexivity|reflexivity] ].

Lemma session_on_terminal :
  sig_total (Config true 4000) (fun _ _ => reap) (boot readme_session (with_io 0)) readme_result.
Proof. session_explored. Qed.

Lemma session_redirected :
  sig_total (Config false 4000) (fun _ _ => reap) (boot readme_session (with_io 0)) readme_result.
Proof. session_explored. Qed.

(** C7. The session of [README.md]: the server is started in the background on
    [/tmp/ipc_calc.sock] and the client asks it for [12 * (3 + 4) - 5], with the
    process ids 4000 for the shell's client, 4001 for the server and 4002 for
    the worker.  Whether standard output is a terminal or not, under every
    schedule and every timing of [SIGCHLD], the client shows the answer
    79.000 of the worker process, the worker is reaped by the handler
    without disturbing [accept], and the server goes on listening; or, if the
    client was too early, it reports that it could not connect. *)
Theorem calc_session_correct terminal :
  sig_total (Config terminal 4000) (fun _ _ => reap)
    (boot (session_main (B "/tmp/ipc_calc.sock") (B "12 * (3 + 4) - 5")) (with_io 0)) (fun w =>
    answered (ln "pid=4002 result=79.000") w \/ refused w).
Proof. destruct terminal; [exact session_on_terminal|exact session_redirected]. Qed.
