(* ===== verification/AltStack.v ===== *)
(** * AltStack: [Signals/altstack_segv_recovery.c]

    One process, a handler that runs on an alternate stack, and a non-local
    jump out of it.  The machine of this file interprets what the program
    uses: [sigsetjmp] saves what is left to run and the mask, [siglongjmp]
    goes back to it from inside the handler, and a handler is entered with
    its signal blocked, on the alternate stack if the action asks for it. *)

From S2P Require Import Prelude Fmt Posix Common.

Definition SIGSEGV : Z := 11.
Definition MINSIGSTKSZ : Z := 2048.

Inductive jcall : Type :=
| Malloc (size : Z)
| Free (p : Z)
| Sigaltstack (sp size : Z)
| SigactionOnstack (sig : Z)
| Sigsetjmp (savemask : bool)
| Siglongjmp (v : Z)
| Raise (sig : Z)
| Sigreturn (mask : list Z).

(** The handler installed for [SIGSEGV]. *)
Definition on_segv : prog jcall unit := sys (Siglongjmp 1) ;;; Ret tt.

Definition main (SIGSTKSZ : Z) : prog jcall Z :=
  ss_sp <- sys (Malloc SIGSTKSZ) ;;
  if rv ss_sp =? 0 then die (B "malloc altstack") else
  r <- sys (Sigaltstack (rv ss_sp) SIGSTKSZ) ;;
  if rv r =? -1 then die_errno (rerr r) (B "sigaltstack") else
  r <- sys (SigactionOnstack SIGSEGV) ;;
  if rv r =? -1 then die_errno (rerr r) (B "sigaction") else
  j <- sys (Sigsetjmp true) ;;
  (if rv j =? 0 then sys (Raise SIGSEGV) ;;; Ret tt
   else proc (Println (B "SIGSEGV handled on alternate signal stack")) ;;; Ret tt) ;;;
  sys (Free (rv ss_sp)) ;;;
  Ret 0.

(** ** The machine *)

(** The state of the process: blocked signals, signals with a handler (all
    with [SA_ONSTACK]), the alternate stack and whether it is in use, the
    jump buffer, the allocated blocks, the output, and for every handler
    entered whether it ran on the alternate stack. *)
Record jstate := JState {
  j_mask : list Z;
  j_actions : list Z;
  j_alt : option (Z * Z);
  j_on_alt : bool;
  j_buf : option ((Z -> prog jcall Z) * option (list Z));
  j_heap : list Z;
  j_out : bytes;
  j_err : bytes;
  j_entered : list bool;
}.

(** [JUndef]: undefined behaviour, or the raising of a blocked signal, which
    would stay pending and which the program never does. *)
Inductive jres : Type :=
| JRun (q : prog jcall Z) (s : jstate)
| JExit (code : Z) (s : jstate)
| JKilled
| JUndef.

Definition blocked (n : Z) (l : list Z) : bool := existsb (Z.eqb n) l.

Section Machine.
(** The allocator: a non-null address, or [None]. *)
Context (malloc : Z -> option Z).

Definition with_heap (h : list Z) (s : jstate) : jstate :=
  JState (j_mask s) (j_actions s) (j_alt s) (j_on_alt s) (j_buf s) h (j_out s) (j_err s) (j_entered s).

Definition jexec (c : jcall) (k : reply -> prog jcall Z) (s : jstate) : jres :=
  match c with
  | Malloc size =>
      match malloc size with
      | Some p => JRun (k (ok p)) (with_heap (p :: j_heap s) s)
      | None => JRun (k (ok 0)) s
      end
  | Free p =>
      if blocked p (j_heap s)
      then JRun (k (ok 0)) (with_heap (List.filter (fun x => negb (x =? p)) (j_heap s)) s)
      else JUndef
  | Sigaltstack sp size =>
      if j_on_alt s then JRun (k (failed EPERM)) s
      else if size <? MINSIGSTKSZ then JRun (k (failed ENOMEM)) s
      else JRun (k (ok 0))
             (JState (j_mask s) (j_actions s) (Some (sp, size)) (j_on_alt s) (j_buf s) (j_heap s)
                     (j_out s) (j_err s) (j_entered s))
  | SigactionOnstack n =>
      JRun (k (ok 0)) (JState (j_mask s) (n :: j_actions s) (j_alt s) (j_on_alt s) (j_buf s) (j_heap s)
                              (j_out s) (j_err s) (j_entered s))
  | Sigsetjmp savemask =>
      JRun (k (ok 0)) (JState (j_mask s) (j_actions s) (j_alt s) (j_on_alt s)
                              (Some (fun v => k (ok v), if savemask then Some (j_mask s) else None))
                              (j_heap s) (j_out s) (j_err s) (j_entered s))
  | Siglongjmp v =>
      match j_buf s with
      | Some (back, m) =>
          JRun (back v) (JState (default (j_mask s) m) (j_actions s) (j_alt s) false (j_buf s) (j_heap s)
                                (j_out s) (j_err s) (j_entered s))
      | None => JUndef
      end
  | Raise n =>
      if blocked n (j_mask s) then JUndef
      else if blocked n (j_actions s) then
        let alt := match j_alt s with Some _ => true | None => false end in
        JRun (bind on_segv (fun _ => bind (sys (Sigreturn (j_mask s))) (fun _ => k (ok 0))))
             (JState (n :: j_mask s) (j_actions s) (j_alt s) alt (j_buf s) (j_heap s)
                     (j_out s) (j_err s) (j_entered s ++ [alt]))
      else JKilled
  | Sigreturn m =>
      JRun (k (ok 0)) (JState m (j_actions s) (j_alt s) false (j_buf s) (j_heap s)
                              (j_out s) (j_err s) (j_entered s))
  end.

Definition write_out (t : bytes) (s : jstate) : jstate :=
  JState (j_mask s) (j_actions s) (j_alt s) (j_on_alt s) (j_buf s) (j_heap s) (j_out s ++ t) (j_err s) (j_entered s).
Definition write_err (t : bytes) (s : jstate) : jstate :=
  JState (j_mask s) (j_actions s) (j_alt s) (j_on_alt s) (j_buf s) (j_heap s) (j_out s) (j_err s ++ t) (j_entered s).

Definition jstep (r : jres) : jres :=
  match r with
  | JRun q s =>
      match q with
      | Ret code | Exit code | Exit_ code => JExit code s
      | Sys c k => jexec c k s
      | Proc (Println t) k => JRun (k (ok (printed t + 1))) (write_out (t ++ [LF]) s)
      | Proc (Printf t) k => JRun (k (ok (printed t))) (write_out t s)
      | Proc (Eprintf t) k => JRun (k (ok (printed t))) (write_err t s)
      | Loop body x k => JRun (unroll body x k) s
      | _ => JUndef
      end
  | _ => r
  end.

Definition fresh : jstate := JState [] [] None false None [] [] [] [].

(** The result of the program, within [n] steps. *)
Definition jrun (n : nat) (SIGSTKSZ : Z) : jres := Nat.iter n jstep (JRun (main SIGSTKSZ) fresh).

(** C37. [altstack_segv_recovery.c] for any allocator and any size of the
    alternate stack that the system accepts: without memory it dies with its
    message; otherwise it ends with exit code 0, the handler has run once and
    on the alternate stack, the jump has brought control back to [sigsetjmp]
    with the original mask, the message is printed once and the stack is
    freed. *)
Theorem altstack_correct SIGSTKSZ :
  MINSIGSTKSZ <= SIGSTKSZ -> (forall p, malloc SIGSTKSZ = Some p -> p <> 0) ->
  exists n s, jrun n SIGSTKSZ = JExit (match malloc SIGSTKSZ with Some _ => 0 | None => 1 end) s /\
  j_mask s = [] /\ j_on_alt s = false /\ j_heap s = [] /\
  match malloc SIGSTKSZ with
  | Some _ => j_out s = ln "SIGSEGV handled on alternate signal stack" /\ j_err s = [] /\ j_entered s = [true]
  | None => j_out s = [] /\ j_err s = ln "error: malloc altstack" /\ j_entered s = []
  end.
Proof.
  intros Hsize Hp. exists 20%nat. unfold jrun. destruct (malloc SIGSTKSZ) as [p|] eqn:E.
  - specialize (Hp p eq_refl).
    assert (Hz : (p =? 0) = false) by (by apply Z.eqb_neq).
    assert (Hs : (SIGSTKSZ <? MINSIGSTKSZ) = false) by (by apply Z.ltb_ge).
    unfold MINSIGSTKSZ in Hs.
    eexists. do 4 (cbn -[MINSIGSTKSZ]; rewrite ?E, ?Hz, ?Hs, ?Z.eqb_refl; unfold MINSIGSTKSZ; rewrite ?Hs).
    cbn. rewrite ?Z.eqb_refl. done.
  - eexists. cbn. rewrite E. done.
Qed.
End Machine.

Lemma altstack_witness :
  exists n s, jrun (fun _ => Some 4096) n 8192 = JExit 0 s /\
    j_mask s = [] /\ j_on_alt s = false /\ j_heap s = [] /\
    j_out s = ln "SIGSEGV handled on alternate signal stack" /\ j_err s = [] /\ j_entered s = [true].
Proof. apply (altstack_correct (fun _ => Some 4096) 8192); [done|]. by intros p [= <-]. Defined.
