(* ===== verification/Pipeline.v ===== *)
(** * Pipeline: [Pipes/anonymous_pipeline_exec.c]

    A parent that feeds a child through a pipe, the child having made the
    pipe its standard input and become another program.  That program,
    [tr(1)], is not part of the repository: it is a parameter, of which the
    theorem assumes that it is a filter ([filters]).  What is proved is the
    plumbing around it: who closes which end, and that the filter therefore
    sees the end of its input.

    Standard input, output and error are descriptors here, so the kernel is
    one of its own: pipes and tables of descriptors, with [dup2] and [exec]. *)

From S2P Require Import Prelude Fmt Posix Explore Common.

(** ** The kernel *)

(** What a descriptor refers to: a standard stream or an end of a pipe. *)
Inductive fd_end : Type :=
| Std (n : nat)
| PipeR (c : nat)
| PipeW (c : nat).

(** The pipes' contents, the tables of descriptors and [errno] by process,
    what was written to descriptor 1, and the programs that can be executed. *)
Record pl := Pl {
  pl_bufs : list bytes;
  pl_fds : list (list (option fd_end));
  pl_errno : list errno;
  pl_stdout : bytes;
  pl_path : list bytes;
}.

Inductive pl_call : Type :=
| Pipe
| Close (fd : Z)
| Dup2 (oldfd newfd : Z)
| Read (fd n : Z)
| Write (fd : Z) (data : bytes)
| Getfl (fd : Z)
| Setfl (fd flags : Z)
| Errno
| Execlp (file : bytes) (argv : list bytes).

Definition fds_of (s : pl) (i : nat) : list (option fd_end) := default [] (pl_fds s !! i).
Definition lookup_fd (s : pl) (i : nat) (fd : Z) : option fd_end :=
  if fd <? 0 then None else default None (fds_of s i !! Z.to_nat fd).

Definition with_bufs (s : pl) (l : list bytes) : pl :=
  Pl l (pl_fds s) (pl_errno s) (pl_stdout s) (pl_path s).
Definition with_fds (s : pl) (i : nat) (t : list (option fd_end)) : pl :=
  Pl (pl_bufs s) (<[i := t]> (pl_fds s)) (pl_errno s) (pl_stdout s) (pl_path s).
Definition fails_with (i : nat) (e : errno) (s : pl) : kres pl :=
  Done (failed e) (Pl (pl_bufs s) (pl_fds s) (<[i := e]> (pl_errno s)) (pl_stdout s) (pl_path s)).

(** The lowest free descriptor. *)
Definition alloc (x : fd_end) (t : list (option fd_end)) : Z * list (option fd_end) :=
  match find_idx (fun e => match e with None => true | Some _ => false end) t with
  | Some n => (Z.of_nat n, <[n := Some x]> t)
  | None => (Z.of_nat (length t), t ++ [Some x])
  end.

Definition is_writer (c : nat) (e : option fd_end) : bool :=
  match e with Some (PipeW d) => Nat.eqb c d | _ => false end.
Definition is_reader (c : nat) (e : option fd_end) : bool :=
  match e with Some (PipeR d) => Nat.eqb c d | _ => false end.
Definition open_writer (s : pl) (c : nat) : bool := existsb (existsb (is_writer c)) (pl_fds s).
Definition open_reader (s : pl) (c : nat) : bool := existsb (existsb (is_reader c)) (pl_fds s).

(** A pipe is at its end when nobody can write to it any more. *)
Definition read_pipe (c : nat) (n : Z) (s : pl) : kres pl :=
  match pl_bufs s !! c with
  | Some [] => if open_writer s c then Block else Done (ok 0) s
  | Some b => let got := take (Z.to_nat n) b in
              Done (ok_bytes (blen got) got) (with_bufs s (<[c := drop (Z.to_nat n) b]> (pl_bufs s)))
  | None => Fault
  end.

(** Writing to a pipe without readers kills the writer; the pipe here has
    room for everything that is written. *)
Definition write_pipe (c : nat) (data : bytes) (s : pl) : kres pl :=
  match pl_bufs s !! c with
  | Some b => if open_reader s c
              then Done (ok (blen data)) (with_bufs s (<[c := b ++ data]> (pl_bufs s)))
              else Fault
  | None => Fault
  end.

Definition pl_exec (i : nat) (c : pl_call) (s : pl) : kres pl :=
  match c with
  | Pipe =>
      let ch := length (pl_bufs s) in
      let '(r, t1) := alloc (PipeR ch) (fds_of s i) in
      let '(w, t2) := alloc (PipeW ch) t1 in
      Done (ok_ints 0 [r; w]) (with_fds (with_bufs s (pl_bufs s ++ [[]])) i t2)
  | Close fd =>
      match lookup_fd s i fd with
      | Some _ => Done (ok 0) (with_fds s i (<[Z.to_nat fd := None]> (fds_of s i)))
      | None => fails_with i EBADF s
      end
  | Dup2 oldfd newfd =>
      match lookup_fd s i oldfd with
      | Some x => if (0 <=? newfd) && (newfd <? Z.of_nat (length (fds_of s i)))
                  then Done (ok newfd) (with_fds s i (<[Z.to_nat newfd := Some x]> (fds_of s i)))
                  else fails_with i EBADF s
      | None => fails_with i EBADF s
      end
  | Read fd n =>
      match lookup_fd s i fd with
      | Some (PipeR ch) => read_pipe ch n s
      | Some (Std _) => Block
      | _ => fails_with i EBADF s
      end
  | Write fd data =>
      match lookup_fd s i fd with
      | Some (PipeW ch) => write_pipe ch data s
      | Some (Std 1) =>
          Done (ok (blen data)) (Pl (pl_bufs s) (pl_fds s) (pl_errno s) (pl_stdout s ++ data) (pl_path s))
      | _ => fails_with i EBADF s
      end
  | Getfl fd => match lookup_fd s i fd with Some _ => Done (ok 2) s | None => fails_with i EBADF s end
  | Setfl fd _ => match lookup_fd s i fd with Some _ => Done (ok 0) s | None => fails_with i EBADF s end
  | Errno => Done (Reply 0 (default EOK (pl_errno s !! i)) [] []) s
  | Execlp file _ =>
      if existsb (fun f => bool_decide (f = file)) (pl_path s) then Done (ok 0) s else fails_with i ENOENT s
  end.

Definition pl_fails (c : pl_call) (e : errno) : bool :=
  match c with
  | Pipe => bool_decide (e = EMFILE)
  | Read _ _ | Write _ _ => bool_decide (e = EINTR)
  | Execlp _ _ => bool_decide (e = ENOMEM)
  | _ => false
  end.

#[export] Instance pl_kernel : Kernel pl_call pl := {|
  kexec := pl_exec;
  kfails := pl_fails;
  kfork := fun i j s => Pl (pl_bufs s) (pl_fds s ++ [fds_of s i]) (pl_errno s ++ [EOK]) (pl_stdout s) (pl_path s);
  kexit := fun i s => with_fds s i [];
|}.

#[export, refine] Instance pl_FdCalls : FdCalls pl_call := {|
  c_close := Close; c_write := Write; c_getfl := Getfl; c_setfl := Setfl;
  as_write := fun c => match c with Write fd chunk => Some (fd, chunk) | _ => None end
|}.
Proof. done. Defined.

(** A shell's process with its three standard streams. *)
Definition machine (path : list bytes) : pl :=
  Pl [] [[Some (Std 0); Some (Std 1); Some (Std 2)]] [EOK] [] path.

(** ** The program *)

Section Program.

(** What a process runs after executing a file with some arguments. *)
Context (image : bytes -> list bytes -> prog pl_call Z).

(** [execlp] does not return when it succeeds; nothing has been printed
    through stdio by then. *)
Definition execlp (file : bytes) (argv : list bytes) : prog pl_call reply :=
  r <- sys (Execlp file argv) ;;
  if rv r =? -1 then Ret r else code <- image file argv ;; Exit code.

Definition STDIN_FILENO : Z := 0.
Definition tr_argv : list bytes := [B "tr"; B "a-z"; B "A-Z"].
Definition payload : bytes := ln "kernel pipes feed child process standard input".

Definition main : prog pl_call Z :=
  p <- sys Pipe ;;
  if rv p =? -1 then die_errno (rerr p) (B "pipe") else
  let pipefd0 := default 0 (rints p !! 0%nat) in
  let pipefd1 := default 0 (rints p !! 1%nat) in
  child <- proc Fork ;;
  if rv child =? -1 then die_errno (rerr child) (B "fork") else
  if rv child =? 0 then
    xclose pipefd1 ;;;
    r <- sys (Dup2 pipefd0 STDIN_FILENO) ;;
    if rv r =? -1 then die_errno (rerr r) (B "dup2") else
    xclose pipefd0 ;;;
    r <- execlp (B "tr") tr_argv ;;
    die_errno (rerr r) (B "execlp tr")
  else
  xclose pipefd0 ;;;
  r <- write_all pipefd1 payload (blen payload) ;;
  if r =? -1 then e <- sys Errno ;; die_errno (rerr e) (B "write pipe") else
  xclose pipefd1 ;;;
  wait_for_pid (rv child) ;;;
  Ret 0.
End Program.

(** ** Filters *)

(** [filters rest out p]: with [rest] still to come on standard input,
    handed over in pieces of any size, [p] writes exactly [out] to standard
    output and ends with code 0; it may read until it is told that the input
    has ended. *)
Inductive filters : bytes -> bytes -> prog pl_call Z -> Prop :=
| filters_read rest out n k :
    0 < n ->
    (rest = [] -> filters [] out (k (ok 0))) ->
    (forall chunk rest', rest = chunk ++ rest' -> chunk <> [] -> blen chunk <= n ->
       filters rest' out (k (ok_bytes (blen chunk) chunk))) ->
    filters rest out (Sys (Read 0 n) k)
| filters_write rest data out k :
    filters rest out (k (ok (blen data))) -> filters rest (data ++ out) (Sys (Write 1 data) k)
| filters_loop rest out S R (body : S -> prog pl_call (S + R)) x k :
    filters rest out (unroll body x k) -> filters rest out (Loop body x k)
| filters_ret : filters [] [] (Ret 0)
| filters_exit : filters [] [] (Exit 0).

(** What [tr a-z A-Z] makes of a text. *)
Definition upper (c : ascii) : ascii :=
  let n := nat_of_ascii c in
  if (97 <=? n)%nat && (n <=? 122)%nat then ascii_of_nat (n - 32) else c.
Definition tr_output (input : bytes) : bytes := upper <$> input.

(** ** The pipeline is correct *)

Section Correct.
Context (image : bytes -> list bytes -> prog pl_call Z) (cf : config) (path : list bytes).
Abbreviation main := (main image).
Implicit Types q : prog pl_call Z.

(** Parent and child stand at a call of [main] each, given by the replies
    they have got since [fork]. *)
Definition parent_replies : list reply :=
  [ok_ints 0 [3; 4]; ok (pid_of cf 1); ok 0; ok 0; ok (blen payload); ok 0; ok 0; ok 0].
Definition child_replies : list reply := [ok_ints 0 [3; 4]; ok 0; ok 0; ok 0; ok 0; ok 0].
Definition parent_at (k : nat) : prog pl_call Z := adv (take (2 + k) parent_replies) main.
Definition child_at (j : nat) : prog pl_call Z := adv (take (2 + j) child_replies) main.

Definition std : list (option fd_end) := [Some (Std 0); Some (Std 1); Some (Std 2)].
Definition parent_fds (k : nat) : list (option fd_end) :=
  std ++ [if (k <? 1)%nat then Some (PipeR 0) else None; if (k <? 5)%nat then Some (PipeW 0) else None].
Definition child_fds (j : nat) : list (option fd_end) :=
  [if (j <? 2)%nat then Some (Std 0) else Some (PipeR 0); Some (Std 1); Some (Std 2);
   if (j <? 3)%nat then Some (PipeR 0) else None; if (j <? 1)%nat then Some (PipeW 0) else None].

(** The parent has made [k] steps, the child [j] (4 when it has become the
    other program), [q] is what the child has left to run; [rest] is what the
    filter has not read yet, [done] what it has written. *)
Definition during (k j : nat) (q : prog pl_call Z) (rest done : bytes) : world pl_call pl :=
  World [Process (Live (parent_at k)) None []; Process (Live q) (Some 0%nat) []]
        (Pl [if (k <? 3)%nat then [] else rest] [parent_fds k; child_fds j] [EOK; EOK] done path) [] [].

(** Where it ends. *)
Definition piped (text : bytes) (w : world pl_call pl) : Prop :=
  finished 0 [] w /\ pl_stdout (kern w) = text /\ open_writer (kern w) 0 = false /\ open_reader (kern w) 0 = false.

(** The parent's six steps, and then it waits. *)
Lemma parent_next k j q rest dn :
  (k < 6)%nat -> (j <= 4)%nat -> ((k < 3)%nat -> rest = payload) ->
  run_step cf 0 (during k j q rest dn) = Some (during (S k) j q rest dn).
Proof.
  intros Hk Hj Hr.
  destruct k as [|[|[|[|[|[|k]]]]]]; [..|lia]; try (rewrite (Hr ltac:(lia))); try done.
  all: destruct j as [|[|[|[|[|j]]]]]; try done; lia.
Qed.

(** The parent's last call is [waitpid]; the child's program goes on
    after [exec] as the image. *)
Lemma parent_last :
  exists k, parent_at 6 = Proc (Waitpid (pid_of cf 1) false) k /\ k (ok_ints (pid_of cf 1) [0]) = Ret 0.
Proof. by eexists. Qed.

Lemma reader_awaited j q rest dn : run_step cf 0 (during 6 j q rest dn) = None.
Proof.
  destruct parent_last as (k & E & _).
  erewrite run_proc; [|reflexivity|cbn [p_stat]; by rewrite E].
  by eapply waitpid_live.
Qed.

(** A world with two processes. *)
Lemma total_two w p1 p2 (Q : world pl_call pl -> Prop) :
  procs w = [p1; p2] ->
  run_step cf 0 w <> None \/ run_step cf 1 w <> None ->
  (forall w', run_step cf 0 w = Some w' -> total cf w' Q) ->
  (forall w', run_step cf 1 w = Some w' -> total cf w' Q) -> total cf w Q.
Proof.
  intros Hp Hred H0 H1. apply total_step.
  - destruct Hred as [Hr|Hr].
    + destruct (run_step cf 0 w) as [w'|] eqn:E; [|done]. by exists w', 0%nat.
    + destruct (run_step cf 1 w) as [w'|] eqn:E; [|done]. by exists w', 1%nat.
  - intros w' [[|[|i]] Hs]; [auto|auto|]. unfold run_step in Hs. rewrite Hp in Hs. done.
Qed.

(** The parent moves on while the child stays; the claim for every state of
    the parent follows from the one for its later states. *)
Lemma total_during k j q rest dn (Q : world pl_call pl -> Prop) :
  (k <= 6)%nat -> (j <= 4)%nat -> ((k < 3)%nat -> rest = payload) ->
  (forall k', (k <= k' <= 6)%nat -> ((k' < 3)%nat -> rest = payload) ->
     (k' = 6%nat -> run_step cf 1 (during k' j q rest dn) <> None) /\
     forall w', run_step cf 1 (during k' j q rest dn) = Some w' -> total cf w' Q) ->
  total cf (during k j q rest dn) Q.
Proof.
  intros Hk Hj Hr Hc. remember (6 - k)%nat as m eqn:Hm. revert k Hk Hr Hc Hm.
  induction m as [|m IH]; intros k Hk Hr Hc Hm;
    destruct (Hc k ltac:(lia) Hr) as [Hgo Hchild].
  - assert (k = 6%nat) as -> by lia. eapply total_two; [done|auto| |done].
    intros w' Hs. by rewrite reader_awaited in Hs.
  - assert (Hp : run_step cf 0 (during k j q rest dn) = Some (during (S k) j q rest dn))
      by (apply parent_next; [lia..|done]).
    eapply total_two; [done|left; by rewrite Hp| |done].
    intros w' Hs. rewrite Hp in Hs. injection Hs as <-.
    apply IH; [lia|intros; apply Hr; lia| |lia]. intros k' Hk'. apply Hc. lia.
Qed.

(** *** The child as a filter *)

Abbreviation as_image q := (bind q (fun code => Exit code)).

Lemma child_reads k n rest dn :
  (k <= 6)%nat ->
  kexec 1 (Read 0 n) (kern (during k 4 (Ret 0) rest dn)) =
  match (if (k <? 3)%nat then [] else rest) with
  | [] => if (k <? 5)%nat then Block else Done (ok 0) (kern (during k 4 (Ret 0) rest dn))
  | b => Done (ok_bytes (blen (take (Z.to_nat n) b)) (take (Z.to_nat n) b))
           (kern (during k 4 (Ret 0) (drop (Z.to_nat n) rest) dn))
  end.
Proof.
  intros Hk. destruct k as [|[|[|[|[|[|[|k]]]]]]]; [..|lia]; try done; destruct rest; done.
Qed.

Lemma child_writes k data rest dn :
  kexec 1 (Write 1 data) (kern (during k 4 (Ret 0) rest dn)) =
  Done (ok (blen data)) (kern (during k 4 (Ret 0) rest (dn ++ data))).
Proof. done. Qed.

(** The filter has ended: the parent, wherever it is by then, goes on to
    reap it. *)
Definition ended_at (k : nat) (dn : bytes) : world pl_call pl :=
  World [Process (Live (parent_at k)) None []; Process (Zombie 0) (Some 0%nat) []]
        (Pl [[]] [parent_fds k; []] [EOK; EOK] dn path) [] [].

Lemma filter_ended k dn : (3 <= k <= 6)%nat -> total cf (ended_at k dn) (piped dn).
Proof.
  intros Hk.
  assert (H6 : total cf (ended_at 6 dn) (piped dn)).
  { destruct parent_last as (kk & E & Ek). unfold ended_at. rewrite E.
    eapply total_last; [done|by repeat constructor| |].
    - erewrite run_proc; [|done|done]. by eapply (waitpid_zombie cf 0 1).
    - cbn [resume set_proc]. rewrite Ek. eapply total_last; [done|by repeat constructor|done|].
      apply total_now; [apply halted_nf; by repeat constructor|].
      split; [split; [by eexists|done]|done]. }
  assert (Hnext : forall k', (3 <= k' < 6)%nat ->
    total cf (ended_at (S k') dn) (piped dn) -> total cf (ended_at k' dn) (piped dn)).
  { intros k' Hk' Ht. eapply total_last; [done|by repeat constructor| |exact Ht].
    assert (k' = 3 \/ k' = 4 \/ k' = 5)%nat as [->|[->| ->]] by lia; done. }
  assert (k = 3 \/ k = 4 \/ k = 5 \/ k = 6)%nat as [->|[->|[->| ->]]] by lia; auto 7 with lia.
Qed.

Lemma child_sys k c kk rest dn r rest' dn' :
  kexec 1 c (kern (during k 4 (Ret 0) rest dn)) = Done r (kern (during k 4 (Ret 0) rest' dn')) ->
  run_step cf 1 (during k 4 (Sys c kk) rest dn) = Some (during k 4 (kk r) rest' dn').
Proof.
  intros Hk. eapply (run_sys_done cf 1 (during k 4 (Sys c kk) rest dn)) in Hk; [|reflexivity|reflexivity].
  exact Hk.
Qed.

Lemma child_blocks k c kk rest dn :
  kexec 1 c (kern (during k 4 (Ret 0) rest dn)) = Block -> run_step cf 1 (during k 4 (Sys c kk) rest dn) = None.
Proof. intros Hk. by eapply (run_sys_block cf 1 (during k 4 (Sys c kk) rest dn)) in Hk. Qed.

(** What total correctness of the child's step takes, when it is known. *)
Lemma goes_on {w : world pl_call pl} {w1 Q} (P : Prop) :
  run_step cf 1 w = Some w1 -> total cf w1 Q ->
  (P -> run_step cf 1 w <> None) /\ (forall w', run_step cf 1 w = Some w' -> total cf w' Q).
Proof. intros -> Ht. split; [discriminate|]. by intros ? [= <-]. Qed.

Lemma waits {w : world pl_call pl} {Q} (P : Prop) :
  run_step cf 1 w = None -> ~ P ->
  (P -> run_step cf 1 w <> None) /\ (forall w', run_step cf 1 w = Some w' -> total cf w' Q).
Proof. intros -> HP. split; [done|discriminate]. Qed.

(** A filter's [read], whichever of the three things it does. *)
Lemma filter_reads k n kk rest dn Q :
  (k <= 6)%nat -> 0 < n ->
  (rest = [] -> total cf (during k 4 (kk (ok 0)) rest dn) Q) ->
  (forall chunk rest', rest = chunk ++ rest' -> chunk <> [] -> blen chunk <= n -> (3 <= k)%nat ->
     total cf (during k 4 (kk (ok_bytes (blen chunk) chunk)) rest' dn) Q) ->
  (k = 6%nat -> run_step cf 1 (during k 4 (Sys (Read 0 n) kk) rest dn) <> None) /\
  (forall w', run_step cf 1 (during k 4 (Sys (Read 0 n) kk) rest dn) = Some w' -> total cf w' Q).
Proof.
  intros Hk Hn Hend Hmore. pose proof (child_reads k n rest dn Hk) as Hread.
  destruct (Nat.ltb_spec k 3).
  { destruct (Nat.ltb_spec k 5); [|lia]. apply waits; [by apply child_blocks|lia]. }
  destruct rest as [|c rest].
  - destruct (Nat.ltb_spec k 5).
    + apply waits; [by apply child_blocks|lia].
    + eapply goes_on; [by apply child_sys|auto].
  - eapply goes_on; [by apply child_sys|]. apply Hmore; [by rewrite take_drop| | |done].
    + destruct (Z.to_nat n) eqn:E; [lia|done].
    + unfold blen. rewrite length_take. lia.
Qed.

Lemma ended_kernel k dn :
  World [Process (Live (parent_at k)) None []; Process (Zombie 0) (Some 0%nat) []]
    (kexit 1 (kern (during k 4 (Ret 0) [] dn))) [] [] = ended_at k dn.
Proof.
  unfold ended_at, during. cbn [kern kexit pl_kernel with_fds pl_bufs pl_fds pl_errno pl_stdout pl_path].
  by destruct (k <? 3)%nat.
Qed.

Lemma ended_like k dn w : w = ended_at k dn -> (3 <= k <= 6)%nat -> total cf w (piped dn).
Proof. intros ->. apply filter_ended. Qed.

Lemma filter_total rest out im :
  filters rest out im -> forall k dn,
  (k <= 6)%nat -> ((k < 3)%nat -> rest = payload) ->
  total cf (during k 4 (as_image im) rest dn) (piped (dn ++ out)).
Proof.
  induction 1 as [rest out n kk Hn _ IH0 _ IH|rest data out kk _ IH|rest out S R body x kk _ IH| |];
    intros k dn Hk Hrest; (apply total_during; [exact Hk|lia|exact Hrest|]); intros k' Hk' Hrest'.
  - apply filter_reads; [lia|done| |].
    + intros ->. apply IH0; [done|lia|exact Hrest'].
    + intros chunk rest' E Hne Hle H3. apply (IH chunk rest'); [done..|lia|lia].
  - eapply goes_on; [apply child_sys, child_writes|]. rewrite app_assoc. apply IH; [lia|exact Hrest'].
  - eapply goes_on; [by eapply run_loop|]. rewrite <- unroll_bind. apply IH; [lia|exact Hrest'].
  - destruct (decide (k' < 3)%nat) as [H3|H3]; [by specialize (Hrest' H3)|].
    eapply goes_on; [reflexivity|]. rewrite app_nil_r. apply (ended_like k'); [|lia]. exact (ended_kernel k' dn).
  - destruct (decide (k' < 3)%nat) as [H3|H3]; [by specialize (Hrest' H3)|].
    eapply goes_on; [reflexivity|]. rewrite app_nil_r. apply (ended_like k'); [|lia]. exact (ended_kernel k' dn).
Qed.

(** *** The child up to [exec] *)

Hypothesis Htr : B "tr" ∈ path.

Lemma tr_found : existsb (fun f => bool_decide (f = B "tr")) path = true.
Proof.
  apply existsb_exists. exists (B "tr"). split; [by apply list_elem_of_In|by apply bool_decide_eq_true].
Qed.

Lemma exec_runs k rest dn :
  run_step cf 1 (during k 3 (child_at 3) rest dn) = Some (during k 4 (child_at 4) rest dn).
Proof.
  etransitivity;
    [eapply (run_sys_done cf 1 _ _ (Execlp (B "tr") tr_argv) _ (ok 0) (kern (during k 3 (child_at 3) rest dn)));
       [reflexivity|reflexivity|]|reflexivity].
  cbn [kexec pl_kernel pl_exec]. unfold during at 1. cbn [kern pl_path]. by rewrite tr_found.
Qed.

Lemma child_image : child_at 4 = as_image (image (B "tr") tr_argv).
Proof.
  change (child_at 4) with
    (bind (as_image (image (B "tr") tr_argv) : prog pl_call reply)
       (fun r => die_errno (rerr r) (B "execlp tr") : prog pl_call Z)).
  by rewrite bind_assoc.
Qed.

Lemma child_next k j dn :
  (k <= 6)%nat -> (j < 4)%nat ->
  run_step cf 1 (during k j (child_at j) payload dn) = Some (during k (S j) (child_at (S j)) payload dn).
Proof.
  intros Hk Hj. assert (j = 0 \/ j = 1 \/ j = 2 \/ j = 3)%nat as [->|[->|[->| ->]]] by lia.
  4: apply exec_runs.
  all: reflexivity.
Qed.

Lemma plumbing out k j :
  filters payload out (image (B "tr") tr_argv) -> (k <= 6)%nat -> (j <= 4)%nat ->
  total cf (during k j (child_at j) payload []) (piped out).
Proof.
  intros Hf Hk Hj. remember (4 - j)%nat as m eqn:Hm. revert k j Hk Hj Hm.
  induction m as [|m IH]; intros k j Hk Hj Hm.
  - assert (j = 4%nat) as -> by lia. rewrite child_image. by apply (filter_total payload out).
  - apply total_during; [lia..|done|]. intros k' Hk' _.
    eapply goes_on; [apply child_next; lia|]. apply IH; lia.
Qed.
End Correct.

(** C9. [anonymous_pipeline_exec.c] under every schedule: whatever program is
    executed as [tr a-z A-Z], if it filters its standard input into upper
    case, then the pipeline ends, because both processes close the ends they
    do not use and the filter sees the end of its input; the payload has come
    out in upper case, the parent has reaped the child and exits with 0, and
    no end of the pipe is left open. *)
Theorem pipeline_correct image cf path :
  B "tr" ∈ path ->
  (forall input, filters input (tr_output input) (image (B "tr") tr_argv)) ->
  total cf (boot (main image) (machine path)) (fun w =>
    finished 0 [] w /\ pl_stdout (kern w) = ln "KERNEL PIPES FEED CHILD PROCESS STANDARD INPUT" /\
    open_writer (kern w) 0 = false /\ open_reader (kern w) 0 = false).
Proof.
  intros Hpath Hf. eapply total_solo; [done|reflexivity|]. eapply total_solo; [done|reflexivity|].
  apply (plumbing image cf path Hpath (tr_output payload) 0 0); [apply Hf|lia|lia].
Qed.

(** The simplest such program: it reads up to 4096 bytes at a time. *)
Definition copy_body (f : bytes -> bytes) : unit -> prog pl_call (unit + Z) :=
  fun _ =>
    n <- sys (Read 0 4096) ;;
    if rv n =? 0 then Ret (inr 0) else sys (Write 1 (f (rbytes n))) ;;; Ret (inl tt).
Definition copy (f : bytes -> bytes) : prog pl_call Z := loop (copy_body f) tt.

Lemma copy_filters (f : ascii -> ascii) input : filters input (f <$> input) (copy (fmap f)).
Proof.
  remember (length input) as m eqn:Hm. revert input Hm.
  induction (lt_wf m) as [m _ IH]. intros input ->.
  apply filters_loop, filters_read; [done| |].
  - intros ->. apply filters_ret.
  - intros chunk rest -> Hne Hle. cbn [rv ok_bytes].
    replace (blen chunk =? 0) with false by (symmetry; apply Z.eqb_neq; unfold blen; destruct chunk; [done|cbn; lia]).
    cbn. rewrite fmap_app. apply filters_write. apply (IH (length rest)); [|done].
    rewrite length_app. destruct chunk; [done|cbn; lia].
Qed.

Lemma pipeline_witness :
  total (Config true 7) (boot (main (fun _ _ => copy (fmap upper))) (machine [B "tr"])) (fun w =>
    finished 0 [] w /\ pl_stdout (kern w) = ln "KERNEL PIPES FEED CHILD PROCESS STANDARD INPUT" /\
    open_writer (kern w) 0 = false /\ open_reader (kern w) 0 = false).
Proof.
  apply (pipeline_correct (fun _ _ => copy (fmap upper))).
  - constructor.
  - intros input. apply (copy_filters upper).
Defined.

(** Where [tr] is not installed: the child says so and exits with 1, and the
    parent either is killed, when the child has already gone as it writes, or
    ignores the status of its child and exits with 0. *)
Theorem pipeline_without_tr image cf :
  total cf (boot (main image) (machine [])) (fun w =>
    errout w = ln "error: execlp tr: No such file or directory" /\ out w = [] /\ pl_stdout (kern w) = [] /\
    (procs w = [Process (Zombie 0) None []; Process Reaped (Some 0%nat) []] \/
     procs w = [Process Crashed None []; Process (Zombie 1) (Some 0%nat) []])).
Proof.
  destruct cf as [[] p]; apply layers_boot; explore;
    (split; [reflexivity|]; split; [reflexivity|]; split; [reflexivity|]; (left; reflexivity) || (right; reflexivity)).
Qed.
