(* ===== verification/ForkFails.v ===== *)
(** * ForkFails: the programs when no process can be created

    Most programs do not check [fork].  When it fails (a limit on processes
    has been reached) the value -1 is taken for the parent's side.  This file
    runs the programs with every [fork] failing: some hang, some report a
    wrong result as if nothing had happened, some notice only when they wait
    for the child they do not have, and some say what happened. *)

From S2P Require Import Prelude Fmt Posix Common Shm Ring Semaphores Sysv Barrier Files FileLocks Msgq.
From S2P Require Import Workers Io AltIo Pipes Sockets TcpServer Pipeline.

Section Alone.
Context {C K : Type} `{Kernel C K} (cf : config).
Implicit Types w : world C K.

(** The next event of a process that is alone: [fork] fails with [EAGAIN],
    and a call that would block gives up if it has a timeout. *)
Definition alone_event (w : world C K) : event :=
  match procs w with
  | Process (Live (Proc Fork _)) _ _ :: _ => Fail 0 EAGAIN
  | _ => match run_step cf 0 w with Some _ => Run 0 | None => Fail 0 ETIMEDOUT end
  end.
Definition alone_step (w : world C K) : option (world C K) := exec cf (alone_event w) w.
Fixpoint alone (fuel : nat) (w : world C K) : world C K :=
  match fuel with
  | O => w
  | S f => match alone_step w with Some w' => alone f w' | None => w end
  end.

Lemma alone_reach n w : rtc (stepf cf) w (alone n w).
Proof.
  revert w. induction n as [|n IH]; intros w; cbn; [apply rtc_refl|].
  destruct (alone_step w) as [w'|] eqn:E; [|apply rtc_refl].
  eapply rtc_l; [by exists (alone_event w)|apply IH].
Qed.
End Alone.

(** How such a run ends: blocked for good, or with an exit code, a text on
    standard output and one on standard error. *)
Inductive verdict : Type :=
| Hangs
| Ends (code : Z) (text err : bytes).

Definition verdict_of {C K} (w : world C K) : option verdict :=
  match procs w with
  | [p] => match p_stat p with
           | Live _ => Some Hangs
           | Zombie code => Some (Ends code (out w) (errout w))
           | _ => None
           end
  | _ => None
  end.

(** The run of [main] without children: it stops after some number of steps,
    no process having been created, with the given verdict. *)
Definition childless {C K} `{Kernel C K} (cf : config) (main : prog C Z) (s : K) (v : verdict) : Prop :=
  exists n, let w := alone cf n (boot main s) in
    alone_step cf w = None /\ verdict_of w = Some v.

(** Such a run is one of the machine with failing calls, and a hang is a
    state that no process leaves. *)
Lemma childless_hangs {C K} `{Kernel C K} cf (main : prog C Z) (s : K) :
  childless cf main s Hangs -> exists w, rtc (stepf cf) (boot main s) w /\ deadlock cf w.
Proof.
  intros (n & Hstop & Hv). set (w := alone cf n (boot main s)) in *.
  exists w. split; [apply alone_reach|].
  unfold verdict_of in Hv. destruct (procs w) as [|p [|]] eqn:Hp; try done.
  destruct (p_stat p) as [q| | |] eqn:Hq; try done.
  split.
  - intros Hh. unfold halted in Hh. rewrite Hp in Hh. apply Forall_cons in Hh as [Hl _].
    unfold is_live in Hl. by rewrite Hq in Hl.
  - intros [w' [[|i] Hs]].
    2: { unfold run_step in Hs. rewrite Hp in Hs. done. }
    unfold alone_step, alone_event in Hstop. rewrite Hp, Hs in Hstop.
    destruct p as [st par ob]. cbn in Hq. subst st.
    destruct q as [code|c k|c k|code|code| |S R body x k]; cbn in Hstop; try (by rewrite Hs in Hstop).
    destruct c; cbn in Hstop; try (by rewrite Hs in Hstop).
    unfold fail_step in Hstop. by rewrite Hp in Hstop.
Qed.

(** The verdict after at most [n] steps, by evaluation. *)
Definition verdict_in {C K} `{Kernel C K} (cf : config) (n : nat) (main : prog C Z) (s : K) : option verdict :=
  let w := alone cf n (boot main s) in
  match alone_step cf w with None => verdict_of w | Some _ => None end.

Lemma childless_in {C K} `{Kernel C K} cf n (main : prog C Z) (s : K) v :
  verdict_in cf n main s = Some v -> childless cf main s v.
Proof.
  unfold verdict_in. cbv zeta. intros Hv. exists n. cbv zeta.
  by destruct (alone_step cf (alone cf n (boot main s))).
Qed.

Ltac by_running := apply (childless_in _ 400); vm_compute; reflexivity.

(** Machines on which nothing has been created yet. *)
Definition no_shm : shm := ShmState [] [] [] [].
Definition no_sysv : sysv := SysvState [] [] [] [].
Definition no_queues : msgq := MsgqState [].

(** C32. Without children these programs wait forever for something only a child
    would do: the ring's producer for a free slot, the ping-pong's parent for
    its turn, the two message-queue programs for a reply (the client of
    [sysv_request_reply.c] if it is not process 1), the reader of the
    event counter for an event, and the two servers for a connection. *)
Theorem fork_failure_hangs cf port ports :
  childless cf Ring.main no_shm Hangs /\
  childless cf PingPong.main no_shm Hangs /\
  (pid0 cf <> 1%positive -> childless cf RequestReply.main no_queues Hangs) /\
  childless cf Workers.main no_queues Hangs /\
  childless cf EventfdCounter.main (idle ports) Hangs /\
  childless cf HalfClose.main (idle (port :: ports)) Hangs /\
  childless cf TcpServer.main (idle (port :: ports)) Hangs.
Proof.
  assert (Hreply : forall tty p, p <> 1%positive -> childless (Config tty p) RequestReply.main no_queues Hangs).
  { intros [] [p|p|] Hp; [by_running..|done|by_running|by_running|done]. }
  destruct cf as [[] p]; (split; [by_running|]); (split; [by_running|]); (split; [apply Hreply|]);
    repeat split; by_running.
Qed.

(** C33. These exit with 0 as if they had done their work; the counters report a
    number the program itself says is wrong. *)
Theorem fork_failure_unnoticed cf :
  childless cf ProcessSharedMutex.main no_shm (Ends 0 (ln "shared balance=0 expected=4000") []) /\
  childless cf BinaryGuard.main no_sysv (Ends 0 (ln "system-v guarded counter=0 expected=4000") []) /\
  childless cf MmapCounter.main (disk MmapCounter.FILE_PATH None) (Ends 0 (ln "counter=0 expected=4000") []) /\
  childless cf OfdCounter.main (disk OfdCounter.FILE_PATH None) (Ends 0 (ln "ofd-locked counter=0 expected=1500") []) /\
  childless cf Ordered.main (disk Ordered.FILE_PATH None) (Ends 0 [] []) /\
  childless cf Barrier.main no_sysv (Ends 0 [] []).
Proof. destruct cf as [[] p]; repeat split; by_running. Qed.

(** These end with code 1: the ones that check [fork] say why, the others
    fail later, where they wait for the child or for a connection. *)
Theorem fork_failure_reported cf image path port ports :
  let fork_error := Ends 1 [] (ln "error: fork: Resource temporarily unavailable") in
  let wait_error := Ends 1 [] (ln "error: waitpid: No child processes") in
  childless cf FifoChat.main (idle ports) fork_error /\
  childless cf FullDuplex.main (idle ports) fork_error /\
  childless cf AbstractPing.main (idle ports) fork_error /\
  childless cf FdPassing.main (idle ports) fork_error /\
  childless cf DgramLogger.main (idle ports) fork_error /\
  childless cf (Pipeline.main image) (machine path) fork_error /\
  childless cf Ranges.main (disk Ranges.FILE_PATH None) wait_error /\
  childless cf FlockParentChild.main (disk FlockParentChild.FILE_PATH None) wait_error /\
  childless cf Latch.main no_shm wait_error /\
  childless cf MemfdSealed.main (idle ports) wait_error /\
  childless cf CopyOnWrite.main (idle ports) wait_error /\
  childless cf EpollEcho.main (idle (port :: ports)) (Ends 1 [] (ln "error: epoll_wait timeout")).
Proof. destruct cf as [[] p]; repeat split; by_running. Qed.
